(* ===== verification/_CoqProject ===== *)
-Q . S2P
Prelude.v
GoStrings.v
Types.v
SyncStore.v
Filter.v
Policy.v
Retry.v
CircuitBreaker.v
Durations.v
RingBuffer.v
RingSafety.v
RingEnds.v
RingSpec.v
RingProgress.v
Config.v
ClientOpts.v
Kgo.v
SyncIO.v
Dlq.v
Heartbeats.v
Translator.v
Checkpoints.v
Metrics.v
Admin.v
SourceLoop.v
Discovery.v
Parallel.v
CatchUp.v
Engine.v
Ownership.v
EngineSafety.v
CatchUpPlan.v
SyncFlow.v
Disorder.v
