(* ===== verification/Prelude.v ===== *)
(** * gomm2: a verification development

    gomm2 mirrors the topics of one Kafka cluster into another. This library
    models the Go program under src/ and proves what makes it correct, part by
    part and then for their composition.

    ** The program

    A configuration (src/internal/config) names clusters and replications. For
    every enabled replication, a flow, the engine (src/internal/mirror/engine.go)
    builds a source replicator, a heartbeat emitter, a checkpoint emitter, a topic
    discovery, a dead letter queue and a sync store. The source replicator polls
    records, produces them to the target and hands, for acknowledged records, the
    pair of offsets to the sync store and to the sync writer; the sync reader
    fills the store again after a restart; the checkpoint emitter translates the
    offsets of consumer groups through the store. Topic discovery creates the
    target topics and subscribes the source replicator. Before the source
    replicators start, partitions far behind are caught up by the parallel
    source: fetchers publish into an offset-ordered ring buffer, and one drainer
    produces what comes out of it.

    ** The files

    - Prelude: tactics, fixed-width integers, outcomes of fallible calls, lemmas
      on lists; GoStrings: the functions of Go's strings package that are used.
    - Types (pkg/types/types.go): the data types, serializers and the decoder.
    - SyncStore (internal/offset/sync_store.go): [HandleSync],
      [TranslateDownstream] and a reference definition of the update.
    - Filter (internal/filter/topic.go), Policy (internal/policy/replication.go):
      the filters; the policies behind one interface, [PolicyLaws].
    - Retry, CircuitBreaker (internal/mirror/retry.go): the retry loop with its
      backoff in float64; the breaker as a state machine.
    - RingBuffer (internal/mirror/ring_buffer.go): the buffer at the grain of its
      atomic operations; RingSafety: its invariant under every interleaving;
      RingEnds: the measure that bounds its schedules; RingSpec: the channel it
      refines; RingProgress: why its goroutines stop.
    - Durations, Config (internal/config/config.go), ClientOpts
      (internal/config/sasl.go, internal/kafka/builder.go): the text of durations,
      defaults, validation, client options.
    - Kgo: what is exchanged with the Kafka client library, and the bookkeeping of
      the clients opened and closed.
    - SyncIO (internal/offset/sync_writer.go, sync_reader.go), Dlq, Heartbeats,
      Checkpoints (internal/mirror/dlq.go, heartbeat.go, checkpoint.go): one file
      each; Translator is the interface of the sync store to the checkpoints,
      which SyncStore's theorems discharge.
    - Metrics (internal/metrics/metrics.go): the vectors and their labels.
    - Admin (internal/admin): the admin client and the configuration sync.
    - SourceLoop (internal/mirror/source.go), Discovery
      (internal/mirror/topic_discovery.go): the source replicator and discovery.
    - Parallel, CatchUp (internal/mirror/parallel_source.go): split, fetchers,
      drainer, the catch-up pipeline, the lag queries.
    - Engine (internal/mirror/engine.go, cmd/gomm2/main.go): construction, the
      phases of a run, the shutdown, the command line; Ownership and EngineSafety
      compose the components' lemmas along them.
    - CatchUpPlan: which partitions a run catches up.
    - SyncFlow: the offset syncs of one flow through source replicator, topic,
      store and checkpoints, over any number of runs and restarts.
    - Disorder: the schedule of a catch-up that does not fit the ring buffer.

    ** How the code is represented

    A struct is a record, a method a function that takes the state and returns
    the new one. A call that fails returns an [outcome]: [Ok], [Err] with the
    message format and its arguments, or [Panic]. Integers are [Z]; [i64], [i32]
    and the like wrap where the code's arithmetic can overflow. Maps are [gmap];
    where Go iterates a map, the order met is an argument. What the outside
    answers (brokers, the file system, the clock, random numbers, Prometheus,
    regexp, the AWS SDK) is an argument or a class, so a theorem covers every
    answer; classes have concrete instances on which the examples are evaluated.
    Goroutines are step relations: one step per atomic operation in RingBuffer,
    one per action of the loop or of a callback in SourceLoop and CatchUp, one
    per method call under a mutex in SyncStore and CircuitBreaker. A callback with
    all its retries is one step: the trace has an [ERetry] for every record it
    hands over again. A fetcher of the buffer returns in a step of its own
    ([EvReturn], when it sees its end or the cancellation, or [EvFail]); its polls
    are not steps, so it need not return.

    ** The theorems

    - The sync store: its array satisfies the invariant (run_store_inv), the
      update is the reference one (HandleSync_refines_merge) and keeps the spacing
      of powers of two (HandleSync_spaced); a translation never skips a record
      (TranslateDownstream_safe), is monotone for exact syncs and as precise as
      the spacing.
    - Catch-up: ring buffer and drainer deliver the records of a partition in
      order, once each and completely (ring_in_order, ring_complete,
      catch_up_in_order), when the range fits the buffer or one fetcher runs on a
      range without gaps; what a callback retries comes again, later and without
      its timestamp (retries_ok).
      With a buffer of at most 50000 slots the engine starts a catch-up only where
      neither holds, and then some schedule is out of order
      (default_catchup_disorder).
    - The ring buffer as a component: it refines a channel of ordered batches
      (ring_refines); its schedules are finite (schedules_end), and one that can go
      no further is done or has lost a wakeup (stuck_overslept), which does happen
      (lost_wakeup_reachable, ex_both_asleep), as long as the records fit the
      buffer (gap_deadlock shows a hang where they do not).
    - Replication: a commit comes after every earlier produce has been settled
      (commit_waits); failed_record_committed and metric_flush_panics show where
      the loop falls short of what its comments say: from every state in which a
      failure is about to be read there is a run that commits past the record.
    - Restart and checkpoints: ReadToEnd_restores, emitCheckpoints_safe, and end to
      end failover_safe: whatever the interleavings and restarts, a consumer that
      resumes at a checkpoint skips nothing.
    - Discovery and configuration sync: refresh_spec, discovery_no_cycle,
      SyncTopicConfigs_converges.
    - Encodings and names: round trips and injectivity in Types and Policy, the
      inputs on which the decoder panics.
    - Configuration: Validate_ok_iff, setDefaults_spec, BuildClientOpts_spec,
      Duration_roundtrip.
    - Retrying: Retry_calls, computeBackoff_bounds, the breaker's invariant and
      transitions.
    - The engine: the bootstrap gives each flow its own writer and store
      (bootstrap_wires), a catch-up phase that returns has covered the partitions
      that are far behind, and it panics only with a drainer (catchup_plan), and a run closes what it opened (run_releases).

    ** Bounds and fuel

    [maintain] counts down the 63 iterations of its loop; [segments_from] the
    number of workers; [retry_loop] the attempts left; [parse_loop] the length of
    the text, which is never used up (parse_loop_total). The reading loops run on
    the list of poll results that arrive and return [None], or say so, while they
    want another; fetchWorker_exact says on which polls a fetcher returns, and
    [read_loop_ends] that the timeout ends the reading of the engine's bootstrap.

    ** Not modelled

    Logging, figures that are only logged, and the HTTP server around the
    readiness answer. YAML decoding is a parameter of [Parse]. The Go memory model is
    taken as sequentially consistent. The local record counts of the loop are
    integers where the code has float64. Kafka itself appears as the answers it
    gives. *)
From Stdlib Require Export ZArith Lia.
From Stdlib Require Import Strings.Byte.
From stdpp Require Export base numbers list gmap strings pretty relations.

#[global] Set Default Goal Selector "!".

Declare Scope gomm2_scope.
Delimit Scope gomm2_scope with gomm2.

(** ** Automation *)

Create HintDb gomm2.
Create Rewrite HintDb gomm2_norm.

(** Case analysis on every [match], [if] and [decide] of the goal, closing
    the impossible branches. *)
Ltac split_cases :=
  repeat (case_match || case_decide || case_bool_decide); simplify_eq/=.

(** Turn the boolean comparisons on [Z] and [nat] of the context and of the
    goal into propositions. *)
Ltac b2p :=
  repeat match goal with
    | H : andb _ _ = true |- _ => apply andb_true_iff in H as [? ?]
    | H : andb _ _ = false |- _ => apply andb_false_iff in H
    | H : orb _ _ = true |- _ => apply orb_true_iff in H
    | H : orb _ _ = false |- _ => apply orb_false_iff in H as [? ?]
    | H : negb _ = true |- _ => apply negb_true_iff in H
    | H : negb _ = false |- _ => apply negb_false_iff in H
    | H : (_ <=? _)%Z = true |- _ => apply Z.leb_le in H
    | H : (_ <=? _)%Z = false |- _ => apply Z.leb_gt in H
    | H : (_ <? _)%Z = true |- _ => apply Z.ltb_lt in H
    | H : (_ <? _)%Z = false |- _ => apply Z.ltb_ge in H
    | H : (_ =? _)%Z = true |- _ => apply Z.eqb_eq in H
    | H : (_ =? _)%Z = false |- _ => apply Z.eqb_neq in H
    end.

(** ** Go errors and the outcome of a call *)

(** [Errorf fmt args] is [fmt.Errorf(fmt, args...)]; [Wrapf fmt args cause] is
    the same call with a [%w] verb, which keeps [cause] for [errors.Is]. *)
Inductive error : Type :=
  | Errorf (fmt : string) (args : list string)
  | Wrapf (fmt : string) (args : list string) (cause : error).

#[global] Instance error_eq_dec : EqDecision error.
Proof. solve_decision. Defined.

(** The errors a [context.Context] reports through [Err()]. *)
Inductive ctx_err : Type := Canceled | DeadlineExceeded.

#[global] Instance ctx_err_eq_dec : EqDecision ctx_err.
Proof. solve_decision. Defined.

Definition ctx_error (e : ctx_err) : error :=
  match e with
  | Canceled => Errorf "context canceled" []
  | DeadlineExceeded => Errorf "context deadline exceeded" []
  end.

(** What a Go call does: it returns a value, it returns a non-nil error, or it
    panics. *)
Inductive outcome (A : Type) : Type :=
  | Ok (a : A)
  | Err (e : error)
  | Panic (why : string).
Arguments Ok {A} a.
Arguments Err {A} e.
Arguments Panic {A} why.

#[global] Instance outcome_eq_dec `{EqDecision A} : EqDecision (outcome A).
Proof. solve_decision. Defined.

#[global] Instance outcome_ret : MRet outcome := @Ok.
#[global] Instance outcome_bind : MBind outcome := λ A B f m,
  match m with Ok a => f a | Err e => Err e | Panic w => Panic w end.

(** [if err != nil { return fmt.Errorf(...%w, err) }] *)
Definition wrap_err {A} (fmt : string) (args : list string) (m : outcome A) : outcome A :=
  match m with Err e => Err (Wrapf fmt args e) | m => m end.

Definition is_ok {A} (m : outcome A) : bool :=
  match m with Ok _ => true | _ => false end.

Lemma bind_ok {A B} (m : outcome A) (f : A → outcome B) b :
  (m ≫= f) = Ok b ↔ ∃ a, m = Ok a ∧ f a = Ok b.
Proof.
  split; [|by intros (a & -> & ?)].
  destruct m; simpl; [eauto|discriminate..].
Qed.

Lemma wrap_err_ok {A} fmt args (m : outcome A) a :
  wrap_err fmt args m = Ok a ↔ m = Ok a.
Proof. destruct m; naive_solver. Qed.

#[export] Hint Rewrite @bind_ok @wrap_err_ok : gomm2_norm.

(** ** Machine integers

    Go's fixed-width integers are [Z]; an operation that may leave the range is
    followed by the wrap-around of its type. *)

Definition uint (w z : Z) : Z := z mod 2 ^ w.
Definition sint (w z : Z) : Z := (z + 2 ^ (w - 1)) mod 2 ^ w - 2 ^ (w - 1).

Abbreviation u16 := (uint 16).
Abbreviation u32 := (uint 32).
Abbreviation u64 := (uint 64).
Abbreviation i32 := (sint 32).
Abbreviation i64 := (sint 64).

Definition in_u (w z : Z) : Prop := (0 ≤ z < 2 ^ w)%Z.
Definition in_s (w z : Z) : Prop := (- 2 ^ (w - 1) ≤ z < 2 ^ (w - 1))%Z.

Section integers.
Local Open Scope Z_scope.

Lemma pow2_split w : 0 < w → 2 ^ w = 2 * 2 ^ (w - 1).
Proof. intros. rewrite <- Z.pow_succ_r by lia. f_equal. lia. Qed.

Lemma uint_small w z : in_u w z → uint w z = z.
Proof. intros. by apply Z.mod_small. Qed.

Lemma uint_range w z : 0 ≤ w → in_u w (uint w z).
Proof. intros. apply Z.mod_pos_bound. by apply Z.pow_pos_nonneg. Qed.

Lemma sint_small w z : 0 < w → in_s w z → sint w z = z.
Proof.
  intros Hw Hz. unfold sint, in_s in *.
  pose proof (pow2_split w Hw). rewrite Z.mod_small; lia.
Qed.

Lemma sint_range w z : 0 < w → in_s w (sint w z).
Proof.
  intros Hw. unfold sint, in_s. pose proof (pow2_split w Hw).
  pose proof (Z.mod_pos_bound (z + 2 ^ (w - 1)) (2 ^ w)). lia.
Qed.

(** Reinterpreting a signed value as unsigned and back is the identity. *)
Lemma sint_uint w z : 0 < w → sint w (uint w z) = sint w z.
Proof.
  intros. unfold sint, uint. f_equal.
  rewrite Zplus_mod_idemp_l. done.
Qed.

(** Intermediate wrap-arounds are absorbed by the outermost one. *)
Lemma sint_add_l w a b : sint w (sint w a + b) = sint w (a + b).
Proof.
  unfold sint. f_equal.
  replace ((a + 2 ^ (w - 1)) mod 2 ^ w - 2 ^ (w - 1) + b + 2 ^ (w - 1))
    with ((a + 2 ^ (w - 1)) mod 2 ^ w + b) by lia.
  rewrite Zplus_mod_idemp_l. f_equal. lia.
Qed.

Lemma sint_add_r w a b : sint w (a + sint w b) = sint w (a + b).
Proof. by rewrite Z.add_comm, sint_add_l, Z.add_comm. Qed.

Lemma sint_sub_r w a b : sint w (a - sint w b) = sint w (a - b).
Proof.
  unfold sint at 1 3. f_equal. unfold sint.
  replace (a - ((b + 2 ^ (w - 1)) mod 2 ^ w - 2 ^ (w - 1)) + 2 ^ (w - 1))
    with ((a + 2 * 2 ^ (w - 1)) - (b + 2 ^ (w - 1)) mod 2 ^ w) by lia.
  rewrite Zminus_mod_idemp_r. f_equal. lia.
Qed.

(** Overflow of a sum of two in-range values is visible in its sign. *)
Lemma i64_add_overflow a b :
  0 ≤ a < 2 ^ 63 → 0 ≤ b < 2 ^ 63 →
  i64 (a + b) = if decide (a + b < 2 ^ 63) then a + b else a + b - 2 ^ 64.
Proof.
  intros Ha Hb. unfold sint. case_decide.
  - rewrite Z.mod_small; lia.
  - replace (a + b + 2 ^ (64 - 1)) with ((a + b - 2 ^ 63) + 1 * 2 ^ 64) by lia.
    rewrite Z.mod_add by lia. rewrite Z.mod_small; lia.
Qed.
End integers.

#[export] Hint Rewrite sint_add_l sint_add_r sint_sub_r : gomm2_norm.
#[export] Hint Resolve uint_range sint_range : gomm2.

(** ** Bytes *)

Abbreviation byte := Init.Byte.byte.

Definition Z_of_byte (b : byte) : Z := Z.of_N (Byte.to_N b).
Definition byte_of_Z (z : Z) : byte :=
  default Byte.x00 (Byte.of_N (Z.to_N (z mod 256))).

Lemma Z_of_byte_range b : (0 ≤ Z_of_byte b < 256)%Z.
Proof. unfold Z_of_byte. pose proof (Byte.to_N_bounded b). lia. Qed.

Lemma Z_of_byte_of_Z z : Z_of_byte (byte_of_Z z) = (z mod 256)%Z.
Proof.
  unfold Z_of_byte, byte_of_Z.
  pose proof (Z.mod_pos_bound z 256). 
  destruct (Byte.of_N (Z.to_N (z mod 256))) as [b|] eqn:E; simpl.
  - apply Byte.to_of_N in E. rewrite E. lia.
  - apply Byte.of_N_None_iff in E. lia.
Qed.

Lemma byte_of_Z_of_byte b : byte_of_Z (Z_of_byte b) = b.
Proof.
  unfold byte_of_Z. rewrite Z.mod_small by apply Z_of_byte_range.
  unfold Z_of_byte. rewrite N2Z.id, Byte.of_to_N. done.
Qed.

(** [binary.BigEndian.PutUintN] and [binary.BigEndian.UintN] on [n] bytes. *)
Fixpoint be_split (n : nat) (z : Z) : list byte :=
  match n with
  | O => []
  | S m => byte_of_Z (z / 256 ^ Z.of_nat m) :: be_split m z
  end.

Fixpoint be_combine (bs : list byte) : Z :=
  match bs with
  | [] => 0
  | b :: bs => Z_of_byte b * 256 ^ Z.of_nat (length bs) + be_combine bs
  end%Z.

Lemma length_be_split n z : length (be_split n z) = n.
Proof. induction n; simpl; congruence. Qed.

Lemma be_combine_range bs : (0 ≤ be_combine bs < 256 ^ Z.of_nat (length bs))%Z.
Proof.
  induction bs as [|b bs IH]; cbn [be_combine length]; [lia|].
  pose proof (Z_of_byte_range b).
  rewrite Nat2Z.inj_succ, Z.pow_succ_r by lia. nia.
Qed.

Lemma be_combine_split n z :
  be_combine (be_split n z) = (z mod 256 ^ Z.of_nat n)%Z.
Proof.
  induction n as [|n IH]; cbn [be_split be_combine].
  - by rewrite Z.mod_1_r.
  - rewrite IH, length_be_split, Z_of_byte_of_Z, Nat2Z.inj_succ, Z.pow_succ_r by lia.
    rewrite (Z.mul_comm 256), Z.rem_mul_r by lia. lia.
Qed.

Lemma be_split_combine bs : be_split (length bs) (be_combine bs) = bs.
Proof.
  assert (∀ n q z, (0 ≤ z)%Z →
    be_split n (q * 256 ^ Z.of_nat n + z) = be_split n z) as Hhi.
  { induction n as [|n IH]; intros q z ?; cbn [be_split]; [done|].
    rewrite Nat2Z.inj_succ, Z.pow_succ_r by lia. 
    replace (q * (256 * 256 ^ Z.of_nat n) + z)%Z
      with (q * 256 * 256 ^ Z.of_nat n + z)%Z by lia.
    rewrite IH by done. f_equal.
    rewrite Z.div_add_l by lia. unfold byte_of_Z.
    rewrite Z.add_comm, Z.mod_add by lia. done. }
  induction bs as [|b bs IH]; cbn [be_combine be_split length]; [done|].
  pose proof (be_combine_range bs). f_equal.
  - rewrite Z.div_add_l, Z.div_small, Z.add_0_r by lia. apply byte_of_Z_of_byte.
  - rewrite Hhi by lia. done.
Qed.

Lemma be_split_inj n a b :
  be_split n a = be_split n b → (a mod 256 ^ Z.of_nat n = b mod 256 ^ Z.of_nat n)%Z.
Proof. intros H. by rewrite <- !be_combine_split, H. Qed.

#[export] Hint Rewrite length_be_split be_combine_split : gomm2_norm.

(** [[]byte(s)] and [string(b)]. *)
Definition bytes_of_string (s : string) : list byte := String.list_byte_of_string s.
Definition string_of_bytes (b : list byte) : string := String.string_of_list_byte b.

Lemma string_of_bytes_of_string s : string_of_bytes (bytes_of_string s) = s.
Proof. apply String.string_of_list_byte_of_string. Qed.

Lemma bytes_of_string_inj s t : bytes_of_string s = bytes_of_string t → s = t.
Proof.
  intros H. by rewrite <- (string_of_bytes_of_string s), H, string_of_bytes_of_string.
Qed.

#[export] Hint Rewrite string_of_bytes_of_string : gomm2_norm.

(** [buf[lo:hi]], whose bounds Go checks at run time. *)
Definition slice {A} (buf : list A) (lo hi : Z) : outcome (list A) :=
  if (0 <=? lo)%Z && (lo <=? hi)%Z && (hi <=? Z.of_nat (length buf))%Z
  then Ok (take (Z.to_nat (hi - lo)) (drop (Z.to_nat lo) buf))
  else Panic "slice bounds out of range".

(** [copy(buf[off:], src)]: writes [src] at [off], never past the end. *)
Definition copy_at {A} (off : nat) (src buf : list A) : list A :=
  take off buf ++ take (length buf - off) src ++ drop (off + length src) buf.

Lemma copy_at_middle {A} (pre mid post src : list A) :
  length mid = length src →
  copy_at (length pre) src (pre ++ mid ++ post) = pre ++ src ++ post.
Proof.
  intros Hl. unfold copy_at.
  rewrite take_app_length, !length_app, (take_ge src) by lia.
  rewrite <- Hl, <- drop_drop, drop_app_length, drop_app_length. done.
Qed.

(** ** Reachability *)

(** Rule induction for an invariant of a step relation. *)
Lemma rtc_invariant {S} (R : relation S) (I : S → Prop) s s' :
  (∀ x y, I x → R x y → I y) → I s → rtc R s s' → I s'.
Proof. intros HR Hs Hr. induction Hr; eauto. Qed.

(** An invariant of a left fold. *)
Lemma foldl_invariant {A B} (f : A → B → A) (I : A → Prop) a l :
  (∀ a b, b ∈ l → I a → I (f a b)) → I a → I (foldl f a l).
Proof.
  revert a. induction l as [|b l IH]; simpl; intros a Hf Ha; [done|].
  apply IH; [|apply Hf; [left|done]]. intros a' b' Hb. apply Hf. by right.
Qed.

(** ** Lists of lists *)

Lemma elem_of_concat {A} (x : A) ls : x ∈ concat ls ↔ ∃ l, x ∈ l ∧ l ∈ ls.
Proof.
  rewrite list_elem_of_In, in_concat. split.
  - intros (l & Hl & Hx). exists l. by rewrite !list_elem_of_In.
  - intros (l & Hx & Hl). exists l. by rewrite <- !list_elem_of_In.
Qed.

(** Deleting one position keeps the other elements. *)
Lemma elem_of_delete_ne {A} (l : list A) i x y :
  x ∈ l → l !! i = Some y → x ≠ y → x ∈ delete i l.
Proof.
  intros [j Hj]%list_elem_of_lookup Hi Hne. apply list_elem_of_lookup.
  destruct (decide (j = i)) as [->|Hji]; [congruence|]. destruct (decide (j < i)).
  - exists j. by rewrite list_lookup_delete_lt.
  - exists (j - 1). rewrite list_lookup_delete_ge by lia. by replace (S (j - 1)) with j by lia.
Qed.
