(* ===== verification/GoStrings.v ===== *)
(** * The functions of Go's [strings] package the program uses

    Go strings are byte strings; so is Rocq's [string]. [HasPrefix], [HasSuffix],
    [Index] and the slices [s[:i]] and [s[i:]], with the lemmas the naming
    policies and the topic filters need. *)
From S2P Require Import Prelude.

(** [strings.HasPrefix(s, p)] *)
Definition HasPrefix (s p : string) : bool := String.prefix p s.

(** [s[n:]] and [s[:n]] for [n <= len(s)]. *)
Fixpoint str_drop (n : nat) (s : string) : string :=
  match n, s with
  | S n, String _ s => str_drop n s
  | _, _ => s
  end.
Fixpoint str_take (n : nat) (s : string) : string :=
  match n, s with
  | S n, String c s => String c (str_take n s)
  | _, _ => EmptyString
  end.

(** [strings.HasSuffix(s, suffix)] *)
Definition HasSuffix (s suffix : string) : bool :=
  (String.length suffix <=? String.length s)%nat
  && bool_decide (str_drop (String.length s - String.length suffix) s = suffix).

(** [strings.Index(s, sep)]; Go returns -1 where this returns [None]. *)
Fixpoint str_index (s sep : string) : option nat :=
  if HasPrefix s sep then Some 0
  else match s with
       | EmptyString => None
       | String _ s => S <$> str_index s sep
       end.

Definition Index (s sep : string) : Z :=
  match str_index s sep with Some n => Z.of_nat n | None => -1 end.

(** ** Lemmas *)

#[global] Arguments HasPrefix : simpl never.
#[global] Arguments HasSuffix : simpl never.

Lemma str_app_cons c s t : String c s +:+ t = String c (s +:+ t).
Proof. done. Qed.

Lemma str_app_nil_l s : "" +:+ s = s.
Proof. done. Qed.

Lemma str_app_assoc (s t u : string) : (s +:+ t) +:+ u = s +:+ (t +:+ u).
Proof. induction s as [|c s IH]; [done|]. by rewrite !str_app_cons, IH. Qed.

Lemma str_app_nil_r (s : string) : s +:+ "" = s.
Proof. induction s as [|c s IH]; [done|]. by rewrite str_app_cons, IH. Qed.

Lemma length_str_app s t :
  String.length (s +:+ t) = String.length s + String.length t.
Proof. induction s as [|c s IH]; [done|]. rewrite str_app_cons. simpl. by rewrite IH. Qed.

Lemma str_drop_app p s : str_drop (String.length p) (p +:+ s) = s.
Proof. by induction p. Qed.

Lemma str_take_app p s : str_take (String.length p) (p +:+ s) = p.
Proof.
  induction p as [|c p IH]; [by destruct s|]. rewrite str_app_cons. simpl. by rewrite IH.
Qed.

Lemma str_take_drop n s : str_take n s +:+ str_drop n s = s.
Proof.
  revert s. induction n as [|n IH]; intros [|c s]; [done..|]. simpl.
  by rewrite str_app_cons, IH.
Qed.

Lemma length_str_drop n s : String.length (str_drop n s) = String.length s - n.
Proof. revert s. induction n as [|n IH]; intros [|c s]; simpl; auto. Qed.

Lemma prefix_cons c p c' s :
  String.prefix (String c p) (String c' s)
  = if Ascii.ascii_dec c c' then String.prefix p s else false.
Proof. done. Qed.

Lemma HasPrefix_spec s p : HasPrefix s p = true ↔ ∃ t, s = p +:+ t.
Proof.
  unfold HasPrefix. revert s. induction p as [|c p IH]; intros s; simpl.
  - split; [by exists s|]. by destruct s.
  - destruct s as [|c' s]; [split; [done|intros [t ?]; done]|].
    rewrite prefix_cons. destruct (Ascii.ascii_dec c c') as [->|Hne].
    + rewrite IH. split; intros [t Ht]; exists t; [by rewrite Ht|by injection Ht].
    + split; [done|]. intros [t [= ? _]]. congruence.
Qed.

Lemma HasPrefix_app s p : HasPrefix (p +:+ s) p = true.
Proof. apply HasPrefix_spec. by exists s. Qed.

Lemma HasSuffix_spec s suf : HasSuffix s suf = true ↔ ∃ p, s = p +:+ suf.
Proof.
  unfold HasSuffix. split.
  - intros H. apply andb_true_iff in H as [_ H]. apply bool_decide_eq_true in H.
    exists (str_take (String.length s - String.length suf) s).
    rewrite <- H at 2. by rewrite str_take_drop.
  - intros [p ->]. rewrite length_str_app.
    rewrite (proj2 (Nat.leb_le _ _)) by lia.
    replace (_ + _ - _) with (String.length p) by lia.
    rewrite str_drop_app. by rewrite bool_decide_true.
Qed.

Lemma HasSuffix_app p suf : HasSuffix (p +:+ suf) suf = true.
Proof. apply HasSuffix_spec. by exists p. Qed.

#[export] Hint Rewrite str_app_nil_r str_drop_app str_take_app HasPrefix_app
  HasSuffix_app : gomm2_norm.

(** [Index] finds an occurrence, and the first one. *)
Lemma str_index_Some s sep n :
  str_index s sep = Some n ↔
  HasPrefix (str_drop n s) sep = true ∧ n ≤ String.length s ∧
  ∀ m, m < n → HasPrefix (str_drop m s) sep = false.
Proof.
  revert n. induction s as [|c s IH]; intros n; cbn [str_index].
  - destruct (HasPrefix "" sep) eqn:E; simpl.
    + split; [by intros [= <-]; repeat split; [|lia|lia]|].
      intros (_ & ? & _). f_equal. lia.
    + split; [done|]. intros (H & ? & _). destruct n; simpl in *; [congruence|lia].
  - destruct (HasPrefix (String c s) sep) eqn:E.
    + split; [by intros [= <-]; repeat split; [|lia|lia]|].
      intros (_ & _ & H). destruct n; [done|]. specialize (H 0 ltac:(lia)).
      simpl in H. congruence.
    + rewrite fmap_Some. setoid_rewrite IH. split.
      * intros (m & (? & ? & Hm) & ->). split; [done|]. split; [simpl; lia|].
        intros [|m'] ?; [done|]. apply Hm. lia.
      * destruct n as [|n]; simpl; [intros (? & _); congruence|].
        intros (? & ? & Hm). exists n. split; [|done]. split; [done|].
        split; [lia|]. intros m ?. apply (Hm (S m)). lia.
Qed.

Lemma str_index_None s sep n :
  str_index s sep = None → n ≤ String.length s → HasPrefix (str_drop n s) sep = false.
Proof.
  revert n. induction s as [|c s IH]; intros n; cbn [str_index].
  - destruct (HasPrefix "" sep) eqn:E; [done|]. intros _ ?. by destruct n.
  - destruct (HasPrefix (String c s) sep) eqn:E; [done|].
    intros H%fmap_None ?. destruct n; [done|]. apply IH; [done|simpl in *; lia].
Qed.

(** [s] without its last character. *)
Fixpoint str_init (s : string) : string :=
  match s with
  | EmptyString | String _ EmptyString => EmptyString
  | String c s => String c (str_init s)
  end.

Lemma str_init_last s : s ≠ "" → ∃ c, s = str_init s +:+ String c "".
Proof.
  induction s as [|c s IH]; [done|]. intros _. destruct s as [|c' s]; [by exists c|].
  destruct IH as [c'' H]; [done|]. exists c''.
  exact (f_equal (String c) H).
Qed.

Lemma str_drop_app_le n s t :
  n ≤ String.length s → str_drop n (s +:+ t) = str_drop n s +:+ t.
Proof.
  revert s. induction n as [|n IH]; intros [|c s] ?; simpl in *; [done..|lia|].
  apply IH. lia.
Qed.

Lemma HasPrefix_app_long p s t :
  HasPrefix (s +:+ t) p = true → String.length p ≤ String.length s → HasPrefix s p = true.
Proof.
  unfold HasPrefix. revert s. induction p as [|c p IH]; intros [|c' s];
    [done..|simpl; lia|]. rewrite str_app_cons, !prefix_cons. simpl.
  destruct (Ascii.ascii_dec c c'); [|done]. intros. apply IH; [done|lia].
Qed.

Lemma HasPrefix_length s p : HasPrefix s p = true → String.length p ≤ String.length s.
Proof. intros [t ->]%HasPrefix_spec. rewrite length_str_app. lia. Qed.

(** The separator is found right after [s] when it does not occur earlier; all
    earlier occurrences would lie inside [s] and the separator's own beginning. *)
Lemma str_index_app s sep t :
  sep ≠ "" → str_index (s +:+ str_init sep) sep = None →
  str_index (s +:+ sep +:+ t) sep = Some (String.length s).
Proof.
  intros Hsep Hnone. apply str_index_Some. split; [|split].
  - rewrite str_drop_app. apply HasPrefix_app.
  - rewrite length_str_app. lia.
  - intros m Hm. apply not_true_iff_false. intros Hp.
    destruct (str_init_last sep Hsep) as [c Hc].
    assert (s +:+ sep +:+ t = (s +:+ str_init sep) +:+ (String c "" +:+ t)) as Heq.
    { rewrite Hc at 1. by rewrite !str_app_assoc. }
    rewrite Heq, str_drop_app_le in Hp by (rewrite length_str_app; lia).
    apply HasPrefix_app_long in Hp.
    + rewrite (str_index_None _ _ m Hnone) in Hp; [done|]. rewrite length_str_app. lia.
    + rewrite length_str_drop, length_str_app.
      assert (String.length sep = String.length (str_init sep) + 1); [|lia].
      rewrite Hc at 1. by rewrite length_str_app.
Qed.

Lemma str_app_inj_l (p s t : string) : p +:+ s = p +:+ t → s = t.
Proof. induction p as [|c p IH]; [done|]. intros [= H]. by apply IH. Qed.

Lemma str_index_occurs s sep t : str_index (s +:+ sep +:+ t) sep ≠ None.
Proof.
  intros H. apply str_index_None with (n := String.length s) in H.
  - rewrite str_drop_app in H. assert (HasPrefix (sep +:+ t) sep = true) as Hp
      by (apply HasPrefix_spec; by eexists). congruence.
  - rewrite length_str_app. lia.
Qed.
