(* ===== verification/Types.v ===== *)
(** * pkg/types: the shared data types and their wire formats

    [TopicPartition], [OffsetSync], [Heartbeat], [Checkpoint] and
    [SourceAndTarget] of pkg/types/types.go, with the serializers written as the
    code writes them: a zeroed buffer filled by [binary.BigEndian.Put...] and
    [copy] at computed positions, and a decoder whose slice expressions are
    bounds-checked and whose length arithmetic is done in [uint16]. *)
From S2P Require Import Prelude.

Local Open Scope Z_scope.

(** ** Data *)

Record TopicPartition := { Topic : string; Partition : Z }.

#[global] Instance TopicPartition_eq_dec : EqDecision TopicPartition.
Proof. solve_decision. Defined.

#[global] Instance TopicPartition_countable : Countable TopicPartition.
Proof.
  refine (inj_countable' (λ tp, (Topic tp, Partition tp))
    (λ '(t, p), {| Topic := t; Partition := p |}) _).
  by intros [].
Defined.

Record OffsetSync := {
  os_tp : TopicPartition;
  UpstreamOffset : Z;
  DownstreamOffset : Z;
}.

#[global] Instance OffsetSync_eq_dec : EqDecision OffsetSync.
Proof. solve_decision. Defined.

#[global] Instance OffsetSync_inhabited : Inhabited OffsetSync :=
  populate {| os_tp := {| Topic := ""; Partition := 0 |};
              UpstreamOffset := 0; DownstreamOffset := 0 |}.

(** [Timestamp] is a [time.Time]: nanoseconds since the Unix epoch. *)
Record Heartbeat := {
  SourceCluster : string;
  TargetCluster : string;
  Timestamp : Z;
}.

Record Checkpoint := {
  ConsumerGroupID : string;
  cp_tp : TopicPartition;
  cp_UpstreamOffset : Z;
  cp_DownstreamOffset : Z;
  Metadata : string;
}.

Record SourceAndTarget := { Source : string; Target : string }.

(** ** Strings *)

Definition TopicPartition_String (tp : TopicPartition) : string :=
  Topic tp +:+ "-" +:+ pretty (Partition tp).

Definition OffsetSync_String (os : OffsetSync) : string :=
  "OffsetSync{tp=" +:+ TopicPartition_String (os_tp os)
  +:+ ", upstream=" +:+ pretty (UpstreamOffset os)
  +:+ ", downstream=" +:+ pretty (DownstreamOffset os) +:+ "}".

Definition Checkpoint_String (c : Checkpoint) : string :=
  "Checkpoint{group=" +:+ ConsumerGroupID c
  +:+ ", tp=" +:+ TopicPartition_String (cp_tp c)
  +:+ ", upstream=" +:+ pretty (cp_UpstreamOffset c)
  +:+ ", downstream=" +:+ pretty (cp_DownstreamOffset c) +:+ "}".

Definition SourceAndTarget_String (st : SourceAndTarget) : string :=
  Source st +:+ "->" +:+ Target st.

(** ** Serializers *)

(** [make([]byte, n)] *)
Definition make_bytes (n : nat) : list byte := replicate n Byte.x00.

(** [binary.BigEndian.PutUint16(buf[off:off+2], v)] and its wider variants. *)
Definition PutUint16 (off : nat) (v : Z) (buf : list byte) : list byte :=
  copy_at off (be_split 2 v) buf.
Definition PutUint32 (off : nat) (v : Z) (buf : list byte) : list byte :=
  copy_at off (be_split 4 v) buf.
Definition PutUint64 (off : nat) (v : Z) (buf : list byte) : list byte :=
  copy_at off (be_split 8 v) buf.

Definition OffsetSync_SerializeKey (os : OffsetSync) : list byte :=
  let topicBytes := bytes_of_string (Topic (os_tp os)) in
  let n := length topicBytes in
  let buf := make_bytes (2 + n + 4) in
  let buf := PutUint16 0 (u16 (Z.of_nat n)) buf in
  let buf := copy_at 2 topicBytes buf in
  PutUint32 (2 + n) (u32 (Partition (os_tp os))) buf.

Definition OffsetSync_SerializeValue (os : OffsetSync) : list byte :=
  let buf := make_bytes 16 in
  let buf := PutUint64 0 (u64 (UpstreamOffset os)) buf in
  PutUint64 8 (u64 (DownstreamOffset os)) buf.

(** [t.UnixMilli()] *)
Definition UnixMilli (t : Z) : Z := i64 (t / 1000000).

Definition Heartbeat_SerializeKey (h : Heartbeat) : list byte :=
  let src := bytes_of_string (SourceCluster h) in
  let tgt := bytes_of_string (TargetCluster h) in
  let buf := make_bytes (2 + length src + 2 + length tgt) in
  let buf := PutUint16 0 (u16 (Z.of_nat (length src))) buf in
  let buf := copy_at 2 src buf in
  let off := (2 + length src)%nat in
  let buf := PutUint16 off (u16 (Z.of_nat (length tgt))) buf in
  copy_at (off + 2) tgt buf.

Definition Heartbeat_SerializeValue (h : Heartbeat) : list byte :=
  let buf := make_bytes (2 + 8) in
  let buf := PutUint16 0 0 buf in
  PutUint64 2 (u64 (UnixMilli (Timestamp h))) buf.

Definition Checkpoint_SerializeKey (c : Checkpoint) : list byte :=
  let group := bytes_of_string (ConsumerGroupID c) in
  let topic := bytes_of_string (Topic (cp_tp c)) in
  let buf := make_bytes (2 + length group + 2 + length topic + 4) in
  let off := 0%nat in
  let buf := PutUint16 off (u16 (Z.of_nat (length group))) buf in
  let off := (off + 2)%nat in
  let buf := copy_at off group buf in
  let off := (off + length group)%nat in
  let buf := PutUint16 off (u16 (Z.of_nat (length topic))) buf in
  let off := (off + 2)%nat in
  let buf := copy_at off topic buf in
  let off := (off + length topic)%nat in
  PutUint32 off (u32 (Partition (cp_tp c))) buf.

Definition Checkpoint_SerializeValue (c : Checkpoint) : list byte :=
  let meta := bytes_of_string (Metadata c) in
  let buf := make_bytes (2 + 8 + 8 + 2 + length meta) in
  let off := 0%nat in
  let buf := PutUint16 off 0 buf in
  let off := (off + 2)%nat in
  let buf := PutUint64 off (u64 (cp_UpstreamOffset c)) buf in
  let off := (off + 8)%nat in
  let buf := PutUint64 off (u64 (cp_DownstreamOffset c)) buf in
  let off := (off + 8)%nat in
  let buf := PutUint16 off (u16 (Z.of_nat (length meta))) buf in
  let off := (off + 2)%nat in
  copy_at off meta buf.

(** ** The decoder *)

(** [binary.BigEndian.UintN(b)]: reads the first [n] bytes, panicking when the
    slice is shorter. *)
Definition GetUint (n : nat) (b : list byte) : outcome Z :=
  if (n <=? length b)%nat then Ok (be_combine (take n b))
  else Panic "index out of range".

(** [buf[lo:]] *)
Definition slice_from {A} (buf : list A) (lo : Z) : outcome (list A) :=
  slice buf lo (Z.of_nat (length buf)).

(** The expressions [2+topicLen] have type [uint16], so they wrap. *)
Definition DeserializeOffsetSync (key value : list byte) : outcome OffsetSync :=
  if (Z.of_nat (length key) <? 6)
  then Err (Errorf "offset sync key too short: %d bytes" [pretty (length key)])
  else
    k02 ← slice key 0 2;
    topicLen ← GetUint 2 k02;
    if (Z.of_nat (length key) <? topicLen + 6)
    then Err (Errorf "offset sync key topic length mismatch" [])
    else
      topic ← slice key 2 (u16 (2 + topicLen));
      rest ← slice_from key (u16 (2 + topicLen));
      partition ← GetUint 4 rest;
      if (Z.of_nat (length value) <? 16)
      then Err (Errorf "offset sync value too short: %d bytes" [pretty (length value)])
      else
        v0 ← slice value 0 8;
        upstream ← GetUint 8 v0;
        v1 ← slice value 8 16;
        downstream ← GetUint 8 v1;
        Ok {| os_tp := {| Topic := string_of_bytes topic; Partition := i32 partition |};
              UpstreamOffset := i64 upstream;
              DownstreamOffset := i64 downstream |}.

(** ** Reference layouts

    What the serializers promise: plain concatenations of fields. *)

Definition len16 (s : string) : list byte :=
  be_split 2 (Z.of_nat (length (bytes_of_string s))).
Definition str16 (s : string) : list byte := len16 s ++ bytes_of_string s.

(** ** Lemmas *)

Lemma be_split_uint n z : be_split n (uint (8 * Z.of_nat n) z) = be_split n z.
Proof.
  pose proof (be_split_combine (be_split n z)) as H.
  rewrite length_be_split, be_combine_split in H.
  unfold uint. rewrite Z.pow_mul_r by lia. done.
Qed.

Lemma be_split_u16 z : be_split 2 (u16 z) = be_split 2 z.
Proof. apply (be_split_uint 2). Qed.
Lemma be_split_u32 z : be_split 4 (u32 z) = be_split 4 z.
Proof. apply (be_split_uint 4). Qed.
Lemma be_split_u64 z : be_split 8 (u64 z) = be_split 8 z.
Proof. apply (be_split_uint 8). Qed.

(** Filling a zeroed buffer field by field. *)
Lemma copy_at_make (pre src : list byte) (n : nat) :
  (length src ≤ n)%nat →
  copy_at (length pre) src (pre ++ make_bytes n)
  = (pre ++ src) ++ make_bytes (n - length src).
Proof.
  intros Hn. unfold make_bytes.
  replace (replicate n Byte.x00)
    with (replicate (length src) Byte.x00 ++ replicate (n - length src) Byte.x00)
    by (rewrite <- replicate_add; f_equal; lia).
  rewrite copy_at_middle by by rewrite length_replicate. by rewrite app_assoc.
Qed.

Lemma copy_at_make' (off : nat) (pre src : list byte) (n : nat) :
  off = length pre → (length src ≤ n)%nat →
  copy_at off src (pre ++ make_bytes n) = (pre ++ src) ++ make_bytes (n - length src).
Proof. intros ->. apply copy_at_make. Qed.

Lemma copy_at_start (src : list byte) (n : nat) :
  (length src ≤ n)%nat →
  copy_at 0 src (make_bytes n) = src ++ make_bytes (n - length src).
Proof. intros. by apply (copy_at_make []). Qed.

(** Runs a sequence of field writes into the concatenation of the fields. *)
Ltac fill_buffer :=
  unfold PutUint16, PutUint32, PutUint64; cbv zeta;
  rewrite copy_at_start by (rewrite ?length_be_split; lia);
  repeat (rewrite copy_at_make' by
    (repeat (rewrite length_app || rewrite length_be_split); lia));
  rewrite ?length_be_split, ?be_split_u16, ?be_split_u32, ?be_split_u64;
  match goal with
  | |- context [make_bytes ?n] =>
      replace (make_bytes n) with (@nil byte)
        by (symmetry; apply nil_length_inv; unfold make_bytes;
            rewrite length_replicate; lia)
  end;
  rewrite app_nil_r, <- ?app_assoc; reflexivity.

Lemma OffsetSync_SerializeKey_layout os :
  OffsetSync_SerializeKey os
  = str16 (Topic (os_tp os)) ++ be_split 4 (Partition (os_tp os)).
Proof. unfold OffsetSync_SerializeKey, str16, len16. fill_buffer. Qed.

Lemma OffsetSync_SerializeValue_layout os :
  OffsetSync_SerializeValue os
  = be_split 8 (UpstreamOffset os) ++ be_split 8 (DownstreamOffset os).
Proof. unfold OffsetSync_SerializeValue. fill_buffer. Qed.

Lemma Heartbeat_SerializeKey_layout h :
  Heartbeat_SerializeKey h = str16 (SourceCluster h) ++ str16 (TargetCluster h).
Proof. unfold Heartbeat_SerializeKey, str16, len16. fill_buffer. Qed.

Lemma Heartbeat_SerializeValue_layout h :
  Heartbeat_SerializeValue h = be_split 2 0 ++ be_split 8 (UnixMilli (Timestamp h)).
Proof. unfold Heartbeat_SerializeValue. fill_buffer. Qed.

Lemma Checkpoint_SerializeKey_layout c :
  Checkpoint_SerializeKey c
  = str16 (ConsumerGroupID c) ++ str16 (Topic (cp_tp c))
    ++ be_split 4 (Partition (cp_tp c)).
Proof. unfold Checkpoint_SerializeKey, str16, len16. fill_buffer. Qed.

Lemma Checkpoint_SerializeValue_layout c :
  Checkpoint_SerializeValue c
  = be_split 2 0 ++ be_split 8 (cp_UpstreamOffset c)
    ++ be_split 8 (cp_DownstreamOffset c) ++ str16 (Metadata c).
Proof. unfold Checkpoint_SerializeValue, str16, len16. fill_buffer. Qed.

(** Slicing a concatenation at its seams. *)
Lemma slice_seam {A} (pre mid post : list A) lo hi :
  lo = Z.of_nat (length pre) → hi = lo + Z.of_nat (length mid) →
  slice (pre ++ mid ++ post) lo hi = Ok mid.
Proof.
  intros -> ->. unfold slice. rewrite !length_app.
  rewrite !(proj2 (Z.leb_le _ _)) by lia. cbn [andb].
  rewrite Nat2Z.id, drop_app_length.
  replace (Z.to_nat _) with (length mid) by lia. by rewrite take_app_length.
Qed.

Lemma slice_front {A} (mid post : list A) hi :
  hi = Z.of_nat (length mid) → slice (mid ++ post) 0 hi = Ok mid.
Proof. intros ->. by apply (slice_seam []). Qed.

Lemma slice_from_seam {A} (pre post : list A) lo :
  lo = Z.of_nat (length pre) → slice_from (pre ++ post) lo = Ok post.
Proof.
  intros ->. unfold slice_from.
  replace (pre ++ post) with (pre ++ post ++ []) at 1 by by rewrite app_nil_r.
  apply slice_seam; [done|]. rewrite !length_app. lia.
Qed.

Lemma slice_ok {A} (buf : list A) lo hi :
  0 ≤ lo ≤ hi → hi ≤ Z.of_nat (length buf) →
  slice buf lo hi = Ok (take (Z.to_nat (hi - lo)) (drop (Z.to_nat lo) buf)).
Proof.
  intros. unfold slice. by rewrite !(proj2 (Z.leb_le _ _)) by lia.
Qed.

Lemma slice_inverted {A} (buf : list A) lo hi :
  hi < lo → slice buf lo hi = Panic "slice bounds out of range".
Proof.
  intros. unfold slice. by rewrite (proj2 (Z.leb_gt lo hi)), andb_false_r by lia.
Qed.

Lemma GetUint_ok n b :
  (n ≤ length b)%nat → GetUint n b = Ok (be_combine (take n b)).
Proof. intros. unfold GetUint. by rewrite (proj2 (Nat.leb_le _ _)). Qed.

(** Reading an [n]-byte integer from a slice of the right width. *)
Lemma slice_GetUint {A} (buf : list byte) (lo hi : Z) n (f : Z → outcome A) :
  0 ≤ lo → hi = lo + Z.of_nat n → hi ≤ Z.of_nat (length buf) →
  (slice buf lo hi ≫= λ b, GetUint n b ≫= f)
  = f (be_combine (take n (drop (Z.to_nat lo) buf))).
Proof.
  intros ? -> ?. rewrite slice_ok by lia. cbn [mbind outcome_bind].
  replace (Z.to_nat (lo + Z.of_nat n - lo)) with n by lia.
  rewrite GetUint_ok by (rewrite length_take, length_drop; lia).
  cbn [mbind outcome_bind]. by rewrite take_take, Nat.min_id.
Qed.

Lemma GetUint_split n z post :
  GetUint n (be_split n z ++ post) = Ok (z mod 256 ^ Z.of_nat n).
Proof.
  rewrite GetUint_ok by (rewrite length_app, length_be_split; lia).
  rewrite <- (length_be_split n z) at 1. rewrite take_app_length.
  by rewrite be_combine_split.
Qed.

Lemma GetUint_exact n z : GetUint n (be_split n z) = Ok (z mod 256 ^ Z.of_nat n).
Proof. rewrite <- (app_nil_r (be_split n z)). apply GetUint_split. Qed.

Lemma sint_be w n z :
  w = 8 * Z.of_nat n → 0 < w → in_s w z → sint w (z mod 256 ^ Z.of_nat n) = z.
Proof.
  intros Hn Hw Hz. rewrite <- (sint_small w z) at 2 by done.
  rewrite <- (sint_uint w z) by done. f_equal. unfold uint.
  by rewrite Hn, Z.pow_mul_r by lia.
Qed.

#[export] Hint Rewrite @GetUint_split : gomm2_norm.

(** The field [str16 s] can be peeled off the front of a buffer. *)
Lemma str16_inj s t xs ys :
  Z.of_nat (length (bytes_of_string s)) < 2 ^ 16 →
  Z.of_nat (length (bytes_of_string t)) < 2 ^ 16 →
  str16 s ++ xs = str16 t ++ ys → s = t ∧ xs = ys.
Proof.
  intros Hs Ht. unfold str16, len16. rewrite <- !app_assoc. intros H.
  apply app_inj_1 in H as [Hl H]; [|by rewrite !length_be_split].
  apply be_split_inj in Hl. rewrite !Z.mod_small in Hl by lia.
  apply app_inj_1 in H as [Hb ->]; [|lia].
  split; [by apply bytes_of_string_inj|done].
Qed.

Lemma be_split_inj_s w n a b :
  w = 8 * Z.of_nat n → 0 < w → in_s w a → in_s w b →
  be_split n a = be_split n b → a = b.
Proof.
  intros Hn Hw Ha Hb H. apply be_split_inj in H.
  rewrite <- (sint_be w n a), <- (sint_be w n b), H by done. done.
Qed.

(** ** Well-formed values: the ranges of the Go field types *)

Definition tp_wf (tp : TopicPartition) : Prop := in_s 32 (Partition tp).
Definition os_wf (os : OffsetSync) : Prop :=
  tp_wf (os_tp os) ∧ in_s 64 (UpstreamOffset os) ∧ in_s 64 (DownstreamOffset os).
Definition cp_wf (c : Checkpoint) : Prop :=
  tp_wf (cp_tp c) ∧ in_s 64 (cp_UpstreamOffset c) ∧ in_s 64 (cp_DownstreamOffset c).

(** [len([]byte(s))] *)
Definition byte_len (s : string) : Z := Z.of_nat (length (bytes_of_string s)).

(** Decoding inverts encoding, whatever follows. *)
Lemma deserialize_serialize os kx vx :
  os_wf os → byte_len (Topic (os_tp os)) ≤ 65533 →
  DeserializeOffsetSync (OffsetSync_SerializeKey os ++ kx)
    (OffsetSync_SerializeValue os ++ vx) = Ok os.
Proof.
  destruct os as [[t p] u d]. unfold os_wf, tp_wf, byte_len.
  cbn [os_tp Topic Partition UpstreamOffset DownstreamOffset].
  intros (Hp & Hu & Hd) Ht.
  unfold DeserializeOffsetSync.
  rewrite OffsetSync_SerializeKey_layout, OffsetSync_SerializeValue_layout.
  cbn [os_tp Topic Partition UpstreamOffset DownstreamOffset].
  unfold str16, len16. rewrite <- !app_assoc.
  rewrite (proj2 (Z.ltb_ge _ _))
    by (rewrite !length_app, !length_be_split; lia).
  rewrite (slice_front _ _ 2) by (by rewrite length_be_split). cbn [mbind outcome_bind].
  rewrite (GetUint_exact 2). cbn [mbind outcome_bind].
  change (256 ^ Z.of_nat 2) with 65536. rewrite Z.mod_small by lia.
  rewrite (proj2 (Z.ltb_ge _ _))
    by (rewrite !length_app, !length_be_split; lia).
  rewrite uint_small by (unfold in_u; lia).
  rewrite (slice_seam _ (bytes_of_string t)) by (rewrite ?length_be_split; lia). cbn [mbind outcome_bind].
  rewrite (app_assoc (be_split 2 _) (bytes_of_string t)).
  rewrite slice_from_seam by (rewrite length_app, length_be_split; lia).
  cbn [mbind outcome_bind]. rewrite (GetUint_split 4). cbn [mbind outcome_bind].
  rewrite (proj2 (Z.ltb_ge _ _))
    by (rewrite !length_app, !length_be_split; lia).
  rewrite (slice_front _ _ 8) by (by rewrite length_be_split). cbn [mbind outcome_bind].
  rewrite (GetUint_exact 8). cbn [mbind outcome_bind].
  rewrite (slice_seam _ (be_split 8 d)) by (by rewrite length_be_split). cbn [mbind outcome_bind].
  rewrite (GetUint_exact 8). cbn [mbind outcome_bind].
  rewrite string_of_bytes_of_string, !(sint_be 64 8), (sint_be 32 4) by done. done.
Qed.

(** ** Properties *)

(** C35. Round trip of the offset-sync wire format: a sync whose topic name has
    at most 65533 bytes is read back unchanged, whatever bytes follow the key
    and the value. *)
Theorem DeserializeOffsetSync_roundtrip os kx vx :
  os_wf os → byte_len (Topic (os_tp os)) ≤ 65533 →
  DeserializeOffsetSync (OffsetSync_SerializeKey os ++ kx)
    (OffsetSync_SerializeValue os ++ vx) = Ok os.
Proof. apply deserialize_serialize. Qed.

Definition ex_sync : OffsetSync :=
  {| os_tp := {| Topic := "orders"; Partition := 5 |};
     UpstreamOffset := 1000; DownstreamOffset := -1 |}.

Lemma DeserializeOffsetSync_roundtrip_witness :
  os_wf ex_sync ∧
  DeserializeOffsetSync (OffsetSync_SerializeKey ex_sync ++ [Byte.x07])
    (OffsetSync_SerializeValue ex_sync ++ []) = Ok ex_sync.
Proof.
  assert (os_wf ex_sync) as H by (unfold os_wf, tp_wf, in_s; simpl; lia).
  split; [exact H|].
  apply (DeserializeOffsetSync_roundtrip ex_sync [Byte.x07] [] H).
  vm_compute. discriminate.
Defined.

(** The two-byte length field of a key. *)
Definition key_topic_len (key : list byte) : Z := be_combine (take 2 key).

Lemma key_topic_len_range key : 0 ≤ key_topic_len key < 65536.
Proof.
  unfold key_topic_len. pose proof (be_combine_range (take 2 key)) as H.
  pose proof (length_take_le key 2). rewrite length_take in H.
  assert (256 ^ Z.of_nat (2 `min` length key) ≤ 256 ^ 2)
    by (apply Z.pow_le_mono_r; lia). lia.
Qed.

(** The decoder, once the key is long enough for its own length field. *)
Lemma DeserializeOffsetSync_long key value :
  key_topic_len key + 6 ≤ Z.of_nat (length key) →
  DeserializeOffsetSync key value =
    let tl := key_topic_len key in
    if 65534 <=? tl then Panic "slice bounds out of range"
    else if Z.of_nat (length value) <? 16
    then Err (Errorf "offset sync value too short: %d bytes" [pretty (length value)])
    else
      Ok {| os_tp :=
              {| Topic := string_of_bytes (take (Z.to_nat tl) (drop 2 key));
                 Partition := i32 (be_combine (take 4 (drop (Z.to_nat (2 + tl)) key))) |};
            UpstreamOffset := i64 (be_combine (take 8 value));
            DownstreamOffset := i64 (be_combine (take 8 (drop 8 value))) |}.
Proof.
  intros Hlen. pose proof (key_topic_len_range key). cbv zeta.
  unfold DeserializeOffsetSync.
  rewrite (proj2 (Z.ltb_ge _ 6)) by lia.
  rewrite (slice_GetUint key 0 2) by (simpl; lia). rewrite drop_0.
  fold (key_topic_len key).
  rewrite (proj2 (Z.ltb_ge _ (key_topic_len key + 6))) by lia.
  destruct (65534 <=? key_topic_len key) eqn:E; b2p.
  - rewrite (slice_inverted key 2); [done|].
    replace (2 + key_topic_len key)
      with (key_topic_len key - 65534 + 1 * 2 ^ 16) by lia.
    unfold uint. rewrite Z.mod_add, Z.mod_small by lia. lia.
  - rewrite uint_small by (unfold in_u; lia).
    rewrite (slice_ok key 2) by lia. cbn [mbind outcome_bind].
    unfold slice_from. rewrite (slice_ok key (2 + _)) by lia. cbn [mbind outcome_bind].
    rewrite (GetUint_ok 4) by (rewrite length_take, length_drop; lia).
    cbn [mbind outcome_bind].
    case_match eqn:Ev; b2p; [done|].
    rewrite (slice_GetUint value 0 8) by (simpl; lia).
    rewrite (slice_GetUint value 8 16) by (simpl; lia).
    rewrite drop_0, take_take. repeat f_equal; lia.
Qed.

(** C36. The decoder of offset-sync records is total up to one input class: it
    returns a value or an error for every key and value, except that it panics
    exactly on the keys whose declared topic length is 65534 or 65535 and that
    are long enough for it. There [2+topicLen] wraps around in [uint16], so the
    upper bound of the slice expression falls below its lower bound. *)
Theorem DeserializeOffsetSync_panic_iff key value :
  (∃ why, DeserializeOffsetSync key value = Panic why) ↔
  65534 ≤ key_topic_len key ∧ key_topic_len key + 6 ≤ Z.of_nat (length key).
Proof.
  destruct (decide (key_topic_len key + 6 ≤ Z.of_nat (length key))) as [Hl|Hl].
  - rewrite DeserializeOffsetSync_long by done. cbv zeta.
    destruct (65534 <=? key_topic_len key) eqn:E; b2p; [naive_solver|].
    split; [|lia]. intros [why Hw]. by destruct (_ <? 16).
  - split; [|lia]. intros [why H]. exfalso. revert H. unfold DeserializeOffsetSync.
    case_match eqn:E; b2p; [done|].
    rewrite (slice_GetUint key 0 2) by (simpl; lia). rewrite drop_0.
    fold (key_topic_len key). rewrite (proj2 (Z.ltb_lt _ _)) by lia. done.
Qed.

(** Distinct offset-sync keys stay distinct on the wire: for topic names of
    fewer than 2^16 bytes the key of a sync determines its topic-partition, so
    that compaction of the offset-syncs topic never merges two partitions. *)
Theorem OffsetSync_SerializeKey_inj a b :
  tp_wf (os_tp a) → tp_wf (os_tp b) →
  byte_len (Topic (os_tp a)) < 2 ^ 16 → byte_len (Topic (os_tp b)) < 2 ^ 16 →
  OffsetSync_SerializeKey a = OffsetSync_SerializeKey b → os_tp a = os_tp b.
Proof.
  rewrite !OffsetSync_SerializeKey_layout. intros Ha Hb Hla Hlb H.
  apply str16_inj in H as [Ht Hp]; [|done..].
  apply (be_split_inj_s 32 4) in Hp; [|done..].
  destruct a as [[] ? ?], b as [[] ? ?]; simpl in *; congruence.
Qed.

Lemma OffsetSync_SerializeKey_inj_witness :
  OffsetSync_SerializeKey ex_sync = OffsetSync_SerializeKey ex_sync ∧
  os_tp ex_sync = os_tp ex_sync.
Proof.
  split; [reflexivity|].
  apply (OffsetSync_SerializeKey_inj ex_sync ex_sync);
    try reflexivity; unfold tp_wf, in_s; simpl; lia.
Defined.

(** A checkpoint record determines the checkpoint: key and value together
    determine group, topic-partition, both offsets and the metadata, provided
    the strings fit their 16-bit length prefixes. *)
Theorem Checkpoint_serialize_inj a b :
  cp_wf a → cp_wf b →
  Forall (λ s, byte_len s < 2 ^ 16)
    [ConsumerGroupID a; ConsumerGroupID b; Topic (cp_tp a); Topic (cp_tp b);
     Metadata a; Metadata b] →
  Checkpoint_SerializeKey a = Checkpoint_SerializeKey b →
  Checkpoint_SerializeValue a = Checkpoint_SerializeValue b →
  a = b.
Proof.
  intros (? & ? & ?) (? & ? & ?). rewrite !Forall_cons.
  intros (? & ? & ? & ? & ? & ? & _).
  rewrite !Checkpoint_SerializeKey_layout, !Checkpoint_SerializeValue_layout.
  intros Hk Hv.
  apply str16_inj in Hk as [Hg Hk]; [|done..].
  apply str16_inj in Hk as [Ht Hp]; [|done..].
  apply (be_split_inj_s 32 4) in Hp; [|done..].
  apply app_inv_head in Hv.
  apply app_inj_1 in Hv as [Hu Hv]; [|by rewrite !length_be_split].
  apply app_inj_1 in Hv as [Hd Hv]; [|by rewrite !length_be_split].
  apply (be_split_inj_s 64 8) in Hu, Hd; [|done..].
  rewrite <- (app_nil_r (str16 (Metadata a))), <- (app_nil_r (str16 (Metadata b))) in Hv.
  apply str16_inj in Hv as [Hm _]; [|done..].
  destruct a as [? [] ? ? ?], b as [? [] ? ? ?]; simpl in *; congruence.
Qed.

Definition ex_checkpoint : Checkpoint :=
  {| ConsumerGroupID := "g"; cp_tp := {| Topic := "orders"; Partition := 1 |};
     cp_UpstreamOffset := 42; cp_DownstreamOffset := 7; Metadata := "" |}.

Lemma Checkpoint_serialize_inj_witness :
  cp_wf ex_checkpoint ∧ ex_checkpoint = ex_checkpoint.
Proof.
  assert (cp_wf ex_checkpoint) as H by (unfold cp_wf, tp_wf, in_s; simpl; lia).
  split; [exact H|].
  apply (Checkpoint_serialize_inj ex_checkpoint ex_checkpoint H H); [|reflexivity..].
  repeat constructor.
Defined.

(** A heartbeat key determines the directed flow it belongs to. *)
Theorem Heartbeat_SerializeKey_inj a b :
  Forall (λ s, byte_len s < 2 ^ 16)
    [SourceCluster a; SourceCluster b; TargetCluster a; TargetCluster b] →
  Heartbeat_SerializeKey a = Heartbeat_SerializeKey b →
  SourceCluster a = SourceCluster b ∧ TargetCluster a = TargetCluster b.
Proof.
  rewrite !Forall_cons. intros (? & ? & ? & ? & _).
  rewrite !Heartbeat_SerializeKey_layout. intros Hk.
  rewrite <- (app_nil_r (str16 (TargetCluster a))),
    <- (app_nil_r (str16 (TargetCluster b))) in Hk.
  apply str16_inj in Hk as [Hs Hk]; [|done..].
  by apply str16_inj in Hk as [Ht _].
Qed.

Lemma Heartbeat_SerializeKey_inj_witness :
  let h := {| SourceCluster := "us"; TargetCluster := "eu"; Timestamp := 0 |} in
  SourceCluster h = SourceCluster h ∧ TargetCluster h = TargetCluster h.
Proof.
  apply (Heartbeat_SerializeKey_inj
    {| SourceCluster := "us"; TargetCluster := "eu"; Timestamp := 0 |}
    {| SourceCluster := "us"; TargetCluster := "eu"; Timestamp := 0 |});
    [repeat constructor|reflexivity].
Defined.
