(* ===== verification/SyncStore.v ===== *)
(** * internal/offset/sync_store.go: the offset sync store

    The store keeps, per topic-partition, an array of 64 offset syncs and
    translates consumer offsets of the source cluster into offsets of the target
    cluster. The model follows the code: [HandleSync] is the whole handler with
    its four cases, the loop that maintains the exponential spacing computes its
    bound in wrapping [int64] arithmetic, and [TranslateDownstream] is the
    linear search. The mutex makes each method atomic, so a concurrent
    execution of the store is a sequence of these calls. *)
From S2P Require Import Prelude Types.

Local Open Scope Z_scope.

Definition syncsPerPartition : nat := 64.

Record SyncStore := {
  syncs : gmap TopicPartition (list OffsetSync);
  initialized : bool;
  readToEnd : bool;
}.

Definition NewSyncStore : SyncStore :=
  {| syncs := ∅; initialized := false; readToEnd := false |}.

Definition MarkReadToEnd (s : SyncStore) : SyncStore :=
  {| syncs := syncs s; initialized := true; readToEnd := true |}.

Definition IsReady (s : SyncStore) : bool := readToEnd s.

(** [for i := range arr { arr[i] = sync }] *)
Definition fill (sync : OffsetSync) : list OffsetSync :=
  replicate syncsPerPartition sync.

Definition set_syncs (tp : TopicPartition) (arr : list OffsetSync) (s : SyncStore)
    : SyncStore :=
  {| syncs := <[tp := arr]> (syncs s);
     initialized := initialized s; readToEnd := readToEnd s |}.

(** [updated[i].UpstreamOffset + (1 << i) - (1 << prev)], in [int64]. *)
Definition sync_bound (up : Z) (i prev : nat) : Z :=
  i64 (i64 (up + i64 (Z.shiftl 1 (Z.of_nat i))) - i64 (Z.shiftl 1 (Z.of_nat prev))).

(** The loop [for i := 1; i < syncsPerPartition; i++], [fuel] being the number
    of iterations left. *)
Fixpoint maintain (fuel i : nat) (updated : list OffsetSync) : list OffsetSync :=
  match fuel with
  | O => updated
  | S fuel =>
      let prev := (i - 1)%nat in
      let bound := sync_bound (UpstreamOffset (updated !!! i)) i prev in
      if (0 <=? bound) && (UpstreamOffset (updated !!! prev) <=? bound)
      then updated
      else maintain fuel (S i) (<[i := updated !!! prev]> updated)
  end.

Definition HandleSync (sync : OffsetSync) (s : SyncStore) : SyncStore :=
  let tp := os_tp sync in
  match syncs s !! tp with
  | None => set_syncs tp (fill sync) s
  | Some existing =>
      if UpstreamOffset sync <? UpstreamOffset (existing !!! 0%nat)
      then set_syncs tp (fill sync) s
      else if negb (readToEnd s)
      then set_syncs tp (fill sync) s
      else
        let updated := <[0%nat := sync]> existing in
        set_syncs tp (maintain (syncsPerPartition - 1) 1 updated) s
  end.

(** The search loop of [TranslateDownstream]. *)
Fixpoint find_sync (l : list OffsetSync) (upstreamOffset : Z) : option OffsetSync :=
  match l with
  | [] => None
  | os :: l =>
      if UpstreamOffset os <=? upstreamOffset then Some os
      else find_sync l upstreamOffset
  end.

Definition TranslateDownstream (s : SyncStore) (tp : TopicPartition)
    (upstreamOffset : Z) : Z * bool :=
  if negb (readToEnd s) then (-1, false)
  else match syncs s !! tp with
       | None => (-1, false)
       | Some l =>
           match find_sync l upstreamOffset with
           | Some os =>
               let step := if UpstreamOffset os <? upstreamOffset then 1 else 0 in
               (i64 (DownstreamOffset os + step), true)
           | None => (-1, true)
           end
       end.

Definition SyncStore_String (s : SyncStore) : string :=
  "SyncStore{partitions=" +:+ pretty (size (syncs s)) +:+ ", ready="
  +:+ (if readToEnd s then "true" else "false") +:+ "}".

(** ** Reference definition of the update

    One number describes the normal case: the first slot [k >= 1] whose old
    sync is still close enough to the new one. Slots below [k] receive the new
    sync, the others keep theirs. *)

Definition keeps (sync : OffsetSync) (i : nat) (old : OffsetSync) : bool :=
  let bound := UpstreamOffset old + 2 ^ (Z.of_nat i - 1) in
  (bound <? 2 ^ 63) && (UpstreamOffset sync <=? bound).

Fixpoint first_kept (sync : OffsetSync) (i : nat) (l : list OffsetSync) : nat :=
  match l with
  | [] => i
  | old :: l => if keeps sync i old then i else first_kept sync (S i) l
  end.

Definition merge_sync (sync : OffsetSync) (existing : list OffsetSync) : list OffsetSync :=
  let k := first_kept sync 1 (drop 1 existing) in
  replicate k sync ++ drop k existing.

(** ** The bound of the maintenance loop *)

Lemma sync_bound_i64 up i :
  (1 ≤ i)%nat → sync_bound up i (i - 1) = i64 (up + 2 ^ (Z.of_nat i - 1)).
Proof.
  intros Hi. unfold sync_bound. rewrite !Z.shiftl_1_l.
  rewrite sint_sub_r, sint_add_r. 
  unfold Z.sub at 1. rewrite sint_add_l. f_equal.
  rewrite Nat2Z.inj_sub by done. change (Z.of_nat 1) with 1.
  assert (2 ^ Z.of_nat i = 2 * 2 ^ (Z.of_nat i - 1)); [|lia].
  rewrite <- Z.pow_succ_r by lia. f_equal. lia.
Qed.

(** The test of the loop, overflow guard included, decides [keeps]. *)
Lemma sync_bound_keeps sync i old :
  (1 ≤ i < syncsPerPartition)%nat →
  0 ≤ UpstreamOffset sync → 0 ≤ UpstreamOffset old < 2 ^ 63 →
  (0 <=? sync_bound (UpstreamOffset old) i (i - 1))
  && (UpstreamOffset sync <=? sync_bound (UpstreamOffset old) i (i - 1))
  = keeps sync i old.
Proof.
  unfold syncsPerPartition. intros Hi Hs Ho. rewrite sync_bound_i64 by lia.
  assert (0 ≤ 2 ^ (Z.of_nat i - 1) ≤ 2 ^ 62) as Hp.
  { split; [apply Z.pow_nonneg; lia|]. apply Z.pow_le_mono_r; lia. }
  rewrite i64_add_overflow by lia. unfold keeps.
  case_decide as Hd.
  - rewrite (proj2 (Z.leb_le 0 _)), (proj2 (Z.ltb_lt _ _)) by lia. done.
  - rewrite (proj2 (Z.leb_gt 0 _)), (proj2 (Z.ltb_ge _ _)) by lia. done.
Qed.

(** ** The loop computes the reference update *)

(** Offsets a Kafka log can hold. *)
Definition offset_ok (z : Z) : Prop := 0 ≤ z < 2 ^ 63.

Lemma first_kept_spec sync i l :
  let k := first_kept sync i l in
  (i ≤ k ≤ i + length l)%nat ∧
  (∀ j old, l !! j = Some old → (i + j < k)%nat → keeps sync (i + j) old = false) ∧
  (∀ j old, l !! j = Some old → (i + j = k)%nat → keeps sync k old = true).
Proof.
  revert i. induction l as [|old l IH]; intros i; simpl.
  { split; [lia|]. split; intros j o; by rewrite lookup_nil. }
  destruct (keeps sync i old) eqn:E.
  { split; [lia|]. split; [lia|]. intros [|j] o; simpl; [|lia].
    intros [= ->] _. done. }
  destruct (IH (S i)) as (H1 & H2 & H3). split; [lia|]. split.
  - intros [|j] o; simpl; [intros [= ->] _; by rewrite Nat.add_0_r|].
    intros Ho Hj. rewrite <- Nat.add_succ_comm. apply H2; [done|lia].
  - intros [|j] o; simpl; [intros; lia|].
    intros Ho Hj. apply (H3 j); [done|lia].
Qed.

Lemma insert_replicate_drop (sync : OffsetSync) (i : nat) ex :
  (i < length ex)%nat →
  <[i := sync]> (replicate i sync ++ drop i ex)
  = replicate (S i) sync ++ drop (S i) ex.
Proof.
  intros Hi. destruct (lookup_lt_is_Some_2 ex i Hi) as [old Ho].
  rewrite (drop_S ex old i) by done.
  rewrite <- (length_replicate i sync) at 1.
  rewrite <- (Nat.add_0_r (length _)), insert_app_r. cbn [insert list_insert].
  by rewrite replicate_S_end, <- app_assoc.
Qed.

Lemma maintain_first_kept sync ex fuel i :
  offset_ok (UpstreamOffset sync) → Forall (λ o, offset_ok (UpstreamOffset o)) ex →
  (1 ≤ i)%nat → (i + fuel = syncsPerPartition)%nat → length ex = syncsPerPartition →
  maintain fuel i (replicate i sync ++ drop i ex)
  = let k := first_kept sync i (drop i ex) in replicate k sync ++ drop k ex.
Proof.
  intros Hs Hex. unfold offset_ok in *.
  revert i. induction fuel as [|fuel IH]; intros i Hi Hf Hl.
  { rewrite (drop_ge ex i) by lia. simpl. by rewrite drop_ge by lia. }
  destruct (lookup_lt_is_Some_2 ex i) as [old Ho]; [lia|].
  assert ((replicate i sync ++ drop i ex) !!! i = old) as Hget.
  { apply list_lookup_total_correct.
    rewrite lookup_app_r by by rewrite length_replicate.
    by rewrite length_replicate, Nat.sub_diag, lookup_drop, Nat.add_0_r. }
  assert ((replicate i sync ++ drop i ex) !!! (i - 1)%nat = sync) as Hprev.
  { apply list_lookup_total_correct.
    rewrite lookup_app_l by (rewrite length_replicate; lia).
    apply lookup_replicate. split; [done|lia]. }
  cbn [maintain]. rewrite Hget, Hprev.
  assert (0 ≤ UpstreamOffset old < 2 ^ 63) as Hold.
  { rewrite Forall_lookup in Hex. eauto. }
  rewrite sync_bound_keeps by (unfold syncsPerPartition in *; lia).
  replace (first_kept sync i (drop i ex))
    with (if keeps sync i old then i else first_kept sync (S i) (drop (S i) ex))
    by by rewrite (drop_S ex old i).
  destruct (keeps sync i old); [done|].
  rewrite insert_replicate_drop by lia. apply IH; lia.
Qed.

#[global] Arguments maintain : simpl never.

(** ** Slot arrays and their invariant *)

Abbreviation up l i := (UpstreamOffset (l !!! i%nat)).

Record slots_inv (tp : TopicPartition) (l : list OffsetSync) : Prop := {
  si_length : length l = syncsPerPartition;
  si_elems : Forall (λ os, os_tp os = tp ∧ offset_ok (UpstreamOffset os)) l;
  si_sorted : ∀ i j, (i ≤ j < syncsPerPartition)%nat → up l j ≤ up l i;
  si_B : ∀ i j, (i < j < syncsPerPartition)%nat →
         up l i ≤ up l j + 2 ^ Z.of_nat j - 2 ^ Z.of_nat i;
}.

(** Invariant C of the design document: distinct upstream offsets are spaced
    exponentially. *)
Definition slots_spaced (l : list OffsetSync) : Prop :=
  ∀ i j, (i < j < syncsPerPartition)%nat →
    up l i = up l j ∨ up l j + 2 ^ Z.max 0 (Z.of_nat i - 2) ≤ up l i.

Lemma slots_ok tp l i :
  slots_inv tp l → (i < syncsPerPartition)%nat → offset_ok (up l i).
Proof.
  intros H Hi. destruct (lookup_lt_is_Some_2 l i) as [os Ho].
  { by rewrite (si_length _ _ H). }
  rewrite (list_lookup_total_correct _ _ _ Ho).
  pose proof (si_elems _ _ H) as Hall. rewrite Forall_lookup in Hall.
  by destruct (Hall i os).
Qed.

Lemma slots_offsets tp l :
  slots_inv tp l → Forall (λ o, offset_ok (UpstreamOffset o)) l.
Proof. intros H. eapply Forall_impl; [apply (si_elems _ _ H)|]. by intros os [_ ?]. Qed.

Lemma fill_lookup sync i : (i < syncsPerPartition)%nat → fill sync !!! i = sync.
Proof.
  intros. apply list_lookup_total_correct. by apply lookup_replicate.
Qed.

Lemma pow2_mono a b : 0 ≤ a ≤ b → 0 < 2 ^ a ≤ 2 ^ b.
Proof. intros. split; [apply Z.pow_pos_nonneg|apply Z.pow_le_mono_r]; lia. Qed.

#[export] Hint Resolve slots_offsets slots_ok : gomm2.

Lemma fill_inv sync :
  offset_ok (UpstreamOffset sync) → slots_inv (os_tp sync) (fill sync).
Proof.
  intros Hs. split.
  - apply length_replicate.
  - by apply Forall_replicate.
  - intros i j Hij. rewrite !fill_lookup by lia. done.
  - intros i j Hij. rewrite !fill_lookup by lia.
    pose proof (pow2_mono (Z.of_nat i) (Z.of_nat j)). lia.
Qed.

Lemma fill_spaced sync : slots_spaced (fill sync).
Proof. intros i j Hij. left. by rewrite !fill_lookup by lia. Qed.

(** What [merge_sync] leaves in slot [i]. *)
Lemma merge_lookup sync ex i :
  length ex = syncsPerPartition → (i < syncsPerPartition)%nat →
  let k := first_kept sync 1 (drop 1 ex) in
  merge_sync sync ex !!! i = if decide (i < k)%nat then sync else ex !!! i.
Proof.
  intros Hl Hi k. unfold merge_sync. fold k. case_decide as Hk.
  - apply list_lookup_total_correct. rewrite lookup_app_l.
    + by apply lookup_replicate.
    + by rewrite length_replicate.
  - destruct (lookup_lt_is_Some_2 ex i) as [old Ho]; [lia|].
    rewrite (list_lookup_total_correct _ _ _ Ho). apply list_lookup_total_correct.
    rewrite lookup_app_r by (rewrite length_replicate; lia).
    rewrite length_replicate, lookup_drop. rewrite <- Ho. f_equal. lia.
Qed.

(** The slot where the update stops: close enough there, too far just below. *)
Lemma merge_cut sync ex :
  length ex = syncsPerPartition →
  let k := first_kept sync 1 (drop 1 ex) in
  (1 ≤ k ≤ syncsPerPartition)%nat ∧
  ((k < syncsPerPartition)%nat → keeps sync k (ex !!! k) = true) ∧
  ((2 ≤ k)%nat → keeps sync (k - 1) (ex !!! (k - 1)%nat) = false).
Proof.
  intros Hl. destruct (first_kept_spec sync 1 (drop 1 ex)) as (H1 & H2 & H3).
  cbv zeta in *. set (k := first_kept sync 1 (drop 1 ex)) in *.
  rewrite length_drop in H1. unfold syncsPerPartition in *.
  assert (∀ j, (1 ≤ j < 64)%nat → drop 1 ex !! (j - 1)%nat = Some (ex !!! j)) as Hg.
  { intros j Hj. rewrite lookup_drop. replace (1 + (j - 1))%nat with j by lia.
    apply list_lookup_lookup_total_lt. lia. }
  split; [lia|]. split; intros Hk.
  - apply (H3 (k - 1)%nat); [apply Hg; lia|lia].
  - replace (k - 1)%nat with (1 + (k - 2))%nat at 1 by lia.
    apply H2; [|lia]. replace (k - 2)%nat with (k - 1 - 1)%nat by lia. apply Hg. lia.
Qed.

Lemma keeps_true sync i old :
  keeps sync i old = true →
  UpstreamOffset sync ≤ UpstreamOffset old + 2 ^ (Z.of_nat i - 1).
Proof. unfold keeps. intros. b2p. lia. Qed.

Lemma keeps_false sync i old :
  UpstreamOffset old + 2 ^ (Z.of_nat i - 1) < 2 ^ 63 →
  keeps sync i old = false →
  UpstreamOffset old + 2 ^ (Z.of_nat i - 1) < UpstreamOffset sync.
Proof. unfold keeps. intros ? H. rewrite (proj2 (Z.ltb_lt _ _)) in H by lia. b2p. lia. Qed.

Section merge.
Context (sync : OffsetSync) (ex : list OffsetSync) (tp : TopicPartition).
Hypothesis (Hinv : slots_inv tp ex) (Hok : offset_ok (UpstreamOffset sync))
  (Hfwd : up ex 0 ≤ UpstreamOffset sync) (Htp : os_tp sync = tp).

Let k := first_kept sync 1 (drop 1 ex).

Local Lemma merge_facts :
  (1 ≤ k ≤ syncsPerPartition)%nat ∧
  ((k < syncsPerPartition)%nat → keeps sync k (ex !!! k) = true) ∧
  ((2 ≤ k)%nat → keeps sync (k - 1) (ex !!! (k - 1)%nat) = false).
Proof using Hinv. apply merge_cut, (si_length _ _ Hinv). Qed.

Local Lemma merge_get i :
  (i < syncsPerPartition)%nat →
  merge_sync sync ex !!! i = if decide (i < k)%nat then sync else ex !!! i.
Proof using Hinv. apply merge_lookup, (si_length _ _ Hinv). Qed.

Local Lemma above_all i :
  (i < syncsPerPartition)%nat → up ex i ≤ UpstreamOffset sync.
Proof using Hinv Hfwd.
  intros Hi. transitivity (up ex 0); [|done]. apply (si_sorted _ _ Hinv). lia.
Qed.

(** The update keeps every array invariant, for all 63-bit offsets. *)
Lemma merge_inv : slots_inv tp (merge_sync sync ex).
Proof using Hinv Hok Hfwd Htp.
  pose proof merge_facts as (Hk & Hkeep & _).
  pose proof (si_length _ _ Hinv) as Hlen. split.
  - unfold merge_sync. fold k. rewrite length_app, length_replicate, length_drop. lia.
  - unfold merge_sync. apply Forall_app. split; [by apply Forall_replicate|].
    apply Forall_drop, (si_elems _ _ Hinv).
  - intros i j Hij. rewrite !merge_get by lia.
    pose proof (above_all j). repeat case_decide; try lia.
    by apply (si_sorted _ _ Hinv).
  - intros i j Hij. rewrite !merge_get by lia.
    pose proof (pow2_mono (Z.of_nat i) (Z.of_nat j)).
    case_decide; case_decide; try lia; [|by apply (si_B _ _ Hinv)].
    apply keeps_true in Hkeep; [|lia].
    assert (up ex k ≤ up ex j + 2 ^ Z.of_nat j - 2 ^ Z.of_nat k) as HB.
    { destruct (decide (k = j)) as [->|]; [lia|]. apply (si_B _ _ Hinv). lia. }
    assert (2 ^ Z.of_nat k = 2 * 2 ^ (Z.of_nat k - 1)).
    { rewrite <- Z.pow_succ_r by lia. f_equal. lia. }
    pose proof (pow2_mono (Z.of_nat i) (Z.of_nat k - 1)). lia.
Qed.

(** Below 2^62 the overflow guard never fires and the spacing survives. *)
Lemma merge_spaced :
  UpstreamOffset sync < 2 ^ 62 → slots_spaced ex → slots_spaced (merge_sync sync ex).
Proof using Hinv Hok Hfwd.
  intros Hlt Hsp i j Hij. pose proof merge_facts as (Hk & _ & Hdrop).
  rewrite !merge_get by lia.
  case_decide as Hi; case_decide as Hj; try lia; [|by apply Hsp].
  pose proof (above_all j). destruct (decide (k = 1%nat)) as [E|E].
  - replace (Z.max 0 (Z.of_nat i - 2)) with 0 by lia.
    destruct (decide (UpstreamOffset sync = up ex j)); [by left|right; lia].
  - right. pose proof (above_all (k - 1)).
    apply keeps_false in Hdrop; [|clear Hdrop|lia].
    + pose proof (si_sorted _ _ Hinv (k - 1) j).
      pose proof (pow2_mono (Z.max 0 (Z.of_nat i - 2)) (Z.of_nat (k - 1) - 1)). lia.
    + pose proof (pow2_mono (Z.of_nat (k - 1) - 1) 62).
      unfold syncsPerPartition in *. lia.
Qed.
End merge.

(** ** The handler *)

Definition store_inv (s : SyncStore) : Prop := map_Forall slots_inv (syncs s).
Definition store_spaced (s : SyncStore) : Prop :=
  map_Forall (λ _, slots_spaced) (syncs s).
(** All offsets of the store are below [b]. *)
Definition sync_ok (sync : OffsetSync) : Prop := offset_ok (UpstreamOffset sync).

(** The slot array [HandleSync] writes for its partition. *)
Definition handled (sync : OffsetSync) (s : SyncStore) : list OffsetSync :=
  match syncs s !! os_tp sync with
  | Some ex =>
      if (up ex 0 <=? UpstreamOffset sync) && readToEnd s
      then merge_sync sync ex else fill sync
  | None => fill sync
  end.

Lemma HandleSync_eq sync s :
  sync_ok sync → store_inv s →
  HandleSync sync s = set_syncs (os_tp sync) (handled sync s) s.
Proof.
  intros Hs Hinv. unfold HandleSync, handled.
  destruct (syncs s !! os_tp sync) as [ex|] eqn:E; [|done].
  pose proof (Hinv _ _ E) as Hex. pose proof (si_length _ _ Hex) as Hl.
  rewrite Z.leb_antisym. destruct (_ <? _); cbn [negb andb]; [done|].
  destruct (readToEnd s); cbn [negb]; [|done]. f_equal.
  etransitivity; [|exact (maintain_first_kept sync ex 63 1 Hs
    (slots_offsets _ _ Hex) (le_n 1) eq_refl Hl)].
  f_equal. by destruct ex as [|os ex].
Qed.

Lemma handled_inv sync s :
  sync_ok sync → store_inv s → slots_inv (os_tp sync) (handled sync s).
Proof.
  intros Hs Hinv. unfold handled. case_match eqn:E; [|by apply fill_inv].
  case_match eqn:E'; [|by apply fill_inv]. b2p.
  apply merge_inv; [by apply Hinv|done..].
Qed.

Lemma HandleSync_keeps_inv sync s :
  sync_ok sync → store_inv s → store_inv (HandleSync sync s).
Proof.
  intros Hs Hinv. rewrite HandleSync_eq by done.
  apply map_Forall_insert_2; [by apply handled_inv|done].
Qed.

Lemma handled_head sync s :
  store_inv s → handled sync s !!! 0%nat = sync.
Proof.
  intros Hinv. unfold handled.
  destruct (syncs s !! os_tp sync) as [l|] eqn:E; [|done].
  case_match; [|done].
  apply Hinv in E. rewrite merge_lookup; [|by eapply si_length|unfold syncsPerPartition; lia].
  rewrite decide_True; [done|]. pose proof (merge_cut sync l (si_length _ _ E)).
  cbv zeta in *. lia.
Qed.

Lemma handled_spaced sync s :
  sync_ok sync → UpstreamOffset sync < 2 ^ 62 →
  store_inv s → store_spaced s → slots_spaced (handled sync s).
Proof.
  intros Hs Hlt Hinv Hsp. unfold handled.
  destruct (syncs s !! os_tp sync) as [l|] eqn:E; [|apply fill_spaced].
  case_match eqn:E'; [|apply fill_spaced]. b2p.
  eapply merge_spaced; [exact (Hinv _ _ E)|done..|exact (Hsp _ _ E)].
Qed.

(** ** Histories of the store *)

Inductive store_event :=
  | EvSync (os : OffsetSync)
  | EvReadToEnd.

Definition apply_event (s : SyncStore) (e : store_event) : SyncStore :=
  match e with
  | EvSync os => HandleSync os s
  | EvReadToEnd => MarkReadToEnd s
  end.

(** The store after a sequence of calls. *)
Definition run (h : list store_event) : SyncStore := foldl apply_event NewSyncStore h.

Definition event_ok (e : store_event) : Prop :=
  match e with EvSync os => sync_ok os | EvReadToEnd => True end.

(** Every stored sync has property [P]. *)
Definition store_all (P : OffsetSync → Prop) (s : SyncStore) : Prop :=
  map_Forall (λ _ l, Forall P l) (syncs s).

Lemma merge_elems (P : OffsetSync → Prop) sync ex :
  P sync → Forall P ex → Forall P (merge_sync sync ex).
Proof. intros. apply Forall_app. split; [by apply Forall_replicate|by apply Forall_drop]. Qed.

Lemma HandleSync_all (P : OffsetSync → Prop) sync s :
  sync_ok sync → store_inv s → P sync → store_all P s → store_all P (HandleSync sync s).
Proof.
  intros Hs Hinv HP Hall. rewrite HandleSync_eq by done.
  apply map_Forall_insert_2; [|done]. unfold handled.
  destruct (syncs s !! os_tp sync) as [l|] eqn:E; [|by apply Forall_replicate].
  case_match; [|by apply Forall_replicate].
  apply merge_elems; [done|exact (Hall _ _ E)].
Qed.

Lemma run_inv h : Forall event_ok h → store_inv (run h).
Proof.
  rewrite Forall_forall. intros Hok. unfold run. apply foldl_invariant.
  - intros s [os|] He Hs; [|done]. apply HandleSync_keeps_inv; [|done].
    apply (Hok _ He).
  - apply map_Forall_empty.
Qed.

Lemma run_all (P : OffsetSync → Prop) h :
  Forall event_ok h → (∀ os, EvSync os ∈ h → P os) → store_all P (run h).
Proof.
  rewrite Forall_forall. intros Hok HP. unfold run.
  apply (foldl_invariant _ (λ s, store_inv s ∧ store_all P s)).
  - intros s [os|] He [Hs Ha]; [|done]. specialize (Hok _ He).
    split; [by apply HandleSync_keeps_inv|]. apply HandleSync_all; auto.
  - split; apply map_Forall_empty.
Qed.

(** ** Translation *)

Lemma find_sync_Some l u os :
  find_sync l u = Some os →
  ∃ i, l !! i = Some os ∧ UpstreamOffset os ≤ u ∧
       ∀ j o, (j < i)%nat → l !! j = Some o → u < UpstreamOffset o.
Proof.
  induction l as [|o l IH]; simpl; [done|]. destruct (_ <=? _) eqn:E; b2p.
  - intros [= ->]. exists 0%nat. split; [done|]. split; [done|]. lia.
  - intros (i & ? & ? & Hlt)%IH. exists (S i). split; [done|]. split; [done|].
    intros [|j] o' ?; simpl; [by intros [= ->]|]. intros Ho. apply (Hlt j); [lia|done].
Qed.

Lemma find_sync_None l u :
  find_sync l u = None ↔ Forall (λ o, u < UpstreamOffset o) l.
Proof.
  induction l as [|o l IH]; simpl; [naive_solver|].
  rewrite Forall_cons. destruct (_ <=? _) eqn:E; b2p; [split; [done|lia]|].
  rewrite IH. split; [by split|by intros [_ ?]].
Qed.

Lemma find_sync_head l u :
  (0 < length l)%nat → up l 0 ≤ u → find_sync l u = Some (l !!! 0%nat).
Proof.
  destruct l as [|o l]; simpl; [lia|]. intros _ Hu.
  by rewrite (proj2 (Z.leb_le _ _)).
Qed.

(** The answer given from one sync. *)
Definition translated (os : OffsetSync) (u : Z) : Z :=
  i64 (DownstreamOffset os + if UpstreamOffset os <? u then 1 else 0).

Lemma translated_small os u :
  0 ≤ DownstreamOffset os < 2 ^ 63 - 1 →
  translated os u = DownstreamOffset os + if UpstreamOffset os <? u then 1 else 0.
Proof.
  intros. unfold translated. apply sint_small; [done|].
  unfold in_s. destruct (_ <? _); lia.
Qed.

Lemma translate_cases s tp u :
  TranslateDownstream s tp u =
    match readToEnd s, syncs s !! tp with
    | true, Some l =>
        (match find_sync l u with Some os => translated os u | None => -1 end, true)
    | _, _ => (-1, false)
    end.
Proof.
  unfold TranslateDownstream. destruct (readToEnd s); cbn [negb]; [|done].
  destruct (syncs s !! tp) as [l|]; [|done]. by destruct (find_sync l u).
Qed.

(** *** The replicated log as a relation

    [R u d] says that the source record at offset [u] has its copy at offset [d]
    of the target partition, the last one if it was mirrored more than once. A
    producer that keeps the order of a partition makes [R] strictly monotone. *)
Record log_map (R : Z → Z → Prop) : Prop := {
  lm_range : ∀ u d, R u d → offset_ok u ∧ 0 ≤ d < 2 ^ 63 - 1;
  lm_mono : ∀ u d u' d', R u d → R u' d' → u < u' → d < d';
  lm_fun : ∀ u d d', R u d → R u d' → d = d';
}.

Definition on_log (R : Z → Z → Prop) (tp : TopicPartition) (os : OffsetSync) : Prop :=
  os_tp os = tp → R (UpstreamOffset os) (DownstreamOffset os).

(** A sync of which the target holds a copy at the position given or later: when
    a restart mirrors a range again, a sync of the first pass keeps naming the
    first copy. *)
Definition behind_log (R : Z → Z → Prop) (tp : TopicPartition) (os : OffsetSync) : Prop :=
  os_tp os = tp → ∃ w, R (UpstreamOffset os) w ∧ 0 ≤ DownstreamOffset os ≤ w.

Lemma on_log_behind R tp os : log_map R → on_log R tp os → behind_log R tp os.
Proof. intros HR Hos Htp. specialize (Hos Htp). pose proof (lm_range R HR _ _ Hos). eexists. split; [done|lia]. Qed.

(** The sync a successful translation comes from. *)
Lemma translate_found (P : OffsetSync → Prop) tp h u d :
  Forall event_ok h → (∀ os, EvSync os ∈ h → P os) →
  TranslateDownstream (run h) tp u = (d, true) → 0 ≤ d →
  ∃ l i os, syncs (run h) !! tp = Some l ∧ slots_inv tp l ∧
    l !! i = Some os ∧ UpstreamOffset os ≤ u ∧
    (∀ j o, (j < i)%nat → l !! j = Some o → u < UpstreamOffset o) ∧
    os_tp os = tp ∧ P os ∧ d = translated os u.
Proof.
  intros Hok Hlog. rewrite translate_cases.
  destruct (readToEnd (run h)); [|done].
  destruct (syncs (run h) !! tp) as [l|] eqn:El; [|done].
  destruct (find_sync l u) as [os|] eqn:Ef; [|intros [= <-]; lia].
  intros [= <-] Hd. apply find_sync_Some in Ef as (i & Hi & Hle & Hlt).
  pose proof (run_inv h Hok _ _ El) as Hinv.
  pose proof (run_all P h Hok Hlog _ _ El) as Hall.
  pose proof (si_elems _ _ Hinv) as Htp. rewrite Forall_lookup in Hall, Htp.
  exists l, i, os. split_and!; try done; [apply (Htp _ _ Hi)|by eapply Hall].
Qed.

Lemma translate_on_log R tp h u d :
  log_map R → Forall event_ok h → (∀ os, EvSync os ∈ h → on_log R tp os) →
  TranslateDownstream (run h) tp u = (d, true) → 0 ≤ d →
  ∃ l i os, syncs (run h) !! tp = Some l ∧ slots_inv tp l ∧
    l !! i = Some os ∧ UpstreamOffset os ≤ u ∧
    (∀ j o, (j < i)%nat → l !! j = Some o → u < UpstreamOffset o) ∧
    R (UpstreamOffset os) (DownstreamOffset os) ∧
    d = DownstreamOffset os + if UpstreamOffset os <? u then 1 else 0.
Proof.
  intros HR Hok Hlog Ht Hd.
  destruct (translate_found (on_log R tp) tp h u d Hok Hlog Ht Hd)
    as (l & i & os & H1 & H2 & H3 & H4 & H5 & H6 & H7 & ->).
  specialize (H7 H6). exists l, i, os. split_and!; try done.
  apply translated_small, (lm_range R HR _ _ H7).
Qed.

(** A translated position never skips a record. *)
Lemma translate_no_skip R tp h u d v w :
  log_map R → Forall event_ok h → (∀ os, EvSync os ∈ h → behind_log R tp os) →
  TranslateDownstream (run h) tp u = (d, true) → 0 ≤ d →
  R v w → u ≤ v → d ≤ w.
Proof.
  intros HR Hok Hlog Ht Hd Hvw Huv.
  destruct (translate_found (behind_log R tp) tp h u d Hok Hlog Ht Hd)
    as (l & i & os & _ & _ & _ & Hle & _ & Htp & Hos & ->).
  destruct (Hos Htp) as (w0 & Ros & Hw0). pose proof (lm_range R HR _ _ Ros).
  rewrite translated_small by lia. pose proof (lm_mono R HR _ _ _ _ Ros Hvw).
  destruct (_ <? _) eqn:E; b2p; [lia|].
  destruct (decide (UpstreamOffset os < v)); [lia|].
  replace v with (UpstreamOffset os) in Hvw by lia.
  pose proof (lm_fun R HR _ _ _ Ros Hvw). lia.
Qed.

(** ** Properties *)

(** C11. [HandleSync] computes its reference definition: the first sync of a
    partition, an upstream rewind and the initial read each reset all 64 slots
    to the new sync; otherwise the maintenance loop, with its early exit and its
    wrapping [int64] bound, produces [merge_sync]: the new sync in the slots
    below the first one that is close enough, the old syncs from there on. *)
Theorem HandleSync_refines_merge sync s :
  sync_ok sync → store_inv s →
  HandleSync sync s = set_syncs (os_tp sync)
    (match syncs s !! os_tp sync with
     | Some ex =>
         if (up ex 0 <=? UpstreamOffset sync) && readToEnd s
         then merge_sync sync ex else fill sync
     | None => fill sync
     end) s.
Proof. apply HandleSync_eq. Qed.

(** C10. Over any sequence of syncs with valid offsets and read-to-end marks, the
    store invariant holds: 64 slots per partition, all syncs of the right
    partition, upstream offsets sorted from latest to earliest, and invariant B,
    [syncs[i].upstream <= syncs[j].upstream + 2^j - 2^i] for [i < j]. Each sync
    handled is then in slot 0 (invariant A). *)
Theorem run_store_inv h sync :
  Forall event_ok h → sync_ok sync →
  store_inv (run (h ++ [EvSync sync])) ∧
  ∃ l, syncs (run (h ++ [EvSync sync])) !! os_tp sync = Some l ∧ l !!! 0%nat = sync.
Proof.
  intros Hh Hs. pose proof (run_inv h Hh) as Hinv.
  unfold run. rewrite foldl_app. cbn [foldl apply_event]. fold (run h).
  split; [by apply HandleSync_keeps_inv|].
  rewrite HandleSync_eq by done. exists (handled sync (run h)).
  split; [apply lookup_insert_eq|]. by apply handled_head.
Qed.

Definition event_small (e : store_event) : Prop :=
  match e with EvSync os => UpstreamOffset os < 2 ^ 62 | EvReadToEnd => True end.

Lemma run_spaced h : Forall event_ok h → Forall event_small h → store_spaced (run h).
Proof.
  induction h as [|e h IH] using rev_ind; intros Hok Hlt; [apply map_Forall_empty|].
  apply Forall_app in Hok as [Hok He]. apply Forall_cons_1 in He as [He _].
  apply Forall_app in Hlt as [Hlt Hl]. apply Forall_cons_1 in Hl as [Hl _].
  specialize (IH Hok Hlt). unfold run. rewrite foldl_app. cbn [foldl]. fold (run h).
  destruct e as [os|]; [|exact IH].
  cbn [apply_event]. simpl in He, Hl. rewrite HandleSync_eq; [|done|by apply run_inv].
  apply map_Forall_insert_2; [|done]. apply handled_spaced; [done|done|by apply run_inv|done].
Qed.

(** C13. [HandleSync] preserves invariant C, weakened, as long as offsets stay below
    2^62: two slots [i < j] either carry the same upstream offset or are at least
    [2^(i-2)] apart, so the distinct offsets of the 64 slots are spaced
    exponentially. (The design document states the distance for all pairs of slots;
    a store that has handled one sync carries it in all of them.) *)
Theorem HandleSync_spaced sync s :
  sync_ok sync → UpstreamOffset sync < 2 ^ 62 →
  store_inv s → store_spaced s → store_spaced (HandleSync sync s).
Proof.
  intros Hs Hlt Hinv Hsp. rewrite HandleSync_eq by done.
  apply map_Forall_insert_2; [by apply handled_spaced|done].
Qed.

(** C9. Safety of failover: let a map that keeps the order of a partition say where
    the target has its copy of each record. If every sync the store has handled
    for [tp] names a position at or before that copy, then a translated offset
    [d >= 0] of the consumer position [u] never skips data: every record at or
    after [u] has its copy at or after [d] on the target. This holds after any
    interleaving of syncs for all partitions, rewinds and the read-to-end mark,
    and for syncs of an earlier pass over records that were mirrored again. *)
Theorem TranslateDownstream_safe R tp h u d v w :
  log_map R → Forall event_ok h → (∀ os, EvSync os ∈ h → behind_log R tp os) →
  TranslateDownstream (run h) tp u = (d, true) → 0 ≤ d →
  R v w → u ≤ v → d ≤ w.
Proof. apply translate_no_skip. Qed.

(** The positions that exact syncs translate to: the sentinel, or an offset. *)
Lemma translate_sentinel R tp h u d :
  log_map R → Forall event_ok h → (∀ os, EvSync os ∈ h → on_log R tp os) →
  TranslateDownstream (run h) tp u = (d, true) → d = -1 ∨ 0 ≤ d.
Proof.
  intros HR Hok Hlog. rewrite translate_cases.
  destruct (readToEnd (run h)); [|done].
  destruct (syncs (run h) !! tp) as [l|] eqn:El; [|done].
  destruct (find_sync l u) as [os|] eqn:Ef; intros [= <-]; [right|by left].
  apply find_sync_Some in Ef as (i & Hi & _).
  pose proof (run_inv h Hok _ _ El) as Hinv.
  pose proof (run_all (on_log R tp) h Hok Hlog _ _ El) as Hall.
  pose proof (si_elems _ _ Hinv) as Htp. rewrite Forall_lookup in Hall, Htp.
  pose proof (lm_range R HR _ _ (Hall _ _ Hi (proj1 (Htp _ _ Hi)))) as [_ ?].
  rewrite translated_small by lia. destruct (_ <? u); lia.
Qed.

(** C12. Translation is monotone for exact syncs: if every sync the store has handled
    for [tp] names the very position of the target's copy of its record ([on_log],
    for a map that keeps the order of the partition), then, after any history, a
    larger consumer offset never translates to a smaller target offset, and never
    to the sentinel -1 once a smaller one has a translation. For syncs that name a
    position before the copy ([behind_log]) it need not hold. *)
Theorem TranslateDownstream_monotone R tp h u u' d d' :
  log_map R → Forall event_ok h → (∀ os, EvSync os ∈ h → on_log R tp os) →
  TranslateDownstream (run h) tp u = (d, true) →
  TranslateDownstream (run h) tp u' = (d', true) →
  u ≤ u' → d ≤ d'.
Proof.
  intros HR Hok Hlog Ht Ht' Huu.
  pose proof (translate_sentinel R tp h u' d' HR Hok Hlog Ht') as Hs'.
  destruct (translate_sentinel R tp h u d HR Hok Hlog Ht) as [->|Hd]; [lia|].
  destruct (translate_on_log R tp h u d HR Hok Hlog Ht Hd)
    as (l & i & os & El & Hinv & Hi & Hle & Hlt & Ros & ->).
  assert (0 ≤ d') as Hd'.
  { destruct Hs' as [->|?]; [exfalso|done]. revert Ht'. rewrite translate_cases, El.
    destruct (readToEnd _); [|done]. destruct (find_sync l u') as [os'|] eqn:Ef.
    - intros [= Hx]. apply find_sync_Some in Ef as (j & Hj & _).
      pose proof (run_all (on_log R tp) h Hok Hlog _ _ El) as Hall.
      pose proof (si_elems _ _ Hinv) as Htp. rewrite Forall_lookup in Hall, Htp.
      pose proof (lm_range R HR _ _ (Hall _ _ Hj (proj1 (Htp _ _ Hj)))) as [_ ?].
      rewrite translated_small in Hx by lia. destruct (_ <? u'); lia.
    - rewrite find_sync_None, Forall_lookup in Ef. specialize (Ef _ _ Hi). lia. }
  destruct (translate_on_log R tp h u' d' HR Hok Hlog Ht' Hd')
    as (l' & i' & os' & El' & _ & Hi' & Hle' & Hlt' & Ros' & ->).
  rewrite El in El'. injection El' as <-.
  destruct (lt_eq_lt_dec i' i) as [[Hii| ->]|Hii].
  - specialize (Hlt _ _ Hii Hi').
    pose proof (lm_mono R HR _ _ _ _ Ros Ros').
    destruct (_ <? u), (_ <? u'); lia.
  - rewrite Hi in Hi'. injection Hi' as <-.
    destruct (_ <? u) eqn:?, (_ <? u') eqn:?; b2p; lia.
  - specialize (Hlt' _ _ Hii Hi). lia.
Qed.

(** C14. Precision: a store that is ready and has a sync at or before [u]
    translates from the latest such sync among its 64 slots, and if that is slot
    [i >= 1] then its upstream offset is less than [2^(i-1)] before [u]. *)
Theorem TranslateDownstream_precision s tp l u :
  store_inv s → readToEnd s = true → syncs s !! tp = Some l → up l 63 ≤ u →
  ∃ i, (i < syncsPerPartition)%nat ∧
    TranslateDownstream s tp u = (translated (l !!! i) u, true) ∧
    up l i ≤ u ∧ (∀ j, (j < i)%nat → u < up l j) ∧
    ((1 ≤ i)%nat → u - up l i < 2 ^ (Z.of_nat i - 1)).
Proof.
  intros Hinv Hr El Hu. pose proof (Hinv _ _ El) as Hl.
  pose proof (si_length _ _ Hl) as Hlen.
  destruct (find_sync l u) as [os|] eqn:Ef.
  - pose proof Ef as (i & Hi & Hle & Hlt)%find_sync_Some. exists i.
    pose proof (lookup_lt_Some _ _ _ Hi).
    rewrite (list_lookup_total_correct _ _ _ Hi).
    rewrite translate_cases, Hr, El, Ef.
    assert (∀ j, (j < i)%nat → u < up l j) as Hlt'.
    { intros j Hj. apply (Hlt j); [done|]. apply list_lookup_lookup_total_lt. lia. }
    split; [lia|]. split; [done|]. split; [done|]. split; [done|].
    intros Hi1. specialize (Hlt' (i - 1)%nat).
    pose proof (si_B _ _ Hl (i - 1) i) as HB.
    rewrite (list_lookup_total_correct _ _ _ Hi) in HB.
    replace (Z.of_nat (i - 1)) with (Z.of_nat i - 1) in HB by lia.
    assert (2 ^ Z.of_nat i = 2 * 2 ^ (Z.of_nat i - 1)).
    { rewrite <- Z.pow_succ_r by lia. f_equal. lia. }
    lia.
  - exfalso. rewrite find_sync_None, Forall_lookup in Ef.
    specialize (Ef 63%nat (l !!! 63%nat)). 
    rewrite list_lookup_lookup_total_lt in Ef by (rewrite Hlen; unfold syncsPerPartition; lia).
    specialize (Ef eq_refl). lia.
Qed.

(** Availability: translation answers [(-1, false)] exactly until the store
    is ready and knows the partition; and once it is, positions at or past the
    latest handled sync are answered from that sync, exactly at its downstream
    offset and one past it beyond, while other partitions are untouched. *)
Theorem TranslateDownstream_latest sync s tp u :
  sync_ok sync → store_inv s →
  (TranslateDownstream s tp u = (-1, false) ↔
     readToEnd s = false ∨ syncs s !! tp = None) ∧
  (readToEnd s = true → UpstreamOffset sync ≤ u →
     TranslateDownstream (HandleSync sync s) (os_tp sync) u
     = (i64 (DownstreamOffset sync + if UpstreamOffset sync =? u then 0 else 1), true)) ∧
  (tp ≠ os_tp sync →
     TranslateDownstream (HandleSync sync s) tp u = TranslateDownstream s tp u).
Proof.
  intros Hs Hinv. rewrite HandleSync_eq by done. rewrite !translate_cases.
  split; [|split].
  - destruct (readToEnd s); [|by intuition].
    destruct (syncs s !! tp); [|by intuition]. by intuition.
  - intros Hr Hu. cbn [syncs set_syncs readToEnd]. rewrite Hr, lookup_insert_eq.
    pose proof (handled_inv sync s Hs Hinv) as Hl. pose proof (handled_head sync s Hinv) as Hh.
    rewrite find_sync_head; [|by rewrite (si_length _ _ Hl); unfold syncsPerPartition; lia
                             |by rewrite Hh].
    rewrite Hh. unfold translated. repeat f_equal.
    destruct (_ <? u) eqn:?, (_ =? u) eqn:?; b2p; lia.
  - intros Hne. cbn [syncs set_syncs readToEnd]. by rewrite lookup_insert_ne.
Qed.

(** ** Witnesses *)

Definition ex_tp : TopicPartition := {| Topic := "t"; Partition := 0 |}.
Definition ex_os (u d : Z) : OffsetSync :=
  {| os_tp := ex_tp; UpstreamOffset := u; DownstreamOffset := d |}.
Definition ex_history : list store_event :=
  [EvSync (ex_os 100 107); EvReadToEnd; EvSync (ex_os 300 307)].
Definition ex_log (u d : Z) : Prop := 0 ≤ u < 1000 ∧ d = u + 7.

Lemma ex_log_map : log_map ex_log.
Proof. split; unfold ex_log, offset_ok; intros; lia. Qed.

Lemma ex_history_ok : Forall event_ok ex_history.
Proof. repeat apply Forall_cons_2; try done; unfold event_ok, sync_ok, offset_ok; simpl; lia. Qed.

Lemma ex_history_log os : EvSync os ∈ ex_history → on_log ex_log ex_tp os.
Proof.
  unfold ex_history, on_log, ex_log.
  rewrite !elem_of_cons, elem_of_nil. intros [[= ->]|[?|[[= ->]|[]]]] _; simpl; [lia|done|lia].
Qed.

Lemma ex_history_behind os : EvSync os ∈ ex_history → behind_log ex_log ex_tp os.
Proof. intros Hos. apply on_log_behind; [apply ex_log_map|by apply ex_history_log]. Qed.

Lemma ex_store_inv : store_inv (run ex_history).
Proof. apply run_inv, ex_history_ok. Qed.

Lemma HandleSync_refines_merge_witness :
  syncs (HandleSync (ex_os 310 317) (run ex_history)) !! ex_tp
  = Some (merge_sync (ex_os 310 317) (merge_sync (ex_os 300 307) (fill (ex_os 100 107)))).
Proof.
  rewrite (HandleSync_refines_merge (ex_os 310 317) (run ex_history));
    [vm_compute; reflexivity|unfold sync_ok, offset_ok; simpl; lia|apply ex_store_inv].
Defined.

Lemma run_store_inv_witness : store_inv (run (ex_history ++ [EvSync (ex_os 50 57)])).
Proof.
  apply (run_store_inv ex_history (ex_os 50 57) ex_history_ok).
  unfold sync_ok, offset_ok. simpl. lia.
Defined.

(** Three spaced groups of slots, from three syncs. *)
Lemma HandleSync_spaced_witness :
  let l := merge_sync (ex_os 310 317) (merge_sync (ex_os 300 307) (fill (ex_os 100 107))) in
  syncs (HandleSync (ex_os 310 317) (run ex_history)) !! ex_tp = Some l ∧
  (up l 0, up l 5, up l 63) = (310, 300, 100) ∧ slots_spaced l.
Proof.
  intros l.
  assert (syncs (HandleSync (ex_os 310 317) (run ex_history)) !! ex_tp = Some l) as Hl
    by (vm_compute; reflexivity).
  split; [exact Hl|]. split; [vm_compute; reflexivity|].
  refine (HandleSync_spaced (ex_os 310 317) (run ex_history) _ _ ex_store_inv
    (run_spaced ex_history ex_history_ok _) ex_tp l Hl).
  - unfold sync_ok, offset_ok. simpl. lia.
  - simpl. lia.
  - repeat apply Forall_cons_2; try done.
Defined.

Lemma TranslateDownstream_safe_witness :
  TranslateDownstream (run ex_history) ex_tp 250 = (108, true) ∧ 108 ≤ 257.
Proof.
  split; [vm_compute; reflexivity|].
  apply (TranslateDownstream_safe ex_log ex_tp ex_history 250 108 250 257
    ex_log_map ex_history_ok ex_history_behind); [vm_compute; reflexivity| |split|]; lia.
Defined.

Lemma TranslateDownstream_monotone_witness : 108 ≤ 308.
Proof.
  apply (TranslateDownstream_monotone ex_log ex_tp ex_history 250 305 108 308
    ex_log_map ex_history_ok ex_history_log);
    [vm_compute; reflexivity|vm_compute; reflexivity|lia].
Defined.

Lemma TranslateDownstream_precision_witness :
  ∃ i, (i < syncsPerPartition)%nat ∧
    TranslateDownstream (run ex_history) ex_tp 250 = (108, true).
Proof.
  destruct (TranslateDownstream_precision (run ex_history) ex_tp
    (merge_sync (ex_os 300 307) (fill (ex_os 100 107))) 250 ex_store_inv)
    as (i & Hi & _ & _); [vm_compute; reflexivity..|vm_compute; discriminate|].
  exists i. split; [exact Hi|vm_compute; reflexivity].
Defined.

Lemma TranslateDownstream_latest_witness :
  TranslateDownstream (HandleSync (ex_os 400 407) (run ex_history)) ex_tp 400 = (407, true).
Proof.
  refine (proj1 (proj2 (TranslateDownstream_latest (ex_os 400 407) (run ex_history)
    ex_tp 400 _ ex_store_inv)) _ _);
    [unfold sync_ok, offset_ok; simpl; lia|vm_compute; reflexivity|simpl; lia].
Defined.
