(* ===== verification/Filter.v ===== *)
(** * internal/filter/topic.go: topic, group and config-property filters

    A filter is a pair of compiled pattern lists. Go's [regexp] package is an
    interface here: [Compile] returns a compiled expression or an error and
    [MatchString] is a pure predicate on strings; every result holds for any
    such engine. [LiteralRegexp] is a small concrete engine, used to evaluate
    the filters on examples. *)
From S2P Require Import Prelude GoStrings.

Class RegexpEngine := {
  Regexp : Type;
  Compile : string → error + Regexp;
  MatchString : Regexp → string → bool;
}.

Section filters.
Context {RE : RegexpEngine}.

(** ** Data *)

Record TopicFilter := { tf_whitelist : list Regexp; tf_blacklist : list Regexp }.
Record GroupFilter := { gf_whitelist : list Regexp; gf_blacklist : list Regexp }.
Record ConfigPropertyFilter :=
  { cf_whitelist : list Regexp; cf_blacklist : list Regexp }.

(** ** Constructors *)

Fixpoint compilePatterns (patterns : list string) : outcome (list Regexp) :=
  match patterns with
  | [] => Ok []
  | p :: patterns =>
      match Compile p with
      | inl err => Err err
      | inr re => compiled ← compilePatterns patterns; Ok (re :: compiled)
      end
  end.

Definition NewTopicFilter (whitelist blacklist : list string) : outcome TopicFilter :=
  wl ← compilePatterns whitelist;
  bl ← compilePatterns blacklist;
  Ok {| tf_whitelist := wl; tf_blacklist := bl |}.

Definition NewGroupFilter (whitelist blacklist : list string) : outcome GroupFilter :=
  wl ← compilePatterns whitelist;
  bl ← compilePatterns blacklist;
  Ok {| gf_whitelist := wl; gf_blacklist := bl |}.

Definition NewConfigPropertyFilter (whitelist blacklist : list string)
    : outcome ConfigPropertyFilter :=
  wl ← compilePatterns whitelist;
  bl ← compilePatterns blacklist;
  Ok {| cf_whitelist := wl; cf_blacklist := bl |}.

(** ** Decisions *)

(** A loop [for _, re := range res { if re.MatchString(s) { return ... } }]. *)
Fixpoint any_match (res : list Regexp) (s : string) : bool :=
  match res with
  | [] => false
  | re :: res => if MatchString re s then true else any_match res s
  end.

Definition TopicFilter_ShouldReplicate (tf : TopicFilter) (topic : string) : bool :=
  if HasPrefix topic "__" || HasPrefix topic "." then false
  else if any_match (tf_blacklist tf) topic then false
  else if (length (tf_whitelist tf) =? 0)%nat then true
  else any_match (tf_whitelist tf) topic.

Definition GroupFilter_ShouldReplicate (gf : GroupFilter) (group : string) : bool :=
  if any_match (gf_blacklist gf) group then false
  else if (length (gf_whitelist gf) =? 0)%nat then true
  else any_match (gf_whitelist gf) group.

Definition ConfigPropertyFilter_ShouldReplicate (cf : ConfigPropertyFilter)
    (property : string) : bool :=
  if any_match (cf_blacklist cf) property then false
  else if (length (cf_whitelist cf) =? 0)%nat then true
  else any_match (cf_whitelist cf) property.

(** ** Specification: what a whitelist and a blacklist promise *)

Definition matches (res : list Regexp) (s : string) : Prop :=
  ∃ re, re ∈ res ∧ MatchString re s = true.

Definition selected (wl bl : list Regexp) (s : string) : Prop :=
  ¬ matches bl s ∧ (wl = [] ∨ matches wl s).

Definition hidden_topic (topic : string) : Prop :=
  (∃ t, topic = "__" +:+ t) ∨ (∃ t, topic = "." +:+ t).

Lemma any_match_spec res s : any_match res s = true ↔ matches res s.
Proof.
  unfold matches. induction res as [|re res IH]; simpl.
  - split; [done|]. intros (re & H & _). by apply elem_of_nil in H.
  - setoid_rewrite elem_of_cons. destruct (MatchString re s) eqn:E.
    { split; [|done]. intros _. exists re. by split; [left|]. }
    rewrite IH. split; intros (re' & Hin & Hm); exists re'; [by split; [right|]|].
    destruct Hin as [->|?]; [congruence|done].
Qed.

Lemma lists_spec wl bl s :
  (if any_match bl s then false
   else if (length wl =? 0)%nat then true else any_match wl s) = true
  ↔ selected wl bl s.
Proof.
  unfold selected. rewrite <- !any_match_spec.
  destruct (any_match bl s); [split; [done|by intros [[] _]]|].
  destruct wl as [|re wl]; cbn [length Nat.eqb].
  { split; [|done]. intros _. split; [done|by left]. }
  split; [intros H; split; [done|by right]|]. by intros [_ [?|?]].
Qed.

Lemma hidden_topic_spec t :
  HasPrefix t "__" || HasPrefix t "." = true ↔ hidden_topic t.
Proof. unfold hidden_topic. by rewrite orb_true_iff, !HasPrefix_spec. Qed.

Lemma compilePatterns_ok ps :
  is_ok (compilePatterns ps) = true ↔ Forall (λ p, ∃ re, Compile p = inr re) ps.
Proof.
  induction ps as [|p ps IH]; simpl; [by split|]. rewrite Forall_cons.
  destruct (Compile p) as [e|re]; [by split; [done|intros [[? [=]] _]]|].
  rewrite <- IH. destruct (compilePatterns ps); simpl; naive_solver.
Qed.

Lemma compilePatterns_length ps res :
  compilePatterns ps = Ok res → length res = length ps.
Proof.
  revert res. induction ps as [|p ps IH]; intros res; simpl; [by intros [= <-]|].
  destruct (Compile p); [done|].
  intros (res' & H & [= <-])%bind_ok. simpl. f_equal. by apply IH.
Qed.

(** ** Properties *)

(** The topic filter replicates exactly the topics that are not hidden (no
    ["__"] or ["."] prefix), match no blacklist pattern, and match some
    whitelist pattern or face an empty whitelist: the blacklist takes
    precedence and an empty whitelist means match all. The group and
    config-property filters decide the same way without the hidden-topic rule. *)
Theorem ShouldReplicate_spec tf gf cf s :
  (TopicFilter_ShouldReplicate tf s = true ↔
     ¬ hidden_topic s ∧ selected (tf_whitelist tf) (tf_blacklist tf) s) ∧
  (GroupFilter_ShouldReplicate gf s = true ↔
     selected (gf_whitelist gf) (gf_blacklist gf) s) ∧
  (ConfigPropertyFilter_ShouldReplicate cf s = true ↔
     selected (cf_whitelist cf) (cf_blacklist cf) s).
Proof.
  split; [|split; apply lists_spec].
  rewrite <- hidden_topic_spec, <- lists_spec. unfold TopicFilter_ShouldReplicate.
  destruct (_ || _); [split; [done|by intros [[] _]]|].
  split; [by split|by intros [_ ?]].
Qed.

(** Building a topic filter succeeds exactly when every pattern of both lists
    compiles; it never panics, and the error of a failing call is the error of
    one of the patterns. *)
Theorem NewTopicFilter_ok_iff wl bl :
  (is_ok (NewTopicFilter wl bl) = true ↔
     Forall (λ p, ∃ re, Compile p = inr re) (wl ++ bl)) ∧
  (∀ e, NewTopicFilter wl bl = Err e → ∃ p, p ∈ wl ++ bl ∧ Compile p = inl e) ∧
  (∀ why, NewTopicFilter wl bl ≠ Panic why).
Proof.
  assert (∀ ps, (∀ e, compilePatterns ps = Err e → ∃ p, p ∈ ps ∧ Compile p = inl e) ∧
                ∀ why, compilePatterns ps ≠ Panic why) as Hc.
  { induction ps as [|p ps [IH1 IH2]]; simpl; [done|].
    destruct (Compile p) as [e0|] eqn:E.
    { split; [|done]. intros e1 [= <-]. exists p. split; [by left|done]. }
    destruct (compilePatterns ps) as [|e'|]; simpl; [done| |by edestruct IH2].
    split; [|done]. intros e1 [= <-]. destruct (IH1 e' eq_refl) as (q & ? & ?).
    exists q. split; [by right|done]. }
  destruct (Hc wl) as [Hw1 Hw2], (Hc bl) as [Hb1 Hb2].
  rewrite Forall_app, <- !compilePatterns_ok. unfold NewTopicFilter.
  destruct (compilePatterns wl) as [rw|e|]; cbn [mbind outcome_bind is_ok]; [..|by edestruct Hw2].
  - destruct (compilePatterns bl) as [rb|e|]; cbn [mbind outcome_bind is_ok]; [..|by edestruct Hb2].
    + by repeat split.
    + split; [naive_solver|]. split; [|done]. intros e1 [= <-].
      destruct (Hb1 e eq_refl) as (p & ? & ?). exists p.
      split; [apply elem_of_app; by right|done].
  - split; [naive_solver|]. split; [|done]. intros e1 [= <-].
    destruct (Hw1 e eq_refl) as (p & ? & ?). exists p.
    split; [apply elem_of_app; by left|done].
Qed.

End filters.

(** ** A concrete engine

    Patterns are literals: a pattern matches the strings it occurs in, and a
    pattern with an opening parenthesis does not compile. *)
#[export] Instance LiteralRegexp : RegexpEngine := {|
  Regexp := string;
  Compile p := if str_index p "(" then inl (Errorf "error parsing regexp" [p]) else inr p;
  MatchString re s := if str_index s re then true else false;
|}.

Example literal_filter :
  (tf ← NewTopicFilter ["ord"; "pay"] ["test"];
   Ok (TopicFilter_ShouldReplicate tf <$> ["orders"; "test-orders"; "users"; "__pay"]))
  = Ok [true; false; false; false].
Proof. reflexivity. Qed.
