(* ===== verification/Policy.v ===== *)
(** * internal/policy/replication.go: replication policies

    The [ReplicationPolicy] interface is a record of operations; [DefaultPolicy]
    (alias prefix with a configurable separator) and [IdentityPolicy] implement
    it. [PolicyLaws] states what the interface promises to its clients: the
    internal topics a policy names are recognised as internal. *)
From S2P Require Import Prelude GoStrings.

(** ** The interface *)

Record ReplicationPolicy := {
  FormatRemoteTopic : string → string → string;
  TopicSource : string → string;
  UpstreamTopic : string → string;
  IsInternalTopic : string → bool;
  IsHeartbeatsTopic : string → bool;
  OffsetSyncsTopic : string → string;
  CheckpointsTopic : string → string;
  HeartbeatsTopic : string;
}.

Class PolicyLaws (p : ReplicationPolicy) : Prop := {
  offset_syncs_internal alias : IsInternalTopic p (OffsetSyncsTopic p alias) = true;
  checkpoints_internal alias : IsInternalTopic p (CheckpointsTopic p alias) = true;
  heartbeats_recognised : IsHeartbeatsTopic p (HeartbeatsTopic p) = true;
}.

(** ** DefaultPolicy *)

Record DefaultPolicy := { Separator : string }.

Definition NewDefaultPolicy (separator : string) : DefaultPolicy :=
  let separator := if bool_decide (separator = "") then "." else separator in
  {| Separator := separator |}.

Definition Default_FormatRemoteTopic (p : DefaultPolicy) (sourceCluster topic : string)
    : string :=
  sourceCluster +:+ Separator p +:+ topic.

Definition Default_TopicSource (p : DefaultPolicy) (topic : string) : string :=
  let idx := Index topic (Separator p) in
  if (idx <? 0)%Z then "" else str_take (Z.to_nat idx) topic.

Definition Default_UpstreamTopic (p : DefaultPolicy) (topic : string) : string :=
  let source := Default_TopicSource p topic in
  if bool_decide (source = "") then ""
  else str_drop (String.length source + String.length (Separator p)) topic.

Definition Default_IsInternalTopic (p : DefaultPolicy) (topic : string) : bool :=
  HasPrefix topic "mm2" && HasSuffix topic (Separator p +:+ "internal")
  || HasSuffix topic (Separator p +:+ "checkpoints" +:+ Separator p +:+ "internal").

Definition Default_IsHeartbeatsTopic (p : DefaultPolicy) (topic : string) : bool :=
  bool_decide (topic = "heartbeats").

Definition Default_OffsetSyncsTopic (p : DefaultPolicy) (clusterAlias : string) : string :=
  "mm2-offset-syncs" +:+ Separator p +:+ clusterAlias +:+ Separator p +:+ "internal".

Definition Default_CheckpointsTopic (p : DefaultPolicy) (clusterAlias : string) : string :=
  clusterAlias +:+ Separator p +:+ "checkpoints" +:+ Separator p +:+ "internal".

Definition Default_HeartbeatsTopic (p : DefaultPolicy) : string := "heartbeats".

Definition default_policy (p : DefaultPolicy) : ReplicationPolicy := {|
  FormatRemoteTopic := Default_FormatRemoteTopic p;
  TopicSource := Default_TopicSource p;
  UpstreamTopic := Default_UpstreamTopic p;
  IsInternalTopic := Default_IsInternalTopic p;
  IsHeartbeatsTopic := Default_IsHeartbeatsTopic p;
  OffsetSyncsTopic := Default_OffsetSyncsTopic p;
  CheckpointsTopic := Default_CheckpointsTopic p;
  HeartbeatsTopic := Default_HeartbeatsTopic p;
|}.

(** ** IdentityPolicy *)

Definition Identity_FormatRemoteTopic (_ topic : string) : string := topic.
Definition Identity_TopicSource (_ : string) : string := "".
Definition Identity_UpstreamTopic (topic : string) : string := topic.

Definition Identity_IsInternalTopic (topic : string) : bool :=
  HasPrefix topic "mm2" && HasSuffix topic ".internal"
  || HasSuffix topic ".checkpoints.internal".

Definition Identity_IsHeartbeatsTopic (topic : string) : bool :=
  bool_decide (topic = "heartbeats").

Definition Identity_OffsetSyncsTopic (clusterAlias : string) : string :=
  "mm2-offset-syncs." +:+ clusterAlias +:+ ".internal".

Definition Identity_CheckpointsTopic (clusterAlias : string) : string :=
  clusterAlias +:+ ".checkpoints.internal".

Definition Identity_HeartbeatsTopic : string := "heartbeats".

Definition identity_policy : ReplicationPolicy := {|
  FormatRemoteTopic := Identity_FormatRemoteTopic;
  TopicSource := Identity_TopicSource;
  UpstreamTopic := Identity_UpstreamTopic;
  IsInternalTopic := Identity_IsInternalTopic;
  IsHeartbeatsTopic := Identity_IsHeartbeatsTopic;
  OffsetSyncsTopic := Identity_OffsetSyncsTopic;
  CheckpointsTopic := Identity_CheckpointsTopic;
  HeartbeatsTopic := Identity_HeartbeatsTopic;
|}.

(** ** Selection by name *)

Definition NewPolicy (name separator : string) : outcome ReplicationPolicy :=
  if bool_decide (name = "default") || bool_decide (name = "")
  then Ok (default_policy (NewDefaultPolicy separator))
  else if bool_decide (name = "identity") then Ok identity_policy
  else Err (Errorf "unknown replication policy: %s" [name]).

(** ** Lemmas *)

#[export] Instance default_policy_laws p : PolicyLaws (default_policy p).
Proof.
  split; simpl.
  - intros alias. unfold Default_IsInternalTopic. apply orb_true_iff. left.
    apply andb_true_iff. split; [apply HasPrefix_spec; by eexists|].
    unfold Default_OffsetSyncsTopic. rewrite <- !str_app_assoc, !str_app_assoc.
    rewrite <- (str_app_assoc "mm2-offset-syncs"), <- (str_app_assoc (_ +:+ _) alias).
    apply HasSuffix_app.
  - intros alias. unfold Default_IsInternalTopic. apply orb_true_iff. right.
    apply HasSuffix_app.
  - done.
Qed.

#[export] Instance identity_policy_laws : PolicyLaws identity_policy.
Proof.
  split; simpl.
  - intros alias. apply orb_true_iff. left. apply andb_true_iff.
    split; [apply HasPrefix_spec; by eexists|].
    unfold Identity_OffsetSyncsTopic. rewrite <- str_app_assoc. apply HasSuffix_app.
  - intros alias. apply orb_true_iff. right. apply HasSuffix_app.
  - done.
Qed.

(** The cluster alias can be recovered: no separator starts inside it. *)
Definition alias_ok (p : DefaultPolicy) (alias : string) : Prop :=
  alias ≠ "" ∧ Separator p ≠ "" ∧
  str_index (alias +:+ str_init (Separator p)) (Separator p) = None.

#[export] Instance alias_ok_dec p alias : Decision (alias_ok p alias).
Proof. unfold alias_ok. apply _. Defined.

Lemma Default_TopicSource_Format p alias t :
  alias_ok p alias → Default_TopicSource p (Default_FormatRemoteTopic p alias t) = alias.
Proof.
  intros (Hne & Hsep & Hnone).
  unfold Default_TopicSource, Default_FormatRemoteTopic, Index.
  rewrite str_index_app by done. rewrite (proj2 (Z.ltb_ge _ _)) by lia.
  by rewrite Nat2Z.id, str_take_app.
Qed.

Lemma Default_TopicSource_nonempty p t :
  Default_TopicSource p t ≠ "" →
  ∃ t', t = Default_TopicSource p t +:+ Separator p +:+ t'.
Proof.
  unfold Default_TopicSource, Index.
  destruct (str_index t (Separator p)) as [n|] eqn:E; [|done].
  rewrite (proj2 (Z.ltb_ge _ _)), Nat2Z.id by lia. intros _.
  apply str_index_Some in E as (Hp & _ & _). apply HasPrefix_spec in Hp as [t' Ht].
  exists t'. by rewrite <- Ht, str_take_drop.
Qed.

Lemma Default_source_empty p t :
  Separator p ≠ "" →
  Default_TopicSource p t = "" ↔
  str_index t (Separator p) = None ∨ HasPrefix t (Separator p) = true.
Proof.
  intros Hsep. unfold Default_TopicSource, Index.
  destruct (str_index t (Separator p)) as [n|] eqn:E; [|simpl; tauto].
  rewrite (proj2 (Z.ltb_ge _ _)), Nat2Z.id by lia.
  apply str_index_Some in E as (Hp & Hn & Hmin). split.
  - intros H. right. destruct n as [|n]; [done|]. by destruct t.
  - intros [?|H]; [done|]. destruct n as [|n]; [by destruct t|].
    specialize (Hmin 0 ltac:(lia)). simpl in Hmin. congruence.
Qed.

(** ** Properties *)

(** C37. Under the default policy the remote topic name can be decomposed: for a
    non-empty cluster alias in which no separator starts, [TopicSource] returns
    the alias and [UpstreamTopic] the original topic, so the remote name
    determines both and remote names of distinct flows or topics never
    collide. *)
Theorem Default_remote_topic_roundtrip p alias t :
  alias_ok p alias →
  Default_TopicSource p (Default_FormatRemoteTopic p alias t) = alias ∧
  Default_UpstreamTopic p (Default_FormatRemoteTopic p alias t) = t ∧
  ∀ alias' t', alias_ok p alias' →
    Default_FormatRemoteTopic p alias t = Default_FormatRemoteTopic p alias' t' →
    alias = alias' ∧ t = t'.
Proof.
  intros Ha. assert (∀ a u, alias_ok p a →
    Default_UpstreamTopic p (Default_FormatRemoteTopic p a u) = u) as Hup.
  { intros a u Hok. unfold Default_UpstreamTopic.
    rewrite Default_TopicSource_Format by done.
    rewrite bool_decide_false by apply Hok.
    unfold Default_FormatRemoteTopic. rewrite <- str_app_assoc, <- length_str_app.
    apply str_drop_app. }
  split; [by apply Default_TopicSource_Format|]. split; [by apply Hup|].
  intros alias' t' Ha' Heq. split.
  - by rewrite <- (Default_TopicSource_Format p alias t), Heq, Default_TopicSource_Format.
  - by rewrite <- (Hup alias t), Heq, Hup.
Qed.

Lemma Default_remote_topic_roundtrip_witness :
  let p := NewDefaultPolicy "" in
  Default_FormatRemoteTopic p "us-west" "a.b" = "us-west.a.b" ∧
  Default_UpstreamTopic p (Default_FormatRemoteTopic p "us-west" "a.b") = "a.b".
Proof.
  split; [reflexivity|].
  apply (Default_remote_topic_roundtrip (NewDefaultPolicy "") "us-west" "a.b").
  vm_compute. split; [done|]. split; done.
Defined.

(** Every policy that can be selected in the configuration keeps the
    interface's promise: the offset-syncs and checkpoints topics it names for
    any cluster are internal topics and its heartbeats topic is recognised, and
    selection fails, with an error, exactly on unknown names. *)
Theorem NewPolicy_lawful name separator :
  (∀ p, NewPolicy name separator = Ok p → PolicyLaws p) ∧
  (is_ok (NewPolicy name separator) = true ↔ name ∈ ["default"; ""; "identity"]) ∧
  (∀ why, NewPolicy name separator ≠ Panic why).
Proof.
  unfold NewPolicy. rewrite !elem_of_cons, elem_of_nil.
  repeat case_bool_decide; simpl; subst;
    (split; [intros p Hp; try (injection Hp as <-; apply _); done|]);
    (split; [|done]); naive_solver.
Qed.

(** [TopicSource] and [UpstreamTopic] split a topic without losing anything:
    whenever the default policy finds a non-empty source, the topic is that
    source, the separator and the upstream topic; and it finds none exactly when
    the separator is absent or the topic starts with it. *)
Theorem Default_topic_split p t :
  Separator p ≠ "" →
  (Default_TopicSource p t ≠ "" →
     t = Default_FormatRemoteTopic p (Default_TopicSource p t) (Default_UpstreamTopic p t)) ∧
  (Default_TopicSource p t = "" ↔
     str_index t (Separator p) = None ∨ HasPrefix t (Separator p) = true).
Proof.
  intros Hsep. split.
  - intros Hne. unfold Default_UpstreamTopic. rewrite bool_decide_false by done.
    destruct (Default_TopicSource_nonempty p t Hne) as [t' Ht].
    set (src := Default_TopicSource p t) in *. clearbody src. subst t.
    rewrite <- length_str_app, <- (str_app_assoc src), str_drop_app.
    unfold Default_FormatRemoteTopic. by rewrite str_app_assoc.
  - by apply Default_source_empty.
Qed.

Lemma Default_topic_split_witness :
  let p := NewDefaultPolicy "_" in
  "dc1_events" = Default_FormatRemoteTopic p "dc1" "events" ∧
  Default_TopicSource p "dc1_events" = "dc1".
Proof.
  split; [|reflexivity].
  apply (Default_topic_split (NewDefaultPolicy "_") "dc1_events"); [done|].
  vm_compute. discriminate.
Defined.
