(* ===== verification/Retry.v ===== *)
(** * internal/mirror/retry.go, first half: [Retry] and its backoff

    The retried function is a state transformer on the world [W] it acts on.
    What the context, the timer and the random source do is an explicit
    environment, indexed by the attempt, so that every run of the loop is
    covered. The backoff is computed in [float64] as the code does; the
    conversion of an out-of-range float to an integer, which Go leaves to the
    implementation, is a parameter. *)
From S2P Require Import Prelude.

Local Open Scope Z_scope.

Record RetryConfig := {
  MaxRetries : Z;
  BackoffBase : Z;
  BackoffMax : Z;
}.

(** [time.Duration] counts nanoseconds. *)
Definition Millisecond : Z := 1000000.
Definition Second : Z := 1000 * Millisecond.

Definition DefaultRetryConfig : RetryConfig :=
  {| MaxRetries := 10; BackoffBase := 100 * Millisecond; BackoffMax := 30 * Second |}.

(** ** [float64] values on the way to a duration

    All floats met here are integers times a power of two: a converted [int64],
    [math.Pow(2, n)] with [n >= 0], and their product. *)

Inductive f64 := Fin (z : Z) | Inf (negative : bool) | NaN.

(** Rounding to 53 significant bits, ties to even. *)
Definition round53 (z : Z) : Z :=
  let a := Z.abs z in
  if a <? 2 ^ 53 then z
  else
    let e := Z.log2 a - 52 in
    let q := a / 2 ^ e in
    let r := a mod 2 ^ e in
    let half := 2 ^ (e - 1) in
    let q := if (r <? half) || ((r =? half) && Z.even q) then q else q + 1 in
    Z.sgn z * (q * 2 ^ e).

Definition float64 (z : Z) : f64 := Fin (round53 z).

(** [math.Pow(2, float64(n))] for [n >= 0]. *)
Definition Pow2 (n : Z) : f64 := if n <? 1024 then Fin (2 ^ n) else Inf false.

(** Multiplication by a non-negative power of two: exact unless it overflows. *)
Definition mul_pow2 (a p : f64) : f64 :=
  match a, p with
  | Fin x, Fin y => if Z.abs (x * y) <? 2 ^ 1024 then Fin (x * y) else Inf (x <? 0)
  | Fin x, Inf _ => if x =? 0 then NaN else Inf (x <? 0)
  | _, _ => NaN
  end.

(** [rand.Int63n(n)], fed with an arbitrary number [r] from the source. *)
Definition Int63n (n r : Z) : outcome Z :=
  if n <=? 0 then Panic "invalid argument to Int63n" else Ok (r mod n).

Section backoff.
(** What the platform returns for [int64(f)] when [f] is out of range. *)
Context (out_of_range : f64 → Z).

(** [time.Duration(f)] *)
Definition duration_of_float (f : f64) : Z :=
  match f with
  | Fin z => if (- 2 ^ 63 <=? z) && (z <? 2 ^ 63) then z else i64 (out_of_range f)
  | _ => i64 (out_of_range f)
  end.

(** The cap applied before the jitter. *)
Definition capped_backoff (attempt base maxBackoff : Z) : Z :=
  let exp := Pow2 attempt in
  let backoff := duration_of_float (mul_pow2 (float64 base) exp) in
  if (maxBackoff <? backoff) || (backoff <=? 0) then maxBackoff else backoff.

Definition computeBackoff (attempt base maxBackoff r : Z) : outcome Z :=
  Int63n (i64 (capped_backoff attempt base maxBackoff + 1)) r.

Lemma capped_backoff_le attempt base maxBackoff :
  0 ≤ maxBackoff → 0 ≤ capped_backoff attempt base maxBackoff ≤ maxBackoff.
Proof. intros. unfold capped_backoff. cbv zeta. case_match eqn:E; b2p; lia. Qed.

Lemma capped_backoff_exact attempt base maxBackoff :
  0 ≤ attempt < 1024 → 0 < base < 2 ^ 53 → base * 2 ^ attempt ≤ maxBackoff < 2 ^ 63 →
  capped_backoff attempt base maxBackoff = base * 2 ^ attempt.
Proof.
  intros Ha Hb Hm. unfold capped_backoff, float64, round53, Pow2, mul_pow2.
  rewrite (proj2 (Z.ltb_lt (Z.abs base) _)), (proj2 (Z.ltb_lt attempt _)) by lia.
  assert (0 < 2 ^ attempt) by (apply Z.pow_pos_nonneg; lia).
  assert (0 < base * 2 ^ attempt) by nia.
  assert (2 ^ 63 < 2 ^ 1024) by (apply Z.pow_lt_mono_r; lia).
  rewrite (proj2 (Z.ltb_lt (Z.abs (base * _)) _)) by lia. cbn [duration_of_float].
  rewrite (proj2 (Z.leb_le (- 2 ^ 63) _)), (proj2 (Z.ltb_lt _ (2 ^ 63))) by lia.
  cbn [andb]. rewrite (proj2 (Z.ltb_ge _ _)), (proj2 (Z.leb_gt _ _)) by lia. done.
Qed.

Lemma capped_backoff_zero attempt maxBackoff :
  attempt < 1024 → capped_backoff attempt 0 maxBackoff = maxBackoff.
Proof.
  intros Ha. unfold capped_backoff, Pow2. rewrite (proj2 (Z.ltb_lt attempt _)) by lia.
  change (float64 0) with (Fin 0). cbn [mul_pow2]. rewrite Z.mul_0_l.
  change (Z.abs 0 <? 2 ^ 1024) with true. cbv iota.
  change (duration_of_float (Fin 0)) with 0. cbv zeta. by rewrite orb_true_r.
Qed.

Lemma computeBackoff_panics attempt base maxBackoff r :
  - 2 ^ 63 ≤ maxBackoff < 0 → ∃ why, computeBackoff attempt base maxBackoff r = Panic why.
Proof.
  intros Hm. unfold computeBackoff, Int63n.
  assert (capped_backoff attempt base maxBackoff = maxBackoff) as ->.
  { unfold capped_backoff. cbv zeta. destruct (_ <? _) eqn:E1; [done|].
    destruct (_ <=? 0) eqn:E2; [done|]. b2p. lia. }
  rewrite sint_small by (unfold in_s; lia).
  rewrite (proj2 (Z.leb_le _ _)) by lia. by eexists.
Qed.

(** ** The loop *)

Context {W : Type}.

(** What the surroundings of a run do at each attempt. *)
Record RetryEnv := {
  ctxErr : Z → option ctx_err;   (* [ctx.Err()] at the head of the iteration *)
  ctxDone : Z → bool;            (* the select takes the [ctx.Done()] branch *)
  rnd : Z → Z;                   (* what the random source yields *)
  elapse : Z → W → W;            (* the world after the timer has fired *)
}.

(** The function to retry: [None] is a nil error. *)
Definition RetryableFunc : Type := W → option error * W.

Definition exhausted (cfg : RetryConfig) (lastErr : option error) : error :=
  match lastErr with
  | Some e => Wrapf "exhausted %d retries: %w" [pretty (MaxRetries cfg)] e
  | None => Errorf "exhausted %d retries: %!w(<nil>)" [pretty (MaxRetries cfg)]
  end.

(** [togo] is the number of iterations the [for] statement still allows. *)
Fixpoint retry_loop (togo : nat) (env : RetryEnv) (cfg : RetryConfig)
    (fn : RetryableFunc) (attempt : Z) (lastErr : option error) (w : W)
    : outcome unit * W :=
  match togo with
  | O => (Err (exhausted cfg lastErr), w)
  | S togo =>
      match ctxErr env attempt with
      | Some err =>
          (Err (match lastErr with
                | Some last =>
                    Wrapf "context cancelled after %d attempts: %w (last: %v)"
                      [pretty attempt] (ctx_error err)
                | None => Wrapf "context cancelled: %w" [] (ctx_error err)
                end), w)
      | None =>
          match fn w with
          | (None, w) => (Ok (), w)
          | (Some e, w) =>
              if attempt =? MaxRetries cfg
              then (Err (exhausted cfg (Some e)), w)
              else
                match computeBackoff attempt (BackoffBase cfg) (BackoffMax cfg)
                        (rnd env attempt) with
                | Ok backoff =>
                    if ctxDone env attempt
                    then (Err (Wrapf "context cancelled during backoff (attempt %d/%d): %w"
                                [pretty (attempt + 1); pretty (MaxRetries cfg)] e), w)
                    else retry_loop togo env cfg fn (attempt + 1) (Some e)
                           (elapse env backoff w)
                | Err e => (Err e, w)
                | Panic why => (Panic why, w)
                end
          end
      end
  end.

Definition Retry (env : RetryEnv) (cfg : RetryConfig) (fn : RetryableFunc) (w : W)
    : outcome unit * W :=
  retry_loop (Z.to_nat (MaxRetries cfg + 1)) env cfg fn 0 None w.

(** A retried function and a passage of time that keep a property of the world. *)
Lemma retry_loop_keeps (I : W → Prop) (env : RetryEnv) cfg (fn : RetryableFunc)
    togo attempt last w :
  (∀ w, I w → I (fn w).2) → (∀ b w, I w → I (elapse env b w)) → I w →
  I (retry_loop togo env cfg fn attempt last w).2.
Proof.
  intros Hfn Hel. revert attempt last w. induction togo as [|togo IH]; intros attempt last w Hw; simpl; [done|].
  destruct (ctxErr env attempt); [done|]. pose proof (Hfn w Hw) as Hw1.
  destruct (fn w) as [[e|] w1]; simpl in Hw1; [|done]. case_match; [done|].
  destruct (computeBackoff _ _ _ _); [|done..]. case_match; [done|]. by apply IH, Hel.
Qed.

(** ** Calls of the retried function

    [run_calls fn es w w'] says that calling [fn] from [w], with some passage
    of time between the calls, answers the errors [es] and ends in [w']. *)
Inductive run_calls (env : RetryEnv) (fn : RetryableFunc)
    : list (option error) → W → W → Prop :=
  | rc_nil w : run_calls env fn [] w w
  | rc_one w e w' : fn w = (e, w') → run_calls env fn [e] w w'
  | rc_cons w e w1 d es w' :
      fn w = (e, w1) → run_calls env fn es (elapse env d w1) w' →
      run_calls env fn (e :: es) w w'.

(** The environment never cancels and the backoff is well defined. *)
Definition calm (env : RetryEnv) (cfg : RetryConfig) : Prop :=
  (∀ i, ctxErr env i = None) ∧ (∀ i, ctxDone env i = false) ∧
  0 ≤ BackoffMax cfg < 2 ^ 63 - 1.

Lemma computeBackoff_ok attempt base maxBackoff r :
  0 ≤ maxBackoff < 2 ^ 63 - 1 →
  computeBackoff attempt base maxBackoff r
  = Ok (r mod (capped_backoff attempt base maxBackoff + 1)).
Proof.
  intros. pose proof (capped_backoff_le attempt base maxBackoff).
  unfold computeBackoff, Int63n.
  rewrite sint_small by (unfold in_s; lia).
  by rewrite (proj2 (Z.leb_gt _ _)) by lia.
Qed.

Lemma retry_loop_calls env cfg fn togo attempt lastErr w r w' :
  attempt + Z.of_nat togo = MaxRetries cfg + 1 ∨ togo = O →
  retry_loop togo env cfg fn attempt lastErr w = (r, w') →
  ∃ es, (length es ≤ togo)%nat ∧ run_calls env fn es w w' ∧
    match r with
    | Ok _ => ∃ fails, es = (Some <$> fails) ++ [None]
    | _ => ∃ fails, es = Some <$> fails ∧ (calm env cfg → length es = togo)
    end.
Proof.
  revert attempt lastErr w. induction togo as [|togo IH];
    intros attempt lastErr w Hl; cbn [retry_loop].
  { intros [= <- <-]. exists []. split; [simpl; lia|]. split; [constructor|]. by exists []. }
  destruct Hl as [Hl|Hl]; [|done].
  destruct (ctxErr env attempt) as [c|] eqn:Ec.
  { intros [= <- <-]. exists []. split; [simpl; lia|]. split; [constructor|].
    exists []. split; [done|]. intros (H & _). by rewrite H in Ec. }
  destruct (fn w) as [[e|] w1] eqn:Ef.
  2:{ intros [= <- <-]. exists [None]. split; [simpl; lia|].
      split; [by constructor|]. by exists []. }
  assert (∀ x, attempt = MaxRetries cfg ∨ (calm env cfg → False) →
    (x = r → ∀ u, x ≠ Ok u) → (x, w1) = (r, w') →
    ∃ es, (length es ≤ S togo)%nat ∧ run_calls env fn es w w' ∧
    match r with
    | Ok _ => ∃ fails, es = (Some <$> fails) ++ [None]
    | _ => ∃ fails, es = Some <$> fails ∧ (calm env cfg → length es = S togo)
    end) as Hstop.
  { intros x Hx Hnok [= -> <-]. exists [Some e]. split; [simpl; lia|].
    split; [by constructor|]. destruct r as [u| |]; [by destruct (Hnok eq_refl u)|..];
    exists [e]; (split; [done|]); intros Hcalm; destruct Hx; simpl; [lia|tauto|lia|tauto]. }
  destruct (attempt =? MaxRetries cfg) eqn:Ea; b2p; [apply Hstop; [by left|done]|].
  destruct (computeBackoff _ _ _ _) as [b|eb|why] eqn:Eb.
  2,3: apply Hstop; [right; intros (_ & _ & Hm);
         by rewrite computeBackoff_ok in Eb|intros <-; done].
  destruct (ctxDone env attempt) eqn:Ed.
  { apply Hstop; [right; intros (_ & H & _); by rewrite H in Ed|intros <-; done]. }
  intros (es & Hlen & Hrun & Hr)%IH; [|lia]. exists (Some e :: es).
  split; [simpl; lia|]. split; [by eapply rc_cons|].
  destruct r as [u| |]; [destruct Hr as [fails ->]; by exists (e :: fails)|..];
    destruct Hr as (fails & -> & Hc); exists (e :: fails); (split; [done|]);
    intros Hcalm; simpl; by rewrite Hc.
Qed.

(** ** Properties *)

(** C38. [Retry] calls its function at most [MaxRetries + 1] times. It returns nil
    exactly after a run of failing calls that ends in a successful one; any
    other result comes after failing calls only, and that many calls are really
    made if the context is never cancelled and the largest backoff is not negative
    and below 2^63 - 1 ([calm]). With a negative largest backoff, and retries left,
    [Retry] panics after the first failing call. *)
Theorem Retry_calls env cfg fn w r w' :
  Retry env cfg fn w = (r, w') →
  (∃ es, Z.of_nat (length es) ≤ Z.max 0 (MaxRetries cfg + 1) ∧
    run_calls env fn es w w' ∧
    match r with
    | Ok _ => ∃ fails, es = (Some <$> fails) ++ [None]
    | _ => ∃ fails, es = Some <$> fails ∧
        (calm env cfg → Z.of_nat (length es) = Z.max 0 (MaxRetries cfg + 1))
    end) ∧
  (- 2 ^ 63 ≤ BackoffMax cfg < 0 → 0 < MaxRetries cfg → ctxErr env 0 = None →
     ∀ e w1, fn w = (Some e, w1) → w' = w1 ∧ ∃ why, r = Panic why).
Proof.
  intros HR. split.
  - apply retry_loop_calls in HR as (es & Hlen & Hrun & Hr); [|lia].
    exists es. split; [lia|]. split; [done|].
    destruct r as [u| |]; [done|..]; destruct Hr as (fails & -> & Hc);
      exists fails; (split; [done|]); intros Hcalm; rewrite Hc by done; lia.
  - intros Hneg Hmax Hctx e w1 Hf. unfold Retry in HR.
    destruct (Z.to_nat (MaxRetries cfg + 1)) as [|togo] eqn:Et; [lia|].
    cbn [retry_loop] in HR. rewrite Hctx, Hf, (proj2 (Z.eqb_neq _ _)) in HR by lia.
    destruct (computeBackoff_panics 0 (BackoffBase cfg) (BackoffMax cfg) (rnd env 0) Hneg)
      as [why Hp].
    rewrite Hp in HR. injection HR as <- <-. split; [done|]. by exists why.
Qed.

(** C39. The jittered backoff is bounded: for a maximum below 2^63 - 1 it is
    defined and lies between 0 and the maximum, whatever the platform makes of
    an overflowing float. For an [attempt] below 1024 and a base above 0 and below
    2^53, it also stays below [base * 2^attempt] while that is within the maximum;
    with the base 0 it is drawn from the whole range up to the maximum. With a
    negative maximum the call panics. *)
Theorem computeBackoff_bounds attempt base maxBackoff r :
  0 ≤ attempt →
  (0 ≤ maxBackoff < 2 ^ 63 - 1 →
     ∃ j, computeBackoff attempt base maxBackoff r = Ok j ∧ 0 ≤ j ≤ maxBackoff ∧
       (attempt < 1024 → 0 < base < 2 ^ 53 → base * 2 ^ attempt ≤ maxBackoff →
          j ≤ base * 2 ^ attempt) ∧
       (attempt < 1024 → base = 0 → j = r mod (maxBackoff + 1))) ∧
  (- 2 ^ 63 ≤ maxBackoff < 0 →
     ∃ why, computeBackoff attempt base maxBackoff r = Panic why).
Proof.
  intros Ha. split; [|apply computeBackoff_panics].
  intros Hm. rewrite computeBackoff_ok by done.
  pose proof (capped_backoff_le attempt base maxBackoff).
  eexists. split; [done|].
  pose proof (Z.mod_pos_bound r (capped_backoff attempt base maxBackoff + 1)).
  split; [lia|]. split.
  - intros ???. rewrite capped_backoff_exact in * by lia. lia.
  - intros Hlt ->. by rewrite capped_backoff_zero.
Qed.

End backoff.

Arguments RetryEnv : clear implicits.
Arguments RetryableFunc : clear implicits.

(** ** Witnesses *)

(** A world that counts calls; the third call succeeds. *)
Definition third_time (n : nat) : option error * nat :=
  (if (2 <=? n)%nat then None else Some (Errorf "not yet" []), S n).
Definition calm_env : RetryEnv nat :=
  {| ctxErr _ := None; ctxDone _ := false; rnd i := 12345; elapse _ n := n |}.

Definition ex_negative : RetryConfig := {| MaxRetries := 3; BackoffBase := 5; BackoffMax := -1 |}.

Lemma Retry_calls_witness :
  Retry (λ _, 0) calm_env DefaultRetryConfig third_time 0%nat = (Ok (), 3%nat) ∧
  (∃ es, Z.of_nat (length es) ≤ 11 ∧ run_calls calm_env third_time es 0%nat 3%nat) ∧
  (Retry (λ _, 0) calm_env ex_negative third_time 0%nat).2 = 1%nat ∧
  ∃ why, (Retry (λ _, 0) calm_env ex_negative third_time 0%nat).1 = Panic why.
Proof.
  assert (Retry (λ _, 0) calm_env DefaultRetryConfig third_time 0%nat = (Ok (), 3%nat))
    as H by (vm_compute; reflexivity).
  split; [exact H|]. split.
  - destruct (Retry_calls (λ _, 0) calm_env DefaultRetryConfig third_time 0%nat _ _ H)
      as [(es & Hl & Hr & _) _]. exists es. split; [exact Hl|exact Hr].
  - apply (proj2 (Retry_calls (λ _, 0) calm_env ex_negative third_time 0%nat _ _
      (surjective_pairing _))) with (Errorf "not yet" []);
      [split; [vm_compute; discriminate|reflexivity]|reflexivity|reflexivity|reflexivity].
Defined.

Lemma computeBackoff_bounds_witness :
  ∃ j, computeBackoff (λ _, 0) 3 (100 * Millisecond) (30 * Second) 987654321987 = Ok j ∧
    0 ≤ j ≤ 30 * Second.
Proof.
  destruct (computeBackoff_bounds (λ _, 0) 3 (100 * Millisecond) (30 * Second) 987654321987)
    as [H _]; [lia|].
  destruct H as (j & Hj & Hb & _); [unfold Second, Millisecond; lia|].
  exists j. split; [exact Hj|exact Hb].
Defined.
