(* ===== verification/CircuitBreaker.v ===== *)
(** * internal/mirror/retry.go, second half: the circuit breaker

    [CircuitBreaker] as a state machine: one definition per method, the clock
    reading as an argument where the code calls [time.Now] or [time.Since], and
    [cb_step], the relation between states that any sequence of method calls
    induces. [RetryWithCircuitBreaker] composes it with [Retry]. *)
From S2P Require Import Prelude Retry.

Local Open Scope Z_scope.

Inductive CircuitState := CircuitClosed | CircuitHalfOpen | CircuitOpen.

#[global] Instance CircuitState_eq_dec : EqDecision CircuitState.
Proof. solve_decision. Defined.

Definition CircuitState_String (cs : CircuitState) : string :=
  match cs with
  | CircuitClosed => "closed"
  | CircuitHalfOpen => "half-open"
  | CircuitOpen => "open"
  end.

Record CircuitBreakerConfig := {
  FailureThreshold : Z;
  ResetTimeout : Z;
  HalfOpenMaxProbes : Z;
}.

Definition DefaultCircuitBreakerConfig : CircuitBreakerConfig :=
  {| FailureThreshold := 5; ResetTimeout := 30 * Second; HalfOpenMaxProbes := 3 |}.

Record CircuitBreaker := {
  state : CircuitState;
  failures : Z;
  successes : Z;
  lastFailureTime : Z;
  cfg : CircuitBreakerConfig;
}.

(** The zero [time.Time], in nanoseconds before the Unix epoch. *)
Definition zeroTime : Z := -62135596800 * Second.

Definition NewCircuitBreaker (c : CircuitBreakerConfig) : CircuitBreaker :=
  {| state := CircuitClosed; failures := 0; successes := 0;
     lastFailureTime := zeroTime; cfg := c |}.

(** [time.Since(t)] saturates at the ends of the [Duration] range. *)
Definition Since (now t : Z) : Z := Z.max (- 2 ^ 63) (Z.min (2 ^ 63 - 1) (now - t)).

Definition checkStateTransition (now : Z) (cb : CircuitBreaker) : CircuitBreaker :=
  if bool_decide (state cb = CircuitOpen)
     && (ResetTimeout (cfg cb) <=? Since now (lastFailureTime cb))
  then {| state := CircuitHalfOpen; failures := failures cb; successes := 0;
          lastFailureTime := lastFailureTime cb; cfg := cfg cb |}
  else cb.

Definition State (now : Z) (cb : CircuitBreaker) : CircuitState * CircuitBreaker :=
  let cb := checkStateTransition now cb in (state cb, cb).

Definition Allow (now : Z) (cb : CircuitBreaker) : bool * CircuitBreaker :=
  let cb := checkStateTransition now cb in
  (match state cb with
   | CircuitClosed => true
   | CircuitHalfOpen => true
   | CircuitOpen => false
   end, cb).

Definition RecordSuccess (cb : CircuitBreaker) : CircuitBreaker :=
  match state cb with
  | CircuitClosed =>
      {| state := state cb; failures := 0; successes := successes cb;
         lastFailureTime := lastFailureTime cb; cfg := cfg cb |}
  | CircuitHalfOpen =>
      let succ := i64 (successes cb + 1) in
      if HalfOpenMaxProbes (cfg cb) <=? succ
      then {| state := CircuitClosed; failures := 0; successes := 0;
              lastFailureTime := lastFailureTime cb; cfg := cfg cb |}
      else {| state := state cb; failures := failures cb; successes := succ;
              lastFailureTime := lastFailureTime cb; cfg := cfg cb |}
  | CircuitOpen => cb
  end.

Definition RecordFailure (now : Z) (cb : CircuitBreaker) : CircuitBreaker :=
  let fails := i64 (failures cb + 1) in
  match state cb with
  | CircuitClosed =>
      {| state := if FailureThreshold (cfg cb) <=? fails then CircuitOpen else state cb;
         failures := fails; successes := successes cb;
         lastFailureTime := now; cfg := cfg cb |}
  | CircuitHalfOpen =>
      {| state := CircuitOpen; failures := fails; successes := 0;
         lastFailureTime := now; cfg := cfg cb |}
  | CircuitOpen =>
      {| state := state cb; failures := fails; successes := successes cb;
         lastFailureTime := now; cfg := cfg cb |}
  end.

Definition Reset (cb : CircuitBreaker) : CircuitBreaker :=
  {| state := CircuitClosed; failures := 0; successes := 0;
     lastFailureTime := lastFailureTime cb; cfg := cfg cb |}.

Lemma Allow_open now cb :
  state cb = CircuitOpen → Since now (lastFailureTime cb) < ResetTimeout (cfg cb) →
  Allow now cb = (false, cb).
Proof.
  destruct cb as [st f s l c]. cbn [state lastFailureTime cfg]. intros -> Ht.
  unfold Allow, checkStateTransition. cbn [state lastFailureTime cfg].
  by rewrite (proj2 (Z.leb_gt _ _)), andb_false_r by done.
Qed.

(** ** Retrying under the breaker *)

Definition ErrCircuitOpen : error := Errorf "circuit breaker is open" [].

Section retry_with_breaker.
Context (out_of_range : f64 → Z) {W : Type} (clock : W → Z).

(** The closure handed to [Retry]. *)
Definition guarded (fn : RetryableFunc W) : RetryableFunc (CircuitBreaker * W) :=
  λ '(cb, w),
    let '(ok, cb) := Allow (clock w) cb in
    if negb ok then (Some ErrCircuitOpen, (cb, w))
    else let '(e, w) := fn w in (e, (cb, w)).

Definition RetryWithCircuitBreaker (env : RetryEnv (CircuitBreaker * W))
    (retryCfg : RetryConfig) (fn : RetryableFunc W) (cb : CircuitBreaker) (w : W)
    : outcome unit * (CircuitBreaker * W) :=
  let '(ok, cb) := Allow (clock w) cb in
  if negb ok then (Err ErrCircuitOpen, (cb, w))
  else
    let '(err, (cb, w)) := Retry out_of_range env retryCfg (guarded fn) (cb, w) in
    match err with
    | Ok _ => (err, (RecordSuccess cb, w))
    | Err _ => (err, (RecordFailure (clock w) cb, w))
    | Panic _ => (err, (cb, w))
    end.

(** While the breaker is open and its reset timeout has not elapsed, a guarded
    call is rejected with [ErrCircuitOpen] at once: the protected function is
    not run, and the breaker does not change. When the call does go through,
    its nil or error result is recorded as a success or a failure. *)
Theorem RetryWithCircuitBreaker_guard env retryCfg fn cb w :
  (state cb = CircuitOpen → Since (clock w) (lastFailureTime cb) < ResetTimeout (cfg cb) →
     RetryWithCircuitBreaker env retryCfg fn cb w = (Err ErrCircuitOpen, (cb, w))) ∧
  (∀ r cb' w', Allow (clock w) cb = (true, cb') →
     Retry out_of_range env retryCfg (guarded fn) (cb', w) = (r, w') →
     RetryWithCircuitBreaker env retryCfg fn cb w =
       (r, (match r with
            | Ok _ => RecordSuccess w'.1
            | Err _ => RecordFailure (clock w'.2) w'.1
            | Panic _ => w'.1
            end, w'.2))).
Proof.
  unfold RetryWithCircuitBreaker. split.
  - intros Ho Ht. by rewrite Allow_open.
  - intros r cb' [cb2 w2] -> Hr. cbn [negb]. rewrite Hr. by destruct r.
Qed.
End retry_with_breaker.

(** ** The state machine *)

Inductive cb_event :=
  | EvState (now : Z) | EvAllow (now : Z) | EvSuccess | EvFailure (now : Z) | EvReset.

Definition cb_apply (cb : CircuitBreaker) (e : cb_event) : CircuitBreaker :=
  match e with
  | EvState now => (State now cb).2
  | EvAllow now => (Allow now cb).2
  | EvSuccess => RecordSuccess cb
  | EvFailure now => RecordFailure now cb
  | EvReset => Reset cb
  end.

Inductive cb_step (cb : CircuitBreaker) : CircuitBreaker → Prop :=
  | cb_step_intro e : cb_step cb (cb_apply cb e).

Definition config_ok (c : CircuitBreakerConfig) : Prop :=
  1 ≤ FailureThreshold c < 2 ^ 63 ∧ 1 ≤ HalfOpenMaxProbes c < 2 ^ 63.

(** A closed breaker is below its threshold, a half-open one below its probe
    count, and successes are only counted while half-open. *)
Definition cb_inv (cb : CircuitBreaker) : Prop :=
  match state cb with
  | CircuitClosed => 0 ≤ failures cb < FailureThreshold (cfg cb) ∧ successes cb = 0
  | CircuitHalfOpen => 0 ≤ successes cb < HalfOpenMaxProbes (cfg cb)
  | CircuitOpen => successes cb = 0
  end.

Lemma cb_apply_cfg cb e : cfg (cb_apply cb e) = cfg cb.
Proof.
  destruct e; simpl; unfold State, Allow, checkStateTransition, RecordSuccess, RecordFailure;
    simpl; by repeat case_match.
Qed.

Lemma i64_succ z : 0 ≤ z < 2 ^ 63 - 1 → i64 (z + 1) = z + 1.
Proof. intros. apply sint_small; [done|]. unfold in_s. lia. Qed.

Lemma checkStateTransition_inv now cb :
  config_ok (cfg cb) → cb_inv cb → cb_inv (checkStateTransition now cb).
Proof.
  intros [? ?] Hi. unfold checkStateTransition. case_match; [|done].
  unfold cb_inv. simpl. lia.
Qed.

Lemma cb_apply_inv cb e : config_ok (cfg cb) → cb_inv cb → cb_inv (cb_apply cb e).
Proof.
  intros Hc Hi. pose proof Hc as [? ?].
  destruct e; simpl;
    [by apply checkStateTransition_inv|by apply checkStateTransition_inv| | |].
  - unfold RecordSuccess, cb_inv in *. destruct (state cb) eqn:E; simpl in *.
    + lia.
    + rewrite i64_succ by lia. destruct (_ <=? _) eqn:El; simpl; b2p; [lia|].
      try rewrite E. lia.
    + by rewrite E.
  - unfold RecordFailure, cb_inv in *. destruct (state cb) eqn:E; simpl in *; [|done..].
    rewrite i64_succ by lia. destruct (_ <=? _) eqn:El; b2p; lia.
  - unfold cb_inv. simpl. lia.
Qed.

(** [n] failures in a row, at the times [ts]. *)
Definition fail_all (ts : list Z) (cb : CircuitBreaker) : CircuitBreaker :=
  foldl (λ cb t, RecordFailure t cb) cb ts.

(** [n] successes in a row. *)
Definition succeed (n : nat) (cb : CircuitBreaker) : CircuitBreaker :=
  Nat.iter n RecordSuccess cb.

Lemma fail_all_closed ts cb :
  state cb = CircuitClosed → 0 ≤ failures cb →
  failures cb + Z.of_nat (length ts) < FailureThreshold (cfg cb) < 2 ^ 63 →
  state (fail_all ts cb) = CircuitClosed ∧
  failures (fail_all ts cb) = failures cb + Z.of_nat (length ts) ∧
  cfg (fail_all ts cb) = cfg cb.
Proof.
  revert cb. induction ts as [|t ts IH]; intros cb Hs H0 Hlt; simpl in *;
    [split; [done|split; [lia|done]]|].
  assert (RecordFailure t cb = {| state := CircuitClosed; failures := failures cb + 1;
    successes := successes cb; lastFailureTime := t; cfg := cfg cb |}) as ->.
  { unfold RecordFailure. rewrite Hs, i64_succ by lia.
    by rewrite (proj2 (Z.leb_gt _ _)) by lia. }
  destruct (IH {| state := CircuitClosed; failures := failures cb + 1;
    successes := successes cb; lastFailureTime := t; cfg := cfg cb |}) as (-> & -> & ->);
    simpl; [done|lia|lia|]. split; [done|]. split; [lia|done].
Qed.

Lemma succeed_half_open n cb :
  state cb = CircuitHalfOpen → 0 ≤ successes cb →
  successes cb + Z.of_nat n < HalfOpenMaxProbes (cfg cb) < 2 ^ 63 →
  succeed n cb = {| state := CircuitHalfOpen; failures := failures cb;
    successes := successes cb + Z.of_nat n; lastFailureTime := lastFailureTime cb;
    cfg := cfg cb |}.
Proof.
  intros Hs H0. induction n as [|n IH]; intros Hlt; simpl.
  { destruct cb; simpl in *. subst. f_equal. lia. }
  rewrite IH by lia. unfold RecordSuccess. simpl. rewrite i64_succ by lia.
  rewrite (proj2 (Z.leb_gt _ _)) by lia. f_equal. lia.
Qed.

(** ** Properties *)

(** In every state reachable from a new breaker by any sequence of calls, a
    closed breaker has counted fewer failures than its threshold, a half-open
    one fewer successes than its probe count, and successes are counted only
    while half-open; the configuration never changes. *)
Theorem cb_reachable_inv c cb :
  config_ok c → rtc cb_step (NewCircuitBreaker c) cb → cb_inv cb ∧ cfg cb = c.
Proof.
  intros Hc. apply (rtc_invariant cb_step (λ cb, cb_inv cb ∧ cfg cb = c)).
  - intros x y [Hi <-] [e]. split; [by apply cb_apply_inv|apply cb_apply_cfg].
  - split; [|done]. destruct Hc. unfold cb_inv. simpl. lia.
Qed.

Lemma cb_reachable_inv_witness :
  cb_inv (RecordFailure 5 (NewCircuitBreaker DefaultCircuitBreakerConfig)).
Proof.
  apply (cb_reachable_inv DefaultCircuitBreakerConfig).
  - unfold config_ok. simpl. lia.
  - apply rtc_once. exact (cb_step_intro _ (EvFailure 5)).
Defined.

(** C40. The breaker trips exactly at its threshold: from a fresh count,
    consecutive failures leave it closed while there are fewer than
    [FailureThreshold] of them, and the [FailureThreshold]-th opens it; it then
    rejects every operation until [ResetTimeout] has passed since the last
    failure, and admits the first one after that as half-open. *)
Theorem breaker_trips cb ts t :
  config_ok (cfg cb) → state cb = CircuitClosed → failures cb = 0 →
  (Z.of_nat (length ts) < FailureThreshold (cfg cb) →
     state (fail_all ts cb) = CircuitClosed) ∧
  (Z.of_nat (length ts) = FailureThreshold (cfg cb) - 1 →
     let tripped := fail_all (ts ++ [t]) cb in
     state tripped = CircuitOpen ∧
     ∀ now,
       (Since now t < ResetTimeout (cfg cb) → Allow now tripped = (false, tripped)) ∧
       (ResetTimeout (cfg cb) ≤ Since now t →
          (Allow now tripped).1 = true ∧
          state (Allow now tripped).2 = CircuitHalfOpen ∧
          successes (Allow now tripped).2 = 0)).
Proof.
  intros [Hth _] Hs Hf. split.
  { intros Hlt. apply fail_all_closed; [done|lia|lia]. }
  intros Hlen tripped.
  destruct (fail_all_closed ts cb) as (Hs' & Hf' & Hc'); [done|lia|lia|].
  assert (tripped = {| state := CircuitOpen; failures := FailureThreshold (cfg cb);
    successes := successes (fail_all ts cb); lastFailureTime := t; cfg := cfg cb |}) as ->.
  { subst tripped. unfold fail_all in *. rewrite foldl_app. cbn [foldl].
    unfold RecordFailure at 1. rewrite Hs', Hf', Hc', Hf, Hlen.
    rewrite sint_small by (done || unfold in_s; lia).
    rewrite (proj2 (Z.leb_le _ _)) by lia. f_equal. lia. }
  split; [done|]. intros now. unfold Allow, checkStateTransition. simpl. split; intros H.
  - by rewrite (proj2 (Z.leb_gt _ _)) by lia.
  - by rewrite (proj2 (Z.leb_le _ _)) by lia.
Qed.

Lemma breaker_trips_witness :
  let cb := NewCircuitBreaker DefaultCircuitBreakerConfig in
  state (fail_all [1; 2; 3; 4] cb) = CircuitClosed ∧
  state (fail_all ([1; 2; 3; 4] ++ [5]) cb) = CircuitOpen.
Proof.
  destruct (breaker_trips (NewCircuitBreaker DefaultCircuitBreakerConfig) [1; 2; 3; 4] 5)
    as [H1 H2]; [unfold config_ok; simpl; lia|reflexivity|reflexivity|].
  split; [apply H1; simpl; lia|]. apply H2. simpl. lia.
Defined.

(** Recovery: a half-open breaker closes, with its counters reset, at the
    [HalfOpenMaxProbes]-th success in a row and not before; a failure reopens it
    at once. A half-open breaker admits every operation, not just one probe, and
    admitting one does not change its state. *)
Theorem breaker_recovers cb n now :
  config_ok (cfg cb) → cb_inv cb → state cb = CircuitHalfOpen →
  successes cb + Z.of_nat n = HalfOpenMaxProbes (cfg cb) - 1 →
  state (succeed n cb) = CircuitHalfOpen ∧
  succeed (S n) cb =
    {| state := CircuitClosed; failures := 0; successes := 0;
       lastFailureTime := lastFailureTime cb; cfg := cfg cb |} ∧
  state (RecordFailure now (succeed n cb)) = CircuitOpen ∧
  Allow now (succeed n cb) = (true, succeed n cb).
Proof.
  intros [_ Hp] Hi Hs Hn. unfold cb_inv in Hi. rewrite Hs in Hi.
  change (succeed (S n) cb) with (RecordSuccess (succeed n cb)).
  rewrite !succeed_half_open by (done || lia).
  split; [done|]. split; [|done].
  unfold RecordSuccess; simpl. rewrite Hn, sint_small by (done || unfold in_s; lia).
  by rewrite (proj2 (Z.leb_le _ _)) by lia.
Qed.

Definition ex_half_open : CircuitBreaker :=
  {| state := CircuitHalfOpen; failures := 5; successes := 0;
     lastFailureTime := 0; cfg := DefaultCircuitBreakerConfig |}.

Lemma breaker_recovers_witness :
  state (succeed 3 ex_half_open) = CircuitClosed ∧
  state (succeed 2 ex_half_open) = CircuitHalfOpen.
Proof.
  destruct (breaker_recovers ex_half_open 2 7) as (H1 & H2 & _);
    [unfold config_ok; simpl; lia|unfold cb_inv; simpl; lia|reflexivity|reflexivity|].
  split; [rewrite H2; reflexivity|exact H1].
Defined.

Lemma RetryWithCircuitBreaker_guard_witness :
  let cb := fail_all [1; 2; 3; 4; 5] (NewCircuitBreaker DefaultCircuitBreakerConfig) in
  let env := {| ctxErr _ := None; ctxDone _ := false; rnd _ := 0; elapse _ w := w |} in
  RetryWithCircuitBreaker (λ _, 0) (λ _, 10) env DefaultRetryConfig third_time cb 0%nat
  = (Err ErrCircuitOpen, (cb, 0%nat)).
Proof.
  refine (proj1 (RetryWithCircuitBreaker_guard (λ _, 0) (λ _, 10)
    {| ctxErr _ := None; ctxDone _ := false; rnd _ := 0; elapse _ w := w |}
    DefaultRetryConfig third_time
    (fail_all [1; 2; 3; 4; 5] (NewCircuitBreaker DefaultCircuitBreakerConfig)) 0%nat) _ _);
    reflexivity.
Defined.
