(* ===== verification/Durations.v ===== *)
(** * Durations of the configuration: internal/config/config.go

    [Duration] is read from and written to YAML as text, with [time.ParseDuration]
    and [time.Duration.String], which are modelled here as the standard library
    has them: the parser with its overflow tests and its float64 fractions, the
    printer as it fills its buffer from the end. *)
From Stdlib Require Import Ascii.
From S2P Require Import Prelude GoStrings Retry.

Local Open Scope Z_scope.

Definition Microsecond : Z := 1000.
Definition Minute : Z := 60 * Second.
Definition Hour : Z := 60 * Minute.

Definition char_code (c : ascii) : Z := Z.of_N (N_of_ascii c).
Definition is_digit (c : ascii) : bool := (48 <=? char_code c) && (char_code c <=? 57).
(** [byte(v%10) + '0'] *)
Definition digit (d : Z) : ascii := ascii_of_N (Z.to_N (d + 48)).

(** ** [Duration.String]

    Each function writes in front of what is in the buffer. *)

Fixpoint fmt_int_loop (fuel : nat) (v : Z) (buf : string) : string :=
  match fuel with
  | O => buf
  | S fuel =>
      if 0 <? v then fmt_int_loop fuel (v / 10) (String (digit (v mod 10)) buf) else buf
  end.

(** A [uint64] has at most 20 digits. *)
Definition fmtInt (v : Z) (buf : string) : string :=
  if v =? 0 then String "0" buf else fmt_int_loop 20 v buf.

Fixpoint fmt_frac_loop (prec : nat) (v : Z) (print : bool) (buf : string) : string * Z * bool :=
  match prec with
  | O => (buf, v, print)
  | S prec =>
      let d := v mod 10 in
      let print := print || negb (d =? 0) in
      fmt_frac_loop prec (v / 10) print (if print then String (digit d) buf else buf)
  end.

Definition fmtFrac (prec : nat) (v : Z) (buf : string) : string * Z :=
  let '(buf, v, print) := fmt_frac_loop prec v false buf in
  (if print then String "." buf else buf, v).

(** The unit and its number of decimals, below a second. *)
Definition small_unit (u : Z) : nat * string :=
  if u <? Microsecond then (0%nat, "ns")
  else if u <? Millisecond then (3%nat, "µs")
  else (6%nat, "ms").

Definition Duration_String (d : Z) : string :=
  let neg := d <? 0 in
  let u := if neg then uint 64 (- d) else uint 64 d in
  let text :=
    if u <? Second then
      if u =? 0 then "0s"
      else
        let '(prec, unit) := small_unit u in
        let '(buf, u) := fmtFrac prec u unit in
        fmtInt u buf
    else
      let '(buf, u) := fmtFrac 9 u "s" in
      let buf := fmtInt (u mod 60) buf in
      let u := u / 60 in
      if 0 <? u then
        let buf := fmtInt (u mod 60) (String "m" buf) in
        let u := u / 60 in
        if 0 <? u then fmtInt u (String "h" buf) else buf
      else buf in
  if neg then String "-" text else text.

(** ** [ParseDuration] *)

(** The digits at the head of [s], after the value [x]; [None] on overflow. *)
Fixpoint leadingInt (s : string) (x : Z) : option (Z * string) :=
  match s with
  | EmptyString => Some (x, s)
  | String c rest =>
      if is_digit c then
        if 2 ^ 63 / 10 <? x then None
        else
          let x := uint 64 (x * 10 + char_code c - 48) in
          if 2 ^ 63 <? x then None else leadingInt rest x
      else Some (x, s)
  end.

(** The digits of a fraction: those that fit, and the power of ten they are to be
    divided by, which float64 holds exactly. *)
Fixpoint leadingFraction (s : string) (x scale : Z) (overflow : bool) : Z * Z * string :=
  match s with
  | EmptyString => (x, scale, s)
  | String c rest =>
      if is_digit c then
        if overflow then leadingFraction rest x scale true
        else if (2 ^ 63 - 1) / 10 <? x then leadingFraction rest x scale true
        else
          let y := uint 64 (x * 10 + char_code c - 48) in
          if 2 ^ 63 <? y then leadingFraction rest x scale true
          else leadingFraction rest y (scale * 10) false
      else (x, scale, s)
  end.

(** The characters of a unit. *)
Fixpoint unit_span (s : string) : string * string :=
  match s with
  | EmptyString => (EmptyString, EmptyString)
  | String c rest =>
      if Ascii.eqb c "." || is_digit c then (EmptyString, s)
      else let '(u, rest) := unit_span rest in (String c u, rest)
  end.

Definition unitMap (u : string) : option Z :=
  if String.eqb u "ns" then Some 1
  else if String.eqb u "us" || String.eqb u "µs" || String.eqb u "μs" then Some Microsecond
  else if String.eqb u "ms" then Some Millisecond
  else if String.eqb u "s" then Some Second
  else if String.eqb u "m" then Some Minute
  else if String.eqb u "h" then Some Hour
  else None.

(** The float64 quotient of positive [n] and [d], as mantissa and exponent: the
    nearest number with 53 significant bits, ties to even. *)
Definition div53 (n d : Z) : Z * Z :=
  let scaled e := (if e <? 0 then n * 2 ^ (- e) else n, if e <? 0 then d else d * 2 ^ e) in
  let quot e := (scaled e).1 / (scaled e).2 in
  let e := Z.log2 n - Z.log2 d - 52 in
  let e := if quot e <? 2 ^ 52 then e - 1 else e in
  let r := (scaled e).1 mod (scaled e).2 in
  (if (2 * r <? (scaled e).2) || ((2 * r =? (scaled e).2) && Z.even (quot e))
   then quot e else quot e + 1, e).

(** [uint64(float64(f) * (float64(unit) / scale))] *)
Definition fraction_ns (f unit scale : Z) : Z :=
  let '(q, e) := div53 unit scale in
  Z.shiftl (round53 (round53 f * q)) e.

Definition invalid {A} (orig : string) : outcome A :=
  Err (Errorf "time: invalid duration %q" [orig]).

(** What [ParseDuration] reads after the integer part: the fraction, its scale,
    what follows, and whether there were digits. *)
Definition parse_fraction (s : string) : Z * Z * string * bool :=
  match s with
  | String c s' =>
      if Ascii.eqb c "." then
        let '(f, scale, rest) := leadingFraction s' 0 1 false in
        (f, scale, rest, negb (String.length rest =? String.length s')%nat)
      else (0, 1, s, false)
  | EmptyString => (0, 1, s, false)
  end.

(** One number with its unit at the head of [s], in nanoseconds. *)
Definition parse_component (orig s : string) : outcome (Z * string) :=
  match s with
  | EmptyString => invalid orig
  | String c _ =>
      if negb (Ascii.eqb c "." || is_digit c) then invalid orig
      else
        match leadingInt s 0 with
        | None => invalid orig
        | Some (v, s1) =>
            let pre := negb (String.length s1 =? String.length s)%nat in
            let '(f, scale, s2, post) := parse_fraction s1 in
            if negb pre && negb post then invalid orig
            else
              let '(u, rest) := unit_span s2 in
              if String.eqb u "" then Err (Errorf "time: missing unit in duration %q" [orig])
              else
                match unitMap u with
                | None => Err (Errorf "time: unknown unit %q in duration %q" [u; orig])
                | Some unit =>
                    if 2 ^ 63 / unit <? v then invalid orig
                    else
                      let v := uint 64 (v * unit) in
                      if 0 <? f then
                        let v := uint 64 (v + fraction_ns f unit scale) in
                        if 2 ^ 63 <? v then invalid orig else Ok (v, rest)
                      else Ok (v, rest)
                end
        end
  end.

(** [fuel] bounds the components by the length of the text. *)
Fixpoint parse_loop (fuel : nat) (orig s : string) (d : Z) : outcome Z :=
  match s with
  | EmptyString => Ok d
  | _ =>
      match fuel with
      | O => Panic "out of fuel"
      | S fuel =>
          '(v, rest) ← parse_component orig s;
          let d := uint 64 (d + v) in
          if 2 ^ 63 <? d then invalid orig else parse_loop fuel orig rest d
      end
  end.

(** [[-+]?] *)
Definition parse_sign (s : string) : bool * string :=
  match s with
  | String c rest =>
      if Ascii.eqb c "-" || Ascii.eqb c "+" then (Ascii.eqb c "-", rest) else (false, s)
  | EmptyString => (false, s)
  end.

Definition ParseDuration (orig : string) : outcome Z :=
  let '(neg, s) := parse_sign orig in
  if String.eqb s "0" then Ok 0
  else if String.eqb s "" then invalid orig
  else
    d ← parse_loop (String.length s) orig s 0;
    if (neg : bool) then Ok (i64 (- i64 d))
    else if 2 ^ 63 - 1 <? d then invalid orig
    else Ok d.

(** ** The configuration's [Duration] *)

(** [decoded] is what [value.Decode(&s)] makes of the node. *)
Definition UnmarshalYAML (decoded : outcome string) : outcome Z :=
  s ← decoded; wrap_err "invalid duration %q: %w" [s] (ParseDuration s).

Definition MarshalYAML (d : Z) : outcome string := Ok (Duration_String d).

(** ** Digits *)

Lemma digit_code d : 0 ≤ d < 10 → char_code (digit d) = d + 48.
Proof.
  intros Hd. assert (d = 0 ∨ d = 1 ∨ d = 2 ∨ d = 3 ∨ d = 4 ∨ d = 5 ∨ d = 6 ∨ d = 7 ∨ d = 8 ∨ d = 9)
    as Hc by lia.
  by repeat (destruct Hc as [->|Hc]; [reflexivity|]); subst.
Qed.

Lemma is_digit_digit d : 0 ≤ d < 10 → is_digit (digit d) = true.
Proof.
  intros Hd. unfold is_digit. rewrite digit_code by done.
  apply andb_true_iff. rewrite !Z.leb_le. lia.
Qed.

Lemma leadingInt_digit x d rest :
  0 ≤ d < 10 → 0 ≤ x → x * 10 + d ≤ 2 ^ 63 →
  leadingInt (String (digit d) rest) x = leadingInt rest (x * 10 + d).
Proof.
  intros Hd Hx Hle. cbn [leadingInt]. rewrite is_digit_digit, digit_code by done.
  rewrite (proj2 (Z.ltb_ge _ _)) by (apply Z.div_le_lower_bound; lia).
  replace (x * 10 + (d + 48) - 48) with (x * 10 + d) by lia.
  rewrite uint_small by (unfold in_u; lia). by rewrite (proj2 (Z.ltb_ge _ _)) by lia.
Qed.

Lemma leadingInt_fmt_loop fuel v buf :
  0 ≤ v ≤ 2 ^ 63 → v < 10 ^ Z.of_nat fuel →
  leadingInt (fmt_int_loop fuel v buf) 0 = leadingInt buf v.
Proof.
  revert v buf. induction fuel as [|fuel IH]; intros v buf Hv Hlt; cbn [fmt_int_loop].
  { by replace v with 0 by lia. }
  destruct (Z.ltb_spec 0 v); [|by replace v with 0 by lia].
  pose proof (Z.div_mod v 10 ltac:(lia)). pose proof (Z.mod_pos_bound v 10 ltac:(lia)).
  rewrite Nat2Z.inj_succ, Z.pow_succ_r in Hlt by lia.
  assert (0 ≤ v / 10) by (apply Z.div_pos; lia).
  assert (v / 10 < 10 ^ Z.of_nat fuel) by (apply Z.div_lt_upper_bound; lia).
  rewrite IH by lia. rewrite leadingInt_digit by lia. f_equal. lia.
Qed.

Lemma leadingInt_fmtInt v buf :
  0 ≤ v ≤ 2 ^ 63 → leadingInt (fmtInt v buf) 0 = leadingInt buf v.
Proof.
  intros Hv. unfold fmtInt. destruct (Z.eqb_spec v 0) as [->|Hne].
  - apply (leadingInt_digit 0 0); lia.
  - apply leadingInt_fmt_loop; [done|]. change (Z.of_nat 20) with 20. lia.
Qed.

(** What is printed starts with a digit. *)
Definition starts_digit (s : string) : Prop :=
  match s with String c _ => is_digit c = true | EmptyString => False end.

Lemma fmt_int_loop_starts fuel v buf :
  starts_digit buf → 0 ≤ v →
  starts_digit (fmt_int_loop fuel v buf) ∧
  (String.length buf ≤ String.length (fmt_int_loop fuel v buf))%nat.
Proof.
  revert v buf. induction fuel as [|fuel IH]; intros v buf Hb Hv; cbn [fmt_int_loop]; [done|].
  destruct (0 <? v); [|done].
  destruct (IH (v / 10) (String (digit (v mod 10)) buf)) as [H1 H2].
  - apply is_digit_digit, Z.mod_pos_bound. lia.
  - apply Z.div_pos; lia.
  - split; [done|]. cbn [String.length] in H2. lia.
Qed.

Lemma fmtInt_starts v buf :
  0 ≤ v → starts_digit (fmtInt v buf) ∧ (String.length buf < String.length (fmtInt v buf))%nat.
Proof.
  intros Hv. unfold fmtInt. destruct (Z.eqb_spec v 0) as [->|Hne]; [by split; [|simpl; lia]|].
  change (fmt_int_loop 20 v buf) with
    (if 0 <? v then fmt_int_loop 19 (v / 10) (String (digit (v mod 10)) buf) else buf).
  rewrite (proj2 (Z.ltb_lt 0 v)) by lia.
  destruct (fmt_int_loop_starts 19 (v / 10) (String (digit (v mod 10)) buf)) as [H1 H2].
  - apply is_digit_digit, Z.mod_pos_bound. lia.
  - apply Z.div_pos; lia.
  - split; [done|]. cbn [String.length] in H2. lia.
Qed.

(** ** Fractions *)

Lemma leadingFraction_digit x scale d rest :
  0 ≤ d < 10 → 0 ≤ x → x * 10 + d < 2 ^ 63 - 1 →
  leadingFraction (String (digit d) rest) x scale false
  = leadingFraction rest (x * 10 + d) (scale * 10) false.
Proof.
  intros Hd Hx Hle. cbn [leadingFraction]. rewrite is_digit_digit, digit_code by done.
  rewrite (proj2 (Z.ltb_ge _ _)) by (apply Z.div_le_lower_bound; lia).
  replace (x * 10 + (d + 48) - 48) with (x * 10 + d) by lia.
  rewrite uint_small by (unfold in_u; lia). by rewrite (proj2 (Z.ltb_ge _ _)) by lia.
Qed.

(** The last digit and the others. *)
Lemma mod_pow10_succ v p :
  0 ≤ v → v mod 10 ^ Z.of_nat (S p) = (v / 10) mod 10 ^ Z.of_nat p * 10 + v mod 10.
Proof.
  intros Hv. rewrite Nat2Z.inj_succ, Z.pow_succ_r by lia.
  rewrite Z.rem_mul_r by (try lia; apply Z.pow_pos_nonneg; lia). lia.
Qed.

Lemma div_pow10_succ v p : v / 10 ^ Z.of_nat (S p) = v / 10 / 10 ^ Z.of_nat p.
Proof.
  rewrite Nat2Z.inj_succ, Z.pow_succ_r by lia.
  by rewrite Z.div_div by (try lia; apply Z.pow_pos_nonneg; lia).
Qed.

Lemma pow10_bound p : (p ≤ 9)%nat → 0 < 10 ^ Z.of_nat p ≤ 10 ^ 9.
Proof. intros Hp. split; [apply Z.pow_pos_nonneg; lia|apply Z.pow_le_mono_r; lia]. Qed.

Lemma fmt_frac_loop_true p v buf :
  0 ≤ v → (p ≤ 9)%nat →
  ∃ b, fmt_frac_loop p v true buf = (b, v / 10 ^ Z.of_nat p, true) ∧
    leadingFraction b 0 1 false
      = leadingFraction buf (v mod 10 ^ Z.of_nat p) (10 ^ Z.of_nat p) false ∧
    String.length b = (p + String.length buf)%nat.
Proof.
  revert v buf. induction p as [|p IH]; intros v buf Hv Hp; cbn [fmt_frac_loop].
  { exists buf. change (10 ^ Z.of_nat 0) with 1. by rewrite Z.div_1_r, Z.mod_1_r. }
  cbn [orb]. pose proof (Z.mod_pos_bound v 10 ltac:(lia)) as Hd.
  assert (0 ≤ v / 10) as Hq by (apply Z.div_pos; lia).
  destruct (IH (v / 10) (String (digit (v mod 10)) buf) Hq) as (b & -> & Hb & Hl); [lia|].
  exists b. rewrite div_pow10_succ. split; [done|]. split; [|simpl in Hl; lia].
  pose proof (pow10_bound p ltac:(lia)).
  pose proof (Z.mod_pos_bound (v / 10) (10 ^ Z.of_nat p) ltac:(lia)).
  rewrite Hb, leadingFraction_digit by lia. rewrite mod_pow10_succ by done. f_equal.
  rewrite Nat2Z.inj_succ, Z.pow_succ_r by lia. lia.
Qed.

(** Trailing zeros are left out. *)
Lemma fmt_frac_loop_false p v buf :
  0 ≤ v → (p ≤ 9)%nat →
  ∃ b print, fmt_frac_loop p v false buf = (b, v / 10 ^ Z.of_nat p, print) ∧
    if (print : bool) then
      (String.length buf < String.length b)%nat ∧
      ∃ k x, (k ≤ p)%nat ∧ 0 < x < 10 ^ Z.of_nat k ∧
        leadingFraction b 0 1 false = leadingFraction buf x (10 ^ Z.of_nat k) false ∧
        x * 10 ^ Z.of_nat (p - k) = v mod 10 ^ Z.of_nat p
    else b = buf ∧ v mod 10 ^ Z.of_nat p = 0.
Proof.
  revert v buf. induction p as [|p IH]; intros v buf Hv Hp; cbn [fmt_frac_loop].
  { exists buf, false. change (10 ^ Z.of_nat 0) with 1. by rewrite Z.div_1_r, Z.mod_1_r. }
  cbn [orb]. pose proof (Z.mod_pos_bound v 10 ltac:(lia)) as Hd.
  assert (0 ≤ v / 10) as Hq by (apply Z.div_pos; lia).
  pose proof (pow10_bound p ltac:(lia)) as Hpow.
  pose proof (Z.mod_pos_bound (v / 10) (10 ^ Z.of_nat p) ltac:(lia)) as Hm.
  rewrite div_pow10_succ, mod_pow10_succ by done.
  destruct (Z.eqb_spec (v mod 10) 0) as [H0|H0]; cbn [negb].
  - destruct (IH (v / 10) buf Hq) as (b & print & -> & Hb); [lia|]. exists b, print.
    split; [done|]. rewrite H0. destruct print; [|by destruct Hb as [-> ->]].
    destruct Hb as (Hl & k & x & Hk & Hx & Hlf & Heq). split; [done|]. exists k, x.
    split; [lia|]. split; [done|]. split; [done|]. rewrite <- Heq.
    replace (S p - k)%nat with (S (p - k)) by lia.
    rewrite Nat2Z.inj_succ, Z.pow_succ_r by lia. lia.
  - destruct (fmt_frac_loop_true p (v / 10) (String (digit (v mod 10)) buf) Hq)
      as (b & -> & Hb & Hl); [lia|]. exists b, true. split; [done|].
    split; [simpl in Hl; lia|]. exists (S p), ((v / 10) mod 10 ^ Z.of_nat p * 10 + v mod 10).
    rewrite Nat.sub_diag. split; [done|]. split; [rewrite Nat2Z.inj_succ, Z.pow_succ_r; lia|].
    split; [|simpl; lia]. rewrite Hb, leadingFraction_digit by lia. f_equal.
    rewrite Nat2Z.inj_succ, Z.pow_succ_r by lia. lia.
Qed.

(** ** Fractions are exact *)

Lemma round53_small z : Z.abs z < 2 ^ 53 → round53 z = z.
Proof. intros Hz. unfold round53. by rewrite (proj2 (Z.ltb_lt _ _)) by done. Qed.

(** A number with at most 53 significant bits is its own rounding. *)
Lemma round53_shift a s : 0 ≤ a < 2 ^ 53 → 0 ≤ s → round53 (a * 2 ^ s) = a * 2 ^ s.
Proof.
  intros Ha Hs. unfold round53. assert (0 < 2 ^ s) by (apply Z.pow_pos_nonneg; lia).
  rewrite (Z.abs_eq (a * 2 ^ s)) by nia.
  destruct (Z.ltb_spec (a * 2 ^ s) (2 ^ 53)) as [|Hbig]; [done|].
  destruct (decide (a = 0)) as [->|Hne]; [done|].
  rewrite Z.log2_mul_pow2 by lia.
  assert (Z.log2 a < 53) as Hlog by (apply Z.log2_lt_pow2; lia).
  assert (53 ≤ s + Z.log2 a).
  { rewrite <- Z.log2_mul_pow2 by lia. rewrite <- (Z.log2_pow2 53) by lia. by apply Z.log2_le_mono. }
  set (e := s + Z.log2 a - 52) in *.
  assert (a * 2 ^ s = a * 2 ^ (s - e) * 2 ^ e) as Heq.
  { rewrite <- Z.mul_assoc, <- Z.pow_add_r by lia. do 2 f_equal. lia. }
  assert (0 < 2 ^ e) by (apply Z.pow_pos_nonneg; lia).
  assert (0 < 2 ^ (e - 1)) by (apply Z.pow_pos_nonneg; lia).
  rewrite Heq, Z.div_mul, Z.mod_mul by lia.
  rewrite (proj2 (Z.ltb_lt 0 _)) by done. cbn [orb]. rewrite Z.sgn_pos; [lia|].
  rewrite <- Heq. nia.
Qed.

(** The bits a quotient of powers of ten leaves free. *)
Definition free_bits (j : nat) : Z := 52 - Z.log2 (10 ^ Z.of_nat j).

Lemma div53_pow10 p k :
  (k ≤ p ≤ 9)%nat →
  div53 (10 ^ Z.of_nat p) (10 ^ Z.of_nat k)
  = (10 ^ Z.of_nat (p - k) * 2 ^ free_bits (p - k), - free_bits (p - k)) ∧
  0 ≤ free_bits (p - k).
Proof.
  intros Hpk.
  assert (forallb (λ p, forallb (λ k, bool_decide (
      div53 (10 ^ Z.of_nat p) (10 ^ Z.of_nat k)
      = (10 ^ Z.of_nat (p - k) * 2 ^ free_bits (p - k), - free_bits (p - k))) &&
      (0 <=? free_bits (p - k))) (seq 0 (S p))) (seq 0 10) = true) as H
    by (vm_compute; reflexivity).
  rewrite forallb_forall in H. specialize (H p). rewrite in_seq, forallb_forall in H.
  specialize (H ltac:(lia) k). rewrite in_seq in H. specialize (H ltac:(lia)).
  apply andb_true_iff in H as [H1%bool_decide_eq_true H2%Z.leb_le]. done.
Qed.

Lemma fraction_ns_exact p k x :
  (k ≤ p ≤ 9)%nat → 0 ≤ x < 10 ^ Z.of_nat k →
  fraction_ns x (10 ^ Z.of_nat p) (10 ^ Z.of_nat k) = x * 10 ^ Z.of_nat (p - k).
Proof.
  intros Hpk Hx. unfold fraction_ns. destruct (div53_pow10 p k Hpk) as [-> Hb].
  pose proof (pow10_bound k ltac:(lia)). pose proof (pow10_bound (p - k) ltac:(lia)).
  rewrite (round53_small x) by lia. rewrite Z.mul_assoc.
  assert (x * 10 ^ Z.of_nat (p - k) < 2 ^ 53).
  { assert (10 ^ Z.of_nat k * 10 ^ Z.of_nat (p - k) = 10 ^ Z.of_nat p) as Hmul.
    { rewrite <- Z.pow_add_r by lia. f_equal. lia. }
    pose proof (pow10_bound p ltac:(lia)). nia. }
  rewrite round53_shift by (nia || done).
  rewrite Z.shiftl_div_pow2 by lia.
  rewrite Z.opp_involutive, Z.div_mul; [done|]. pose proof (Z.pow_pos_nonneg 2 _ ltac:(lia) Hb). lia.
Qed.

(** ** One component *)

(** A unit and what follows it. *)
Record unit_text (buf u rest : string) (unit : Z) : Prop := {
  ut_head : match buf with
            | String c _ => is_digit c = false ∧ Ascii.eqb c "." = false
            | EmptyString => False
            end;
  ut_span : unit_span buf = (u, rest);
  ut_name : String.eqb u "" = false;
  ut_unit : unitMap u = Some unit;
  ut_pos : 0 < unit;
}.

Lemma leadingInt_unit buf u rest unit v :
  unit_text buf u rest unit → leadingInt buf v = Some (v, buf).
Proof. intros [Hh _ _ _ _]. destruct buf as [|c buf]; [done|]. simpl. by destruct Hh as [-> _]. Qed.

Lemma leadingFraction_unit buf u rest unit x scale :
  unit_text buf u rest unit → leadingFraction buf x scale false = (x, scale, buf).
Proof. intros [Hh _ _ _ _]. destruct buf as [|c buf]; [done|]. simpl. by destruct Hh as [-> _]. Qed.

(** What starts with a digit is not rejected at its first character. *)
Lemma starts_digit_head s :
  starts_digit s → ∃ c r, s = String c r ∧ (Ascii.eqb c "." || is_digit c) = true.
Proof. destruct s as [|c r]; [done|]. simpl. intros H. exists c, r. by rewrite H, orb_true_r. Qed.

Lemma parse_component_int orig v buf u rest unit :
  unit_text buf u rest unit → 0 ≤ v → v * unit ≤ 2 ^ 63 →
  parse_component orig (fmtInt v buf) = Ok (v * unit, rest).
Proof.
  intros Hu Hv Hle. pose proof (ut_pos _ _ _ _ Hu).
  destruct (fmtInt_starts v buf Hv) as [Hs Hl]. unfold parse_component.
  pose proof (leadingInt_fmtInt v buf ltac:(nia)) as HI.
  rewrite (leadingInt_unit _ _ _ _ _ Hu) in HI.
  destruct (starts_digit_head _ Hs) as (c & r & Heq & Hc). rewrite Heq in *. rewrite Hc. cbn [negb].
  rewrite HI. destruct Hu as [Hh Hspan Hname Hunit _].
  destruct buf as [|c' buf]; [done|]. destruct Hh as [_ Hdot].
  unfold parse_fraction. rewrite Hdot.
  rewrite (proj2 (Nat.eqb_neq _ _)) by lia. cbn [negb andb].
  rewrite Hspan, Hname, Hunit.
  rewrite (proj2 (Z.ltb_ge _ _)) by (apply Z.div_le_lower_bound; lia).
  rewrite (uint_small 64 (v * unit)) by (unfold in_u; nia). done.
Qed.

Lemma parse_component_frac orig v p w U unit :
  unit_text U U "" unit → unit = 10 ^ Z.of_nat p → (p ≤ 9)%nat → 0 ≤ v → 0 ≤ w →
  v * unit + w mod unit ≤ 2 ^ 63 →
  ∃ b, fmtFrac p w U = (b, w / unit) ∧ (String.length U ≤ String.length b)%nat ∧
    parse_component orig (fmtInt v b) = Ok (v * unit + w mod unit, "").
Proof.
  intros Hu Hunit Hp Hv Hw Hle. unfold fmtFrac.
  destruct (fmt_frac_loop_false p w U Hw Hp) as (b & print & -> & Hb). rewrite <- Hunit in *.
  pose proof (ut_pos _ _ _ _ Hu). pose proof (Z.mod_pos_bound w unit ltac:(lia)) as Hm.
  destruct print.
  2:{ destruct Hb as [-> Hz]. exists U. split; [done|]. split; [done|]. rewrite Hz, Z.add_0_r.
      apply (parse_component_int _ _ _ U); [done|done|lia]. }
  destruct Hb as (Hl & k & x & Hk & Hx & Hlf & Heqx).
  exists (String "." b). split; [done|]. split; [simpl; lia|].
  destruct (fmtInt_starts v (String "." b) Hv) as [Hs Hl2]. unfold parse_component.
  pose proof (leadingInt_fmtInt v (String "." b) ltac:(nia)) as HI.
  change (leadingInt (String "." b) v) with (Some (v, String "." b)) in HI.
  destruct (starts_digit_head _ Hs) as (c & r & Heq & Hc). rewrite Heq in *. rewrite Hc. cbn [negb].
  rewrite HI. unfold parse_fraction. change (Ascii.eqb "." ".") with true.
  cbv iota. rewrite Hlf, (leadingFraction_unit _ _ _ _ _ _ Hu).
  destruct Hu as [_ Hspan Hname Hun _].
  rewrite (proj2 (Nat.eqb_neq (String.length U) _)) by lia. cbn [negb]. rewrite andb_false_r.
  rewrite Hspan, Hname, Hun.
  rewrite (proj2 (Z.ltb_ge _ v)) by (apply Z.div_le_lower_bound; lia).
  rewrite (uint_small 64 (v * unit)) by (unfold in_u; nia).
  rewrite (proj2 (Z.ltb_lt 0 x)) by lia. rewrite Hunit, fraction_ns_exact, <- Hunit, Heqx by lia.
  rewrite uint_small by (unfold in_u; nia). by rewrite (proj2 (Z.ltb_ge _ _)) by lia.
Qed.

(** ** The loop *)

Lemma parse_loop_step fuel orig s v rest d :
  s ≠ "" → parse_component orig s = Ok (v, rest) → 0 ≤ d → 0 ≤ v → d + v ≤ 2 ^ 63 →
  parse_loop (S fuel) orig s d = parse_loop fuel orig rest (d + v).
Proof.
  intros Hs Hc Hd Hv Hle. destruct s as [|c s]; [done|]. cbn [parse_loop]. rewrite Hc. cbn.
  rewrite uint_small by (unfold in_u; lia). by rewrite (proj2 (Z.ltb_ge _ _)) by lia.
Qed.

Lemma parse_loop_end fuel orig d : parse_loop fuel orig "" d = Ok d.
Proof. by destruct fuel. Qed.

Lemma starts_digit_nonempty s : starts_digit s → s ≠ "".
Proof. by destruct s. Qed.

(** A unit that is followed by a digit. *)
Lemma unit_text_before c rest unit :
  is_digit c = false → Ascii.eqb c "." = false → unitMap (String c "") = Some unit → 0 < unit →
  starts_digit rest → unit_text (String c rest) (String c "") rest unit.
Proof.
  intros Hd Hdot Hu Hpos Hr. split; [done| |done|done|done].
  cbn [unit_span]. rewrite Hd, Hdot. cbn [orb].
  destruct rest as [|c' rest]; [done|]. simpl in Hr. cbn [unit_span]. by rewrite Hr, orb_true_r.
Qed.

(** The text of a number of nanoseconds. *)
Definition text_of (u : Z) : string :=
  if u <? Second then
    if u =? 0 then "0s"
    else
      let '(prec, unit) := small_unit u in
      let '(buf, u) := fmtFrac prec u unit in
      fmtInt u buf
  else
    let '(buf, u) := fmtFrac 9 u "s" in
    let buf := fmtInt (u mod 60) buf in
    let u := u / 60 in
    if 0 <? u then
      let buf := fmtInt (u mod 60) (String "m" buf) in
      let u := u / 60 in
      if 0 <? u then fmtInt u (String "h" buf) else buf
    else buf.

Lemma Duration_String_eq d :
  in_s 64 d → Duration_String d = if d <? 0 then String "-" (text_of (- d)) else text_of d.
Proof.
  unfold in_s. intros Hd. unfold Duration_String. fold text_of.
  destruct (Z.ltb_spec d 0); rewrite uint_small by (unfold in_u; lia); done.
Qed.

Lemma small_unit_text u :
  0 < u < Second → let '(p, U) := small_unit u in
  (p ≤ 9)%nat ∧ unit_text U U "" (10 ^ Z.of_nat p).
Proof.
  intros Hu. unfold small_unit.
  repeat case_match; simplify_eq; (split; [lia|by split]).
Qed.

(** A text that parses in a few components. *)
Definition parses (n : nat) (text : string) (d u : Z) : Prop :=
  starts_digit text ∧ (n < String.length text)%nat ∧
  ∀ orig fuel, (n ≤ fuel)%nat → parse_loop fuel orig text d = Ok u.

Lemma parses_last v p w U unit d :
  unit_text U U "" unit → unit = 10 ^ Z.of_nat p → (p ≤ 9)%nat → 0 ≤ d → 0 ≤ v → 0 ≤ w →
  d + (v * unit + w mod unit) ≤ 2 ^ 63 →
  ∃ b, fmtFrac p w U = (b, w / unit) ∧ parses 1 (fmtInt v b) d (d + (v * unit + w mod unit)).
Proof.
  intros HU Hunit Hp Hd Hv Hw Hle. pose proof (ut_pos _ _ _ _ HU).
  pose proof (Z.mod_pos_bound w unit ltac:(lia)).
  assert (∃ b, fmtFrac p w U = (b, w / unit) ∧ (String.length U ≤ String.length b)%nat) as (b & Hb & Hl).
  { destruct (parse_component_frac "" v p w U unit) as (b & Hb & Hl & _); try done; [lia|].
    by exists b. }
  exists b. split; [done|]. destruct (fmtInt_starts v b Hv) as [Hs Hl2].
  assert (1 ≤ String.length U)%nat.
  { destruct HU as [Hh _ _ _ _]. destruct U; [done|]. simpl. lia. }
  split; [done|]. split; [lia|]. intros orig [|fuel] Hf; [lia|].
  destruct (parse_component_frac orig v p w U unit) as (b' & Hb' & _ & Hc); try done; [lia|].
  rewrite Hb in Hb'. injection Hb' as <-.
  rewrite (parse_loop_step _ _ _ _ _ _ (starts_digit_nonempty _ Hs) Hc) by nia.
  by rewrite parse_loop_end.
Qed.

Lemma parses_cons v c rest unit d n u :
  is_digit c = false → Ascii.eqb c "." = false → unitMap (String c "") = Some unit → 0 < unit →
  0 ≤ d → 0 ≤ v → d + v * unit ≤ 2 ^ 63 →
  parses n rest (d + v * unit) u → parses (S n) (fmtInt v (String c rest)) d u.
Proof.
  intros Hc Hdot Hu Hpos Hd Hv Hle (Hs & Hl & Hrest).
  destruct (fmtInt_starts v (String c rest) Hv) as [Hs2 Hl2]. simpl in Hl2.
  split; [done|]. split; [lia|]. intros orig [|fuel] Hf; [lia|].
  pose proof (unit_text_before c rest unit Hc Hdot Hu Hpos Hs) as Ht.
  rewrite (parse_loop_step _ _ _ _ _ _ (starts_digit_nonempty _ Hs2)
    (parse_component_int orig v _ _ _ _ Ht Hv ltac:(lia))) by nia.
  apply Hrest. lia.
Qed.

Lemma seconds_text : unit_text "s" "s" "" Second.
Proof. by split. Qed.

(** The text starts with a digit, is longer than its number of components, and
    parses back. *)
Lemma text_of_parses u : 0 ≤ u ≤ 2 ^ 63 → ∃ n, (0 < n)%nat ∧ parses n (text_of u) 0 u.
Proof.
  intros Hu. unfold text_of. destruct (Z.ltb_spec u Second) as [Hsmall|Hbig].
  { exists 1%nat. split; [lia|]. destruct (Z.eqb_spec u 0) as [->|Hne].
    { split; [done|]. split; [simpl; lia|]. by intros orig [|[|fuel]] Hf; [lia|..]. }
    pose proof (small_unit_text u ltac:(lia)) as H. destruct (small_unit u) as [p U].
    destruct H as [Hp HU]. pose proof (ut_pos _ _ _ _ HU).
    pose proof (Z.div_mod u (10 ^ Z.of_nat p) ltac:(lia)).
    destruct (parses_last (u / 10 ^ Z.of_nat p) p u U _ 0 HU eq_refl Hp)
      as (b & -> & Hb); [lia|apply Z.div_pos; lia|lia|lia|].
    replace u with (0 + (u / 10 ^ Z.of_nat p * 10 ^ Z.of_nat p + u mod 10 ^ Z.of_nat p)) at 2 by lia.
    done. }
  assert (Second = 10 ^ Z.of_nat 9) as HS by done.
  assert (0 < Second) by done. set (w := u / Second).
  pose proof (Z.div_mod u Second ltac:(lia)) as Hdiv. fold w in Hdiv.
  pose proof (Z.mod_pos_bound u Second ltac:(lia)).
  assert (0 ≤ w) by (apply Z.div_pos; lia).
  pose proof (Z.div_mod w 60 ltac:(lia)) as Hm. pose proof (Z.mod_pos_bound w 60 ltac:(lia)).
  assert (0 ≤ w / 60) by (apply Z.div_pos; lia).
  pose proof (Z.div_mod (w / 60) 60 ltac:(lia)) as Hh.
  pose proof (Z.mod_pos_bound (w / 60) 60 ltac:(lia)).
  assert (0 ≤ w / 60 / 60) by (apply Z.div_pos; lia).
  assert (Minute = 60 * Second ∧ Hour = 3600 * Second) as [HM HH] by done.
  destruct (parses_last (w mod 60) 9 u "s" Second (u - (w mod 60 * Second + u mod Second))
    seconds_text HS) as (b & Hb & Hlast); [lia|nia|lia|lia|lia|].
  replace (u - _ + _) with u in Hlast by lia. rewrite Hb. fold w.
  destruct (Z.ltb_spec 0 (w / 60)) as [Hmin|Hmin].
  2:{ exists 1%nat. split; [lia|]. replace (u - (w mod 60 * Second + u mod Second)) with 0 in Hlast by nia.
      done. }
  assert (parses 2 (fmtInt ((w / 60) mod 60) (String "m" (fmtInt (w mod 60) b)))
    (w / 60 / 60 * Hour) u) as Hmins.
  { apply (parses_cons _ _ _ Minute); [done..|nia|lia|nia|].
    replace (_ + _) with (u - (w mod 60 * Second + u mod Second)); [done|nia]. }
  destruct (Z.ltb_spec 0 (w / 60 / 60)) as [Hhour|Hhour].
  - exists 3%nat. split; [lia|]. apply (parses_cons _ _ _ Hour); [done..|lia|nia|]. done.
  - exists 2%nat. split; [lia|]. by replace (w / 60 / 60 * Hour) with 0 in Hmins by lia.
Qed.

Lemma parse_sign_digit s : starts_digit s → parse_sign s = (false, s).
Proof.
  destruct s as [|c s]; [done|]. simpl. intros Hc. unfold parse_sign.
  destruct (Ascii.eqb_spec c "-") as [->|]; [done|].
  by destruct (Ascii.eqb_spec c "+") as [->|].
Qed.

(** ** Every text *)

Lemma leadingInt_length s x v rest :
  leadingInt s x = Some (v, rest) → (String.length rest ≤ String.length s)%nat.
Proof.
  revert x. induction s as [|c s IH]; intros x; simpl; [by intros [= _ <-]|].
  destruct (is_digit c); [|by intros [= _ <-]]. do 2 (case_match; [done|]). intros Hr%IH. lia.
Qed.

Lemma leadingFraction_length s x scale o f sc rest :
  leadingFraction s x scale o = (f, sc, rest) → (String.length rest ≤ String.length s)%nat.
Proof.
  revert x scale o. induction s as [|c s IH]; intros x scale o; simpl; [by intros [= _ _ <-]|].
  destruct (is_digit c); [|by intros [= _ _ <-]].
  repeat case_match; intros H'%IH; lia.
Qed.

Lemma unit_span_length s u rest :
  unit_span s = (u, rest) → String.length s = (String.length u + String.length rest)%nat.
Proof.
  revert u. induction s as [|c s IH]; intros u; simpl; [by intros [= <- <-]|].
  case_match; [by intros [= <- <-]|]. destruct (unit_span s) as [u' r']. intros [= <- <-].
  simpl. by rewrite (IH u' eq_refl).
Qed.

(** A component that is accepted is not empty; a component never panics. *)
Lemma parse_component_shorter orig s v rest :
  parse_component orig s = Ok (v, rest) → 0 ≤ v ∧ (String.length rest < String.length s)%nat.
Proof.
  unfold parse_component. destruct s as [|c0 s0]; [done|]. set (s := String c0 s0).
  destruct (negb _); [done|]. destruct (leadingInt s 0) as [[i s1]|] eqn:Hi; [|done].
  apply leadingInt_length in Hi.
  assert (String.length (parse_fraction s1).1.2 ≤ String.length s1)%nat as Ht.
  { destruct s1 as [|c1 s1]; [done|]. simpl. destruct (Ascii.eqb c1 "."); [|done].
    destruct (leadingFraction s1 0 1 false) as [[f sc] s2] eqn:Hf.
    apply leadingFraction_length in Hf. simpl. lia. }
  destruct (parse_fraction s1) as [[[f scale] s2] post]. simpl in Ht.
  destruct (_ && _); [done|]. destruct (unit_span s2) as [u r] eqn:Hu.
  apply unit_span_length in Hu. destruct (String.eqb_spec u ""); [done|].
  assert (0 < String.length u)%nat by (destruct u; [done|simpl; lia]).
  destruct (unitMap u); [|done]. case_match; [done|].
  assert (∀ z, 0 ≤ uint 64 z) as Hnn by (intros y; apply (uint_range 64 y); lia).
  case_match; [case_match; [done|]|]; intros [= <- <-]; (split; [apply Hnn|lia]).
Qed.

Lemma parse_component_no_panic orig s why : parse_component orig s ≠ Panic why.
Proof.
  unfold parse_component, invalid. destruct s; [done|]. repeat case_match; done.
Qed.

Lemma parse_loop_total fuel orig s d :
  (String.length s ≤ fuel)%nat → 0 ≤ d →
  (∀ why, parse_loop fuel orig s d ≠ Panic why) ∧
  ∀ d', parse_loop fuel orig s d = Ok d' → 0 ≤ d'.
Proof.
  revert s d. induction fuel as [|fuel IH]; intros s d Hl Hd.
  { destruct s; [|simpl in Hl; lia]. split; [done|]. by intros d' [= <-]. }
  destruct s as [|c s]; [split; [done|]; by intros d' [= <-]|]. cbn [parse_loop].
  destruct (parse_component orig (String c s)) as [[v rest]|e|why] eqn:Hc; simpl.
  - apply parse_component_shorter in Hc as [_ Hr]. simpl in Hr, Hl.
    case_match; [done|]. apply IH; [lia|]. apply (uint_range 64). lia.
  - done.
  - by apply parse_component_no_panic in Hc.
Qed.

Lemma parse_sign_length s : (String.length (parse_sign s).2 ≤ String.length s)%nat.
Proof. destruct s as [|c s]; [done|]. simpl. case_match; simpl; lia. Qed.

Lemma ParseDuration_total s :
  (∀ why, ParseDuration s ≠ Panic why) ∧ ∀ d, ParseDuration s = Ok d → in_s 64 d.
Proof.
  unfold ParseDuration. destruct (parse_sign s) as [neg t].
  case_match; [split; [done|]; intros d [= <-]; unfold in_s; lia|]. case_match; [done|].
  destruct (parse_loop_total (String.length t) s t 0) as [Hp Hok]; [lia..|].
  destruct (parse_loop _ _ _ _) as [d|e|why]; simpl; [|done|by destruct (Hp why)].
  specialize (Hok d eq_refl). destruct neg.
  - split; [done|]. intros d' [= <-]. apply sint_range. lia.
  - case_match; [done|]. split; [done|]. intros d' [= <-]. unfold in_s. b2p. lia.
Qed.

(** ** Properties *)

(** C32. What is written for a duration reads back: for every [int64] number of
    nanoseconds, the text that [MarshalYAML] gives is parsed by [UnmarshalYAML] to
    the same number, the smallest and the largest included; the float64 arithmetic
    on the decimals loses nothing. Whatever the text, reading it ends, without
    panic, in an error or in a number that fits an [int64]. *)
Theorem Duration_roundtrip :
  (∀ d, in_s 64 d → UnmarshalYAML (MarshalYAML d) = Ok d) ∧
  ∀ s, match UnmarshalYAML (Ok s) with Ok d => in_s 64 d | Err _ => True | Panic _ => False end.
Proof.
  split.
  - intros d Hd. unfold UnmarshalYAML, MarshalYAML. cbn. apply wrap_err_ok.
    rewrite Duration_String_eq by done. unfold in_s in Hd.
    assert (∀ u, 0 ≤ u ≤ 2 ^ 63 → String.eqb (text_of u) "0" = false ∧
      String.eqb (text_of u) "" = false ∧
      ∀ orig, parse_loop (String.length (text_of u)) orig (text_of u) 0 = Ok u) as Htext.
    { intros u Hu. destruct (text_of_parses u Hu) as (n & Hn & Hs & Hl & Hp).
      destruct (String.eqb_spec (text_of u) "0") as [H0|]; [rewrite H0 in Hl; simpl in Hl; lia|].
      destruct (String.eqb_spec (text_of u) "") as [H0|]; [rewrite H0 in Hl; simpl in Hl; lia|].
      split; [done|]. split; [done|]. intros orig. apply Hp. lia. }
    unfold ParseDuration. destruct (Z.ltb_spec d 0) as [Hneg|Hpos].
    + change (parse_sign (String "-" (text_of (- d)))) with (true, text_of (- d)).
      destruct (Htext (- d) ltac:(lia)) as (-> & -> & ->). simpl. f_equal.
      destruct (decide (d = - 2 ^ 63)) as [->|]; [done|].
      rewrite (sint_small 64 (- d)), (sint_small 64) by (unfold in_s; lia). lia.
    + destruct (text_of_parses d) as (n & _ & Hs & _); [lia|]. rewrite parse_sign_digit by done.
      destruct (Htext d ltac:(lia)) as (-> & -> & ->). simpl.
      by rewrite (proj2 (Z.ltb_ge _ _)) by lia.
  - intros s. unfold UnmarshalYAML. cbn. destruct (ParseDuration_total s) as [Hp Hok].
    destruct (ParseDuration s) as [d|e|why]; cbn; [by apply Hok|done|by destruct (Hp why)].
Qed.

(** ** Examples *)

Example parse_examples :
  ParseDuration <$> ["1h15m30.918s"; "-1.5h"; ".5s"; "0"; "300ms"; "1.00000000000000000001s"]
  = [Ok 4530918000000; Ok (-5400000000000); Ok 500000000; Ok 0; Ok 300000000; Ok 1000000000].
Proof. vm_compute. reflexivity. Qed.
Example parse_errors :
  is_ok <$> (ParseDuration <$> [""; "3"; "1d"; ".s"; "9223372036854775808ns"; "-"; "1 s"])
  = [false; false; false; false; false; false; false].
Proof. vm_compute. reflexivity. Qed.
Example print_examples :
  Duration_String <$> [0; 1; 1100; 2200000; 3300000000; 4530918000000; - 2 ^ 63; 2 ^ 63 - 1]
  = ["0s"; "1ns"; "1.1µs"; "2.2ms"; "3.3s"; "1h15m30.918s"; "-2562047h47m16.854775808s";
     "2562047h47m16.854775807s"].
Proof. vm_compute. reflexivity. Qed.

(** ** Witness *)

Lemma Duration_roundtrip_witness :
  UnmarshalYAML (MarshalYAML (- 2 ^ 63)) = Ok (- 2 ^ 63) ∧
  MarshalYAML (- 2 ^ 63) = Ok "-2562047h47m16.854775808s".
Proof.
  split; [apply (proj1 Duration_roundtrip); unfold in_s; lia|vm_compute; reflexivity].
Defined.
