(* ===== verification/RingBuffer.v ===== *)
(** * internal/mirror/ring_buffer.go: the offset-ordered ring buffer

    [OrderedRingBuffer] is shared by fetcher goroutines, which call [Put], and
    one drainer, which calls [DrainBatch]. Both are modelled at the grain of
    their atomic operations: one step per load, store, compare-and-swap, plain
    write, lock, unlock, condition wait, signal and broadcast of the code, with
    a program counter per goroutine, so that every interleaving is a run of
    [ring_step]. The step functions are executable: a schedule is a list of
    events.

    A goroutine in [cond.Wait] is a member of [cond], the notification list; it
    goes on once it has been removed from it and the mutex is free. *)
From S2P Require Import Prelude.

Local Open Scope Z_scope.

Inductive slotState := slotEmpty | slotFilled | slotTaken.

#[global] Instance slotState_eq_dec : EqDecision slotState.
Proof. solve_decision. Defined.

Section ring.
Context {A : Type}.

Record ringSlot := {
  state : slotState;
  record : option A;
  offset : Z;
}.

Record OrderedRingBuffer := {
  slots : list ringSlot;
  capacity : Z;
  drainOffset : Z;
  mu : option nat;      (* the goroutine that holds the mutex *)
  cond : list nat;      (* the goroutines asleep in [cond.Wait] *)
  closed : bool;
}.

Definition emptySlot : ringSlot := {| state := slotEmpty; record := None; offset := 0 |}.

Definition NewOrderedRingBuffer (cap startOffset : Z) : outcome OrderedRingBuffer :=
  if cap <? 0 then Panic "makeslice: len out of range"
  else Ok {| slots := replicate (Z.to_nat cap) emptySlot; capacity := i64 cap;
             drainOffset := startOffset; mu := None; cond := []; closed := false |}.

Definition slotIndex (rb : OrderedRingBuffer) (off : Z) : outcome Z :=
  if capacity rb =? 0 then Panic "integer divide by zero"
  else
    let idx := Z.rem off (capacity rb) in
    Ok (if idx <? 0 then idx + capacity rb else idx).

Definition DrainOffset (rb : OrderedRingBuffer) : Z := drainOffset rb.
Definition Capacity (rb : OrderedRingBuffer) : Z := capacity rb.

(** ** Updates of one field *)

Definition set_slot (i : nat) (x : ringSlot) (rb : OrderedRingBuffer) : OrderedRingBuffer :=
  {| slots := <[i := x]> (slots rb); capacity := capacity rb; drainOffset := drainOffset rb;
     mu := mu rb; cond := cond rb; closed := closed rb |}.
Definition set_mu (m : option nat) (rb : OrderedRingBuffer) : OrderedRingBuffer :=
  {| slots := slots rb; capacity := capacity rb; drainOffset := drainOffset rb;
     mu := m; cond := cond rb; closed := closed rb |}.
Definition set_cond (c : list nat) (rb : OrderedRingBuffer) : OrderedRingBuffer :=
  {| slots := slots rb; capacity := capacity rb; drainOffset := drainOffset rb;
     mu := mu rb; cond := c; closed := closed rb |}.
Definition set_drainOffset (d : Z) (rb : OrderedRingBuffer) : OrderedRingBuffer :=
  {| slots := slots rb; capacity := capacity rb; drainOffset := d;
     mu := mu rb; cond := cond rb; closed := closed rb |}.
Definition set_closed (rb : OrderedRingBuffer) : OrderedRingBuffer :=
  {| slots := slots rb; capacity := capacity rb; drainOffset := drainOffset rb;
     mu := mu rb; cond := cond rb; closed := true |}.

Definition with_state (st : slotState) (x : ringSlot) : ringSlot :=
  {| state := st; record := record x; offset := offset x |}.
Definition with_record (r : option A) (x : ringSlot) : ringSlot :=
  {| state := state x; record := r; offset := offset x |}.
Definition with_offset (o : Z) (x : ringSlot) : ringSlot :=
  {| state := state x; record := record x; offset := o |}.

(** [cond.Signal()] wakes one waiter, chosen by the scheduler through [k];
    [cond.Broadcast()] wakes all. Neither takes the mutex. *)
Definition Signal (k : nat) (rb : OrderedRingBuffer) : OrderedRingBuffer :=
  set_cond (delete (k mod length (cond rb))%nat (cond rb)) rb.
Definition Broadcast (rb : OrderedRingBuffer) : OrderedRingBuffer := set_cond [] rb.

(** [mu.Lock()], which blocks while the mutex is held. *)
Definition lock (tid : nat) (rb : OrderedRingBuffer) : option OrderedRingBuffer :=
  match mu rb with None => Some (set_mu (Some tid) rb) | Some _ => None end.
Definition unlock (rb : OrderedRingBuffer) : OrderedRingBuffer := set_mu None rb.

(** ** A fetcher's sequence of [Put] calls

    [todo] holds the (offset, record) pairs it has still to publish; [i] is the
    index of the slot the current call works on. *)
Inductive put_pc :=
  | PutCall                                 (* between calls *)
  | FastLoad (i : nat)                      (* slot.state.Load() == slotEmpty *)
  | FastRecord (i : nat) | FastOffset (i : nat)
  | FastCAS (i : nat)
  | SlowLock (i : nat)
  | WhileState (i : nat) | WhileClosed (i : nat) | WhileCtx (i : nat)
  | EnterWait (i : nat) | Asleep (i : nat)
  | SlowUnlock (i : nat)
  | IfClosed (i : nat) | IfCtx (i : nat)
  | SlowRecord (i : nat) | SlowOffset (i : nat) | SlowStore (i : nat)
  | PutSignal                               (* published; about to signal *)
  | PutFalse                                (* the last call returned false *)
  | PutPanic
  | Returned.                               (* [fetchWorker] has returned *)

Record fetcher := { todo : list (Z * A); pc : put_pc }.

Definition at_pc (f : fetcher) (p : put_pc) : fetcher := {| todo := todo f; pc := p |}.

(** One atomic operation of [Put]; [None] when the goroutine cannot run. *)
Definition Put (tid k : nat) (ctxDone : bool) (rb : OrderedRingBuffer) (f : fetcher)
    : option (OrderedRingBuffer * fetcher) :=
  match todo f with
  | [] =>
      match pc f with
      | PutSignal => Some (Signal k rb, at_pc f PutCall)
      | _ => None
      end
  | (off, rec) :: rest =>
      match pc f with
      | PutCall =>
          match slotIndex rb off with
          | Ok idx => Some (rb, at_pc f (FastLoad (Z.to_nat idx)))
          | _ => Some (rb, at_pc f PutPanic)
          end
      | FastLoad i =>
          slot ← slots rb !! i;
          if bool_decide (state slot = slotEmpty)
          then Some (rb, at_pc f (FastRecord i))
          else Some (rb, at_pc f (SlowLock i))
      | FastRecord i =>
          slot ← slots rb !! i;
          Some (set_slot i (with_record (Some rec) slot) rb, at_pc f (FastOffset i))
      | FastOffset i =>
          slot ← slots rb !! i;
          Some (set_slot i (with_offset off slot) rb, at_pc f (FastCAS i))
      | FastCAS i =>
          slot ← slots rb !! i;
          if bool_decide (state slot = slotEmpty)
          then Some (set_slot i (with_state slotFilled slot) rb,
                     {| todo := rest; pc := PutSignal |})
          else Some (rb, at_pc f (SlowLock i))
      | SlowLock i =>
          rb ← lock tid rb; Some (rb, at_pc f (WhileState i))
      | WhileState i =>
          slot ← slots rb !! i;
          if bool_decide (state slot = slotEmpty)
          then Some (rb, at_pc f (SlowUnlock i))
          else Some (rb, at_pc f (WhileClosed i))
      | WhileClosed i =>
          Some (rb, at_pc f (if closed rb then SlowUnlock i else WhileCtx i))
      | WhileCtx i =>
          Some (rb, at_pc f (if ctxDone then SlowUnlock i else EnterWait i))
      | EnterWait i =>
          Some (unlock (set_cond (cond rb ++ [tid]) rb), at_pc f (Asleep i))
      | Asleep i =>
          if bool_decide (tid ∈ cond rb) then None
          else rb ← lock tid rb; Some (rb, at_pc f (WhileState i))
      | SlowUnlock i => Some (unlock rb, at_pc f (IfClosed i))
      | IfClosed i => Some (rb, at_pc f (if closed rb then PutFalse else IfCtx i))
      | IfCtx i => Some (rb, at_pc f (if ctxDone then PutFalse else SlowRecord i))
      | SlowRecord i =>
          slot ← slots rb !! i;
          Some (set_slot i (with_record (Some rec) slot) rb, at_pc f (SlowOffset i))
      | SlowOffset i =>
          slot ← slots rb !! i;
          Some (set_slot i (with_offset off slot) rb, at_pc f (SlowStore i))
      | SlowStore i =>
          slot ← slots rb !! i;
          Some (set_slot i (with_state slotFilled slot) rb,
                {| todo := rest; pc := PutSignal |})
      | PutSignal => Some (Signal k rb, at_pc f PutCall)
      | PutFalse | PutPanic | Returned => None
      end
  end.

(** ** The drainer's sequence of [DrainBatch] calls

    [next] is the value read from [drainOffset] at the start of the call, [i]
    the index of the slot at hand, [b] the batch collected so far. *)
Inductive drain_pc :=
  | DrainCall
  | DLock (next : Z) (i : nat)
  | DWhileState (next : Z) (i : nat) | DWhileClosed (next : Z) (i : nat)
  | DWhileCtx (next : Z) (i : nat)
  | DEnterWait (next : Z) (i : nat) | DAsleep (next : Z) (i : nat)
  | DUnlock (next : Z) (i : nat)
  | DIfClosed (next : Z) (i : nat) | DIfState (next : Z) (i : nat) | DIfCtx (next : Z)
  | DScan (next : Z) (b : list (option A))
  | DTake (next : Z) (b : list (option A)) (i : nat)
  | DClear (next : Z) (b : list (option A)) (i : nat) (rec : option A)
  | DFree (next : Z) (b : list (option A)) (i : nat) (rec : option A)
  | DAdd (b : list (option A))
  | DBroadcast (b : list (option A))
  | DrainFalse                              (* the last call returned (nil, false) *)
  | DrainPanic.

(** The batch size a call uses. *)
Definition batch_limit (maxBatch : Z) : Z := if maxBatch <=? 0 then 256 else maxBatch.

(** One atomic operation of [DrainBatch(ctx, maxBatch)], with the batch it
    returns when it does. The drainer is goroutine 0. *)
Definition DrainBatch (maxBatch : Z) (ctxDone : bool) (rb : OrderedRingBuffer) (d : drain_pc)
    : option (OrderedRingBuffer * drain_pc * list (list (option A))) :=
  match d with
  | DrainCall =>
      match slotIndex rb (drainOffset rb) with
      | Ok i => Some (rb, DLock (drainOffset rb) (Z.to_nat i), [])
      | _ => Some (rb, DrainPanic, [])
      end
  | DLock next i => rb ← lock 0 rb; Some (rb, DWhileState next i, [])
  | DWhileState next i =>
      slot ← slots rb !! i;
      Some (rb, if bool_decide (state slot = slotFilled)
                then DUnlock next i else DWhileClosed next i, [])
  | DWhileClosed next i =>
      Some (rb, if closed rb then DUnlock next i else DWhileCtx next i, [])
  | DWhileCtx next i =>
      Some (rb, if ctxDone then DUnlock next i else DEnterWait next i, [])
  | DEnterWait next i =>
      Some (unlock (set_cond (cond rb ++ [0%nat]) rb), DAsleep next i, [])
  | DAsleep next i =>
      if bool_decide (0%nat ∈ cond rb) then None
      else rb ← lock 0 rb; Some (rb, DWhileState next i, [])
  | DUnlock next i => Some (unlock rb, DIfClosed next i, [])
  | DIfClosed next i => Some (rb, if closed rb then DIfState next i else DIfCtx next, [])
  | DIfState next i =>
      slot ← slots rb !! i;
      Some (rb, if bool_decide (state slot = slotFilled) then DIfCtx next else DrainFalse, [])
  | DIfCtx next => Some (rb, if ctxDone then DrainFalse else DScan next [], [])
  | DScan next b =>
      if Z.of_nat (length b) <? batch_limit maxBatch then
        match slotIndex rb (i64 (next + Z.of_nat (length b))) with
        | Ok idx =>
            slot ← slots rb !! Z.to_nat idx;
            Some (rb, if bool_decide (state slot = slotFilled)
                      then DTake next b (Z.to_nat idx) else DAdd b, [])
        | _ => Some (rb, DrainPanic, [])
        end
      else Some (rb, DAdd b, [])
  | DTake next b i => slot ← slots rb !! i; Some (rb, DClear next b i (record slot), [])
  | DClear next b i rec =>
      slot ← slots rb !! i;
      Some (set_slot i (with_record None slot) rb, DFree next b i rec, [])
  | DFree next b i rec =>
      slot ← slots rb !! i;
      Some (set_slot i (with_state slotEmpty slot) rb, DScan next (b ++ [rec]), [])
  | DAdd b =>
      Some (set_drainOffset (i64 (drainOffset rb + Z.of_nat (length b))) rb, DBroadcast b, [])
  | DBroadcast b => Some (Broadcast rb, DrainCall, [b])
  | DrainFalse | DrainPanic => None
  end.

(** [Close] and [CloseWithError] first set the flag, then broadcast. *)
Definition Close (rb : OrderedRingBuffer) : OrderedRingBuffer := set_closed rb.
Definition CloseWithError (rb : OrderedRingBuffer) : OrderedRingBuffer := set_closed rb.

(** ** The pipeline of one partition: fetchers, buffer, drainer, owner *)

Record pipeline := {
  rb : OrderedRingBuffer;
  ctxDone : bool;               (* [ctx.Err() != nil] *)
  fetcherFailed : bool;         (* some fetcher returned an error *)
  broadcasts : nat;             (* closes that have still to broadcast *)
  fetchers : list fetcher;
  drainer : drain_pc;
  out : list (list (option A)); (* the batches returned by [DrainBatch] *)
}.

(** The fetcher has returned; it does so as soon as [Put] has returned false. *)
Definition returned (f : fetcher) : bool :=
  match pc f with PutFalse | Returned => true | _ => false end.

(** Between two calls of [Put] a fetcher polls. A poll may show it the end of its
    range once it has put all its records, the cancellation of the context, or an
    error, and none of them has to come: a fetcher that has put all its records
    may poll for ever. *)
Definition may_return (ctxDone : bool) (f : fetcher) : bool :=
  match pc f with
  | PutCall => ctxDone || match todo f with [] => true | _ => false end
  | _ => false
  end.

Inductive event :=
  | EvPut (j k : nat)      (* fetcher [j] runs; a signal wakes waiter [k] *)
  | EvReturn (j : nat)     (* fetcher [j] sees its end, or the cancellation *)
  | EvDrain                (* the drainer runs *)
  | EvCancel               (* the context is cancelled *)
  | EvFail (j : nat)       (* fetcher [j] fails: [rb.CloseWithError()], and it returns *)
  | EvClose                (* [fetcherWg.Wait(); rb.Close()] *)
  | EvBroadcast.           (* the broadcast of a close *)

Definition step (maxBatch : Z) (e : event) (s : pipeline) : option pipeline :=
  match e with
  | EvPut j k =>
      f ← fetchers s !! j;
      '(r, f) ← Put (S j) k (ctxDone s) (rb s) f;
      Some {| rb := r; ctxDone := ctxDone s; fetcherFailed := fetcherFailed s;
              broadcasts := broadcasts s; fetchers := <[j := f]> (fetchers s);
              drainer := drainer s; out := out s |}
  | EvReturn j =>
      f ← fetchers s !! j;
      if may_return (ctxDone s) f then
        Some {| rb := rb s; ctxDone := ctxDone s; fetcherFailed := fetcherFailed s;
                broadcasts := broadcasts s;
                fetchers := <[j := at_pc f Returned]> (fetchers s);
                drainer := drainer s; out := out s |}
      else None
  | EvDrain =>
      '(r, d, o) ← DrainBatch maxBatch (ctxDone s) (rb s) (drainer s);
      Some {| rb := r; ctxDone := ctxDone s; fetcherFailed := fetcherFailed s;
              broadcasts := broadcasts s; fetchers := fetchers s;
              drainer := d; out := out s ++ o |}
  | EvCancel =>
      Some {| rb := rb s; ctxDone := true; fetcherFailed := fetcherFailed s;
              broadcasts := broadcasts s; fetchers := fetchers s;
              drainer := drainer s; out := out s |}
  | EvFail j =>
      f ← fetchers s !! j;
      match pc f with
      | PutCall =>
          Some {| rb := CloseWithError (rb s); ctxDone := ctxDone s; fetcherFailed := true;
                  broadcasts := S (broadcasts s);
                  fetchers := <[j := at_pc f Returned]> (fetchers s);
                  drainer := drainer s; out := out s |}
      | _ => None
      end
  | EvClose =>
      if forallb returned (fetchers s) then
        Some {| rb := Close (rb s); ctxDone := ctxDone s; fetcherFailed := fetcherFailed s;
                broadcasts := S (broadcasts s); fetchers := fetchers s;
                drainer := drainer s; out := out s |}
      else None
  | EvBroadcast =>
      match broadcasts s with
      | O => None
      | S n =>
          Some {| rb := Broadcast (rb s); ctxDone := ctxDone s;
                  fetcherFailed := fetcherFailed s; broadcasts := n;
                  fetchers := fetchers s; drainer := drainer s; out := out s |}
      end
  end.

Inductive ring_step (maxBatch : Z) (s s' : pipeline) : Prop :=
  | ring_step_intro e : step maxBatch e s = Some s' → ring_step maxBatch s s'.

(** The pipeline as [catchUpPartitionPipelined] sets it up. *)
Definition start_pipeline (r : OrderedRingBuffer) (loads : list (list (Z * A))) : pipeline :=
  {| rb := r; ctxDone := false; fetcherFailed := false; broadcasts := 0;
     fetchers := (λ w, {| todo := w; pc := PutCall |}) <$> loads;
     drainer := DrainCall; out := [] |}.

(** Running a schedule. *)
Definition run (maxBatch : Z) (es : list event) (s : pipeline) : option pipeline :=
  foldl (λ m e, m ≫= step maxBatch e) (Some s) es.

(** The index with its correction for negative remainders is the modulus. *)
Lemma slotIndex_mod cap (r : OrderedRingBuffer) o :
  0 < cap → capacity r = cap → slotIndex r o = Ok (o mod cap).
Proof.
  intros Hcap Hc. unfold slotIndex. rewrite Hc.
  rewrite (proj2 (Z.eqb_neq cap 0)) by lia. f_equal.
  pose proof (Z.quot_rem' o cap). pose proof (Z.rem_bound_abs o cap).
  pose proof (Z.mod_pos_bound o cap). pose proof (Z.div_mod o cap).
  destruct (Z.ltb_spec (Z.rem o cap) 0).
  - apply (Z.mod_unique_pos _ _ (Z.quot o cap - 1)); lia.
  - apply (Z.mod_unique_pos _ _ (Z.quot o cap)); lia.
Qed.

Lemma lock_Some tid (r r' : OrderedRingBuffer) :
  lock tid r = Some r' → r' = set_mu (Some tid) r.
Proof. unfold lock. destruct (mu r); congruence. Qed.
End ring.

Arguments ringSlot : clear implicits.
Arguments OrderedRingBuffer : clear implicits.
Arguments fetcher : clear implicits.
Arguments drain_pc : clear implicits.
Arguments pipeline : clear implicits.
