(* ===== verification/RingSafety.v ===== *)
(** * The ring buffer under every interleaving

    What the pipeline of [RingBuffer] delivers, for every schedule of its
    goroutines: an inductive invariant of [ring_step] and its consequences
    (order, conservation, bounded batches, complete drain), for the workloads
    on which the buffer is safe; and schedules that show what happens on the
    others. *)
From stdpp Require Import sorting.
From S2P Require Import Prelude RingBuffer.

Local Open Scope Z_scope.

Section safety.
Context {A : Type}.
Context (cap start last : Z) (log : Z → option A) (own : Z → nat).
Context (loads : list (list (Z * A))) (maxBatch : Z).

(** The records of the partition, [log], and how they are dealt to the
    fetchers: fetcher [own o] holds offset [o], each fetcher's offsets ascend.
    Either the whole range fits the buffer, or there is a single fetcher and the
    range has no gap. *)
Record workload_ok : Prop := {
  wl_cap : 0 < cap < 2 ^ 63;
  wl_bounds : - 2 ^ 63 ≤ start ∧ start ≤ last < 2 ^ 63;
  wl_range o : is_Some (log o) → start ≤ o < last;
  wl_load j w : loads !! j = Some w →
    StronglySorted Z.lt w.*1 ∧ Forall (λ p, own p.1 = j ∧ log p.1 = Some p.2) w;
  wl_all o a : log o = Some a → ∃ w, loads !! own o = Some w ∧ (o, a) ∈ w;
  wl_window : last ≤ start + cap ∨
    (length loads = 1%nat ∧ ∀ o, start ≤ o < last → is_Some (log o));
}.

Context (WL : workload_ok).

Definition idx (o : Z) : nat := Z.to_nat (o mod cap).

Abbreviation slot := (ringSlot A).
Abbreviation flags := (bool * bool * bool)%type.   (* closed, ctxDone, fetcherFailed *)

Definition stat (sl : list slot) (o : Z) : option slotState := state <$> sl !! idx o.

(** In the window [d, d + cap) a filled slot holds the record of its offset;
    the drainer empties the record of slot [d] just before it frees it. *)
Definition slots_ok (sl : list slot) (d : Z) (taking : bool) : Prop :=
  length sl = Z.to_nat cap ∧
  ∀ o x, d ≤ o < d + cap → sl !! idx o = Some x →
    match state x with
    | slotEmpty => True
    | slotFilled => is_Some (log o) ∧ ((taking = true ∧ o = d) ∨ record x = log o)
    | slotTaken => False
    end.

Definition at_slot (f : fetcher A) (i : nat) (P : Z → A → Prop) : Prop :=
  ∃ o a rest, todo f = (o, a) :: rest ∧ i = idx o ∧ P o a.

Definition recorded (sl : list slot) (o : Z) (a : A) : Prop :=
  ∃ x, sl !! idx o = Some x ∧ record x = Some a.

Definition pc_ok (sl : list slot) (d : Z) (fl : flags) (f : fetcher A) : Prop :=
  let '(cl, ctx, bad) := fl in
  match pc f with
  | PutCall | PutSignal => True
  | PutFalse => ctx = true ∨ bad = true
  | Returned => todo f = [] ∨ ctx = true ∨ bad = true
  | PutPanic => False
  | FastLoad i | SlowLock i | WhileState i | WhileClosed i | WhileCtx i
  | EnterWait i | Asleep i => at_slot f i (λ _ _, True)
  | FastRecord i | SlowRecord i => at_slot f i (λ o _, o < d + cap)
  | FastOffset i | FastCAS i | SlowOffset i | SlowStore i =>
      at_slot f i (λ o a, o < d + cap ∧ recorded sl o a)
  | SlowUnlock i | IfClosed i =>
      at_slot f i (λ o _, o < d + cap ∨ cl = true ∨ ctx = true)
  | IfCtx i => at_slot f i (λ o _, o < d + cap ∨ ctx = true)
  end.

(** Everything a fetcher has still to publish is ahead of the drainer, and its
    slot is empty as soon as it enters the window. *)
Definition fetch_ok (sl : list slot) (d : Z) (fl : flags) (j : nat) (f : fetcher A) : Prop :=
  StronglySorted Z.lt (todo f).*1 ∧
  (∀ o a, (o, a) ∈ todo f →
     own o = j ∧ log o = Some a ∧ d ≤ o ∧ (o < d + cap → stat sl o = Some slotEmpty)) ∧
  pc_ok sl d fl f.

(** No record is lost: it is pending, buffered, or delivered. *)
Definition conserved (sl : list slot) (d : Z) (fs : list (fetcher A)) : Prop :=
  ∀ o a, log o = Some a → d ≤ o →
    (∃ f, fs !! own o = Some f ∧ (o, a) ∈ todo f) ∨
    (o < d + cap ∧ stat sl o = Some slotFilled).

Definition all_returned (fs : list (fetcher A)) : Prop :=
  ∀ j f, fs !! j = Some f → returned f = true.

Definition core (sl : list slot) (d : Z) (taking : bool) (fl : flags)
    (fs : list (fetcher A)) : Prop :=
  slots_ok sl d taking ∧ start ≤ d ≤ last ∧ length fs = length loads ∧
  (∀ j f, fs !! j = Some f → fetch_ok sl d fl j f) ∧
  conserved sl d fs ∧
  (fl.1.1 = true → fl.1.2 = true ∨ fl.2 = true ∨ all_returned fs).

(** ** Arithmetic of the slots *)

Lemma slotIndex_idx (r : OrderedRingBuffer A) o :
  capacity r = cap → slotIndex r o = Ok (o mod cap).
Proof. destruct (wl_cap WL). apply slotIndex_mod. lia. Qed.

Lemma idx_inj d o o' :
  d ≤ o < d + cap → d ≤ o' < d + cap → idx o = idx o' → o = o'.
Proof.
  intros Ho Ho' H. destruct (wl_cap WL). unfold idx in H.
  pose proof (Z.mod_pos_bound o cap). pose proof (Z.mod_pos_bound o' cap).
  assert (o mod cap = o' mod cap) as E by lia.
  pose proof (Z.div_mod o cap). pose proof (Z.div_mod o' cap). rewrite E in *.
  assert (o / cap = o' / cap) by nia. lia.
Qed.

Lemma idx_shift o : idx (o - cap) = idx o ∧ idx (o + cap) = idx o.
Proof.
  destruct (wl_cap WL). unfold idx. split; f_equal.
  - replace (o - cap) with (o + (-1) * cap) by lia. by rewrite Z.mod_add by lia.
  - replace (o + cap) with (o + 1 * cap) by lia. by rewrite Z.mod_add by lia.
Qed.

Lemma idx_lt o : (idx o < Z.to_nat cap)%nat.
Proof. destruct (wl_cap WL). unfold idx. pose proof (Z.mod_pos_bound o cap). lia. Qed.

Lemma slot_lookup sl d tk o : slots_ok sl d tk → ∃ x, sl !! idx o = Some x.
Proof. intros [Hl _]. apply lookup_lt_is_Some. rewrite Hl. apply idx_lt. Qed.

Lemma stat_lookup sl o x : sl !! idx o = Some x → stat sl o = Some (state x).
Proof. unfold stat. by intros ->. Qed.

Lemma sorted_head (p : Z * A) l q :
  StronglySorted Z.lt (p :: l).*1 → q ∈ l → p.1 < q.1.
Proof.
  intros H Hq. apply StronglySorted_inv in H as [_ H].
  rewrite Forall_forall in H. apply H. by apply list_elem_of_fmap_2.
Qed.

Lemma log_in o : is_Some (log o) → start ≤ o < last.
Proof. apply (wl_range WL). Qed.

(** The slot of the next offset of a fetcher can only be empty when that offset
    is in the window. *)
Lemma empty_in_window sl d tk fl fs j f o a rest :
  core sl d tk fl fs → fs !! j = Some f → todo f = (o, a) :: rest →
  stat sl o = Some slotEmpty → o < d + cap.
Proof.
  intros (Hsl & Hd & Hlen & Hf & Hc & _) Hj Ht He.
  destruct (Hf j f Hj) as (Hs & Hp & _).
  destruct (Hp o a) as (Ho & Hlo & Hdo & _); [rewrite Ht; left|].
  assert (start ≤ o < last) by (apply log_in; eauto).
  destruct (wl_window WL) as [Hw|[H1 Hdense]]; [lia|].
  destruct (decide (o < d + cap)) as [|Hge]; [done|]. exfalso.
  destruct (wl_cap WL). destruct (Hdense (o - cap)) as [a' Ha']; [lia|].
  destruct (Hc _ _ Ha') as [(f' & Hf' & Hin)|[_ Hfull]]; [lia|..].
  - assert (own (o - cap) = j) as Eo.
    { apply lookup_lt_Some in Hf'. apply lookup_lt_Some in Hj. lia. }
    rewrite Eo in Hf'. rewrite Hj in Hf'. injection Hf' as <-.
    rewrite Ht in Hin, Hs. apply elem_of_cons in Hin as [[= ? ?]|Hin]; [lia|].
    pose proof (sorted_head _ _ _ Hs Hin). simpl in *. lia.
  - unfold stat in *. rewrite (proj1 (idx_shift o)) in Hfull. congruence.
Qed.

(** ** Frames *)

Definition flags_le (fl fl' : flags) : Prop :=
  (fl.1.1 = true → fl'.1.1 = true) ∧ (fl.1.2 = true → fl'.1.2 = true) ∧
  (fl.2 = true → fl'.2 = true).

Lemma flags_le_refl fl : flags_le fl fl.
Proof. done. Qed.

Lemma pc_ok_frame sl sl' d d' fl fl' f :
  flags_le fl fl' → d ≤ d' →
  (∀ o a, (o, a) ∈ todo f → o < d + cap → sl' !! idx o = sl !! idx o) →
  pc_ok sl d fl f → pc_ok sl' d' fl' f.
Proof.
  destruct fl as [[cl ctx] bad], fl' as [[cl' ctx'] bad'].
  intros (Hcl & Hctx & Hbad) Hd Hsame. simpl in Hcl, Hctx, Hbad.
  assert (∀ i P Q, (∀ o a rest, todo f = (o, a) :: rest → P o a → Q o a : Prop) →
    at_slot f i P → at_slot f i Q) as Hmono.
  { intros i P Q HPQ (o & a & rest & Ht & Hi & HP). exists o, a, rest. eauto. }
  unfold pc_ok. destruct (pc f); try done; try tauto;
    try (by apply Hmono; intros; lia);
    try (by apply Hmono; intuition auto with lia).
  all: apply Hmono; intros o a rest Ht [Hlt (x & Hx & Hr)]; split; [lia|];
    exists x; rewrite (Hsame o a) by (done || rewrite Ht; left); done.
Qed.

Lemma fetch_ok_frame sl sl' d d' fl fl' j f :
  flags_le fl fl' → d ≤ d' →
  (∀ o a, (o, a) ∈ todo f → o < d + cap → sl' !! idx o = sl !! idx o) →
  (∀ o a, (o, a) ∈ todo f → d' ≤ o) →
  (∀ o a, (o, a) ∈ todo f → d + cap ≤ o < d' + cap → stat sl' o = Some slotEmpty) →
  fetch_ok sl d fl j f → fetch_ok sl' d' fl' j f.
Proof.
  intros Hfl Hd Hsame Hge Hnew (Hs & Hp & Hpc). split; [done|]. split.
  - intros o a Hin. destruct (Hp o a Hin) as (? & ? & ? & He).
    repeat split; [done|done|by eapply Hge|]. intros Hlt.
    destruct (decide (o < d + cap)); [|eapply Hnew; [done|lia]].
    unfold stat. rewrite (Hsame o a) by done. by apply He.
  - by eapply pc_ok_frame.
Qed.

(** A fetcher that has not returned moves on without touching the slots. *)
Lemma core_pc sl d tk fl fs j f p :
  core sl d tk fl fs → fs !! j = Some f → returned f = false →
  pc_ok sl d fl (at_pc f p) → core sl d tk fl (<[j := at_pc f p]> fs).
Proof.
  intros (Hsl & Hd & Hlen & Hf & Hc & Hret) Hj Hr Hp.
  split; [done|]. split; [done|]. rewrite length_insert. split; [done|]. split; [|split].
  - intros j' f' Hj'. destruct (decide (j' = j)) as [->|Hne].
    + rewrite list_lookup_insert_eq in Hj' by (by eapply lookup_lt_Some).
      injection Hj' as <-. destruct (Hf j f Hj) as (? & ? & ?). by split.
    + rewrite list_lookup_insert_ne in Hj' by done. by apply Hf.
  - intros o a Hlo Hdo. destruct (Hc o a Hlo Hdo) as [(f' & Hf' & Hin)|]; [left|by right].
    destruct (decide (own o = j)) as [Hoj|Hne].
    + rewrite Hoj in *. rewrite Hj in Hf'. injection Hf' as <-. exists (at_pc f p).
      rewrite list_lookup_insert_eq by (by eapply lookup_lt_Some). done.
    + exists f'. by rewrite list_lookup_insert_ne by done.
  - intros Hcl. destruct (Hret Hcl) as [?|[?|Hall]]; [tauto|tauto|].
    rewrite (Hall j f Hj) in Hr. done.
Qed.

(** A fetcher writes the record or the offset of the empty slot it owns. *)
Lemma core_write sl d tk fl fs j f o a rest x x' p :
  core sl d tk fl fs → fs !! j = Some f → todo f = (o, a) :: rest →
  returned f = false → o < d + cap → sl !! idx o = Some x → state x' = state x →
  pc_ok (<[idx o := x']> sl) d fl (at_pc f p) →
  core (<[idx o := x']> sl) d tk fl (<[j := at_pc f p]> fs).
Proof.
  intros Hcore Hj Ht Hr Hlt Hx Hst Hp.
  pose proof Hcore as (Hsl & Hd & Hlen & Hf & Hc & Hret).
  destruct (Hf j f Hj) as (Hsort & Hpend & _).
  destruct (Hpend o a) as (Ho & Hlo & Hdo & He); [rewrite Ht; left|].
  specialize (He Hlt). rewrite (stat_lookup _ _ _ Hx) in He. injection He as He.
  assert (∀ o', stat (<[idx o := x']> sl) o' = stat sl o') as Hstat.
  { intros o'. unfold stat. destruct (decide (idx o' = idx o)) as [->|Hne].
    - rewrite list_lookup_insert_eq, Hx by (by eapply lookup_lt_Some).
      simpl. by rewrite Hst.
    - by rewrite list_lookup_insert_ne by done. }
  split; [|split; [done|split; [by rewrite length_insert|split; [|split]]]].
  - destruct Hsl as [Hl Hsl]. split; [by rewrite length_insert|]. intros o' y Ho' Hy.
    destruct (decide (idx o' = idx o)) as [Hi|Hne].
    + rewrite Hi, list_lookup_insert_eq in Hy by (by eapply lookup_lt_Some).
      injection Hy as <-. by rewrite Hst, He.
    + rewrite list_lookup_insert_ne in Hy by done. by apply (Hsl o').
  - intros j' f' Hj'. destruct (decide (j' = j)) as [->|Hne].
    + rewrite list_lookup_insert_eq in Hj' by (by eapply lookup_lt_Some).
      injection Hj' as <-. split; [done|]. split; [|done].
      intros o' a' Hin. rewrite Hstat. by apply Hpend.
    + rewrite list_lookup_insert_ne in Hj' by done.
      eapply fetch_ok_frame; [apply flags_le_refl|done| | | |by apply Hf].
      * intros o' a' Hin Hlt'. destruct (Hf j' f' Hj') as (_ & Hp' & _).
        destruct (Hp' _ _ Hin) as (Ho' & _ & Hdo' & _).
        rewrite list_lookup_insert_ne; [done|]. intros Hi.
        apply (idx_inj d) in Hi; [congruence|lia..].
      * intros o' a' Hin. destruct (Hf j' f' Hj') as (_ & Hp' & _). by apply (Hp' o' a').
      * lia.
  - intros o' a' Hlo' Hdo'. rewrite Hstat.
    destruct (Hc o' a' Hlo' Hdo') as [(f' & Hf' & Hin)|]; [left|by right].
    destruct (decide (own o' = j)) as [Hoj|Hne].
    + rewrite Hoj in *. rewrite Hj in Hf'. injection Hf' as <-. exists (at_pc f p).
      rewrite list_lookup_insert_eq by (by eapply lookup_lt_Some). done.
    + exists f'. by rewrite list_lookup_insert_ne by done.
  - intros Hcl. destruct (Hret Hcl) as [?|[?|Hall]]; [tauto|tauto|].
    rewrite (Hall j f Hj) in Hr. done.
Qed.

(** What the others and the one that publishes have still to put. *)
Lemma publish_fetch_ok sl d tk fl fs j f o a rest x :
  core sl d tk fl fs → fs !! j = Some f → todo f = (o, a) :: rest → o < d + cap →
  sl !! idx o = Some x →
  ∀ j' f', <[j := {| todo := rest; pc := PutSignal |}]> fs !! j' = Some f' →
    fetch_ok (<[idx o := with_state slotFilled x]> sl) d fl j' f'.
Proof.
  intros Hcore Hj Ht Hlt Hx j' f' Hj'. pose proof Hcore as (_ & _ & _ & Hf & _).
  destruct (Hf j f Hj) as (Hsort & Hpend & _). rewrite Ht in Hsort, Hpend.
  destruct (Hpend o a) as (Ho & Hlo & Hdo & _); [left|].
  assert (∀ o', d ≤ o' < d + cap → o' ≠ o →
    <[idx o := with_state slotFilled x]> sl !! idx o' = sl !! idx o') as Hother.
  { intros o' Ho' Hne. rewrite list_lookup_insert_ne; [done|].
    intros Hi. apply (idx_inj d) in Hi; lia. }
  destruct (decide (j' = j)) as [->|Hne].
  - rewrite list_lookup_insert_eq in Hj' by (by eapply lookup_lt_Some). injection Hj' as <-.
    split; [|split; [|by destruct fl as [[??]?]]].
    { by apply StronglySorted_inv in Hsort as [? _]. }
    intros o' a' Hin. destruct (Hpend o' a') as (? & ? & ? & He'); [by right|].
    pose proof (sorted_head _ _ _ Hsort Hin). simpl in *.
    repeat split; [done..|]. intros Hlt'. unfold stat. rewrite Hother by lia. by apply He'.
  - rewrite list_lookup_insert_ne in Hj' by done.
    destruct (Hf j' f' Hj') as (_ & Hp' & _).
    eapply fetch_ok_frame; [apply flags_le_refl|done| | | |by apply Hf].
    + intros o' a' Hin Hlt'. destruct (Hp' _ _ Hin) as (Ho' & _ & Hdo' & _).
      apply Hother; [lia|congruence].
    + intros o' a' Hin. by apply (Hp' o' a').
    + lia.
Qed.

(** Publishing the record at the head of a fetcher's range. *)
Lemma core_publish sl d tk fl fs j f o a rest x :
  core sl d tk fl fs → fs !! j = Some f → todo f = (o, a) :: rest →
  returned f = false → o < d + cap → sl !! idx o = Some x → record x = Some a →
  core (<[idx o := with_state slotFilled x]> sl) d tk fl
       (<[j := {| todo := rest; pc := PutSignal |}]> fs).
Proof.
  intros Hcore Hj Ht Hr Hlt Hx Hrec.
  pose proof Hcore as (Hsl & Hd & Hlen & Hf & Hc & Hret).
  destruct (Hf j f Hj) as (_ & Hpend & _).
  destruct (Hpend o a) as (_ & Hlo & Hdo & _); [rewrite Ht; left|].
  assert (∀ o', d ≤ o' < d + cap → o' ≠ o →
    <[idx o := with_state slotFilled x]> sl !! idx o' = sl !! idx o') as Hother.
  { intros o' Ho' Hne. rewrite list_lookup_insert_ne; [done|].
    intros Hi. apply (idx_inj d) in Hi; lia. }
  assert (<[idx o := with_state slotFilled x]> sl !! idx o
    = Some (with_state slotFilled x)) as Hself.
  { apply list_lookup_insert_eq. by eapply lookup_lt_Some. }
  split; [|split; [done|split; [by rewrite length_insert|split; [|split]]]].
  - destruct Hsl as [Hl Hsl]. split; [by rewrite length_insert|]. intros o' y Ho' Hy.
    destruct (decide (o' = o)) as [->|Hne].
    + rewrite Hself in Hy. injection Hy as <-. simpl. rewrite Hlo. split; [by eexists|by right].
    + rewrite Hother in Hy by done. by apply (Hsl o').
  - by eapply publish_fetch_ok.
  - intros o' a' Hlo' Hdo'. destruct (decide (o' = o)) as [->|Hne'].
    { right. split; [done|]. by rewrite (stat_lookup _ _ _ Hself). }
    destruct (Hc o' a' Hlo' Hdo') as [(f' & Hf' & Hin)|[Hlt' Hfull]].
    2:{ right. split; [done|]. unfold stat. by rewrite Hother by lia. }
    left. destruct (decide (own o' = j)) as [Hoj|Hne].
    + rewrite Hoj in *. rewrite Hj in Hf'. injection Hf' as <-.
      exists {| todo := rest; pc := PutSignal |}.
      rewrite list_lookup_insert_eq by (by eapply lookup_lt_Some). split; [done|].
      rewrite Ht in Hin. apply elem_of_cons in Hin as [[= ? ?]|]; [lia|done].
    + exists f'. by rewrite list_lookup_insert_ne by done.
  - intros Hcl. destruct (Hret Hcl) as [?|[?|Hall]]; [tauto|tauto|].
    rewrite (Hall j f Hj) in Hr. done.
Qed.
Lemma conserved_pending sl d tk fl fs o :
  core sl d tk fl fs → is_Some (log o) → d ≤ o < d + cap →
  stat sl o = Some slotFilled → ∀ j f a, fs !! j = Some f → (o, a) ∉ todo f.
Proof.
  intros (_ & _ & _ & Hf & _) _ Ho Hfull j f a Hj Hin.
  destruct (Hf j f Hj) as (_ & Hp & _). destruct (Hp o a Hin) as (_ & _ & _ & He).
  rewrite He in Hfull by lia. done.
Qed.

(** The drainer takes the record out of the slot at its position. *)
Lemma core_clear sl d fl fs x :
  core sl d false fl fs → sl !! idx d = Some x → state x = slotFilled →
  core (<[idx d := with_record None x]> sl) d true fl fs.
Proof.
  intros Hcore Hx Hst. pose proof Hcore as (Hsl & Hd & Hlen & Hf & Hc & Hret).
  destruct (wl_cap WL).
  assert (∀ o', stat (<[idx d := with_record None x]> sl) o' = stat sl o') as Hstat.
  { intros o'. unfold stat. destruct (decide (idx o' = idx d)) as [->|Hne].
    - by rewrite list_lookup_insert_eq, Hx by (by eapply lookup_lt_Some).
    - by rewrite list_lookup_insert_ne by done. }
  split; [|split; [done|split; [done|split; [|split; [|done]]]]].
  - destruct Hsl as [Hl Hsl]. split; [by rewrite length_insert|]. intros o' y Ho' Hy.
    destruct (decide (o' = d)) as [->|Hne].
    + rewrite list_lookup_insert_eq in Hy by (by eapply lookup_lt_Some).
      injection Hy as <-. specialize (Hsl d x Ho' Hx). simpl. rewrite Hst in *.
      split; [apply Hsl|by left].
    + rewrite list_lookup_insert_ne in Hy.
      2:{ intros Hi. apply (idx_inj d) in Hi; lia. }
      specialize (Hsl o' y Ho' Hy). destruct (state y); [done| |done].
      split; [apply Hsl|]. destruct Hsl as [_ [[? _]|?]]; [done|by right].
  - intros j f Hj. destruct (Hf j f Hj) as (Hs & Hp & Hpc). split; [done|]. split.
    { intros o a Hin. rewrite Hstat. by apply Hp. }
    eapply pc_ok_frame; [apply flags_le_refl|done| |done].
    intros o a Hin Hlt. rewrite list_lookup_insert_ne; [done|].
    intros Hi. destruct (Hp o a Hin) as (_ & _ & Hdo & He).
    specialize (He Hlt). apply (idx_inj d) in Hi; [|lia..]. subst o.
    rewrite (stat_lookup _ _ _ Hx) in He. congruence.
  - intros o a Hlo Hdo. rewrite Hstat. by apply Hc.
Qed.

(** The drainer frees that slot, which opens the window by one offset. *)
Lemma core_free sl d fl fs x :
  core sl d true fl fs → sl !! idx d = Some x → state x = slotFilled →
  core (<[idx d := with_state slotEmpty x]> sl) (d + 1) false fl fs.
Proof.
  intros Hcore Hx Hst. pose proof Hcore as (Hsl & Hd & Hlen & Hf & Hc & Hret).
  destruct (wl_cap WL).
  assert (is_Some (log d)) as Hlog.
  { destruct Hsl as [_ Hsl]. specialize (Hsl d x ltac:(lia) Hx).
    rewrite Hst in Hsl. apply Hsl. }
  pose proof (log_in d Hlog).
  assert (∀ o', d < o' < d + cap →
    <[idx d := with_state slotEmpty x]> sl !! idx o' = sl !! idx o') as Hother.
  { intros o' Ho'. rewrite list_lookup_insert_ne; [done|].
    intros Hi. apply (idx_inj d) in Hi; lia. }
  assert (<[idx d := with_state slotEmpty x]> sl !! idx (d + cap)
    = Some (with_state slotEmpty x)) as Hself.
  { rewrite (proj2 (idx_shift d)). apply list_lookup_insert_eq. by eapply lookup_lt_Some. }
  assert (∀ j f o a, fs !! j = Some f → (o, a) ∈ todo f → d < o) as Hahead.
  { intros j f o a Hj Hin. destruct (Hf j f Hj) as (_ & Hp & _).
    destruct (Hp o a Hin) as (_ & _ & Hdo & _).
    destruct (decide (o = d)) as [->|]; [|lia]. exfalso.
    eapply (conserved_pending _ _ _ _ _ d); [exact Hcore|done|lia| |exact Hj|exact Hin].
    by rewrite (stat_lookup _ _ _ Hx), Hst. }
  split; [|split; [lia|split; [done|split; [|split; [|done]]]]].
  - destruct Hsl as [Hl Hsl]. split; [by rewrite length_insert|]. intros o' y Ho' Hy.
    destruct (decide (o' = d + cap)) as [->|Hne].
    + rewrite Hself in Hy. by injection Hy as <-.
    + rewrite Hother in Hy by lia. specialize (Hsl o' y ltac:(lia) Hy).
      destruct (state y); [done| |done]. split; [apply Hsl|].
      destruct Hsl as [_ [[_ ->]|?]]; [lia|by right].
  - intros j f Hj. eapply fetch_ok_frame; [apply flags_le_refl| | | | |by apply Hf]; [lia|..].
    + intros o a Hin Hlt. pose proof (Hahead _ _ _ _ Hj Hin). apply Hother. lia.
    + intros o a Hin. pose proof (Hahead _ _ _ _ Hj Hin). lia.
    + intros o a Hin Ho. replace o with (d + cap) by lia.
      by rewrite (stat_lookup _ _ _ Hself).
  - intros o a Hlo Hdo. destruct (Hc o a Hlo) as [|[Hlt Hfull]]; [lia|by left|right].
    split; [lia|]. unfold stat. by rewrite Hother by lia.
Qed.

Lemma core_flags sl d tk fl fl' fs :
  flags_le fl fl' →
  (fl'.1.1 = true → fl'.1.2 = true ∨ fl'.2 = true ∨ all_returned fs) →
  core sl d tk fl fs → core sl d tk fl' fs.
Proof.
  intros Hfl Hret (Hsl & Hd & Hlen & Hf & Hc & _).
  split; [done|split; [done|split; [done|split; [|split; [done|done]]]]].
  intros j f Hj. eapply fetch_ok_frame; [done|done|done| | |by apply Hf].
  - intros o a Hin. destruct (Hf j f Hj) as (_ & Hp & _). by apply (Hp o a).
  - lia.
Qed.

(** ** A step of [Put] *)

(** What a fetcher may do to the buffer, as the drainer sees it. *)
Definition put_frame (r r' : OrderedRingBuffer A) : Prop :=
  capacity r' = capacity r ∧ drainOffset r' = drainOffset r ∧ closed r' = closed r ∧
  ∀ i x, slots r !! i = Some x → state x = slotFilled → slots r' !! i = Some x.

Lemma put_frame_refl (r : OrderedRingBuffer A) : put_frame r r.
Proof. done. Qed.

Lemma put_frame_set r i x x' :
  slots r !! i = Some x → state x = slotEmpty → put_frame r (set_slot i x' r).
Proof.
  intros Hx He. repeat split. intros k y Hy Hfull. simpl.
  rewrite list_lookup_insert_ne; [done|]. intros ->. congruence.
Qed.

(** What the program counter of a fetcher with a pending record guarantees. *)
Lemma at_slot_head f i P o a rest :
  todo f = (o, a) :: rest → at_slot f i P → i = idx o ∧ P o a.
Proof. intros Ht (o1 & a1 & r1 & E & -> & HP). rewrite Ht in E. by injection E as <- <- <-. Qed.

(** A call of [Put] that has a record [a] to put at offset [o]. *)
Section call.
Context (r : OrderedRingBuffer A) (d : Z) (tk cl ctx bad : bool) (fs : list (fetcher A)) (j : nat).
Context (f : fetcher A) (o : Z) (a : A) (rest : list (Z * A)) (x : slot).
Context (Hcap : capacity r = cap) (Hcore : core (slots r) d tk (cl, ctx, bad) fs).
Context (Hj : fs !! j = Some f) (Ht : todo f = (o, a) :: rest) (Hx : slots r !! idx o = Some x).
Context (Hcall : returned f = false).


Lemma call_at (P : Z → A → Prop) p : P o a → at_slot (at_pc f p) (idx o) P.
Proof using Ht. intros HP. by exists o, a, rest. Qed.

Lemma call_empty_iff : state x = slotEmpty ↔ o < d + cap.
Proof using All - maxBatch.
  split.
  - intros Hex. eapply (empty_in_window _ _ _ _ _ j f); [done..|].
    by rewrite (stat_lookup _ _ _ Hx), Hex.
  - intros Hlt. pose proof Hcore as (_ & _ & _ & Hf & _).
    destruct (Hf j f Hj) as (_ & Hpend & _).
    destruct (Hpend o a) as (_ & _ & _ & He); [rewrite Ht; left|].
    specialize (He Hlt). rewrite (stat_lookup _ _ _ Hx) in He. congruence.
Qed.

(** It goes on, *)
Lemma call_moves p :
  pc_ok (slots r) d (cl, ctx, bad) (at_pc f p) →
  core (slots r) d tk (cl, ctx, bad) (<[j := at_pc f p]> fs).
Proof using All - maxBatch. eauto using core_pc. Qed.

(** writes a field of its slot, *)
Lemma call_writes x' p :
  o < d + cap → state x' = state x →
  pc_ok (<[idx o := x']> (slots r)) d (cl, ctx, bad) (at_pc f p) →
  put_frame r (set_slot (idx o) x' r) ∧
  core (slots (set_slot (idx o) x' r)) d tk (cl, ctx, bad) (<[j := at_pc f p]> fs).
Proof using All - maxBatch.
  intros Hlt Hst Hp. pose proof (proj2 call_empty_iff Hlt).
  split; [by eapply put_frame_set; eauto|]. eapply core_write; eauto.
Qed.

(** publishes it, *)
Lemma call_publishes :
  o < d + cap → record x = Some a →
  put_frame r (set_slot (idx o) (with_state slotFilled x) r) ∧
  core (slots (set_slot (idx o) (with_state slotFilled x) r)) d tk (cl, ctx, bad)
    (<[j := {| todo := rest; pc := PutSignal |}]> fs).
Proof using All - maxBatch.
  intros Hlt Hrec. pose proof (proj2 call_empty_iff Hlt).
  split; [by eapply put_frame_set; eauto|]. eapply core_publish; eauto.
Qed.

(** or finds the buffer closed, which only a failure or the context does. *)
Lemma call_closed : cl = true → ctx = true ∨ bad = true.
Proof using All - maxBatch.
  intros Hcl. pose proof Hcore as (_ & _ & _ & _ & _ & Hret).
  destruct (Hret Hcl) as [?|[?|Hall]]; [by left|by right|].
  by rewrite (Hall j f Hj) in Hcall.
Qed.
End call.

Lemma Put_preserves tid k tk d r f r' f' fs j cl ctx bad :
  capacity r = cap → closed r = cl →
  core (slots r) d tk (cl, ctx, bad) fs → fs !! j = Some f →
  Put tid k ctx r f = Some (r', f') →
  put_frame r r' ∧ core (slots r') d tk (cl, ctx, bad) (<[j := f']> fs).
Proof.
  intros Hcap Hcl Hcore Hj HPut.
  pose proof Hcore as (Hsl & _ & _ & Hf & _).
  destruct (Hf j f Hj) as (_ & _ & Hpc).
  unfold Put in HPut. destruct (todo f) as [|[o a] rest] eqn:Ht.
  { destruct (pc f) eqn:Epc; try done. injection HPut as <- <-.
    split; [done|]. apply core_pc; [done|done| |done]. unfold returned. by rewrite Epc. }
  destruct (slot_lookup _ _ _ o Hsl) as [x Hx].
  assert (returned f = false) as Hcall by (unfold returned; by destruct (pc f)).
  pose proof (call_at f o a rest Ht) as Hmk.
  pose proof (call_empty_iff r d tk cl ctx bad fs j f o a rest x Hcap Hcore Hj Ht Hx Hcall) as Hwin.
  pose proof (call_moves r d tk cl ctx bad fs j f o a rest x Hcap Hcore Hj Ht Hx Hcall) as Hmove.
  pose proof (call_writes r d tk cl ctx bad fs j f o a rest x Hcap Hcore Hj Ht Hx Hcall) as Hwrite.
  pose proof (call_publishes r d tk cl ctx bad fs j f o a rest x Hcap Hcore Hj Ht Hx Hcall) as Hpub.
  pose proof (call_closed r d tk cl ctx bad fs j f o a rest x Hcap Hcore Hj Ht Hx Hcall) as Hbad.
  unfold pc_ok in Hpc. destruct (pc f) eqn:Epc; try done;
    try (apply (at_slot_head _ _ _ o a rest Ht) in Hpc as [-> Hpc]; try rewrite Hx in HPut;
         cbn [mbind option_bind] in HPut).
  all: try (rewrite (slotIndex_idx _ _ Hcap) in HPut).
  all: try case_bool_decide as Hst; try done.
  all: try (destruct (lock tid r) as [r1|] eqn:Hlk; [|done]; apply lock_Some in Hlk as ->).
  all: cbn [mbind option_bind] in HPut; rewrite ?Hcl in HPut; injection HPut as <- <-.
  all: try (split; [done|]; apply Hmove; destruct cl, ctx; simpl;
    first [done|tauto|apply Hmk; first [done|by left; apply Hwin|by apply Hwin|tauto|by destruct Hpc]]).
  all: try (apply Hwrite; [tauto|done|apply Hmk; split; [tauto|];
    eexists; rewrite list_lookup_insert_eq by (by eapply lookup_lt_Some); split; [done|];
    simpl; done]).
  all: destruct Hpc as [Hlt (x1 & Hx1 & Hrec)]; simplify_eq; try by apply Hpub.
  all: apply Hwrite; [done|done|apply Hmk; split; [done|]].
  all: eexists; rewrite list_lookup_insert_eq by (by eapply lookup_lt_Some).
  all: done.
Qed.

(** ** The drainer *)

Definition dpos (drainOff : Z) (p : drain_pc A) : Z :=
  match p with
  | DScan next b | DTake next b _ | DClear next b _ _ | DFree next b _ _ =>
      next + Z.of_nat (length b)
  | DAdd b => drainOff + Z.of_nat (length b)
  | _ => drainOff
  end.

Definition batch_of (p : drain_pc A) : list (option A) :=
  match p with
  | DScan _ b | DTake _ b _ | DClear _ b _ _ | DFree _ b _ _ | DAdd b | DBroadcast b => b
  | _ => []
  end.

Definition taking_of (p : drain_pc A) : bool :=
  match p with DFree _ _ _ _ => true | _ => false end.

Definition blen (b : list (option A)) : Z := Z.of_nat (length b).
Abbreviation limit := (batch_limit maxBatch).

Definition drain_ok (r : OrderedRingBuffer A) (fl : flags) (fs : list (fetcher A))
    (p : drain_pc A) : Prop :=
  let '(cl, ctx, bad) := fl in
  let d := drainOffset r in
  let filled o := stat (slots r) o = Some slotFilled in
  match p with
  | DrainCall => True
  | DLock next i | DWhileState next i | DWhileClosed next i | DWhileCtx next i
  | DEnterWait next i | DAsleep next i => next = d ∧ i = idx next
  | DUnlock next i | DIfClosed next i =>
      next = d ∧ i = idx next ∧ (filled next ∨ cl = true ∨ ctx = true)
  | DIfState next i => next = d ∧ i = idx next ∧ cl = true
  | DIfCtx next => next = d ∧ (filled next ∨ ctx = true)
  | DScan next b => next = d ∧ blen b ≤ limit ∧ (1 ≤ blen b ∨ filled next)
  | DTake next b i =>
      next = d ∧ blen b < limit ∧ i = idx (next + blen b) ∧ filled (next + blen b)
  | DClear next b i rec | DFree next b i rec =>
      next = d ∧ blen b < limit ∧ i = idx (next + blen b) ∧ filled (next + blen b) ∧
      rec = log (next + blen b)
  | DAdd b | DBroadcast b => 1 ≤ blen b ≤ limit
  | DrainFalse => ctx = true ∨ bad = true ∨ (all_returned fs ∧ log d = None)
  | DrainPanic => False
  end.

Definition flags_of (s : pipeline A) : flags :=
  (closed (rb s), ctxDone s, fetcherFailed s).

Definition pos (s : pipeline A) : Z := dpos (drainOffset (rb s)) (drainer s).

(** The records that left the buffer: returned batches, then the current one. *)
Definition delivered (s : pipeline A) : list (option A) :=
  concat (out s) ++ batch_of (drainer s).

Definition inv (s : pipeline A) : Prop :=
  capacity (rb s) = cap ∧
  core (slots (rb s)) (pos s) (taking_of (drainer s)) (flags_of s) (fetchers s) ∧
  drain_ok (rb s) (flags_of s) (fetchers s) (drainer s) ∧
  (delivered s = log <$> seqZ start (pos s - start) ∧
   ∀ o, start ≤ o < pos s → is_Some (log o)) ∧
  Forall (λ b, 1 ≤ blen b ≤ limit) (out s).

Lemma limit_pos : 1 ≤ limit.
Proof. unfold batch_limit. case_match; b2p; lia. Qed.

Lemma drain_ok_frame r r' fl fl' fs fs' p :
  put_frame r r' → flags_le fl fl' → (all_returned fs → all_returned fs') →
  drain_ok r fl fs p → drain_ok r' fl' fs' p.
Proof.
  destruct fl as [[cl ctx] bad], fl' as [[cl' ctx'] bad'].
  intros (_ & Hd & _ & Hfull) (Hcl & Hctx & Hbad) Hret. simpl in Hcl, Hctx, Hbad.
  assert (∀ o, stat (slots r) o = Some slotFilled → stat (slots r') o = Some slotFilled)
    as Hs.
  { intros o. unfold stat. intros (x & Hx & Hst)%fmap_Some.
    by rewrite (Hfull _ _ Hx), Hst. }
  unfold drain_ok. rewrite Hd. destruct p; intuition auto.
Qed.

Lemma inv_put s s' j k : inv s → step maxBatch (EvPut j k) s = Some s' → inv s'.
Proof.
  intros (Hcap & Hcore & Hdr & Hout & Hb) Hstep. simpl in Hstep.
  apply bind_Some in Hstep as (f & Hj & Hstep).
  apply bind_Some in Hstep as ([r' f'] & HPut & [= <-]).
  destruct (Put_preserves (S j) k (taking_of (drainer s)) (pos s) (rb s) f r' f'
    (fetchers s) j (closed (rb s)) (ctxDone s) (fetcherFailed s)) as [Hfr Hcore'];
    [done|done|done|done|done|].
  pose proof Hfr as (Hcap' & Hd & Hcl & _).
  unfold inv, pos, delivered, flags_of in *.
  cbn [rb ctxDone fetcherFailed fetchers drainer out]. rewrite Hd, Hcl, Hcap'.
  split; [done|]. split; [done|]. split; [|done].
  eapply drain_ok_frame; [done|apply flags_le_refl| |done].
  intros Hall. pose proof (Hall j f Hj) as Hr. exfalso. revert Hr HPut.
  unfold returned, Put. destruct (pc f), (todo f) as [|[??]?]; done.
Qed.

(** Cancelling, failing and closing only raise flags. *)
Lemma inv_flags s r ctx bad n :
  inv s → slots r = slots (rb s) → capacity r = capacity (rb s) →
  drainOffset r = drainOffset (rb s) →
  flags_le (flags_of s) (closed r, ctx, bad) →
  (closed r = true → ctx = true ∨ bad = true ∨ all_returned (fetchers s)) →
  inv {| rb := r; ctxDone := ctx; fetcherFailed := bad; broadcasts := n;
         fetchers := fetchers s; drainer := drainer s; out := out s |}.
Proof.
  intros (Hcap & Hcore & Hdr & Hout & Hb) Hsl Hc Hd Hfl Hret.
  unfold inv, pos, delivered, flags_of in *.
  cbn [rb ctxDone fetcherFailed fetchers drainer out]. rewrite Hsl, Hc, Hd.
  split; [done|]. split; [by eapply core_flags|]. split; [|done].
  assert (drain_ok (rb s) (closed r, ctx, bad) (fetchers s) (drainer s)) as Hdr'.
  { eapply drain_ok_frame; [apply put_frame_refl|done|done|done]. }
  unfold drain_ok in *. by rewrite Hsl, Hd.
Qed.

(** A fetcher returns after its last record, or because of a raised flag. *)
Lemma inv_leave s j f :
  inv s → fetchers s !! j = Some f → pc f = PutCall →
  todo f = [] ∨ ctxDone s = true ∨ fetcherFailed s = true →
  inv {| rb := rb s; ctxDone := ctxDone s; fetcherFailed := fetcherFailed s;
         broadcasts := broadcasts s; fetchers := <[j := at_pc f Returned]> (fetchers s);
         drainer := drainer s; out := out s |}.
Proof.
  intros (Hcap & Hcore & Hdr & Hout & Hb) Hj Hpc Hleave.
  assert (returned f = false) as Hr by (unfold returned; by rewrite Hpc).
  split; [done|]. split; [by apply core_pc|]. split; [|done].
  eapply drain_ok_frame; [apply put_frame_refl|apply flags_le_refl| |done].
  intros Hall. by rewrite (Hall j f Hj) in Hr.
Qed.

(** The pipeline after a step of the drainer. *)
Definition after (s : pipeline A) (r : OrderedRingBuffer A) (p : drain_pc A)
    (o : list (list (option A))) : pipeline A :=
  {| rb := r; ctxDone := ctxDone s; fetcherFailed := fetcherFailed s;
     broadcasts := broadcasts s; fetchers := fetchers s; drainer := p; out := out s ++ o |}.

(** Steps that leave the slots and the drain position alone. *)
Lemma inv_move s r p :
  inv s → slots r = slots (rb s) → capacity r = capacity (rb s) →
  drainOffset r = drainOffset (rb s) → closed r = closed (rb s) →
  dpos (drainOffset (rb s)) p = pos s → batch_of p = batch_of (drainer s) →
  taking_of (drainer s) = false → taking_of p = false →
  drain_ok (rb s) (flags_of s) (fetchers s) p →
  inv (after s r p []).
Proof.
  intros (Hcap & Hcore & Hdr & Hout & Hb) Hsl Hc Hd Hcl Hp Hbt Ht Ht' Hok.
  unfold inv, after, delivered, flags_of, pos in *.
  cbn [rb ctxDone fetcherFailed fetchers drainer out].
  rewrite Hd, Hp, Hbt, Ht', Hsl, Hc, Hcl, app_nil_r in *. rewrite Ht in Hcore.
  split; [done|]. split; [done|]. split; [|done]. unfold drain_ok in *. by rewrite Hsl, Hd.
Qed.

(** The offset of the slot the drainer looks at stays in [int64]. *)
Lemma inv_slot s : inv s →
  i64 (pos s) = pos s ∧ start ≤ pos s ≤ last ∧
  (∃ x, slots (rb s) !! idx (pos s) = Some x) ∧
  (∃ x, slots (rb s) !! idx (drainOffset (rb s)) = Some x).
Proof.
  intros (Hcap & Hcore & _). destruct (wl_bounds WL).
  assert (start ≤ pos s ≤ last) by apply Hcore.
  split; [apply sint_small; [done|unfold in_s; lia]|]. split; [done|].
  split; eapply slot_lookup, Hcore.
Qed.

(** The buffer being empty at the drain position after an orderly close, there
    is nothing left to drain. *)
Lemma inv_exhausted s x :
  inv s → closed (rb s) = true → slots (rb s) !! idx (pos s) = Some x →
  state x ≠ slotFilled →
  ctxDone s = true ∨ fetcherFailed s = true ∨ (all_returned (fetchers s) ∧ log (pos s) = None).
Proof.
  intros (Hcap & Hcore & _) Hcl Hx Hst. destruct Hcore as (_ & _ & _ & Hf & Hc & Hret).
  destruct (Hret Hcl) as [?|[?|Hall]]; [by left|right; by left|].
  simpl in Hcl. destruct (log (pos s)) as [a|] eqn:El; [|tauto].
  destruct (Hc _ _ El) as [(f & Hj & Hin)|[_ Hfull]]; [lia| |].
  - destruct (Hf _ _ Hj) as (_ & _ & Hpc). pose proof (Hall _ _ Hj) as Hr.
    unfold returned in Hr. unfold pc_ok, flags_of in Hpc.
    destruct (pc f); try done; [tauto|].
    destruct Hpc as [Ht|Hpc]; [|tauto]. rewrite Ht in Hin. by apply not_elem_of_nil in Hin.
  - rewrite (stat_lookup _ _ _ Hx) in Hfull. congruence.
Qed.

Lemma inv_scan s next b r p o :
  inv s → drainer s = DScan next b →
  DrainBatch maxBatch (ctxDone s) (rb s) (DScan next b) = Some (r, p, o) →
  inv (after s r p o).
Proof.
  intros Hinv Ep HD. pose proof (inv_slot s Hinv) as (Hi64 & Hrange & (x & Hx) & _).
  pose proof Hinv as (Hcap & _ & Hdr & _). rewrite Ep in Hdr. destruct Hdr as (-> & Hle & Hpos).
  assert (pos s = drainOffset (rb s) + Z.of_nat (length b)) as Hp by (unfold pos; by rewrite Ep).
  unfold blen in *. cbn [DrainBatch] in HD. rewrite <- Hp, Hi64, (slotIndex_idx _ _ Hcap) in HD.
  fold (idx (pos s)) in HD. rewrite Hx in HD. cbn [mbind option_bind] in HD.
  assert (b ≠ [] → 1 ≤ Z.of_nat (length b)) as Hne by (destruct b; simpl; [done|lia]).
  destruct (Z.ltb_spec (Z.of_nat (length b)) limit).
  - injection HD as <- <- <-. case_bool_decide as Hst.
    + apply inv_move; rewrite ?Ep; try done. simpl. unfold blen. rewrite <- Hp.
      split; [done|]. split; [done|]. split; [done|]. by rewrite (stat_lookup _ _ _ Hx), Hst.
    + apply inv_move; rewrite ?Ep; try done. simpl. unfold blen. split; [|done].
      destruct Hpos as [?|Hpos]; [done|]. apply Hne. intros ->. simpl in Hp.
      rewrite Z.add_0_r in Hp. rewrite <- Hp, (stat_lookup _ _ _ Hx) in Hpos. congruence.
  - injection HD as <- <- <-. apply inv_move; rewrite ?Ep; try done. simpl. unfold blen.
    pose proof limit_pos. lia.
Qed.

Lemma inv_take s next b i r p o :
  inv s → drainer s = DTake next b i →
  DrainBatch maxBatch (ctxDone s) (rb s) (DTake next b i) = Some (r, p, o) →
  inv (after s r p o).
Proof.
  intros Hinv Ep HD. pose proof (inv_slot s Hinv) as (Hi64 & Hrange & (x & Hx) & _).
  pose proof Hinv as (Hcap & Hcore & Hdr & _). rewrite Ep in Hdr.
  destruct Hdr as (-> & Hle & -> & Hfull).
  assert (pos s = drainOffset (rb s) + blen b) as Hp by (unfold pos; by rewrite Ep).
  rewrite <- Hp in *. cbn [DrainBatch] in HD. rewrite Hx in HD.
  cbn [mbind option_bind] in HD. injection HD as <- <- <-.
  rewrite (stat_lookup _ _ _ Hx) in Hfull. injection Hfull as Hst.
  destruct Hcore as ((_ & Hsl) & _). destruct (wl_cap WL).
  specialize (Hsl (pos s) x ltac:(lia) Hx). rewrite Hst, Ep in Hsl.
  destruct Hsl as [_ [[? _]|Hrec]]; [done|].
  apply inv_move; rewrite ?Ep; try done. simpl. rewrite <- Hp.
  split; [done|]. split; [done|]. split; [done|]. split; [|done].
  by rewrite (stat_lookup _ _ _ Hx), Hst.
Qed.

Lemma inv_clear s next b i rec r p o :
  inv s → drainer s = DClear next b i rec →
  DrainBatch maxBatch (ctxDone s) (rb s) (DClear next b i rec) = Some (r, p, o) →
  inv (after s r p o).
Proof.
  intros Hinv Ep HD. pose proof (inv_slot s Hinv) as (Hi64 & Hrange & (x & Hx) & _).
  pose proof Hinv as (Hcap & Hcore & Hdr & Hout & Hb). rewrite Ep in Hdr, Hcore.
  destruct Hdr as (-> & Hle & -> & Hfull & Hrec).
  assert (pos s = drainOffset (rb s) + blen b) as Hp by (unfold pos; by rewrite Ep).
  rewrite <- Hp in *. cbn [DrainBatch] in HD. rewrite Hx in HD.
  cbn [mbind option_bind] in HD. injection HD as <- <- <-.
  rewrite (stat_lookup _ _ _ Hx) in Hfull. injection Hfull as Hst.
  pose proof (core_clear _ _ _ _ _ Hcore Hx Hst) as Hcore'.
  unfold inv, after, delivered, flags_of, pos in *. rewrite Ep in *.
  cbn [rb ctxDone fetcherFailed fetchers drainer out batch_of dpos taking_of] in *.
  rewrite app_nil_r. split; [done|]. split; [exact Hcore'|]. split; [|done].
  simpl. split; [done|]. split; [done|]. split; [done|].
  split; [|done]. unfold stat. rewrite list_lookup_insert_eq by (by eapply lookup_lt_Some).
  simpl. by rewrite Hst.
Qed.

Lemma inv_free s next b i rec r p o :
  inv s → drainer s = DFree next b i rec →
  DrainBatch maxBatch (ctxDone s) (rb s) (DFree next b i rec) = Some (r, p, o) →
  inv (after s r p o).
Proof.
  intros Hinv Ep HD. pose proof (inv_slot s Hinv) as (Hi64 & Hrange & (x & Hx) & _).
  pose proof Hinv as (Hcap & Hcore & Hdr & [Hout Hsome] & Hb). rewrite Ep in Hdr, Hcore.
  destruct Hdr as (-> & Hle & -> & Hfull & Hrec).
  assert (pos s = drainOffset (rb s) + blen b) as Hp by (unfold pos; by rewrite Ep).
  rewrite <- Hp in *. cbn [DrainBatch] in HD. rewrite Hx in HD.
  cbn [mbind option_bind] in HD. injection HD as <- <- <-.
  rewrite (stat_lookup _ _ _ Hx) in Hfull. injection Hfull as Hst.
  pose proof (core_free _ _ _ _ _ Hcore Hx Hst) as Hcore'.
  assert (is_Some (log (pos s))) as Hlog.
  { destruct Hcore as ((_ & Hsl) & _). destruct (wl_cap WL).
    specialize (Hsl (pos s) x ltac:(lia) Hx). rewrite Hst in Hsl. apply Hsl. }
  assert (pos (after s (set_slot (idx (pos s)) (with_state slotEmpty x) (rb s))
    (DScan (drainOffset (rb s)) (b ++ [rec])) []) = pos s + 1) as Hp'.
  { unfold pos at 1. simpl. rewrite length_app, Hp. unfold blen. simpl. lia. }
  unfold inv. rewrite Hp'. unfold delivered, flags_of in *. rewrite Ep in Hout.
  cbn [after rb ctxDone fetcherFailed fetchers drainer out batch_of taking_of] in *.
  rewrite app_nil_r. split; [done|]. split; [exact Hcore'|].
  split; [|split; [split|done]].
  - simpl. unfold blen in *. rewrite length_app. simpl. split; [done|]. lia.
  - rewrite app_assoc, Hout, Hrec.
    replace (pos s + 1 - start) with (pos s - start + 1) by lia.
    rewrite seqZ_app, fmap_app by lia. f_equal. rewrite seqZ_cons, seqZ_nil by lia.
    simpl. by rewrite Zplus_minus.
  - intros q Hq. destruct (decide (q = pos s)) as [->|]; [done|]. apply Hsome. lia.
Qed.

Lemma inv_add s b r p o :
  inv s → drainer s = DAdd b →
  DrainBatch maxBatch (ctxDone s) (rb s) (DAdd b) = Some (r, p, o) →
  inv (after s r p o).
Proof.
  intros Hinv Ep HD. pose proof (inv_slot s Hinv) as (Hi64 & Hrange & _).
  pose proof Hinv as (Hcap & Hcore & Hdr & Hout & Hb). rewrite Ep in Hdr, Hcore.
  assert (pos s = drainOffset (rb s) + blen b) as Hp by (unfold pos; by rewrite Ep).
  cbn [DrainBatch] in HD. fold (blen b) in HD. rewrite <- Hp, Hi64 in HD.
  injection HD as <- <- <-.
  unfold inv, delivered, flags_of in *. rewrite Ep in Hout.
  cbn [after rb ctxDone fetcherFailed fetchers drainer out batch_of taking_of] in *.
  rewrite app_nil_r. done.
Qed.

Lemma inv_broadcast s b r p o :
  inv s → drainer s = DBroadcast b →
  DrainBatch maxBatch (ctxDone s) (rb s) (DBroadcast b) = Some (r, p, o) →
  inv (after s r p o).
Proof.
  intros Hinv Ep HD. pose proof Hinv as (Hcap & Hcore & Hdr & Hout & Hb).
  cbn [DrainBatch] in HD. injection HD as <- <- <-.
  unfold inv, pos, delivered, flags_of in *. rewrite Ep in Hout, Hdr, Hcore.
  cbn [after rb ctxDone fetcherFailed fetchers drainer out batch_of taking_of dpos
    Broadcast set_cond capacity slots drainOffset closed] in *.
  rewrite concat_app, app_nil_r. cbn [concat]. rewrite app_nil_r.
  split; [done|]. split; [done|]. split; [done|]. split; [done|].
  apply Forall_app. split; [done|]. by constructor.
Qed.

(** The waiting part of [DrainBatch]: no slot is touched. *)
Lemma inv_wait s p' r' o' :
  inv s → batch_of (drainer s) = [] → dpos (drainOffset (rb s)) (drainer s) = drainOffset (rb s) →
  taking_of (drainer s) = false →
  match drainer s with
  | DScan _ _ | DBroadcast _ | DAdd _ | DTake _ _ _ | DClear _ _ _ _ => False
  | _ => True
  end →
  DrainBatch maxBatch (ctxDone s) (rb s) (drainer s) = Some (r', p', o') →
  inv (after s r' p' o').
Proof.
  intros Hinv Hbt Hpos Htk Hpc HD.
  pose proof (inv_slot s Hinv) as (Hi64 & Hrange & (x & Hx) & _).
  pose proof Hinv as (Hcap & Hcore & Hdr & _).
  assert (pos s = drainOffset (rb s)) as Hp by done. rewrite Hp in *.
  assert (stat (slots (rb s)) (drainOffset (rb s)) = Some (state x)) as Hstat
    by (by apply stat_lookup).
  assert (∀ p r, slots r = slots (rb s) → capacity r = capacity (rb s) →
    drainOffset r = drainOffset (rb s) → closed r = closed (rb s) →
    dpos (drainOffset (rb s)) p = drainOffset (rb s) → batch_of p = [] →
    taking_of p = false → drain_ok (rb s) (flags_of s) (fetchers s) p →
    inv (after s r p [])) as Hmove.
  { intros. apply inv_move; congruence || done. }
  unfold DrainBatch in HD. unfold drain_ok, flags_of in *.
  destruct (drainer s) as [| n i| n i| n i| n i| n i| n i| n i| n i| n i| n| | | | | | | |]
    eqn:Ep; try done.
  all: try (destruct Hdr as (-> & -> & Hdr)).
  all: try match type of Hdr with _ ∧ _ => destruct Hdr as [-> Hdr]; try subst i end.
  all: rewrite ?(slotIndex_idx _ _ Hcap), ?Hx in HD; cbn [mbind option_bind] in HD.
  all: try (case_bool_decide as Hin; [done|]).
  all: try (destruct (lock 0 (rb s)) as [r1|] eqn:Hlk; [|done]; apply lock_Some in Hlk as ->).
  all: cbn [mbind option_bind] in HD; try (injection HD as <- <- <-).
  all: try (by apply Hmove).
  - case_bool_decide as Hst; apply Hmove; try done. simpl. rewrite Hstat, Hst. tauto.
  - destruct (closed (rb s)) eqn:Hcl; apply Hmove; try done; simpl; rewrite ?Hcl; tauto.
  - destruct (ctxDone s) eqn:Hctx; apply Hmove; try done; simpl; tauto.
  - destruct (closed (rb s)) eqn:Hcl; apply Hmove; try done; simpl.
    by destruct Hdr as [?|[?|?]]; auto.
  - case_bool_decide as Hst; apply Hmove; try done; simpl.
    + rewrite Hstat, Hst. tauto.
    + rewrite <- Hp. by apply (inv_exhausted s x); [done|done|rewrite Hp|].
  - pose proof limit_pos. destruct (ctxDone s) eqn:Hctx; apply Hmove; try done; simpl.
    + by left.
    + lia.
    + unfold blen. simpl. split; [done|]. split; [lia|]. destruct Hdr; [by right|done].
Qed.

Lemma inv_drain s s' : inv s → step maxBatch EvDrain s = Some s' → inv s'.
Proof.
  intros Hinv Hstep. apply bind_Some in Hstep as ([[r p] o] & HD & [= <-]).
  fold (after s r p o).
  destruct (drainer s) eqn:Ep;
    eauto using inv_scan, inv_take, inv_clear, inv_free, inv_add, inv_broadcast;
    rewrite <- Ep in HD; (apply inv_wait; [done|by rewrite Ep..|done]).
Qed.

Lemma inv_step s s' : inv s → ring_step maxBatch s s' → inv s'.
Proof.
  intros Hinv [e Hstep]. pose proof Hinv as (_ & (_ & _ & _ & _ & _ & Hret) & _).
  destruct e as [j k|j| | |j| |]; [by eapply inv_put| |by eapply inv_drain|..]; simpl in Hstep.
  - apply bind_Some in Hstep as (f & Hj & Hstep). unfold may_return in Hstep.
    destruct (pc f) eqn:Ep; try done. destruct (ctxDone s) eqn:Ec, (todo f) eqn:Et; try done;
      injection Hstep as <-; rewrite <- Ec; apply inv_leave; auto.
  - injection Hstep as <-. apply inv_flags; try done. by left.
  - apply bind_Some in Hstep as (f & Hj & Hstep). destruct (pc f) eqn:Ep; try done.
    injection Hstep as <-.
    eapply (inv_leave {| rb := CloseWithError (rb s); ctxDone := ctxDone s; fetcherFailed := true;
      fetchers := fetchers s |}); [|done|done|by right; right].
    apply inv_flags; try done. by right; left.
  - destruct (forallb returned (fetchers s)) eqn:Hall; [|done]. injection Hstep as <-.
    apply inv_flags; try done. intros _. right; right. intros j f Hj.
    rewrite forallb_forall in Hall. apply Hall. apply list_elem_of_In.
    by eapply list_elem_of_lookup_2.
  - destruct (broadcasts s); [done|]. injection Hstep as <-. by apply inv_flags.
Qed.

Lemma inv_start r :
  NewOrderedRingBuffer cap start = Ok r → inv (start_pipeline r loads).
Proof.
  intros Hr. destruct (wl_cap WL), (wl_bounds WL). unfold NewOrderedRingBuffer in Hr.
  rewrite (proj2 (Z.ltb_ge _ _)) in Hr by lia. injection Hr as <-.
  assert (∀ o, stat (replicate (Z.to_nat cap) emptySlot) o = Some slotEmpty) as Hempty.
  { intros o. unfold stat. by rewrite lookup_replicate_2 by apply idx_lt. }
  split; [apply sint_small; [done|unfold in_s; lia]|]. split; [|split; [done|split; [split|done]]].
  2:{ unfold pos. simpl. by rewrite Z.sub_diag, seqZ_nil. }
  2:{ unfold pos. simpl. lia. }
  unfold pos, flags_of. simpl. split; [|split; [lia|split; [by rewrite length_fmap|]]].
  { split; [apply length_replicate|]. intros o x _ [-> _]%lookup_replicate. done. }
  split; [|split; [|done]].
  - intros j f (w & -> & Hw)%list_lookup_fmap_Some. destruct (wl_load WL j w Hw) as [Hs Hp].
    split; [done|]. split; [|done]. intros o a Hin. rewrite Forall_forall in Hp.
    destruct (Hp _ Hin) as [Ho Hlo]. simpl in Ho, Hlo. repeat split; [done|done| |done].
    apply (wl_range WL). eauto.
  - intros o a Hlo _. left. destruct (wl_all WL o a Hlo) as (w & Hw & Hin).
    exists {| todo := w; pc := PutCall |}. by rewrite list_lookup_fmap, Hw.
Qed.

Lemma inv_reachable r s :
  NewOrderedRingBuffer cap start = Ok r →
  rtc (ring_step maxBatch) (start_pipeline r loads) s → inv s.
Proof.
  intros Hr Hrtc. eapply (rtc_invariant _ inv); [exact inv_step|by apply inv_start|done].
Qed.

(** ** Properties *)

Lemma prefix_of_seqZ {B} (f : Z → B) a n l1 l2 :
  l1 ++ l2 = f <$> seqZ a n → l1 = f <$> seqZ a (Z.of_nat (length l1)).
Proof.
  intros H. symmetry in H. apply fmap_app_inv in H as (k1 & k2 & -> & -> & H).
  rewrite length_fmap. f_equal.
  assert (Z.of_nat (length k1) + Z.of_nat (length k2) = Z.max 0 n) as Hl.
  { rewrite <- Nat2Z.inj_add, <- length_app, <- H, length_seqZ. lia. }
  destruct (decide (n ≤ 0)).
  { destruct k1; [done|]. simpl in Hl. lia. }
  replace n with (Z.of_nat (length k1) + Z.of_nat (length k2)) in H by lia.
  rewrite seqZ_app in H by lia. apply app_inj_1 in H as [H _]; [done|].
  rewrite length_seqZ. lia.
Qed.

Lemma inv_out s : inv s →
  let n := Z.of_nat (length (concat (out s))) in
  concat (out s) = log <$> seqZ start n ∧ start + n ≤ pos s ∧
  ∀ o, start ≤ o < start + n → is_Some (log o).
Proof.
  intros Hinv n. pose proof (inv_slot s Hinv) as (_ & Hrange & _).
  destruct Hinv as (_ & _ & _ & [Hout Hsome] & _). unfold delivered in Hout.
  assert (start + n ≤ pos s).
  { assert (length (concat (out s) ++ batch_of (drainer s)) = Z.to_nat (pos s - start)) as Hl
      by (by rewrite Hout, length_fmap, length_seqZ).
    rewrite length_app in Hl. subst n. lia. }
  split; [by eapply prefix_of_seqZ|]. split; [done|]. intros o Ho. apply Hsome. lia.
Qed.

(** What has been delivered is the log from the start offset on. *)
Lemma out_prefix r s :
  NewOrderedRingBuffer cap start = Ok r →
  rtc (ring_step maxBatch) (start_pipeline r loads) s →
  ∃ n, 0 ≤ n ∧ concat (out s) = log <$> seqZ start n ∧
       ∀ o, start ≤ o < start + n → is_Some (log o).
Proof.
  intros Hr Hrtc. destruct (inv_out s (inv_reachable r s Hr Hrtc)) as (Hout & _ & Hsome).
  exists (Z.of_nat (length (concat (out s)))). split; [lia|done].
Qed.

(** A drain that has ended by itself has delivered everything up to a gap. *)
Lemma out_complete r s :
  NewOrderedRingBuffer cap start = Ok r →
  rtc (ring_step maxBatch) (start_pipeline r loads) s →
  drainer s = DrainFalse → fetcherFailed s = false → ctxDone s = false →
  ∃ n, 0 ≤ n ∧ concat (out s) = log <$> seqZ start n ∧ log (start + n) = None ∧
    ((∀ o, start ≤ o < last → is_Some (log o)) → n = last - start).
Proof.
  intros Hr Hrtc Hd Hbad Hctx. pose proof (inv_reachable r s Hr Hrtc) as Hinv.
  pose proof (inv_slot s Hinv) as (_ & Hrange & _).
  destruct Hinv as (_ & _ & Hdr & [Hout _] & _).
  unfold drain_ok, flags_of, delivered, pos in *. rewrite Hd, Hbad, Hctx in *.
  destruct Hdr as [?|[?|[_ Hnone]]]; [done..|]. simpl in *. rewrite app_nil_r in Hout.
  exists (drainOffset (rb s) - start). split; [lia|]. split; [done|].
  rewrite Zplus_minus. split; [done|]. intros Hdense.
  destruct (decide (drainOffset (rb s) < last)); [|lia].
  destruct (Hdense (drainOffset (rb s))); [lia|congruence].
Qed.

(** C7. In-order delivery under every interleaving: whatever the schedule of the
    fetchers, the drainer, the closes and a cancellation, the batches that
    [DrainBatch] returns are, put together, the records of the partition from
    the start offset on, each one exactly once, in offset order and without a
    gap; no batch is empty or longer than the limit. This holds when the range
    fits the buffer, for any number of fetchers, and for a range of any size
    when there is one fetcher and no offset is missing. *)
Theorem ring_in_order r s :
  NewOrderedRingBuffer cap start = Ok r →
  rtc (ring_step maxBatch) (start_pipeline r loads) s →
  (∃ n, 0 ≤ n ∧ concat (out s) = log <$> seqZ start n ∧
        ∀ o, start ≤ o < start + n → is_Some (log o)) ∧
  Forall (λ b, 1 ≤ Z.of_nat (length b) ≤ batch_limit maxBatch) (out s).
Proof.
  intros Hr Hrtc. split; [by apply out_prefix with r|]. by apply (inv_reachable r s Hr Hrtc).
Qed.

(** Nothing is lost in the buffer: in every reachable state each record of
    the partition has been taken by the drainer, or sits in a filled slot, or is
    still to be published by its fetcher. *)
Theorem ring_conserves r s o a :
  NewOrderedRingBuffer cap start = Ok r →
  rtc (ring_step maxBatch) (start_pipeline r loads) s →
  log o = Some a →
  Some a ∈ delivered s ∨
  (∃ x, slots (rb s) !! idx o = Some x ∧ state x = slotFilled) ∨
  (∃ j f, fetchers s !! j = Some f ∧ (o, a) ∈ todo f).
Proof.
  intros Hr Hrtc Hlo. pose proof (inv_reachable r s Hr Hrtc) as Hinv.
  destruct Hinv as (_ & Hcore & _ & [Hout _] & _).
  destruct (decide (o < pos s)) as [Hlt|Hge].
  - left. rewrite Hout. apply list_elem_of_fmap. exists o. split; [done|].
    apply elem_of_seqZ. pose proof (wl_range WL o ltac:(eauto)). lia.
  - right. destruct Hcore as (_ & _ & _ & _ & Hc & _).
    destruct (Hc o a Hlo) as [(f & Hf & Hin)|[_ Hfull]]; [lia|right; eauto|left].
    by apply fmap_Some in Hfull as (x & Hx & Hst); eauto.
Qed.

(** C8. A drain that ends by itself is complete: if no fetcher failed and the
    context was not cancelled, then when [DrainBatch] has reported the end the
    drainer has delivered every record up to the first missing offset; when no
    offset is missing that is the whole range. The buffer has a slot and every
    fetcher puts its records in ascending order; and, as for the order of the
    batches, the range fits the buffer, for any number of fetchers, or there is one
    fetcher and no offset of the range is missing ([workload_ok]). Several fetchers
    on a range larger than the buffer, as in the engine's default catch-up, are
    outside the theorem: they can lose the order
    ([Disorder.default_catchup_disorder]). *)
Theorem ring_complete r s :
  NewOrderedRingBuffer cap start = Ok r →
  rtc (ring_step maxBatch) (start_pipeline r loads) s →
  drainer s = DrainFalse → fetcherFailed s = false → ctxDone s = false →
  ∃ n, 0 ≤ n ∧ concat (out s) = log <$> seqZ start n ∧ log (start + n) = None ∧
    ((∀ o, start ≤ o < last → is_Some (log o)) → n = last - start).
Proof. apply out_complete. Qed.

End safety.

(** ** Schedules *)

Lemma run_rtc {A} maxBatch (es : list event) (s s' : pipeline A) :
  run maxBatch es s = Some s' → rtc (ring_step maxBatch) s s'.
Proof.
  unfold run. revert s. induction es as [|e es IH]; intros s; simpl.
  - intros [= <-]. apply rtc_refl.
  - destruct (step maxBatch e s) as [s1|] eqn:E.
    + intros Hr. eapply rtc_l; [by exists e|by apply IH].
    + assert (∀ es, foldl (λ m e, m ≫= step maxBatch e) (None : option (pipeline A)) es = None)
        as -> by (clear; induction es; done). done.
Qed.

(** Records that carry their own offset. *)
Definition ex_log (lo hi o : Z) : option Z := if (lo <=? o) && (o <? hi) then Some o else None.
Definition ex_load (lo hi : Z) : list (Z * Z) := (λ o, (o, o)) <$> seqZ lo (hi - lo).
Definition ex_ring (cap start : Z) : OrderedRingBuffer Z :=
  {| slots := replicate (Z.to_nat cap) emptySlot; capacity := i64 cap;
     drainOffset := start; mu := None; cond := []; closed := false |}.

Lemma ex_load_elem lo hi p : p ∈ ex_load lo hi ↔ p.1 = p.2 ∧ lo ≤ p.1 < hi.
Proof.
  unfold ex_load. rewrite list_elem_of_fmap. split.
  - intros (o & -> & Ho%elem_of_seqZ). simpl. split; [done|lia].
  - intros [Hp Ho]. exists p.1. split; [destruct p; simpl in *; congruence|].
    apply elem_of_seqZ. lia.
Qed.

Lemma ex_log_Some lo hi o a : ex_log lo hi o = Some a ↔ a = o ∧ lo ≤ o < hi.
Proof.
  unfold ex_log. destruct ((lo <=? o) && (o <? hi)) eqn:E; b2p.
  - split; [intros [= ->]; lia|]. intros [-> _]. done.
  - split; [done|]. intros [_ ?]. destruct E; b2p; lia.
Qed.

Lemma ex_load_sorted lo hi : StronglySorted Z.lt (ex_load lo hi).*1.
Proof.
  unfold ex_load. rewrite <- list_fmap_compose, list_fmap_id.
  remember (Z.to_nat (hi - lo)) as n eqn:Hn. revert lo Hn.
  induction n as [|n IH]; intros lo Hn.
  - rewrite seqZ_nil by lia. constructor.
  - rewrite seqZ_cons by lia. constructor.
    + replace (Z.pred (hi - lo)) with (hi - Z.succ lo) by lia. apply IH. lia.
    + apply Forall_forall. intros x Hx%elem_of_seqZ. lia.
Qed.

(** One fetcher and a range without gaps. *)
Lemma ex_single cap lo hi :
  0 < cap < 2 ^ 63 → - 2 ^ 63 ≤ lo ≤ hi → hi < 2 ^ 63 →
  workload_ok cap lo hi (ex_log lo hi) (λ _, 0%nat) [ex_load lo hi].
Proof.
  intros Hc Hlo Hhi. split; [done|lia|..].
  - intros o [a [_ ?]%ex_log_Some]. done.
  - intros [|j] w [= <-]. split; [apply ex_load_sorted|].
    apply Forall_forall. intros p [Hp Ho]%ex_load_elem. split; [done|].
    by apply ex_log_Some.
  - intros o a [-> Ho]%ex_log_Some. eexists. split; [done|]. by apply ex_load_elem.
  - right. split; [done|]. intros o Ho. exists o. by apply ex_log_Some.
Qed.

(** A fetcher publishes two records; the drainer takes them; the third follows
    and the owner closes the buffer. *)
Definition ex_schedule : list event :=
  replicate 12 (EvPut 0 0) ++ replicate 17 EvDrain ++ replicate 6 (EvPut 0 0) ++
  [EvReturn 0; EvClose; EvBroadcast] ++ replicate 14 EvDrain ++ replicate 7 EvDrain.

Definition ex_final (s : option (pipeline Z)) : option (list (list (option Z)) * bool) :=
  s ← s; Some (out s, match drainer s with DrainFalse => true | _ => false end).

Lemma ex_ring_new cap start :
  0 ≤ cap → NewOrderedRingBuffer cap start = Ok (ex_ring cap start).
Proof. intros. unfold NewOrderedRingBuffer. by rewrite (proj2 (Z.ltb_ge _ _)) by lia. Qed.

(** What the schedule ends in. *)
Definition ex_end : pipeline Z :=
  default (start_pipeline (ex_ring 2 5) [])
    (run 2 ex_schedule (start_pipeline (ex_ring 2 5) [ex_load 5 8])).

Lemma ex_end_reachable :
  rtc (ring_step 2) (start_pipeline (ex_ring 2 5) [ex_load 5 8]) ex_end.
Proof. apply (run_rtc 2 ex_schedule). vm_compute. reflexivity. Qed.

Lemma ex_workload : workload_ok 2 5 8 (ex_log 5 8) (λ _, 0%nat) [ex_load 5 8].
Proof. apply ex_single; lia. Qed.

Lemma ring_in_order_witness :
  out ex_end = [[Some 5; Some 6]; [Some 7]] ∧
  ∃ n, 0 ≤ n ∧ concat (out ex_end) = ex_log 5 8 <$> seqZ 5 n.
Proof.
  split; [vm_compute; reflexivity|].
  destruct (ring_in_order _ _ _ _ _ _ _ ex_workload _ _ (ex_ring_new 2 5 ltac:(lia))
    ex_end_reachable) as [(n & Hn & Hout & _) _].
  exists n. split; [exact Hn|exact Hout].
Defined.

Lemma ring_conserves_witness :
  Some 6 ∈ delivered ex_end ∨
  (∃ x, slots (rb ex_end) !! idx 2 6 = Some x ∧ state x = slotFilled) ∨
  (∃ j f, fetchers ex_end !! j = Some f ∧ (6, 6) ∈ todo f).
Proof.
  refine (ring_conserves _ _ _ _ _ _ _ ex_workload _ _ 6 6 (ex_ring_new 2 5 ltac:(lia))
    ex_end_reachable _). vm_compute. reflexivity.
Defined.

Lemma ring_complete_witness :
  ∃ n, 0 ≤ n ∧ concat (out ex_end) = ex_log 5 8 <$> seqZ 5 n ∧ ex_log 5 8 (5 + n) = None.
Proof.
  destruct (ring_complete _ _ _ _ _ _ _ ex_workload _ _ (ex_ring_new 2 5 ltac:(lia))
    ex_end_reachable) as (n & Hn & Hout & Hnone & _); [vm_compute; reflexivity..|].
  exists n. split; [exact Hn|]. split; [exact Hout|exact Hnone].
Defined.

(** ** What happens outside these workloads *)

(** A lost wakeup: [Signal] and the broadcast of [Close] are made without the
    mutex, so both can fall between the drainer's test of the slot and its entry
    into [cond.Wait]. Then the record is in its slot, the buffer is closed, all
    fetchers have returned, and no goroutine can ever run again, not even after
    a cancellation of the context: [catchUpPartitionPipelined] waits for its
    drainer for ever. *)
Theorem lost_wakeup_reachable :
  ∃ s : pipeline Z,
    rtc (ring_step 512) (start_pipeline (ex_ring 4 0) [ex_load 0 1]) s ∧
    (∃ x, slots (rb s) !! 0%nat = Some x ∧ state x = slotFilled ∧ record x = Some 0) ∧
    closed (rb s) = true ∧ forallb returned (fetchers s) = true ∧ out s = [] ∧
    (∀ s', rtc (λ s s', ∃ e, (e ≠ EvClose ∧ step 512 e s = Some s')) s s' →
       out s' = [] ∧ drainer s' = drainer s ∧ step 512 EvDrain s' = None).
Proof.
  destruct (run 512 (replicate 5 EvDrain ++ replicate 6 (EvPut 0 0) ++
    [EvReturn 0; EvClose; EvBroadcast; EvDrain]) (start_pipeline (ex_ring 4 0) [ex_load 0 1]))
    as [s|] eqn:Hs; [|vm_compute in Hs; discriminate Hs].
  exists s. split; [by eapply run_rtc|]. vm_compute in Hs. injection Hs as <-.
  split; [by eexists|]. do 3 (split; [done|]). intros s' Hr.
  match type of Hr with rtc _ ?s0 _ => set (s1 := s0) in * end.
  assert (rb s' = rb s1 ∧ broadcasts s' = 0%nat ∧ fetchers s' = fetchers s1 ∧
    drainer s' = drainer s1 ∧ out s' = []) as (Hrb & _ & _ & Hd & Ho).
  { apply (rtc_invariant _ (λ s', rb s' = rb s1 ∧ broadcasts s' = 0%nat ∧
      fetchers s' = fetchers s1 ∧ drainer s' = drainer s1 ∧ out s' = []))
      in Hr; [done| |done].
    clear. intros x y (Hrb & Hb & Hf & Hd & Ho) (e & He & Hstep).
    destruct e as [[|j] k|[|j]| | |[|j]| |]; simpl in Hstep; rewrite ?Hrb, ?Hb, ?Hf, ?Hd in Hstep;
      try done. by injection Hstep as <-. }
  split; [done|]. split; [done|]. simpl. by rewrite Hrb, Hd.
Qed.

(** Out of order: [Put] does not test that its offset is within [capacity] of
    the drain position, and [DrainBatch] does not test the offset of the slot it
    takes. With a range larger than the buffer, a second fetcher that is ahead
    puts offset 2 into the slot where the drainer expects offset 0, and the
    drainer delivers it first. *)
Theorem out_of_window_disorder :
  ∃ s : pipeline Z,
    rtc (ring_step 512) (start_pipeline (ex_ring 2 0) [ex_load 0 2; ex_load 2 4]) s ∧
    concat (out s) = [Some 2] ∧ ex_log 0 4 0 = Some 0 ∧ drainOffset (rb s) = 1 ∧
    ∀ s', rtc (ring_step 512) s s' → head (concat (out s')) = Some (Some 2).
Proof.
  destruct (run 512 (replicate 6 (EvPut 1 0) ++ replicate 13 EvDrain)
    (start_pipeline (ex_ring 2 0) [ex_load 0 2; ex_load 2 4]))
    as [s|] eqn:Hs; [|vm_compute in Hs; discriminate Hs].
  exists s. split; [by eapply run_rtc|]. vm_compute in Hs. injection Hs as <-.
  do 3 (split; [done|]). intros s' Hr.
  apply (rtc_invariant _ (λ s', head (concat (out s')) = Some (Some 2))) in Hr; [done| |done].
  clear. intros x y Hx [e Hstep].
  assert (∃ o, out y = out x ++ o) as [o ->].
  { destruct e as [j k|j| | |j| |]; simpl in Hstep.
    all: repeat match type of Hstep with
      | (_ ≫= _) = Some _ => apply bind_Some in Hstep as (? & _ & Hstep)
      | context [let '(_, _) := ?x in _] => destruct x
      end.
    all: repeat case_match; simplify_eq/=; try (by exists []; rewrite app_nil_r).
    by eexists. }
  rewrite concat_app. destruct (concat (out x)); [done|exact Hx].
Qed.
