(* ===== verification/RingEnds.v ===== *)
(** * Every schedule of a ring buffer ends

    A measure descends with each step of a fetcher or of the drainer, so the steps
    of a schedule are bounded by what there is to publish: for any distribution of
    the records over any number of fetchers, and for a buffer of any capacity. *)
From S2P Require Import Prelude RingBuffer.

Local Open Scope nat_scope.

(** ** The measure *)

(** Steps of goroutines, as opposed to what their owner and the outside do. *)
Definition worker (e : event) : bool :=
  match e with EvPut _ _ | EvReturn _ | EvDrain | EvBroadcast => true | _ => false end.

(** The steps a fetcher takes at most before it publishes or falls asleep. *)
Definition put_rank (sleeps : bool) (p : put_pc) : nat :=
  match p with
  | PutCall => 19
  | FastLoad _ => 18 | FastRecord _ => 17 | FastOffset _ => 16 | FastCAS _ => 15
  | SlowLock _ => 14 | Asleep _ => if sleeps then 0 else 14
  | WhileState _ => 13 | WhileClosed _ => 12 | WhileCtx _ => 11 | EnterWait _ => 10
  | SlowUnlock _ => 9 | IfClosed _ => 8 | IfCtx _ => 7
  | SlowRecord _ => 6 | SlowOffset _ => 5 | SlowStore _ => 4
  | PutSignal => 3
  | PutFalse | PutPanic | Returned => 0
  end.

(** The steps the drainer takes at most before it frees a slot or falls asleep. *)
Definition drain_rank {A} (sleeps : bool) (p : drain_pc A) : nat :=
  match p with
  | DrainCall => 17
  | DLock _ _ => 16 | DAsleep _ _ => if sleeps then 0 else 16
  | DWhileState _ _ => 15 | DWhileClosed _ _ => 14 | DWhileCtx _ _ => 13 | DEnterWait _ _ => 12
  | DUnlock _ _ => 11 | DIfClosed _ _ => 10 | DIfState _ _ => 9 | DIfCtx _ => 8
  | DScan _ _ => 7 | DTake _ _ _ => 6 | DClear _ _ _ _ => 5 | DFree _ _ _ _ => 4
  | DAdd _ => 3 | DBroadcast _ => 2
  | DrainFalse | DrainPanic => 0
  end.

(** What a fetcher has still to publish and to signal. *)
Definition put_work {A} (f : fetcher A) : nat :=
  5 * length (todo f) + match pc f with PutSignal => 1 | _ => 0 end.

(** ** Sums over the fetchers *)

(** Replacing one element, and what the others count for not at all. *)
Lemma sum_imap_insert {B} (g g' : nat → B → nat) l j x y :
  l !! j = Some x → (∀ i z, i ≠ j → g' i z = g i z) →
  sum_list (imap g' (<[j := y]> l)) + g j x = sum_list (imap g l) + g' j y.
Proof.
  revert g g' j. induction l as [|z l IH]; intros g g' [|j] Hj Hg; simplify_eq/=.
  - rewrite (imap_ext (g' ∘ S) (g ∘ S)); [lia|]. intros i z _. by apply Hg.
  - rewrite (Hg 0 z) by done. specialize (IH (g ∘ S) (g' ∘ S) j Hj). unfold compose in *.
    rewrite <- Nat.add_assoc, IH; [lia|]. intros i u Hi. apply Hg. congruence.
Qed.

Lemma sum_imap_ext {B} (g g' : nat → B → nat) l :
  (∀ i z, g' i z = g i z) → sum_list (imap g' l) = sum_list (imap g l).
Proof. intros Hg. f_equal. apply imap_ext. auto. Qed.

Lemma sum_imap_bound {B} (g : nat → B → nat) m l :
  (∀ i z, g i z ≤ m) → sum_list (imap g l) ≤ m * length l.
Proof.
  intros Hg. revert g Hg. induction l as [|x l IH]; intros g Hg; simpl; [lia|].
  pose proof (Hg 0 x). specialize (IH (g ∘ S) (λ i, Hg (S i))). lia.
Qed.

Definition put_ranks {A} (c : list nat) (fs : list (fetcher A)) : nat :=
  sum_list (imap (λ j f, put_rank (bool_decide (S j ∈ c)) (pc f)) fs).
Definition put_works {A} (fs : list (fetcher A)) : nat := sum_list (imap (λ _, put_work) fs).

Lemma run_cons {A} maxBatch e es (s s' : pipeline A) :
  run maxBatch (e :: es) s = Some s' →
  ∃ s1, step maxBatch e s = Some s1 ∧ run maxBatch es s1 = Some s'.
Proof.
  unfold run. cbn [foldl]. change (Some s ≫= step maxBatch e) with (step maxBatch e s).
  destruct (step maxBatch e s) as [s1|]; [by exists s1|].
  assert (foldl (λ m e, m ≫= step maxBatch e) (None : option (pipeline A)) es = None) as ->; [|done].
  by induction es.
Qed.

(** ** Filled slots *)

Definition full {A} (x : ringSlot A) : nat := if bool_decide (state x = slotFilled) then 1 else 0.
Definition filled {A} (r : OrderedRingBuffer A) : nat := sum_list (imap (λ _, full) (slots r)).

Lemma filled_set {A} i x y (r : OrderedRingBuffer A) :
  slots r !! i = Some x → filled (set_slot i y r) + full x = filled r + full y.
Proof. intros Hx. by apply (sum_imap_insert (λ _, full) (λ _, full)). Qed.

Lemma full_le {A} (x : ringSlot A) : full x ≤ 1.
Proof. unfold full. case_bool_decide; lia. Qed.

(** A step of [Put] publishes or signals, or comes closer to it; it empties no
    slot. *)
Lemma Put_descends {A} tid k ctx (r : OrderedRingBuffer A) f r' f' :
  Put tid k ctx r f = Some (r', f') →
  put_work f' + 3 * filled r' < put_work f + 3 * filled r ∨
  (put_work f' + 3 * filled r' = put_work f + 3 * filled r ∧
   put_rank (bool_decide (tid ∈ cond r')) (pc f') < put_rank (bool_decide (tid ∈ cond r)) (pc f) ∧
   ∀ t, t ≠ tid → (t ∈ cond r' ↔ t ∈ cond r)).
Proof.
  assert (∀ (x : ringSlot A) i y, slots r !! i = Some x → full y = full x →
    filled (set_slot i y r) = filled r) as Hsame.
  { intros x i y Hx Hy. pose proof (filled_set i x y r Hx). lia. }
  assert (∀ (x : ringSlot A) i y, slots r !! i = Some x →
    filled (set_slot i y r) ≤ filled r + 1) as Hmore.
  { intros x i y Hx. pose proof (filled_set i x y r Hx). pose proof (full_le y). lia. }
  unfold Put, put_work. destruct f as [[|[o a] rest] p]; cbn [todo pc].
  { destruct p; try done. intros [= <- <-]. left. change (filled (Signal k r)) with (filled r).
    simpl. lia. }
  destruct p; intros H; try done.
  all: repeat (match type of H with
    | (_ ≫= _) = Some _ => apply bind_Some in H as (? & ? & H)
    | context [match ?x with _ => _ end] => destruct x eqn:?
    end); simplify_eq; cbn [todo pc at_pc put_rank length].
  all: try match goal with H : lock _ _ = Some _ |- _ => apply lock_Some in H; subst end.
  all: repeat match goal with H : bool_decide _ = _ |- _ => rewrite H end.
  all: try (right; split; [by erewrite ?Hsame by done|]; split; [|set_solver]; cbn [set_slot set_cond set_mu unlock cond];
    repeat case_bool_decide; first [lia|set_solver]).
  all: try match goal with H : slots _ !! ?i = Some ?x |- _ =>
    pose proof (Hmore x i (with_state slotFilled x) H) end.
  all: left; try change (filled (Signal k r)) with (filled r); lia.
Qed.

(** What a step of [Put] leaves alone. *)
Lemma Put_keeps {A} tid k ctx (r : OrderedRingBuffer A) f r' f' :
  Put tid k ctx r f = Some (r', f') →
  capacity r' = capacity r ∧ drainOffset r' = drainOffset r ∧ closed r' = closed r ∧
  ∀ i x, slots r !! i = Some x → state x = slotFilled →
    ∃ x', slots r' !! i = Some x' ∧ state x' = slotFilled.
Proof.
  assert (∀ i (x y : ringSlot A), slots r !! i = Some x →
    (state x = slotFilled → state y = slotFilled) →
    ∀ j z, slots r !! j = Some z → state z = slotFilled →
    ∃ z', <[i := y]> (slots r) !! j = Some z' ∧ state z' = slotFilled) as Hset.
  { intros i x y Hx Hy j z Hz Hf. destruct (decide (i = j)) as [->|Hne].
    - exists y. simplify_eq. split; [|auto]. apply list_lookup_insert_eq. by eapply lookup_lt_Some.
    - exists z. by rewrite list_lookup_insert_ne. }
  unfold Put. destruct f as [[|[o a] rest] p]; cbn [todo pc].
  { destruct p; try done. intros [= <- <-]. split_and!; eauto. }
  destruct p; intros H; try done.
  all: repeat (match type of H with
    | (_ ≫= _) = Some _ => apply bind_Some in H as (? & ? & H)
    | context [match ?x with _ => _ end] => destruct x eqn:?
    end); simplify_eq/=.
  all: try match goal with H : lock _ _ = Some _ |- _ => apply lock_Some in H; subst end.
  all: split_and!; try done; cbn [set_slot slots]; eauto.
  all: by eapply Hset.
Qed.

(** ** The drainer *)

Section ends.
Context {A : Type} (maxBatch : Z).

Definition is_filled (r : OrderedRingBuffer A) (i : nat) : Prop :=
  ∃ x, slots r !! i = Some x ∧ state x = slotFilled.
Definition index_of (r : OrderedRingBuffer A) (next : Z) (i : nat) : Prop :=
  in_s 64 next ∧ ∃ z, slotIndex r next = Ok z ∧ i = Z.to_nat z.
(** The slot of the next record is filled. *)
Definition ready (r : OrderedRingBuffer A) (next : Z) : Prop := ∃ i, index_of r next i ∧ is_filled r i.

(** What a program counter of the drainer says of the buffer: a call that takes
    no record is the last one. *)
Definition draining (ctx : bool) (r : OrderedRingBuffer A) (p : drain_pc A) : Prop :=
  match p with
  | DLock n i | DWhileState n i | DWhileClosed n i | DWhileCtx n i | DEnterWait n i | DAsleep n i =>
      index_of r n i
  | DUnlock n i | DIfClosed n i =>
      index_of r n i ∧ (is_filled r i ∨ closed r = true ∨ ctx = true)
  | DIfState n i => index_of r n i
  | DIfCtx n => ready r n ∨ ctx = true
  | DScan n b => b ≠ [] ∨ ready r n
  | DTake _ _ i | DClear _ _ i _ | DFree _ _ i _ => is_filled r i
  | DAdd b | DBroadcast b => b ≠ []
  | DrainCall | DrainFalse | DrainPanic => True
  end ∧ in_s 64 (drainOffset r).

Lemma draining_keeps ctx r r' p :
  capacity r' = capacity r → drainOffset r' = drainOffset r → (closed r = true → closed r' = true) →
  (∀ i, is_filled r i → is_filled r' i) → draining ctx r p → draining ctx r' p.
Proof.
  intros Hc Hd Hcl Hf [H ?]. split; [|by rewrite Hd].
  assert (∀ n i, index_of r n i → index_of r' n i) as Hi
    by (intros n i; unfold index_of, slotIndex; by rewrite Hc).
  assert (∀ n, ready r n → ready r' n) as Hr by (intros n (i & ? & ?); exists i; auto).
  destruct p; simpl in *; naive_solver.
Qed.

Definition collected (p : drain_pc A) : list (option A) :=
  match p with
  | DScan _ b | DTake _ b _ | DClear _ b _ _ | DFree _ b _ _ | DAdd b | DBroadcast b => b
  | _ => []
  end.
(** The broadcast of a batch is still to come. *)
Definition drain_work (p : drain_pc A) : nat := match collected p with [] => 0 | _ => 1 end.

Lemma ready_scan r n :
  ready r n → ∃ z x, slotIndex r (i64 (n + 0)) = Ok z ∧ slots r !! Z.to_nat z = Some x ∧
    state x = slotFilled.
Proof.
  intros (i & [Hn (z & Hz & ->)] & x & Hx & Hs). exists z, x.
  rewrite Z.add_0_r, sint_small by done. done.
Qed.

(** A step of [DrainBatch] frees a slot or broadcasts, or comes closer to it. *)
Lemma DrainBatch_descends ctx (r : OrderedRingBuffer A) p r' p' o :
  draining ctx r p → DrainBatch maxBatch ctx r p = Some (r', p', o) →
  draining ctx r' p' ∧
  (3 * filled r' + drain_work p' < 3 * filled r + drain_work p ∨
   (3 * filled r' + drain_work p' = 3 * filled r + drain_work p ∧
    drain_rank (bool_decide (0 ∈ cond r')) p' < drain_rank (bool_decide (0 ∈ cond r)) p ∧
    ∀ t, t ≠ 0 → (t ∈ cond r' ↔ t ∈ cond r))).
Proof.
  intros [Hp Hoff] HD. unfold DrainBatch in HD. destruct p; try done.
  all: repeat (match type of HD with
    | (_ ≫= _) = Some _ => apply bind_Some in HD as (? & ? & HD)
    | context [match ?x with _ => _ end] => destruct x eqn:?
    end); simplify_eq/=.
  all: try match goal with H : lock _ _ = Some _ |- _ => apply lock_Some in H; subst end.
  all: try match goal with H : bool_decide _ = true |- _ => apply bool_decide_eq_true in H end.
  all: try (split; [split; [|done]; try done|right; split; [done|]; split;
    [repeat case_bool_decide; first [lia|set_solver]|done || (intros t Ht; set_solver)]]).
  - split; [done|]. by eexists.
  - destruct Hp as [? ?]. split; [done|]. left. by eexists.
  - auto.
  - auto.
  - by destruct Hp.
  - destruct Hp as [(? & ?) [?|[?|?]]]; [left; by eexists..|congruence|by right].
  - left. eexists; split; [done|]. by eexists.
  - right. by destruct Hp.
  - by eexists.
  - destruct b; [|done]. destruct Hp as [?|Hp]; [done|].
    apply ready_scan in Hp as (? & ? & ? & ? & ?). change (Z.of_nat (length [])) with 0%Z in *.
    simplify_eq. match goal with H : bool_decide _ = false |- _ =>
      apply bool_decide_eq_false in H; congruence end.
  - split; [done|]. unfold drain_work. destruct b; [right|left; simpl; lia].
    by split_and!; [|lia|].
  - split; [done|]. unfold drain_work. destruct b; [right|left; simpl; lia].
    by split_and!; [|lia|].
  - destruct b; [exfalso|done]. unfold batch_limit in *. simpl in *.
    match goal with H : (_ <? _)%Z = false |- _ => apply Z.ltb_ge in H; revert H end.
    destruct (Z.leb_spec maxBatch 0); lia.
  - split; [split; [|done]|right].
    + destruct Hp as (y & Hy & Hs). simplify_eq. exists (with_record None y). split; [|exact Hs].
      apply list_lookup_insert_eq. by eapply lookup_lt_Some.
    + match goal with H : slots r !! i = Some ?x |- _ =>
        pose proof (filled_set i x (with_record None x) r H) as Hw end.
      unfold full in Hw. cbn [with_record state] in Hw. split; [|split; [lia|done]].
      unfold drain_work. cbn [collected]. lia.
  - destruct Hp as (y & Hy & Hs). simplify_eq. split; [split; [|done]|left].
    { left. by destruct b. }
    pose proof (filled_set i y (with_state slotEmpty y) r Hy) as Hw.
    unfold full in Hw. cbn [with_state state] in Hw. rewrite bool_decide_true, bool_decide_false in Hw by done.
    unfold drain_work. cbn [collected]. destruct b; cbn [app]; lia.
  - split; [split; [done|]|right; by split_and!; [|lia|]]. apply sint_range. lia.
  - split; [done|left]. destruct b; [done|]. change (filled (Broadcast r)) with (filled r).
    unfold drain_work. simpl. lia.
Qed.

(** ** A bound on every schedule *)

Lemma draining_step e s s' :
  draining (ctxDone s) (rb s) (drainer s) → step maxBatch e s = Some s' →
  draining (ctxDone s') (rb s') (drainer s').
Proof.
  intros Hd Hstep. destruct e as [j k|j| | |j| |]; simpl in Hstep.
  - apply bind_Some in Hstep as (f & _ & Hstep). apply bind_Some in Hstep as ([r f'] & HP & [= <-]).
    destruct (Put_keeps _ _ _ _ _ _ _ HP) as (? & ? & ? & ?). cbn.
    eapply draining_keeps; [done..|congruence| |done]. intros i (x & Hx & Hs). unfold is_filled. eauto.
  - apply bind_Some in Hstep as (f & _ & Hstep). destruct (may_return _ _); by simplify_eq.
  - apply bind_Some in Hstep as ([[r p] o] & HD & [= <-]). by eapply DrainBatch_descends.
  - injection Hstep as <-. cbn. revert Hd. unfold draining.
    destruct (drainer s); intuition.
  - apply bind_Some in Hstep as (f & _ & Hstep). destruct (pc f); simplify_eq.
    by eapply draining_keeps; [..|exact Hd].
  - destruct (forallb _ _); simplify_eq. by eapply draining_keeps; [..|exact Hd].
  - destruct (broadcasts s); simplify_eq. by eapply draining_keeps; [..|exact Hd].
Qed.

(** What has to happen before the pipeline ends. *)
Definition work (s : pipeline A) : nat :=
  put_works (fetchers s) + 3 * filled (rb s) + drain_work (drainer s) + broadcasts s.
(** What the goroutines that are awake can do in between. *)
Definition ranks (s : pipeline A) : nat :=
  put_ranks (cond (rb s)) (fetchers s)
  + drain_rank (bool_decide (0 ∈ cond (rb s))) (drainer s).

Abbreviation K s := (20 * S (length (fetchers s))).
Definition measure (s : pipeline A) : nat := work s * K s + ranks s.

Lemma ranks_bound s : ranks s < K s.
Proof.
  unfold ranks, put_ranks.
  opose proof (sum_imap_bound
    (λ j (f : fetcher A), put_rank (bool_decide (S j ∈ cond (rb s))) (pc f)) 19 (fetchers s) _)
    as H; [intros i f; destruct (pc f); simpl; repeat case_match; lia|].
  assert (drain_rank (bool_decide (0 ∈ cond (rb s))) (drainer s) ≤ 19)
    by (destruct (drainer s); simpl; repeat case_match; lia).
  lia.
Qed.

Lemma measure_lt s s' :
  length (fetchers s') = length (fetchers s) →
  work s' < work s ∨ (work s' = work s ∧ ranks s' < ranks s) → measure s' < measure s.
Proof.
  intros Hl H. unfold measure. rewrite Hl. pose proof (ranks_bound s'). rewrite Hl in *.
  destruct H as [H|[-> H]]; [nia|lia].
Qed.

(** A fetcher that gives up leaves less to run and as much to publish. *)
Lemma leave_ranks c (fs : list (fetcher A)) j f :
  fs !! j = Some f → pc f = PutCall →
  put_works (<[j := at_pc f Returned]> fs) = put_works fs ∧
  put_ranks c (<[j := at_pc f Returned]> fs) < put_ranks c fs.
Proof.
  intros Hj Hp. unfold put_works, put_ranks.
  pose proof (sum_imap_insert (λ _, put_work) (λ _, put_work) fs j f (at_pc f Returned) Hj
    ltac:(done)) as Hw.
  pose proof (sum_imap_insert (λ j f, put_rank (bool_decide (S j ∈ c)) (pc f))
    (λ j f, put_rank (bool_decide (S j ∈ c)) (pc f)) fs j f (at_pc f Returned) Hj
    ltac:(done)) as Hr.
  unfold put_work in *. rewrite Hp in *. cbn [at_pc todo pc put_rank] in *. lia.
Qed.

Lemma worker_descends e s s' :
  draining (ctxDone s) (rb s) (drainer s) → worker e = true → step maxBatch e s = Some s' →
  measure s' < measure s.
Proof.
  intros Hdr He Hstep. destruct e as [j k|j| | | | |]; simpl in He; try done; simpl in Hstep.
  - apply bind_Some in Hstep as (f & Hj & Hstep).
    apply bind_Some in Hstep as ([r' f'] & HPut & [= <-]).
    apply measure_lt; [apply length_insert|]. unfold work, ranks. cbn [fetchers rb drainer broadcasts].
    pose proof (sum_imap_insert (λ _, put_work) (λ _, put_work) _ j f f' Hj ltac:(done)) as Hw.
    fold (put_works (fetchers s)) in Hw.
    destruct (Put_descends _ _ _ _ _ _ _ HPut) as [H|(Hpw & Hr & Hother)].
    + left. unfold put_works in *. lia.
    + right. unfold put_works in *. split; [lia|].
      opose proof (sum_imap_insert
        (λ j f, put_rank (bool_decide (S j ∈ cond (rb s))) (pc f))
        (λ j f, put_rank (bool_decide (S j ∈ cond r')) (pc f)) _ j f f' Hj _) as Hs.
      { intros i z Hi. f_equal. apply bool_decide_ext, Hother. congruence. }
      unfold put_ranks. rewrite (bool_decide_ext (0 ∈ cond r') (0 ∈ cond (rb s))) by by apply Hother.
      lia.
  - apply bind_Some in Hstep as (f & Hj & Hstep). unfold may_return in Hstep.
    destruct (pc f) eqn:Hp; try done. destruct (_ || _); simplify_eq.
    destruct (leave_ranks (cond (rb s)) _ _ _ Hj Hp) as [Hw Hr].
    apply measure_lt; [apply length_insert|]. right. unfold work, ranks.
    cbn [fetchers rb drainer broadcasts]. lia.
  - apply bind_Some in Hstep as ([[r' p'] o] & HD & [= <-]).
    apply measure_lt; [done|]. unfold work, ranks. cbn [fetchers rb drainer broadcasts].
    destruct (DrainBatch_descends _ _ _ _ _ _ Hdr HD) as [_ [H|(Hw & Hr & Hother)]]; [left; lia|].
    right. split; [lia|]. unfold put_ranks.
    rewrite (sum_imap_ext (λ j f, put_rank (bool_decide (S j ∈ cond (rb s))) (pc f))); [lia|].
    intros i z. f_equal. apply bool_decide_ext, Hother. done.
  - destruct (broadcasts s) as [|n] eqn:Hb; [done|]. injection Hstep as <-.
    apply measure_lt; [done|]. left. unfold work. rewrite Hb. cbn [rb fetchers drainer broadcasts].
    change (filled (Broadcast (rb s))) with (filled (rb s)). lia.
Qed.

Lemma step_fetchers e (s s' : pipeline A) :
  step maxBatch e s = Some s' → length (fetchers s') = length (fetchers s).
Proof.
  destruct e; simpl; intros H.
  - apply bind_Some in H as (f & _ & H). apply bind_Some in H as ([? ?] & _ & [= <-]).
    apply length_insert.
  - apply bind_Some in H as (f & _ & H). destruct (may_return _ _); simplify_eq. apply length_insert.
  - by apply bind_Some in H as ([[? ?] ?] & _ & [= <-]).
  - by injection H as <-.
  - apply bind_Some in H as (f & _ & H). destruct (pc f); simplify_eq. apply length_insert.
  - destruct (forallb _ _); [|done]. by injection H as <-.
  - destruct (broadcasts s); [done|]. by injection H as <-.
Qed.

(** Steps of the owner and of the outside add one broadcast at most. *)
Lemma outside_adds e s s' :
  worker e = false → step maxBatch e s = Some s' → measure s' ≤ measure s + K s.
Proof.
  intros He Hstep. pose proof (step_fetchers e s s' Hstep) as Hl.
  unfold measure. rewrite Hl. destruct e as [| | | |j| |]; simpl in He; try done; simpl in Hstep.
  - injection Hstep as <-. unfold work, ranks. cbn [rb fetchers drainer broadcasts]. lia.
  - apply bind_Some in Hstep as (f & Hj & Hstep). destruct (pc f) eqn:Hp; simplify_eq.
    destruct (leave_ranks (cond (rb s)) _ _ _ Hj Hp) as [Hw Hr].
    unfold work, ranks. cbn [fetchers rb drainer broadcasts CloseWithError set_closed cond].
    change (filled (CloseWithError (rb s))) with (filled (rb s)). rewrite Hw. lia.
  - destruct (forallb returned (fetchers s)); [|done]. injection Hstep as <-.
    unfold work, ranks. cbn [fetchers rb drainer broadcasts Close set_closed cond].
    change (filled (Close (rb s))) with (filled (rb s)). lia.
Qed.

(** The events of a schedule that are not steps of a goroutine. *)
Definition outside (es : list event) : nat := length (filter (λ e, worker e = false) es).

Lemma run_measure es s s' :
  draining (ctxDone s) (rb s) (drainer s) → run maxBatch es s = Some s' →
  length es + measure s' ≤ measure s + outside es * S (K s).
Proof.
  unfold outside. revert s. induction es as [|e es IH]; intros s Hd Hr.
  { injection Hr as <-. simpl. lia. }
  apply run_cons in Hr as (s1 & Hs & Hr).
  specialize (IH s1 (draining_step e s s1 Hd Hs) Hr). rewrite (step_fetchers e s s1 Hs) in IH.
  rewrite filter_cons. case_decide as He; cbn [length].
  - pose proof (outside_adds e s s1 He Hs). lia.
  - apply not_false_is_true in He. pose proof (worker_descends e s s1 Hd He Hs). lia.
Qed.
End ends.

Lemma measure_start {A} cap start (r : OrderedRingBuffer A) loads :
  NewOrderedRingBuffer cap start = Ok r →
  measure (start_pipeline r loads) < S (5 * sum_list (length <$> loads)) * (20 * S (length loads)).
Proof.
  intros Hr. pose proof (ranks_bound (start_pipeline r loads)) as H. unfold measure, work, drain_work.
  cbn [fetchers rb drainer broadcasts start_pipeline collected] in *. rewrite length_fmap in *.
  assert (filled r = 0) as ->.
  { unfold NewOrderedRingBuffer in Hr. case_match; [done|]. injection Hr as <-. unfold filled.
    cbn [slots]. generalize (Z.to_nat cap). intros n. induction n as [|n IH]; [done|].
    cbn. unfold compose. exact IH. }
  assert (put_works ((λ w, {| todo := w; pc := PutCall |}) <$> loads)
    = 5 * sum_list (length <$> loads)) as ->; [|lia].
  clear. induction loads as [|w l IH]; [done|]. unfold put_works in *. cbn.
  unfold compose. cbn in IH. rewrite IH. lia.
Qed.

(** C6. Every schedule ends: the goroutines of a partition's pipeline cannot take
    steps for ever, for a buffer of any capacity, any number of fetchers and any
    distribution of the records over them. A schedule has at most a number of steps
    that is fixed by the number of records to publish and of fetchers, and grows
    only with the number of times the owner or the outside intervenes (a close, a
    failure, a cancellation), each of which allows one more round of wakeups. The
    steps are those of [Put], of [DrainBatch], of the broadcasts, and the return of
    a fetcher: a poll of the broker is not one, so the theorem does not say that a
    fetcher that has put all its records returns (it may poll for ever), only that
    it publishes and signals no more. *)
Theorem schedules_end {A} maxBatch cap start (r : OrderedRingBuffer A) loads es s :
  in_s 64 start → NewOrderedRingBuffer cap start = Ok r →
  run maxBatch es (start_pipeline r loads) = Some s →
  length es ≤ (1 + 5 * sum_list (length <$> loads) + 2 * outside es) * (20 * S (length loads)).
Proof.
  intros Hs Hr Hrun. pose proof (measure_start cap start r loads Hr) as Hm.
  assert (drainOffset r = start) as Hd.
  { unfold NewOrderedRingBuffer in Hr. case_match; [done|]. by injection Hr as <-. }
  opose proof (run_measure maxBatch es _ s _ Hrun) as H.
  { split; [done|]. cbn. by rewrite Hd. }
  cbn [fetchers start_pipeline] in H. rewrite length_fmap in H. lia.
Qed.

(** ** A witness *)

(** One fetcher, two slots and the offsets 0, 2 and 4, which all want the same
    slot: in the end the drainer waits for the offset 1, which does not exist, and
    the fetcher for the slot of 2. *)
Definition ex_gap_loads : list (list (Z * Z)) := [[(0, 10); (2, 12); (4, 14)]]%Z.
Definition ex_gap_schedule : list event :=
  replicate 13 (EvPut 0 0) ++ replicate 13 EvDrain ++ replicate 16 (EvPut 0 0) ++ replicate 6 EvDrain.

Lemma schedules_end_witness :
  ∃ r s, NewOrderedRingBuffer 2 0 = Ok r ∧
    run 8 ex_gap_schedule (start_pipeline r ex_gap_loads) = Some s ∧
    out s = [[Some 10%Z]] ∧ length ex_gap_schedule ≤ 640.
Proof.
  eexists _, _. split; [reflexivity|]. split; [vm_compute; reflexivity|]. split; [reflexivity|].
  opose proof (schedules_end 8 2 0 _ ex_gap_loads ex_gap_schedule _ _ eq_refl _) as H.
  - by vm_compute.
  - vm_compute; reflexivity.
  - etrans; [exact H|]. vm_compute. lia.
Defined.
