(* ===== verification/RingSpec.v ===== *)
(** * What a ring buffer promises, and that it keeps it

    The specification is a channel that hands out the records of a partition:
    batches of the next records in offset order, then an end, which may come
    early only after an interruption. [RingBuffer], with any number of fetchers
    that publish out of order and a drainer at the grain of atomic operations, is
    shown to refine it: every step of the pipeline is a step of the channel or
    changes nothing that the channel's client sees. *)
From stdpp Require Import sorting.
From S2P Require Import Prelude RingBuffer RingSafety.

Local Open Scope Z_scope.

(** ** The specification *)

Section spec.
Context {A : Type} (log : Z → option A) (limit : Z).

(** The client sees the batches handed out and whether the end was reported;
    [ch_next] is the offset of the next record. *)
Record channel := {
  ch_next : Z;
  ch_out : list (list (option A));
  ch_ended : bool;
  ch_interrupted : bool;
}.

Definition open_channel (start : Z) : channel :=
  {| ch_next := start; ch_out := []; ch_ended := false; ch_interrupted := false |}.

Inductive channel_step : channel → channel → Prop :=
  | deliver c b :
      ch_ended c = false → 1 ≤ Z.of_nat (length b) ≤ limit →
      b = log <$> seqZ (ch_next c) (Z.of_nat (length b)) → Forall is_Some b →
      channel_step c {| ch_next := ch_next c + Z.of_nat (length b); ch_out := ch_out c ++ [b];
                        ch_ended := false; ch_interrupted := ch_interrupted c |}
  | finish c :
      ch_ended c = false → ch_interrupted c = true ∨ log (ch_next c) = None →
      channel_step c {| ch_next := ch_next c; ch_out := ch_out c;
                        ch_ended := true; ch_interrupted := ch_interrupted c |}
  | interrupt c :
      channel_step c {| ch_next := ch_next c; ch_out := ch_out c;
                        ch_ended := ch_ended c; ch_interrupted := true |}.

(** What a client of the channel can rely on. *)
Lemma channel_promises start c :
  rtc channel_step (open_channel start) c →
  start ≤ ch_next c ∧ concat (ch_out c) = log <$> seqZ start (ch_next c - start) ∧
  Forall (λ b, 1 ≤ Z.of_nat (length b) ≤ limit) (ch_out c) ∧
  (ch_ended c = true → ch_interrupted c = true ∨ log (ch_next c) = None).
Proof.
  apply (rtc_invariant channel_step (λ c, start ≤ ch_next c ∧
    concat (ch_out c) = log <$> seqZ start (ch_next c - start) ∧
    Forall (λ b, 1 ≤ Z.of_nat (length b) ≤ limit) (ch_out c) ∧
    (ch_ended c = true → ch_interrupted c = true ∨ log (ch_next c) = None))).
  2:{ cbn. rewrite Z.sub_diag, seqZ_nil by lia. done. }
  intros c1 c2 (Hle & Hout & Hall & Hend) Hs. destruct Hs as [c1 b He Hb Hbe _|c1 He Hg|c1]; cbn.
  - split; [lia|]. split; [|split; [by apply Forall_app_2; [|constructor]|done]].
    rewrite concat_app, Hout. cbn. rewrite app_nil_r.
    replace (ch_next c1 + Z.of_nat (length b) - start)
      with (ch_next c1 - start + Z.of_nat (length b)) by lia.
    rewrite seqZ_app, fmap_app by lia. f_equal. rewrite Zplus_minus. exact Hbe.
  - done.
  - split; [done|]. split; [done|]. split; [done|]. by left.
Qed.
End spec.

Arguments channel : clear implicits.

(** ** The refinement *)

Section refinement.
Context {A : Type} (cap start last : Z) (log : Z → option A) (own : Z → nat).
Context (loads : list (list (Z * A))) (maxBatch : Z).
Context (WL : workload_ok cap start last log own loads).

Abbreviation inv := (inv cap start last log own loads maxBatch).

(** What the channel's client sees of a pipeline. *)
Definition channel_of (s : pipeline A) : channel A :=
  {| ch_next := start + Z.of_nat (length (concat (out s)));
     ch_out := out s;
     ch_ended := match drainer s with DrainFalse => true | _ => false end;
     ch_interrupted := ctxDone s || fetcherFailed s |}.

(** Between batches the drain position is the offset of the next record. *)
Lemma next_of s : inv s → batch_of (drainer s) = [] → pos s = ch_next (channel_of s).
Proof using WL.
  intros Hinv Hb. pose proof (inv_slot _ _ _ _ _ _ _ WL s Hinv) as (_ & Hr & _).
  destruct Hinv as (_ & _ & _ & [Hout _] & _). unfold delivered in Hout.
  rewrite Hb, app_nil_r in Hout. cbn. rewrite Hout, length_fmap, length_seqZ. lia.
Qed.

(** A batch that is added to those handed out consists of the next records. *)
Lemma handed_out s s' b :
  inv s → inv s' → out s' = out s ++ [b] →
  b = log <$> seqZ (ch_next (channel_of s)) (Z.of_nat (length b)) ∧ Forall is_Some b.
Proof using WL.
  intros H1 H2 Ho. destruct (inv_out _ _ _ _ _ _ _ WL s H1) as (Ho1 & _ & _).
  destruct (inv_out _ _ _ _ _ _ _ WL s' H2) as (Ho2 & _ & Hs2). rewrite Ho in *.
  rewrite concat_app, length_app in *. cbn [concat] in *. rewrite app_nil_r in *.
  rewrite Nat2Z.inj_add, seqZ_app, fmap_app, <- Ho1 in Ho2 by lia.
  apply app_inv_head in Ho2. split; [exact Ho2|]. rewrite Ho2.
  apply Forall_fmap, Forall_forall. intros o Ho'%elem_of_seqZ. apply Hs2. lia.
Qed.

(** The client sees nothing, or a step of the channel. *)
Definition simulated (s s' : pipeline A) : Prop :=
  channel_of s' = channel_of s ∨
  channel_step log (batch_limit maxBatch) (channel_of s) (channel_of s').

(** A step of the drainer hands out a batch, reports the end, or shows nothing. *)
Lemma drain_refines s s' :
  inv s → inv s' → step maxBatch EvDrain s = Some s' →
  simulated s s'.
Proof using WL.
  intros Hinv Hinv' Hstep. pose proof Hinv as Hinv0. simpl in Hstep.
  apply bind_Some in Hstep as ([[r' p'] o] & HD & Heq). injection Heq as <-.
  assert ((∃ b, drainer s = DBroadcast b ∧ o = [b] ∧ p' = DrainCall) ∨
    (o = [] ∧ drainer s ≠ DrainFalse)) as [(b & Hd & -> & ->)|(-> & Hne)].
  { unfold DrainBatch in HD. destruct (drainer s); try done.
    all: repeat (match type of HD with
      | (_ ≫= _) = Some _ => apply bind_Some in HD as (? & ? & HD)
      | context [match ?x with _ => _ end] => destruct x eqn:?
      end); simplify_eq/=; try by right. left. eauto. }
  - right. destruct Hinv as (_ & _ & Hok & _). unfold drain_ok in Hok.
    destruct (flags_of s) as [[??]?]. rewrite Hd in Hok.
    destruct (handed_out _ _ b Hinv0 Hinv' eq_refl) as [Hb Hsome].
    match goal with |- channel_step _ _ _ ?c =>
      replace c with {| ch_next := ch_next (channel_of s) + Z.of_nat (length b);
        ch_out := out s ++ [b]; ch_ended := false;
        ch_interrupted := ch_interrupted (channel_of s) |} end.
    + apply (deliver log _ (channel_of s)); [cbn; by rewrite Hd|exact Hok|done|done].
    + unfold channel_of. cbn. f_equal. rewrite concat_app, !length_app. cbn.
      rewrite app_nil_r. lia.
  - assert (p' = DrainFalse ∨ match p' with DrainFalse => true | _ => false end = false)
      as [->|Hend] by (destruct p'; auto).
    + right. pose proof (next_of _ Hinv' eq_refl) as Hnext.
      destruct Hinv' as (_ & _ & Hok & _). unfold drain_ok, flags_of, pos in *.
      cbn [rb ctxDone fetcherFailed fetchers drainer dpos] in *. rewrite Hnext in Hok.
      unfold channel_of in *. cbn [ch_next out] in *. rewrite app_nil_r in *.
      cbn [ctxDone fetcherFailed drainer].
      apply (finish log (batch_limit maxBatch) (channel_of s)).
      * cbn. by destruct (drainer s).
      * cbn. destruct Hok as [->|[->|[_ ?]]]; [by left|left; apply orb_true_r|by right].
    + left. unfold channel_of. cbn. rewrite app_nil_r, Hend. f_equal. by destruct (drainer s).
Qed.

(** C4. The ring buffer refines the channel: for every workload it is safe on,
    every step of the pipeline, be it of a fetcher, of the drainer, of the owner
    or of the outside, either leaves what the client sees unchanged or is a step of
    the channel. In the channel records come in offset order, each once and
    without a gap, in batches of the requested size, nothing comes after the end,
    and the end comes at the first missing offset unless the context was cancelled
    or a fetcher failed before. *)
Theorem ring_refines r s s' :
  NewOrderedRingBuffer cap start = Ok r →
  channel_of (start_pipeline r loads) = open_channel start ∧
  (rtc (ring_step maxBatch) (start_pipeline r loads) s → ring_step maxBatch s s' →
   channel_of s' = channel_of s ∨
   channel_step log (batch_limit maxBatch) (channel_of s) (channel_of s')).
Proof.
  intros Hr. split; [unfold channel_of, open_channel; cbn; by rewrite Z.add_0_r|].
  intros Hrtc Hs. pose proof (inv_reachable _ _ _ _ _ _ _ WL r s Hr Hrtc) as Hinv.
  pose proof (inv_step _ _ _ _ _ _ _ WL _ _ Hinv Hs) as Hinv'.
  destruct Hs as [e Hstep].
  destruct e as [j k|j| | |j| |]; [..|by apply drain_refines| | | |]; simpl in Hstep.
  - apply bind_Some in Hstep as (f & _ & Hstep).
    apply bind_Some in Hstep as ([r' f'] & _ & [= <-]). by left.
  - apply bind_Some in Hstep as (f & _ & Hstep). case_match; [|done].
    injection Hstep as <-. by left.
  - injection Hstep as <-. right.
    apply (interrupt log (batch_limit maxBatch) (channel_of s)).
  - apply bind_Some in Hstep as (f & _ & Hstep). destruct (pc f); try done.
    injection Hstep as <-. right. unfold channel_of at 2. cbn. rewrite orb_true_r.
    apply (interrupt log (batch_limit maxBatch) (channel_of s)).
  - destruct (forallb returned (fetchers s)); [|done]. injection Hstep as <-. by left.
  - destruct (broadcasts s); [done|]. injection Hstep as <-. by left.
Qed.
End refinement.

(** ** Witness *)

(** The drainer is about to return its first batch, and returns it. *)
Definition ex_drains (n : nat) : pipeline Z :=
  default (start_pipeline (ex_ring 2 5) [])
    (run 2 (replicate 12 (EvPut 0 0) ++ replicate n EvDrain)
      (start_pipeline (ex_ring 2 5) [ex_load 5 8])).

Lemma ring_refines_witness :
  ch_out (channel_of 5 (ex_drains 16)) = [] ∧
  ch_out (channel_of 5 (ex_drains 17)) = [[Some 5; Some 6]] ∧
  channel_step (ex_log 5 8) 2 (channel_of 5 (ex_drains 16)) (channel_of 5 (ex_drains 17)).
Proof.
  split; [vm_compute; reflexivity|]. split; [vm_compute; reflexivity|].
  destruct (ring_refines _ _ _ _ _ _ 2 ex_workload _ (ex_drains 16) (ex_drains 17)
    (ex_ring_new 2 5 ltac:(lia))) as [_ H].
  destruct H as [H|H]; [| |vm_compute in H; discriminate H|exact H].
  - apply (run_rtc 2 (replicate 12 (EvPut 0 0) ++ replicate 16 EvDrain)). vm_compute. reflexivity.
  - exists EvDrain. vm_compute. reflexivity.
Defined.
