(* ===== verification/RingProgress.v ===== *)
(** * Why the goroutines of a ring buffer stop

    When no goroutine of the pipeline of [RingBuffer] can run any more, either the
    pipeline is done or a goroutine sleeps although what it waits for has happened,
    provided the records fit the buffer ([workload_ok] of [RingSafety]). So, with
    [RingEnds.schedules_end], a lost wakeup is then the only way in which the
    pipeline can hang in the buffer. *)
From stdpp Require Import sorting.
From S2P Require Import Prelude RingBuffer RingSafety RingEnds.

Local Open Scope nat_scope.

Lemma forallb_witness {B} (g : B → bool) l :
  forallb g l = false → ∃ i x, l !! i = Some x ∧ g x = false.
Proof.
  induction l as [|x l IH]; [done|]. simpl. destruct (g x) eqn:E; [|by exists 0, x].
  intros (i & y & Hy & Hg)%IH. by exists (S i), y.
Qed.

(** ** Who holds the mutex *)

Definition put_holds (p : put_pc) : bool :=
  match p with
  | WhileState _ | WhileClosed _ | WhileCtx _ | EnterWait _ | SlowUnlock _ => true
  | _ => false
  end.
Definition drain_holds {A} (p : drain_pc A) : bool :=
  match p with
  | DWhileState _ _ | DWhileClosed _ _ | DWhileCtx _ _ | DEnterWait _ _ | DUnlock _ _ => true
  | _ => false
  end.

Lemma Put_mutex {A} tid k ctx (r : OrderedRingBuffer A) f r' f' :
  Put tid k ctx r f = Some (r', f') →
  closed r' = closed r ∧
  (mu r' = None ∨ (mu r' = Some tid ∧ put_holds (pc f') = true) ∨
   (mu r' = mu r ∧ (put_holds (pc f) = true → put_holds (pc f') = true))).
Proof.
  unfold Put. destruct f as [[|[o a] rest] p]; cbn [todo pc].
  { destruct p; try done. intros [= <- <-]. split; [done|]. right; right. done. }
  destruct p; intros H; try done.
  all: repeat (match type of H with
    | (_ ≫= _) = Some _ => apply bind_Some in H as (? & ? & H)
    | context [match ?x with _ => _ end] => destruct x eqn:?
    end); simplify_eq/=.
  all: try match goal with H : lock _ _ = Some _ |- _ => apply lock_Some in H; subst end.
  all: split; [done|]; cbn; tauto.
Qed.

Lemma DrainBatch_mutex {A} maxBatch ctx (r : OrderedRingBuffer A) p r' p' o :
  DrainBatch maxBatch ctx r p = Some (r', p', o) →
  closed r' = closed r ∧
  (mu r' = None ∨ (mu r' = Some 0 ∧ drain_holds p' = true) ∨
   (mu r' = mu r ∧ (drain_holds p = true → drain_holds p' = true))).
Proof.
  unfold DrainBatch. destruct p; intros H; try done.
  all: repeat (match type of H with
    | (_ ≫= _) = Some _ => apply bind_Some in H as (? & ? & H)
    | context [match ?x with _ => _ end] => destruct x eqn:?
    end); simplify_eq/=.
  all: try match goal with H : lock _ _ = Some _ |- _ => apply lock_Some in H; subst end.
  all: split; [done|]; cbn; tauto.
Qed.

(** The mutex is held by a goroutine inside its critical section. *)
Definition held {A} (m : option nat) (d : drain_pc A) (fs : list (fetcher A)) : Prop :=
  ∀ t, m = Some t →
    match t with
    | O => drain_holds d = true
    | S j => ∃ f, fs !! j = Some f ∧ put_holds (pc f) = true
    end.

(** A fetcher that returns does not hold it. *)
Lemma leave_holder {A} m d (fs : list (fetcher A)) j f :
  held m d fs → fs !! j = Some f → pc f = PutCall → held m d (<[j := at_pc f Returned]> fs).
Proof.
  intros Hmu Hj Hp t Ht. specialize (Hmu t Ht). destruct t as [|i]; [done|].
  destruct Hmu as (g & Hg & Hh). exists g. rewrite list_lookup_insert_ne; [done|].
  intros ->. simplify_eq. by rewrite Hp in Hh.
Qed.

(** And a fetcher that fails closes the buffer. *)
Definition sane {A} (s : pipeline A) : Prop :=
  held (mu (rb s)) (drainer s) (fetchers s) ∧ (fetcherFailed s = true → closed (rb s) = true).

Lemma sane_step {A} maxBatch (s s' : pipeline A) : sane s → ring_step maxBatch s s' → sane s'.
Proof.
  intros [Hmu Hbad] [e Hstep]. destruct e as [j k|j| | |j| |]; simpl in Hstep.
  - apply bind_Some in Hstep as (f & Hj & Hstep).
    apply bind_Some in Hstep as ([r' f'] & HPut & [= <-]).
    apply Put_mutex in HPut as [Hcl HPut]. split; cbn; [|by rewrite Hcl].
    assert (<[j := f']> (fetchers s) !! j = Some f') as Hself
      by (apply list_lookup_insert_eq; by eapply lookup_lt_Some).
    intros t Ht. rewrite Ht in HPut.
    destruct HPut as [?|[[[= ->] Hh]|[Hsame Hh]]]; [done|by exists f'|].
    specialize (Hmu t (eq_sym Hsame)). destruct t as [|i]; [done|].
    destruct Hmu as (g & Hg & Hhold). destruct (decide (i = j)) as [->|Hne].
    + exists f'. simplify_eq. auto.
    + exists g. by rewrite list_lookup_insert_ne.
  - apply bind_Some in Hstep as (f & Hj & Hstep). unfold may_return in Hstep.
    destruct (pc f) eqn:Hp; try done. destruct (_ || _); simplify_eq.
    split; [|done]. by eapply leave_holder.
  - apply bind_Some in Hstep as ([[r' p'] o] & HD & [= <-]).
    apply DrainBatch_mutex in HD as [Hcl HD]. split; cbn; [|by rewrite Hcl].
    intros t Ht. rewrite Ht in HD. destruct HD as [?|[[[= ->] ?]|[Hsame Hh]]]; [done..|].
    specialize (Hmu t (eq_sym Hsame)). destruct t; [auto|done].
  - by injection Hstep as <-.
  - apply bind_Some in Hstep as (f & Hj & Hstep). destruct (pc f) eqn:Hp; simplify_eq.
    split; [|done]. by eapply leave_holder.
  - destruct (forallb _ _); [|done]. by injection Hstep as <-.
  - destruct (broadcasts s); [done|]. by injection Hstep as <-.
Qed.

Section progress.
Context {A : Type} (cap start last : Z) (log : Z → option A) (own : Z → nat).
Context (loads : list (list (Z * A))) (maxBatch : Z).
Context (WL : workload_ok cap start last log own loads).

Abbreviation inv := (inv cap start last log own loads maxBatch).

(** ** Goroutines that cannot run *)

(** A fetcher that cannot run in [Put] has returned, polls with nothing left to
    put, waits for the mutex, or is on the notification list of [cond.Wait]. *)
Lemma put_blocked j (r : OrderedRingBuffer A) d fl ctx f :
  capacity r = cap → length (slots r) = Z.to_nat cap → pc_ok cap (slots r) d fl f →
  Put (S j) 0 ctx r f = None →
  returned f = true ∨ (todo f = [] ∧ pc f = PutCall) ∨
  (put_holds (pc f) = false ∧ is_Some (mu r)) ∨
  ∃ o a rest, todo f = (o, a) :: rest ∧ pc f = Asleep (idx cap o) ∧ S j ∈ cond r.
Proof.
  intros Hcap Hlen Hpc HP. destruct fl as [[cl cx] bad].
  assert (∀ o, is_Some (slots r !! idx cap o)) as Hx.
  { intros o. apply lookup_lt_is_Some_2. rewrite Hlen. by eapply idx_lt. }
  unfold Put, returned in *. destruct (todo f) as [|[o a] rest] eqn:Ht.
  { unfold pc_ok in Hpc. destruct (pc f); try done; try tauto; exfalso;
      try done; destruct Hpc as (? & ? & ? & Ht' & _); congruence. }
  unfold pc_ok in Hpc.
  destruct (pc f) as [|i|i|i|i|i|i|i|i|i|i|i|i|i|i|i|i| | | |] eqn:Ep; try done; try (by left).
  all: try (pose proof (at_slot_head _ _ _ _ o a rest Ht Hpc) as [Hi _]; subst i;
    destruct (Hx o) as [x Hx']; rewrite ?Hx' in HP; cbn [mbind option_bind] in HP).
  all: repeat match type of HP with context [match ?x with _ => _ end] => destruct x eqn:? end;
    try done.
  - right; right; left. split; [done|]. unfold lock in HP. destruct (mu r); [by eexists|done].
  - right; right; right. eexists o, a, rest. split; [done|]. split; [done|]. by case_bool_decide.
  - right; right; left. split; [done|]. unfold lock in HP. destruct (mu r); [by eexists|done].
Qed.

Lemma drain_blocked s :
  inv s → DrainBatch maxBatch (ctxDone s) (rb s) (drainer s) = None →
  drainer s = DrainFalse ∨ (drain_holds (drainer s) = false ∧ is_Some (mu (rb s))) ∨
  (drainer s = DAsleep (drainOffset (rb s)) (idx cap (drainOffset (rb s))) ∧ 0 ∈ cond (rb s)).
Proof.
  intros (Hcap & Hcore & Hok & _) HD.
  assert (∀ o, is_Some (slots (rb s) !! idx cap o)) as Hx.
  { intros o. destruct Hcore as (Hsl & _). eapply slot_lookup in Hsl as [x Hx]; [by exists x|done]. }
  unfold DrainBatch in HD. unfold drain_ok, flags_of in Hok.
  destruct (drainer s) as [|n i|n i|n i|n i|n i|n i|n i|n i|n i|n|n b|n b i|n b i x|n b i x|b|b| |]
    eqn:Ep; try done.
  all: try match type of Hok with _ = _ ∧ _ = _ => destruct Hok as [-> ->] end.
  all: try match type of Hok with _ = _ ∧ _ = _ ∧ _ => destruct Hok as (-> & -> & _) end.
  all: try match type of Hok with _ = _ ∧ _ ∧ _ = _ ∧ _ => destruct Hok as (-> & _ & -> & _) end.
  all: rewrite ?(slotIndex_idx _ _ _ _ _ _ WL _ _ Hcap) in HD; unfold idx in HD.
  all: repeat match type of HD with
    | context [slots _ !! Z.to_nat (?o mod cap)%Z] =>
        let E := fresh in destruct (Hx o) as [? E]; unfold idx in E; rewrite E in HD;
        cbn [mbind option_bind] in HD
    | context [if ?x then _ else _] => destruct x eqn:?
    end; try done.
  - right; left. split; [done|]. unfold lock in HD. destruct (mu (rb s)); [by eexists|done].
  - right; right. split; [done|]. by case_bool_decide.
  - right; left. split; [done|]. unfold lock in HD. destruct (mu (rb s)); [by eexists|done].
  - by left.
Qed.

(** No goroutine can run, and the owner cannot close the buffer for the first
    time. *)
Definition stuck (s : pipeline A) : Prop :=
  (∀ e, worker e = true → step maxBatch e s = None) ∧
  (forallb returned (fetchers s) = true → closed (rb s) = true).

(** A fetcher waits in [cond.Wait] for its slot to be empty, for a close or for a
    cancellation, one of which has happened. *)
Definition fetcher_overslept (s : pipeline A) (j : nat) : Prop :=
  ∃ f i x, fetchers s !! j = Some f ∧ pc f = Asleep i ∧ S j ∈ cond (rb s) ∧
    slots (rb s) !! i = Some x ∧
    (state x = slotEmpty ∨ closed (rb s) = true ∨ ctxDone s = true).

(** The drainer waits for the next record, for a close or for a cancellation, one
    of which has happened. *)
Definition drainer_overslept (s : pipeline A) : Prop :=
  ∃ next i x, drainer s = DAsleep next i ∧ 0 ∈ cond (rb s) ∧ slots (rb s) !! i = Some x ∧
    (state x = slotFilled ∨ closed (rb s) = true ∨ ctxDone s = true).

Lemma stuck_put s j f :
  inv s → stuck s → fetchers s !! j = Some f →
  returned f = true ∨
  (put_holds (pc f) = false ∧ is_Some (mu (rb s))) ∨
  ∃ o a rest, todo f = (o, a) :: rest ∧ pc f = Asleep (idx cap o) ∧ S j ∈ cond (rb s).
Proof.
  intros (Hcap & (Hsl & _ & _ & Hfs & _) & _) [Hst _] Hf. destruct (Hfs j f Hf) as (_ & _ & Hpc).
  pose proof (Hst (EvPut j 0) eq_refl) as Hput. pose proof (Hst (EvReturn j) eq_refl) as Hret.
  simpl in Hput, Hret. rewrite Hf in Hput, Hret. cbn in Hput, Hret.
  destruct (put_blocked j (rb s) _ _ (ctxDone s) f Hcap (proj1 Hsl) Hpc) as [?|[[Ht Hp]|?]]; auto.
  - by destruct (Put _ _ _ _ _) as [[??]|].
  - unfold may_return in Hret. rewrite Ht, Hp, orb_true_r in Hret. done.
Qed.

Lemma stuck_drain s :
  inv s → stuck s →
  drainer s = DrainFalse ∨ (drain_holds (drainer s) = false ∧ is_Some (mu (rb s))) ∨
  (drainer s = DAsleep (drainOffset (rb s)) (idx cap (drainOffset (rb s))) ∧ 0 ∈ cond (rb s)).
Proof.
  intros Hinv [Hst _]. apply drain_blocked; [done|]. specialize (Hst EvDrain eq_refl).
  simpl in Hst. by destruct (DrainBatch _ _ _ _) as [[[??]?]|].
Qed.

(** The holder of the mutex can run. *)
Lemma stuck_mutex s : inv s → sane s → stuck s → mu (rb s) = None.
Proof.
  intros Hinv [Hmu _] Hst. destruct (mu (rb s)) as [t|] eqn:Et; [|done]. exfalso.
  specialize (Hmu t eq_refl). destruct t as [|j].
  - destruct (stuck_drain s Hinv Hst) as [Hd|[[Hh _]|[Hd _]]];
      [by rewrite Hd in Hmu|congruence|by rewrite Hd in Hmu].
  - destruct Hmu as (f & Hf & Hh).
    destruct (stuck_put s j f Hinv Hst Hf) as [Hr|[[Hh' _]|(? & ? & ? & _ & Hp & _)]].
    + unfold returned in Hr. by destruct (pc f).
    + congruence.
    + by rewrite Hp in Hh.
Qed.

(** The next offset of a fetcher is in the window when the drainer has nothing to
    take. *)
Lemma head_in_window s j f o a rest :
  inv s → fetchers s !! j = Some f → todo f = (o, a) :: rest →
  stat cap (slots (rb s)) (pos s) ≠ Some slotFilled → (o < pos s + cap)%Z.
Proof.
  intros (_ & (_ & Hd & Hlen & Hf & Hc & _) & _) Hj Ht Hpos.
  destruct (Hf j f Hj) as (Hs & Hp & _).
  destruct (Hp o a) as (Ho & Hlo & Hdo & _); [rewrite Ht; left|].
  assert (start ≤ o < last)%Z by (eapply (log_in cap); eauto).
  destruct (wl_window _ _ _ _ _ _ WL) as [Hw|[H1 Hdense]]; [lia|].
  destruct (decide (o < pos s + cap)%Z) as [|Hge]; [done|]. exfalso.
  destruct (wl_cap _ _ _ _ _ _ WL). destruct (Hdense (pos s)) as [a' Ha']; [lia|].
  destruct (Hc _ _ Ha') as [(f' & Hf' & Hin)|[_ Hfull]]; [lia| |done].
  assert (own (pos s) = j) as Eo.
  { apply lookup_lt_Some in Hf'. apply lookup_lt_Some in Hj. lia. }
  rewrite Eo, Hj in Hf'. injection Hf' as <-.
  rewrite Ht in Hin, Hs. apply elem_of_cons in Hin as [[= ? ?]|Hin]; [lia|].
  pose proof (sorted_head _ _ _ Hs Hin). simpl in *. lia.
Qed.

(** A fetcher that sleeps on a slot that is free or on a raised flag. *)
Lemma asleep_overslept s j f o a rest :
  inv s → fetchers s !! j = Some f → todo f = (o, a) :: rest → pc f = Asleep (idx cap o) →
  S j ∈ cond (rb s) → (o < pos s + cap)%Z ∨ closed (rb s) = true ∨ ctxDone s = true →
  fetcher_overslept s j.
Proof.
  intros (_ & (Hsl & _ & _ & Hf & _) & _) Hj Ht Hp Hin Hw.
  destruct (slot_lookup _ _ _ _ _ _ WL _ _ _ o Hsl) as [x Hx].
  exists f, (idx cap o), x. do 4 (split; [done|]). destruct Hw as [Hlt|Hw]; [left|by right].
  destruct (Hf j f Hj) as (_ & Hpend & _).
  destruct (Hpend o a) as (_ & _ & _ & He); [rewrite Ht; left|].
  specialize (He Hlt). rewrite (stat_lookup _ _ _ _ Hx) in He. congruence.
Qed.

(** C5. A lost wakeup is the only way to hang on records that fit the buffer: when
    no goroutine of the pipeline can run and the owner has no close left to make,
    every fetcher has returned and the drainer has reported the end, or some
    goroutine is asleep in [cond.Wait] although what it waits for, a record, a free
    slot, a close or a cancellation, has already happened. It holds when the range
    fits the buffer, for any number of fetchers that put their records in ascending
    order, or when there is one fetcher and no offset of the range is missing
    ([workload_ok]). Otherwise it does not: one fetcher with the offsets 0, 2 and 4
    and two slots leave the fetcher and the drainer both asleep and waiting for what
    never comes ([gap_deadlock]). A fetcher that has put all its records can run, in
    that it can still see the end of its range. *)
Theorem stuck_overslept r s :
  NewOrderedRingBuffer cap start = Ok r →
  rtc (ring_step maxBatch) (start_pipeline r loads) s → stuck s →
  (forallb returned (fetchers s) = true ∧ drainer s = DrainFalse) ∨
  drainer_overslept s ∨ ∃ j, fetcher_overslept s j.
Proof.
  intros Hr Hrtc Hst. pose proof (inv_reachable _ _ _ _ _ _ _ WL r s Hr Hrtc) as Hinv.
  assert (sane s) as Hsane.
  { revert Hrtc. apply (rtc_invariant _ sane); [apply sane_step|].
    unfold NewOrderedRingBuffer in Hr. case_match; [done|]. by injection Hr as <-. }
  pose proof (stuck_mutex s Hinv Hsane Hst) as Hmu.
  assert (forallb returned (fetchers s) = true ∨ ∃ j f o a rest, fetchers s !! j = Some f ∧
    todo f = (o, a) :: rest ∧ pc f = Asleep (idx cap o) ∧ S j ∈ cond (rb s)) as Hfs.
  { destruct (forallb returned (fetchers s)) eqn:Hall; [by left|right].
    apply forallb_witness in Hall as (j & f & Hf & Hnr). exists j, f.
    destruct (stuck_put s j f Hinv Hst Hf) as [|[[_ [? ?]]|(o & a & rest & H)]];
      [congruence..|by exists o, a, rest]. }
  destruct (stuck_drain s Hinv Hst) as [Hd|[[_ [? ?]]|[Hd Hin]]]; [|congruence|].
  - destruct Hfs as [Hall|(j & f & o & a & rest & Hf & Ht & Hp & Hj)]; [by left|right; right].
    exists j. eapply asleep_overslept; [done..|right].
    pose proof Hinv as (_ & _ & Hok & _). rewrite Hd in Hok.
    destruct Hok as [?|[?|[Hall _]]]; [by right|left; by apply Hsane|].
    specialize (Hall j f Hf). unfold returned in Hall. by rewrite Hp in Hall.
  - right. destruct (inv_slot _ _ _ _ _ _ _ WL s Hinv) as (_ & _ & _ & x & Hx).
    assert (pos s = drainOffset (rb s)) as Hpos by (unfold pos; by rewrite Hd).
    assert (state x = slotFilled ∨ closed (rb s) = true ∨ ctxDone s = true → drainer_overslept s)
      as Hover by (intros H; by eexists _, _, x).
    destruct (decide (state x = slotFilled)) as [Hfull|Hfull]; [left; auto|].
    destruct (closed (rb s)) eqn:Hcl; [left; auto|].
    destruct Hfs as [Hall|(j & f & o & a & rest & Hf & Ht & Hp & Hj)].
    { apply Hst in Hall. congruence. }
    right. exists j. eapply asleep_overslept; [done..|left].
    eapply head_in_window; [done..|]. rewrite Hpos, (stat_lookup _ _ _ _ Hx). congruence.
Qed.
End progress.

(** ** Examples and witnesses *)

(** With one slot and two records the drainer tests the slot and is overtaken by
    two calls of [Put]: the signal of the first finds nobody asleep, and the
    second then waits for the drainer. Both sleep, and nothing is closed. *)
Definition ex_both_asleep : pipeline Z :=
  default (start_pipeline (ex_ring 1 0) [])
    (run 8 (replicate 5 EvDrain ++ replicate 8 (EvPut 0 0) ++ [EvDrain] ++ replicate 5 (EvPut 0 0))
      (start_pipeline (ex_ring 1 0) [ex_load 0 2])).

Lemma ex_both_asleep_reachable :
  rtc (ring_step 8) (start_pipeline (ex_ring 1 0) [ex_load 0 2]) ex_both_asleep.
Proof.
  apply (run_rtc 8 (replicate 5 EvDrain ++ replicate 8 (EvPut 0 0) ++ [EvDrain] ++
    replicate 5 (EvPut 0 0))). vm_compute. reflexivity.
Qed.

Lemma ex_both_asleep_stuck : stuck 8 ex_both_asleep.
Proof.
  split; [|vm_compute; discriminate].
  intros [[|j] k|[|j]| | | | |] He; done.
Qed.

Lemma stuck_overslept_witness :
  closed (rb ex_both_asleep) = false ∧ ctxDone ex_both_asleep = false ∧ out ex_both_asleep = [] ∧
  (drainer_overslept ex_both_asleep ∨ ∃ j, fetcher_overslept ex_both_asleep j).
Proof.
  do 3 (split; [vm_compute; reflexivity|]).
  assert (workload_ok 1 0 2 (ex_log 0 2) (λ _, 0%nat) [ex_load 0 2]) as WL by (apply ex_single; lia).
  destruct (stuck_overslept _ _ _ _ _ _ 8 WL _ _ (ex_ring_new 1 0 ltac:(lia))
    ex_both_asleep_reachable ex_both_asleep_stuck) as [[H _]|H]; [|exact H].
  vm_compute in H. discriminate H.
Defined.

(** Outside [workload_ok] the buffer hangs without a lost wakeup: the offsets 0, 2
    and 4 want one slot, the drainer waits for the offset 1. *)
Definition ex_gap_end : pipeline Z := Eval vm_compute in
  default (start_pipeline (ex_ring 2 0) [])
    (run 8 ex_gap_schedule (start_pipeline (ex_ring 2 0) ex_gap_loads)).

Lemma gap_deadlock :
  rtc (ring_step 8) (start_pipeline (ex_ring 2 0) ex_gap_loads) ex_gap_end ∧
  stuck 8 ex_gap_end ∧ drainer ex_gap_end = DAsleep 1 1 ∧ closed (rb ex_gap_end) = false ∧
  ¬ drainer_overslept ex_gap_end ∧ ∀ j, ¬ fetcher_overslept ex_gap_end j.
Proof.
  split; [apply (run_rtc 8 ex_gap_schedule); by vm_compute|].
  split; [split; [|vm_compute; discriminate]; by intros [[|j] k|[|j]| | | | |]|].
  do 2 (split; [by vm_compute|]). split.
  - intros (n & i & x & Hd & _ & Hx & Hw). vm_compute in Hd. injection Hd as <- <-.
    vm_compute in Hx. injection Hx as <-. vm_compute in Hw. by destruct Hw as [?|[?|?]].
  - intros [|j] (f & i & x & Hf & Hp & _ & Hx & Hw); vm_compute in Hf; [|discriminate].
    injection Hf as <-. vm_compute in Hp. injection Hp as <-.
    vm_compute in Hx. injection Hx as <-. vm_compute in Hw. by destruct Hw as [?|[?|?]].
Qed.
