(* ===== verification/Config.v ===== *)
(** * internal/config/config.go: the configuration

    The configuration structs, the defaults [Parse] fills in, the validation,
    and the TLS settings. A [time.Duration] is a number of nanoseconds, a
    [*bool] an [option bool]. Decoding YAML text into the structs is the work of
    gopkg.in/yaml.v3, a parameter of [Parse]; so are the file system and the
    certificate parsers behind the TLS settings. *)
From Stdlib Require Import Ascii.
From S2P Require Import Prelude GoStrings Filter Retry.

Local Open Scope Z_scope.

(** ** Data *)

Record SASLConfig := {
  Mechanism : string;
  Username : string;
  Password : string;
  SessionToken : string;
}.

Record TLSConfig := {
  TLSEnabled : bool;
  CACertFile : string;
  CertFile : string;
  KeyFile : string;
  SkipVerify : bool;
}.

Record ClusterConfig := {
  BootstrapServers : list string;
  SASL : option SASLConfig;
  TLS : option TLSConfig;
}.

Record TopicFilterConfig := { tfc_Whitelist : list string; tfc_Blacklist : list string }.
Record GroupFilterConfig := { gfc_Whitelist : list string; gfc_Blacklist : list string }.
Record ConfigFilterConfig := { cfc_Whitelist : list string; cfc_Blacklist : list string }.

Record ReplicationConfig := {
  Source : string;
  Target : string;
  Enabled : bool;
  TopicFilter : TopicFilterConfig;
  GroupFilter : GroupFilterConfig;
  ConfigFilter : ConfigFilterConfig;
  ReplicationPolicy : string;
  Separator : string;
  ReplicationFactor : Z;
  SyncTopicConfigs : option bool;
  SyncTopicACLs : bool;
  EmitHeartbeats : option bool;
  EmitCheckpoints : option bool;
  EmitOffsetSyncs : option bool;
  RefreshTopicsInterval : Z;
  RefreshGroupsInterval : Z;
  SyncTopicConfigsInterval : Z;
  SyncTopicACLsInterval : Z;
  HeartbeatInterval : Z;
  CheckpointInterval : Z;
  ProducerBatchSize : Z;
  ProducerLingerMs : Z;
  ConsumerPollTimeout : Z;
  MaxPollRecords : Z;
  Compression : string;
  ReadCommitted : bool;
  WorkersPerPartition : Z;
  FetchMaxPartitionBytes : Z;
  RingBufferCapacity : Z;
  ExactlyOnce : bool;
  OffsetCommitInterval : Z;
  OffsetCommitBatch : Z;
  cfg_MaxRetries : Z;
  RetryBackoffBase : Z;
  RetryBackoffMax : Z;
  DLQEnabled : bool;
  ShutdownTimeout : Z;
  OffsetSyncInterval : Z;
}.

Record MetricsConfig := { MetricsEnabled : bool; Address : string }.
Record LoggingConfig := { Level : string; Format : string }.

Record Config := {
  Clusters : gmap string ClusterConfig;
  Replications : list ReplicationConfig;
  Metrics : MetricsConfig;
  Logging : LoggingConfig;
}.

Definition BoolDefault (b : option bool) (def : bool) : bool :=
  match b with None => def | Some b => b end.

(** ** Defaults *)

(** [if x == 0 { x = d }] and [if s == "" { s = d }]. *)
Definition int_default (d x : Z) : Z := if x =? 0 then d else x.
Definition str_default (d s : string) : string := if String.eqb s "" then d else s.
Definition ptr_default (b : option bool) : option bool :=
  match b with None => Some true | Some b => Some b end.

Definition replication_defaults (r : ReplicationConfig) : ReplicationConfig := {|
  Source := Source r;
  Target := Target r;
  Enabled := Enabled r;
  TopicFilter := TopicFilter r;
  GroupFilter := GroupFilter r;
  ConfigFilter := ConfigFilter r;
  Separator := str_default "." (Separator r);
  ReplicationPolicy := str_default "default" (ReplicationPolicy r);
  ReplicationFactor := int_default 3 (ReplicationFactor r);
  RefreshTopicsInterval := int_default (10 * Second) (RefreshTopicsInterval r);
  RefreshGroupsInterval := int_default (10 * Second) (RefreshGroupsInterval r);
  SyncTopicConfigsInterval := int_default (10 * Second) (SyncTopicConfigsInterval r);
  SyncTopicACLsInterval := int_default (10 * Second) (SyncTopicACLsInterval r);
  HeartbeatInterval := int_default (1 * Second) (HeartbeatInterval r);
  CheckpointInterval := int_default (60 * Second) (CheckpointInterval r);
  ConsumerPollTimeout := int_default (1 * Second) (ConsumerPollTimeout r);
  ProducerBatchSize := int_default 16384 (ProducerBatchSize r);
  ProducerLingerMs := int_default 5 (ProducerLingerMs r);
  MaxPollRecords := int_default 500 (MaxPollRecords r);
  Compression := str_default "lz4" (Compression r);
  EmitHeartbeats := ptr_default (EmitHeartbeats r);
  EmitCheckpoints := ptr_default (EmitCheckpoints r);
  EmitOffsetSyncs := ptr_default (EmitOffsetSyncs r);
  SyncTopicConfigs := ptr_default (SyncTopicConfigs r);
  SyncTopicACLs := SyncTopicACLs r;
  ReadCommitted := ReadCommitted r;
  WorkersPerPartition := int_default 4 (WorkersPerPartition r);
  FetchMaxPartitionBytes := int_default (5 * 1024 * 1024) (FetchMaxPartitionBytes r);
  RingBufferCapacity := int_default 16384 (RingBufferCapacity r);
  ExactlyOnce := ExactlyOnce r;
  OffsetCommitInterval := int_default (5 * Second) (OffsetCommitInterval r);
  OffsetCommitBatch := int_default 1000 (OffsetCommitBatch r);
  cfg_MaxRetries := int_default 10 (cfg_MaxRetries r);
  RetryBackoffBase := int_default (100 * Millisecond) (RetryBackoffBase r);
  RetryBackoffMax := int_default (30 * Second) (RetryBackoffMax r);
  DLQEnabled := DLQEnabled r;
  ShutdownTimeout := int_default (30 * Second) (ShutdownTimeout r);
  OffsetSyncInterval := int_default 100 (OffsetSyncInterval r);
|}.

Definition setDefaults (cfg : Config) : Config := {|
  Clusters := Clusters cfg;
  Replications := replication_defaults <$> Replications cfg;
  Metrics := {| MetricsEnabled := MetricsEnabled (Metrics cfg);
                Address := str_default ":9090" (Address (Metrics cfg)) |};
  Logging := {| Level := str_default "info" (Level (Logging cfg));
                Format := str_default "json" (Format (Logging cfg)) |};
|}.

(** ** Validation *)

Section validate.
Context {RE : RegexpEngine}.

Definition validCompressions : list string := ["none"; "gzip"; "snappy"; "lz4"; "zstd"; ""].

(** [for name, cc := range c.Clusters], in the order Go happens to pick. *)
Fixpoint validate_clusters (cs : list (string * ClusterConfig)) : outcome unit :=
  match cs with
  | [] => Ok ()
  | (name, cc) :: cs =>
      if (length (BootstrapServers cc) =? 0)%nat
      then Err (Errorf "cluster %q: bootstrap_servers is empty" [name])
      else validate_clusters cs
  end.

(** [for _, p := range patterns { if _, err := regexp.Compile(p); err != nil ... }] *)
Fixpoint validate_patterns (fmt : string) (i : nat) (ps : list string) : outcome unit :=
  match ps with
  | [] => Ok ()
  | p :: ps =>
      match Compile p with
      | inl err => Err (Wrapf fmt [pretty i; p] err)
      | inr _ => validate_patterns fmt i ps
      end
  end.

Definition validate_replication (c : Config) (i : nat) (r : ReplicationConfig) : outcome unit :=
  if negb (Enabled r) then Ok ()
  else if bool_decide (Clusters c !! Source r = None)
  then Err (Errorf "replication[%d]: source cluster %q not defined" [pretty i; Source r])
  else if bool_decide (Clusters c !! Target r = None)
  then Err (Errorf "replication[%d]: target cluster %q not defined" [pretty i; Target r])
  else if String.eqb (Source r) (Target r)
  then Err (Errorf "replication[%d]: source and target must differ" [pretty i])
  else if ExactlyOnce r
  then Err (Errorf "replication[%d]: exactly_once is not yet implemented; remove this option or set to false"
              [pretty i])
  else
    validate_patterns "replication[%d]: invalid topic whitelist regex %q: %w" i
      (tfc_Whitelist (TopicFilter r)) ≫= λ _,
    validate_patterns "replication[%d]: invalid topic blacklist regex %q: %w" i
      (tfc_Blacklist (TopicFilter r)) ≫= λ _,
    if bool_decide (Compression r ∈ validCompressions) then Ok ()
    else Err (Errorf "replication[%d]: unsupported compression %q" [pretty i; Compression r]).

Fixpoint validate_replications (c : Config) (i : nat) (rs : list ReplicationConfig)
    : outcome unit :=
  match rs with
  | [] => Ok ()
  | r :: rs => validate_replication c i r ≫= λ _, validate_replications c (S i) rs
  end.

(** [order] lists the entries of [c.Clusters] as the map iteration visits them. *)
Definition Validate (order : list (string * ClusterConfig)) (c : Config) : outcome unit :=
  if (size (Clusters c) =? 0)%nat then Err (Errorf "no clusters defined" [])
  else
    validate_clusters order ≫= λ _,
    if (length (Replications c) =? 0)%nat then Err (Errorf "no replications defined" [])
    else validate_replications c 0 (Replications c).

(** What a configuration that passes guarantees. *)
Definition pattern_ok (p : string) : Prop := ∃ re, Compile p = inr re.

Definition replication_ok (c : Config) (r : ReplicationConfig) : Prop :=
  Enabled r = true →
  is_Some (Clusters c !! Source r) ∧ is_Some (Clusters c !! Target r) ∧
  Source r ≠ Target r ∧ ExactlyOnce r = false ∧
  Forall pattern_ok (tfc_Whitelist (TopicFilter r) ++ tfc_Blacklist (TopicFilter r)) ∧
  Compression r ∈ validCompressions.

Lemma validate_patterns_ok fmt i ps :
  validate_patterns fmt i ps = Ok () ↔ Forall pattern_ok ps.
Proof.
  induction ps as [|p ps IH]; simpl; [by split|]. rewrite Forall_cons, <- IH.
  unfold pattern_ok. destruct (Compile p) as [e|re]; [|naive_solver].
  split; [done|]. by intros [[? [=]] _].
Qed.

Lemma validate_clusters_ok cs :
  validate_clusters cs = Ok () ↔ Forall (λ nc, BootstrapServers nc.2 ≠ []) cs.
Proof.
  induction cs as [|[name cc] cs IH]; simpl; [by split|]. rewrite Forall_cons, <- IH. simpl.
  destruct (BootstrapServers cc); simpl; [|naive_solver].
  split; [done|]. by intros [? _].
Qed.

Lemma validate_replication_ok c i r :
  validate_replication c i r = Ok () ↔ replication_ok c r.
Proof.
  unfold validate_replication, replication_ok. destruct (Enabled r); simpl; [|by split].
  case_bool_decide as Hs.
  { split; [done|]. intros H. destruct (H eq_refl) as ([? ?] & _). congruence. }
  case_bool_decide as Ht.
  { split; [done|]. intros H. destruct (H eq_refl) as (_ & [? ?] & _). congruence. }
  apply not_eq_None_Some in Hs, Ht.
  destruct (String.eqb_spec (Source r) (Target r)); [split; [done|naive_solver]|].
  destruct (ExactlyOnce r); [split; [done|naive_solver]|].
  rewrite Forall_app, bind_ok.
  split.
  - intros ([] & Hw & Hrest). apply bind_ok in Hrest as ([] & Hb & Hc).
    rewrite validate_patterns_ok in Hw, Hb. case_bool_decide; [|done]. done.
  - intros H. destruct (H eq_refl) as (_ & _ & _ & _ & [Hw Hb] & Hc).
    exists (). rewrite validate_patterns_ok. split; [done|]. rewrite bind_ok.
    exists (). rewrite validate_patterns_ok. by rewrite bool_decide_true.
Qed.

Lemma validate_replications_ok c i rs :
  validate_replications c i rs = Ok () ↔ Forall (replication_ok c) rs.
Proof.
  revert i. induction rs as [|r rs IH]; intros i; simpl; [by split|].
  rewrite Forall_cons, bind_ok, <- (IH (S i)). split.
  - intros ([] & H & ?). by rewrite validate_replication_ok in H.
  - intros [H ?]. exists (). by rewrite validate_replication_ok.
Qed.
End validate.

(** ** Loading

    [os.ExpandEnv] on the text, then YAML decoding, then the defaults. *)

Definition isShellSpecialVar (c : Ascii.ascii) : bool :=
  bool_decide (c ∈ String.list_ascii_of_string "*#$@!?-0123456789").

Definition isAlphaNum (c : Ascii.ascii) : bool :=
  let n := Ascii.N_of_ascii c in
  ((n =? 95) || ((48 <=? n) && (n <=? 57)) || ((97 <=? n) && (n <=? 122))
   || ((65 <=? n) && (n <=? 90)))%N.

Fixpoint alnum_prefix (s : string) : nat :=
  match s with
  | String c s => if isAlphaNum c then S (alnum_prefix s) else 0
  | EmptyString => 0
  end%nat.

(** The variable name that starts [s], and how many bytes it takes. *)
Definition getShellName (s : string) : string * nat :=
  let scan :=
    match str_index s "}" with
    | Some i => if (i =? 1)%nat then ("", 2) else (str_take (i - 1) (str_drop 1 s), S i)
    | None => ("", 1)
    end%nat in
  match s with
  | EmptyString => ("", 0)
  | String "{"%char (String c (String "}"%char _)) =>
      if isShellSpecialVar c then (String c "", 3) else scan
  | String "{"%char _ => scan
  | String c _ =>
      if isShellSpecialVar c then (String c "", 1)
      else (str_take (alnum_prefix s) s, alnum_prefix s)
  end%nat.

(** [os.Expand(s, mapping)]; the length of [s] is enough fuel. *)
Fixpoint expand_loop (fuel : nat) (mapping : string → string) (s : string) : string :=
  match fuel with
  | O => s
  | S fuel =>
      match s with
      | EmptyString => ""
      | String c rest =>
          if Ascii.eqb c "$"%char && negb (String.eqb rest "") then
            let '(name, w) := getShellName rest in
            (if String.eqb name "" then if (w =? 0)%nat then "$" else ""
             else mapping name)
            +:+ expand_loop fuel mapping (str_drop w rest)
          else String c (expand_loop fuel mapping rest)
      end
  end.

Definition Expand (mapping : string → string) (s : string) : string :=
  expand_loop (String.length s) mapping s.

Section parse.
(** The process environment, the YAML decoder and the file system. *)
Context (Getenv : string → string) (Unmarshal : string → error + Config)
  (ReadFile : string → error + string).

Definition ExpandEnv : string → string := Expand Getenv.

Definition Parse (data : string) : outcome Config :=
  match Unmarshal (ExpandEnv data) with
  | inl err => Err (Wrapf "parse config: %w" [] err)
  | inr cfg => Ok (setDefaults cfg)
  end.

Definition Load (path : string) : outcome Config :=
  match ReadFile path with
  | inl err => Err (Wrapf "read config file %s: %w" [path] err)
  | inr data => Parse data
  end.
End parse.

Example expand_examples :
  let env n := if String.eqb n "USER" then "bob" else if String.eqb n "1" then "one" else "" in
  Expand env <$> ["u: ${USER}!"; "u: $USER."; "a$"; "$1x"; "p: pa$$word"; "${}x"; "${1}"; "$,"]
  = ["u: bob!"; "u: bob."; "a$"; "onex"; "p: paword"; "x"; "one"; "$,"].
Proof. reflexivity. Qed.

(** ** Properties *)

(** The fields that have a default. *)
Definition int_fields : list (ReplicationConfig → Z) :=
  [ReplicationFactor; RefreshTopicsInterval; RefreshGroupsInterval; SyncTopicConfigsInterval;
   SyncTopicACLsInterval; HeartbeatInterval; CheckpointInterval; ConsumerPollTimeout;
   ProducerBatchSize; ProducerLingerMs; MaxPollRecords; WorkersPerPartition;
   FetchMaxPartitionBytes; RingBufferCapacity; OffsetCommitInterval; OffsetCommitBatch;
   cfg_MaxRetries; RetryBackoffBase; RetryBackoffMax; ShutdownTimeout; OffsetSyncInterval].
Definition str_fields : list (ReplicationConfig → string) :=
  [Separator; ReplicationPolicy; Compression].
Definition ptr_fields : list (ReplicationConfig → option bool) :=
  [EmitHeartbeats; EmitCheckpoints; EmitOffsetSyncs; SyncTopicConfigs].

Lemma int_default_spec d x : d ≠ 0 →
  int_default d x ≠ 0 ∧ (x ≠ 0 → int_default d x = x) ∧
  int_default d (int_default d x) = int_default d x.
Proof.
  intros Hd. unfold int_default. destruct (Z.eqb_spec x 0) as [->|Hx].
  - rewrite (proj2 (Z.eqb_neq d 0)) by done. done.
  - by rewrite (proj2 (Z.eqb_neq x 0)) by done.
Qed.

Lemma str_default_spec d s : d ≠ "" →
  str_default d s ≠ "" ∧ (s ≠ "" → str_default d s = s) ∧
  str_default d (str_default d s) = str_default d s.
Proof.
  intros Hd. unfold str_default. destruct (String.eqb_spec s "") as [->|Hs].
  - by destruct (String.eqb_spec d "").
  - by rewrite (proj2 (String.eqb_neq s "")) by done.
Qed.

Lemma ptr_default_spec b :
  is_Some (ptr_default b) ∧ (is_Some b → ptr_default b = b) ∧
  ptr_default (ptr_default b) = ptr_default b.
Proof. destruct b; simpl; split; [by eexists|split; [done|done]|by eexists|]. split; [by intros [??]|done]. Qed.

Lemma replication_defaults_idem r :
  replication_defaults (replication_defaults r) = replication_defaults r.
Proof.
  unfold replication_defaults. cbn [Source Target Enabled TopicFilter GroupFilter ConfigFilter
    ReplicationPolicy Separator ReplicationFactor SyncTopicConfigs SyncTopicACLs EmitHeartbeats
    EmitCheckpoints EmitOffsetSyncs RefreshTopicsInterval RefreshGroupsInterval
    SyncTopicConfigsInterval SyncTopicACLsInterval HeartbeatInterval CheckpointInterval
    ProducerBatchSize ProducerLingerMs ConsumerPollTimeout MaxPollRecords Compression
    ReadCommitted WorkersPerPartition FetchMaxPartitionBytes RingBufferCapacity ExactlyOnce
    OffsetCommitInterval OffsetCommitBatch cfg_MaxRetries RetryBackoffBase RetryBackoffMax
    DLQEnabled ShutdownTimeout OffsetSyncInterval].
  f_equal; first [by apply int_default_spec|by apply str_default_spec|by apply ptr_default_spec].
Qed.

(** A text after defaulting: [d] when it was empty, and as it was otherwise. *)
Definition defaulted (d s s' : string) : Prop := (s = "" → s' = d) ∧ (s ≠ "" → s' = s).

Lemma str_defaulted d s : defaulted d s (str_default d s).
Proof.
  unfold str_default. split; [by intros ->|]. intros H. by rewrite (proj2 (String.eqb_neq s "")).
Qed.

(** C33. Defaults. Filling them in leaves no defaulted field of a flow unset, changes
    no field that was set, and leaves every other field of the flow alone; what was
    unset becomes what the sample configuration announces: heartbeats, checkpoints,
    offset syncs and the sync of topic configurations on, the default policy with
    the separator ".", LZ4 compression and batches of 16 KB. The address of the
    metrics, and the level and the format of the log, become ":9090", "info" and
    "json" when they were empty and stay otherwise; whether the metrics are served,
    and the clusters, stay as they are. It is idempotent: a configuration that
    comes out of [Parse] is a fixed point of [setDefaults]. *)
Theorem setDefaults_spec cfg :
  Forall2 (λ r r',
    (∀ f, f ∈ int_fields → f r' ≠ 0 ∧ (f r ≠ 0 → f r' = f r)) ∧
    (∀ f, f ∈ str_fields → f r' ≠ "" ∧ (f r ≠ "" → f r' = f r)) ∧
    (∀ f, f ∈ ptr_fields → f r' = Some (default true (f r))) ∧
    (defaulted "." (Separator r) (Separator r') ∧
     defaulted "default" (ReplicationPolicy r) (ReplicationPolicy r') ∧
     defaulted "lz4" (Compression r) (Compression r') ∧
     (ProducerBatchSize r = 0 → ProducerBatchSize r' = 16 * 1024)) ∧
    (Source r', Target r', Enabled r', TopicFilter r', GroupFilter r', ConfigFilter r',
     SyncTopicACLs r', ReadCommitted r', ExactlyOnce r', DLQEnabled r') =
    (Source r, Target r, Enabled r, TopicFilter r, GroupFilter r, ConfigFilter r,
     SyncTopicACLs r, ReadCommitted r, ExactlyOnce r, DLQEnabled r))
    (Replications cfg) (Replications (setDefaults cfg)) ∧
  MetricsEnabled (Metrics (setDefaults cfg)) = MetricsEnabled (Metrics cfg) ∧
  defaulted ":9090" (Address (Metrics cfg)) (Address (Metrics (setDefaults cfg))) ∧
  defaulted "info" (Level (Logging cfg)) (Level (Logging (setDefaults cfg))) ∧
  defaulted "json" (Format (Logging cfg)) (Format (Logging (setDefaults cfg))) ∧
  Clusters (setDefaults cfg) = Clusters cfg ∧
  setDefaults (setDefaults cfg) = setDefaults cfg ∧
  (∀ Getenv Unmarshal data cfg', Parse Getenv Unmarshal data = Ok cfg' →
     setDefaults cfg' = cfg').
Proof.
  assert (∀ c, setDefaults (setDefaults c) = setDefaults c) as Hidem.
  { intros c. unfold setDefaults. cbn [Replications Clusters Metrics Logging MetricsEnabled
      Address Level Format]. rewrite <- list_fmap_compose. f_equal.
    - apply list_fmap_ext. intros _ r _. apply replication_defaults_idem.
    - f_equal. by apply str_default_spec.
    - f_equal; by apply str_default_spec. }
  split; [|split_and!; try done; try apply str_defaulted].
  - cbn [Replications setDefaults]. apply Forall2_fmap_r, Forall_Forall2_diag.
    apply Forall_forall. intros r _. split; [|split; [|split; [|split; [|done]]]].
    + apply Forall_forall. repeat constructor; by apply int_default_spec.
    + apply Forall_forall. repeat constructor; by apply str_default_spec.
    + apply Forall_forall. repeat constructor; simpl; by destruct (_ r).
    + split_and!; try apply str_defaulted. intros H. simpl. unfold int_default. by rewrite H.
  - intros Getenv Unmarshal data cfg'. unfold Parse.
    destruct (Unmarshal _); [done|]. by intros [= <-].
Qed.

(** C31. Validation is exact: it accepts a configuration, whatever the order of the
    map iteration, just when there are clusters and flows, every cluster has
    bootstrap servers, and every enabled flow joins two different defined
    clusters, does not ask for exactly-once, has topic patterns that compile and
    a known compression. The topic filter of an enabled
    flow of an accepted configuration can then be built. *)
Theorem Validate_ok_iff {RE : RegexpEngine} order c :
  order ≡ₚ map_to_list (Clusters c) →
  (Validate order c = Ok () ↔
     Clusters c ≠ ∅ ∧ Replications c ≠ [] ∧
     (∀ name cc, Clusters c !! name = Some cc → BootstrapServers cc ≠ []) ∧
     Forall (replication_ok c) (Replications c)) ∧
  (Validate order c = Ok () → ∀ r, r ∈ Replications c → Enabled r = true →
     is_ok (NewTopicFilter (tfc_Whitelist (TopicFilter r)) (tfc_Blacklist (TopicFilter r)))
     = true).
Proof.
  intros Hord.
  assert (Validate order c = Ok () ↔
     Clusters c ≠ ∅ ∧ Replications c ≠ [] ∧
     (∀ name cc, Clusters c !! name = Some cc → BootstrapServers cc ≠ []) ∧
     Forall (replication_ok c) (Replications c)) as Hiff.
  { unfold Validate. destruct (Nat.eqb_spec (size (Clusters c)) 0) as [Hz|Hz].
    { apply map_size_empty_iff in Hz. split; [done|]. by intros [? _]. }
    rewrite map_size_empty_iff in Hz. rewrite bind_ok.
    assert (Forall (λ nc, BootstrapServers nc.2 ≠ []) order ↔
      ∀ name cc, Clusters c !! name = Some cc → BootstrapServers cc ≠ []) as <-.
    { rewrite Hord, Forall_forall. split.
      - intros H name cc Hc. apply (H (name, cc)). by apply elem_of_map_to_list.
      - intros H [name cc] Hc. apply (H name). by apply elem_of_map_to_list. }
    rewrite <- validate_clusters_ok, <- (validate_replications_ok c 0).
    destruct (Replications c) as [|r rs]; cbn [length Nat.eqb].
    - split; [by intros ([] & _ & ?)|]. by intros (_ & ? & _).
    - split; [intros ([] & ? & ?); by repeat split|]. intros (_ & _ & ? & ?). by exists (). }
  split; [done|]. intros (_ & _ & _ & Hr)%Hiff r Hin Hen.
  rewrite Forall_forall in Hr. destruct (Hr r Hin Hen) as (_ & _ & _ & _ & Hp & _).
  apply Forall_app in Hp as [Hw Hb]. apply compilePatterns_ok in Hw, Hb. unfold NewTopicFilter.
  destruct (compilePatterns (tfc_Whitelist _)); [|done..].
  by destruct (compilePatterns (tfc_Blacklist _)).
Qed.

(** ** An example *)

Definition ex_replication : ReplicationConfig := {|
  Source := "east"; Target := "west"; Enabled := true;
  TopicFilter := {| tfc_Whitelist := ["orders"]; tfc_Blacklist := [] |};
  GroupFilter := {| gfc_Whitelist := []; gfc_Blacklist := [] |};
  ConfigFilter := {| cfc_Whitelist := []; cfc_Blacklist := [] |};
  ReplicationPolicy := ""; Separator := ""; ReplicationFactor := 0;
  SyncTopicConfigs := None; SyncTopicACLs := false; EmitHeartbeats := None;
  EmitCheckpoints := Some false; EmitOffsetSyncs := None;
  RefreshTopicsInterval := 0; RefreshGroupsInterval := 0; SyncTopicConfigsInterval := 0;
  SyncTopicACLsInterval := 0; HeartbeatInterval := 0; CheckpointInterval := 0;
  ProducerBatchSize := 0; ProducerLingerMs := 0; ConsumerPollTimeout := 0;
  MaxPollRecords := 0; Compression := "zstd"; ReadCommitted := false;
  WorkersPerPartition := 8; FetchMaxPartitionBytes := 0; RingBufferCapacity := 0;
  ExactlyOnce := false; OffsetCommitInterval := 0; OffsetCommitBatch := 0;
  cfg_MaxRetries := 0; RetryBackoffBase := 0; RetryBackoffMax := 0; DLQEnabled := true;
  ShutdownTimeout := 0; OffsetSyncInterval := 0 |}.

Definition ex_cluster (host : string) : ClusterConfig :=
  {| BootstrapServers := [host]; SASL := None; TLS := None |}.

Definition ex_config : Config := {|
  Clusters := {["east" := ex_cluster "e:9092"; "west" := ex_cluster "w:9092"]};
  Replications := [ex_replication];
  Metrics := {| MetricsEnabled := true; Address := "" |};
  Logging := {| Level := ""; Format := "" |} |}.

Lemma Validate_ok_iff_witness :
  Validate (map_to_list (Clusters ex_config)) ex_config = Ok () ∧
  is_ok (NewTopicFilter (tfc_Whitelist (TopicFilter ex_replication))
                        (tfc_Blacklist (TopicFilter ex_replication))) = true.
Proof.
  assert (Validate (map_to_list (Clusters ex_config)) ex_config = Ok ()) as H
    by (vm_compute; reflexivity).
  split; [exact H|].
  refine (proj2 (Validate_ok_iff (map_to_list (Clusters ex_config)) ex_config (reflexivity _))
    H ex_replication _ eq_refl).
  apply list_elem_of_singleton. reflexivity.
Defined.
