(* ===== verification/ClientOpts.v ===== *)
(** * Client options: internal/config/sasl.go, internal/kafka/builder.go and
    [BuildTLSConfig] of internal/config/config.go

    How a cluster's settings become the options of a franz-go client. An option
    is represented by the call that makes it. The file system, the certificate
    parsers and the AWS SDK are parameters; what the SDK answers may change from
    one call to the next, so [Retrieve] also takes the moment of the call. *)
From Stdlib Require Import Ascii.
From S2P Require Import Prelude GoStrings Filter Retry Config.

Local Open Scope Z_scope.

(** ** [strings.TrimSpace] and [strings.ToUpper] *)

Definition str_of_codes (l : list N) : string :=
  String.string_of_list_ascii (ascii_of_N <$> l).

(** The UTF-8 encodings of the Unicode white space characters. *)
Definition white_space : list string :=
  str_of_codes <$>
    ([[9]; [10]; [11]; [12]; [13]; [32]; [0xC2; 0x85]; [0xC2; 0xA0]; [0xE1; 0x9A; 0x80];
      [0xE2; 0x80; 0x80]; [0xE2; 0x80; 0x81]; [0xE2; 0x80; 0x82]; [0xE2; 0x80; 0x83];
      [0xE2; 0x80; 0x84]; [0xE2; 0x80; 0x85]; [0xE2; 0x80; 0x86]; [0xE2; 0x80; 0x87];
      [0xE2; 0x80; 0x88]; [0xE2; 0x80; 0x89]; [0xE2; 0x80; 0x8A]; [0xE2; 0x80; 0xA8];
      [0xE2; 0x80; 0xA9]; [0xE2; 0x80; 0xAF]; [0xE2; 0x81; 0x9F]; [0xE3; 0x80; 0x80]])%N.

Fixpoint trim_left (fuel : nat) (s : string) : string :=
  match fuel with
  | O => s
  | S fuel =>
      match filter (λ sp, HasPrefix s sp = true) white_space with
      | sp :: _ => trim_left fuel (str_drop (String.length sp) s)
      | [] => s
      end
  end.

Fixpoint trim_right (fuel : nat) (s : string) : string :=
  match fuel with
  | O => s
  | S fuel =>
      match filter (λ sp, HasSuffix s sp = true) white_space with
      | sp :: _ => trim_right fuel (str_take (String.length s - String.length sp) s)
      | [] => s
      end
  end.

Definition TrimSpace (s : string) : string :=
  let s := trim_left (String.length s) s in trim_right (String.length s) s.

(** Upper case of the ASCII letters and of the two other characters whose upper
    case is ASCII, the dotless i and the long s. Further characters stay as they
    are here; Go maps them to characters that are not ASCII either. *)
Fixpoint ToUpper (s : string) : string :=
  match s with
  | EmptyString => EmptyString
  | String c s' =>
      let n := N_of_ascii c in
      if ((97 <=? n) && (n <=? 122))%N then String (ascii_of_N (n - 32)) (ToUpper s')
      else
        match s' with
        | String c' s'' =>
            let n' := N_of_ascii c' in
            if ((n =? 0xC4) && (n' =? 0xB1))%N then String "I" (ToUpper s'')
            else if ((n =? 0xC5) && (n' =? 0xBF))%N then String "S" (ToUpper s'')
            else String c (ToUpper s')
        | EmptyString => String c EmptyString
        end
  end.

Example normalize_examples :
  (λ s, ToUpper (TrimSpace s)) <$> [" plain "; "Scram-Sha-256"; "aws_msk_iam"; ""]
  = ["PLAIN"; "SCRAM-SHA-256"; "AWS_MSK_IAM"; ""].
Proof. reflexivity. Qed.

(** ** The world outside *)

Record Credentials := {
  AccessKeyID : string;
  SecretAccessKey : string;
  CredToken : string;
  CanExpire : bool;
}.

Class Outside := {
  ReadFile : string → error + list byte;
  CertPool : Type;
  AppendCertsFromPEM : list byte → option CertPool;  (* into a new pool *)
  Certificate : Type;
  LoadX509KeyPair : string → string → error + Certificate;
  CredentialsProvider : Type;
  LoadDefaultConfig : error + CredentialsProvider;
  Retrieve : Z → CredentialsProvider → error + Credentials;
}.

Section opts.
Context {OS : Outside}.

(** ** TLS *)

Record tls_Config := {
  InsecureSkipVerify : bool;
  RootCAs : option CertPool;
  Certificates : list Certificate;
}.

Definition BuildTLSConfig (tc : option TLSConfig) : outcome (option tls_Config) :=
  match tc with
  | None => Ok None
  | Some tc =>
      if negb (TLSEnabled tc) then Ok None
      else
        pool ←
          (if negb (String.eqb (CACertFile tc) "") then
             match ReadFile (CACertFile tc) with
             | inl err => Err (Wrapf "read CA cert: %w" [] err)
             | inr caCert =>
                 match AppendCertsFromPEM caCert with
                 | None => Err (Errorf "failed to parse CA cert from %s" [CACertFile tc])
                 | Some pool => Ok (Some pool)
                 end
             end
           else Ok None);
        certs ←
          (if negb (String.eqb (CertFile tc) "") && negb (String.eqb (KeyFile tc) "") then
             match LoadX509KeyPair (CertFile tc) (KeyFile tc) with
             | inl err => Err (Wrapf "load client cert: %w" [] err)
             | inr cert => Ok [cert]
             end
           else Ok []);
        Ok (Some {| InsecureSkipVerify := SkipVerify tc; RootCAs := pool;
                    Certificates := certs |})
  end.

(** ** SASL *)

Inductive SaslMechanism :=
  | PlainAuth (User Pass : string)
  | ScramSha256 (User Pass : string)
  | ScramSha512 (User Pass : string)
  | ManagedStreamingIAM (AccessKey SecretKey Token : string)
  | refreshableIAM (provider : CredentialsProvider).

Inductive kgo_Opt :=
  | kgo_SeedBrokers (seeds : list string)
  | kgo_DialTLSConfig (c : option tls_Config)
  | kgo_SASL (m : SaslMechanism)
  (* options the callers append *)
  | kgo_ConsumeTopics (topics : list string)
  | kgo_ConsumePartition (topic : string) (partition at_offset : Z)
  | kgo_ConsumeResetOffsetAtStart
  | kgo_ConsumerGroup (group : string)
  | kgo_DisableAutoCommit
  | kgo_FetchMaxBytes (b : Z)
  | kgo_FetchMaxPartitionBytes (b : Z)
  | kgo_FetchMinBytes (b : Z)
  | kgo_FetchMaxWait (d : Z)
  | kgo_FetchReadCommitted
  | kgo_ProducerBatchMaxBytes (b : Z)
  | kgo_ProducerLinger (d : Z)
  | kgo_ManualPartitioner
  | kgo_RequireAllISRAcks
  | kgo_ProducerBatchCompression (codec : string)
  | kgo_MaxProduceRequestsInflightPerBroker (n : Z)
  | kgo_MaxBufferedRecords (n : Z).

Definition newRefreshableIAMMechanism (provider : CredentialsProvider) : SaslMechanism :=
  refreshableIAM provider.

Definition refreshableIAM_Name (m : SaslMechanism) : string := "AWS_MSK_IAM".

(** The mechanism that [Authenticate] of a refreshable mechanism delegates to. *)
Definition refreshableIAM_Authenticate (now : Z) (provider : CredentialsProvider)
    : outcome SaslMechanism :=
  match Retrieve now provider with
  | inl err => Err (Wrapf "refresh AWS credentials for MSK IAM: %w" [] err)
  | inr creds =>
      Ok (ManagedStreamingIAM (AccessKeyID creds) (SecretAccessKey creds) (CredToken creds))
  end.

Definition BuildSASLOpt (now : Z) (sc : option SASLConfig) : outcome (option kgo_Opt) :=
  match sc with
  | None => Ok None
  | Some sc =>
      let mechanism := ToUpper (TrimSpace (Mechanism sc)) in
      m ←
        (if String.eqb mechanism "PLAIN" then Ok (PlainAuth (Username sc) (Password sc))
         else if String.eqb mechanism "SCRAM-SHA-256" then
           Ok (ScramSha256 (Username sc) (Password sc))
         else if String.eqb mechanism "SCRAM-SHA-512" then
           Ok (ScramSha512 (Username sc) (Password sc))
         else if String.eqb mechanism "AWS_MSK_IAM" then
           if negb (String.eqb (Username sc) "") then
             Ok (ManagedStreamingIAM (Username sc) (Password sc) (SessionToken sc))
           else
             match LoadDefaultConfig with
             | inl err =>
                 Err (Wrapf "load AWS default credential chain for MSK IAM: %w" [] err)
             | inr provider =>
                 match Retrieve now provider with
                 | inl err => Err (Wrapf "retrieve AWS credentials for MSK IAM: %w" [] err)
                 | inr creds =>
                     Ok (if CanExpire creds then newRefreshableIAMMechanism provider
                         else ManagedStreamingIAM (AccessKeyID creds) (SecretAccessKey creds)
                                (CredToken creds))
                 end
             end
         else Err (Errorf "unsupported SASL mechanism %q (supported: PLAIN, SCRAM-SHA-256, SCRAM-SHA-512, AWS_MSK_IAM)"
                     [Mechanism sc]));
      Ok (Some (kgo_SASL m))
  end.

(** ** internal/kafka/builder.go *)

Definition BuildClientOpts (now : Z) (cc : ClusterConfig) : outcome (list kgo_Opt) :=
  let opts := [kgo_SeedBrokers (BootstrapServers cc)] in
  opts ←
    (match TLS cc with
     | Some tc =>
         if TLSEnabled tc then
           tlsCfg ← wrap_err "build TLS config: %w" [] (BuildTLSConfig (Some tc));
           Ok (opts ++ [kgo_DialTLSConfig tlsCfg])
         else Ok opts
     | None => Ok opts
     end);
  match SASL cc with
  | Some sc =>
      saslOpt ← wrap_err "build SASL config: %w" [] (BuildSASLOpt now (Some sc));
      Ok (match saslOpt with Some o => opts ++ [o] | None => opts end)
  | None => Ok opts
  end.

(** ** Properties *)

(** The TLS settings that are asked for: the certificate authorities are those of
    the file named, the client certificate is the one of the two files named. *)
Definition tls_for (tc : TLSConfig) (c : tls_Config) : Prop :=
  InsecureSkipVerify c = SkipVerify tc ∧
  (CACertFile tc ≠ "" → ∃ pem pool, ReadFile (CACertFile tc) = inr pem ∧
     AppendCertsFromPEM pem = Some pool ∧ RootCAs c = Some pool) ∧
  (CACertFile tc = "" → RootCAs c = None) ∧
  (CertFile tc ≠ "" → KeyFile tc ≠ "" → ∃ cert,
     LoadX509KeyPair (CertFile tc) (KeyFile tc) = inr cert ∧ Certificates c = [cert]) ∧
  (CertFile tc = "" ∨ KeyFile tc = "" → Certificates c = []).

Definition tls_opts (cc : ClusterConfig) (opts : list kgo_Opt) : Prop :=
  match TLS cc with
  | Some tc =>
      if TLSEnabled tc then ∃ c, opts = [kgo_DialTLSConfig (Some c)] ∧ tls_for tc c
      else opts = []
  | None => opts = []
  end.

(** The mechanisms, however their names are written. *)
Definition named (sc : SASLConfig) (name : string) : Prop := ToUpper (TrimSpace (Mechanism sc)) = name.

(** The authentication that is asked for: the mechanism named, with the credentials
    of the configuration, or, for IAM without a user name, those of the default
    chain, which are retrieved for every session when they can expire. *)
Inductive sasl_for (now : Z) (sc : SASLConfig) : SaslMechanism → Prop :=
  | sf_plain : named sc "PLAIN" → sasl_for now sc (PlainAuth (Username sc) (Password sc))
  | sf_scram256 :
      named sc "SCRAM-SHA-256" → sasl_for now sc (ScramSha256 (Username sc) (Password sc))
  | sf_scram512 :
      named sc "SCRAM-SHA-512" → sasl_for now sc (ScramSha512 (Username sc) (Password sc))
  | sf_iam :
      named sc "AWS_MSK_IAM" → Username sc ≠ "" →
      sasl_for now sc (ManagedStreamingIAM (Username sc) (Password sc) (SessionToken sc))
  | sf_iam_chain provider creds :
      named sc "AWS_MSK_IAM" → Username sc = "" →
      LoadDefaultConfig = inr provider → Retrieve now provider = inr creds →
      sasl_for now sc
        (if CanExpire creds then refreshableIAM provider
         else ManagedStreamingIAM (AccessKeyID creds) (SecretAccessKey creds) (CredToken creds)).

Definition sasl_opts (now : Z) (cc : ClusterConfig) (opts : list kgo_Opt) : Prop :=
  match SASL cc with
  | Some sc => ∃ m, opts = [kgo_SASL m] ∧ sasl_for now sc m
  | None => opts = []
  end.

Lemma BuildTLSConfig_enabled tc r :
  TLSEnabled tc = true → BuildTLSConfig (Some tc) = Ok r → ∃ c, r = Some c ∧ tls_for tc c.
Proof.
  intros Hen. unfold BuildTLSConfig. rewrite Hen. cbn [negb].
  intros (pool & Hpool & Hrest)%bind_ok.
  apply bind_ok in Hrest as (certs & Hcerts & [= <-]).
  eexists. split; [done|]. unfold tls_for. cbn [InsecureSkipVerify RootCAs Certificates].
  split; [done|].
  destruct (String.eqb_spec (CACertFile tc) "") as [Eca|Eca]; cbn [negb] in Hpool;
    destruct (String.eqb_spec (CertFile tc) "") as [Ec|Ec];
    destruct (String.eqb_spec (KeyFile tc) "") as [Ek|Ek]; cbn [negb andb] in Hcerts;
    repeat case_match; simplify_eq; try done; split_and!; naive_solver.
Qed.

Lemma BuildSASLOpt_some now sc r :
  BuildSASLOpt now (Some sc) = Ok r → ∃ m, r = Some (kgo_SASL m) ∧ sasl_for now sc m.
Proof.
  unfold BuildSASLOpt. intros (m & Hm & [= <-])%bind_ok. exists m. split; [done|].
  destruct (String.eqb_spec (ToUpper (TrimSpace (Mechanism sc))) "PLAIN") as [E|_];
    [injection Hm as <-; by apply sf_plain|].
  destruct (String.eqb_spec (ToUpper (TrimSpace (Mechanism sc))) "SCRAM-SHA-256") as [E|_];
    [injection Hm as <-; by apply sf_scram256|].
  destruct (String.eqb_spec (ToUpper (TrimSpace (Mechanism sc))) "SCRAM-SHA-512") as [E|_];
    [injection Hm as <-; by apply sf_scram512|].
  destruct (String.eqb_spec (ToUpper (TrimSpace (Mechanism sc))) "AWS_MSK_IAM") as [E|_]; [|done].
  destruct (String.eqb_spec (Username sc) "") as [Eu|Eu]; cbn [negb] in Hm.
  - destruct LoadDefaultConfig as [?|provider] eqn:El; [done|].
    destruct (Retrieve now provider) as [?|creds] eqn:Er; [done|].
    injection Hm as <-. by apply sf_iam_chain.
  - injection Hm as <-. by apply sf_iam.
Qed.

Lemma BuildClientOpts_no_panic now cc why : BuildClientOpts now cc ≠ Panic why.
Proof.
  unfold BuildClientOpts, BuildTLSConfig, BuildSASLOpt, wrap_err.
  cbn zeta. cbn [mbind outcome_bind]. repeat case_match; simplify_eq; done.
Qed.

(** The mechanisms that are supported, however they are written. *)
Definition supported (mechanism : string) : Prop :=
  ToUpper (TrimSpace mechanism) ∈ ["PLAIN"; "SCRAM-SHA-256"; "SCRAM-SHA-512"; "AWS_MSK_IAM"].

(** C34. The client options are the settings of the cluster, never less secure than
    configured. When they are built, TLS is among them just when it is enabled, with
    the configured verification mode, the certificate authorities of the CA file
    just when one is named, and the client certificate of the two files just when
    both are named ([tls_for]); SASL is among them just when it is configured, with
    the mechanism that the configuration names and no other, and the configured
    credentials, or those of the default chain when IAM is named without a user
    name ([sasl_for]). An unsupported mechanism is an error, and nothing panics. *)
Theorem BuildClientOpts_spec now cc :
  (∀ opts, BuildClientOpts now cc = Ok opts →
     ∃ t s, opts = kgo_SeedBrokers (BootstrapServers cc) :: t ++ s ∧
       tls_opts cc t ∧ sasl_opts now cc s) ∧
  (∀ sc, SASL cc = Some sc → ¬ supported (Mechanism sc) →
     is_ok (BuildClientOpts now cc) = false) ∧
  (∀ why, BuildClientOpts now cc ≠ Panic why).
Proof.
  split; [|split].
  - intros opts. unfold BuildClientOpts. intros (o1 & H1 & H2)%bind_ok.
    assert (∃ t, o1 = kgo_SeedBrokers (BootstrapServers cc) :: t ∧ tls_opts cc t)
      as (t & -> & Ht).
    { unfold tls_opts. destruct (TLS cc) as [tc|]; [|injection H1 as <-; by exists []].
      destruct (TLSEnabled tc) eqn:Hen; [|injection H1 as <-; by exists []].
      apply bind_ok in H1 as (r & Hr & [= <-]). rewrite wrap_err_ok in Hr.
      destruct (BuildTLSConfig_enabled tc r Hen Hr) as (c & -> & Hc).
      eexists. split; [done|]. by exists c. }
    exists t. unfold sasl_opts. destruct (SASL cc) as [sc|].
    + apply bind_ok in H2 as (r & Hr & [= <-]). rewrite wrap_err_ok in Hr.
      destruct (BuildSASLOpt_some now sc r Hr) as (m & -> & Hm).
      exists [kgo_SASL m]. split; [done|]. split; [done|]. by exists m.
    + injection H2 as <-. exists []. by rewrite app_nil_r.
  - intros sc Hsc Hns. unfold BuildClientOpts. rewrite Hsc.
    assert (∃ e, BuildSASLOpt now (Some sc) = Err e) as [e He].
    { unfold supported in Hns. unfold BuildSASLOpt. cbn zeta.
      rewrite !(proj2 (String.eqb_neq (ToUpper _) _)); [by eexists| | | |];
        intros E; rewrite E in Hns; destruct Hns; apply list_elem_of_In; simpl; tauto. }
    rewrite He. by match goal with |- is_ok (?m ≫= _) = false => destruct m end.
  - apply BuildClientOpts_no_panic.
Qed.
End opts.

(** ** Witnesses *)

(** A machine with one CA file and no AWS credentials. *)
#[export] Instance ExampleOutside : Outside := {|
  ReadFile path := if String.eqb path "ca.pem" then inr [Byte.x01]
                   else inl (Errorf "no such file" [path]);
  CertPool := list byte;
  AppendCertsFromPEM pem := match pem with [] => None | _ => Some pem end;
  Certificate := string * string;
  LoadX509KeyPair c k := inr (c, k);
  CredentialsProvider := unit;
  LoadDefaultConfig := inl (Errorf "no credentials" []);
  Retrieve _ _ := inl (Errorf "no credentials" []);
|}.

Definition ex_tls_cluster : ClusterConfig := {|
  BootstrapServers := ["b:9093"];
  SASL := Some {| Mechanism := " scram-sha-512"; Username := "u"; Password := "p";
                  SessionToken := "" |};
  TLS := Some {| TLSEnabled := true; CACertFile := "ca.pem"; CertFile := "c"; KeyFile := "";
                 SkipVerify := false |} |}.

Example ex_tls_opts :
  BuildClientOpts 0 ex_tls_cluster =
  Ok [kgo_SeedBrokers ["b:9093"];
      kgo_DialTLSConfig (Some {| InsecureSkipVerify := false; RootCAs := Some [Byte.x01];
                                 Certificates := [] |});
      kgo_SASL (ScramSha512 "u" "p")].
Proof. reflexivity. Qed.
