(* ===== verification/Kgo.v ===== *)
(** * What the program exchanges with the Kafka client

    franz-go is not part of the program: a call to it is represented by what it
    is given and what it answers. This file holds the shared vocabulary: records
    as [kgo.Record] carries them, the result of a poll, and the bookkeeping of
    clients, which are created with options or refused, and closed. *)
From Stdlib Require Import Strings.Byte.
From S2P Require Import Prelude GoStrings Filter Retry Config ClientOpts.

Local Open Scope Z_scope.

Record RecordHeader := { h_Key : string; h_Value : list byte }.

Record kgo_Record := {
  r_Topic : string;
  r_Partition : Z;
  r_Key : list byte;
  r_Value : list byte;
  r_Headers : list RecordHeader;
  r_Timestamp : Z;
  r_Offset : Z;
}.

#[global] Instance byte_eq_dec : EqDecision byte := Byte.byte_eq_dec.
#[global] Instance RecordHeader_eq_dec : EqDecision RecordHeader.
Proof. solve_decision. Defined.
#[global] Instance kgo_Record_eq_dec : EqDecision kgo_Record.
Proof. solve_decision. Defined.

(** A record built for [Produce]; the client assigns the offset. *)
Definition to_produce (topic : string) (key value : list byte) : kgo_Record :=
  {| r_Topic := topic; r_Partition := 0; r_Key := key; r_Value := value; r_Headers := [];
     r_Timestamp := 0; r_Offset := 0 |}.

(** What [PollFetches] returns, and [ctx.Err()] right after it. *)
Record poll_result := {
  p_Records : list kgo_Record;
  p_Errors : list error;
  p_CtxErr : option ctx_err;
}.

(** ** Clients

    [created] lists the options of the clients made so far; a client is its
    index in that list. *)
Record clients {OS : Outside} := {
  created : list (list kgo_Opt);
  released : gset nat;
}.
Arguments clients : clear implicits.

Section clients.
Context {OS : Outside}.

Definition no_clients : clients OS := {| created := []; released := ∅ |}.

(** [kgo.NewClient(opts...)], which refuses the options or returns a client. *)
Definition NewClient (refusal : option error) (opts : list kgo_Opt) (w : clients OS)
    : outcome nat * clients OS :=
  match refusal with
  | Some err => (Err err, w)
  | None => (Ok (length (created w)),
             {| created := created w ++ [opts]; released := released w |})
  end.

Definition CloseClient (h : nat) (w : clients OS) : clients OS :=
  {| created := created w; released := ({[h]} ∪ released w) |}.

Definition is_open (w : clients OS) (h : nat) : Prop :=
  (h < length (created w))%nat ∧ h ∉ released w.

Definition clients_wf (w : clients OS) : Prop :=
  ∀ h, h ∈ released w → (h < length (created w))%nat.

(** The open clients are the [others] and the ones a component owns. *)
Definition holds (others owned : gset nat) (w : clients OS) : Prop :=
  clients_wf w ∧ owned ## others ∧ ∀ h, is_open w h ↔ h ∈ others ∨ h ∈ owned.

Lemma holds_new others owned opts w :
  holds others owned w →
  ∃ h w', NewClient None opts w = (Ok h, w') ∧ h ∉ owned ∧ holds others ({[h]} ∪ owned) w'.
Proof.
  intros (Hwf & Hdis & Hopen). eexists _, _. split; [reflexivity|].
  assert (¬ is_open w (length (created w))) as Hfresh by (intros [? _]; lia).
  rewrite Hopen in Hfresh. split; [tauto|]. split; [|split].
  - intros h Hh. cbn [created]. rewrite length_app. specialize (Hwf h Hh). lia.
  - intros h [->%elem_of_singleton|Hh]%elem_of_union Ho; [tauto|]. by apply (Hdis h).
  - intros h. unfold is_open in *. cbn [created released]. rewrite length_app. cbn [length].
    rewrite elem_of_union, elem_of_singleton. specialize (Hopen h). specialize (Hwf h).
    destruct (decide (h = length (created w))) as [->|Hne].
    + split; [by right; left|]. intros _. split; [lia|]. intros Hr. specialize (Hwf Hr). lia.
    + split; [intros [? ?]|].
      * assert (h ∈ others ∨ h ∈ owned) by (apply Hopen; split; [lia|done]). tauto.
      * intros Hh. assert (h ∈ others ∨ h ∈ owned) as [? ?]%Hopen by tauto. split; [lia|done].
Qed.

Lemma holds_close others owned h w :
  holds others owned w → h ∈ owned → holds others (owned ∖ {[h]}) (CloseClient h w).
Proof.
  intros (Hwf & Hdis & Hopen) Hh. split; [|split].
  - intros x. cbn [CloseClient released created]. rewrite elem_of_union, elem_of_singleton.
    intros [-> | Hx]; [|by apply Hwf]. by apply Hopen; right.
  - intros x [Hx _]%elem_of_difference Ho. by apply (Hdis x).
  - intros x. specialize (Hopen x). unfold is_open in *. cbn [CloseClient released created].
    rewrite not_elem_of_union, elem_of_difference, elem_of_singleton.
    assert (x ∈ others → x ≠ h) by (intros Ho ->; by apply (Hdis h)). tauto.
Qed.

(** Clients that are opened and closed again leave no trace. *)
Lemma open_after_two (w : clients OS) o1 o2 h :
  clients_wf w →
  let n := length (created w) in
  is_open {| created := (created w ++ [o1]) ++ [o2];
             released := {[n]} ∪ ({[length (created w ++ [o1])]} ∪ released w) |} h
  ↔ is_open w h.
Proof.
  intros Hwf n. unfold is_open. simpl. rewrite !length_app. simpl. specialize (Hwf h).
  rewrite !not_elem_of_union, !not_elem_of_singleton. split; [|intros [? ?]; split_and!; try lia; done].
  intros (? & ? & ? & ?). split; [lia|done].
Qed.

Lemma open_after_one (w : clients OS) o h :
  clients_wf w →
  is_open {| created := created w ++ [o]; released := {[length (created w)]} ∪ released w |} h
  ↔ is_open w h.
Proof.
  intros Hwf. unfold is_open. simpl. rewrite !length_app. simpl. specialize (Hwf h).
  rewrite !not_elem_of_union, !not_elem_of_singleton. split; [|intros [? ?]; split_and!; try lia; done].
  intros (? & ? & ?). split; [lia|done].
Qed.

(** A client that is opened stays open until it is closed. *)
Lemma open_after_new (w : clients OS) o h :
  clients_wf w →
  is_open {| created := created w ++ [o]; released := released w |} h
  ↔ is_open w h ∨ h = length (created w).
Proof.
  intros Hwf. unfold is_open. simpl. rewrite length_app. simpl. specialize (Hwf h). split.
  - intros [? ?]. destruct (decide (h = length (created w))); [by right|left]. split; [lia|done].
  - intros [[? ?]| ->]; split; try lia; [done|]. intros H%Hwf. lia.
Qed.

End clients.
