(* ===== verification/SyncIO.v ===== *)
(** * internal/offset/sync_writer.go and sync_reader.go

    The writer turns offset syncs into records of the offset-syncs topic; the
    reader feeds the records of that topic into the sync store, first to the end
    of the topic and then as they arrive. What each poll returns is an input:
    the loops run over the sequence of poll results and say what they do with
    it, with [None] while they are still waiting for the next poll. *)
From S2P Require Import Prelude GoStrings Filter Retry Types SyncStore Config ClientOpts Kgo.

Local Open Scope Z_scope.

Record SyncWriter := {
  sw_topic : string;
  sw_producer : nat;
  sw_closed : bool;
}.

Record SyncReader := {
  sr_topic : string;
  sr_consumer : nat;
}.

Section sync_io.
Context {OS : Outside}.

(** ** Writer *)

Definition NewSyncWriter (now : Z) (refusal : option error) (cc : ClusterConfig)
    (topic : string) (w : clients OS) : outcome SyncWriter * clients OS :=
  match wrap_err "build client opts for sync writer: %w" [] (BuildClientOpts now cc) with
  | Ok opts =>
      let opts := opts ++ [kgo_RequireAllISRAcks; kgo_ProducerBatchMaxBytes (64 * 1024)] in
      match NewClient refusal opts w with
      | (Ok producer, w) =>
          (Ok {| sw_topic := topic; sw_producer := producer; sw_closed := false |}, w)
      | (Err err, w) => (Err (Wrapf "create sync writer producer: %w" [] err), w)
      | (Panic why, w) => (Panic why, w)
      end
  | Err err => (Err err, w)
  | Panic why => (Panic why, w)
  end.

(** The records handed to the producer, and the result; [answer] is the error
    the producer reports to the callback. *)
Definition SyncWriter_Write (answer : option error) (sw : SyncWriter) (os : OffsetSync)
    : list kgo_Record * outcome unit :=
  if sw_closed sw then ([], Err (Errorf "sync writer is closed" []))
  else
    let record :=
      to_produce (sw_topic sw) (OffsetSync_SerializeKey os) (OffsetSync_SerializeValue os) in
    ([record],
     match answer with
     | Some produceErr =>
         Err (Wrapf "produce offset sync for %s: %w" [TopicPartition_String (os_tp os)]
                produceErr)
     | None => Ok ()
     end).

Definition SyncWriter_Close (sw : SyncWriter) (w : clients OS) : SyncWriter * clients OS :=
  if sw_closed sw then (sw, w)
  else ({| sw_topic := sw_topic sw; sw_producer := sw_producer sw; sw_closed := true |},
        CloseClient (sw_producer sw) w).

(** ** Reader *)

Definition NewSyncReader (now : Z) (refusal : option error) (cc : ClusterConfig)
    (topic : string) (w : clients OS) : outcome SyncReader * clients OS :=
  match wrap_err "build client opts for sync reader: %w" [] (BuildClientOpts now cc) with
  | Ok opts =>
      let opts := opts ++ [kgo_ConsumeTopics [topic]; kgo_ConsumeResetOffsetAtStart] in
      match NewClient refusal opts w with
      | (Ok consumer, w) => (Ok {| sr_topic := topic; sr_consumer := consumer |}, w)
      | (Err err, w) => (Err (Wrapf "create sync reader consumer: %w" [] err), w)
      | (Panic why, w) => (Panic why, w)
      end
  | Err err => (Err err, w)
  | Panic why => (Panic why, w)
  end.

Definition SyncReader_Close (sr : SyncReader) (w : clients OS) : clients OS :=
  CloseClient (sr_consumer sr) w.

(** The loop over the records of a poll, malformed ones skipped; the second
    component counts the records handled. *)
Fixpoint handle_records (rs : list kgo_Record) (s : SyncStore) (total : Z)
    : outcome (SyncStore * Z) :=
  match rs with
  | [] => Ok (s, total)
  | r :: rs =>
      match DeserializeOffsetSync (r_Key r) (r_Value r) with
      | Ok os => handle_records rs (HandleSync os s) (i64 (total + 1))
      | Err _ => handle_records rs s total
      | Panic why => Panic why
      end
  end.

(** [ReadToEnd] over the poll results [polls]: the result and the store, or
    [None] if the loop wants a further poll. *)
Fixpoint read_loop (polls : list poll_result) (s : SyncStore) (total : Z)
    : option (outcome unit * SyncStore) :=
  match polls with
  | [] => None
  | p :: polls =>
      match p_CtxErr p with
      | Some DeadlineExceeded => Some (Ok (), MarkReadToEnd s)
      | Some Canceled =>
          Some (Err (Wrapf "context cancelled while reading offset-syncs: %w" []
                       (ctx_error Canceled)), s)
      | None =>
          match handle_records (p_Records p) s total with
          | Ok (s, total) =>
              if (length (p_Records p) =? 0)%nat && (length (p_Errors p) =? 0)%nat
              then Some (Ok (), MarkReadToEnd s)
              else read_loop polls s total
          | Err e => Some (Err e, s)
          | Panic why => Some (Panic why, s)
          end
      end
  end.

Definition ReadToEnd (polls : list poll_result) (s : SyncStore)
    : option (outcome unit * SyncStore) := read_loop polls s 0.

(** [Follow] over the poll results: [true] when it has returned. *)
Fixpoint Follow (polls : list poll_result) (s : SyncStore) : outcome (SyncStore * bool) :=
  match polls with
  | [] => Ok (s, false)
  | p :: polls =>
      match p_CtxErr p with
      | Some _ => Ok (s, true)
      | None => '(s, _) ← handle_records (p_Records p) s 0; Follow polls s
      end
  end.

(** ** Lemmas *)

(** The syncs a list of records holds: the decodable ones, in order. *)
Definition decoded (rs : list kgo_Record) : list OffsetSync :=
  omap (λ r, match DeserializeOffsetSync (r_Key r) (r_Value r) with
             | Ok os => Some os
             | _ => None
             end) rs.

Definition no_panic (rs : list kgo_Record) : Prop :=
  Forall (λ r, ∀ why, DeserializeOffsetSync (r_Key r) (r_Value r) ≠ Panic why) rs.

Definition handle_all (ss : list OffsetSync) (s : SyncStore) : SyncStore :=
  foldl (λ s os, HandleSync os s) s ss.

Lemma handle_records_spec rs s total :
  no_panic rs → ∃ n, handle_records rs s total = Ok (handle_all (decoded rs) s, n).
Proof.
  revert s total. induction rs as [|r rs IH]; intros s total Hnp; [by eexists|].
  apply Forall_cons in Hnp as [Hr Hrs]. cbn [handle_records decoded omap list_omap].
  destruct (DeserializeOffsetSync (r_Key r) (r_Value r)) as [os|e|why]; [..|by edestruct Hr];
    by apply IH.
Qed.

(** The polls before the one that ends the reading: something arrived, and the
    context is still alive. *)
Definition busy (p : poll_result) : Prop :=
  p_CtxErr p = None ∧ (p_Records p ≠ [] ∨ p_Errors p ≠ []).

Definition idle : poll_result := {| p_Records := []; p_Errors := []; p_CtxErr := None |}.

Lemma read_loop_busy polls rest s total :
  Forall busy polls → no_panic (concat (p_Records <$> polls)) →
  ∃ n, read_loop (polls ++ rest) s total
     = read_loop rest (handle_all (decoded (concat (p_Records <$> polls))) s) n.
Proof.
  revert s total. induction polls as [|p polls IH]; intros s total Hb Hnp; [by eexists|].
  apply Forall_cons in Hb as [[Hctx Hne] Hb]. cbn [concat fmap list_fmap] in Hnp |- *.
  apply Forall_app in Hnp as [Hp Hps].
  destruct (handle_records_spec (p_Records p) s total Hp) as [n Hn].
  cbn [app read_loop]. rewrite Hctx, Hn.
  assert ((length (p_Records p) =? 0)%nat && (length (p_Errors p) =? 0)%nat = false) as ->.
  { apply andb_false_iff. rewrite !Nat.eqb_neq, !length_zero_iff_nil. done. }
  destruct (IH (handle_all (decoded (p_Records p)) s) n Hb Hps) as [n' ->].
  exists n'. unfold decoded, handle_all. by rewrite omap_app, foldl_app.
Qed.

Definition written (sw : SyncWriter) (os : OffsetSync) : kgo_Record :=
  to_produce (sw_topic sw) (OffsetSync_SerializeKey os) (OffsetSync_SerializeValue os).

Lemma written_decodes sw os :
  os_wf os → byte_len (Topic (os_tp os)) ≤ 65533 →
  DeserializeOffsetSync (r_Key (written sw os)) (r_Value (written sw os)) = Ok os.
Proof.
  intros Hwf Hlen. cbn [written to_produce r_Key r_Value].
  rewrite <- (app_nil_r (OffsetSync_SerializeKey os)),
    <- (app_nil_r (OffsetSync_SerializeValue os)).
  by apply deserialize_serialize.
Qed.

Lemma written_decoded sw oss :
  sw_closed sw = false →
  Forall (λ os, os_wf os ∧ byte_len (Topic (os_tp os)) ≤ 65533) oss →
  let rs := concat ((λ os, (SyncWriter_Write None sw os).1) <$> oss) in
  decoded rs = oss ∧ no_panic rs.
Proof.
  intros Hcl Hall rs.
  assert (rs = written sw <$> oss) as ->.
  { subst rs. clear Hall. induction oss as [|os oss IH]; [done|].
    cbn [fmap list_fmap concat] in IH |- *. unfold SyncWriter_Write in IH |- *.
    rewrite Hcl in IH |- *. cbn [fst app] in IH |- *. by rewrite IH. }
  induction Hall as [|os oss [Hwf Hlen] _ [IHd IHn]]; [by repeat constructor|].
  pose proof (written_decodes sw os Hwf Hlen) as Hw. cbn [fmap list_fmap]. split.
  - unfold decoded in *. cbn [omap list_omap]. rewrite Hw. by f_equal.
  - constructor; [by rewrite Hw|done].
Qed.

(** ** Properties *)

(** C28. Syncs survive a restart: if the records the writer produced for a list of
    syncs are polled back in order, split over the polls in any way and with
    failing fetches in between, then [ReadToEnd] returns nil at the first idle
    poll and the store has handled exactly those syncs, in that order, and is
    ready. A deadline ends the reading early, with the store ready on what the
    earlier polls held; a cancellation ends it with an error and a store that is
    not ready. *)
Theorem ReadToEnd_restores sw oss polls p rest s :
  sw_closed sw = false →
  Forall (λ os, os_wf os ∧ byte_len (Topic (os_tp os)) ≤ 65533) oss →
  Forall busy polls →
  concat (p_Records <$> polls) = concat ((λ os, (SyncWriter_Write None sw os).1) <$> oss) →
  (p = idle ∨ p_CtxErr p = Some DeadlineExceeded →
     ReadToEnd (polls ++ p :: rest) s = Some (Ok (), MarkReadToEnd (handle_all oss s))) ∧
  (p_CtxErr p = Some Canceled →
     ∃ e, ReadToEnd (polls ++ p :: rest) s = Some (Err e, handle_all oss s)).
Proof.
  intros Hcl Hok Hb Heq. destruct (written_decoded sw oss Hcl Hok) as (Hd & Hn).
  unfold ReadToEnd. rewrite <- Heq in Hd, Hn.
  destruct (read_loop_busy polls (p :: rest) s 0 Hb Hn) as [n ->]. rewrite Hd.
  cbn [read_loop]. split.
  - intros [-> | ->]; done.
  - intros ->. by eexists.
Qed.
End sync_io.

(** ** Witness *)

Definition ex_writer : SyncWriter :=
  {| sw_topic := "mm2-offset-syncs.east.internal"; sw_producer := 0; sw_closed := false |}.

Lemma ReadToEnd_restores_witness :
  ReadToEnd
    [{| p_Records := (SyncWriter_Write None ex_writer (ex_os 100 107)).1;
        p_Errors := []; p_CtxErr := None |};
     {| p_Records := []; p_Errors := [Errorf "fetch" []]; p_CtxErr := None |};
     {| p_Records := (SyncWriter_Write None ex_writer (ex_os 300 307)).1;
        p_Errors := []; p_CtxErr := None |};
     idle] NewSyncStore
  = Some (Ok (), MarkReadToEnd (HandleSync (ex_os 300 307)
                                  (HandleSync (ex_os 100 107) NewSyncStore))).
Proof.
  refine (proj1 (ReadToEnd_restores ex_writer [ex_os 100 107; ex_os 300 307]
    [{| p_Records := (SyncWriter_Write None ex_writer (ex_os 100 107)).1;
        p_Errors := []; p_CtxErr := None |};
     {| p_Records := []; p_Errors := [Errorf "fetch" []]; p_CtxErr := None |};
     {| p_Records := (SyncWriter_Write None ex_writer (ex_os 300 307)).1;
        p_Errors := []; p_CtxErr := None |}] idle [] NewSyncStore eq_refl _ _ _) (or_introl eq_refl)).
  - repeat apply Forall_cons_2; [| |apply Forall_nil_2];
      (split; [unfold os_wf, tp_wf, in_s; simpl; lia|vm_compute; discriminate]).
  - repeat apply Forall_cons_2; [..|apply Forall_nil_2];
      (split; [reflexivity|]); [left|right|left]; discriminate.
  - reflexivity.
Defined.
