(* ===== verification/Dlq.v ===== *)
(** * internal/mirror/dlq.go: the dead letter queue

    The queue with its lifecycle, and [Send]: a failed record is produced to the
    queue's topic with headers that say where it came from and why it failed. A
    send is the records handed to the producer and the increments of the metric. *)
From S2P Require Import Prelude GoStrings Filter Retry Types Config ClientOpts Kgo.

Local Open Scope Z_scope.

Record DLQ := {
  d_producer : nat;
  d_topic : string;
  d_cfg : ReplicationConfig;
  d_closed : bool;
}.

Section dlq.
Context {OS : Outside}.

Definition dlq_topic (cfg : ReplicationConfig) : string :=
  "gomm2-dlq-" +:+ Source cfg +:+ "-" +:+ Target cfg.

Definition NewDLQ (now : Z) (refusal : option error) (cfg : ReplicationConfig)
    (tgtCfg : ClusterConfig) (w : clients OS) : outcome (option DLQ) * clients OS :=
  if negb (DLQEnabled cfg) then (Ok None, w)
  else
    match wrap_err "DLQ build client opts: %w" [] (BuildClientOpts now tgtCfg) with
    | Ok opts =>
        let opts := opts ++ [kgo_RequireAllISRAcks; kgo_ProducerLinger (100 * Millisecond)] in
        match NewClient refusal opts w with
        | (Ok producer, w) =>
            (Ok (Some {| d_producer := producer; d_topic := dlq_topic cfg; d_cfg := cfg;
                         d_closed := false |}), w)
        | (Err err, w) => (Err (Wrapf "create DLQ producer: %w" [] err), w)
        | (Panic why, w) => (Panic why, w)
        end
    | Err err => (Err err, w)
    | Panic why => (Panic why, w)
    end.

Definition FormatInt (z : Z) : list byte := bytes_of_string (pretty z).

(** The records handed to the producer and the label values of the
    [DLQRecordsTotal] increments; [produceErr] is the text of the error that
    brings the record here, [answer] what the DLQ producer reports. *)
Definition Send (answer : option error) (d : DLQ) (originalTopic : string)
    (partition offset : Z) (key value : list byte) (originalHeaders : list RecordHeader)
    (produceErr : string) : list kgo_Record * list (list string) :=
  if d_closed d then ([], [])
  else
    let headers :=
      [{| h_Key := "gomm2.dlq.original.topic"; h_Value := bytes_of_string originalTopic |};
       {| h_Key := "gomm2.dlq.original.partition"; h_Value := FormatInt partition |};
       {| h_Key := "gomm2.dlq.original.offset"; h_Value := FormatInt offset |};
       {| h_Key := "gomm2.dlq.error"; h_Value := bytes_of_string produceErr |}]
      ++ originalHeaders in
    ([{| r_Topic := d_topic d; r_Partition := 0; r_Key := key; r_Value := value;
         r_Headers := headers; r_Timestamp := 0; r_Offset := 0 |}],
     match answer with
     | Some _ => []
     | None => [[Source (d_cfg d); Target (d_cfg d); originalTopic]]
     end).

Definition DLQ_Topic (d : DLQ) : string := d_topic d.

Definition DLQ_Close (d : DLQ) (w : clients OS) : DLQ * clients OS :=
  if d_closed d then (d, w)
  else ({| d_producer := d_producer d; d_topic := d_topic d; d_cfg := d_cfg d;
           d_closed := true |}, CloseClient (d_producer d) w).

Lemma FormatInt_inj a b : FormatInt a = FormatInt b → a = b.
Proof. intros H. by apply bytes_of_string_inj, (inj pretty) in H. Qed.

(** C30. A record in the dead letter queue can be traced and replayed: an open queue
    takes exactly one record for each failed one, on its own topic, with the key
    and value unchanged and the original headers last, and two failures whose
    queue records are equal are the same failure: same topic, partition, offset,
    headers and error. It counts the record only if the queue's producer
    succeeded. A closed queue takes nothing, and closing twice closes once. *)
Theorem Send_traceable answer d t p o k v hs e :
  (d_closed d = false →
     ∃ r, (Send answer d t p o k v hs e).1 = [r] ∧ r_Topic r = d_topic d ∧
       r_Key r = k ∧ r_Value r = v ∧ drop 4 (r_Headers r) = hs ∧
       (∀ t' p' o' k' v' hs' e', (Send answer d t' p' o' k' v' hs' e').1 = [r] →
          (t', p', o', k', v', hs', e') = (t, p, o, k, v, hs, e))) ∧
  ((Send answer d t p o k v hs e).2 ≠ [] ↔ d_closed d = false ∧ answer = None) ∧
  (∀ w, let '(d', w') := DLQ_Close d w in
     Send answer d' t p o k v hs e = ([], []) ∧ DLQ_Close d' w' = (d', w')).
Proof.
  split; [|split].
  - intros Hcl. unfold Send. rewrite Hcl. eexists. split; [done|].
    cbn [r_Topic r_Key r_Value r_Headers drop app]. do 4 (split; [done|]).
    intros t' p' o' k' v' hs' e' [= -> -> Ht Hp Ho He Hhs].
    apply bytes_of_string_inj in Ht as ->, He as ->.
    apply FormatInt_inj in Hp as ->, Ho as ->. by subst.
  - unfold Send. destruct (d_closed d); cbn [snd]; [by split; [|intros [? _]]|].
    destruct answer; by split; [|intros [? ?]].
  - intros w. unfold DLQ_Close, Send. destruct (d_closed d) eqn:Hcl; by rewrite ?Hcl.
Qed.
End dlq.
