(* ===== verification/Heartbeats.v ===== *)
(** * internal/mirror/heartbeat.go: the heartbeat emitter

    The emitter's lifecycle ([Start], [Stop]) over the clients it opens and
    closes, and its loop over the sequence of events the [select] sees. *)
From S2P Require Import Prelude GoStrings Filter Retry Types Policy Config ClientOpts Kgo.

Local Open Scope Z_scope.

Record HeartbeatEmitter := {
  h_cfg : ReplicationConfig;
  h_tgtCfg : ClusterConfig;
  h_policy : Policy.ReplicationPolicy;
  h_producer : option nat;
  h_running : bool;
  h_loop : bool;             (* the goroutine of [emitLoop] is alive *)
}.

(** [time.NewTicker(d)] *)
Definition NewTicker (d : Z) : outcome unit :=
  if d <=? 0 then Panic "non-positive interval for NewTicker" else Ok ().

(** What a select between [ctx.Done()] and a ticker sees: a tick at a time, or
    the cancellation. *)
Inductive tick := Tick (now : Z) | Done.

Section heartbeat.
Context {OS : Outside}.

Definition NewHeartbeat (cfg : ReplicationConfig) (tgtCfg : ClusterConfig)
    : outcome HeartbeatEmitter :=
  pol ← wrap_err "create replication policy: %w" []
          (NewPolicy (Config.ReplicationPolicy cfg) (Config.Separator cfg));
  Ok {| h_cfg := cfg; h_tgtCfg := tgtCfg; h_policy := pol; h_producer := None;
        h_running := false; h_loop := false |}.

Definition Heartbeat_Start (now : Z) (refusal : option error) (h : HeartbeatEmitter)
    (w : clients OS) : outcome unit * HeartbeatEmitter * clients OS :=
  if h_running h then (Err (Errorf "heartbeat already running" []), h, w)
  else if negb (BoolDefault (EmitHeartbeats (h_cfg h)) true) then (Ok (), h, w)
  else
    match wrap_err "build target client opts: %w" [] (BuildClientOpts now (h_tgtCfg h)) with
    | Ok opts =>
        match NewClient refusal (opts ++ [kgo_RequireAllISRAcks]) w with
        | (Ok producer, w) =>
            (Ok (), {| h_cfg := h_cfg h; h_tgtCfg := h_tgtCfg h; h_policy := h_policy h;
                       h_producer := Some producer; h_running := true; h_loop := true |}, w)
        | (Err err, w) => (Err (Wrapf "create heartbeat producer: %w" [] err), h, w)
        | (Panic why, w) => (Panic why, h, w)
        end
    | Err err => (Err err, h, w)
    | Panic why => (Panic why, h, w)
    end.

(** [h.cancel(); h.wg.Wait()] ends the loop. *)
Definition Heartbeat_Stop (h : HeartbeatEmitter) (w : clients OS)
    : HeartbeatEmitter * clients OS :=
  if negb (h_running h) then (h, w)
  else
    ({| h_cfg := h_cfg h; h_tgtCfg := h_tgtCfg h; h_policy := h_policy h;
        h_producer := h_producer h; h_running := false; h_loop := false |},
     match h_producer h with Some p => CloseClient p w | None => w end).

Definition emitHeartbeat (now : Z) (h : HeartbeatEmitter) : kgo_Record :=
  let hb := {| SourceCluster := Source (h_cfg h); TargetCluster := Target (h_cfg h);
               Timestamp := now |} in
  to_produce (HeartbeatsTopic (h_policy h)) (Heartbeat_SerializeKey hb)
    (Heartbeat_SerializeValue hb).

Fixpoint emit_ticks (ticks : list tick) (h : HeartbeatEmitter) : list kgo_Record :=
  match ticks with
  | [] => []
  | Done :: _ => []
  | Tick now :: ticks => emitHeartbeat now h :: emit_ticks ticks h
  end.

Definition Heartbeat_emitLoop (ticks : list tick) (h : HeartbeatEmitter)
    : outcome (list kgo_Record) :=
  NewTicker (HeartbeatInterval (h_cfg h)) ≫= λ _, Ok (emit_ticks ticks h).

(** ** Lifecycle *)

(** The client the emitter holds open. *)
Definition heartbeat_owned (h : HeartbeatEmitter) : gset nat :=
  if h_running h then match h_producer h with Some p => {[p]} | None => ∅ end else ∅.

Definition heartbeat_inv (others : gset nat) (s : HeartbeatEmitter * clients OS) : Prop :=
  holds others (heartbeat_owned s.1) s.2 ∧ h_loop s.1 = h_running s.1 ∧
  (h_running s.1 = true → is_Some (h_producer s.1)).

Inductive heartbeat_step (s : HeartbeatEmitter * clients OS)
    : HeartbeatEmitter * clients OS → Prop :=
  | hs_start now refusal :
      heartbeat_step s (let '(_, h, w) := Heartbeat_Start now refusal s.1 s.2 in (h, w))
  | hs_stop : heartbeat_step s (Heartbeat_Stop s.1 s.2).

Lemma Heartbeat_Start_inv others now refusal h w :
  heartbeat_inv others (h, w) →
  heartbeat_inv others (let '(_, h, w) := Heartbeat_Start now refusal h w in (h, w)).
Proof.
  intros Hinv. pose proof Hinv as (Hholds & _ & _). cbn [fst snd] in Hholds.
  unfold Heartbeat_Start. destruct (h_running h) eqn:Hr; [exact Hinv|].
  destruct (negb _); [exact Hinv|].
  destruct (wrap_err _ _ _) as [opts| |]; [|exact Hinv..].
  destruct refusal as [err|]; [exact Hinv|].
  destruct (holds_new _ _ (opts ++ [kgo_RequireAllISRAcks]) w Hholds) as (p & w' & -> & _ & Hw).
  split; [|split; [done|by eexists]].
  cbn [fst snd]. unfold heartbeat_owned in *. rewrite Hr, union_empty_r_L in Hw. exact Hw.
Qed.

Lemma Heartbeat_Stop_inv others h w :
  heartbeat_inv others (h, w) → heartbeat_inv others (Heartbeat_Stop h w).
Proof.
  intros Hinv. pose proof Hinv as (Hholds & _ & Hprod). cbn [fst snd] in Hholds, Hprod.
  unfold Heartbeat_Stop. destruct (h_running h) eqn:Hr; cbn [negb]; [|exact Hinv].
  destruct (Hprod eq_refl) as [p Hp]. unfold heartbeat_owned in Hholds. rewrite Hr, Hp in *.
  apply (holds_close _ _ p) in Hholds; [|by apply elem_of_singleton].
  rewrite difference_diag_L in Hholds. by split.
Qed.

Lemma heartbeat_reachable others s s' :
  heartbeat_inv others s → rtc heartbeat_step s s' → heartbeat_inv others s'.
Proof.
  intros Hs. apply (rtc_invariant _ (heartbeat_inv others)); [|done].
  intros [h w] y Hx []; [by apply Heartbeat_Start_inv|by apply Heartbeat_Stop_inv].
Qed.
End heartbeat.
