(* ===== verification/Translator.v ===== *)
(** * The interface between the sync store and the checkpoint emitter

    What [offset.SyncStore] promises to a component that translates consumer
    offsets: it says when it is ready, it translates, and a translation that is
    not negative never skips a record. The laws are stated for any
    implementation; the store of [SyncStore] discharges them. *)
From S2P Require Import Prelude Types SyncStore.

Local Open Scope Z_scope.

Class OffsetTranslator (S : Type) := {
  ready : S → bool;
  translate : S → TopicPartition → Z → Z * bool;
  (* the knowledge of [s] about the partition comes from the log [R], which
     relates upstream to downstream offsets *)
  consistent : S → TopicPartition → (Z → Z → Prop) → Prop;
}.

Class TranslatorLaws (S : Type) `{OffsetTranslator S} : Prop := {
  translate_ready s tp u : ready s = false → (translate s tp u).2 = false;
  translate_no_skip s tp R u d v w :
    consistent s tp R → translate s tp u = (d, true) → 0 ≤ d →
    R v w → u ≤ v → d ≤ w;
}.

#[export] Instance SyncStore_translator : OffsetTranslator SyncStore := {|
  ready := IsReady;
  translate := TranslateDownstream;
  consistent s tp R := ∃ h, s = run h ∧ log_map R ∧ Forall event_ok h ∧
    ∀ os, EvSync os ∈ h → behind_log R tp os;
|}.

#[export] Instance SyncStore_translator_laws : TranslatorLaws SyncStore.
Proof.
  split.
  - intros s tp u. simpl. unfold IsReady, TranslateDownstream. by intros ->.
  - intros s tp R u d v w (h & -> & HR & Hok & Hlog). simpl.
    by apply SyncStore.translate_no_skip.
Qed.
