(* ===== verification/Checkpoints.v ===== *)
(** * internal/mirror/checkpoint.go: the checkpoint emitter

    The emitter's lifecycle over the two clients it opens, and one round of
    emission. The answers of the admin client are inputs. The sync store is used
    through the interface of [Translator] and may change while a round is under
    way, so each translation sees its own state of it. *)
From S2P Require Import Prelude GoStrings Filter Retry Types Policy SyncStore Translator.
From S2P Require Import Config ClientOpts Kgo Heartbeats.

Local Open Scope Z_scope.

Record OffsetResponse := { o_Topic : string; o_Partition : Z; o_At : Z }.

Section checkpoint.
Context {OS : Outside} {RE : RegexpEngine}.

Record CheckpointEmitter := {
  c_cfg : ReplicationConfig;
  c_srcCfg : ClusterConfig;
  c_tgtCfg : ClusterConfig;
  c_topicFilter : Filter.TopicFilter;
  c_groupFilter : Filter.GroupFilter;
  c_policy : Policy.ReplicationPolicy;
  c_srcAdmin : option nat;
  c_producer : option nat;
  c_running : bool;
  c_loop : bool;
}.

Definition NewCheckpoint (cfg : ReplicationConfig) (srcCfg tgtCfg : ClusterConfig)
    : outcome CheckpointEmitter :=
  topicFilter ← wrap_err "create topic filter: %w" []
    (NewTopicFilter (tfc_Whitelist (TopicFilter cfg)) (tfc_Blacklist (TopicFilter cfg)));
  groupFilter ← wrap_err "create group filter: %w" []
    (NewGroupFilter (gfc_Whitelist (GroupFilter cfg)) (gfc_Blacklist (GroupFilter cfg)));
  pol ← wrap_err "create replication policy: %w" []
    (NewPolicy (Config.ReplicationPolicy cfg) (Config.Separator cfg));
  Ok {| c_cfg := cfg; c_srcCfg := srcCfg; c_tgtCfg := tgtCfg; c_topicFilter := topicFilter;
        c_groupFilter := groupFilter; c_policy := pol; c_srcAdmin := None; c_producer := None;
        c_running := false; c_loop := false |}.

Definition set_clients (c : CheckpointEmitter) (srcAdmin producer : option nat)
    (running loop : bool) : CheckpointEmitter :=
  {| c_cfg := c_cfg c; c_srcCfg := c_srcCfg c; c_tgtCfg := c_tgtCfg c;
     c_topicFilter := c_topicFilter c; c_groupFilter := c_groupFilter c;
     c_policy := c_policy c; c_srcAdmin := srcAdmin; c_producer := producer;
     c_running := running; c_loop := loop |}.

(** [refusal1] and [refusal2] are the answers to the two [kgo.NewClient] calls. *)
Definition Checkpoint_Start (now : Z) (refusal1 refusal2 : option error)
    (c : CheckpointEmitter) (w : clients OS) : outcome unit * CheckpointEmitter * clients OS :=
  if c_running c then (Err (Errorf "checkpoint already running" []), c, w)
  else if negb (BoolDefault (EmitCheckpoints (c_cfg c)) true) then (Ok (), c, w)
  else
    match wrap_err "build source client opts: %w" [] (BuildClientOpts now (c_srcCfg c)) with
    | Err err => (Err err, c, w)
    | Panic why => (Panic why, c, w)
    | Ok srcOpts =>
        match NewClient refusal1 srcOpts w with
        | (Err err, w) => (Err (Wrapf "create source admin client: %w" [] err), c, w)
        | (Panic why, w) => (Panic why, c, w)
        | (Ok srcAdmin, w) =>
            let c := set_clients c (Some srcAdmin) (c_producer c) false (c_loop c) in
            match wrap_err "build target client opts: %w" []
                    (BuildClientOpts now (c_tgtCfg c)) with
            | Err err => (Err err, c, CloseClient srcAdmin w)
            | Panic why => (Panic why, c, w)
            | Ok tgtOpts =>
                match NewClient refusal2 (tgtOpts ++ [kgo_RequireAllISRAcks]) w with
                | (Err err, w) =>
                    (Err (Wrapf "create checkpoint producer: %w" [] err), c,
                     CloseClient srcAdmin w)
                | (Panic why, w) => (Panic why, c, w)
                | (Ok producer, w) =>
                    (Ok (), set_clients c (Some srcAdmin) (Some producer) true true, w)
                end
            end
        end
    end.

Definition close_opt (h : option nat) (w : clients OS) : clients OS :=
  match h with Some h => CloseClient h w | None => w end.

Definition Checkpoint_Stop (c : CheckpointEmitter) (w : clients OS)
    : CheckpointEmitter * clients OS :=
  if negb (c_running c) then (c, w)
  else (set_clients c (c_srcAdmin c) (c_producer c) false false,
        close_opt (c_producer c) (close_opt (c_srcAdmin c) w)).

(** ** One round of emission *)

Section emission.
Context {S : Type} `{OffsetTranslator S}.

(** The checkpoint for one committed offset of a group, if there is one. *)
Definition checkpoint_for (c : CheckpointEmitter) (view : S) (group : string)
    (o : OffsetResponse) : option Types.Checkpoint :=
  if negb (TopicFilter_ShouldReplicate (c_topicFilter c) (o_Topic o)) then None
  else
    let tp := {| Topic := o_Topic o; Partition := o_Partition o |} in
    let '(downstream, ok) := translate view tp (o_At o) in
    if negb ok then None
    else if downstream <? 0 then None
    else Some {| ConsumerGroupID := group; cp_tp := tp; cp_UpstreamOffset := o_At o;
                 cp_DownstreamOffset := downstream; Metadata := "" |}.

Definition checkpoint_record (c : CheckpointEmitter) (cp : Types.Checkpoint) : kgo_Record :=
  to_produce (CheckpointsTopic (c_policy c) (Source (c_cfg c)))
    (Checkpoint_SerializeKey cp) (Checkpoint_SerializeValue cp).

Definition group_checkpoints (c : CheckpointEmitter) (view : string → OffsetResponse → S)
    (fetchOffsets : string → error + list OffsetResponse) (group : string)
    : list Types.Checkpoint :=
  if negb (GroupFilter_ShouldReplicate (c_groupFilter c) group) then []
  else match fetchOffsets group with
       | inl _ => []
       | inr offsets => omap (λ o, checkpoint_for c (view group o) group o) offsets
       end.

(** The checkpoints handed to the producer, in order. [now] is the store when
    the round starts, [view group o] when [o] is translated. *)
Definition emitCheckpoints (c : CheckpointEmitter) (now : S)
    (view : string → OffsetResponse → S) (listGroups : error + list string)
    (fetchOffsets : string → error + list OffsetResponse) : outcome (list Types.Checkpoint) :=
  if negb (ready now) then Ok []
  else match listGroups with
       | inl err => Err (Wrapf "list consumer groups: %w" [] err)
       | inr groups => Ok (concat (group_checkpoints c view fetchOffsets <$> groups))
       end.

(** [emitLoop] over the rounds the ticker starts; a failed round is only logged. *)
Fixpoint checkpoint_ticks (ticks : list tick)
    (round : Z → outcome (list Types.Checkpoint)) : list Types.Checkpoint :=
  match ticks with
  | [] => []
  | Done :: _ => []
  | Tick t :: ticks =>
      match round t with Ok cps => cps | _ => [] end ++ checkpoint_ticks ticks round
  end.

Definition Checkpoint_emitLoop (ticks : list tick) (c : CheckpointEmitter)
    (round : Z → outcome (list Types.Checkpoint)) : outcome (list Types.Checkpoint) :=
  NewTicker (CheckpointInterval (c_cfg c)) ≫= λ _, Ok (checkpoint_ticks ticks round).

Lemma group_checkpoints_elem c view fetch group cp :
  cp ∈ group_checkpoints c view fetch group ↔
  GroupFilter_ShouldReplicate (c_groupFilter c) group = true ∧
  ∃ os o, fetch group = inr os ∧ o ∈ os ∧ checkpoint_for c (view group o) group o = Some cp.
Proof.
  unfold group_checkpoints. destruct (GroupFilter_ShouldReplicate _ group); cbn [negb].
  - destruct (fetch group) as [e|os].
    + split; [by intros ?%not_elem_of_nil|]. by intros (_ & os & o & [=] & _).
    + rewrite list_elem_of_omap. split.
      * intros (o & Ho & Hcp). split; [done|]. by exists os, o.
      * intros (_ & os' & o & [= <-] & Ho & Hcp). by exists o.
  - split; [by intros ?%not_elem_of_nil|]. by intros [? _].
Qed.

Lemma checkpoint_for_Some c view group o cp :
  checkpoint_for c view group o = Some cp ↔
  TopicFilter_ShouldReplicate (c_topicFilter c) (o_Topic o) = true ∧
  ∃ d, translate view {| Topic := o_Topic o; Partition := o_Partition o |} (o_At o) = (d, true)
    ∧ 0 ≤ d ∧
    cp = {| ConsumerGroupID := group;
            cp_tp := {| Topic := o_Topic o; Partition := o_Partition o |};
            cp_UpstreamOffset := o_At o; cp_DownstreamOffset := d; Metadata := "" |}.
Proof.
  unfold checkpoint_for. destruct (TopicFilter_ShouldReplicate _ _); cbn [negb].
  - destruct (translate _ _ _) as [d [|]]; cbn [negb].
    + destruct (Z.ltb_spec d 0).
      * split; [done|]. intros (_ & d' & [= <-] & ? & _). lia.
      * split; [intros [= <-]; split; [done|]; by exists d|].
        by intros (_ & d' & [= <-] & _ & ->).
    + split; [done|]. by intros (_ & d' & [=] & _).
  - split; [done|]. by intros [? _].
Qed.

(** An emitted checkpoint is a translation. *)
Lemma emitted_translated c now view groups fetch cps cp :
  emitCheckpoints c now view (inr groups) fetch = Ok cps → cp ∈ cps →
  0 ≤ cp_DownstreamOffset cp ∧ ∃ group o,
    translate (view group o) (cp_tp cp) (cp_UpstreamOffset cp) = (cp_DownstreamOffset cp, true).
Proof.
  unfold emitCheckpoints. destruct (ready now); cbn [negb].
  2:{ intros [= <-]. by intros ?%not_elem_of_nil. }
  intros [= <-] (l & Hcp & (g & -> & Hg)%list_elem_of_fmap)%elem_of_concat.
  apply group_checkpoints_elem in Hcp as (_ & os & o & _ & _ & Hcp).
  apply checkpoint_for_Some in Hcp as (_ & d & Ht & Hd & ->). split; [done|]. by exists g, o.
Qed.

Lemma emitted_no_skip `{!TranslatorLaws S} c now view groups fetch cps cp R v w :
  emitCheckpoints c now view (inr groups) fetch = Ok cps → cp ∈ cps →
  (∀ group o, consistent (view group o) (cp_tp cp) R) →
  R v w → cp_UpstreamOffset cp ≤ v → cp_DownstreamOffset cp ≤ w.
Proof.
  intros Hcps Hcp Hcons HR Hle.
  destruct (emitted_translated _ _ _ _ _ _ _ Hcps Hcp) as (Hd & g & o & Ht).
  by eapply translate_no_skip.
Qed.

(** C26. A round of checkpoints is exact and safe. Once the store is ready, the
    checkpoints emitted are those of the committed offsets of a replicated group
    on a replicated topic whose translation is not negative, with the group, the
    partition and both offsets as they are; before that, none is, and a round that
    cannot list the groups emits none and fails. A consumer that resumes on the target at an
    emitted position skips no record: whatever was written upstream at or after
    the committed offset lies downstream at or after the checkpoint. *)
Theorem emitCheckpoints_safe `{!TranslatorLaws S} c now view groups fetch cps :
  emitCheckpoints c now view (inr groups) fetch = Ok cps →
  (ready now = false → cps = []) ∧
  (ready now = true → ∀ cp, cp ∈ cps ↔
     ∃ group os o, group ∈ groups ∧
       GroupFilter_ShouldReplicate (c_groupFilter c) group = true ∧
       fetch group = inr os ∧ o ∈ os ∧
       TopicFilter_ShouldReplicate (c_topicFilter c) (o_Topic o) = true ∧
       ConsumerGroupID cp = group ∧ Metadata cp = "" ∧
       cp_tp cp = {| Topic := o_Topic o; Partition := o_Partition o |} ∧
       cp_UpstreamOffset cp = o_At o ∧ 0 ≤ cp_DownstreamOffset cp ∧
       translate (view group o) (cp_tp cp) (o_At o) = (cp_DownstreamOffset cp, true)) ∧
  (∀ cp R v w, cp ∈ cps → (∀ group o, consistent (view group o) (cp_tp cp) R) →
     R v w → cp_UpstreamOffset cp ≤ v → cp_DownstreamOffset cp ≤ w) ∧
  ∀ err, emitCheckpoints c now view (inl err) fetch =
    if ready now then Err (Wrapf "list consumer groups: %w" [] err) else Ok [].
Proof.
  intros Hemit. pose proof Hemit as Hcps. unfold emitCheckpoints in Hcps.
  assert (ready now = true → ∀ cp, cp ∈ cps ↔ ∃ group, group ∈ groups ∧
    cp ∈ group_checkpoints c view fetch group) as Helem.
  { intros Hr cp. rewrite Hr in Hcps. injection Hcps as <-.
    rewrite elem_of_concat. split.
    - intros (l & Hcp & (g & -> & Hg)%list_elem_of_fmap). by exists g.
    - intros (g & Hg & Hcp). eexists. split; [exact Hcp|]. by apply list_elem_of_fmap_2. }
  assert (ready now = false → cps = []) as Hnot.
  { intros Hr. rewrite Hr in Hcps. by injection Hcps as <-. }
  split; [done|]. split_and!; [| |by intros err; unfold emitCheckpoints; destruct (ready now)].
  - intros Hr cp. rewrite (Helem Hr). split.
    + intros (g & Hg & (Hgf & os & o & Hf & Ho & Hcp)%group_checkpoints_elem).
      apply checkpoint_for_Some in Hcp as (Htf & d & Ht & Hd & ->). by exists g, os, o.
    + intros (g & os & o & Hg & Hgf & Hf & Ho & Htf & Hcg & Hmeta & Htp & Hup & Hd & Ht).
      exists g. split; [done|]. apply group_checkpoints_elem. split; [done|].
      exists os, o. do 2 (split; [done|]). apply checkpoint_for_Some. split; [done|].
      exists (cp_DownstreamOffset cp). rewrite <- Htp. split; [done|]. split; [done|].
      destruct cp; simpl in *. by subst.
  - intros cp R v w. by apply (emitted_no_skip c now view groups fetch).
Qed.
End emission.

(** ** Lifecycle *)

Definition opt_set (h : option nat) : gset nat := match h with Some h => {[h]} | None => ∅ end.

(** The clients the emitter holds open. *)
Definition checkpoint_owned (c : CheckpointEmitter) : gset nat :=
  if c_running c then opt_set (c_srcAdmin c) ∪ opt_set (c_producer c) else ∅.

Definition checkpoint_inv (others : gset nat) (s : CheckpointEmitter * clients OS) : Prop :=
  holds others (checkpoint_owned s.1) s.2 ∧ c_loop s.1 = c_running s.1 ∧
  (c_running s.1 = true →
     ∃ a p, c_srcAdmin s.1 = Some a ∧ c_producer s.1 = Some p ∧ a ≠ p).

Inductive checkpoint_step (s : CheckpointEmitter * clients OS)
    : CheckpointEmitter * clients OS → Prop :=
  | cs_start now refusal1 refusal2 :
      checkpoint_step s
        (let '(_, c, w) := Checkpoint_Start now refusal1 refusal2 s.1 s.2 in (c, w))
  | cs_stop : checkpoint_step s (Checkpoint_Stop s.1 s.2).

Lemma holds_new_close others opts w :
  holds others ∅ w → ∃ h w', NewClient None opts w = (Ok h, w') ∧
    holds others {[h]} w' ∧ holds others ∅ (CloseClient h w').
Proof.
  intros Hw. destruct (holds_new others ∅ opts w Hw) as (h & w' & Hn & _ & Hw').
  rewrite union_empty_r_L in Hw'. exists h, w'. do 2 (split; [done|]).
  apply (holds_close _ _ h) in Hw'; [|by apply elem_of_singleton].
  by rewrite difference_diag_L in Hw'.
Qed.

Lemma Checkpoint_Start_inv others now refusal1 refusal2 c w :
  checkpoint_inv others (c, w) →
  checkpoint_inv others
    (let '(_, c, w) := Checkpoint_Start now refusal1 refusal2 c w in (c, w)).
Proof.
  intros Hinv. pose proof Hinv as (Hh & Hl & _). cbn [fst snd] in Hh, Hl.
  unfold Checkpoint_Start. destruct (c_running c) eqn:Hr; [exact Hinv|].
  destruct (negb _); [exact Hinv|].
  destruct (wrap_err _ _ _) as [srcOpts| |]; [|exact Hinv..].
  destruct refusal1 as [err|]; [exact Hinv|].
  unfold checkpoint_owned in Hh. rewrite Hr in Hh.
  destruct (holds_new_close others srcOpts w Hh) as (a & w1 & -> & Hopen & Hclosed).
  destruct (wrap_err _ _ _) as [tgtOpts|e|why] eqn:Ew.
  - destruct refusal2 as [err|]; [by split|].
    destruct (holds_new others {[a]} (tgtOpts ++ [kgo_RequireAllISRAcks]) w1 Hopen)
      as (p & w2 & -> & Hne & Hw2). apply not_elem_of_singleton in Hne.
    split; [|split; [done|]].
    + unfold checkpoint_owned. cbn [fst snd set_clients c_running c_srcAdmin c_producer opt_set].
      by rewrite (union_comm_L {[a]}).
    + intros _. exists a, p. by repeat split.
  - by split.
  - exfalso. unfold wrap_err in Ew. case_match; simplify_eq.
    by eapply BuildClientOpts_no_panic.
Qed.

Lemma Checkpoint_Stop_inv others c w :
  checkpoint_inv others (c, w) → checkpoint_inv others (Checkpoint_Stop c w).
Proof.
  intros Hinv. pose proof Hinv as (Hh & _ & Hc). cbn [fst snd] in Hh, Hc.
  unfold Checkpoint_Stop. destruct (c_running c) eqn:Hr; cbn [negb]; [|exact Hinv].
  destruct (Hc eq_refl) as (a & p & Ha & Hp & Hne). unfold checkpoint_owned in Hh.
  rewrite Hr, Ha, Hp in *. cbn [opt_set close_opt] in *.
  apply (holds_close _ _ a) in Hh; [|set_solver].
  apply (holds_close _ _ p) in Hh; [|set_solver].
  split; [|by split].
  replace (checkpoint_owned _) with (({[a]} ∪ {[p]}) ∖ {[a]} ∖ {[p]} : gset nat); [done|].
  unfold checkpoint_owned. cbn. set_solver.
Qed.

(** C27. The emitter neither leaks nor double-books a client: however often it is
    started and stopped, and whichever of its clients are refused, the open
    clients are those that were open before plus, while it runs, its admin
    client and its producer, and its loop is alive just while it runs. *)
Theorem checkpoint_lifecycle others s s' :
  checkpoint_inv others s → rtc checkpoint_step s s' →
  (∀ h, is_open s'.2 h ↔ h ∈ others ∨
     (c_running s'.1 = true ∧ (c_srcAdmin s'.1 = Some h ∨ c_producer s'.1 = Some h))) ∧
  c_loop s'.1 = c_running s'.1.
Proof.
  intros Hs Hr. assert (checkpoint_inv others s') as ((_ & _ & Hopen) & Hl & _).
  { revert Hr. apply (rtc_invariant _ (checkpoint_inv others)); [|done].
    intros [c w] y Hx []; [by apply Checkpoint_Start_inv|by apply Checkpoint_Stop_inv]. }
  split; [|done]. intros h. rewrite Hopen. unfold checkpoint_owned, opt_set.
  destruct (c_running s'.1); [|set_solver].
  destruct (c_srcAdmin s'.1), (c_producer s'.1); set_solver.
Qed.
End checkpoint.

(** ** Witnesses *)

Definition ex_emitter : CheckpointEmitter := {|
  c_cfg := ex_replication; c_srcCfg := ex_cluster "e:9092"; c_tgtCfg := ex_cluster "w:9092";
  c_topicFilter := {| tf_whitelist := []; tf_blacklist := [] |};
  c_groupFilter := {| gf_whitelist := ["billing"]; gf_blacklist := [] |};
  c_policy := default_policy (NewDefaultPolicy ".");
  c_srcAdmin := None; c_producer := None; c_running := false; c_loop := false |}.

Definition ex_offsets (group : string) : error + list OffsetResponse :=
  inr [{| o_Topic := "t"; o_Partition := 0; o_At := 250 |};
       {| o_Topic := "unknown"; o_Partition := 0; o_At := 9 |}].

Lemma ex_consistent :
  consistent (run ex_history) ex_tp ex_log.
Proof.
  exists ex_history. split; [done|]. split; [apply ex_log_map|].
  split; [apply ex_history_ok|]. intros os. apply ex_history_behind.
Qed.

Lemma emitCheckpoints_safe_witness :
  let cp := {| ConsumerGroupID := "billing"; cp_tp := ex_tp; cp_UpstreamOffset := 250;
               cp_DownstreamOffset := 108; Metadata := "" |} in
  emitCheckpoints ex_emitter (run ex_history) (λ _ _, run ex_history)
    (inr ["billing"; "audit"]) ex_offsets = Ok [cp] ∧ 108 ≤ 257.
Proof.
  intros cp.
  assert (emitCheckpoints ex_emitter (run ex_history) (λ _ _, run ex_history)
    (inr ["billing"; "audit"]) ex_offsets = Ok [cp]) as H by (vm_compute; reflexivity).
  split; [exact H|].
  destruct (emitCheckpoints_safe ex_emitter (run ex_history) (λ _ _, run ex_history)
    ["billing"; "audit"] ex_offsets [cp] H) as (_ & _ & Hsafe & _).
  apply (Hsafe cp ex_log 250 257); [by apply list_elem_of_singleton| | |].
  - intros _ _. exact ex_consistent.
  - unfold ex_log. lia.
  - simpl. lia.
Defined.

Lemma checkpoint_lifecycle_witness :
  let '(r, c, w) := Checkpoint_Start 0 None None ex_emitter no_clients in
  r = Ok () ∧ (is_open w 0 ↔ 0%nat ∈ (∅ : gset nat) ∨ (c_running c = true ∧
    (c_srcAdmin c = Some 0%nat ∨ c_producer c = Some 0%nat))).
Proof.
  split; [reflexivity|].
  refine (proj1 (checkpoint_lifecycle ∅ (ex_emitter, no_clients) _ _ (rtc_once _ _
    (cs_start _ 0 None None))) 0%nat).
  split; [|split; [reflexivity|discriminate]]. split; [|split].
  - intros h. simpl. set_solver.
  - set_solver.
  - intros h. unfold is_open. simpl. split; [lia|set_solver].
Defined.
