(* ===== verification/Metrics.v ===== *)
(** * internal/metrics/metrics.go: the Prometheus metrics

    The vectors and the labels they are declared with. The Prometheus client is
    an interface: of [WithLabelValues] only the documented panic is used, which
    it raises when the number of values differs from the number of labels. *)
From S2P Require Import Prelude.

Inductive metric_kind := CounterVec | GaugeVec | HistogramVec (buckets : list string).

Record Vec := { v_Name : string; v_Kind : metric_kind; v_Labels : list string }.

Record Metrics := {
  RecordsReplicated : Vec;
  BytesReplicated : Vec;
  ReplicationLag : Vec;
  RecordAge : Vec;
  HeartbeatLatency : Vec;
  CheckpointsEmitted : Vec;
  OffsetSyncsEmitted : Vec;
  TopicsDiscovered : Vec;
  GroupsDiscovered : Vec;
  PollBatchSize : Vec;
  ProduceErrors : Vec;
  ConsumeErrors : Vec;
  DLQRecordsTotal : Vec;
  RetryAttempts : Vec;
  RetryExhausted : Vec;
  CircuitBreakerState : Vec;
  OffsetCommits : Vec;
  OffsetCommitErrors : Vec;
  TxnCommits : Vec;
  TxnAborts : Vec;
}.

Definition vec (k : metric_kind) (name : string) (labels : list string) : Vec :=
  {| v_Name := "gomm2_" +:+ name; v_Kind := k; v_Labels := labels |}.

Definition New : Metrics := {|
  RecordsReplicated := vec CounterVec "records_replicated_total" ["source"; "target"; "topic"];
  BytesReplicated := vec CounterVec "bytes_replicated_total" ["source"; "target"; "topic"];
  ReplicationLag := vec GaugeVec "replication_lag_records"
    ["source"; "target"; "topic"; "partition"];
  RecordAge := vec (HistogramVec ["0.001"; "0.01"; "0.1"; "0.5"; "1"; "5"; "10"; "30"; "60"; "300"])
    "record_age_seconds" ["source"; "target"; "topic"];
  HeartbeatLatency := vec (HistogramVec ["0.001"; "0.01"; "0.05"; "0.1"; "0.5"; "1"; "5"])
    "heartbeat_latency_seconds" ["source"; "target"];
  CheckpointsEmitted := vec CounterVec "checkpoints_emitted_total" ["source"; "target"];
  OffsetSyncsEmitted := vec CounterVec "offset_syncs_emitted_total" ["source"; "target"];
  TopicsDiscovered := vec GaugeVec "topics_discovered" ["source"; "target"];
  GroupsDiscovered := vec GaugeVec "groups_discovered" ["source"; "target"];
  PollBatchSize := vec (HistogramVec ["1"; "10"; "50"; "100"; "500"; "1000"; "5000"])
    "poll_batch_size" ["source"; "target"];
  ProduceErrors := vec CounterVec "produce_errors_total" ["source"; "target"; "topic"];
  ConsumeErrors := vec CounterVec "consume_errors_total" ["source"; "target"];
  DLQRecordsTotal := vec CounterVec "dlq_records_total" ["source"; "target"; "topic"];
  RetryAttempts := vec CounterVec "retry_attempts_total" ["source"; "target"; "operation"];
  RetryExhausted := vec CounterVec "retry_exhausted_total" ["source"; "target"; "operation"];
  CircuitBreakerState := vec GaugeVec "circuit_breaker_state" ["source"; "target"; "operation"];
  OffsetCommits := vec CounterVec "offset_commits_total" ["source"; "target"];
  OffsetCommitErrors := vec CounterVec "offset_commit_errors_total" ["source"; "target"];
  TxnCommits := vec CounterVec "txn_commits_total" ["source"; "target"];
  TxnAborts := vec CounterVec "txn_aborts_total" ["source"; "target"];
|}.

(** The Prometheus client: [WithLabelValues], and what its documentation says
    about a wrong number of values. *)
Class Prometheus := {
  WithLabelValues : Vec → list string → outcome unit;
}.

Class PrometheusLaws `{Prometheus} : Prop := {
  wrong_arity v values :
    length values ≠ length (v_Labels v) → ∃ why, WithLabelValues v values = Panic why;
}.

(** A client that checks the arity and nothing else. *)
#[export] Instance ArityPrometheus : Prometheus := {|
  WithLabelValues v values :=
    if (length values =? length (v_Labels v))%nat then Ok ()
    else Panic "inconsistent label cardinality";
|}.

#[export] Instance ArityPrometheus_laws : PrometheusLaws.
Proof.
  split. intros v values Hne. simpl. rewrite (proj2 (Nat.eqb_neq _ _)) by done. by eexists.
Qed.
