(* ===== verification/Admin.v ===== *)
(** * internal/admin: the admin client and the topic configuration sync

    [Client] wraps a kadm client. What a cluster answers to a request is an
    input: a [kadm_Client] is one function per request that the code makes. Maps
    that Go iterates in any order are lists of entries in the order met. *)
From stdpp Require Import sorting.
From S2P Require Import Prelude GoStrings Filter Retry Types Config ClientOpts Kgo.

Local Open Scope Z_scope.

Record TopicDetail := { t_Topic : string; t_Partitions : gset Z }.

(** [kadm.TopicDetails] *)
Abbreviation TopicDetails := (gmap string TopicDetail).

Record ConfigEntry := { e_Key : string; e_Value : option string; e_DynamicTopic : bool }.
Record ResourceConfig := { rc_Err : option error; rc_Configs : list ConfigEntry }.
Record GroupOffset := { g_Topic : string; g_Partition : Z; g_At : Z }.

Record kadm_Client := {
  kListTopics : list string → error + TopicDetails;    (* no name: all topics *)
  kCreateTopics : Z → Z → list (string * option string) → string → error + list (option error);
  kCreatePartitions : Z → string → error + list (option error);
  kListGroups : error + list string;
  kFetchOffsets : string → error + list GroupOffset;
  kDescribeTopicConfigs : string → error + list ResourceConfig;
  kAlterTopicConfigs : list (string * option string) → string → error + list (option error);
}.

(** [sort.Strings], and the order of [Sorted] on partitions. *)
#[global] Instance string_le_dec (a b : string) : Decision (String.leb a b = true) := _.
Definition sort_strings (l : list string) : list string :=
  merge_sort (λ a b, String.leb a b = true) l.
Definition sorted_partitions (ps : gset Z) : list Z := merge_sort Z.le (elements ps).

(** The first error among the per-topic responses. *)
Fixpoint first_err (resp : list (option error)) : option error :=
  match resp with
  | [] => None
  | Some e :: _ => Some e
  | None :: resp => first_err resp
  end.

Section client.
Context {OS : Outside}.

Record Client := { inner : kadm_Client; raw : nat }.

(** [connect h] is the cluster behind the client [h]. *)
Definition NewAdminClient (now : Z) (refusal : option error) (connect : nat → kadm_Client)
    (cc : ClusterConfig) (w : clients OS) : outcome Client * clients OS :=
  match wrap_err "build client opts: %w" [] (BuildClientOpts now cc) with
  | Ok opts =>
      match NewClient refusal opts w with
      | (Ok h, w) => (Ok {| inner := connect h; raw := h |}, w)
      | (Err err, w) => (Err (Wrapf "create kafka client: %w" [] err), w)
      | (Panic why, w) => (Panic why, w)
      end
  | Err err => (Err err, w)
  | Panic why => (Panic why, w)
  end.

Definition Client_Close (c : Client) (w : clients OS) : clients OS := CloseClient (raw c) w.

Definition Inner (c : Client) : kadm_Client := inner c.
End client.

(** The operations use only [inner]. *)

Definition ListTopics (c : kadm_Client) : outcome (list string) :=
  match kListTopics c [] with
  | inl err => Err (Wrapf "list topics: %w" [] err)
  | inr topics => Ok (sort_strings (elements (dom topics : gset string)))
  end.

Definition ListTopicPartitions (c : kadm_Client) (topic : string) : outcome (list Z) :=
  match kListTopics c [topic] with
  | inl err => Err (Wrapf "list topic partitions: %w" [] err)
  | inr topics =>
      match topics !! topic with
      | None => Err (Errorf "topic %s not found" [topic])
      | Some detail => Ok (sorted_partitions (t_Partitions detail))
      end
  end.

Definition ListTopicsDetails (c : kadm_Client) : outcome TopicDetails :=
  match kListTopics c [] with
  | inl err => Err (Wrapf "list topics: %w" [] err)
  | inr topics => Ok topics
  end.

(** [order] gives the entries of the answer as the range loop meets them. *)
Definition TopicPartitions (order : TopicDetails → list TopicDetail) (c : kadm_Client)
    (topics : list string) : outcome (list TopicPartition) :=
  match kListTopics c topics with
  | inl err => Err (Wrapf "describe topics: %w" [] err)
  | inr details =>
      Ok (concat ((λ d, (λ p, {| Topic := t_Topic d; Partition := p |}) <$>
                        sorted_partitions (t_Partitions d)) <$> order details))
  end.

Definition CreateTopic (c : kadm_Client) (name : string) (partitions replicationFactor : Z)
    (configs : list (string * option string)) : outcome unit :=
  match kCreateTopics c partitions replicationFactor configs name with
  | inl err => Err (Wrapf "create topic %s: %w" [name] err)
  | inr resp =>
      match first_err resp with
      | Some err => Err (Wrapf "create topic %s: %w" [name] err)
      | None => Ok ()
      end
  end.

Definition CreateCompactedTopic (c : kadm_Client) (name : string) (replicationFactor : Z)
    : outcome unit :=
  CreateTopic c name 1 replicationFactor [("cleanup.policy", Some "compact")].

Definition EnsurePartitions (c : kadm_Client) (topic : string) (count : Z) : outcome unit :=
  match kCreatePartitions c count topic with
  | inl err => Err (Wrapf "create partitions for %s: %w" [topic] err)
  | inr _ => Ok ()      (* the errors of single topics are ignored *)
  end.

Definition ListConsumerGroups (c : kadm_Client) : outcome (list string) :=
  match kListGroups c with
  | inl err => Err (Wrapf "list consumer groups: %w" [] err)
  | inr names => Ok (sort_strings names)
  end.

Definition FetchGroupOffsets (c : kadm_Client) (group : string)
    : outcome (gmap TopicPartition Z) :=
  match kFetchOffsets c group with
  | inl err => Err (Wrapf "fetch offsets for group %s: %w" [group] err)
  | inr offsets =>
      Ok (foldl (λ m o, <[{| Topic := g_Topic o; Partition := g_Partition o |} := g_At o]> m)
            ∅ offsets)
  end.

(** [result[entry.Key] = *entry.Value] for the dynamic topic entries. *)
Definition add_entry (m : gmap string string) (e : ConfigEntry) : gmap string string :=
  if e_DynamicTopic e then
    match e_Value e with Some v => <[e_Key e := v]> m | None => m end
  else m.

Fixpoint collect_configs (topic : string) (rs : list ResourceConfig) (m : gmap string string)
    : outcome (gmap string string) :=
  match rs with
  | [] => Ok m
  | rc :: rs =>
      match rc_Err rc with
      | Some err => Err (Wrapf "describe topic config %s: %w" [topic] err)
      | None => collect_configs topic rs (foldl add_entry m (rc_Configs rc))
      end
  end.

Definition DescribeTopicConfigs (c : kadm_Client) (topic : string)
    : outcome (gmap string string) :=
  match kDescribeTopicConfigs c topic with
  | inl err => Err (Wrapf "describe topic configs for %s: %w" [topic] err)
  | inr resources => collect_configs topic resources ∅
  end.

Definition AlterTopicConfigs (c : kadm_Client) (topic : string)
    (configs : list (string * option string)) : outcome unit :=
  match kAlterTopicConfigs c configs topic with
  | inl err => Err (Wrapf "alter topic configs for %s: %w" [topic] err)
  | inr resp =>
      match first_err resp with
      | Some err => Err (Wrapf "alter topic config %s: %w" [topic] err)
      | None => Ok ()
      end
  end.

(** ** internal/admin/topic_sync.go *)

Record TopicConfigDiff := {
  diff_Topic : string;
  ToSet : gmap string (option string);
  ToReset : list string;
}.

(** [allowedProps != nil && !allowedProps[k]] *)
Definition blocked (allowedProps : option (gmap string bool)) (k : string) : bool :=
  match allowedProps with
  | None => false
  | Some allowed => negb (default false (allowed !! k))
  end.

(** The entries to apply. *)
Definition toApply (allowedProps : option (gmap string bool))
    (srcConfigs tgtConfigs : gmap string string) : gmap string (option string) :=
  map_imap (λ k v,
    if blocked allowedProps k then None
    else match tgtConfigs !! k with
         | Some tgtVal => if String.eqb tgtVal v then None else Some (Some v)
         | None => Some (Some v)
         end) srcConfigs.

(** The result, and the alter request if one is made. [order] is the order in
    which [AlterTopicConfigs] meets the entries. *)
Definition SyncTopicConfigs
    (order : gmap string (option string) → list (string * option string))
    (srcAdmin tgtAdmin : kadm_Client) (srcTopic tgtTopic : string)
    (allowedProps : option (gmap string bool))
    : outcome unit * option (gmap string (option string)) :=
  match wrap_err "describe source topic %s configs: %w" [srcTopic]
          (DescribeTopicConfigs srcAdmin srcTopic) with
  | Err e => (Err e, None)
  | Panic why => (Panic why, None)
  | Ok srcConfigs =>
      match wrap_err "describe target topic %s configs: %w" [tgtTopic]
              (DescribeTopicConfigs tgtAdmin tgtTopic) with
      | Err e => (Err e, None)
      | Panic why => (Panic why, None)
      | Ok tgtConfigs =>
          let changes := toApply allowedProps srcConfigs tgtConfigs in
          if (size changes =? 0)%nat then (Ok (), None)
          else (wrap_err "alter target topic %s configs: %w" [tgtTopic]
                  (AlterTopicConfigs tgtAdmin tgtTopic (order changes)), Some changes)
      end
  end.

(** What the target holds once the changes are in. *)
Definition apply_changes (changes : gmap string (option string)) (tgt : gmap string string)
    : gmap string string := omap id changes ∪ tgt.

Lemma toApply_lookup allowed src tgt k :
  toApply allowed src tgt !! k =
  match src !! k with
  | Some v => if blocked allowed k || bool_decide (tgt !! k = Some v) then None
              else Some (Some v)
  | None => None
  end.
Proof.
  unfold toApply. rewrite map_lookup_imap. destruct (src !! k) as [v|]; simpl; [|done].
  destruct (blocked allowed k); simpl; [done|].
  destruct (tgt !! k) as [t|].
  - destruct (String.eqb_spec t v) as [->|Hne]; case_bool_decide; congruence.
  - by case_bool_decide.
Qed.

(** C29. The configuration sync brings the target in line and then stays quiet. The
    request it makes sets exactly the allowed properties of the source whose
    value the target lacks or contradicts, to the source's value; once these are
    in, the target agrees with the source on every allowed property, keeps every
    other one, and a second sync makes no request. Properties the source does
    not set are never reset. When both topics are described and nothing differs,
    no request is made and the result is nil. *)
Theorem SyncTopicConfigs_converges order srcA tgtA srcTopic tgtTopic allowed src tgt :
  DescribeTopicConfigs srcA srcTopic = Ok src → DescribeTopicConfigs tgtA tgtTopic = Ok tgt →
  let changes := toApply allowed src tgt in
  let tgt' := apply_changes changes tgt in
  (SyncTopicConfigs order srcA tgtA srcTopic tgtTopic allowed).2 =
    (if decide (changes = ∅) then None else Some changes) ∧
  (changes = ∅ → (SyncTopicConfigs order srcA tgtA srcTopic tgtTopic allowed).1 = Ok ()) ∧
  (∀ k v, changes !! k = Some v ↔
     ∃ x, v = Some x ∧ src !! k = Some x ∧ blocked allowed k = false ∧ tgt !! k ≠ Some x) ∧
  (∀ k v, src !! k = Some v → blocked allowed k = false → tgt' !! k = Some v) ∧
  (∀ k, src !! k = None ∨ blocked allowed k = true → tgt' !! k = tgt !! k) ∧
  toApply allowed src tgt' = ∅.
Proof.
  intros Hs Ht changes tgt'.
  assert (∀ k, tgt' !! k = match src !! k with
    | Some v => if blocked allowed k then tgt !! k else Some v | None => tgt !! k end) as Htgt.
  { intros k. unfold tgt', apply_changes. rewrite lookup_union, lookup_omap.
    subst changes. rewrite toApply_lookup. destruct (src !! k) as [v|]; simpl.
    - destruct (blocked allowed k); simpl; [by destruct (tgt !! k)|].
      case_bool_decide as Hv; simpl; [rewrite Hv; done|]. by destruct (tgt !! k).
    - by destruct (tgt !! k). }
  split; [|split; [|split; [|split; [|split]]]].
  - unfold SyncTopicConfigs. rewrite Hs, Ht. cbn [wrap_err].
    destruct (Nat.eqb_spec (size (toApply allowed src tgt)) 0) as [Hz|Hz];
      rewrite map_size_empty_iff in Hz; fold changes in Hz |- *; by case_decide.
  - intros He. unfold SyncTopicConfigs. rewrite Hs, Ht. cbn [wrap_err].
    fold changes. by rewrite He, map_size_empty.
  - intros k v. subst changes. rewrite toApply_lookup. destruct (src !! k) as [x|].
    + destruct (blocked allowed k); simpl; [split; [done|by intros (? & _ & _ & ? & _)]|].
      case_bool_decide; split; [done|by intros (? & _ & [= <-] & _ & ?)| |].
      * intros [= <-]. by exists x.
      * by intros (? & -> & [= <-] & _).
    + split; [done|by intros (? & _ & ? & _)].
  - intros k v Hk Hb. by rewrite Htgt, Hk, Hb.
  - intros k [Hk|Hb]; rewrite Htgt; [by rewrite Hk|]. rewrite Hb. by destruct (src !! k).
  - apply map_eq. intros k. rewrite toApply_lookup, lookup_empty, Htgt.
    destruct (src !! k) as [v|]; [|done]. destruct (blocked allowed k); [done|].
    simpl. by case_bool_decide.
Qed.

(** ** Witness *)

Definition ex_cluster_answers (configs : list ConfigEntry) : kadm_Client := {|
  kListTopics _ := inr ∅; kCreateTopics _ _ _ _ := inr [None];
  kCreatePartitions _ _ := inr [None]; kListGroups := inr []; kFetchOffsets _ := inr [];
  kDescribeTopicConfigs _ := inr [{| rc_Err := None; rc_Configs := configs |}];
  kAlterTopicConfigs _ _ := inr [None] |}.

Definition ex_src_admin : kadm_Client := ex_cluster_answers
  [{| e_Key := "retention.ms"; e_Value := Some "1000"; e_DynamicTopic := true |};
   {| e_Key := "segment.bytes"; e_Value := Some "99"; e_DynamicTopic := false |};
   {| e_Key := "cleanup.policy"; e_Value := Some "compact"; e_DynamicTopic := true |}].
Definition ex_tgt_admin : kadm_Client := ex_cluster_answers
  [{| e_Key := "cleanup.policy"; e_Value := Some "compact"; e_DynamicTopic := true |};
   {| e_Key := "max.message.bytes"; e_Value := Some "5"; e_DynamicTopic := true |}].

Lemma SyncTopicConfigs_converges_witness :
  (SyncTopicConfigs map_to_list ex_src_admin ex_tgt_admin "t" "east.t" None).2
  = Some {["retention.ms" := Some "1000"]}.
Proof.
  destruct (SyncTopicConfigs_converges map_to_list ex_src_admin ex_tgt_admin "t" "east.t" None
    {["retention.ms" := "1000"; "cleanup.policy" := "compact"]}
    {["cleanup.policy" := "compact"; "max.message.bytes" := "5"]}) as (H & _);
    [reflexivity|reflexivity|].
  rewrite H. vm_compute. reflexivity.
Defined.
