(* ===== verification/SourceLoop.v ===== *)
(** * internal/mirror/source.go: the source replicator

    [Source] with its lifecycle, its topic subscription, and the replication
    loop. The loop's goroutine, the produce callbacks and the sync writes run
    concurrently and share the error counter, the in-flight group and the sync
    store; the model has one step per action of one of them, so every
    interleaving is a run. What the clients answer is part of the event. A trace
    records what the loop hands to the outside, in order.

    A callback, retries included, is one step: the records it hands over again
    are in the trace, and what other goroutines do to the store during its
    backoffs is the [elapse] of the retry environment. The
    local record counts are exact integers here; the code keeps them in
    [float64], which is exact below 2^53. *)
From S2P Require Import Prelude GoStrings Filter Retry CircuitBreaker Types Policy SyncStore.
From S2P Require Import Config ClientOpts Kgo SyncIO Dlq Metrics.

Local Open Scope Z_scope.

Section source.
Context {OS : Outside} {RE : RegexpEngine}.

Record SourceReplicator := {
  s_cfg : ReplicationConfig;
  s_srcCfg : ClusterConfig;
  s_tgtCfg : ClusterConfig;
  s_topicFilter : Filter.TopicFilter;
  s_policy : Policy.ReplicationPolicy;
  s_syncWriter : option SyncWriter;
  s_dlq : option DLQ;
  s_consumer : option nat;
  s_producer : option nat;
  s_running : bool;
  s_loop : bool;
  s_subscribedTopics : gset string;
  s_retryCfg : RetryConfig;
  s_circuitBreaker : CircuitBreaker;
}.

(** The retry settings of a flow, shared with the parallel source. *)
Definition flow_retryCfg (cfg : ReplicationConfig) : RetryConfig :=
  let retryCfg := {| MaxRetries := cfg_MaxRetries cfg; BackoffBase := RetryBackoffBase cfg;
                     BackoffMax := RetryBackoffMax cfg |} in
  if MaxRetries retryCfg =? 0 then DefaultRetryConfig else retryCfg.

(** [dlq, err = NewDLQ(...)], an error leaving [dlq] nil. *)
Definition dlq_or_nil (r : outcome (option DLQ)) : option DLQ :=
  match r with Ok d => d | _ => None end.

Definition NewSource (now : Z) (refusal : option error) (cfg : ReplicationConfig)
    (srcCfg tgtCfg : ClusterConfig) (w : clients OS) : outcome SourceReplicator * clients OS :=
  match
    (topicFilter ← wrap_err "create topic filter: %w" []
       (NewTopicFilter (tfc_Whitelist (TopicFilter cfg)) (tfc_Blacklist (TopicFilter cfg)));
     pol ← wrap_err "create replication policy: %w" []
       (NewPolicy (Config.ReplicationPolicy cfg) (Config.Separator cfg));
     Ok (topicFilter, pol))
  with
  | Err err => (Err err, w)
  | Panic why => (Panic why, w)
  | Ok (topicFilter, pol) =>
      let '(dlq, w) := NewDLQ now refusal cfg tgtCfg w in
      (Ok {| s_cfg := cfg; s_srcCfg := srcCfg; s_tgtCfg := tgtCfg;
             s_topicFilter := topicFilter; s_policy := pol; s_syncWriter := None;
             s_dlq := dlq_or_nil dlq; s_consumer := None; s_producer := None;
             s_running := false; s_loop := false; s_subscribedTopics := ∅;
             s_retryCfg := flow_retryCfg cfg;
             s_circuitBreaker := NewCircuitBreaker DefaultCircuitBreakerConfig |}, w)
  end.

Definition SetSyncWriter (sw : SyncWriter) (s : SourceReplicator) : SourceReplicator :=
  {| s_cfg := s_cfg s; s_srcCfg := s_srcCfg s; s_tgtCfg := s_tgtCfg s;
     s_topicFilter := s_topicFilter s; s_policy := s_policy s; s_syncWriter := Some sw;
     s_dlq := s_dlq s; s_consumer := s_consumer s; s_producer := s_producer s;
     s_running := s_running s; s_loop := s_loop s; s_subscribedTopics := s_subscribedTopics s;
     s_retryCfg := s_retryCfg s; s_circuitBreaker := s_circuitBreaker s |}.

Definition SetDLQ (d : DLQ) (s : SourceReplicator) : SourceReplicator :=
  {| s_cfg := s_cfg s; s_srcCfg := s_srcCfg s; s_tgtCfg := s_tgtCfg s;
     s_topicFilter := s_topicFilter s; s_policy := s_policy s;
     s_syncWriter := s_syncWriter s; s_dlq := Some d; s_consumer := s_consumer s;
     s_producer := s_producer s; s_running := s_running s; s_loop := s_loop s;
     s_subscribedTopics := s_subscribedTopics s;
     s_retryCfg := s_retryCfg s; s_circuitBreaker := s_circuitBreaker s |}.

(** Clients, loop flag and queue after [Start] or [Stop]. *)
Definition with_clients (s : SourceReplicator) (consumer producer : option nat)
    (running loop : bool) (dlq : option DLQ) : SourceReplicator :=
  {| s_cfg := s_cfg s; s_srcCfg := s_srcCfg s; s_tgtCfg := s_tgtCfg s;
     s_topicFilter := s_topicFilter s; s_policy := s_policy s;
     s_syncWriter := s_syncWriter s; s_dlq := dlq; s_consumer := consumer;
     s_producer := producer; s_running := running; s_loop := loop;
     s_subscribedTopics := s_subscribedTopics s;
     s_retryCfg := s_retryCfg s; s_circuitBreaker := s_circuitBreaker s |}.

Definition with_subscribed (s : SourceReplicator) (ts : gset string) : SourceReplicator :=
  {| s_cfg := s_cfg s; s_srcCfg := s_srcCfg s; s_tgtCfg := s_tgtCfg s;
     s_topicFilter := s_topicFilter s; s_policy := s_policy s;
     s_syncWriter := s_syncWriter s; s_dlq := s_dlq s; s_consumer := s_consumer s;
     s_producer := s_producer s; s_running := s_running s; s_loop := s_loop s;
     s_subscribedTopics := ts;
     s_retryCfg := s_retryCfg s; s_circuitBreaker := s_circuitBreaker s |}.

Definition compressionCodec (name : string) : string :=
  if String.eqb name "gzip" then "gzip"
  else if String.eqb name "snappy" then "snappy"
  else if String.eqb name "lz4" then "lz4"
  else if String.eqb name "zstd" then "zstd"
  else "none".

(** ** Start and Stop *)

Definition source_opts (s : SourceReplicator) (srcOpts : list kgo_Opt) : list kgo_Opt :=
  srcOpts ++
  [kgo_ConsumeResetOffsetAtStart; kgo_FetchMaxBytes (100 * 1024 * 1024);
   kgo_FetchMaxPartitionBytes (10 * 1024 * 1024); kgo_FetchMinBytes (512 * 1024);
   kgo_FetchMaxWait (500 * Millisecond);
   kgo_ConsumerGroup ("gomm2-source-" +:+ Config.Source (s_cfg s) +:+ "-"
                      +:+ Config.Target (s_cfg s));
   kgo_DisableAutoCommit] ++
  (if ReadCommitted (s_cfg s) then [kgo_FetchReadCommitted] else []).

Definition target_opts (s : SourceReplicator) (tgtOpts : list kgo_Opt) : list kgo_Opt :=
  tgtOpts ++
  [kgo_ProducerBatchMaxBytes (i32 (ProducerBatchSize (s_cfg s)));
   kgo_ProducerLinger (i64 (ProducerLingerMs (s_cfg s) * Millisecond));
   kgo_ManualPartitioner; kgo_RequireAllISRAcks;
   kgo_ProducerBatchCompression (compressionCodec (Compression (s_cfg s)));
   kgo_MaxProduceRequestsInflightPerBroker 20; kgo_MaxBufferedRecords 100000].

Definition Source_Start (now : Z) (refusal1 refusal2 : option error) (s : SourceReplicator)
    (w : clients OS) : outcome unit * SourceReplicator * clients OS :=
  if s_running s then (Err (Errorf "source already running" []), s, w)
  else
    match wrap_err "build source client opts: %w" [] (BuildClientOpts now (s_srcCfg s)) with
    | Err err => (Err err, s, w)
    | Panic why => (Panic why, s, w)
    | Ok srcOpts =>
        match NewClient refusal1 (source_opts s srcOpts) w with
        | (Err err, w) => (Err (Wrapf "create source consumer: %w" [] err), s, w)
        | (Panic why, w) => (Panic why, s, w)
        | (Ok consumer, w) =>
            let s := with_clients s (Some consumer) (s_producer s) false (s_loop s) (s_dlq s) in
            match wrap_err "build target client opts: %w" []
                    (BuildClientOpts now (s_tgtCfg s)) with
            | Err err => (Err err, s, CloseClient consumer w)
            | Panic why => (Panic why, s, w)
            | Ok tgtOpts =>
                match NewClient refusal2 (target_opts s tgtOpts) w with
                | (Err err, w) =>
                    (Err (Wrapf "create target producer: %w" [] err), s,
                     CloseClient consumer w)
                | (Panic why, w) => (Panic why, s, w)
                | (Ok producer, w) =>
                    (Ok (),
                     with_clients s (Some consumer) (Some producer) true true (s_dlq s), w)
                end
            end
        end
    end.

(** [Stop] once the loop has returned and nothing is in flight; [errCount] is the
    error counter then. The flag says whether the final offsets are committed. *)
Definition Source_Stop (errCount : Z) (s : SourceReplicator) (w : clients OS)
    : SourceReplicator * clients OS * bool :=
  if negb (s_running s) then (s, w, false)
  else
    let commits := match s_consumer s with Some _ => errCount =? 0 | None => false end in
    let w := match s_consumer s with Some c => CloseClient c w | None => w end in
    let w := match s_producer s with Some p => CloseClient p w | None => w end in
    let '(dlq, w) :=
      match s_dlq s with
      | Some d => let '(d, w) := DLQ_Close d w in (Some d, w)
      | None => (None, w)
      end in
    (with_clients s (s_consumer s) (s_producer s) false false dlq, w, commits).

(** The topics of [topics] that are not subscribed yet, in order, and the
    subscription with them. *)
Fixpoint new_topics (topics : list string) (subscribed : gset string)
    : list string * gset string :=
  match topics with
  | [] => ([], subscribed)
  | t :: topics =>
      if bool_decide (t ∈ subscribed) then new_topics topics subscribed
      else let '(new, subscribed) := new_topics topics ({[t]} ∪ subscribed) in
           (t :: new, subscribed)
  end.

(** The source after [UpdateTopics], and the arguments of [AddConsumeTopics]. *)
Definition UpdateTopics (topics : list string) (s : SourceReplicator)
    : SourceReplicator * list string :=
  match s_consumer s with
  | None => (s, [])
  | Some _ =>
      let '(new, subscribed) := new_topics topics (s_subscribedTopics s) in
      (with_subscribed s subscribed, new)
  end.

Lemma new_topics_spec topics sub :
  let '(new, sub') := new_topics topics sub in
  sub' = (sub ∪ list_to_set topics : gset string) ∧ NoDup new ∧
  (∀ t, t ∈ new ↔ t ∈ topics ∧ t ∉ sub).
Proof.
  revert sub. induction topics as [|t ts IH]; intros sub; simpl.
  - split; [by rewrite union_empty_r_L|]. split; [constructor|set_solver].
  - case_bool_decide as Ht.
    + specialize (IH sub). destruct (new_topics ts sub) as [new sub'].
      destruct IH as (-> & Hn & Hin). split; [set_solver|]. split; [done|].
      intros x. rewrite Hin. set_solver.
    + specialize (IH ({[t]} ∪ sub)). destruct (new_topics ts _) as [new sub'].
      destruct IH as (-> & Hn & Hin). split; [set_solver|]. split.
      * constructor; [|done]. rewrite Hin. set_solver.
      * intros x. rewrite elem_of_cons, Hin. destruct (decide (x = t)); set_solver.
Qed.

(** ** The replication loop *)

(** What the loop and its goroutines hand to the outside. Produced records are
    numbered in order. *)
Inductive effect :=
  | EProduce (n : nat) (r : kgo_Record)       (* [producer.Produce] *)
  | ERetry (n : nat) (r : kgo_Record)         (* [producer.Produce] in a retry of record [n] *)
  | EAcked (n : nat)                          (* its callback ends in success *)
  | EFailed (n : nat)                         (* ... or after all retries *)
  | EDLQ (r : kgo_Record)                     (* the queue's producer gets [r] *)
  | ESyncWritten (os : OffsetSync)            (* [syncWriter.Write] *)
  | ESwap (errors : Z)                        (* [produceErrors.Swap(0)] *)
  | ECommit (ok : bool).                      (* [CommitUncommittedOffsets] *)

(** What is counted in the in-flight group. *)
Inductive pending :=
  | PRecord (n : nat) (src : kgo_Record) (targetTopic : string)
  | PSync (os : OffsetSync).

(** Where the loop's goroutine is. *)
Inductive loop_pc := LPoll | LProduce (records : list kgo_Record) (batchLen : Z)
  | LFlush (batchLen : Z) | LCommit (batchLen : Z)
  | LWait | LSwap | LCommitCall | LReturned.

Record loop_state := {
  l_pc : loop_pc;
  l_recordsSinceCommit : Z;
  l_lastCommitTime : Z;
  l_recordsSinceSync : Z;
  l_recCounts : gmap string Z;
  l_byteCounts : gmap string Z;
  l_lastMetricFlush : Z;
  l_produceErrors : Z;
  l_inflight : list pending;
  l_syncStore : option SyncStore;
  l_next : nat;                   (* the number of the next produced record *)
  l_trace : list effect;
}.

Definition init_loop (now : Z) (store : option SyncStore) : loop_state :=
  {| l_pc := LPoll; l_recordsSinceCommit := 0; l_lastCommitTime := now;
     l_recordsSinceSync := 0; l_recCounts := ∅; l_byteCounts := ∅; l_lastMetricFlush := now;
     l_produceErrors := 0; l_inflight := []; l_syncStore := store; l_next := 0;
     l_trace := [] |}.

Definition metricFlushInterval : Z := 5 * Second.

(** The target record of a source record. *)
Definition target_record (s : SourceReplicator) (r : kgo_Record) : kgo_Record :=
  {| r_Topic := FormatRemoteTopic (s_policy s) (Config.Source (s_cfg s)) (r_Topic r);
     r_Partition := r_Partition r; r_Key := r_Key r; r_Value := r_Value r;
     r_Headers := r_Headers r; r_Timestamp := r_Timestamp r; r_Offset := 0 |}.

(** What the callback of a failed record hands over instead: the timestamp is not
    set again. *)
Definition retry_record (targetTopic : string) (partition : Z) (r : kgo_Record) : kgo_Record :=
  {| r_Topic := targetTopic; r_Partition := partition; r_Key := r_Key r; r_Value := r_Value r;
     r_Headers := r_Headers r; r_Timestamp := 0; r_Offset := 0 |}.

Definition metrics_key (targetTopic : string) (partition : Z) : string :=
  targetTopic +:+ ":" +:+ pretty partition.

(** The body of the range loop over the records of a poll. *)
Definition produce_one (s : SourceReplicator) (st : loop_state) (r : kgo_Record) : loop_state :=
  let target := target_record s r in
  let key := metrics_key (r_Topic target) (r_Partition r) in
  {| l_pc := l_pc st; l_recordsSinceCommit := l_recordsSinceCommit st;
     l_lastCommitTime := l_lastCommitTime st; l_recordsSinceSync := l_recordsSinceSync st;
     l_recCounts := <[key := default 0 (l_recCounts st !! key) + 1]> (l_recCounts st);
     l_byteCounts := <[key := default 0 (l_byteCounts st !! key)
                              + Z.of_nat (length (r_Value r))]> (l_byteCounts st);
     l_lastMetricFlush := l_lastMetricFlush st; l_produceErrors := l_produceErrors st;
     l_inflight := l_inflight st ++ [PRecord (l_next st) r (r_Topic target)];
     l_syncStore := l_syncStore st; l_next := S (l_next st);
     l_trace := l_trace st ++ [EProduce (l_next st) target] |}.

Definition at_lpc (pc : loop_pc) (st : loop_state) : loop_state :=
  {| l_pc := pc; l_recordsSinceCommit := l_recordsSinceCommit st;
     l_lastCommitTime := l_lastCommitTime st; l_recordsSinceSync := l_recordsSinceSync st;
     l_recCounts := l_recCounts st; l_byteCounts := l_byteCounts st;
     l_lastMetricFlush := l_lastMetricFlush st; l_produceErrors := l_produceErrors st;
     l_inflight := l_inflight st; l_syncStore := l_syncStore st; l_next := l_next st;
     l_trace := l_trace st |}.

(** [key[:i]] and [key[i+1:]] for the last colon of the key; both empty if there
    is none. *)
Fixpoint parse_key (key : string) : string * string :=
  match key with
  | EmptyString => ("", "")
  | String c rest =>
      match str_index rest ":" with
      | Some _ => let '(topic, part) := parse_key rest in (String c topic, part)
      | None => if Ascii.eqb c (Ascii.ascii_of_nat 58) then ("", rest) else ("", "")
      end
  end.

Section loop.
Context {P : Prometheus} (m : Metrics) (out_of_range : f64 → Z).

(** The increments for one key of the local counts. *)
Definition flush_key (s : SourceReplicator) (key : string) : outcome unit :=
  let '(topic, part) := parse_key key in
  let labels := [Config.Source (s_cfg s); Config.Target (s_cfg s); topic; part] in
  WithLabelValues (RecordsReplicated m) labels ≫= λ _,
  WithLabelValues (BytesReplicated m) labels.

Fixpoint flush_keys (s : SourceReplicator) (keys : list string) : outcome unit :=
  match keys with
  | [] => Ok ()
  | key :: keys => flush_key s key ≫= λ _, flush_keys s keys
  end.

(** The emission of a sync, and the sync write it may trigger. *)
Definition emit_sync (s : SourceReplicator) (store : option SyncStore) (os : OffsetSync)
    : option SyncStore :=
  match store with
  | Some store =>
      Some (if BoolDefault (EmitOffsetSyncs (s_cfg s)) true then HandleSync os store else store)
  | None => None
  end.

(** The world of a retry: what it has handed over, and the store. *)
Definition retry_world : Type := list effect * option SyncStore.

(** While a callback backs off, other goroutines act on the store. *)
Definition during (env : RetryEnv (option SyncStore)) : RetryEnv retry_world :=
  {| ctxErr := ctxErr env; ctxDone := ctxDone env; rnd := rnd env;
     elapse b '(es, store) := (es, elapse env b store) |}.

(** One attempt of the retry in a callback: it hands record [n] over once more. *)
Definition retry_attempt (s : SourceReplicator) (n : nat) (retryRecord : kgo_Record)
    (answers : nat → error + Z) (os : Z → OffsetSync) : RetryableFunc retry_world :=
  λ '(es, store),
    match answers (length es) with
    | inl e => (Some e, (es ++ [ERetry n retryRecord], store))
    | inr off => (None, (es ++ [ERetry n retryRecord], emit_sync s store (os off)))
    end.

(** What the answers to a produce call are: the first one, the retries', the
    environment of the retry loop, and the answer to the dead letter queue. *)
Record produce_answers := {
  first_answer : error + Z;
  retry_answers : nat → error + Z;
  retry_env : RetryEnv (option SyncStore);
  dlq_answer : option error;
  error_text : string;
}.

(** The callback of [Produce]. *)
Definition on_produced (s : SourceReplicator) (a : produce_answers) (n : nat)
    (src : kgo_Record) (targetTopic : string) (st : loop_state) : outcome loop_state :=
  let srcTP := {| Topic := r_Topic src; Partition := r_Partition src |} in
  let osync off := {| os_tp := srcTP; UpstreamOffset := r_Offset src; DownstreamOffset := off |} in
  let labels := [Config.Source (s_cfg s); Config.Target (s_cfg s)] in
  let finish store errs since extra effects :=
    {| l_pc := l_pc st; l_recordsSinceCommit := l_recordsSinceCommit st;
       l_lastCommitTime := l_lastCommitTime st; l_recordsSinceSync := since;
       l_recCounts := l_recCounts st; l_byteCounts := l_byteCounts st;
       l_lastMetricFlush := l_lastMetricFlush st; l_produceErrors := errs;
       l_inflight := l_inflight st ++ extra; l_syncStore := store; l_next := l_next st;
       l_trace := l_trace st ++ effects |} in
  match first_answer a with
  | inl err =>
      WithLabelValues (ProduceErrors m) (labels ++ [targetTopic]) ≫= λ _,
      let attempts (retries : list effect) :=
        if (length retries =? 0)%nat then Ok ()
        else WithLabelValues (RetryAttempts m) (labels ++ ["produce"]) in
      match Retry out_of_range (during (retry_env a)) (s_retryCfg s)
              (retry_attempt s n (retry_record targetTopic (r_Partition src) src)
                 (retry_answers a) osync) ([], l_syncStore st) with
      | (Ok _, (retries, store)) =>
          attempts retries ≫= λ _,
          Ok (finish store (l_produceErrors st) (l_recordsSinceSync st) []
                (retries ++ [EAcked n]))
      | (Err _, (retries, store)) =>
          attempts retries ≫= λ _,
          WithLabelValues (RetryExhausted m) (labels ++ ["produce"]) ≫= λ _,
          let dlq :=
            match s_dlq s with
            | Some d =>
                EDLQ <$> (Send (dlq_answer a) d (r_Topic src) (r_Partition src) (r_Offset src)
                            (r_Key src) (r_Value src) (r_Headers src) (error_text a)).1
            | None => []
            end in
          Ok (finish store (i64 (l_produceErrors st + 1)) (l_recordsSinceSync st) []
                ((retries ++ dlq) ++ [EFailed n]))
      | (Panic why, _) => Panic why
      end
  | inr off =>
      if BoolDefault (EmitOffsetSyncs (s_cfg s)) true
         && match l_syncStore st with Some _ => true | None => false end
      then
        let store := emit_sync s (l_syncStore st) (osync off) in
        match s_syncWriter s with
        | None => Ok (finish store (l_produceErrors st) (l_recordsSinceSync st) [] [EAcked n])
        | Some _ =>
            let interval := OffsetSyncInterval (s_cfg s) in
            let since := i64 (l_recordsSinceSync st + 1) in
            if interval =? 0 then Panic "integer divide by zero"
            else
              Ok (finish store (l_produceErrors st) since
                    (if Z.rem since interval =? 0 then [PSync (osync off)] else [])
                    [EAcked n])
        end
      else Ok (finish (l_syncStore st) (l_produceErrors st) (l_recordsSinceSync st) []
                 [EAcked n])
  end.

(** ** One action *)

Inductive loop_event :=
  | EvDone (order : list string)             (* the select sees [ctx.Done()] *)
  | EvPoll (p : poll_result)
  | EvProduce                                 (* one turn of the range loop *)
  | EvFlush (now : Z) (order : list string)  (* the keys as the range loop meets them *)
  | EvCheckCommit (now : Z)
  | EvInflightZero                            (* [inflight.Wait()] returns *)
  | EvSwap
  | EvCommit (now : Z) (answer : option error)
  | EvCallback (i : nat) (a : produce_answers)
  | EvSyncWrite (i : nat) (answer : option error).

Definition remove_pending (i : nat) (st : loop_state) : loop_state :=
  {| l_pc := l_pc st; l_recordsSinceCommit := l_recordsSinceCommit st;
     l_lastCommitTime := l_lastCommitTime st; l_recordsSinceSync := l_recordsSinceSync st;
     l_recCounts := l_recCounts st; l_byteCounts := l_byteCounts st;
     l_lastMetricFlush := l_lastMetricFlush st; l_produceErrors := l_produceErrors st;
     l_inflight := delete i (l_inflight st); l_syncStore := l_syncStore st;
     l_next := l_next st; l_trace := l_trace st |}.

Definition add_effects (es : list effect) (st : loop_state) : loop_state :=
  {| l_pc := l_pc st; l_recordsSinceCommit := l_recordsSinceCommit st;
     l_lastCommitTime := l_lastCommitTime st; l_recordsSinceSync := l_recordsSinceSync st;
     l_recCounts := l_recCounts st; l_byteCounts := l_byteCounts st;
     l_lastMetricFlush := l_lastMetricFlush st; l_produceErrors := l_produceErrors st;
     l_inflight := l_inflight st; l_syncStore := l_syncStore st; l_next := l_next st;
     l_trace := l_trace st ++ es |}.

Definition set_commit (pc : loop_pc) (since last errs : Z) (es : list effect)
    (st : loop_state) : loop_state :=
  {| l_pc := pc; l_recordsSinceCommit := since;
     l_lastCommitTime := last; l_recordsSinceSync := l_recordsSinceSync st;
     l_recCounts := l_recCounts st; l_byteCounts := l_byteCounts st;
     l_lastMetricFlush := l_lastMetricFlush st; l_produceErrors := errs;
     l_inflight := l_inflight st; l_syncStore := l_syncStore st; l_next := l_next st;
     l_trace := l_trace st ++ es |}.

Definition set_flushed (pc : loop_pc) (now : Z) (st : loop_state) : loop_state :=
  {| l_pc := pc; l_recordsSinceCommit := l_recordsSinceCommit st;
     l_lastCommitTime := l_lastCommitTime st; l_recordsSinceSync := l_recordsSinceSync st;
     l_recCounts := ∅; l_byteCounts := ∅;
     l_lastMetricFlush := now; l_produceErrors := l_produceErrors st;
     l_inflight := l_inflight st; l_syncStore := l_syncStore st; l_next := l_next st;
     l_trace := l_trace st |}.

(** [None] when the action is not enabled; a panic takes the process down. *)
Definition loop_step (s : SourceReplicator) (e : loop_event) (st : loop_state)
    : option (outcome loop_state) :=
  let labels := [Config.Source (s_cfg s); Config.Target (s_cfg s)] in
  match e, l_pc st with
  | EvDone order, LPoll =>                    (* the deferred flush, then return *)
      if decide (order ≡ₚ elements (dom (l_recCounts st))) then
        Some (flush_keys s order ≫= λ _, Ok (at_lpc LReturned st))
      else None
  | EvPoll p, LPoll =>
      let errs := foldr (λ _ k, WithLabelValues (ConsumeErrors m) labels ≫= λ _, k)
                    (Ok ()) (p_Errors p) in
      let batchLen := Z.of_nat (length (p_Records p)) in
      Some (errs ≫= λ _,
            Ok (if batchLen =? 0 then st else at_lpc (LProduce (p_Records p) batchLen) st))
  | EvProduce, LProduce (r :: records) n =>
      Some (Ok (at_lpc (LProduce records n) (produce_one s st r)))
  | EvProduce, LProduce [] n => Some (Ok (at_lpc (LFlush n) st))
  | EvFlush now order, LFlush n =>
      if decide (order ≡ₚ elements (dom (l_recCounts st))) then
        Some (if metricFlushInterval <=? Since now (l_lastMetricFlush st) then
                flush_keys s order ≫= λ _,
                WithLabelValues (PollBatchSize m) labels ≫= λ _,
                Ok (set_flushed (LCommit n) now st)
              else Ok (at_lpc (LCommit n) st))
      else None
  | EvCheckCommit now, LCommit n =>
      let since := i64 (l_recordsSinceCommit st + n) in
      Some (Ok (set_commit
        (if (OffsetCommitBatch (s_cfg s) <=? since)
            || (OffsetCommitInterval (s_cfg s) <=? Since now (l_lastCommitTime st))
         then LWait else LPoll) since (l_lastCommitTime st) (l_produceErrors st) [] st))
  | EvInflightZero, LWait =>
      if (length (l_inflight st) =? 0)%nat then Some (Ok (at_lpc LSwap st)) else None
  | EvSwap, LSwap =>
      let errCount := l_produceErrors st in
      if 0 <? errCount then
        Some (WithLabelValues (OffsetCommitErrors m) labels ≫= λ _,
              Ok (set_commit LPoll (l_recordsSinceCommit st) (l_lastCommitTime st) 0
                    [ESwap errCount] st))
      else
        Some (Ok (set_commit LCommitCall (l_recordsSinceCommit st) (l_lastCommitTime st) 0
                    [ESwap errCount] st))
  | EvCommit now answer, LCommitCall =>
      Some (match answer with
            | Some _ =>
                WithLabelValues (OffsetCommitErrors m) labels ≫= λ _,
                Ok (set_commit LPoll (l_recordsSinceCommit st) (l_lastCommitTime st)
                      (l_produceErrors st) [ECommit false] st)
            | None =>
                WithLabelValues (OffsetCommits m) labels ≫= λ _,
                Ok (set_commit LPoll 0 now (l_produceErrors st) [ECommit true] st)
            end)
  | EvCallback i a, _ =>
      match l_inflight st !! i with
      | Some (PRecord n src targetTopic) =>
          Some (on_produced s a n src targetTopic (remove_pending i st))
      | _ => None
      end
  | EvSyncWrite i answer, _ =>
      match l_inflight st !! i, s_syncWriter s with
      | Some (PSync os), Some sw =>
          Some (Ok (add_effects
            (if sw_closed sw then [] else [ESyncWritten os]) (remove_pending i st)))
      | _, _ => None
      end
  | _, _ => None
  end.

Inductive loop_steps (s : SourceReplicator) (st st' : loop_state) : Prop :=
  | loop_steps_intro e : loop_step s e st = Some (Ok st') → loop_steps s st st'.

(** ** What precedes a commit *)

(** The failures since the last swap of the error counter. *)
Definition count_failed (k : Z) (e : effect) : Z :=
  match e with ESwap _ => 0 | EFailed _ => k + 1 | _ => k end.
Definition failed_since (tr : list effect) : Z := foldl count_failed 0 tr.

Definition settled (tr : list effect) : Prop :=
  ∀ n r, EProduce n r ∈ tr → EAcked n ∈ tr ∨ EFailed n ∈ tr.

(** A trace that may be followed by a commit. *)
Definition may_commit (tr : list effect) : Prop :=
  settled tr ∧ ∃ pre e, tr = pre ++ [ESwap e] ∧ e ≤ 0 ∧ e = i64 (failed_since pre).

Definition commits_ok (tr : list effect) : Prop :=
  ∀ pre b post, tr = pre ++ ECommit b :: post → may_commit pre.

(** Every produced record is settled or in flight. *)
Definition accounted (tr : list effect) (infl : list pending) : Prop :=
  ∀ n r, EProduce n r ∈ tr →
    EAcked n ∈ tr ∨ EFailed n ∈ tr ∨ ∃ src t, PRecord n src t ∈ infl.

Definition loop_inv (st : loop_state) : Prop :=
  accounted (l_trace st) (l_inflight st) ∧
  l_produceErrors st = i64 (failed_since (l_trace st)) ∧
  (l_pc st = LSwap ∨ l_pc st = LCommitCall → l_inflight st = []) ∧
  (l_pc st = LCommitCall → may_commit (l_trace st)) ∧
  commits_ok (l_trace st).

Lemma failed_since_app tr e : failed_since (tr ++ [e]) = count_failed (failed_since tr) e.
Proof. unfold failed_since. by rewrite foldl_app. Qed.

Lemma failed_since_bound tr : 0 ≤ failed_since tr ≤ Z.of_nat (length tr).
Proof.
  induction tr as [|e tr IH] using rev_ind; [done|].
  rewrite failed_since_app, length_app. cbn [length]. destruct e; simpl; lia.
Qed.

Lemma failed_since_zero tr a n b :
  failed_since tr = 0 → tr = a ++ EFailed n :: b → ∃ k, ESwap k ∈ b.
Proof.
  intros H ->. revert H. induction b as [|e b IH] using rev_ind; intros H.
  - rewrite failed_since_app in H. simpl in H. pose proof (failed_since_bound a). lia.
  - rewrite app_comm_cons, app_assoc, failed_since_app in H.
    assert (failed_since (a ++ EFailed n :: b) = 0 → ∃ k, ESwap k ∈ b ++ [e]) as Hb.
    { intros [k Hk]%IH. exists k. apply elem_of_app. by left. }
    pose proof (failed_since_bound (a ++ EFailed n :: b)).
    destruct e; simpl in H; try (by apply Hb); [lia|].
    eexists. apply elem_of_app. right. by left.
Qed.

Lemma commits_ok_app tr es :
  (∀ b, ECommit b ∉ es) → commits_ok tr → commits_ok (tr ++ es).
Proof.
  intros Hes Htr pre b post Heq. apply app_eq_inv in Heq as [(k & -> & Hk)|(k & Hpre & Hk)].
  - destruct k as [|e k]; simpl in Hk.
    + exfalso. apply (Hes b). subst es. apply elem_of_cons. by left.
    + injection Hk as <- _. by eapply Htr.
  - exfalso. apply (Hes b). rewrite Hk. apply elem_of_app. right. by left.
Qed.

Lemma commits_ok_commit tr b : may_commit tr → commits_ok tr → commits_ok (tr ++ [ECommit b]).
Proof.
  intros Hm Htr pre b' post Heq. apply app_eq_inv in Heq as [(k & Ht & Hk)|(k & Hpre & Hk)].
  - destruct k as [|e k]; simpl in Hk.
    + rewrite app_nil_r in Ht. by subst pre.
    + injection Hk as <- _. by eapply Htr.
  - destruct k as [|e k]; simpl in Hk.
    + rewrite app_nil_r in Hpre. by subst pre.
    + injection Hk as _ Hk. by apply app_cons_not_nil in Hk.
Qed.

(** What a callback hands over itself: its record again, and the queue's. *)
Definition aside (n : nat) (retryRecord : kgo_Record) (e : effect) : Prop :=
  e = ERetry n retryRecord ∨ ∃ r, e = EDLQ r.

(** The retries of a callback hand over its record, any number of times. *)
Lemma retries_aside cfg env n rec (fn : RetryableFunc retry_world) store :
  (∀ es store, ∃ e store', fn (es, store) = (e, (es ++ [ERetry n rec], store'))) →
  Forall (aside n rec) (Retry out_of_range (during env) cfg fn ([], store)).2.1.
Proof.
  intros Hfn. unfold Retry.
  apply (retry_loop_keeps out_of_range (λ w : retry_world, Forall (aside n rec) w.1)); [| |constructor].
  - intros [es st] Hw. destruct (Hfn es st) as (e & st' & ->). apply Forall_app.
    split; [done|]. constructor; [by left|constructor].
  - by intros b [es st] Hw.
Qed.

(** What a callback leaves: record [n] settled, the error counter counting the
    failures, and at most a sync write newly in flight. *)
Definition callback_done (n : nat) (rec : kgo_Record) (st st' : loop_state) : Prop :=
  l_pc st' = l_pc st ∧
  (l_next st' = l_next st ∧ l_recCounts st' = l_recCounts st) ∧
  (∃ extra, l_inflight st' = l_inflight st ++ extra ∧ Forall (λ p, ∃ os, p = PSync os) extra) ∧
  ∃ dlq, Forall (aside n rec) dlq ∧
    ((l_trace st' = l_trace st ++ dlq ++ [EAcked n] ∧
      l_produceErrors st' = l_produceErrors st) ∨
     (l_trace st' = l_trace st ++ dlq ++ [EFailed n] ∧
      l_produceErrors st' = i64 (l_produceErrors st + 1))).

Lemma on_produced_done s a n src t st st' :
  on_produced s a n src t st = Ok st' →
  callback_done n (retry_record t (r_Partition src) src) st st'.
Proof.
  assert (∀ extra, Forall (λ p, ∃ os, p = PSync os) extra → ∃ extra0,
    l_inflight st ++ extra = l_inflight st ++ extra0 ∧ Forall (λ p, ∃ os, p = PSync os) extra0)
    as Hex by eauto.
  unfold on_produced. destruct (first_answer a) as [err|off].
  - intros (u & _ & H)%bind_ok.
    match type of H with context [Retry _ ?env ?cfg ?fn ?w] =>
      opose proof (retries_aside cfg (retry_env a) n (retry_record t (r_Partition src) src) fn
        (l_syncStore st) _) as Hre end.
    { intros es store. unfold retry_attempt. destruct (retry_answers a _); by do 2 eexists. }
    destruct (Retry _ _ _ _ _) as [[u'|err'|why] [k store]]; cbn [snd fst] in Hre; [| |done].
    + apply bind_ok in H as (u2 & _ & [= <-]). split; [done|]. split; [done|].
      split; [by apply Hex|]. exists k. split; [done|]. left. done.
    + apply bind_ok in H as (u2 & _ & H). apply bind_ok in H as (u3 & _ & [= <-]).
      split; [done|]. split; [done|]. split; [by apply Hex|]. eexists. split.
      2:{ right. split; [simpl; reflexivity|done]. }
      apply Forall_app. split; [done|]. destruct (s_dlq s); [|constructor].
      apply Forall_fmap, Forall_true. intros r. right. by exists r.
  - assert (∀ store since extra,
      Forall (λ p, ∃ os, p = PSync os) extra →
      callback_done n (retry_record t (r_Partition src) src) st
        {| l_pc := l_pc st; l_recordsSinceCommit := l_recordsSinceCommit st;
           l_lastCommitTime := l_lastCommitTime st; l_recordsSinceSync := since;
           l_recCounts := l_recCounts st; l_byteCounts := l_byteCounts st;
           l_lastMetricFlush := l_lastMetricFlush st; l_produceErrors := l_produceErrors st;
           l_inflight := l_inflight st ++ extra; l_syncStore := store; l_next := l_next st;
           l_trace := l_trace st ++ [EAcked n] |}) as Hk.
    { intros store since extra Hx. split; [done|]. split; [done|]. split; [by apply Hex|].
      exists []. split; [done|]. left. done. }
    destruct (_ && _); [|intros [= <-]; by apply Hk].
    destruct (s_syncWriter s); [|intros [= <-]; by apply Hk].
    destruct (OffsetSyncInterval _ =? 0); [done|]. intros [= <-]. apply Hk.
    destruct (_ =? 0); [|done]. constructor; [by eexists|done].
Qed.

(** ** The invariant *)

Lemma accounted_app tr es infl infl' :
  (∀ n r, EProduce n r ∉ es) →
  (∀ n src t, PRecord n src t ∈ infl → PRecord n src t ∈ infl') →
  accounted tr infl → accounted (tr ++ es) infl'.
Proof.
  intros Hes Hinfl Hset n r [H|H]%elem_of_app; [|by apply Hes in H].
  destruct (Hset n r H) as [Ha|[Ha|(src & t & Ha)]].
  - left. apply elem_of_app. by left.
  - right. left. apply elem_of_app. by left.
  - right. right. eauto.
Qed.

(** Settling the record at one position of the group. *)
Lemma accounted_settle tr es infl extra i n src t last :
  (∀ n r, EProduce n r ∉ es) → last = EAcked n ∨ last = EFailed n →
  infl !! i = Some (PRecord n src t) → accounted tr infl →
  accounted (tr ++ es ++ [last]) (delete i infl ++ extra).
Proof.
  intros Hes Hlast Hi Hset k r [H|H]%elem_of_app.
  2:{ exfalso. apply elem_of_app in H as [H|H%list_elem_of_singleton]; [by apply Hes in H|].
      destruct Hlast; congruence. }
  assert (last ∈ tr ++ es ++ [last]) as Hin by (rewrite !elem_of_app, list_elem_of_singleton; auto).
  destruct (decide (k = n)) as [->|Hne].
  { destruct Hlast as [-> | ->]; [by left|by right; left]. }
  destruct (Hset k r H) as [Ha|[Ha|(src' & t' & Ha)]].
  - left. apply elem_of_app. by left.
  - right. left. apply elem_of_app. by left.
  - right. right. exists src', t'. apply elem_of_app. left.
    apply (elem_of_delete_ne infl i _ _ Ha Hi). congruence.
Qed.

(** Steps that only move the loop keep the invariant. *)
Lemma loop_inv_move st st' :
  l_trace st' = l_trace st → l_inflight st' = l_inflight st →
  l_produceErrors st' = l_produceErrors st →
  l_pc st' ≠ LCommitCall → (l_pc st' = LSwap → l_inflight st = []) →
  loop_inv st → loop_inv st'.
Proof.
  intros Ht Hi He Hpc Hswap (Hset & Herr & _ & _ & Hok).
  unfold loop_inv. rewrite Ht, Hi, He. split_and!; auto; [|done].
  intros [H|H]; [auto|done].
Qed.

Lemma loop_inv_produce s st r rs n :
  loop_inv st → l_pc st = LProduce (r :: rs) n →
  loop_inv (at_lpc (LProduce rs n) (produce_one s st r)).
Proof.
  intros (Hset & Herr & _ & _ & Hok) Hpc. split_and!; simpl; [| |by intros [|]|done|].
  - intros k r' [H|H]%elem_of_app.
    + destruct (Hset k r' H) as [Ha|[Ha|(src & t & Ha)]].
      * left. apply elem_of_app. by left.
      * right. left. apply elem_of_app. by left.
      * right. right. exists src, t. apply elem_of_app. by left.
    + apply list_elem_of_singleton in H as [= -> ->]. right. right.
      do 2 eexists. apply elem_of_app. right. by apply list_elem_of_singleton.
  - by rewrite failed_since_app.
  - apply commits_ok_app; [|done]. intros b H. by apply list_elem_of_singleton in H.
Qed.

Lemma failed_since_aside n rec tr dlq :
  Forall (aside n rec) dlq → failed_since (tr ++ dlq) = failed_since tr.
Proof.
  unfold failed_since. rewrite foldl_app. generalize (foldl count_failed 0 tr). intros k.
  induction 1 as [|e dlq [-> |[r ->]] _ IH]; [done|exact IH..].
Qed.

Lemma aside_quiet n rec (dlq : list effect) e :
  Forall (aside n rec) dlq → e ≠ ERetry n rec → (∀ r, e ≠ EDLQ r) → e ∉ dlq.
Proof.
  rewrite Forall_forall. intros H He Hd Hin. destruct (H e Hin) as [?|[r ?]]; [done|by apply (Hd r)].
Qed.

(** A callback settles the record it is for. *)
Lemma loop_inv_callback st i n src t rec st' :
  loop_inv st → l_inflight st !! i = Some (PRecord n src t) →
  callback_done n rec (remove_pending i st) st' → loop_inv st'.
Proof.
  intros (Hset & Herr & Hswap & _ & Hok) Hi (Hpc & _ & (extra & Hex & _) & dlq & Hdlq & Hc).
  simpl in Hpc, Hex. 
  assert (l_inflight st ≠ []) as Hne by (intros H; by rewrite H in Hi).
  assert (∃ last, (last = EAcked n ∨ last = EFailed n) ∧
            l_trace st' = l_trace st ++ dlq ++ [last] ∧
            l_produceErrors st' = i64 (failed_since (l_trace st'))) as (last & Hlast & Htr & Herr').
  { destruct Hc as [[Ht He]|[Ht He]]; simpl in Ht, He;
      [exists (EAcked n)|exists (EFailed n)]; (split; [auto|]); (split; [done|]);
      rewrite Ht, He, app_assoc, failed_since_app, (failed_since_aside n rec), Herr by done; simpl; [done|].
    by rewrite sint_add_l. }
  split_and!.
  - rewrite Htr, Hex. apply accounted_settle with n src t; [|done..].
    intros k r H. by apply (aside_quiet n rec dlq (EProduce k r)) in H.
  - done.
  - rewrite Hpc. intros H%Hswap. done.
  - rewrite Hpc. intros H. exfalso. apply Hne, Hswap. by right.
  - rewrite Htr. apply commits_ok_app; [|done]. intros b [H|H%list_elem_of_singleton]%elem_of_app.
    + by apply (aside_quiet n rec dlq (ECommit b)) in H.
    + destruct Hlast; congruence.
Qed.

Lemma loop_inv_sync_write st i os es :
  (es = [] ∨ es = [ESyncWritten os]) → l_inflight st !! i = Some (PSync os) →
  loop_inv st → loop_inv (add_effects es (remove_pending i st)).
Proof.
  intros Hes Hi (Hset & Herr & Hswap & _ & Hok).
  assert (l_inflight st ≠ []) as Hne by (intros H; by rewrite H in Hi).
  assert (∀ e, e ∈ es → e = ESyncWritten os) as Hin.
  { destruct Hes as [-> | ->]; [by intros e H%elem_of_nil|]. by intros e H%list_elem_of_singleton. }
  split_and!; simpl.
  - apply accounted_app with (infl := l_inflight st); [..|done].
    + intros n r H. by apply Hin in H.
    + intros n src t Hin'. by apply (elem_of_delete_ne _ i _ _ Hin' Hi).
  - destruct Hes as [-> | ->]; [by rewrite app_nil_r|]. by rewrite failed_since_app.
  - intros H%Hswap. done.
  - intros H. exfalso. apply Hne, Hswap. by right.
  - apply commits_ok_app; [|done]. intros b H. by apply Hin in H.
Qed.

(** A swap with nothing in flight: a commit may follow it when the counter was
    not positive. *)
Lemma loop_inv_swap st pc :
  loop_inv st → l_pc st = LSwap → pc = LPoll ∨ (pc = LCommitCall ∧ l_produceErrors st ≤ 0) →
  loop_inv (set_commit pc (l_recordsSinceCommit st) (l_lastCommitTime st) 0
              [ESwap (l_produceErrors st)] st).
Proof.
  intros (Hset & Herr & Hswap & _ & Hok) Hpc Hpc'.
  assert (l_inflight st = []) as Hnil by (apply Hswap; auto).
  assert (accounted (l_trace st ++ [ESwap (l_produceErrors st)]) (l_inflight st)) as Hacc.
  { apply accounted_app with (infl := l_inflight st); [..|done]; [|done].
    intros n r H. by apply list_elem_of_singleton in H. }
  split_and!; simpl; [done|by rewrite failed_since_app|done|..].
  - intros ->. destruct Hpc' as [|[_ Hle]]; [done|]. split.
    + intros n r H. destruct (Hacc n r H) as [|[|(src & t & Ha)]]; [by left|by right|].
      rewrite Hnil in Ha. by apply elem_of_nil in Ha.
    + exists (l_trace st), (l_produceErrors st). by rewrite Herr in Hle |- *.
  - apply commits_ok_app; [|done]. intros b H. by apply list_elem_of_singleton in H.
Qed.

Lemma loop_inv_commit st since last b :
  loop_inv st → l_pc st = LCommitCall →
  loop_inv (set_commit LPoll since last (l_produceErrors st) [ECommit b] st).
Proof.
  intros (Hset & Herr & _ & Hmay & Hok) Hpc. split_and!; simpl.
  - apply accounted_app with (infl := l_inflight st); [|done..].
    intros n r H. by apply list_elem_of_singleton in H.
  - by rewrite failed_since_app.
  - by intros [|].
  - done.
  - apply commits_ok_commit; [by apply Hmay|done].
Qed.

Lemma loop_step_inv s e st st' :
  loop_step s e st = Some (Ok st') → loop_inv st → loop_inv st'.
Proof.
  intros H Hinv.
  assert (∀ pc, pc ≠ LCommitCall → (pc = LSwap → l_inflight st = []) → loop_inv (at_lpc pc st))
    as Hmove by (intros pc ? ?; by apply loop_inv_move with st).
  assert (l_inflight st = [] → l_pc st = LWait → loop_inv (at_lpc LSwap st)) as Hz
    by (intros; by apply Hmove).
  destruct e as [order|p| |now order|now| | |now answer|i a|i answer]; simpl in H.
  9,10: destruct (l_inflight st !! i) as [[n src t|os]|] eqn:Hi; [..|done]; simplify_eq.
  - destruct (l_pc st); try done. case_decide; [|done]. injection H as H.
    apply bind_ok in H as (u & _ & [= <-]). by apply Hmove.
  - destruct (l_pc st) eqn:Hpc; try done. injection H as H.
    apply bind_ok in H as (u & _ & [= <-]). case_match; [done|by apply Hmove].
  - destruct (l_pc st) as [|[|r rs] n| | | | | |] eqn:Hpc; try done; injection H as H;
      rewrite <- H.
    + by apply Hmove.
    + by apply loop_inv_produce.
  - destruct (l_pc st) eqn:Hpc; try done. case_decide; [|done]. injection H as H.
    case_match; [|injection H as <-; by apply Hmove].
    apply bind_ok in H as (u & _ & H). apply bind_ok in H as (u2 & _ & [= <-]).
    by apply loop_inv_move with st.
  - destruct (l_pc st) eqn:Hpc; try done. injection H as <-.
    apply loop_inv_move with st; try done; simpl; [by rewrite app_nil_r|by case_match..].
  - destruct (l_pc st) eqn:Hpc; try done. case_match eqn:Hl; [|done]. injection H as <-.
    apply Hz; [|done]. by apply nil_length_inv, Nat.eqb_eq.
  - destruct (l_pc st) eqn:Hpc; try done. case_match eqn:He; injection H as H.
    + apply bind_ok in H as (u & _ & [= <-]). apply loop_inv_swap; auto.
    + rewrite <- H. b2p. apply loop_inv_swap; auto.
  - destruct (l_pc st) eqn:Hpc; try done. injection H as H.
    destruct answer; apply bind_ok in H as (u & _ & [= <-]); by apply loop_inv_commit.
  - eapply loop_inv_callback; [done|done|]. by eapply on_produced_done.
  - destruct (s_syncWriter s) as [sw|]; [|done]. injection H as <-.
    apply loop_inv_sync_write with os; [|done..]. destruct (sw_closed sw); auto.
Qed.

Lemma loop_inv_init now store : loop_inv (init_loop now store).
Proof.
  split_and!; simpl; [|done|by intros [|]|done|].
  - intros n r H. by apply elem_of_nil in H.
  - intros pre b post H. by apply app_cons_not_nil in H.
Qed.

Definition loop_reachable (s : SourceReplicator) (now : Z) (store : option SyncStore) :=
  rtc (loop_steps s) (init_loop now store).

Lemma loop_reachable_inv s now store st : loop_reachable s now store st → loop_inv st.
Proof.
  apply rtc_invariant; [|apply loop_inv_init]. intros x y Hx [e He]. by eapply loop_step_inv.
Qed.

(** C3. At-least-once, within a commit cycle: whatever the interleaving of the
    loop, of the produce callbacks (with their retries) and of the sync writes,
    when the loop commits the consumed offsets every record it has handed to the
    producer has been answered, and no record has failed since the previous swap
    of the error counter: the commit directly follows a swap that read zero.
    (The counter is an [int64]: the trace is assumed shorter than 2^63.) *)
Theorem commit_waits s now store st pre b post :
  loop_reachable s now store st → l_trace st = pre ++ ECommit b :: post →
  Z.of_nat (length pre) < 2 ^ 63 →
  settled pre ∧
  ∃ pre', pre = pre' ++ [ESwap 0] ∧
    ∀ n t1 t2, pre' = t1 ++ EFailed n :: t2 → ∃ e, ESwap e ∈ t2.
Proof.
  intros Hr Htr Hlen. destruct (loop_reachable_inv _ _ _ _ Hr) as (_ & _ & _ & _ & Hok).
  destruct (Hok pre b post Htr) as (Hset & pre' & e & -> & Hle & He). split; [done|].
  pose proof (failed_since_bound pre') as Hb. rewrite length_app in Hlen.
  rewrite sint_small in He by (unfold in_s; lia). exists pre'. split; [do 3 f_equal; lia|].
  intros n t1 t2. apply failed_since_zero. lia.
Qed.

(** ** What a skipped commit does not protect *)

(** The records in flight and the failed ones have been handed over before. *)
Definition numbered (st : loop_state) : Prop :=
  (∀ n src t, PRecord n src t ∈ l_inflight st → (n < l_next st)%nat) ∧
  (∀ n, EFailed n ∈ l_trace st → (n < l_next st)%nat).

Lemma numbered_same st st' :
  l_inflight st' = l_inflight st → l_next st' = l_next st →
  (∀ n, EFailed n ∈ l_trace st' → EFailed n ∈ l_trace st) → numbered st → numbered st'.
Proof. intros Hi Hn Ht [H1 H2]. unfold numbered. rewrite Hi, Hn. split; [done|auto]. Qed.

Lemma numbered_callback st i n src t rec st' :
  l_inflight st !! i = Some (PRecord n src t) →
  callback_done n rec (remove_pending i st) st' → numbered st → numbered st'.
Proof.
  intros Hi (_ & [Hn _] & (extra & Hex & Hsync) & dlq & Hdlq & Hc) [H1 H2]. simpl in Hn, Hex, Hc.
  split; rewrite Hn.
  - intros k src' t' H. rewrite Hex in H. apply elem_of_app in H as [H|H].
    + eapply H1, elem_of_submseteq; [exact H|]. apply sublist_submseteq, sublist_delete.
    + rewrite Forall_forall in Hsync. by destruct (Hsync _ H).
  - assert (∀ k, EFailed k ∉ dlq) as Hq by (intros k; by apply (aside_quiet n rec)).
    intros k Hk. apply list_elem_of_lookup_2 in Hi.
    destruct Hc as [[Ht _]|[Ht _]]; rewrite Ht, !elem_of_app, list_elem_of_singleton in Hk;
      destruct Hk as [Hk|[Hk|Hk]]; try (by apply H2); try (by apply Hq in Hk).
    injection Hk as ->. by eapply H1.
Qed.

Lemma numbered_step s e st st' : loop_step s e st = Some (Ok st') → numbered st → numbered st'.
Proof.
  intros H Hinv.
  assert (∀ es : list effect, (∀ n, EFailed n ∉ es) →
    ∀ n, EFailed n ∈ l_trace st ++ es → EFailed n ∈ l_trace st) as Hquiet
    by (intros es Hes n [?|?%Hes]%elem_of_app; done).
  destruct e as [order|p| |now order|now| | |now answer|i a|i answer]; simpl in H.
  9,10: destruct (l_inflight st !! i) as [[n src t|os]|] eqn:Hi; [..|done]; simplify_eq.
  9: eapply numbered_callback; [done|by eapply on_produced_done|done].
  9: { destruct (s_syncWriter s) as [sw|]; [|done]. injection H as <-. destruct Hinv as [H1 H2].
       split; simpl.
       - intros n src t Hin. eapply H1, elem_of_submseteq; [exact Hin|].
         apply sublist_submseteq, sublist_delete.
       - intros n Hn. eapply H2, Hquiet; [|exact Hn].
         intros k Hk. destruct (sw_closed sw); [by apply elem_of_nil in Hk|].
         by apply list_elem_of_singleton in Hk. }
  all: destruct (l_pc st) as [|[|r rs] k|k|k| | | |] eqn:Hpc; try done.
  - case_decide; [|done]. injection H as H. apply bind_ok in H as (u & _ & [= <-]).
    by apply numbered_same with st.
  - injection H as H. apply bind_ok in H as (u & _ & [= <-]). case_match; [done|].
    by apply numbered_same with st.
  - injection H as <-. by apply numbered_same with st.
  - injection H as <-. destruct Hinv as [H1 H2]. split; simpl.
    + intros n src t [Hin|Hin]%elem_of_app; [specialize (H1 n src t Hin); lia|].
      apply list_elem_of_singleton in Hin as [= -> _ _]. lia.
    + intros n Hn%Hquiet; [specialize (H2 n Hn); lia|]. by intros j Hj%list_elem_of_singleton.
  - case_decide; [|done]. injection H as H. case_match; [|injection H as <-; by apply numbered_same with st].
    apply bind_ok in H as (u & _ & H). apply bind_ok in H as (u2 & _ & [= <-]).
    by apply numbered_same with st.
  - injection H as <-. apply numbered_same with st; [done..| |done]. apply Hquiet. by intros ? ?%elem_of_nil.
  - case_match; [|done]. injection H as <-. by apply numbered_same with st.
  - assert (∀ k n, EFailed n ∉ [ESwap k]) by (by intros ? ? ?%list_elem_of_singleton).
    case_match; injection H as H; [apply bind_ok in H as (u & _ & [= <-])|subst st'];
      apply numbered_same with st; try done; by apply Hquiet.
  - assert (∀ b n, EFailed n ∉ [ECommit b]) by (by intros ? ? ?%list_elem_of_singleton).
    injection H as H. destruct answer; apply bind_ok in H as (u & _ & [= <-]);
      apply numbered_same with st; try done; by apply Hquiet.
Qed.

Lemma failed_now tr :
  0 < failed_since tr → ∃ a n b, tr = a ++ EFailed n :: b ∧ ∀ k, ESwap k ∉ b.
Proof.
  induction tr as [|e tr IH] using rev_ind; [done|]. rewrite failed_since_app.
  assert (0 < failed_since tr → (∀ k, e ≠ ESwap k) →
    ∃ a n b, tr ++ [e] = a ++ EFailed n :: b ∧ ∀ k, ESwap k ∉ b) as Hmore.
  { intros (a & n & b & -> & Hb)%IH He. exists a, n, (b ++ [e]). rewrite <- app_assoc. split; [done|].
    intros k [?%Hb|H%list_elem_of_singleton]%elem_of_app; [done|]. by eapply He. }
  destruct e; simpl; intros H; try (by apply Hmore).
  eexists tr, _, []. split; [done|]. by intros k ?%elem_of_nil.
Qed.

(** A record that is acknowledged at the first attempt. *)
Definition acked (off : Z) : produce_answers :=
  {| first_answer := inr off; retry_answers _ := inr off;
     retry_env := {| ctxErr _ := None; ctxDone _ := false; rnd _ := 0; elapse _ w := w |};
     dlq_answer := None; error_text := "" |}.

Lemma acked_step s off n src t st :
  OffsetSyncInterval (s_cfg s) ≠ 0 →
  ∃ st' extra, on_produced s (acked off) n src t st = Ok st' ∧
    l_pc st' = l_pc st ∧ l_recordsSinceCommit st' = l_recordsSinceCommit st ∧
    l_lastCommitTime st' = l_lastCommitTime st ∧ l_produceErrors st' = l_produceErrors st ∧
    l_trace st' = l_trace st ++ [EAcked n] ∧ l_inflight st' = l_inflight st ++ extra ∧
    (extra = [] ∨ ∃ os sw, extra = [PSync os] ∧ s_syncWriter s = Some sw).
Proof.
  intros Hi. unfold on_produced. cbn [first_answer acked].
  destruct (_ && _).
  2:{ eexists _, []. split; [done|]. split_and!; auto. }
  destruct (s_syncWriter s) as [sw|].
  2:{ eexists _, []. split; [done|]. split_and!; auto. }
  rewrite (proj2 (Z.eqb_neq _ _)) by done. eexists _, _. split; [done|]. split_and!; try done.
  destruct (_ =? 0); [right|by left]. by do 2 eexists.
Qed.

(** What is in flight besides records is written without delay. *)
Lemma drain_syncs s st extra :
  l_inflight st = extra →
  (extra = [] ∨ ∃ os sw, extra = [PSync os] ∧ s_syncWriter s = Some sw) →
  ∃ syncs, Forall (λ e, ∃ os, e = ESyncWritten os) syncs ∧
    rtc (loop_steps s) st
      {| l_pc := l_pc st; l_recordsSinceCommit := l_recordsSinceCommit st;
         l_lastCommitTime := l_lastCommitTime st; l_recordsSinceSync := l_recordsSinceSync st;
         l_recCounts := l_recCounts st; l_byteCounts := l_byteCounts st;
         l_lastMetricFlush := l_lastMetricFlush st; l_produceErrors := l_produceErrors st;
         l_inflight := []; l_syncStore := l_syncStore st; l_next := l_next st;
         l_trace := l_trace st ++ syncs |}.
Proof.
  intros Hi [->|(os & sw & -> & Hsw)].
  - exists []. split; [done|]. rewrite app_nil_r, <- Hi. by destruct st.
  - exists (if sw_closed sw then [] else [ESyncWritten os]). split.
    { destruct (sw_closed sw); [done|]. constructor; [by eexists|done]. }
    apply rtc_once. exists (EvSyncWrite 0 None). simpl. rewrite Hi, Hsw. simpl.
    unfold add_effects, remove_pending. simpl. by rewrite Hi.
Qed.

(** The commit that follows a batch is due at [now]. *)
Definition commit_due (s : SourceReplicator) (st : loop_state) (n now : Z) : Prop :=
  OffsetCommitBatch (s_cfg s) ≤ i64 (l_recordsSinceCommit st + n) ∨
  OffsetCommitInterval (s_cfg s) ≤ Since now (l_lastCommitTime st).

(** One record that is replicated, from the poll to the commit. *)
Lemma commit_cycle s st r (off t1 t2 t3 : Z) :
  WithLabelValues (OffsetCommits m) [Config.Source (s_cfg s); Config.Target (s_cfg s)] = Ok () →
  OffsetSyncInterval (s_cfg s) ≠ 0 → l_pc st = LPoll → l_inflight st = [] →
  l_produceErrors st = 0 → Since t1 (l_lastMetricFlush st) < metricFlushInterval →
  commit_due s st 1 t2 →
  ∃ st' syncs, rtc (loop_steps s) st st' ∧ Forall (λ e, ∃ os, e = ESyncWritten os) syncs ∧
    l_pc st' = LPoll ∧
    l_trace st' = l_trace st ++ [EProduce (l_next st) (target_record s r); EAcked (l_next st)]
                  ++ syncs ++ [ESwap 0; ECommit true].
Proof.
  intros Hm Hsi Hpc Hin He Ht1 Hdue.
  set (st1 := at_lpc (LCommit 1) (produce_one s st r)).
  assert (rtc (loop_steps s) st st1) as H1.
  { eapply rtc_l; [exists (EvPoll {| p_Records := [r]; p_Errors := []; p_CtxErr := None |});
      simpl; by rewrite Hpc|].
    eapply rtc_l; [by exists EvProduce|]. eapply rtc_l; [by exists EvProduce|].
    apply rtc_once. exists (EvFlush t1 (elements (dom (l_recCounts (produce_one s st r))))).
    simpl. rewrite decide_True by done. by rewrite (proj2 (Z.leb_gt _ _)) by done. }
  set (st2 := remove_pending 0 st1).
  destruct (acked_step s off (l_next st) r (r_Topic (target_record s r)) st2 Hsi)
    as (st3 & extra & H3 & Hpc3 & Hsc3 & Hlc3 & He3 & Htr3 & Hin3 & Hex).
  assert (loop_steps s st1 st3) as H2.
  { exists (EvCallback 0 (acked off)). simpl. rewrite Hin. simpl. by f_equal. }
  assert (l_inflight st2 = []) as Hin2 by (simpl; by rewrite Hin).
  rewrite Hin2 in Hin3. destruct (drain_syncs s st3 extra Hin3 Hex) as (syncs & Hsy & H4).
  eexists _, syncs. split; [|split; [done|]].
  - etrans; [exact H1|]. eapply rtc_l; [exact H2|]. etrans; [exact H4|].
    eapply rtc_l.
    { exists (EvCheckCommit t2). simpl. by rewrite Hpc3. }
    rewrite Hsc3, Hlc3. cbn [st2 st1 remove_pending at_lpc produce_one l_recordsSinceCommit l_lastCommitTime].
    assert ((OffsetCommitBatch (s_cfg s) <=? i64 (l_recordsSinceCommit st + 1))
            || (OffsetCommitInterval (s_cfg s) <=? Since t2 (l_lastCommitTime st)) = true) as ->.
    { apply orb_true_iff. destruct Hdue; [left|right]; by apply Z.leb_le. }
    eapply rtc_l; [by exists EvInflightZero|].
    eapply rtc_l; [exists EvSwap; simpl; rewrite He3; simpl; by rewrite He|].
    apply rtc_once. exists (EvCommit t3 None). simpl. by rewrite Hm.
  - simpl. split; [done|]. rewrite Htr3. simpl. rewrite app_nil_r. by rewrite <- !app_assoc.
Qed.

(** C25. A swap that reads a failure skips one commit only. In every reachable state
    in which the loop has waited for what is in flight and is about to read a
    positive number of failures, some record has failed for good since the last
    swap; and whatever record the next poll returns, there is a continuation in
    which the loop skips this commit, hands over that one record and nothing else,
    the producer acknowledges it, and the loop commits the offsets of all it has
    polled, those of the failed record among them, which has not been handed over
    again. (The times of the continuation are any at which no metric flush and a
    commit are due; [OffsetSyncInterval] is not zero, and the two commit counters
    accept their labels.) *)
Theorem failed_record_committed s now0 store st r (off t1 t2 t3 : Z) :
  let labels := [Config.Source (s_cfg s); Config.Target (s_cfg s)] in
  WithLabelValues (OffsetCommits m) labels = Ok () →
  WithLabelValues (OffsetCommitErrors m) labels = Ok () →
  OffsetSyncInterval (s_cfg s) ≠ 0 →
  loop_reachable s now0 store st → l_pc st = LSwap → 0 < l_produceErrors st →
  Z.of_nat (length (l_trace st)) < 2 ^ 63 →
  Since t1 (l_lastMetricFlush st) < metricFlushInterval → commit_due s st 1 t2 →
  ∃ failed a b st' syncs,
    l_trace st = a ++ EFailed failed :: b ∧ (∀ k, ESwap k ∉ b) ∧ (failed < l_next st)%nat ∧
    rtc (loop_steps s) st st' ∧ l_pc st' = LPoll ∧
    Forall (λ e, ∃ os, e = ESyncWritten os) syncs ∧
    l_trace st' = l_trace st ++ [ESwap (l_produceErrors st);
      EProduce (l_next st) (target_record s r); EAcked (l_next st)]
      ++ syncs ++ [ESwap 0; ECommit true].
Proof.
  intros labels Hm1 Hm2 Hsi Hr Hpc He Hlen Ht1 Hdue. subst labels.
  pose proof (loop_reachable_inv _ _ _ _ Hr) as (_ & Herr & Hz & _).
  pose proof (failed_since_bound (l_trace st)) as Hb.
  rewrite Herr, sint_small in He by (unfold in_s; lia).
  destruct (failed_now _ He) as (a & n & b & Htr & Hsw).
  assert (numbered st) as [_ Hnum].
  { revert Hr. apply rtc_invariant.
    - intros x y Hx [e Hs]. by eapply numbered_step.
    - split; simpl; [by intros n' src t ?%elem_of_nil|by intros n' ?%elem_of_nil]. }
  set (st0 := set_commit LPoll (l_recordsSinceCommit st) (l_lastCommitTime st) 0
                [ESwap (l_produceErrors st)] st).
  destruct (commit_cycle s st0 r off t1 t2 t3) as (st' & syncs & Hrun & Hsy & Hpc' & Htr');
    [done|done|done|by apply Hz; left|done|done|done|].
  exists n, a, b, st', syncs. split_and!; try done.
  - apply Hnum. rewrite Htr. apply elem_of_app. right. by left.
  - eapply rtc_l; [|exact Hrun]. exists EvSwap. simpl. rewrite Hpc.
    rewrite (proj2 (Z.ltb_lt _ _)); [by rewrite Hm2|].
    rewrite Herr, sint_small; [done|unfold in_s; lia..].
  - rewrite Htr'. simpl. by rewrite <- app_assoc.
Qed.

(** A run of the loop on a list of actions. *)
Fixpoint run_loop (s : SourceReplicator) (es : list loop_event) (st : loop_state)
    : option loop_state :=
  match es with
  | [] => Some st
  | e :: es =>
      match loop_step s e st with
      | Some (Ok st) => run_loop s es st
      | _ => None
      end
  end.

Lemma run_loop_reachable s es now store st :
  run_loop s es (init_loop now store) = Some st → loop_reachable s now store st.
Proof.
  unfold loop_reachable. generalize (init_loop now store). induction es as [|e es IH];
    simpl; intros st0 H; [injection H as ->; apply rtc_refl|].
  destruct (loop_step s e st0) as [[st1| |]|] eqn:He; try done.
  apply rtc_l with st1; [by exists e|by apply IH].
Qed.
End loop.

(** ** The flush of the record counts

    [RecordsReplicated] and [BytesReplicated] are declared with three labels and
    are given four values. *)
Section flush.
Context `{PrometheusLaws}.

Lemma flush_keys_panics s keys :
  keys ≠ [] → ∃ why, flush_keys New s keys = Panic why.
Proof.
  destruct keys as [|key keys]; intros Hne; [done|]. simpl. unfold flush_key.
  destruct (parse_key key) as [topic part].
  destruct (wrong_arity (RecordsReplicated New)
              [Config.Source (s_cfg s); Config.Target (s_cfg s); topic; part]) as [why ->];
    [done|]. by exists why.
Qed.

Lemma flush_keys_ok s keys u : flush_keys New s keys = Ok u → keys = [].
Proof.
  intros Hf. destruct (decide (keys = [])) as [|Hne]; [done|].
  destruct (flush_keys_panics s keys Hne) as [why Hw]. congruence.
Qed.

Lemma no_keys {A} (g : gmap string A) order : order ≡ₚ elements (dom g) → order = [] → g = ∅.
Proof.
  intros Hp ->. apply Permutation_nil_l in Hp. symmetry in Hp.
  apply elements_empty_inv in Hp. apply dom_empty_inv_L. by apply leibniz_equiv.
Qed.

Lemma counts_step out s e st st' :
  loop_step New out s e st = Some (Ok st') →
  ((0 < l_next st)%nat → l_recCounts st ≠ ∅) →
  (0 < l_next st')%nat → l_recCounts st' ≠ ∅.
Proof.
  intros Hs Hinv. destruct e as [order|p| |now order|now| | |now answer|i a|i answer];
    simpl in Hs.
  9,10: destruct (l_inflight st !! i) as [[n src t|os]|]; [..|done]; simplify_eq.
  9: by destruct (on_produced_done _ _ _ _ _ _ _ _ _ Hs) as (_ & [-> ->] & _).
  9: destruct (s_syncWriter s); [|done]; by injection Hs as <-.
  all: destruct (l_pc st) as [|[|r rs] k|k|k| | | |] eqn:Hpc; try done.
  - case_decide; [|done]. injection Hs as Hs. by apply bind_ok in Hs as (u & _ & [= <-]).
  - injection Hs as Hs. apply bind_ok in Hs as (u & _ & [= <-]). by case_match.
  - by injection Hs as <-.
  - injection Hs as <-. intros _. apply insert_non_empty.
  - case_decide as Ho; [|done]. injection Hs as Hs. case_match; [|by injection Hs as <-].
    apply bind_ok in Hs as (u & Hf%flush_keys_ok & Hs).
    apply bind_ok in Hs as (u2 & _ & [= <-]). simpl.
    apply (no_keys (l_recCounts st)) in Hf; [|done]. intros Hn. by apply Hinv in Hn.
  - by injection Hs as <-.
  - case_match; [|done]. by injection Hs as <-.
  - case_match; injection Hs as Hs; [apply bind_ok in Hs as (u & _ & [= <-])|subst st']; done.
  - injection Hs as Hs. destruct answer; by apply bind_ok in Hs as (u & _ & [= <-]).
Qed.

(** C21. Once a record has been handed to the producer, the loop does not get past
    its next metric flush, whatever has been answered: when five seconds have
    passed at the flush, and when the loop returns on a cancelled context, it
    panics, because the two vectors of the record counts are declared with three
    labels and are given four values. *)
Theorem metric_flush_panics out s now0 store st order :
  loop_reachable New out s now0 store st → (0 < l_next st)%nat →
  order ≡ₚ elements (dom (l_recCounts st)) →
  (l_pc st = LPoll → ∃ why, loop_step New out s (EvDone order) st = Some (Panic why)) ∧
  (∀ n now, l_pc st = LFlush n → metricFlushInterval ≤ Since now (l_lastMetricFlush st) →
     ∃ why, loop_step New out s (EvFlush now order) st = Some (Panic why)).
Proof.
  intros Hr Hn Ho.
  assert (order ≠ []) as Hne.
  { intros H'. apply (no_keys (l_recCounts st) order Ho) in H'. revert Hn H'.
    apply (rtc_invariant (loop_steps New out s) (λ st, (0 < l_next st)%nat → l_recCounts st ≠ ∅)
             (init_loop now0 store) st); [|simpl; lia|done].
    intros x y Hx [e He]. by eapply counts_step. }
  destruct (flush_keys_panics s order Hne) as [why Hw].
  split; [intros Hpc|intros n now Hpc Hle]; simpl; rewrite Hpc, decide_True by done.
  - rewrite Hw. by exists why.
  - rewrite (proj2 (Z.leb_le _ _) Hle), Hw. by exists why.
Qed.
End flush.
End source.

(** ** Examples *)

Definition ex_source_cfg : ReplicationConfig :=
  replication_defaults {|
    Source := "west"; Target := "east"; Enabled := true;
    TopicFilter := {| tfc_Whitelist := []; tfc_Blacklist := [] |};
    GroupFilter := {| gfc_Whitelist := []; gfc_Blacklist := [] |};
    ConfigFilter := {| cfc_Whitelist := []; cfc_Blacklist := [] |};
    ReplicationPolicy := "default"; Separator := "."; ReplicationFactor := 0;
    Config.SyncTopicConfigs := None; SyncTopicACLs := false; EmitHeartbeats := None;
    EmitCheckpoints := None; EmitOffsetSyncs := None; RefreshTopicsInterval := 0;
    RefreshGroupsInterval := 0; SyncTopicConfigsInterval := 0; SyncTopicACLsInterval := 0;
    HeartbeatInterval := 0; CheckpointInterval := 0; ProducerBatchSize := 0;
    ProducerLingerMs := 0; ConsumerPollTimeout := 0; MaxPollRecords := 0; Compression := "";
    ReadCommitted := false; WorkersPerPartition := 0; FetchMaxPartitionBytes := 0;
    RingBufferCapacity := 0; ExactlyOnce := false; OffsetCommitInterval := 0;
    OffsetCommitBatch := 1; cfg_MaxRetries := 3; RetryBackoffBase := 1000;
    RetryBackoffMax := 1000000; DLQEnabled := false; ShutdownTimeout := 0;
    OffsetSyncInterval := 0 |}.

Definition ex_source : SourceReplicator := {|
  s_cfg := ex_source_cfg; s_srcCfg := ex_cluster "w:9092"; s_tgtCfg := ex_cluster "e:9092";
  s_topicFilter := {| tf_whitelist := []; tf_blacklist := [] |};
  s_policy := default_policy (NewDefaultPolicy "."); s_syncWriter := None; s_dlq := None;
  s_consumer := Some 0%nat; s_producer := Some 1%nat; s_running := true; s_loop := true;
  s_subscribedTopics := {["orders"]}; s_retryCfg := flow_retryCfg ex_source_cfg;
  s_circuitBreaker := NewCircuitBreaker DefaultCircuitBreakerConfig |}.

(** The [n]th record of a partition. *)
Definition ex_record (n : Z) : kgo_Record :=
  {| r_Topic := "orders"; r_Partition := 0; r_Key := []; r_Value := [byte_of_Z n];
     r_Headers := []; r_Timestamp := 0; r_Offset := n |}.

Definition ex_poll (rs : list kgo_Record) : poll_result :=
  {| p_Records := rs; p_Errors := []; p_CtxErr := None |}.

Definition ex_answers (e : error + Z) : produce_answers :=
  {| first_answer := e; retry_answers _ := e;
     retry_env := {| ctxErr _ := None; ctxDone _ := false; rnd _ := 0; elapse _ w := w |};
     dlq_answer := None; error_text := "" |}.

(** One poll of a record, its answer, and a commit. *)
Definition ex_cycle (n : Z) (answer : error + Z) : list loop_event :=
  [EvPoll (ex_poll [ex_record n]); EvProduce; EvProduce; EvFlush 0 ["west.orders:0"];
   EvCallback 0 (ex_answers answer); EvCheckCommit 0; EvInflightZero; EvSwap].

Definition ex_failing_run : list loop_event :=
  ex_cycle 0 (inl (Errorf "broker gone" [])) ++ ex_cycle 1 (inr 0) ++ [EvCommit 0 None].

Definition ex_failing_end : option loop_state :=
  run_loop New (λ _, 0) ex_source ex_failing_run (init_loop 0 None).

Lemma failed_record_committed_witness :
  ∃ st st' syncs, loop_reachable New (λ _, 0) ex_source 0 None st ∧
    l_trace st = [EProduce 0 (target_record ex_source (ex_record 0))] ++
      replicate 4 (ERetry 0 (retry_record "west.orders" 0 (ex_record 0))) ++ [EFailed 0] ∧
    rtc (loop_steps New (λ _, 0) ex_source) st st' ∧
    l_trace st' = l_trace st ++
      [ESwap 1; EProduce 1 (target_record ex_source (ex_record 1)); EAcked 1] ++ syncs ++
      [ESwap 0; ECommit true].
Proof.
  destruct (run_loop New (λ _, 0) ex_source
    (removelast (ex_cycle 0 (inl (Errorf "broker gone" [])))) (init_loop 0 None)) as [st|] eqn:H;
    [|vm_compute in H; discriminate H].
  assert (loop_reachable New (λ _, 0) ex_source 0 None st) as Hr by (by eapply run_loop_reachable).
  assert (l_pc st = LSwap ∧ l_produceErrors st = 1 ∧ l_lastMetricFlush st = 0 ∧
    l_recordsSinceCommit st = 1 ∧ l_next st = 1%nat ∧
    l_trace st = [EProduce 0 (target_record ex_source (ex_record 0))] ++
      replicate 4 (ERetry 0 (retry_record "west.orders" 0 (ex_record 0))) ++ [EFailed 0])
    as (Hpc & He & Hl & Hs & Hn & Htr) by (vm_compute in H; injection H as <-; by split_and!).
  destruct (failed_record_committed New (λ _, 0) ex_source 0 None st (ex_record 1) 5 0 0 0)
    as (n & a & b & st' & syncs & _ & _ & _ & Hrun & _ & _ & Htr').
  - reflexivity.
  - reflexivity.
  - vm_compute. discriminate.
  - exact Hr.
  - exact Hpc.
  - rewrite He. reflexivity.
  - rewrite Htr. reflexivity.
  - rewrite Hl. reflexivity.
  - left. rewrite Hs. vm_compute. discriminate.
  - exists st, st', syncs. split; [exact Hr|]. split; [exact Htr|]. split; [exact Hrun|].
    rewrite Htr', He, Hn. reflexivity.
Defined.

Lemma commit_waits_witness :
  ∃ st pre, loop_reachable New (λ _, 0) ex_source 0 None st ∧
    l_trace st = pre ++ [ECommit true] ∧ length pre = 10%nat ∧ settled pre.
Proof.
  destruct ex_failing_end as [st|] eqn:H; [|vm_compute in H; discriminate H].
  assert (loop_reachable New (λ _, 0) ex_source 0 None st) as Hr
    by (by apply run_loop_reachable with ex_failing_run).
  assert (l_trace st = take 10 (l_trace st) ++ ECommit true :: [] ∧
          length (take 10 (l_trace st)) = 10%nat) as [Ht Hl].
  { vm_compute in H. injection H as <-. split; reflexivity. }
  exists st, (take 10 (l_trace st)). split; [exact Hr|]. split; [exact Ht|]. split; [exact Hl|].
  refine (proj1 (commit_waits New (λ _, 0) ex_source 0 None st _ true [] Hr Ht _)).
  rewrite Hl. reflexivity.
Defined.

Lemma metric_flush_panics_witness :
  let st := run_loop New (λ _, 0) ex_source
    [EvPoll (ex_poll [ex_record 0]); EvProduce; EvProduce] (init_loop 0 None) in
  match st with
  | Some st => l_pc st = LFlush 1 ∧ ∃ why,
      loop_step New (λ _, 0) ex_source (EvFlush (5 * Second) ["west.orders:0"]) st
        = Some (Panic why)
  | None => False
  end.
Proof.
  intros st. destruct st as [st'|] eqn:H; [|vm_compute in H; discriminate H].
  assert (l_pc st' = LFlush 1 ∧ (0 < l_next st')%nat ∧
    ["west.orders:0"] ≡ₚ elements (dom (l_recCounts st')) ∧ l_lastMetricFlush st' = 0)
    as (Hpc & Hn & Ho & Hl).
  { vm_compute in H. injection H as <-. vm_compute. split; [reflexivity|]. split; [lia|].
    split; [reflexivity|reflexivity]. }
  split; [exact Hpc|].
  refine (proj2 (metric_flush_panics (λ _, 0) ex_source 0 None st' _ _ Hn Ho) 1 _ Hpc _).
  - by apply run_loop_reachable with (1 := H).
  - rewrite Hl. vm_compute. discriminate.
Defined.
