(* ===== verification/Discovery.v ===== *)
(** * internal/mirror/topic_discovery.go: topic discovery

    One refresh lists both clusters, creates or extends the target topics, syncs
    their configuration and subscribes the source replicator. The requests made
    to the target are recorded in order; what the clusters answer is an input.
    The source replicator is shared by reference: a refresh takes its state and
    returns the new one. *)
From stdpp Require Import sorting.
From S2P Require Import Prelude GoStrings Filter Retry CircuitBreaker Types Policy.
From S2P Require Import Config ClientOpts Kgo Heartbeats Admin SourceLoop.

Local Open Scope Z_scope.

Section discovery.
Context {OS : Outside} {RE : RegexpEngine}.

Record TopicDiscovery := {
  td_cfg : ReplicationConfig;
  td_srcCfg : ClusterConfig;
  td_tgtCfg : ClusterConfig;
  td_topicFilter : Filter.TopicFilter;
  td_policy : Policy.ReplicationPolicy;
  td_running : bool;
  td_loop : bool;             (* the goroutine of [loop] is alive *)
}.

Definition NewTopicDiscovery (cfg : ReplicationConfig) (srcCfg tgtCfg : ClusterConfig)
    : outcome TopicDiscovery :=
  topicFilter ← wrap_err "create topic filter: %w" []
    (NewTopicFilter (tfc_Whitelist (TopicFilter cfg)) (tfc_Blacklist (TopicFilter cfg)));
  pol ← wrap_err "create replication policy: %w" []
    (NewPolicy (Config.ReplicationPolicy cfg) (Config.Separator cfg));
  Ok {| td_cfg := cfg; td_srcCfg := srcCfg; td_tgtCfg := tgtCfg;
        td_topicFilter := topicFilter; td_policy := pol;
        td_running := false; td_loop := false |}.

Definition set_running (td : TopicDiscovery) (running : bool) : TopicDiscovery :=
  {| td_cfg := td_cfg td; td_srcCfg := td_srcCfg td; td_tgtCfg := td_tgtCfg td;
     td_topicFilter := td_topicFilter td; td_policy := td_policy td;
     td_running := running; td_loop := running |}.

Definition Discovery_Start (td : TopicDiscovery) : outcome unit * TopicDiscovery :=
  if td_running td then (Err (Errorf "topic discovery already running" []), td)
  else (Ok (), set_running td true).

Definition Discovery_Stop (td : TopicDiscovery) : TopicDiscovery :=
  if negb (td_running td) then td else set_running td false.

Definition shouldReplicate (td : TopicDiscovery) (topic : string) : bool :=
  if IsInternalTopic (td_policy td) topic then false
  else if IsHeartbeatsTopic (td_policy td) topic then false
  else if negb (bool_decide (TopicSource (td_policy td) topic = "")) then false
  else TopicFilter_ShouldReplicate (td_topicFilter td) topic.

(** ** Refresh *)

(** A request made to the target cluster. *)
Inductive admin_request :=
  | ReqCreate (topic : string) (partitions replicationFactor : Z)
  | ReqPartitions (topic : string) (count : Z)
  | ReqAlter (topic : string) (changes : gmap string (option string)).

(** [TopicDetails.Sorted()] *)
Definition sorted_details (topics : TopicDetails) : list TopicDetail :=
  merge_sort (λ a b, String.leb (t_Topic a) (t_Topic b) = true) (snd <$> map_to_list topics).

Definition partition_count (d : TopicDetail) : Z := i32 (Z.of_nat (size (t_Partitions d))).

(** What the surroundings of one refresh are: the time, what the two client
    constructions answer, and the clusters behind the clients. *)
Record refresh_env := {
  re_now : Z;
  re_refusal1 : option error;
  re_refusal2 : option error;
  re_source : nat → kadm_Client;
  re_target : nat → kadm_Client;
  re_order : gmap string (option string) → list (string * option string);
}.

(** The configuration sync of one topic; its error is only logged. *)
Definition sync_requests (td : TopicDiscovery) (env : refresh_env) (srcA tgtA : kadm_Client)
    (srcTopic remoteTopic : string) : list admin_request :=
  if BoolDefault (Config.SyncTopicConfigs (td_cfg td)) true then
    match (Admin.SyncTopicConfigs (re_order env) srcA tgtA srcTopic remoteTopic None).2 with
    | Some changes => [ReqAlter remoteTopic changes]
    | None => []
    end
  else [].

(** The body of the range loop for a topic to replicate. *)
Definition refresh_topic (td : TopicDiscovery) (env : refresh_env) (srcA tgtA : kadm_Client)
    (tgtTopics : TopicDetails) (srcDetail : TopicDetail) : list admin_request :=
  let srcTopic := t_Topic srcDetail in
  let remoteTopic := FormatRemoteTopic (td_policy td) (Source (td_cfg td)) srcTopic in
  let srcPartitions := partition_count srcDetail in
  let sync := sync_requests td env srcA tgtA srcTopic remoteTopic in
  match tgtTopics !! remoteTopic with
  | None =>
      ReqCreate remoteTopic srcPartitions (ReplicationFactor (td_cfg td)) ::
      match CreateTopic tgtA remoteTopic srcPartitions (ReplicationFactor (td_cfg td)) [] with
      | Ok _ => sync
      | _ => []
      end
  | Some tgtDetail =>
      (if partition_count tgtDetail <? srcPartitions
       then [ReqPartitions remoteTopic srcPartitions] else []) ++ sync
  end.

Definition replicable (td : TopicDiscovery) (topics : TopicDetails) : list TopicDetail :=
  filter (λ d, shouldReplicate td (t_Topic d) = true) (sorted_details topics).

(** What one refresh did: the requests, the value set in the gauge of discovered
    topics if it got there, the source, and the clients. *)
Record refresh_result := {
  rr_requests : list admin_request;
  rr_discovered : option Z;
  rr_source : option SourceReplicator;
  rr_added : list string;          (* the arguments of [AddConsumeTopics] *)
  rr_clients : clients OS;
}.

Definition returned (source : option SourceReplicator) (w : clients OS) : refresh_result :=
  {| rr_requests := []; rr_discovered := None; rr_source := source; rr_added := [];
     rr_clients := w |}.

(** The notification of the source replicator at the end. *)
Definition notify (topics : list string) (source : option SourceReplicator)
    : option SourceReplicator * list string :=
  match source with
  | Some src =>
      if (0 <? length topics)%nat then
        let '(src, added) := UpdateTopics topics src in (Some src, added)
      else (Some src, [])
  | None => (None, [])
  end.

Definition refresh (env : refresh_env) (td : TopicDiscovery) (source : option SourceReplicator)
    (w : clients OS) : outcome refresh_result :=
  match NewAdminClient (re_now env) (re_refusal1 env) (re_source env) (td_srcCfg td) w with
  | (Panic why, _) => Panic why
  | (Err _, w) => Ok (returned source w)
  | (Ok srcAdmin, w) =>
      match NewAdminClient (re_now env) (re_refusal2 env) (re_target env) (td_tgtCfg td) w with
      | (Panic why, _) => Panic why
      | (Err _, w) => Ok (returned source (Client_Close srcAdmin w))
      | (Ok tgtAdmin, w) =>
          let w := Client_Close srcAdmin (Client_Close tgtAdmin w) in
          match ListTopicsDetails (inner srcAdmin), ListTopicsDetails (inner tgtAdmin) with
          | Ok srcTopics, Ok tgtTopics =>
              let found := replicable td srcTopics in
              let requests := concat
                (refresh_topic td env (inner srcAdmin) (inner tgtAdmin) tgtTopics <$> found) in
              let topics := t_Topic <$> found in
              let '(source, added) := notify topics source in
              Ok {| rr_requests := requests; rr_discovered := Some (Z.of_nat (length found));
                    rr_source := source; rr_added := added; rr_clients := w |}
          | _, _ => Ok (returned source w)
          end
      end
  end.

(** The refreshes on the ticks until the context is cancelled ([None]). *)
Fixpoint refresh_ticks (ticks : list (option refresh_env)) (td : TopicDiscovery)
    (source : option SourceReplicator) (w : clients OS)
    : outcome (list refresh_result) :=
  match ticks with
  | [] => Ok []
  | None :: _ => Ok []
  | Some env :: ticks =>
      r ← refresh env td source w;
      rs ← refresh_ticks ticks td (rr_source r) (rr_clients r);
      Ok (r :: rs)
  end.

Definition Discovery_loop (first : refresh_env) (ticks : list (option refresh_env))
    (td : TopicDiscovery) (source : option SourceReplicator) (w : clients OS)
    : outcome (list refresh_result) :=
  r ← refresh first td source w;
  _ ← NewTicker (RefreshTopicsInterval (td_cfg td));
  rs ← refresh_ticks ticks td (rr_source r) (rr_clients r);
  Ok (r :: rs).

(** ** Properties *)

Lemma shouldReplicate_true td topic :
  shouldReplicate td topic = true ↔
  IsInternalTopic (td_policy td) topic = false ∧
  IsHeartbeatsTopic (td_policy td) topic = false ∧
  TopicSource (td_policy td) topic = "" ∧
  TopicFilter_ShouldReplicate (td_topicFilter td) topic = true.
Proof.
  unfold shouldReplicate. case_bool_decide; simpl; repeat case_match; naive_solver.
Qed.

(** C18. Discovery does not pick what the program itself writes. Under any lawful
    policy the offset-syncs, checkpoints and heartbeats topics are skipped. Under
    the default policy with a non-empty separator a topic is skipped when the
    separator occurs in it and it does not begin with the separator. So every
    remote topic "<alias><separator><topic>" is skipped, whatever cluster it was
    mirrored from, and two flows in opposite directions do not feed each other's
    copies back, provided that this name does not begin with the separator; and so
    is an original topic in which the separator occurs later than at its beginning
    only. A remote name that begins with the separator has no recognisable source:
    whether it is picked is left to the other tests (the alias "_dc" with the
    separator "_" gives the remote topics of a cluster that are picked again). *)
Theorem discovery_no_cycle td `{!PolicyLaws (td_policy td)} :
  (∀ alias, shouldReplicate td (OffsetSyncsTopic (td_policy td) alias) = false ∧
            shouldReplicate td (CheckpointsTopic (td_policy td) alias) = false) ∧
  shouldReplicate td (HeartbeatsTopic (td_policy td)) = false ∧
  ∀ p, td_policy td = default_policy p → Policy.Separator p ≠ "" →
    (∀ t, str_index t (Policy.Separator p) ≠ None →
       HasPrefix t (Policy.Separator p) = false → shouldReplicate td t = false) ∧
    (∀ alias t, let remote := FormatRemoteTopic (td_policy td) alias t in
       HasPrefix remote (Policy.Separator p) = false → shouldReplicate td remote = false) ∧
    (∀ t, HasPrefix t (Policy.Separator p) = true →
       shouldReplicate td t =
         negb (IsInternalTopic (td_policy td) t) && negb (IsHeartbeatsTopic (td_policy td) t)
         && TopicFilter_ShouldReplicate (td_topicFilter td) t).
Proof.
  assert (∀ t, (shouldReplicate td t = true → False) → shouldReplicate td t = false) as Hf
    by (intros t; destruct (shouldReplicate td t); tauto).
  split; [intros alias; split; apply Hf; intros (H & _)%shouldReplicate_true|].
  - by rewrite offset_syncs_internal in H.
  - by rewrite checkpoints_internal in H.
  - split; [apply Hf; intros (_ & H & _)%shouldReplicate_true; by rewrite heartbeats_recognised in H|].
    intros p Hp Hs.
    assert (∀ t, str_index t (Policy.Separator p) ≠ None →
      HasPrefix t (Policy.Separator p) = false → shouldReplicate td t = false) as Hskip.
    { intros t Hi Hpre. apply Hf. intros (_ & _ & H & _)%shouldReplicate_true.
      rewrite Hp in H. simpl in H. apply Default_source_empty in H as [H|H]; congruence. }
    split; [exact Hskip|]. split.
    + intros alias t remote Hpre. apply Hskip; [|done]. unfold remote. rewrite Hp. simpl.
      unfold Default_FormatRemoteTopic. apply str_index_occurs.
    + intros t Hpre. apply eq_true_iff_eq.
      rewrite shouldReplicate_true, !andb_true_iff, !negb_true_iff.
      assert (TopicSource (td_policy td) t = "") as ->; [|tauto].
      rewrite Hp. simpl. apply Default_source_empty; auto.
Qed.

Lemma elem_of_sorted_details m d : d ∈ sorted_details m ↔ ∃ k, m !! k = Some d.
Proof.
  unfold sorted_details. rewrite merge_sort_Permutation, list_elem_of_fmap. split.
  - intros ([k d'] & -> & H%elem_of_map_to_list). by exists k.
  - intros [k H]. exists (k, d). by rewrite elem_of_map_to_list.
Qed.

(** The topics of the answer under their names. *)
Definition keyed (m : TopicDetails) : Prop := ∀ k d, m !! k = Some d → t_Topic d = k.

Lemma elem_of_replicable td m t :
  keyed m → t ∈ t_Topic <$> replicable td m ↔ is_Some (m !! t) ∧ shouldReplicate td t = true.
Proof.
  intros Hk. unfold replicable. rewrite list_elem_of_fmap. setoid_rewrite list_elem_of_filter.
  setoid_rewrite elem_of_sorted_details. split.
  - intros (d & -> & Hs & k & Hd). rewrite (Hk k d Hd) in *. split; [by eexists|done].
  - intros [[d Hd] Hs]. exists d. rewrite (Hk t d Hd). split; [done|]. split; [done|by exists t].
Qed.

Definition remote (td : TopicDiscovery) (t : string) : string :=
  FormatRemoteTopic (td_policy td) (Source (td_cfg td)) t.

(** The shape of the topics the target needs. *)
Definition needs (td : TopicDiscovery) (tgtTopics : TopicDetails) (d : TopicDetail)
    : option admin_request :=
  let n := partition_count d in
  match tgtTopics !! remote td (t_Topic d) with
  | None => Some (ReqCreate (remote td (t_Topic d)) n (ReplicationFactor (td_cfg td)))
  | Some d' => if partition_count d' <? n
               then Some (ReqPartitions (remote td (t_Topic d)) n) else None
  end.

Definition is_alter (r : admin_request) : bool :=
  match r with ReqAlter _ _ => true | _ => false end.

Lemma sync_requests_alter td env srcA tgtA t t' r :
  r ∈ sync_requests td env srcA tgtA t t' → is_alter r = true.
Proof.
  unfold sync_requests. destruct (BoolDefault _ _); [|by intros H%elem_of_nil].
  destruct (_.2); [|by intros H%elem_of_nil]. by intros ->%list_elem_of_singleton.
Qed.

Lemma refresh_topic_needs td env srcA tgtA tgtTopics d r :
  is_alter r = false →
  r ∈ refresh_topic td env srcA tgtA tgtTopics d ↔ needs td tgtTopics d = Some r.
Proof.
  intros Hr. unfold refresh_topic, needs, remote.
  assert (∀ t t', r ∉ sync_requests td env srcA tgtA t t') as Hs.
  { intros t t' H%sync_requests_alter. congruence. }
  destruct (tgtTopics !! _) as [d'|].
  - rewrite elem_of_app. case_match; rewrite ?list_elem_of_singleton, ?elem_of_nil.
    + split; [by intros [->|H'%Hs]|]. intros [= <-]. by left.
    + split; [by intros [H'|H'%Hs]|done].
  - rewrite elem_of_cons. split; [|intros [= <-]; by left].
    intros [->|H']; [done|]. exfalso.
    case_match; [by apply Hs in H'|by apply elem_of_nil in H'..].
Qed.

Lemma NewAdminClient_cases now refusal connect cc w :
  (∃ e, NewAdminClient now refusal connect cc w = (Err e, w)) ∨
  (∃ opts, NewAdminClient now refusal connect cc w =
     (Ok {| inner := connect (length (created w)); raw := length (created w) |},
      {| created := created w ++ [opts]; released := released w |})).
Proof.
  unfold NewAdminClient. destruct (BuildClientOpts now cc) as [opts|e|why] eqn:E; simpl.
  - destruct refusal as [e|]; simpl; [left; by eexists|right; by exists opts].
  - left. by eexists.
  - by apply BuildClientOpts_no_panic in E.
Qed.

(** The state of a subscribed source. *)
Definition subscribed (source : option SourceReplicator) : gset string :=
  match source with Some s => s_subscribedTopics s | None => ∅ end.
Definition connected (source : option SourceReplicator) : Prop :=
  match source with Some s => is_Some (s_consumer s) | None => False end.

Lemma notify_spec topics source t :
  connected source →
  (t ∈ subscribed (notify topics source).1 ↔ t ∈ subscribed source ∨ t ∈ topics) ∧
  (t ∈ (notify topics source).2 ↔
     t ∈ subscribed (notify topics source).1 ∧ t ∉ subscribed source).
Proof.
  destruct source as [s|]; [|done]. intros [c Hc]. unfold notify, UpdateTopics.
  cbn [connected subscribed] in *. rewrite Hc.
  pose proof (new_topics_spec topics (s_subscribedTopics s)) as H.
  destruct topics as [|t0 topics]; [cbn; rewrite elem_of_nil; tauto|].
  rewrite (proj2 (Nat.ltb_lt _ _)) by (simpl; lia).
  destruct (new_topics _ _) as [new sub]. destruct H as (-> & _ & Hin).
  cbn [fst snd subscribed with_subscribed s_subscribedTopics].
  rewrite Hin, elem_of_union, elem_of_list_to_set. destruct (decide (t ∈ s_subscribedTopics s)); tauto.
Qed.

(** C17. A refresh never fails, and whatever goes wrong in it, it closes the clients
    it opened. When both listings succeed, then for every topic of the source:
    if it is to be replicated and the target lacks its remote topic, the creation
    with as many partitions is requested; if the target has it with fewer
    partitions, their increase; and besides configuration changes nothing else
    is requested, in particular nothing for other topics. A source replicator
    that has its consumer ends up subscribed to what it was subscribed to and
    the topics to replicate; those added are the new ones. *)
Theorem refresh_spec env td source w :
  clients_wf w →
  ∃ res, refresh env td source w = Ok res ∧
  (∀ h, is_open (rr_clients res) h ↔ is_open w h) ∧
  ∀ srcTopics tgtTopics,
    (∀ h, kListTopics (re_source env h) [] = inr srcTopics) →
    (∀ h, kListTopics (re_target env h) [] = inr tgtTopics) →
    keyed srcTopics → is_Some (rr_discovered res) →
    (∀ r, is_alter r = false → r ∈ rr_requests res ↔
       ∃ t d, srcTopics !! t = Some d ∧ shouldReplicate td t = true ∧
              needs td tgtTopics d = Some r) ∧
    (connected source → ∀ t,
       (t ∈ subscribed (rr_source res) ↔
          t ∈ subscribed source ∨ (is_Some (srcTopics !! t) ∧ shouldReplicate td t = true)) ∧
       (t ∈ rr_added res ↔ t ∈ subscribed (rr_source res) ∧ t ∉ subscribed source)).
Proof.
  intros Hwf. unfold refresh.
  destruct (NewAdminClient_cases (re_now env) (re_refusal1 env) (re_source env)
              (td_srcCfg td) w) as [[e ->]|[o1 ->]].
  { eexists. split; [reflexivity|]. split; [done|]. intros ? ? ? ? ? [? ?]. done. }
  destruct (NewAdminClient_cases (re_now env) (re_refusal2 env) (re_target env) (td_tgtCfg td)
    {| created := created w ++ [o1]; released := released w |}) as [[e ->]|[o2 ->]].
  { eexists. split; [reflexivity|]. split; [|intros ? ? ? ? ? [? ?]; done].
    intros h. exact (open_after_one w o1 h Hwf). }
  cbv zeta. unfold Client_Close. cbn [raw]. set (w2 := CloseClient _ (CloseClient _ _)).
  assert (∀ h, is_open w2 h ↔ is_open w h) as Hw2 by (intros h; exact (open_after_two w o1 o2 h Hwf)).
  unfold ListTopicsDetails. cbn [inner created].
  destruct (kListTopics (re_source env _) []) as [e|src] eqn:Hs;
    [|destruct (kListTopics (re_target env _) []) as [e|tgt] eqn:Ht].
  1,2: eexists; (split; [reflexivity|]); (split; [done|]); by intros ? ? ? ? ? [? ?].
  destruct (notify _ source) as [source' added] eqn:Hn.
  eexists. split; [reflexivity|]. split; [done|].
  intros srcTopics tgtTopics Hsrc Htgt Hk _. cbn [rr_requests rr_source rr_added].
  rewrite Hsrc in Hs. rewrite Htgt in Ht. injection Hs as <-. injection Ht as <-. split.
  - intros r Hr. rewrite elem_of_concat. setoid_rewrite list_elem_of_fmap. split.
    + intros (l & Hin & d & -> & Hd). apply refresh_topic_needs in Hin; [|done].
      exists (t_Topic d), d. apply list_elem_of_filter in Hd as [Hd [k Hl]%elem_of_sorted_details].
      rewrite (Hk k d Hl) in *. done.
    + intros (t & d & Hl & Hd & Hneeds). eexists. rewrite <- (Hk t d Hl) in Hd. 
      split; [by apply refresh_topic_needs|]. exists d. split; [done|].
      apply list_elem_of_filter. split; [done|]. apply elem_of_sorted_details. by exists t.
  - intros Hc t. destruct (notify_spec (t_Topic <$> replicable td srcTopics) source t Hc) as [H1 H2].
    rewrite Hn in H1, H2. rewrite <- elem_of_replicable by done. done.
Qed.
End discovery.

(** ** Examples *)

Definition ex_topics (l : list (string * list Z)) : TopicDetails :=
  list_to_map ((λ '(t, ps), (t, {| t_Topic := t; t_Partitions := list_to_set ps |})) <$> l).

Definition ex_listing (topics : TopicDetails) : kadm_Client := {|
  kListTopics _ := inr topics; kCreateTopics _ _ _ _ := inr [None];
  kCreatePartitions _ _ := inr [None]; kListGroups := inr []; kFetchOffsets _ := inr [];
  kDescribeTopicConfigs _ := inr []; kAlterTopicConfigs _ _ := inr [None] |}.

Definition ex_src_topics : TopicDetails :=
  ex_topics [("orders", [0; 1]); ("east.orders", [0]); ("users", [0]); ("heartbeats", [0])].
Definition ex_tgt_topics : TopicDetails := ex_topics [("west.orders", [0])].

Definition ex_refresh : refresh_env := {|
  re_now := 0; re_refusal1 := None; re_refusal2 := None;
  re_source _ := ex_listing ex_src_topics; re_target _ := ex_listing ex_tgt_topics;
  re_order := map_to_list |}.

Definition ex_discovery : TopicDiscovery := {|
  td_cfg := ex_source_cfg; td_srcCfg := ex_cluster "w:9092"; td_tgtCfg := ex_cluster "e:9092";
  td_topicFilter := {| tf_whitelist := []; tf_blacklist := [] |};
  td_policy := default_policy (NewDefaultPolicy "."); td_running := true; td_loop := true |}.

Lemma discovery_no_cycle_witness :
  shouldReplicate ex_discovery "east.orders" = false ∧
  shouldReplicate ex_discovery "orders" = true ∧
  shouldReplicate ex_discovery "orders.v1" = false.
Proof.
  destruct (discovery_no_cycle ex_discovery) as (_ & _ & H).
  destruct (H (NewDefaultPolicy ".") eq_refl) as (Hs & Hr & _); [discriminate|].
  split; [|split; [reflexivity|]].
  - apply (Hr "east" "orders"). reflexivity.
  - apply Hs; [vm_compute; discriminate|reflexivity].
Defined.

(** An alias that begins with the separator. *)
Example ex_underscore :
  shouldReplicate {| td_cfg := ex_source_cfg; td_srcCfg := ex_cluster "w:9092";
    td_tgtCfg := ex_cluster "e:9092"; td_topicFilter := {| tf_whitelist := []; tf_blacklist := [] |};
    td_policy := default_policy (NewDefaultPolicy "_"); td_running := true; td_loop := true |}
    "_dc_orders" = true.
Proof. reflexivity. Qed.

Lemma refresh_spec_witness :
  ∃ res, refresh ex_refresh ex_discovery (Some ex_source) no_clients = Ok res ∧
    ReqPartitions "west.orders" 2 ∈ rr_requests res ∧
    "users" ∈ subscribed (rr_source res) ∧ "east.orders" ∉ subscribed (rr_source res).
Proof.
  destruct (refresh_spec ex_refresh ex_discovery (Some ex_source) no_clients)
    as (res & Hres & _ & H).
  { intros h Hh. simpl in Hh. set_solver. }
  exists res. split; [exact Hres|].
  destruct (H ex_src_topics ex_tgt_topics) as [Hreq Hsub].
  - reflexivity.
  - reflexivity.
  - apply map_Forall_to_list. vm_compute. repeat constructor.
  - vm_compute in Hres. injection Hres as <-. by eexists.
  - specialize (Hsub ltac:(by eexists)). split; [|split].
    + apply Hreq; [reflexivity|]. exists "orders". eexists. split; [vm_compute; reflexivity|].
      split; vm_compute; reflexivity.
    + apply (proj1 (Hsub "users")). right. split; [|reflexivity]. by eexists.
    + intros [Hin|[_ Hin]]%(proj1 (Hsub "east.orders")); [|vm_compute in Hin; discriminate Hin].
      change ("east.orders" ∈ ({["orders"]} : gset string)) in Hin.
      by apply elem_of_singleton in Hin.
Defined.
