(* ===== verification/Parallel.v ===== *)
(** * internal/mirror/parallel_source.go: parallel catch-up

    [ParallelSource] splits the offset range of a partition among fetchers, which
    publish into the ring buffer; one drainer produces what comes out. This file
    holds the construction, the split and the fetchers; RingBuffer has the buffer
    and the interleavings of a pipeline, CatchUp the drainer and the lag queries.

    Throughput figures that are only logged are left out. *)
From stdpp Require Import sorting.
From S2P Require Import Prelude GoStrings Filter Retry CircuitBreaker Types Policy RingBuffer.
From S2P Require Import RingSafety Config ClientOpts Kgo Dlq Metrics Admin SourceLoop.

Local Open Scope Z_scope.

Section parallel.
Context {OS : Outside}.

Record ParallelSource := {
  ps_cfg : ReplicationConfig;
  ps_srcCfg : ClusterConfig;
  ps_tgtCfg : ClusterConfig;
  ps_policy : Policy.ReplicationPolicy;
  ps_workers : Z;
  ps_fetchMaxPartBytes : Z;
  ps_ringBufferCapacity : Z;
  ps_totalBytes : Z;
  ps_totalRecords : Z;
  ps_dlq : option DLQ;
  ps_retryCfg : RetryConfig;
  ps_circuitBreaker : CircuitBreaker;
}.

Definition NewParallelSource (now : Z) (refusal : option error) (cfg : ReplicationConfig)
    (srcCfg tgtCfg : ClusterConfig) (workers : Z) (w : clients OS)
    : outcome ParallelSource * clients OS :=
  match wrap_err "create replication policy: %w" []
          (NewPolicy (Config.ReplicationPolicy cfg) (Config.Separator cfg)) with
  | Err err => (Err err, w)
  | Panic why => (Panic why, w)
  | Ok pol =>
      let '(dlq, w) := NewDLQ now refusal cfg tgtCfg w in
      (Ok {| ps_cfg := cfg; ps_srcCfg := srcCfg; ps_tgtCfg := tgtCfg; ps_policy := pol;
             ps_workers := if workers <? 2 then 2 else workers;
             ps_fetchMaxPartBytes :=
               if FetchMaxPartitionBytes cfg <=? 0 then 5 * 1024 * 1024
               else FetchMaxPartitionBytes cfg;
             ps_ringBufferCapacity :=
               if RingBufferCapacity cfg <=? 0 then 16384 else RingBufferCapacity cfg;
             ps_totalBytes := 0; ps_totalRecords := 0;
             ps_dlq := dlq_or_nil dlq; ps_retryCfg := flow_retryCfg cfg;
             ps_circuitBreaker := NewCircuitBreaker DefaultCircuitBreakerConfig |}, w)
  end.

(** ** The split of a partition *)

(** [effectiveWorkers] and [segmentSize] *)
Definition split_range (workers totalRange : Z) : Z * Z :=
  let segmentSize := Z.quot totalRange workers in
  if segmentSize <? 1000 then (1, totalRange) else (workers, segmentSize).

Fixpoint segments_from (n : nat) (i effectiveWorkers segmentSize startOffset endOffset : Z)
    : list (Z * Z) :=
  match n with
  | O => []
  | S n =>
      let segStart := i64 (startOffset + i64 (i * segmentSize)) in
      let segEnd := if i =? effectiveWorkers - 1 then endOffset
                    else i64 (segStart + segmentSize) in
      if endOffset <=? segStart then []
      else (segStart, segEnd) ::
           segments_from n (i + 1) effectiveWorkers segmentSize startOffset endOffset
  end.

(** The ranges of the fetchers, in the order they are started. *)
Definition segments (ps : ParallelSource) (startOffset endOffset : Z) : list (Z * Z) :=
  let '(effectiveWorkers, segmentSize) :=
    split_range (ps_workers ps) (i64 (endOffset - startOffset)) in
  segments_from (Z.to_nat effectiveWorkers) 0 effectiveWorkers segmentSize startOffset endOffset.

Definition ring_capacity (ps : ParallelSource) (startOffset endOffset : Z) : Z :=
  let totalRange := i64 (endOffset - startOffset) in
  if totalRange <? i64 (ps_ringBufferCapacity ps) then i64 (totalRange + 1)
  else ps_ringBufferCapacity ps.

(** ** A fetcher *)

(** The client of a fetcher; the options for partitions are those of [kgo]. *)
Definition fetch_opts (ps : ParallelSource) (topic : string) (partition fromOffset : Z)
    (srcOpts : list kgo_Opt) : list kgo_Opt :=
  let fetchMaxPart := i32 (ps_fetchMaxPartBytes ps) in
  srcOpts ++
  [kgo_ConsumePartition topic partition fromOffset; kgo_FetchMaxBytes (i32 (2 * fetchMaxPart));
   kgo_FetchMaxPartitionBytes fetchMaxPart; kgo_FetchMinBytes (256 * 1024);
   kgo_FetchMaxWait (200 * Millisecond)].

(** How a fetcher's loop ended; [Fetching] when it is still waiting for a poll. *)
Inductive fetch_exit := FetchDone | FetchFailed (err : error) | Fetching.

Definition maxConsecutiveFetchErrors : Z := 10.

(** The range loop over the records of a poll: the records published, and whether
    the function returned. [accepts r] is what [Put] answers. *)
Fixpoint put_records (accepts : kgo_Record → bool) (toOffset : Z) (records : list kgo_Record)
    : list kgo_Record * bool :=
  match records with
  | [] => ([], false)
  | r :: records =>
      if toOffset <=? r_Offset r then ([], true)
      else if accepts r then
        let '(puts, ret) := put_records accepts toOffset records in (r :: puts, ret)
      else ([], true)
  end.

(** The loop of [fetchWorker]: a poll comes with [ctx.Err() != nil] at the head of
    its iteration. *)
Fixpoint fetch_loop (accepts : kgo_Record → bool) (id toOffset : Z)
    (polls : list (bool * poll_result)) (consecutiveFetchErrors : Z)
    : list kgo_Record * fetch_exit :=
  match polls with
  | [] => ([], Fetching)
  | (ctxErr, p) :: polls =>
      if (ctxErr : bool) then ([], FetchDone)
      else
        let failing := (0 <? length (p_Errors p))%nat in
        let errs := if failing then consecutiveFetchErrors + 1 else consecutiveFetchErrors in
        if failing && (maxConsecutiveFetchErrors <=? errs) then
          ([], FetchFailed (Errorf "fetcher %d: %d consecutive fetch errors, last: %v"
                              [pretty id; pretty errs]))
        else
          match last (p_Records p) with
          | None => fetch_loop accepts id toOffset polls errs
          | Some final =>
              let '(puts, ret) := put_records accepts toOffset (p_Records p) in
              if (ret : bool) then (puts, FetchDone)
              else if i64 (toOffset - 1) <=? r_Offset final then (puts, FetchDone)
              else
                let '(puts', exit) := fetch_loop accepts id toOffset polls 0 in
                (puts ++ puts', exit)
          end
  end.

Definition fetchWorker (now : Z) (refusal : option error) (accepts : kgo_Record → bool)
    (polls : list (bool * poll_result)) (ps : ParallelSource) (id : Z) (topic : string)
    (partition fromOffset toOffset : Z) (w : clients OS)
    : list kgo_Record * fetch_exit * clients OS :=
  match wrap_err "build source opts: %w" [] (BuildClientOpts now (ps_srcCfg ps)) with
  | Ok srcOpts =>
      match NewClient refusal (fetch_opts ps topic partition fromOffset srcOpts) w with
      | (Ok consumer, w) =>
          let '(puts, exit) := fetch_loop accepts id toOffset polls 0 in
          (puts, exit,
           match exit with Fetching => w | _ => CloseClient consumer w end)  (* the deferred close *)
      | (Err err, w) => ([], FetchFailed (Wrapf "create consumer: %w" [] err), w)
      | (Panic why, w) => ([], FetchFailed (Errorf why []), w)
      end
  | Err err => ([], FetchFailed err, w)
  | Panic why => ([], FetchFailed (Errorf why []), w)
  end.

(** ** What a fetcher publishes *)

(** Offsets grow along a list of records. *)
Abbreviation ordered := (StronglySorted (λ r r', r_Offset r < r_Offset r')).
Abbreviation polled polls := (concat (p_Records ∘ snd <$> polls)).

Definition below (toOffset : Z) (rs : list kgo_Record) : list kgo_Record :=
  filter (λ r, r_Offset r < toOffset) rs.

Lemma below_none toOffset rs :
  Forall (λ r, toOffset ≤ r_Offset r) rs → below toOffset rs = [].
Proof.
  unfold below. induction 1 as [|r rs Hr _ IH]; [done|]. by rewrite filter_cons_False by lia.
Qed.

Lemma below_all toOffset rs :
  Forall (λ r, r_Offset r < toOffset) rs → below toOffset rs = rs.
Proof.
  unfold below. induction 1 as [|r rs Hr _ IH]; [done|]. by rewrite filter_cons_True, IH by lia.
Qed.

Lemma ordered_app_inv rs rs' :
  ordered (rs ++ rs') →
  ordered rs ∧ ordered rs' ∧ ∀ r r', r ∈ rs → r' ∈ rs' → r_Offset r < r_Offset r'.
Proof.
  induction rs as [|r rs IH]; simpl; intros H.
  - split; [constructor|]. split; [done|]. by intros ? ? ?%elem_of_nil.
  - apply StronglySorted_inv in H as [H Hr]. destruct (IH H) as (H1 & H2 & H3).
    rewrite Forall_app, !Forall_forall in Hr. destruct Hr as [Hr Hr']. split.
    { constructor; [done|]. by apply Forall_forall. }
    split; [done|]. intros x y [->|Hx]%elem_of_cons Hy; [by apply Hr'|by apply H3].
Qed.

(** Once a record at or past an offset has been seen, no later one is below it. *)
Lemma below_cut toOffset rs rs' :
  ordered (rs ++ rs') → (∃ r, r ∈ rs ∧ toOffset - 1 ≤ r_Offset r) →
  below toOffset (rs ++ rs') = below toOffset rs.
Proof.
  intros (_ & _ & H)%ordered_app_inv (r & Hr & Ho). unfold below. rewrite filter_app.
  fold (below toOffset rs'). rewrite (below_none toOffset rs'), app_nil_r; [done|].
  apply Forall_forall. intros r' Hr'. specialize (H r r' Hr Hr'). lia.
Qed.

Lemma put_records_spec accepts toOffset rs :
  (∀ r, accepts r = true) → ordered rs →
  put_records accepts toOffset rs =
    (below toOffset rs, negb (bool_decide (Forall (λ r, r_Offset r < toOffset) rs))).
Proof.
  intros Hacc. induction rs as [|r rs IH]; intros Hs; simpl; [done|].
  apply StronglySorted_inv in Hs as [Hs Hr]. destruct (Z.leb_spec toOffset (r_Offset r)) as [Hle|Hlt].
  - rewrite below_none.
    2:{ constructor; [done|]. eapply Forall_impl; [exact Hr|]. simpl. lia. }
    rewrite bool_decide_false; [done|]. intros [? _]%Forall_cons. lia.
  - rewrite Hacc, IH by done. unfold below at 2. rewrite filter_cons_True by done.
    do 2 f_equal. apply bool_decide_ext. rewrite Forall_cons. tauto.
Qed.

Lemma ordered_last rs final r :
  ordered rs → last rs = Some final → r ∈ rs → r_Offset r ≤ r_Offset final.
Proof.
  intros Hs (rs' & ->)%last_Some. apply ordered_app_inv in Hs as (_ & _ & H).
  intros [Hr| ->%list_elem_of_singleton]%elem_of_app; [|lia].
  specialize (H r final Hr ltac:(by left)). lia.
Qed.

(** What is known of the polls when the loop has ended in [exit], after having
    published [puts]; [rest] is what follows them in the partition. *)
Definition fetch_post (toOffset : Z) (polls : list (bool * poll_result))
    (rest puts : list kgo_Record) (exit : fetch_exit) : Prop :=
  match exit with
  | FetchDone => puts = below toOffset (polled polls ++ rest) ∧
      ∃ r, r ∈ polled polls ∧ toOffset - 1 ≤ r_Offset r
  | Fetching => puts = polled polls ∧ Forall (λ r, r_Offset r < toOffset - 1) (polled polls)
  | FetchFailed _ => Forall (λ r, r_Offset r < toOffset - 1) puts ∧ (∃ k, puts = polled (take k polls)) ∧
      ∃ p, p ∈ polls ∧ p_Errors p.2 ≠ []
  end.

Lemma fetch_post_cons toOffset p polls rest puts exit :
  Forall (λ r, r_Offset r < toOffset - 1) (p_Records p) →
  ordered (p_Records p ++ polled polls ++ rest) →
  fetch_post toOffset polls rest puts exit →
  fetch_post toOffset ((false, p) :: polls) rest (p_Records p ++ puts) exit.
Proof.
  intros Hp Hs H. destruct exit; simpl in *.
  - destruct H as (-> & r & Hr & Ho). split.
    + rewrite <- app_assoc. unfold below at 2. rewrite filter_app. fold (below toOffset (p_Records p)).
      rewrite (below_all _ (p_Records p)); [done|]. eapply Forall_impl; [exact Hp|]. simpl. lia.
    + exists r. split; [|done]. apply elem_of_app. by right.
  - destruct H as (Hf & (k & ->) & q & Hq & He). split; [by apply Forall_app|]. split.
    + by exists (S k).
    + exists q. split; [by right|done].
  - destruct H as [-> Hf]. split; [done|]. by apply Forall_app.
Qed.

Lemma fetch_loop_spec accepts id toOffset polls errs rest :
  (∀ r, accepts r = true) → - 2 ^ 63 < toOffset < 2 ^ 63 →
  Forall (λ p, p.1 = false) polls → ordered (polled polls ++ rest) →
  let '(puts, exit) := fetch_loop accepts id toOffset polls errs in
  fetch_post toOffset polls rest puts exit.
Proof.
  intros Hacc Hto. revert errs. induction polls as [|[c p] polls IH]; intros errs Hc Hs.
  { cbn. by split. }
  apply Forall_cons in Hc as [Hc0 Hc]. simpl in Hc0. subst c.
  cbn [fmap list_fmap concat compose snd] in Hs. rewrite <- app_assoc in Hs.
  pose proof (ordered_app_inv _ _ Hs) as (Hp & Hs' & _).
  cbn [fetch_loop]. set (errs' := if (0 <? length (p_Errors p))%nat then _ else _).
  destruct ((0 <? length (p_Errors p))%nat && (maxConsecutiveFetchErrors <=? errs')) eqn:Hfail.
  { apply andb_true_iff in Hfail as [Hne%Nat.ltb_lt _]. split; [constructor|]. split; [by exists 0%nat|].
    exists (false, p). split; [by left|]. simpl. by destruct (p_Errors p); [simpl in Hne; lia|]. }
  destruct (last (p_Records p)) as [final|] eqn:Hl.
  2:{ apply last_None in Hl. specialize (IH errs' Hc Hs').
      destruct (fetch_loop _ _ _ polls _) as [puts exit].
      apply (fetch_post_cons toOffset p) in IH; [by rewrite Hl in IH| |done]. by rewrite Hl. }
  rewrite put_records_spec by done.
  assert (∀ r, r ∈ p_Records p → toOffset - 1 ≤ r_Offset r →
    fetch_post toOffset ((false, p) :: polls) rest (below toOffset (p_Records p)) FetchDone) as Hdone.
  { intros r Hr Ho. split; simpl.
    - rewrite <- app_assoc, below_cut; [done|done|by exists r].
    - exists r. split; [|done]. apply elem_of_app. by left. }
  case_bool_decide as Hall; simpl.
  2:{ apply not_Forall_Exists, Exists_exists in Hall as (r & Hr & Ho); [|apply _].
      apply (Hdone r Hr). simpl in Ho. lia. }
  rewrite sint_small by (unfold in_s; lia).
  destruct (Z.leb_spec (toOffset - 1) (r_Offset final)) as [Hle|Hgt].
  { apply last_Some in Hl as [l Hl]. apply (Hdone final); [|done]. rewrite Hl.
    apply elem_of_app. right. by left. }
  specialize (IH 0 Hc Hs'). destruct (fetch_loop _ _ _ polls _) as [puts exit].
  rewrite below_all by done. apply fetch_post_cons; [|done|done].
  apply Forall_forall. intros r Hr. pose proof (ordered_last _ _ _ Hp Hl Hr). lia.
Qed.

(** Refused puts and a cancellation only cut the share short. *)
Lemma put_records_prefix accepts toOffset rs :
  ordered rs →
  let '(puts, ret) := put_records accepts toOffset rs in
  puts `prefix_of` below toOffset rs ∧ (ret = false → puts = rs ∧ below toOffset rs = rs).
Proof.
  induction rs as [|r rs IH]; intros Hs; simpl; [done|].
  apply StronglySorted_inv in Hs as [Hs Hr]. specialize (IH Hs).
  destruct (Z.leb_spec toOffset (r_Offset r)); [by split; [apply prefix_nil|]|].
  destruct (accepts r); [|by split; [apply prefix_nil|]].
  destruct (put_records accepts toOffset rs) as [puts ret]. destruct IH as [Hp Hret].
  unfold below. rewrite filter_cons_True by lia. fold (below toOffset rs). split.
  - destruct Hp as [k ->]. by exists k.
  - intros [-> ->]%Hret. done.
Qed.

Lemma fetch_loop_prefix accepts id toOffset polls errs rest :
  ordered (polled polls ++ rest) →
  (fetch_loop accepts id toOffset polls errs).1 `prefix_of` below toOffset (polled polls ++ rest).
Proof.
  revert errs. induction polls as [|[c p] polls IH]; intros errs Hs; [apply prefix_nil|].
  cbn [fmap list_fmap concat compose snd] in Hs |- *. rewrite <- app_assoc in Hs |- *.
  pose proof (ordered_app_inv _ _ Hs) as (Hp & Hs' & _).
  cbn [fetch_loop]. destruct c; [apply prefix_nil|].
  destruct (_ && _); [apply prefix_nil|]. unfold below. rewrite filter_app.
  fold (below toOffset (p_Records p)). fold (below toOffset (polled polls ++ rest)).
  destruct (last (p_Records p)) as [final|] eqn:Hl.
  2:{ apply last_None in Hl. rewrite Hl. by apply IH. }
  pose proof (put_records_prefix accepts toOffset (p_Records p) Hp) as H.
  destruct (put_records accepts toOffset (p_Records p)) as [puts ret]. destruct H as [Hpre Hret].
  destruct ret; [by apply prefix_app_r|]. destruct (Hret eq_refl) as [-> Hb].
  case_match; [by apply prefix_app_r|]. specialize (IH 0 Hs').
  destruct (fetch_loop accepts id toOffset polls 0) as [puts' exit]. rewrite Hb. by apply prefix_app.
Qed.

(** C16. A fetcher publishes exactly its share, and returns exactly when it has seen
    its end. Let the partition hold, from the fetcher's first offset on, the
    records polled so far and then [rest], in offset order. Whatever is refused or
    cancelled, what the worker has published is, in order, an initial part of the
    records of the partition below its end offset. When its client is not refused,
    nothing is cancelled and every [Put] accepts its record, then: a worker that
    has returned without an error has published all records of the partition below
    its end offset; while it is still polling it has published everything polled,
    all of it before the last offset of its range; and if no poll reports an error
    it returns as soon as a record at or past the last offset of its range has been
    polled, and not before: where no such record exists (the last offset is a
    transaction marker or was compacted away) it polls for ever. A worker whose
    client is refused publishes nothing and fails. The client is open while the
    worker polls and closed when it returns. *)
Theorem fetchWorker_exact now refusal accepts polls rest ps id topic partition fromOffset toOffset
    w opts :
  BuildClientOpts now (ps_srcCfg ps) = Ok opts →
  - 2 ^ 63 < toOffset < 2 ^ 63 → ordered (polled polls ++ rest) → clients_wf w →
  let '(puts, exit, w') :=
    fetchWorker now refusal accepts polls ps id topic partition fromOffset toOffset w in
  puts `prefix_of` below toOffset (polled polls ++ rest) ∧
  (refusal = None → (∀ r, accepts r = true) → Forall (λ p, p.1 = false) polls →
     fetch_post toOffset polls rest puts exit ∧
     (Forall (λ p, p_Errors p.2 = []) polls →
        exit = FetchDone ↔ ∃ r, r ∈ polled polls ∧ toOffset - 1 ≤ r_Offset r)) ∧
  (refusal ≠ None → puts = [] ∧ ∃ err, exit = FetchFailed err) ∧
  ∀ h, is_open w' h ↔ is_open w h ∨ (exit = Fetching ∧ h = length (created w)).
Proof.
  intros Hopts Hto Hs Hw. unfold fetchWorker. rewrite Hopts. cbn [wrap_err].
  destruct refusal as [err|]; cbn [NewClient].
  { split; [apply prefix_nil|]. split; [done|]. split; [by eauto|].
    intros h. split; [by left|by intros [?|[? _]]]. }
  pose proof (fetch_loop_prefix accepts id toOffset polls 0 rest Hs) as Hpre.
  pose proof (fetch_loop_spec accepts id toOffset polls 0 rest) as H.
  destruct (fetch_loop _ _ _ _ _) as [puts exit]. split; [done|]. split; [|split; [done|]].
  - intros _ Hacc Hc. specialize (H Hacc Hto Hc Hs). split; [exact H|].
    intros He. destruct exit as [|err|]; simpl in H.
    + split; [intros _; apply H|done].
    + destruct H as (_ & _ & p & Hp & Hne). rewrite Forall_forall in He. by destruct (Hne (He p Hp)).
    + split; [done|]. intros (r & Hr & Ho). destruct H as [_ H]. rewrite Forall_forall in H.
      specialize (H r Hr). simpl in H. lia.
  - intros h. destruct exit; [| |rewrite (open_after_new w _ h Hw); tauto];
      (split; [intros Ho; left; by apply (open_after_one w _ h Hw) in Ho|]);
      (intros [Ho|[? _]]; [|done]); by apply (open_after_one w _ h Hw).
Qed.

(** ** The segments partition the range *)

Lemma segments_from_spec n i eff size start last :
  0 ≤ start → last < 2 ^ 63 → 0 < size → 0 ≤ i → i + Z.of_nat n = eff →
  start + eff * size ≤ last →
  segments_from n i eff size start last =
    (λ k, (start + k * size, if k =? eff - 1 then last else start + (k + 1) * size))
      <$> seqZ i (Z.of_nat n).
Proof.
  intros Hs Hl Hsz. revert i. induction n as [|n IH]; intros i Hi Hn Hle; [done|].
  cbn [segments_from]. rewrite seqZ_cons by lia. cbn [fmap list_fmap].
  assert (0 ≤ i * size) by nia. assert (i * size + size ≤ eff * size) by nia.
  rewrite !(sint_small 64 (i * size)), !(sint_small 64 (start + i * size)) by
    (done || unfold in_s; lia).
  rewrite (proj2 (Z.leb_gt _ _)) by lia. f_equal.
  - f_equal. case_match; [done|]. rewrite sint_small by (done || unfold in_s; lia). lia.
  - rewrite IH by lia. replace (Z.pred (Z.of_nat (S n))) with (Z.of_nat n) by lia.
    by replace (Z.succ i) with (i + 1) by lia.
Qed.

Definition seg_count (ps : ParallelSource) (startOffset endOffset : Z) : Z :=
  (split_range (ps_workers ps) (endOffset - startOffset)).1.
Definition seg_size (ps : ParallelSource) (startOffset endOffset : Z) : Z :=
  (split_range (ps_workers ps) (endOffset - startOffset)).2.

Section split.
Context (ps : ParallelSource) (startOffset endOffset : Z).
Context (Hworkers : 2 ≤ ps_workers ps) (Hstart : 0 ≤ startOffset)
  (Hrange : startOffset < endOffset) (Hend : endOffset < 2 ^ 63).

Abbreviation eff := (seg_count ps startOffset endOffset).
Abbreviation sz := (seg_size ps startOffset endOffset).

Lemma split_ok : 1 ≤ eff ∧ 1 ≤ sz ∧ startOffset + eff * sz ≤ endOffset.
Proof.
  unfold seg_count, seg_size, split_range.
  rewrite Z.quot_div_nonneg by lia. 
  pose proof (Z.mul_div_le (endOffset - startOffset) (ps_workers ps)).
  destruct (Z.ltb_spec ((endOffset - startOffset) / ps_workers ps) 1000); simpl; lia.
Qed.

Lemma segments_lookup j s :
  segments ps startOffset endOffset !! j = Some s ↔
  Z.of_nat j < eff ∧ s = (startOffset + Z.of_nat j * sz,
    if Z.of_nat j =? eff - 1 then endOffset else startOffset + (Z.of_nat j + 1) * sz).
Proof.
  destruct split_ok as (He & Hz & Hle). unfold segments.
  rewrite (sint_small 64 (endOffset - startOffset)) by (done || unfold in_s; lia).
  change (split_range _ _) with (eff, sz) || (rewrite (surjective_pairing (split_range _ _)); fold eff sz).
  rewrite segments_from_spec by lia. rewrite Z2Nat.id by lia.
  rewrite list_lookup_fmap, fmap_Some. setoid_rewrite lookup_seqZ. split.
  - intros (k & [-> Hj] & ->). by rewrite Z.add_0_l.
  - intros [Hj ->]. exists (Z.of_nat j). by rewrite Z.add_0_l.
Qed.

(** ** The loads of the fetchers

    [log] maps the offsets of the range that hold a record to it. *)
Context (log : Z → option kgo_Record).

(** What the fetcher of a segment publishes: its part of the log, in order. *)
Definition segment_load (s : Z * Z) : list (Z * kgo_Record) :=
  omap (λ o, pair o <$> log o) (seqZ s.1 (s.2 - s.1)).

Lemma elem_of_segment_load s o r :
  (o, r) ∈ segment_load s ↔ s.1 ≤ o < s.2 ∧ log o = Some r.
Proof.
  unfold segment_load. rewrite list_elem_of_omap. setoid_rewrite elem_of_seqZ. split.
  - intros (o' & Ho & H). destruct (log o') as [r'|] eqn:Hl; [|done]. simplify_eq/=.
    split; [lia|done].
  - intros [Ho Hl]. exists o. rewrite Hl. split; [lia|done].
Qed.

Lemma omap_seqZ_sorted (f : Z → option kgo_Record) a n :
  StronglySorted Z.lt (omap (λ o, pair o <$> f o) (seqZ a n)).*1.
Proof.
  destruct (Z.le_gt_cases n 0) as [Hn|Hn]; [by rewrite seqZ_nil by lia; constructor|].
  revert a. pattern n. apply Zlt_lower_bound_ind with (z := 0); [|lia]. clear n Hn.
  intros n IH Hn a. destruct (decide (n = 0)) as [->|Hne]; [constructor|].
  rewrite seqZ_cons by lia. cbn [omap list_omap].
  specialize (IH (Z.pred n) ltac:(lia) (Z.succ a)).
  destruct (f a) as [r|]; simpl; [|done]. constructor; [done|].
  apply Forall_forall. intros o (p & -> & Hp)%list_elem_of_fmap.
  apply list_elem_of_omap in Hp as (o' & Ho' & Hp). apply elem_of_seqZ in Ho'.
  destruct (f o'); simplify_eq/=. lia.
Qed.

Definition seg_of (o : Z) : nat := Z.to_nat (Z.min ((o - startOffset) / sz) (eff - 1)).

Lemma seg_of_spec o j s :
  startOffset ≤ o < endOffset → segments ps startOffset endOffset !! j = Some s →
  s.1 ≤ o < s.2 ↔ seg_of o = j.
Proof.
  destruct split_ok as (He & Hz & Hle). intros Ho [Hj ->]%segments_lookup. simpl.
  unfold seg_of. pose proof (Z.div_mod (o - startOffset) sz ltac:(lia)) as Hd.
  pose proof (Z.mod_pos_bound (o - startOffset) sz ltac:(lia)) as Hm.
  set (q := (o - startOffset) / sz) in *. 
  assert (0 ≤ q) by (apply Z.div_pos; lia).
  assert (seg_of o = j ↔ Z.min q (eff - 1) = Z.of_nat j) as Hiff by (unfold seg_of; fold q; lia).
  unfold seg_of in Hiff. fold q in Hiff. rewrite Hiff. clear Hiff.
  destruct (Z.eqb_spec (Z.of_nat j) (eff - 1)) as [Hl|Hl].
  - rewrite Hl. split; [intros [H1 _]|intros H1]; [|split; [|lia]].
    + assert (eff - 1 ≤ q) by nia. lia.
    + assert (eff - 1 ≤ q) by lia. nia.
  - split; [intros [H1 H2]|intros H1]; [assert (q = Z.of_nat j) by nia; lia|].
    assert (q = Z.of_nat j) by lia. nia.
Qed.

(** The conditions under which the buffer keeps the order: the range fits it, or a
    single fetcher is started and no offset of the range is missing. *)
Definition keeps_order : Prop :=
  endOffset - startOffset ≤ ps_ringBufferCapacity ps ∨
  (endOffset - startOffset < 1000 * ps_workers ps ∧
   ∀ o, startOffset ≤ o < endOffset → is_Some (log o)).

Context (Hcap : 0 < ps_ringBufferCapacity ps < 2 ^ 63).
Context (Hlog : ∀ o r, log o = Some r → startOffset ≤ o < endOffset ∧ r_Offset r = o).

Lemma ring_capacity_spec :
  ring_capacity ps startOffset endOffset =
    (if decide (endOffset - startOffset < ps_ringBufferCapacity ps)
     then endOffset - startOffset + 1 else ps_ringBufferCapacity ps).
Proof.
  unfold ring_capacity.
  rewrite (sint_small 64 (endOffset - _)), (sint_small 64 (ps_ringBufferCapacity ps)) by
    (done || unfold in_s; lia).
  destruct (Z.ltb_spec (endOffset - startOffset) (ps_ringBufferCapacity ps));
    case_decide; try lia. rewrite sint_small; [done|done|unfold in_s; lia].
Qed.

Lemma segments_workload :
  keeps_order →
  workload_ok (ring_capacity ps startOffset endOffset) startOffset endOffset log seg_of
    (segment_load <$> segments ps startOffset endOffset).
Proof.
  intros Hkeep. destruct split_ok as (He & Hz & Hle). rewrite ring_capacity_spec. split.
  - case_decide; lia.
  - lia.
  - intros o [r Hr]. by destruct (Hlog o r Hr).
  - intros j w Hw. rewrite list_lookup_fmap in Hw. apply fmap_Some in Hw as (s & Hs & ->).
    split; [apply omap_seqZ_sorted|]. apply Forall_forall. intros [o r] [Ho Hl]%elem_of_segment_load.
    split; [|done]. eapply seg_of_spec; [|done|done]. by destruct (Hlog o r Hl).
  - intros o r Hr. destruct (Hlog o r Hr) as [Ho _].
    assert (is_Some (segments ps startOffset endOffset !! seg_of o)) as [s Hs].
    { eexists. apply segments_lookup. split; [|reflexivity]. unfold seg_of.
      assert (0 ≤ (o - startOffset) / sz) by (apply Z.div_pos; lia). lia. }
    exists (segment_load s). rewrite list_lookup_fmap, Hs. split; [done|].
    apply elem_of_segment_load. split; [|done]. by eapply seg_of_spec.
  - destruct Hkeep as [Hk|[Hk Hdense]]; [left; case_decide; lia|right]. split; [|done].
    rewrite length_fmap. apply Nat.le_antisymm.
    + apply Nat.le_ngt. intros Hlt. assert (1 < length (segments ps startOffset endOffset))%nat as Hl1 by lia.
      apply lookup_lt_is_Some in Hl1 as [s [Hs _]%segments_lookup].
      revert Hs. unfold seg_count, split_range. rewrite Z.quot_div_nonneg by lia.
      destruct (Z.ltb_spec ((endOffset - startOffset) / ps_workers ps) 1000) as [|Hge]; simpl; [lia|].
      pose proof (Z.mul_div_le (endOffset - startOffset) (ps_workers ps)). nia.
    + apply lookup_lt_is_Some. eexists. apply segments_lookup. split; [simpl; lia|reflexivity].
Qed.
End split.
End parallel.

(** ** Examples *)

Definition ex_parallel : ParallelSource := {|
  ps_cfg := ex_source_cfg; ps_srcCfg := ex_cluster "w:9092"; ps_tgtCfg := ex_cluster "e:9092";
  ps_policy := default_policy (NewDefaultPolicy "."); ps_workers := 4;
  ps_fetchMaxPartBytes := 5 * 1024 * 1024; ps_ringBufferCapacity := 16384;
  ps_totalBytes := 0; ps_totalRecords := 0; ps_dlq := None;
  ps_retryCfg := DefaultRetryConfig;
  ps_circuitBreaker := NewCircuitBreaker DefaultCircuitBreakerConfig |}.

(** A range of 100001 records is split in four, far beyond the buffer. *)
Example ex_segments :
  segments ex_parallel 0 100001
  = [(0, 25000); (25000, 50000); (50000, 75000); (75000, 100001)] ∧
  ring_capacity ex_parallel 0 100001 = 16384 ∧
  segments ex_parallel 5 8 = [(5, 8)] ∧ ring_capacity ex_parallel 5 8 = 4.
Proof. by vm_compute. Qed.

Definition ex_polls : list (bool * poll_result) :=
  [(false, ex_poll [ex_record 5; ex_record 6]); (false, ex_poll []);
   (false, ex_poll [ex_record 7; ex_record 8])].

Lemma fetchWorker_exact_witness :
  let '(puts, exit, _) := fetchWorker 0 None (λ _, true) ex_polls ex_parallel 0 "orders" 0 5 8
                            no_clients in
  puts = [ex_record 5; ex_record 6; ex_record 7] ∧ exit = FetchDone.
Proof.
  pose proof (fetchWorker_exact 0 None (λ _, true) ex_polls [] ex_parallel 0 "orders" 0 5 8 no_clients
    [kgo_SeedBrokers ["w:9092"]] eq_refl) as H.
  destruct (fetchWorker _ _ _ _ _ _ _ _ _ _ _) as [[puts exit] w'] eqn:Hf.
  destruct H as (_ & H & _ & _).
  - lia.
  - vm_compute. repeat constructor.
  - intros h Hh. by apply elem_of_empty in Hh.
  - destruct (H eq_refl) as [Hp Hd]; [reflexivity|repeat constructor|].
    assert (exit = FetchDone) as ->.
    { apply Hd; [vm_compute; repeat constructor|]. exists (ex_record 8). split.
      - vm_compute. right. right. right. left.
      - vm_compute. discriminate. }
    split; [|done]. destruct Hp as [-> _]. vm_compute. reflexivity.
Defined.
