(* ===== verification/CatchUp.v ===== *)
(** * internal/mirror/parallel_source.go: draining, catch-up and lags

    [drainPartition] as a step relation on the batches that [DrainBatch] returns,
    its produce callbacks interleaved with it; its composition with the ring
    buffer pipeline of RingBuffer; [CatchUpMultiPartition]; and the two lag
    queries. The value and key lengths are summed as in the code; what is only
    logged is left out. *)
From S2P Require Import Prelude GoStrings Filter Retry CircuitBreaker Types Policy SyncStore RingBuffer.
From S2P Require Import RingSafety Config ClientOpts Kgo Dlq Metrics Admin SourceLoop Parallel.

Local Open Scope Z_scope.

Section drain.
Context {OS : Outside} {P : Prometheus} (m : Metrics) (out_of_range : f64 → Z).

(** What the drainer of one partition is started with. *)
Record drain_job := {
  dj_ps : ParallelSource;
  dj_targetTopic : string;
  dj_sourceTopic : string;
  dj_partition : Z;
}.

Inductive drain_loop_pc :=
  | DrLoop                                       (* about to call [DrainBatch] *)
  | DrProduce (batch : list (option kgo_Record)) (* what is left of the batch *)
  | DrWait | DrFinal | DrReturned.

Record drain_state := {
  dr_pc : drain_loop_pc;
  dr_inflight : list pending;
  dr_produceErrors : Z;
  dr_periodBytes : Z;
  dr_periodRecs : Z;
  dr_totalBytes : Z;
  dr_totalRecs : Z;
  dr_lastLogTime : Z;
  dr_next : nat;
  dr_batches : list (list (option kgo_Record));  (* the batches taken so far *)
  dr_trace : list effect;
}.

Definition init_drain (now : Z) : drain_state :=
  {| dr_pc := DrLoop; dr_inflight := []; dr_produceErrors := 0; dr_periodBytes := 0;
     dr_periodRecs := 0; dr_totalBytes := 0; dr_totalRecs := 0; dr_lastLogTime := now;
     dr_next := 0; dr_batches := []; dr_trace := [] |}.

Definition drain_target (j : drain_job) (r : kgo_Record) : kgo_Record :=
  {| r_Topic := dj_targetTopic j; r_Partition := dj_partition j; r_Key := r_Key r;
     r_Value := r_Value r; r_Headers := r_Headers r; r_Timestamp := r_Timestamp r;
     r_Offset := 0 |}.

(** What its callback hands over again when it has failed. *)
Definition drain_retry (j : drain_job) (r : kgo_Record) : kgo_Record :=
  retry_record (dj_targetTopic j) (dj_partition j) r.

Definition rec_bytes (r : kgo_Record) : Z :=
  Z.of_nat (length (r_Value r) + length (r_Key r)).

Definition at_dpc (pc : drain_loop_pc) (d : drain_state) : drain_state :=
  {| dr_pc := pc; dr_inflight := dr_inflight d; dr_produceErrors := dr_produceErrors d;
     dr_periodBytes := dr_periodBytes d; dr_periodRecs := dr_periodRecs d;
     dr_totalBytes := dr_totalBytes d; dr_totalRecs := dr_totalRecs d;
     dr_lastLogTime := dr_lastLogTime d; dr_next := dr_next d; dr_batches := dr_batches d;
     dr_trace := dr_trace d |}.

(** A batch is taken. *)
Definition take_batch (b : list (option kgo_Record)) (d : drain_state) : drain_state :=
  {| dr_pc := DrProduce b; dr_inflight := dr_inflight d;
     dr_produceErrors := dr_produceErrors d;
     dr_periodBytes := dr_periodBytes d; dr_periodRecs := dr_periodRecs d;
     dr_totalBytes := dr_totalBytes d; dr_totalRecs := dr_totalRecs d;
     dr_lastLogTime := dr_lastLogTime d; dr_next := dr_next d;
     dr_batches := dr_batches d ++ [b]; dr_trace := dr_trace d |}.

(** The body of the range loop over a batch. *)
Definition drain_produce (j : drain_job) (batch : list (option kgo_Record)) (r : kgo_Record)
    (d : drain_state) : drain_state :=
  {| dr_pc := DrProduce batch; dr_inflight := dr_inflight d ++ [PRecord (dr_next d) r (dj_targetTopic j)];
     dr_produceErrors := dr_produceErrors d;
     dr_periodBytes := i64 (dr_periodBytes d + rec_bytes r);
     dr_periodRecs := i64 (dr_periodRecs d + 1);
     dr_totalBytes := i64 (dr_totalBytes d + rec_bytes r);
     dr_totalRecs := i64 (dr_totalRecs d + 1);
     dr_lastLogTime := dr_lastLogTime d; dr_next := S (dr_next d);
     dr_batches := dr_batches d;
     dr_trace := dr_trace d ++ [EProduce (dr_next d) (drain_target j r)] |}.

(** The update of the two counters, with the values the code gives. *)
Definition drain_metrics (j : drain_job) : outcome unit :=
  let labels := [Config.Source (ps_cfg (dj_ps j)); Config.Target (ps_cfg (dj_ps j));
                 dj_targetTopic j; pretty (dj_partition j)] in
  WithLabelValues (RecordsReplicated m) labels ≫= λ _,
  WithLabelValues (BytesReplicated m) labels.

Definition reset_period (now : Z) (d : drain_state) : drain_state :=
  {| dr_pc := DrLoop; dr_inflight := dr_inflight d; dr_produceErrors := dr_produceErrors d;
     dr_periodBytes := 0; dr_periodRecs := 0;
     dr_totalBytes := dr_totalBytes d; dr_totalRecs := dr_totalRecs d;
     dr_lastLogTime := now; dr_next := dr_next d; dr_batches := dr_batches d;
     dr_trace := dr_trace d |}.

(** One attempt of the retry in a callback: it hands record [n] over once more. *)
Definition drain_attempt (n : nat) (retryRecord : kgo_Record) (answers : nat → error + Z)
    : RetryableFunc retry_world :=
  λ '(es, store),
    (match answers (length es) with inl e => Some e | inr _ => None end,
     (es ++ [ERetry n retryRecord], store)).

(** The callback of [Produce] for record [n], which is [src] at the source. *)
Definition drain_callback (j : drain_job) (a : produce_answers) (i n : nat) (src : kgo_Record)
    (d : drain_state) : outcome drain_state :=
  let labels := [Config.Source (ps_cfg (dj_ps j)); Config.Target (ps_cfg (dj_ps j))] in
  let finish errs effects :=
    {| dr_pc := dr_pc d; dr_inflight := delete i (dr_inflight d); dr_produceErrors := errs;
       dr_periodBytes := dr_periodBytes d; dr_periodRecs := dr_periodRecs d;
       dr_totalBytes := dr_totalBytes d; dr_totalRecs := dr_totalRecs d;
       dr_lastLogTime := dr_lastLogTime d; dr_next := dr_next d; dr_batches := dr_batches d;
       dr_trace := dr_trace d ++ effects |} in
  match first_answer a with
  | inr _ => Ok (finish (dr_produceErrors d) [EAcked n])
  | inl err =>
      WithLabelValues (ProduceErrors m) (labels ++ [dj_targetTopic j]) ≫= λ _,
      let attempts (retries : list effect) :=
        if (length retries =? 0)%nat then Ok ()
        else WithLabelValues (RetryAttempts m) (labels ++ ["produce"]) in
      match Retry out_of_range (during (retry_env a)) (ps_retryCfg (dj_ps j))
              (drain_attempt n (drain_retry j src) (retry_answers a)) ([], None) with
      | (Ok _, (retries, _)) =>
          attempts retries ≫= λ _, Ok (finish (dr_produceErrors d) (retries ++ [EAcked n]))
      | (Err _, (retries, _)) =>
          attempts retries ≫= λ _,
          WithLabelValues (RetryExhausted m) (labels ++ ["produce"]) ≫= λ _,
          let dlq :=
            match ps_dlq (dj_ps j) with
            | Some q =>
                EDLQ <$> (Send (dlq_answer a) q (dj_sourceTopic j) (dj_partition j)
                            (r_Offset src) (r_Key src) (r_Value src) (r_Headers src)
                            (error_text a)).1
            | None => []
            end in
          Ok (finish (i64 (dr_produceErrors d + 1)) ((retries ++ dlq) ++ [EFailed n]))
      | (Panic why, _) => Panic why
      end
  end.

Inductive drain_event :=
  | DvBatch (b : list (option kgo_Record))   (* [DrainBatch] returned [(b, true)] *)
  | DvStop                                   (* ... [false], or [ctx.Err() != nil] *)
  | DvProduce                                (* one turn of the range loop *)
  | DvLog (now : Z)                          (* the end of an iteration *)
  | DvCallback (i : nat) (a : produce_answers)
  | DvInflightZero                           (* [inflight.Wait()] returns *)
  | DvFinish.                                (* the final flush, then return *)

Definition drain_step (j : drain_job) (e : drain_event) (d : drain_state)
    : option (outcome drain_state) :=
  match e, dr_pc d with
  | DvBatch b, DrLoop =>
      Some (Ok (if (length b =? 0)%nat then at_dpc DrWait d else take_batch b d))
  | DvStop, DrLoop => Some (Ok (at_dpc DrWait d))
  | DvProduce, DrProduce (Some r :: batch) => Some (Ok (drain_produce j batch r d))
  | DvProduce, DrProduce (None :: batch) => Some (Panic "nil pointer dereference")
  | DvLog now, DrProduce [] =>
      Some (if 10 * Second <? Since now (dr_lastLogTime d) then
              drain_metrics j ≫= λ _, Ok (reset_period now d)
            else Ok (at_dpc DrLoop d))
  | DvCallback i a, _ =>
      match dr_inflight d !! i with
      | Some (PRecord n src _) => Some (drain_callback j a i n src d)
      | _ => None
      end
  | DvInflightZero, DrWait =>
      if (length (dr_inflight d) =? 0)%nat then Some (Ok (at_dpc DrFinal d)) else None
  | DvFinish, DrFinal =>
      Some (if 0 <? dr_periodRecs d then drain_metrics j ≫= λ _, Ok (at_dpc DrReturned d)
            else Ok (at_dpc DrReturned d))
  | _, _ => None
  end.

Inductive drain_steps (j : drain_job) (d d' : drain_state) : Prop :=
  | drain_steps_intro e : drain_step j e d = Some (Ok d') → drain_steps j d d'.

Definition drain_reachable (j : drain_job) (now : Z) (d : drain_state) : Prop :=
  rtc (drain_steps j) (init_drain now) d.

(** ** What the drainer produces *)

(** The records handed to the producer, in order, each when it is first: what a
    callback hands over again is an [ERetry]. *)
Definition produced (tr : list effect) : list kgo_Record :=
  omap (λ e, match e with EProduce _ r => Some r | _ => None end) tr.

Lemma produced_app tr tr' : produced (tr ++ tr') = produced tr ++ produced tr'.
Proof. apply omap_app. Qed.

(** What is left of the batch at hand. *)
Definition batch_rest (pc : drain_loop_pc) : list (option kgo_Record) :=
  match pc with DrProduce b => b | _ => [] end.

(** Every retry in the trace comes after the first hand-over of its record, and
    repeats it without the timestamp. *)
Definition retries_ok (j : drain_job) (rs : list kgo_Record) (tr : list effect) : Prop :=
  ∀ pre n r' post, tr = pre ++ ERetry n r' :: post →
    ∃ src, rs !! n = Some src ∧ r' = drain_retry j src ∧ EProduce n (drain_target j src) ∈ pre.

(** The records produced so far, [rs], are numbered from zero. *)
Definition numbered_from (j : drain_job) (rs : list kgo_Record) (d : drain_state) : Prop :=
  dr_next d = length rs ∧
  (∀ n src, rs !! n = Some src → EProduce n (drain_target j src) ∈ dr_trace d) ∧
  (∀ n src t, PRecord n src t ∈ dr_inflight d → rs !! n = Some src) ∧
  retries_ok j rs (dr_trace d).

Definition drain_inv (j : drain_job) (d : drain_state) : Prop :=
  (∃ rs, concat (dr_batches d) = (Some <$> rs) ++ batch_rest (dr_pc d) ∧
         produced (dr_trace d) = drain_target j <$> rs ∧
         dr_totalRecs d = i64 (Z.of_nat (length rs)) ∧ numbered_from j rs d) ∧
  accounted (dr_trace d) (dr_inflight d) ∧
  (dr_pc d = DrFinal ∨ dr_pc d = DrReturned → dr_inflight d = []).

Lemma drain_inv_init j now : drain_inv j (init_drain now).
Proof.
  split; [|split; [by intros n r H%elem_of_nil|done]]. exists []. split_and!; try done.
  split_and!; simpl; [done|done|by intros n src t ?%elem_of_nil|].
  intros pre n r post H. by apply app_cons_not_nil in H.
Qed.

(** Steps that only move the drainer. *)
Lemma drain_inv_move j d d' :
  concat (dr_batches d') = concat (dr_batches d) →
  batch_rest (dr_pc d') = batch_rest (dr_pc d) → dr_trace d' = dr_trace d →
  dr_totalRecs d' = dr_totalRecs d → dr_inflight d' = dr_inflight d → dr_next d' = dr_next d →
  (dr_pc d' = DrFinal ∨ dr_pc d' = DrReturned → dr_inflight d = []) →
  drain_inv j d → drain_inv j d'.
Proof.
  intros Hb Hr Ht Hn Hi Hx Hpc (Hrs & Hacc & _). unfold drain_inv, numbered_from.
  rewrite Hb, Hr, Ht, Hn, Hi, Hx. by split_and!.
Qed.

Lemma retries_ok_app j rs rs' tr es :
  (∀ n r, ERetry n r ∈ es → ∃ src, (rs ++ rs') !! n = Some src ∧ r = drain_retry j src ∧
     EProduce n (drain_target j src) ∈ tr) →
  retries_ok j rs tr → retries_ok j (rs ++ rs') (tr ++ es).
Proof.
  intros Hes Htr pre n r post Heq. apply app_eq_inv in Heq as [(k & Ht & Hk)|(k & Hpre & Hk)].
  - destruct k as [|e k]; simpl in Hk.
    + rewrite app_nil_r in Ht. subst pre. destruct (Hes n r) as (src & ? & ? & ?); [|by exists src].
      rewrite <- Hk. by left.
    + injection Hk as <- _. destruct (Htr pre n r k Ht) as (src & Hl & ? & ?).
      exists src. split; [|done]. by apply lookup_app_l_Some.
  - destruct (Hes n r) as (src & ? & ? & ?).
    { rewrite Hk. apply elem_of_app. right. by left. }
    exists src. split_and!; try done. rewrite Hpre. apply elem_of_app. by left.
Qed.

Lemma drain_inv_produce j r batch d :
  drain_inv j d → dr_pc d = DrProduce (Some r :: batch) →
  drain_inv j (drain_produce j batch r d).
Proof.
  intros ((rs & Hb & Hp & Hn & Hx & Hall & Hin & Hre) & Hacc & _) Hpc. rewrite Hpc in Hb.
  split; [exists (rs ++ [r])|split]; simpl.
  - rewrite fmap_app, <- app_assoc. split; [done|]. split; [|split].
    + by rewrite produced_app, Hp, fmap_app.
    + rewrite Hn, sint_add_l, length_app. f_equal. simpl. lia.
    + split_and!; simpl.
      * rewrite Hx, length_app. simpl. lia.
      * intros n src Hl. apply elem_of_app. apply lookup_app_Some in Hl as [Hl|[Hge Hl]];
          [left; by apply Hall|right]. rewrite Hx.
        apply list_lookup_singleton_Some in Hl as [Hz <-].
        replace n with (length rs) by lia. by left.
      * intros n src t [H|H]%elem_of_app; [apply lookup_app_l_Some; by eapply Hin|].
        apply list_elem_of_singleton in H as [= -> -> _]. rewrite Hx. by apply list_lookup_middle.
      * apply retries_ok_app; [|done]. by intros n r' ?%list_elem_of_singleton.
  - intros n r' [H|H]%elem_of_app.
    + destruct (Hacc n r' H) as [Ha|[Ha|(src & t & Ha)]].
      * left. apply elem_of_app. by left.
      * right. left. apply elem_of_app. by left.
      * right. right. exists src, t. apply elem_of_app. by left.
    + apply list_elem_of_singleton in H as [= -> ->]. right. right.
      do 2 eexists. apply elem_of_app. right. by apply list_elem_of_singleton.
  - by intros [|].
Qed.

(** A callback only settles its record, which it may have handed over again. *)
Lemma drain_callback_done j a i n src d d' :
  drain_callback j a i n src d = Ok d' →
  dr_pc d' = dr_pc d ∧ dr_batches d' = dr_batches d ∧ dr_totalRecs d' = dr_totalRecs d ∧
  dr_periodRecs d' = dr_periodRecs d ∧ dr_inflight d' = delete i (dr_inflight d) ∧
  dr_next d' = dr_next d ∧
  ∃ dlq last, Forall (aside n (drain_retry j src)) dlq ∧ (last = EAcked n ∨ last = EFailed n) ∧
    dr_trace d' = dr_trace d ++ dlq ++ [last].
Proof.
  unfold drain_callback. destruct (first_answer a) as [err|off].
  2:{ intros [= <-]. do 6 (split; [done|]). exists [], (EAcked n). split; [done|]. split; [by left|done]. }
  intros (u & _ & H)%bind_ok.
  opose proof (retries_aside out_of_range (ps_retryCfg (dj_ps j)) (retry_env a) n (drain_retry j src)
    (drain_attempt n (drain_retry j src) (retry_answers a)) None _) as Hre.
  { intros es store. by do 2 eexists. }
  destruct (Retry _ _ _ _ _) as [[u'|err'|why] [k store]]; cbn [snd fst] in Hre; [| |done].
  - apply bind_ok in H as (u2 & _ & [= <-]). do 6 (split; [done|]).
    exists k, (EAcked n). split; [done|]. split; [by left|done].
  - apply bind_ok in H as (u2 & _ & H). apply bind_ok in H as (u3 & _ & [= <-]).
    do 6 (split; [done|]). eexists _, (EFailed n). split; [|split; [by right|reflexivity]].
    apply Forall_app. split; [done|].
    destruct (ps_dlq (dj_ps j)); [|constructor]. apply Forall_fmap, Forall_true. intros r.
    right. by exists r.
Qed.

Lemma produced_aside n rec dlq : Forall (aside n rec) dlq → produced dlq = [].
Proof. induction 1 as [|e dlq [->|[r ->]] _ IH]; [done|exact IH..]. Qed.

(** What a callback does to the numbering. *)
Lemma numbered_from_callback j a i n src t d d' rs :
  drain_callback j a i n src d = Ok d' → dr_inflight d !! i = Some (PRecord n src t) →
  numbered_from j rs d → numbered_from j rs d'.
Proof.
  intros H Hi (Hx & Hall & Hin & Hre).
  destruct (drain_callback_done _ _ _ _ _ _ _ H)
    as (_ & _ & _ & _ & Hif & Hn & dlq & last & Hdlq & Hlast & Htr).
  split_and!; rewrite ?Hn, ?Htr, ?Hif.
  - done.
  - intros k src' Hk. apply elem_of_app. left. by apply Hall.
  - intros k src' t' Hk. eapply Hin, elem_of_submseteq; [exact Hk|].
    apply sublist_submseteq, sublist_delete.
  - rewrite <- (app_nil_r rs). apply retries_ok_app; [|done]. intros k r Hk. rewrite app_nil_r.
    apply elem_of_app in Hk as [Hk|Hk%list_elem_of_singleton]; [|destruct Hlast; congruence].
    rewrite Forall_forall in Hdlq. destruct (Hdlq _ Hk) as [[= -> ->]|[? ?]]; [|done].
    apply list_elem_of_lookup_2 in Hi. pose proof (Hin _ _ _ Hi) as Hl. exists src.
    split_and!; [done|done|by apply Hall].
Qed.

Lemma drain_step_inv j e d d' : drain_step j e d = Some (Ok d') → drain_inv j d → drain_inv j d'.
Proof.
  intros H Hinv. destruct e as [b| | |now|i a| |]; simpl in H.
  5: destruct (dr_inflight d !! i) as [[n src t|os]|] eqn:Hi; [|done..].
  - destruct (dr_pc d) eqn:Hpc; try done. injection H as <-.
    case_match; [by apply drain_inv_move with d; simpl; rewrite ?Hpc; try done; intros [|]|].
    destruct Hinv as ((rs & Hb & Hp & Hn & Hx) & Hacc & _). rewrite Hpc in Hb.
    split; [|split; [done|by intros [|]]]. exists rs. simpl in *.
    by rewrite concat_app, Hb, app_nil_r, concat_cons, app_nil_r.
  - destruct (dr_pc d) eqn:Hpc; try done. injection H as <-.
    apply drain_inv_move with d; simpl; rewrite ?Hpc; try done. by intros [|].
  - destruct (dr_pc d) as [|[|[r|] batch]| | |] eqn:Hpc; try done. injection H as <-.
    by apply drain_inv_produce.
  - destruct (dr_pc d) as [|[|? ?]| | |] eqn:Hpc; try done. injection H as H. case_match.
    + apply bind_ok in H as (u & _ & [= <-]).
      apply drain_inv_move with d; simpl; rewrite ?Hpc; try done. by intros [|].
    + injection H as <-. apply drain_inv_move with d; simpl; rewrite ?Hpc; try done. by intros [|].
  - injection H as H. destruct Hinv as ((rs & Hb & Hp & Hn & Hx) & Hacc & Hz).
    pose proof (numbered_from_callback _ _ _ _ _ _ _ _ _ H Hi Hx) as Hx'.
    destruct (drain_callback_done _ _ _ _ _ _ _ H)
      as (Hpc & Hbs & Htot & _ & Hif & _ & dlq & last & Hdlq & Hlast & Htr).
    unfold drain_inv. rewrite Hpc, Hbs, Htot. split_and!.
    + exists rs. split; [done|]. split; [|done]. rewrite Htr.
      rewrite !produced_app, (produced_aside n (drain_retry j src) dlq), Hp by done.
      by destruct Hlast as [-> | ->]; rewrite !app_nil_r.
    + rewrite Hif, Htr.
      rewrite <- (app_nil_r (delete i _)). apply accounted_settle with n src t; [|done..].
      intros k r' Hin. by apply (aside_quiet n (drain_retry j src) dlq (EProduce k r')) in Hin.
    + rewrite Hif. intros Hz'%Hz. by rewrite Hz' in Hi.
  - destruct (dr_pc d) eqn:Hpc; try done. case_match eqn:Hl; [|done]. injection H as <-.
    apply drain_inv_move with d; simpl; rewrite ?Hpc; try done. intros _.
    by apply nil_length_inv, Nat.eqb_eq.
  - destruct (dr_pc d) eqn:Hpc; try done. injection H as H.
    assert (d' = at_dpc DrReturned d) as ->.
    { case_match; [by apply bind_ok in H as (u & _ & [= <-])|by injection H as <-]. }
    apply drain_inv_move with d; simpl; rewrite ?Hpc; try done. intros _.
    apply Hinv. by left.
Qed.

Lemma drain_reachable_inv j now d : drain_reachable j now d → drain_inv j d.
Proof.
  apply rtc_invariant; [|apply drain_inv_init]. intros x y Hx [e He]. by eapply drain_step_inv.
Qed.

(** What the drainer has produced of the records that the ring buffer delivers in
    order: a run of the log from its start. *)
Lemma drained_run j d (log : Z → option kgo_Record) start n (delivered : list (option kgo_Record)) :
  (∀ o r, log o = Some r → r_Offset r = o) → 0 ≤ n →
  drain_inv j d → delivered = log <$> seqZ start n →
  concat (dr_batches d) `prefix_of` delivered →
  ∃ rs, produced (dr_trace d) = drain_target j <$> rs ∧
    concat (dr_batches d) = (Some <$> rs) ++ batch_rest (dr_pc d) ∧
    r_Offset <$> rs = seqZ start (Z.of_nat (length rs)) ∧
    Forall (λ r, log (r_Offset r) = Some r) rs ∧ retries_ok j rs (dr_trace d).
Proof.
  intros Hoff Hn ((rs & Hb & Hp & _ & _ & _ & _ & Hre) & _) -> [tl Htl].
  exists rs. split; [done|]. split; [done|].
  assert (∀ i r, rs !! i = Some r → log (start + Z.of_nat i) = Some r) as Hlog.
  { intros i r Hr.
    assert (((Some <$> rs) ++ batch_rest (dr_pc d) ++ tl) !! i = Some (Some r)) as Hi.
    { rewrite lookup_app_l by (rewrite length_fmap; by eapply lookup_lt_Some).
      by rewrite list_lookup_fmap, Hr. }
    rewrite app_assoc, <- Hb, <- Htl, list_lookup_fmap in Hi.
    apply fmap_Some in Hi as (o & [-> _]%lookup_seqZ & <-). done. }
  split.
  - apply list_eq. intros i. rewrite list_lookup_fmap. destruct (rs !! i) as [r|] eqn:Hr; simpl.
    + rewrite (Hoff _ _ (Hlog i r Hr)). symmetry. apply lookup_seqZ. split; [done|].
      apply lookup_lt_Some in Hr. lia.
    + symmetry. apply lookup_ge_None. rewrite length_seqZ. apply lookup_ge_None in Hr. lia.
  - split; [|done]. apply Forall_lookup. intros i r Hr. pose proof (Hlog i r Hr) as Hl.
    by rewrite (Hoff _ _ Hl).
Qed.

(** C1. Catch-up keeps the order of a partition end to end, but for retries. Let the
    fetchers of the segments publish their parts of the log, in any interleaving
    with the drainer, and let the drainer produce the batches it takes, in any
    interleaving with its callbacks. If the range fits the ring buffer, or it is
    so short that a single fetcher is started and has no gap, then the records
    the drainer hands to the producer are those of consecutive offsets from the
    start of the range, once each and in order, with key, value, headers and
    timestamp as at the source. Whatever else is handed over comes from the retries
    of callbacks: each repeats, later and without its timestamp, a record that has
    been handed over before ([retries_ok]). So the order and the timestamps at the
    target are only those of the source for records that do not fail at first. When
    the drainer returns, each record has been acknowledged or has failed after its
    retries; and if nothing failed, nothing was cancelled and the range has no gap,
    then the whole range has been handed over once the buffer is drained. *)
Theorem catch_up_in_order ps start last log maxBatch r s j now d :
  2 ≤ ps_workers ps → 0 ≤ start → start < last → last < 2 ^ 63 →
  0 < ps_ringBufferCapacity ps < 2 ^ 63 →
  (∀ o r, log o = Some r → start ≤ o < last ∧ r_Offset r = o) →
  keeps_order ps start last log →
  NewOrderedRingBuffer (ring_capacity ps start last) start = Ok r →
  rtc (ring_step maxBatch) (start_pipeline r (segment_load log <$> segments ps start last)) s →
  drain_reachable j now d → dr_batches d `prefix_of` out s →
  ∃ rs, produced (dr_trace d) = drain_target j <$> rs ∧
    r_Offset <$> rs = seqZ start (Z.of_nat (length rs)) ∧
    Forall (λ r, log (r_Offset r) = Some r) rs ∧
    retries_ok j rs (dr_trace d) ∧
    (dr_pc d = DrReturned → settled (dr_trace d)) ∧
    (dr_batches d = out s → batch_rest (dr_pc d) = [] →
     drainer s = DrainFalse → fetcherFailed s = false → ctxDone s = false →
     (∀ o, start ≤ o < last → is_Some (log o)) → Z.of_nat (length rs) = last - start).
Proof.
  intros Hw Hs Hsl Hl Hcap Hlog Hkeep Hr Hrtc Hd [tl Htl].
  pose proof (segments_workload ps start last Hw Hs Hsl Hl log Hcap Hlog Hkeep) as Hwl.
  pose proof (drain_reachable_inv j now d Hd) as Hinv.
  destruct (out_prefix _ _ _ _ _ _ _ Hwl r s Hr Hrtc) as (n & Hn & Hout & _).
  destruct (drained_run j d log start n (concat (out s))) as (rs & Hp & Hb & Hoff & Hall & Hre);
    [by intros o r' [_ ?]%Hlog|done|done|done|by rewrite Htl, concat_app; eexists|].
  exists rs. do 4 (split; [done|]). split.
  - intros Hpc k r' Hk. destruct Hinv as (_ & Hacc & Hz).
    destruct (Hacc k r' Hk) as [|[|(src & t & Hin)]]; [by left|by right|].
    rewrite Hz in Hin by auto. by apply elem_of_nil in Hin.
  - intros Heq Hrest Hend Hf Hc Hdense.
    destruct (out_complete _ _ _ _ _ _ _ Hwl r s Hr Hrtc Hend Hf Hc) as (n' & Hn' & Hout' & _ & Hfull).
    rewrite <- Heq, Hb, Hrest, app_nil_r in Hout'. apply (f_equal length) in Hout'.
    rewrite !length_fmap, length_seqZ in Hout'. rewrite <- (Hfull Hdense). lia.
Qed.
End drain.

(** ** The flush of the record counts *)
Section flush.
Context {OS : Outside} `{PrometheusLaws}.

Lemma drain_metrics_panics j : ∃ why, drain_metrics New j = Panic why.
Proof.
  unfold drain_metrics.
  destruct (wrong_arity (RecordsReplicated New) [Config.Source (ps_cfg (dj_ps j));
    Config.Target (ps_cfg (dj_ps j)); dj_targetTopic j; pretty (dj_partition j)]) as [why ->];
    [done|]. by exists why.
Qed.

Lemma period_step out j e d d' :
  drain_step New out j e d = Some (Ok d') →
  dr_periodRecs d = dr_totalRecs d ∧ (dr_pc d = DrReturned → dr_periodRecs d ≤ 0) →
  dr_periodRecs d' = dr_totalRecs d' ∧ (dr_pc d' = DrReturned → dr_periodRecs d' ≤ 0).
Proof.
  destruct (drain_metrics_panics j) as [why Hw].
  intros Hs [Heq Hret]. destruct e as [b| | |now|i a| |]; simpl in Hs.
  5: { destruct (dr_inflight d !! i) as [[n src t|os]|]; [|done..]. injection Hs as Hs.
       destruct (drain_callback_done _ _ _ _ _ _ _ _ _ Hs) as (-> & _ & -> & -> & _). done. }
  all: destruct (dr_pc d) as [|[|[r|] b']| | |] eqn:Hpc; try done; rewrite ?Hw in Hs.
  - injection Hs as <-. by case_match.
  - by injection Hs as <-.
  - injection Hs as <-. simpl. by rewrite Heq.
  - case_match; [done|]. by injection Hs as <-.
  - case_match; [|done]. by injection Hs as <-.
  - case_match eqn:Hp; [done|]. injection Hs as <-. split; [done|]. intros _. by b2p.
Qed.

(** C19. The catch-up of a partition does not end: once a single record has been
    drained, the drainer never returns, and the flush that precedes its return
    panics, because the two vectors of the record counts are declared with three
    labels and are given four values. *)
Theorem drain_flush_panics out j now d :
  drain_reachable New out j now d →
  0 < Z.of_nat (length (produced (dr_trace d))) < 2 ^ 63 →
  dr_pc d ≠ DrReturned ∧
  (dr_pc d = DrFinal → ∃ why, drain_step New out j DvFinish d = Some (Panic why)).
Proof.
  intros Hd Hlen. destruct (drain_reachable_inv _ _ _ _ _ Hd) as ((rs & _ & Hp & Htot & _) & _).
  rewrite Hp, length_fmap in Hlen. rewrite sint_small in Htot by (done || unfold in_s; lia).
  assert (dr_periodRecs d = dr_totalRecs d ∧ (dr_pc d = DrReturned → dr_periodRecs d ≤ 0))
    as [Heq Hret].
  { apply (rtc_invariant (drain_steps New out j)
      (λ d, dr_periodRecs d = dr_totalRecs d ∧ (dr_pc d = DrReturned → dr_periodRecs d ≤ 0)))
      with (init_drain now); [|done..]. intros x y Hx [e He]. by eapply period_step. }
  split; [intros Hpc; specialize (Hret Hpc); lia|]. intros Hpc. simpl. rewrite Hpc.
  rewrite (proj2 (Z.ltb_lt _ _)) by lia. destruct (drain_metrics_panics j) as [why ->].
  by exists why.
Qed.
End flush.

(** ** All partitions of a topic *)
Section multi.
Context {OS : Outside}.

Definition catchup_opts (tgtOpts : list kgo_Opt) : list kgo_Opt :=
  tgtOpts ++
  [kgo_ProducerBatchMaxBytes 1048576; kgo_ProducerLinger (5 * Millisecond);
   kgo_ManualPartitioner; kgo_RequireAllISRAcks; kgo_ProducerBatchCompression "lz4";
   kgo_MaxProduceRequestsInflightPerBroker 20; kgo_MaxBufferedRecords 500000].

Definition with_totals (ps : ParallelSource) (bytes records : Z) : ParallelSource :=
  {| ps_cfg := ps_cfg ps; ps_srcCfg := ps_srcCfg ps; ps_tgtCfg := ps_tgtCfg ps;
     ps_policy := ps_policy ps; ps_workers := ps_workers ps;
     ps_fetchMaxPartBytes := ps_fetchMaxPartBytes ps;
     ps_ringBufferCapacity := ps_ringBufferCapacity ps; ps_totalBytes := bytes;
     ps_totalRecords := records; ps_dlq := ps_dlq ps; ps_retryCfg := ps_retryCfg ps;
     ps_circuitBreaker := ps_circuitBreaker ps |}.

(** The partitions whose pipeline is run; the others return at once. *)
Definition pipelines (partitionLags : gmap Z (Z * Z)) : list (Z * (Z * Z)) :=
  filter (λ p, 0 < i64 (p.2.2 - p.2.1)) (map_to_list partitionLags).

(** How the drainer of a partition ends: the panic that ends the process (see
    [drain_flush_panics]), or what it adds to the two counters. *)
Definition drain_end : Type := string + (Z * Z).

(** The two counters after the drainers of [jobs]. *)
Fixpoint drain_totals (drained : Z * (Z * Z) → drain_end) (jobs : list (Z * (Z * Z)))
    (totals : Z * Z) : outcome (Z * Z) :=
  match jobs with
  | [] => Ok totals
  | p :: jobs =>
      match drained p with
      | inl why => Panic why
      | inr (bytes, records) =>
          drain_totals drained jobs (i64 (totals.1 + bytes), i64 (totals.2 + records))
      end
  end.

Definition CatchUpMultiPartition (now : Z) (refusal : option error)
    (drained : Z * (Z * Z) → drain_end) (ps : ParallelSource) (partitionLags : gmap Z (Z * Z))
    (w : clients OS) : outcome (list (Z * (Z * Z))) * ParallelSource * clients OS :=
  if (size partitionLags =? 0)%nat then (Ok [], ps, w)
  else
    match wrap_err "build target opts: %w" [] (BuildClientOpts now (ps_tgtCfg ps)) with
    | Err err => (Err err, ps, w)
    | Panic why => (Panic why, ps, w)
    | Ok tgtOpts =>
        match NewClient refusal (catchup_opts tgtOpts) w with
        | (Err err, w) => (Err (Wrapf "create shared producer: %w" [] err), ps, w)
        | (Panic why, w) => (Panic why, ps, w)
        | (Ok producer, w) =>
            let jobs := pipelines partitionLags in
            match drain_totals drained jobs (0, 0) with
            | Ok (bytes, records) => (Ok jobs, with_totals ps bytes records, CloseClient producer w)
            | Err err => (Err err, ps, w)
            | Panic why => (Panic why, ps, w)
            end
        end
    end.

Lemma drain_totals_panics drained jobs totals p why :
  p ∈ jobs → drained p = inl why → ∃ why', drain_totals drained jobs totals = Panic why'.
Proof.
  intros Hin Hp. revert totals. induction jobs as [|j jobs IH]; intros totals; simpl.
  { by apply elem_of_nil in Hin. }
  apply elem_of_cons in Hin as [<-|Hin]; [rewrite Hp; by exists why|].
  destruct (drained j) as [why'|[b r]]; [by exists why'|by apply IH].
Qed.

Definition CatchUp (now : Z) (refusal : option error) (drained : Z * (Z * Z) → drain_end)
    (ps : ParallelSource) (partition startOffset endOffset : Z) (w : clients OS)
    : outcome (list (Z * (Z * Z))) * ParallelSource * clients OS :=
  CatchUpMultiPartition now refusal drained ps {[partition := (startOffset, endOffset)]} w.

(** ** Lag *)

Record ListedOffset := { lo_Topic : string; lo_Partition : Z; lo_Offset : Z }.

(** The committed offset of a partition: the last entry for it, zero without one. *)
Definition committed_of (offsets : list GroupOffset) (topic : string) (partition : Z) : Z :=
  foldl (λ c o, if bool_decide (g_Topic o = topic ∧ g_Partition o = partition)
                then g_At o else c) 0 offsets.

Definition hwm_of (ends : list ListedOffset) (topic : string) (partition : Z) : Z :=
  foldl (λ h o, if bool_decide (lo_Topic o = topic ∧ lo_Partition o = partition)
                then lo_Offset o else h) 0 ends.

(** What the two requests of a lag query answer. *)
Record lag_answers := {
  la_offsets : error + list GroupOffset;     (* [FetchOffsets] *)
  la_ends : error + list ListedOffset;       (* [ListEndOffsets] *)
}.

Definition with_admin {A} (now : Z) (refusal : option error) (srcCfg : ClusterConfig)
    (k : outcome A) (w : clients OS) : outcome A * clients OS :=
  match BuildClientOpts now srcCfg with
  | Err err => (Err err, w)
  | Panic why => (Panic why, w)
  | Ok opts =>
      match NewClient refusal opts w with
      | (Err err, w) => (Err err, w)
      | (Panic why, w) => (Panic why, w)
      | (Ok client, w) => (k, CloseClient client w)
      end
  end.

Definition partition_lag (a : lag_answers) (topic : string) (partition : Z)
    : outcome (Z * Z) :=
  match la_offsets a with
  | inl err => Err (Wrapf "fetch offsets: %w" [] err)
  | inr offsets =>
      match la_ends a with
      | inl err => Err (Wrapf "list end offsets: %w" [] err)
      | inr ends => Ok (committed_of offsets topic partition, hwm_of ends topic partition)
      end
  end.

Definition GetPartitionLag (now : Z) (refusal : option error) (a : lag_answers)
    (srcCfg : ClusterConfig) (topic : string) (partition : Z) (w : clients OS)
    : outcome (Z * Z) * clients OS :=
  with_admin now refusal srcCfg (partition_lag a topic partition) w.

Definition add_lag (offsets : list GroupOffset) (result : gmap string (gmap Z (Z * Z)))
    (o : ListedOffset) : gmap string (gmap Z (Z * Z)) :=
  let committed := committed_of offsets (lo_Topic o) (lo_Partition o) in
  <[lo_Topic o := <[lo_Partition o := (committed, lo_Offset o)]>
                    (default ∅ (result !! lo_Topic o))]> result.

Definition all_lags (a : lag_answers) : outcome (gmap string (gmap Z (Z * Z))) :=
  match la_offsets a with
  | inl err => Err (Wrapf "fetch offsets: %w" [] err)
  | inr offsets =>
      match la_ends a with
      | inl err => Err (Wrapf "list end offsets: %w" [] err)
      | inr ends => Ok (foldl (add_lag offsets) ∅ ends)
      end
  end.

Definition GetAllPartitionLags (now : Z) (refusal : option error) (a : lag_answers)
    (srcCfg : ClusterConfig) (w : clients OS)
    : outcome (gmap string (gmap Z (Z * Z))) * clients OS :=
  with_admin now refusal srcCfg (all_lags a) w.

Definition is_for (topic : string) (partition : Z) (o : ListedOffset) : Prop :=
  lo_Topic o = topic ∧ lo_Partition o = partition.

Lemma all_lags_lookup offsets ends topic partition :
  (foldl (add_lag offsets) ∅ ends !! topic) ≫= (λ ps, ps !! partition) =
  if decide (Exists (is_for topic partition) ends)
  then Some (committed_of offsets topic partition, hwm_of ends topic partition) else None.
Proof.
  induction ends as [|o ends IH] using rev_ind.
  { rewrite decide_False by (intros H; by apply Exists_nil in H). done. }
  unfold hwm_of. rewrite !foldl_app. cbn [foldl]. fold (hwm_of ends topic partition).
  set (m := foldl (add_lag offsets) ∅ ends) in *. unfold add_lag.
  assert (Exists (is_for topic partition) (ends ++ [o]) ↔
    Exists (is_for topic partition) ends ∨ is_for topic partition o) as Hex.
  { rewrite Exists_app, Exists_cons, Exists_nil. tauto. }
  case_bool_decide as Ho.
  - destruct Ho as [<- <-]. rewrite decide_True by (apply Hex; by right).
    rewrite lookup_insert_eq. simpl. by rewrite lookup_insert_eq.
  - destruct (decide (lo_Topic o = topic)) as [Ht|Ht].
    + rewrite Ht, lookup_insert_eq. simpl.
      rewrite lookup_insert_ne by (intros <-; by apply Ho).
      transitivity (m !! topic ≫= (λ ps, ps !! partition)); [by destruct (m !! topic)|].
      rewrite IH. apply decide_ext. rewrite Hex. unfold is_for. tauto.
    + rewrite lookup_insert_ne by done. rewrite IH. apply decide_ext.
      rewrite Hex. unfold is_for. tauto.
Qed.

(** Agreement of the two queries on one partition. *)
Definition lags_agree_on (a : lag_answers) (topic : string) (partition : Z)
    (all : outcome (gmap string (gmap Z (Z * Z)))) (one : outcome (Z * Z)) : Prop :=
  match all, one with
  | Ok m, Ok (c, h) =>
      ∃ ends, la_ends a = inr ends ∧
      (m !! topic ≫= λ ps, ps !! partition) =
        if decide (Exists (is_for topic partition) ends) then Some (c, h) else None
  | Err e, Err e' => e = e'
  | _, _ => False
  end.

Lemma hwm_unlisted ends topic partition :
  ¬ Exists (is_for topic partition) ends → hwm_of ends topic partition = 0.
Proof.
  unfold hwm_of. induction ends as [|o ends IH] using rev_ind; [done|].
  rewrite foldl_app, Exists_app, Exists_cons, Exists_nil. intros Hn. simpl.
  rewrite bool_decide_false; [apply IH|unfold is_for in Hn]; tauto.
Qed.

(** C20. The batch query agrees with the deprecated one. For the same answers of the
    cluster both fail, with the same error, or both succeed; then the map that
    [GetAllPartitionLags] returns holds, for a partition that the end offsets
    list, the pair that [GetPartitionLag] returns for it, and nothing for any
    other partition, for which [GetPartitionLag] reports a high watermark of
    zero. Neither panics, and neither leaves a client open. *)
Theorem lags_agree now refusal a srcCfg topic partition w :
  clients_wf w →
  let '(all, w1) := GetAllPartitionLags now refusal a srcCfg w in
  let '(one, w2) := GetPartitionLag now refusal a srcCfg topic partition w in
  lags_agree_on a topic partition all one ∧
  (∀ ends c h, la_ends a = inr ends → ¬ Exists (is_for topic partition) ends →
     one = Ok (c, h) → h = 0) ∧
  w1 = w2 ∧ ∀ i, is_open w1 i ↔ is_open w i.
Proof.
  intros Hw. unfold GetAllPartitionLags, GetPartitionLag, with_admin.
  destruct (BuildClientOpts now srcCfg) as [opts|e|why] eqn:Hb; [|done|].
  2:{ by apply BuildClientOpts_no_panic in Hb. }
  destruct refusal as [e|]; simpl; [done|].
  split; [|split; [|split; [done|intros i; exact (open_after_one w opts i Hw)]]];
    unfold all_lags, partition_lag; destruct (la_offsets a) as [e|offsets]; try done;
    destruct (la_ends a) as [e|ends] eqn:Hends; try done.
  - exists ends. split; [done|]. apply all_lags_lookup.
  - intros ends' c h [= <-] Hn [= _ <-]. by apply hwm_unlisted.
Qed.
End multi.

(** ** Examples *)

Fixpoint run_drain {OS : Outside} {P : Prometheus} (m : Metrics) (out : f64 → Z)
    (j : drain_job) (es : list drain_event) (d : drain_state) : option drain_state :=
  match es with
  | [] => Some d
  | e :: es => match drain_step m out j e d with
               | Some (Ok d) => run_drain m out j es d
               | _ => None
               end
  end.

Lemma run_drain_reachable {OS : Outside} {P : Prometheus} m out j es now d :
  run_drain m out j es (init_drain now) = Some d → drain_reachable m out j now d.
Proof.
  unfold drain_reachable. generalize (init_drain now). induction es as [|e es IH];
    simpl; intros d0 H; [injection H as ->; apply rtc_refl|].
  destruct (drain_step m out j e d0) as [[d1| |]|] eqn:He; try done.
  apply rtc_l with d1; [by exists e|by apply IH].
Qed.

Definition ex_log3 (o : Z) : option kgo_Record :=
  if (5 <=? o) && (o <? 8) then Some (ex_record o) else None.
Definition ex_ring3 : OrderedRingBuffer kgo_Record :=
  {| slots := replicate 4 emptySlot; capacity := 4; drainOffset := 5; mu := None; cond := [];
     closed := false |}.
Definition ex_start3 : pipeline kgo_Record :=
  start_pipeline ex_ring3 (segment_load ex_log3 <$> segments ex_parallel 5 8).
Definition ex_pipeline3 : pipeline kgo_Record :=
  default ex_start3
    (run 512 (replicate 18 (EvPut 0 0) ++ [EvReturn 0; EvClose; EvBroadcast] ++ replicate 29 EvDrain)
       ex_start3).

Definition ex_job : drain_job :=
  {| dj_ps := ex_parallel; dj_targetTopic := "west.orders"; dj_sourceTopic := "orders";
     dj_partition := 0 |}.
Definition ex_drain_run : list drain_event :=
  [DvBatch (Some ∘ ex_record <$> [5; 6; 7]); DvProduce; DvProduce;
   DvCallback 0 (ex_answers (inr 40)); DvProduce; DvLog 0; DvStop;
   DvCallback 1 (ex_answers (inl (Errorf "broker gone" []))); DvCallback 0 (ex_answers (inr 41));
   DvInflightZero].
Definition ex_drained : drain_state :=
  default (init_drain 0) (run_drain New (λ _, 0) ex_job ex_drain_run (init_drain 0)).

Lemma ex_drained_reachable : drain_reachable New (λ _, 0) ex_job 0 ex_drained.
Proof. apply (run_drain_reachable _ _ _ ex_drain_run). vm_compute. reflexivity. Qed.

Lemma drain_flush_panics_witness :
  dr_pc ex_drained = DrFinal ∧
  ∃ why, drain_step New (λ _, 0) ex_job DvFinish ex_drained = Some (Panic why).
Proof.
  split; [vm_compute; reflexivity|].
  apply (drain_flush_panics (λ _, 0) ex_job 0 ex_drained ex_drained_reachable).
  - vm_compute. by split.
  - vm_compute. reflexivity.
Defined.

Lemma catch_up_in_order_witness :
  produced (dr_trace ex_drained) = drain_target ex_job ∘ ex_record <$> [5; 6; 7] ∧
  ERetry 2 (drain_retry ex_job (ex_record 7)) ∈ dr_trace ex_drained ∧
  ∃ rs, produced (dr_trace ex_drained) = drain_target ex_job <$> rs ∧
    r_Offset <$> rs = seqZ 5 (Z.of_nat (length rs)) ∧ Z.of_nat (length rs) = 3.
Proof.
  split; [vm_compute; reflexivity|].
  split; [apply list_elem_of_lookup_2 with 4%nat; vm_compute; reflexivity|].
  destruct (catch_up_in_order New (λ _, 0) ex_parallel 5 8 ex_log3 512 ex_ring3 ex_pipeline3
    ex_job 0 ex_drained) as (rs & Hp & Hoff & _ & Hre & _ & Hlen).
  - vm_compute. discriminate.
  - lia.
  - lia.
  - lia.
  - vm_compute. by split.
  - intros o r. unfold ex_log3. destruct ((5 <=? o) && (o <? 8)) eqn:E; [|done].
    intros [= <-]. b2p. split; [lia|done].
  - left. vm_compute. discriminate.
  - reflexivity.
  - apply (run_rtc 512 (replicate 18 (EvPut 0 0) ++ [EvReturn 0; EvClose; EvBroadcast] ++ replicate 29 EvDrain)).
    vm_compute. reflexivity.
  - exact ex_drained_reachable.
  - exists []. vm_compute. reflexivity.
  - exists rs. split; [exact Hp|]. split; [exact Hoff|]. rewrite Hlen; [lia|..].
    + vm_compute. reflexivity.
    + vm_compute. reflexivity.
    + vm_compute. reflexivity.
    + vm_compute. reflexivity.
    + vm_compute. reflexivity.
    + intros o [H1 H2]. unfold ex_log3.
      rewrite (proj2 (Z.leb_le _ _) H1), (proj2 (Z.ltb_lt _ _) H2). by eexists.
Defined.

Lemma lags_agree_witness :
  let a := {| la_offsets := inr [{| g_Topic := "orders"; g_Partition := 0; g_At := 7 |}];
              la_ends := inr [{| lo_Topic := "orders"; lo_Partition := 0; lo_Offset := 90 |}] |} in
  match GetAllPartitionLags 0 None a (ex_cluster "w:9092") no_clients with
  | (Ok m, _) => (m !! "orders" ≫= λ ps, ps !! 0) = Some (7, 90)
  | _ => False
  end.
Proof.
  intros a.
  assert (clients_wf no_clients) as Hw by (intros h Hh; by apply elem_of_empty in Hh).
  pose proof (lags_agree 0 None a (ex_cluster "w:9092") "orders" 0 no_clients Hw) as H.
  assert (GetPartitionLag 0 None a (ex_cluster "w:9092") "orders" 0 no_clients =
    (Ok (7, 90), snd (GetPartitionLag 0 None a (ex_cluster "w:9092") "orders" 0 no_clients)))
    as Hone by (vm_compute; reflexivity).
  rewrite Hone in H. destruct (GetAllPartitionLags _ _ _ _ _) as [[m|e|why] w1];
    [|by destruct H as [[] _]..].
  destruct H as [(ends & [= <-] & ->) _]. reflexivity.
Defined.
