(* ===== verification/Engine.v ===== *)
(** * internal/mirror/engine.go and cmd/gomm2/main.go: the engine

    The engine owns the components of every enabled flow. Components that Go
    shares by pointer are entries of the engine's lists: the source and the sync
    store of the k-th enabled flow are entry k of their lists, and the two maps by
    flow key hold positions. A dead letter queue is held by value by its source
    and by the engine; both copies name the same client, and closing it twice is
    closing it once.

    What clusters and clients answer during one run is an argument: one record of
    answers per replication and phase. While the components run they open and
    close clients only in refreshes, which leave none open; the state in which
    [Shutdown] finds them is the one their [Start] left, apart from the error
    counters of the sources, which are an argument. *)
From Stdlib Require Import Ascii.
From S2P Require Import Prelude GoStrings Filter Retry CircuitBreaker Types Policy SyncStore.
From S2P Require Import Config ClientOpts Kgo SyncIO Dlq Heartbeats Translator Checkpoints.
From S2P Require Import Metrics Admin SourceLoop Discovery Parallel CatchUp.

Local Open Scope Z_scope.

(** ** Calls that use clients and may fail *)
Section act.
Context {OS : Outside}.

Definition act (A : Type) : Type := clients OS → outcome A * clients OS.

#[global] Instance act_ret : MRet act := λ A a w, (Ok a, w).
#[global] Instance act_bind : MBind act := λ A B f x w,
  match x w with
  | (Ok a, w) => f a w
  | (Err e, w) => (Err e, w)
  | (Panic why, w) => (Panic why, w)
  end.

Definition lift {A} (x : outcome A) : act A := λ w, (x, w).
Definition wrap {A} (fmt : string) (args : list string) (x : act A) : act A :=
  λ w, let '(r, w) := x w in (wrap_err fmt args r, w).
End act.

Inductive log_level := LevelDebug | LevelInfo | LevelWarn | LevelError.

Definition parseLogLevel (level : string) : log_level :=
  if String.eqb level "debug" then LevelDebug
  else if String.eqb level "warn" then LevelWarn
  else if String.eqb level "error" then LevelError
  else LevelInfo.

Section engine.
Context {OS : Outside} {RE : RegexpEngine}.

Record Engine := {
  e_cfg : Config.Config;
  e_level : log_level;
  e_console : bool;
  e_sources : list SourceReplicator;
  e_sourcesByFlow : gmap string nat;
  e_heartbeats : list HeartbeatEmitter;
  e_checkpoints : list CheckpointEmitter;
  e_topicDiscoveries : list TopicDiscovery;
  e_stores : list SyncStore;
  e_syncStores : gmap string nat;
  e_syncReaders : list SyncReader;
  e_syncWriters : list SyncWriter;
  e_dlqs : list DLQ;
  e_httpServer : bool;
  e_running : bool;
}.

Definition flow_key (r : ReplicationConfig) : string := Source r +:+ "->" +:+ Target r.

Definition empty_engine (cfg : Config.Config) : Engine := {|
  e_cfg := cfg; e_level := parseLogLevel (Level (Logging cfg));
  e_console := String.eqb (Format (Logging cfg)) "console";
  e_sources := []; e_sourcesByFlow := ∅; e_heartbeats := []; e_checkpoints := [];
  e_topicDiscoveries := []; e_stores := []; e_syncStores := ∅; e_syncReaders := [];
  e_syncWriters := []; e_dlqs := []; e_httpServer := false; e_running := false |}.

(** ** NewEngine *)

(** The components of one flow. *)
Record flow_parts := {
  fp_source : SourceReplicator;
  fp_dlq : option DLQ;
  fp_heartbeat : HeartbeatEmitter;
  fp_checkpoint : CheckpointEmitter;
  fp_discovery : TopicDiscovery;
}.

(** The answers to the two constructions of a queue. *)
Record flow_env := { fe_now : Z; fe_refusal1 : option error; fe_refusal2 : option error }.

Definition new_flow (fe : flow_env) (cfg : Config.Config) (r : ReplicationConfig)
    : act flow_parts :=
  match Clusters cfg !! Source r with
  | None => lift (Err (Errorf "source cluster %q not defined" [Source r]))
  | Some srcCfg =>
  match Clusters cfg !! Target r with
  | None => lift (Err (Errorf "target cluster %q not defined" [Target r]))
  | Some tgtCfg =>
      let flowKey := flow_key r in
      src ← wrap "create source for %s: %w" [flowKey]
        (NewSource (fe_now fe) (fe_refusal1 fe) r srcCfg tgtCfg);
      dlq ← wrap "create DLQ for %s: %w" [flowKey]
        (NewDLQ (fe_now fe) (fe_refusal2 fe) r tgtCfg);
      hb ← lift (wrap_err "create heartbeat for %s: %w" [flowKey] (NewHeartbeat r tgtCfg));
      cp ← lift (wrap_err "create checkpoint for %s: %w" [flowKey] (NewCheckpoint r srcCfg tgtCfg));
      td ← lift (wrap_err "create topic discovery for %s: %w" [flowKey]
                   (NewTopicDiscovery r srcCfg tgtCfg));
      mret {| fp_source := match dlq with Some d => SetDLQ d src | None => src end;
              fp_dlq := dlq; fp_heartbeat := hb; fp_checkpoint := cp; fp_discovery := td |}
  end end.

Definition add_flow (r : ReplicationConfig) (p : flow_parts) (e : Engine) : Engine := {|
  e_cfg := e_cfg e; e_level := e_level e; e_console := e_console e;
  e_sources := e_sources e ++ [fp_source p];
  e_sourcesByFlow := <[flow_key r := length (e_sources e)]> (e_sourcesByFlow e);
  e_heartbeats := e_heartbeats e ++ [fp_heartbeat p];
  e_checkpoints := e_checkpoints e ++ [fp_checkpoint p];
  e_topicDiscoveries := e_topicDiscoveries e ++ [fp_discovery p];
  e_stores := e_stores e ++ [NewSyncStore];
  e_syncStores := <[flow_key r := length (e_stores e)]> (e_syncStores e);
  e_syncReaders := e_syncReaders e; e_syncWriters := e_syncWriters e;
  e_dlqs := e_dlqs e ++ match fp_dlq p with Some d => [d] | None => [] end;
  e_httpServer := e_httpServer e; e_running := e_running e |}.

Fixpoint new_flows (envs : nat → flow_env) (i : nat) (cfg : Config.Config)
    (rs : list ReplicationConfig) (e : Engine) : act Engine :=
  match rs with
  | [] => mret e
  | r :: rs =>
      if negb (Enabled r) then new_flows envs (S i) cfg rs e
      else p ← new_flow (envs i) cfg r; new_flows envs (S i) cfg rs (add_flow r p e)
  end.

Definition NewEngine (envs : nat → flow_env) (cfg : Config.Config) : act Engine :=
  new_flows envs 0 cfg (Replications cfg) (empty_engine cfg).

(** ** Phase 1: the offset-syncs topics and the sync stores *)

(** Updates of the fields that change after construction. *)
Definition set_sources (ss : list SourceReplicator) (e : Engine) : Engine := {|
  e_cfg := e_cfg e; e_level := e_level e; e_console := e_console e; e_sources := ss;
  e_sourcesByFlow := e_sourcesByFlow e; e_heartbeats := e_heartbeats e;
  e_checkpoints := e_checkpoints e; e_topicDiscoveries := e_topicDiscoveries e;
  e_stores := e_stores e; e_syncStores := e_syncStores e; e_syncReaders := e_syncReaders e;
  e_syncWriters := e_syncWriters e; e_dlqs := e_dlqs e; e_httpServer := e_httpServer e;
  e_running := e_running e |}.

Definition set_stores (ss : list SyncStore) (e : Engine) : Engine := {|
  e_cfg := e_cfg e; e_level := e_level e; e_console := e_console e; e_sources := e_sources e;
  e_sourcesByFlow := e_sourcesByFlow e; e_heartbeats := e_heartbeats e;
  e_checkpoints := e_checkpoints e; e_topicDiscoveries := e_topicDiscoveries e;
  e_stores := ss; e_syncStores := e_syncStores e; e_syncReaders := e_syncReaders e;
  e_syncWriters := e_syncWriters e; e_dlqs := e_dlqs e; e_httpServer := e_httpServer e;
  e_running := e_running e |}.

Definition set_sync_io (readers : list SyncReader) (writers : list SyncWriter) (e : Engine)
    : Engine := {|
  e_cfg := e_cfg e; e_level := e_level e; e_console := e_console e; e_sources := e_sources e;
  e_sourcesByFlow := e_sourcesByFlow e; e_heartbeats := e_heartbeats e;
  e_checkpoints := e_checkpoints e; e_topicDiscoveries := e_topicDiscoveries e;
  e_stores := e_stores e; e_syncStores := e_syncStores e; e_syncReaders := readers;
  e_syncWriters := writers; e_dlqs := e_dlqs e; e_httpServer := e_httpServer e;
  e_running := e_running e |}.

(** The sources, discoveries and emitters, the queues and the two flags. *)
Definition set_parts (sources : list SourceReplicator) (tds : list TopicDiscovery)
    (hbs : list HeartbeatEmitter) (cps : list CheckpointEmitter) (dlqs : list DLQ)
    (http running : bool) (e : Engine) : Engine := {|
  e_cfg := e_cfg e; e_level := e_level e; e_console := e_console e; e_sources := sources;
  e_sourcesByFlow := e_sourcesByFlow e; e_heartbeats := hbs;
  e_checkpoints := cps; e_topicDiscoveries := tds;
  e_stores := e_stores e; e_syncStores := e_syncStores e; e_syncReaders := e_syncReaders e;
  e_syncWriters := e_syncWriters e; e_dlqs := dlqs; e_httpServer := http;
  e_running := running |}.

(** The answers to one flow's bootstrap. *)
Record bootstrap_env := {
  be_now : Z;
  be_admin_refusal : option error;
  be_admin : nat → kadm_Client;
  be_reader_refusal : option error;
  (* what polling a topic of a cluster yields before the deadline *)
  be_polls : ClusterConfig → string → list poll_result;
  be_writer_refusal : option error;
}.

(** The poll at which the read timeout shows. *)
Definition timed_out : poll_result :=
  {| p_Records := []; p_Errors := []; p_CtxErr := Some DeadlineExceeded |}.

Lemma read_loop_ends polls s total : is_Some (read_loop (polls ++ [timed_out]) s total).
Proof.
  revert s total. induction polls as [|p polls IH]; intros s total; simpl; [done|].
  destruct (p_CtxErr p) as [[]|]; [done..|].
  destruct (handle_records _ _ _) as [[s' total']| |]; [|done..].
  case_match; [done|apply IH].
Qed.

(** [ReadToEnd] with its timeout; by [read_loop_ends] it always ends. *)
Definition read_with_timeout (polls : list poll_result) (s : SyncStore)
    : outcome unit * SyncStore :=
  match ReadToEnd (polls ++ [timed_out]) s with
  | Some res => res
  | None => (Ok (), s)
  end.

Definition zeroCluster : ClusterConfig := {| BootstrapServers := []; SASL := None; TLS := None |}.

(** [e.cfg.Clusters[name]] *)
Definition cluster (e : Engine) (name : string) : ClusterConfig :=
  default zeroCluster (Clusters (e_cfg e) !! name).

(** The syncs are read into the store of the flow key and the writer goes to the
    source of the flow key. The request that creates the topic is sent; its
    answer is ignored. *)
Definition bootstrap_flow (be : bootstrap_env) (r : ReplicationConfig) (e : Engine)
    : act Engine :=
  let srcCfg := cluster e (Source r) in
  let flowKey := flow_key r in
  match e_syncStores e !! flowKey with
  | None => lift (Panic "nil pointer dereference")
  | Some k =>
      pol ← lift (wrap_err "create policy for %s: %w" [flowKey]
                    (NewPolicy (Config.ReplicationPolicy r) (Config.Separator r)));
      let syncTopic := OffsetSyncsTopic pol (Source r) in
      srcAdmin ← wrap "create admin for offset-syncs topic %s: %w" [flowKey]
        (NewAdminClient (be_now be) (be_admin_refusal be) (be_admin be) srcCfg);
      let _ := CreateCompactedTopic (inner srcAdmin) syncTopic (ReplicationFactor r) in
      _ ← (λ w, (Ok (), Client_Close srcAdmin w));
      reader ← wrap "create sync reader for %s: %w" [flowKey]
        (NewSyncReader (be_now be) (be_reader_refusal be) srcCfg syncTopic);
      let store := default NewSyncStore (e_stores e !! k) in
      let '(res, store) := read_with_timeout (be_polls be srcCfg (sr_topic reader)) store in
      match res with
      | Err err =>
          λ w, (Err (Wrapf "read offset-syncs to end for %s: %w" [flowKey] err),
                SyncReader_Close reader w)
      | Panic why => lift (Panic why)
      | Ok _ =>
          writer ← wrap "create sync writer for %s: %w" [flowKey]
            (NewSyncWriter (be_now be) (be_writer_refusal be) srcCfg syncTopic);
          let e := set_stores (<[k := store]> (e_stores e)) e in
          let e := set_sync_io (e_syncReaders e ++ [reader]) (e_syncWriters e ++ [writer]) e in
          mret match e_sourcesByFlow e !! flowKey with
               | Some i => set_sources (alter (SetSyncWriter writer) i (e_sources e)) e
               | None => e
               end
      end
  end.

Fixpoint bootstrap_flows (envs : nat → bootstrap_env) (i : nat) (rs : list ReplicationConfig)
    (e : Engine) : act Engine :=
  match rs with
  | [] => mret e
  | r :: rs =>
      if negb (Enabled r) then bootstrap_flows envs (S i) rs e
      else if negb (BoolDefault (EmitOffsetSyncs r) true) then bootstrap_flows envs (S i) rs e
      else e ← bootstrap_flow (envs i) r e; bootstrap_flows envs (S i) rs e
  end.

Definition bootstrapOffsetSyncs (envs : nat → bootstrap_env) (e : Engine) : act Engine :=
  bootstrap_flows envs 0 (Replications (e_cfg e)) e.

(** The handler of [/readyz]: every sync store is ready. *)
Definition readyz (e : Engine) : bool :=
  forallb (λ p, match e_stores e !! p.2 with Some s => IsReady s | None => false end)
    (map_to_list (e_syncStores e)).

(** ** Phase 2: catch-up before the sources start *)

(** What this phase asks for: topics on the target, and catch-ups with the
    partitions and their ranges. *)
Inductive catchup_action :=
  | ActCreate (targetTopic : string) (partitions replicationFactor : Z)
  | ActCatchUp (topic : string) (partitionLags : gmap Z (Z * Z)).

(** The answers to the catch-up phase of one flow. *)
Record catchup_env := {
  ce_now : Z;
  ce_refusal : option error;                       (* the first source admin client *)
  ce_source : nat → kadm_Client;
  ce_target_refusal : option error;
  ce_topic_refusal : string → option error;        (* the admin client per topic *)
  ce_lag_refusal : string → Z → option error;
  ce_lag : string → Z → lag_answers;
  ce_dlq_refusal : string → option error;
  ce_producer_refusal : string → option error;
  ce_drained : string → Z * (Z * Z) → drain_end;   (* per topic and partition *)
}.

Definition parallelThreshold : Z := 100000.

(** [len(topic) > 0 && (topic[0] == '_' || topic[0] == '.')] *)
Definition underscore_or_dot (topic : string) : bool :=
  match topic with
  | String c _ => Ascii.eqb c "_"%char || Ascii.eqb c "."%char
  | EmptyString => false
  end.

(** The partition's range if its lag is above the threshold. *)
Definition high_lag (lag : outcome (Z * Z)) : option (Z * Z) :=
  match lag with
  | Ok (committed, hwm) =>
      let '(lag, committed) :=
        if committed <=? 0 then (hwm, 0) else (i64 (hwm - committed), committed) in
      if parallelThreshold <? lag then Some (committed, hwm) else None
  | _ => None
  end.

Fixpoint collect_lags (ce : catchup_env) (srcCfg : ClusterConfig) (topic : string)
    (partitions : list Z) (lags : gmap Z (Z * Z)) (w : clients OS)
    : gmap Z (Z * Z) * clients OS :=
  match partitions with
  | [] => (lags, w)
  | part :: partitions =>
      let '(lag, w) := GetPartitionLag (ce_now ce) (ce_lag_refusal ce topic part)
                         (ce_lag ce topic part) srcCfg topic part w in
      collect_lags ce srcCfg topic partitions
        match high_lag lag with Some range => <[part := range]> lags | None => lags end w
  end.

(** The body of the loop over the topics of the source. An error skips what is
    left of the body; the only panic is one of a drainer. *)
Definition catchup_topic (ce : catchup_env) (srcCfg tgtCfg : ClusterConfig)
    (r : ReplicationConfig) (workersPerPartition : Z) (tgtAdmin : option Client)
    (pol : option Policy.ReplicationPolicy) (topic : string) : act (list catchup_action) :=
  λ w,
  if underscore_or_dot topic then (Ok [], w)
  else
    match NewAdminClient (ce_now ce) (ce_topic_refusal ce topic) (ce_source ce) srcCfg w with
    | (Ok topicAdm, w) =>
        let w := Client_Close topicAdm w in
        let partitions :=
          match ListTopicPartitions (inner topicAdm) topic with Ok ps => ps | _ => [0] end in
        let creates :=
          match tgtAdmin, pol with
          | Some _, Some pol =>
              [ActCreate (FormatRemoteTopic pol (Source r) topic)
                 (i32 (Z.of_nat (length partitions))) (ReplicationFactor r)]
          | _, _ => []
          end in
        let '(lags, w) := collect_lags ce srcCfg topic partitions ∅ w in
        if (size lags =? 0)%nat then (Ok creates, w)
        else
          match NewParallelSource (ce_now ce) (ce_dlq_refusal ce topic) r srcCfg tgtCfg
                  workersPerPartition w with
          | (Ok ps, w) =>
              let '(res, _, w) := CatchUpMultiPartition (ce_now ce)
                (ce_producer_refusal ce topic) (ce_drained ce topic) ps lags w in
              match res with
              | Ok _ => (Ok (creates ++ [ActCatchUp topic lags]), w)
              | Err _ => (Ok creates, w)
              | Panic why => (Panic why, w)
              end
          | (Err _, w) => (Ok creates, w)
          | (Panic why, w) => (Panic why, w)
          end
    | (Err _, w) => (Ok [], w)
    | (Panic why, w) => (Panic why, w)
    end.

Fixpoint catchup_topics (ce : catchup_env) (srcCfg tgtCfg : ClusterConfig)
    (r : ReplicationConfig) (workersPerPartition : Z) (tgtAdmin : option Client)
    (pol : option Policy.ReplicationPolicy) (topics : list string) : act (list catchup_action) :=
  match topics with
  | [] => mret []
  | topic :: topics =>
      acts ← catchup_topic ce srcCfg tgtCfg r workersPerPartition tgtAdmin pol topic;
      acts' ← catchup_topics ce srcCfg tgtCfg r workersPerPartition tgtAdmin pol topics;
      mret (acts ++ acts')
  end.

Definition catchup_flow (ce : catchup_env) (srcCfg tgtCfg : ClusterConfig)
    (target : nat → kadm_Client) (r : ReplicationConfig) : act (list catchup_action) :=
  λ w,
  match NewAdminClient (ce_now ce) (ce_refusal ce) (ce_source ce) srcCfg w with
  | (Ok adminClient, w) =>
      let w := Client_Close adminClient w in
      match ListTopics (inner adminClient) with
      | Ok topics =>
          let '(tgtAdmin, w) :=
            match NewAdminClient (ce_now ce) (ce_target_refusal ce) target tgtCfg w with
            | (Ok c, w) => (Some c, w)
            | (_, w) => (None, w)
            end in
          let pol := match NewPolicy (Config.ReplicationPolicy r) (Config.Separator r) with
                     | Ok pol => Some pol | _ => None end in
          let workersPerPartition :=
            if WorkersPerPartition r <? 2 then 2 else WorkersPerPartition r in
          let '(acts, w) :=
            catchup_topics ce srcCfg tgtCfg r workersPerPartition tgtAdmin pol topics w in
          (acts, match tgtAdmin with Some c => Client_Close c w | None => w end)
      | _ => (Ok [], w)
      end
  | (Err _, w) => (Ok [], w)
  | (Panic why, w) => (Panic why, w)
  end.

Fixpoint catchup_flows (envs : nat → catchup_env) (targets : nat → nat → kadm_Client)
    (i : nat) (rs : list ReplicationConfig) (e : Engine) : act (list catchup_action) :=
  match rs with
  | [] => mret []
  | r :: rs =>
      if negb (Enabled r) then catchup_flows envs targets (S i) rs e
      else
        acts ← catchup_flow (envs i) (cluster e (Source r)) (cluster e (Target r)) (targets i) r;
        acts' ← catchup_flows envs targets (S i) rs e;
        mret (acts ++ acts')
  end.

(** ** Phases 3 to 5, and the shutdown *)

(** [for _, x := range xs { if err := x.Start(ctx); err != nil { return ... } }] *)
Fixpoint start_list {A} (start : nat → A → clients OS → outcome unit * A * clients OS)
    (fmt : string) (i : nat) (xs : list A) (w : clients OS)
    : outcome unit * list A * clients OS :=
  match xs with
  | [] => (Ok (), [], w)
  | x :: xs =>
      match start i x w with
      | (Ok _, x, w) =>
          let '(r, xs, w) := start_list start fmt (S i) xs w in (r, x :: xs, w)
      | (Err err, x, w) => (Err (Wrapf fmt [] err), x :: xs, w)
      | (Panic why, x, w) => (Panic why, x :: xs, w)
      end
  end.

Fixpoint stop_list {A} (stop : A → clients OS → A * clients OS) (xs : list A) (w : clients OS)
    : list A * clients OS :=
  match xs with
  | [] => ([], w)
  | x :: xs =>
      let '(x, w) := stop x w in
      let '(xs, w) := stop_list stop xs w in
      (x :: xs, w)
  end.

(** The answers to the starts: a time and the two client constructions. *)
Record start_env := {
  st_now : Z;
  st_refusal1 : nat → option error;
  st_refusal2 : nat → option error;
}.

Definition start_sources (se : start_env) :=
  start_list (λ i s, Source_Start (st_now se) (st_refusal1 se i) (st_refusal2 se i) s)
    "start source: %w" 0.
Definition start_discoveries :=
  start_list (λ _ td (w : clients OS), (Discovery_Start td, w)) "start topic discovery: %w" 0.
Definition start_heartbeats (se : start_env) :=
  start_list (λ i h, Heartbeat_Start (st_now se) (st_refusal1 se i) h) "start heartbeat: %w" 0.
Definition start_checkpoints (se : start_env) :=
  start_list (λ i c, Checkpoint_Start (st_now se) (st_refusal1 se i) (st_refusal2 se i) c)
    "start checkpoint: %w" 0.

(** [errCount] is the error counter of a source when it is stopped. *)
Definition Shutdown (errCount : Z) (e : Engine) (w : clients OS) : Engine * clients OS :=
  let '(cps, w) := stop_list Checkpoint_Stop (e_checkpoints e) w in
  let '(hbs, w) := stop_list Heartbeat_Stop (e_heartbeats e) w in
  let tds := Discovery_Stop <$> e_topicDiscoveries e in
  let '(sources, w) :=
    stop_list (λ s w, (Source_Stop errCount s w).1) (e_sources e) w in
  let '(readers, w) := stop_list (λ sr w, (sr, SyncReader_Close sr w)) (e_syncReaders e) w in
  let '(writers, w) := stop_list SyncWriter_Close (e_syncWriters e) w in
  let '(dlqs, w) := stop_list DLQ_Close (e_dlqs e) w in
  (set_parts sources tds hbs cps dlqs (e_httpServer e) false
     (set_sync_io readers writers e), w).

(** The answers to one [Run]. *)
Record run_env := {
  rn_bootstrap : nat → bootstrap_env;
  rn_catchup : nat → catchup_env;
  rn_targets : nat → nat → kadm_Client;
  rn_sources : start_env;
  rn_heartbeats : start_env;
  rn_checkpoints : start_env;
  rn_errCount : Z;
}.

(** The phases up to the wait for a signal. *)
Definition start_phases (re : run_env) (e : Engine) (w : clients OS)
    : outcome unit * Engine * clients OS :=
  match start_sources (rn_sources re) (e_sources e) w with
  | (Ok _, sources, w) =>
      match start_discoveries (e_topicDiscoveries e) w with
      | (Ok _, tds, w) =>
          match start_heartbeats (rn_heartbeats re) (e_heartbeats e) w with
          | (Ok _, hbs, w) =>
              let '(r, cps, w) := start_checkpoints (rn_checkpoints re) (e_checkpoints e) w in
              (r, set_parts sources tds hbs cps (e_dlqs e) (e_httpServer e) (e_running e) e, w)
          | (r, hbs, w) =>
              (r, set_parts sources tds hbs (e_checkpoints e) (e_dlqs e) (e_httpServer e)
                    (e_running e) e, w)
          end
      | (r, tds, w) =>
          (r, set_parts sources tds (e_heartbeats e) (e_checkpoints e) (e_dlqs e)
                (e_httpServer e) (e_running e) e, w)
      end
  | (r, sources, w) =>
      (r, set_parts sources (e_topicDiscoveries e) (e_heartbeats e) (e_checkpoints e) (e_dlqs e)
            (e_httpServer e) (e_running e) e, w)
  end.

(** After an error the process exits; the engine returned then is the one before
    the phase that failed. *)
Definition Run (re : run_env) (e : Engine) (w : clients OS)
    : outcome (list catchup_action) * Engine * clients OS :=
  if e_running e then (Err (Errorf "engine already running" []), e, w)
  else
    let e := set_parts (e_sources e) (e_topicDiscoveries e) (e_heartbeats e)
               (e_checkpoints e) (e_dlqs e)
               (e_httpServer e || MetricsEnabled (Config.Metrics (e_cfg e))) true e in
    match wrap "bootstrap offset syncs: %w" [] (bootstrapOffsetSyncs (rn_bootstrap re) e) w with
    | (Err err, w) => (Err err, e, w)
    | (Panic why, w) => (Panic why, e, w)
    | (Ok e, w) =>
        match catchup_flows (rn_catchup re) (rn_targets re) 0 (Replications (e_cfg e)) e w with
        | (Err err, w) => (Err err, e, w)
        | (Panic why, w) => (Panic why, e, w)
        | (Ok acts, w) =>
            match start_phases re e w with
            | (Ok _, e, w) => let '(e, w) := Shutdown (rn_errCount re) e w in (Ok acts, e, w)
            | (Err err, e, w) => (Err err, e, w)
            | (Panic why, e, w) => (Panic why, e, w)
            end
        end
    end.

(** ** cmd/gomm2/main.go *)

(** The command line after [flag.Parse()]. *)
Record command := { cmd_version : bool; cmd_args : list string }.

(** The exit code of a call whose error is printed and ends the process with 1; a
    panic ends it with 2. *)
Definition exit_on {A} (x : outcome A) (k : A → Z) : Z :=
  match x with Ok a => k a | Err _ => 1 | Panic _ => 2 end.

Definition is_validate (args : list string) : bool :=
  match args with a :: _ => String.eqb a "validate" | [] => false end.

(** [loaded] is [config.Load(configPath)]. *)
Definition runValidate (order : list (string * ClusterConfig)) (loaded : outcome Config.Config)
    : Z :=
  exit_on loaded (λ cfg, exit_on (Validate order cfg) (λ _, 0)).

Definition main (c : command) (order : list (string * ClusterConfig))
    (loaded : outcome Config.Config) (envs : nat → flow_env) (re : run_env) : Z :=
  if cmd_version c then 0
  else if is_validate (cmd_args c) then runValidate order loaded
  else
    exit_on loaded (λ cfg,
    exit_on (Validate order cfg) (λ _,
    let '(e, w) := NewEngine envs cfg no_clients in
    exit_on e (λ e, exit_on (Run re e w).1.1 (λ _, 0)))).
End engine.
