(* ===== verification/Ownership.v ===== *)
(** * Which clients a call opens and closes

    A call acquires a set of clients, which it leaves open, or drops one. The
    lemmas compose calls, and give what each component acquires and drops. *)
From S2P Require Import Prelude GoStrings Filter Retry CircuitBreaker Types Policy SyncStore.
From S2P Require Import Config ClientOpts Kgo SyncIO Dlq Heartbeats Translator Checkpoints.
From S2P Require Import Metrics Admin SourceLoop Discovery Parallel CatchUp Engine.

Local Open Scope nat_scope.

Section ownership.
Context {OS : Outside} {RE : RegexpEngine}.

(** Opens the clients of [X], which were not open, and leaves the others as they
    are. *)
Record acquires (X : gset nat) (w w' : clients OS) : Prop := {
  acq_wf : clients_wf w';
  acq_grow : created w `prefix_of` created w';
  acq_fresh h : h ∈ X → ¬ is_open w h;
  acq_open h : is_open w' h ↔ is_open w h ∨ h ∈ X;
}.

Record drops (X : gset nat) (w w' : clients OS) : Prop := {
  drop_wf : clients_wf w';
  drop_created : created w' = created w;
  drop_open h : is_open w' h ↔ is_open w h ∧ h ∉ X;
}.

(** The clients of [X] have been created. *)
Definition known (X : gset nat) (w : clients OS) : Prop := ∀ h, h ∈ X → h < length (created w).

Lemma acquires_refl w : clients_wf w → acquires ∅ w w.
Proof. intros Hw. split; [done|done|by intros h ?%elem_of_empty|]. intros h. set_solver. Qed.

Lemma acquires_trans X Y w w1 w2 :
  acquires X w w1 → acquires Y w1 w2 → acquires (X ∪ Y) w w2 ∧ X ## Y.
Proof.
  intros [Hw1 Hg1 Hf1 Ho1] [Hw2 Hg2 Hf2 Ho2]. split; [split|].
  - done.
  - by etrans.
  - intros h [Hh|Hh]%elem_of_union; [by apply Hf1|]. intros Ho. apply (Hf2 h Hh), Ho1. by left.
  - intros h. rewrite Ho2, Ho1, elem_of_union. tauto.
  - intros h HX HY. apply (Hf2 h HY), Ho1. by right.
Qed.

Lemma acquires_known X w w' : acquires X w w' → known X w'.
Proof. intros [_ _ _ Ho] h Hh. assert (is_open w' h) as [? _] by (apply Ho; by right). done. Qed.

Lemma known_mono X w w' : length (created w) ≤ length (created w') → known X w → known X w'.
Proof. intros Hle Hk h Hh. specialize (Hk h Hh). lia. Qed.

Lemma known_union X Y w : known X w → known Y w → known (X ∪ Y) w.
Proof. intros HX HY h [Hh|Hh]%elem_of_union; auto. Qed.

Lemma drops_refl w : clients_wf w → drops ∅ w w.
Proof. intros Hw. split; [done|done|]. intros h. set_solver. Qed.

Lemma drops_trans X Y w w1 w2 : drops X w w1 → drops Y w1 w2 → drops (X ∪ Y) w w2.
Proof.
  intros [Hw1 Hc1 Ho1] [Hw2 Hc2 Ho2]. split; [done|congruence|].
  intros h. rewrite Ho2, Ho1, not_elem_of_union. tauto.
Qed.

(** What has been acquired and not dropped is what is left. *)
Lemma acquires_drops X Y w w1 w2 :
  acquires X w w1 → drops Y w1 w2 → Y ⊆ X → acquires (X ∖ Y) w w2.
Proof.
  intros [Hw1 Hg1 Hf1 Ho1] [Hw2 Hc2 Ho2] Hsub. split.
  - done.
  - by rewrite Hc2.
  - intros h [Hh _]%elem_of_difference. by apply Hf1.
  - intros h. rewrite Ho2, Ho1, elem_of_difference.
    assert (h ∈ Y → ¬ is_open w h) by (intros Hh; by apply Hf1, Hsub).
    destruct (decide (h ∈ Y)); tauto.
Qed.

Lemma acquires_new opts w :
  clients_wf w →
  acquires {[length (created w)]} w
    {| created := created w ++ [opts]; released := released w |}.
Proof.
  intros Hw. split.
  - intros h Hh. specialize (Hw h Hh). simpl. rewrite length_app. lia.
  - by eexists.
  - intros h ->%elem_of_singleton [? _]. lia.
  - intros h. unfold is_open. simpl. rewrite length_app, elem_of_singleton. simpl.
    specialize (Hw h). destruct (decide (h = length (created w))) as [->|Hne].
    + split; [by right|]. intros _. split; [lia|]. intros Hr. specialize (Hw Hr). lia.
    + split; [intros [? ?]; left; split; [lia|done]|]. intros [[? ?]|?]; [|done]. split; [lia|done].
Qed.

Lemma drops_close h w : clients_wf w → h < length (created w) → drops {[h]} w (CloseClient h w).
Proof.
  intros Hw Hh. split; [|done|].
  - intros x. cbn [CloseClient released created].
    intros [->%elem_of_singleton|Hx]%elem_of_union; [done|by apply Hw].
  - intros x. unfold is_open. cbn [CloseClient released created].
    rewrite not_elem_of_union. tauto.
Qed.

(** A client that is opened and closed again. *)
Lemma acquires_transient opts w :
  clients_wf w →
  acquires ∅ w (CloseClient (length (created w))
    {| created := created w ++ [opts]; released := released w |}).
Proof.
  intros Hw. pose proof (acquires_new opts w Hw) as Ha.
  replace (∅ : gset nat) with ({[length (created w)]} ∖ {[length (created w)]} : gset nat)
    by apply difference_diag_L.
  eapply acquires_drops; [exact Ha| |done]. apply drops_close; [by apply Ha|].
  by apply (acquires_known _ _ _ Ha), elem_of_singleton.
Qed.

(** ** Lists of components *)

Definition owned_all {A} (owned : A → gset nat) (xs : list A) : gset nat := ⋃ (owned <$> xs).

Lemma elem_of_owned_all {A} (owned : A → gset nat) xs h :
  h ∈ owned_all owned xs ↔ ∃ x, x ∈ xs ∧ h ∈ owned x.
Proof.
  unfold owned_all. rewrite elem_of_union_list. setoid_rewrite list_elem_of_fmap. split.
  - intros (X & (x & -> & Hx) & Hh). by exists x.
  - intros (x & Hx & Hh). exists (owned x). split; [by exists x|done].
Qed.

Lemma owned_all_nil {A} (owned : A → gset nat) : owned_all owned [] = ∅.
Proof. done. Qed.
Lemma owned_all_cons {A} (owned : A → gset nat) x xs :
  owned_all owned (x :: xs) = owned x ∪ owned_all owned xs.
Proof. done. Qed.
Lemma owned_all_app {A} (owned : A → gset nat) xs ys :
  owned_all owned (xs ++ ys) = owned_all owned xs ∪ owned_all owned ys.
Proof. unfold owned_all. by rewrite fmap_app, union_list_app_L. Qed.

Section lists.
Context {A : Type} (owned : A → gset nat).

Lemma stop_list_drops (stop : A → clients OS → A * clients OS) xs w :
  (∀ x w, clients_wf w → known (owned x) w → drops (owned x) w (stop x w).2) →
  clients_wf w → known (owned_all owned xs) w →
  drops (owned_all owned xs) w (stop_list stop xs w).2.
Proof.
  intros Hstop. revert w. induction xs as [|x xs IH]; intros w Hw Hk; simpl.
  { by apply drops_refl. }
  rewrite owned_all_cons in *.
  assert (drops (owned x) w (stop x w).2) as Hd.
  { apply Hstop; [done|]. intros h Hh. apply Hk, elem_of_union. by left. }
  destruct (stop x w) as [x' w1]. cbn [snd] in Hd. specialize (IH w1 (drop_wf _ _ _ Hd)).
  destruct (stop_list stop xs w1) as [xs' w2]. eapply drops_trans; [exact Hd|]. apply IH.
  intros h Hh. rewrite (drop_created _ _ _ Hd). apply Hk, elem_of_union. by right.
Qed.

Lemma start_list_acquires (idle : A → Prop)
    (start : nat → A → clients OS → outcome unit * A * clients OS) fmt i xs w xs' w' u :
  (∀ i x w x' w' u, idle x → clients_wf w → start i x w = (Ok u, x', w') →
     acquires (owned x') w w') →
  Forall idle xs → clients_wf w → start_list start fmt i xs w = (Ok u, xs', w') →
  acquires (owned_all owned xs') w w'.
Proof.
  intros Hstart Hidle. revert i w xs' w'. induction Hidle as [|x xs Hx _ IH];
    intros i w xs' w' Hw; simpl.
  { intros [= _ <- <-]. by apply acquires_refl. }
  destruct (start i x w) as [[[u1|e|why] x1] w1] eqn:Hs; [|done..].
  destruct (start_list start fmt (S i) xs w1) as [[r xs1] w2] eqn:Hl.
  intros [= -> <- <-]. apply Hstart in Hs; [|done..].
  apply IH in Hl; [|by apply Hs]. rewrite owned_all_cons. by eapply acquires_trans.
Qed.
End lists.

(** ** Components *)

Lemma NewAdminClient_acquires now refusal connect cc w c w' :
  clients_wf w → NewAdminClient now refusal connect cc w = (Ok c, w') →
  acquires {[raw c]} w w' ∧ acquires ∅ w (Client_Close c w').
Proof.
  intros Hw H. destruct (NewAdminClient_cases now refusal connect cc w) as [[e He]|[opts He]];
    rewrite He in H; [done|]. injection H as <- <-. split.
  - by apply acquires_new.
  - by apply acquires_transient.
Qed.

Lemma NewAdminClient_fails now refusal connect cc w x w' :
  NewAdminClient now refusal connect cc w = (x, w') → (∀ c, x ≠ Ok c) → w' = w.
Proof.
  intros H Hx. destruct (NewAdminClient_cases now refusal connect cc w) as [[e He]|[opts He]];
    rewrite He in H; [by injection H|]. injection H as <- _. by destruct (Hx _ eq_refl).
Qed.

Definition dlq_owned (d : DLQ) : gset nat := if d_closed d then ∅ else {[d_producer d]}.
Definition dlq_opt_owned (d : option DLQ) : gset nat :=
  match d with Some d => dlq_owned d | None => ∅ end.

(** Whatever it returns, a queue holds the client that was opened for it; without
    [DLQEnabled] there is none, and with it an accepted client gives one. *)
Lemma NewDLQ_acquires now refusal cfg cc w r w' :
  clients_wf w → NewDLQ now refusal cfg cc w = (r, w') →
  acquires (dlq_opt_owned (dlq_or_nil r)) w w' ∧
  (DLQEnabled cfg = false → r = Ok None) ∧
  (∀ d, r = Ok d → DLQEnabled cfg = true → ∃ q, d = Some q ∧ d_closed q = false).
Proof.
  intros Hw. unfold NewDLQ. destruct (DLQEnabled cfg); simpl.
  2:{ intros [= <- <-]. split; [by apply acquires_refl|]. by split. }
  assert (acquires (∅ : gset nat) w w) as Hr by by apply acquires_refl.
  destruct (BuildClientOpts now cc) as [opts|e|why]; simpl.
  2,3: intros [= <- <-]; by split_and!.
  destruct refusal as [e|]; simpl; intros [= <- <-]; [by split_and!|].
  split; [by apply acquires_new|]. split; [done|]. intros d [= <-] _. by eexists.
Qed.

Lemma DLQ_Close_drops d w :
  clients_wf w → known (dlq_owned d) w → drops (dlq_owned d) w (DLQ_Close d w).2.
Proof.
  intros Hw Hk. unfold DLQ_Close, dlq_owned in *. destruct (d_closed d); simpl.
  - by apply drops_refl.
  - apply drops_close; [done|]. apply Hk. by apply elem_of_singleton.
Qed.

Definition writer_owned (sw : SyncWriter) : gset nat :=
  if sw_closed sw then ∅ else {[sw_producer sw]}.
Definition reader_owned (sr : SyncReader) : gset nat := {[sr_consumer sr]}.

Lemma SyncWriter_Close_drops sw w :
  clients_wf w → known (writer_owned sw) w → drops (writer_owned sw) w (SyncWriter_Close sw w).2.
Proof.
  intros Hw Hk. unfold SyncWriter_Close, writer_owned in *. destruct (sw_closed sw); simpl.
  - by apply drops_refl.
  - apply drops_close; [done|]. apply Hk. by apply elem_of_singleton.
Qed.

Lemma NewSyncReader_acquires now refusal cc topic w sr w' :
  clients_wf w → NewSyncReader now refusal cc topic w = (Ok sr, w') →
  acquires (reader_owned sr) w w' ∧ sr_topic sr = topic.
Proof.
  intros Hw. unfold NewSyncReader. destruct (BuildClientOpts now cc); simpl; [|done..].
  destruct refusal; simpl; [done|]. intros [= <- <-]. split; [by apply acquires_new|done].
Qed.

(** The writer's client was created with the options of a cluster. *)
Definition writes_to (now : Z) (cc : ClusterConfig) (sw : SyncWriter) (w : clients OS) : Prop :=
  ∃ opts, BuildClientOpts now cc = Ok opts ∧
    ∃ more, created w !! sw_producer sw = Some (opts ++ more).

Lemma writes_to_mono now cc sw w w' :
  created w `prefix_of` created w' → writes_to now cc sw w → writes_to now cc sw w'.
Proof.
  intros Hp (opts & Ho & more & Hm). exists opts. split; [done|]. exists more.
  by eapply prefix_lookup_Some.
Qed.

Lemma NewSyncWriter_acquires now refusal cc topic w sw w' :
  clients_wf w → NewSyncWriter now refusal cc topic w = (Ok sw, w') →
  acquires (writer_owned sw) w w' ∧ sw_topic sw = topic ∧ sw_closed sw = false ∧
  writes_to now cc sw w'.
Proof.
  intros Hw. unfold NewSyncWriter, writes_to. destruct (BuildClientOpts now cc) as [opts| |];
    simpl; [|done..].
  destruct refusal; simpl; [done|]. intros [= <- <-]. split_and!; [by apply acquires_new|done|done|].
  exists opts. split; [done|]. eexists. by apply list_lookup_middle.
Qed.

(** [heartbeat_owned] and [checkpoint_owned] are those of the components' files. *)
Lemma Heartbeat_Start_acquires now refusal h w h' w' u :
  h_running h = false → clients_wf w → Heartbeat_Start now refusal h w = (Ok u, h', w') →
  acquires (heartbeat_owned h') w w'.
Proof.
  intros Hr Hw. unfold Heartbeat_Start. rewrite Hr. destruct (BoolDefault _ _); simpl.
  2:{ intros [= _ <- <-]. unfold heartbeat_owned. rewrite Hr. by apply acquires_refl. }
  destruct (BuildClientOpts _ _); simpl; [|done..]. destruct refusal; simpl; [done|].
  intros [= _ <- <-]. by apply acquires_new.
Qed.

Lemma Heartbeat_Stop_drops h w :
  clients_wf w → known (heartbeat_owned h) w →
  drops (heartbeat_owned h) w (Heartbeat_Stop h w).2.
Proof.
  intros Hw Hk. unfold Heartbeat_Stop, heartbeat_owned in *. destruct (h_running h); simpl.
  2:{ by apply drops_refl. }
  destruct (h_producer h) as [p|]; [|by apply drops_refl].
  apply drops_close; [done|]. apply Hk. by apply elem_of_singleton.
Qed.

Lemma acquires_two o1 o2 w :
  clients_wf w →
  acquires ({[length (created w)]} ∪ {[length (created w ++ [o1])]}) w
    {| created := (created w ++ [o1]) ++ [o2]; released := released w |}.
Proof.
  intros Hw. pose proof (acquires_new o1 w Hw) as H1.
  exact (proj1 (acquires_trans _ _ _ _ _ H1 (acquires_new o2 _ (acq_wf _ _ _ H1)))).
Qed.

Lemma drops_close_opt h w :
  clients_wf w → known (opt_set h) w → drops (opt_set h) w (close_opt h w).
Proof.
  intros Hw Hk. destruct h as [h|]; simpl; [|by apply drops_refl].
  apply drops_close; [done|]. apply Hk. cbn [opt_set]. by apply elem_of_singleton.
Qed.

Lemma drops_close_two a b w :
  clients_wf w → known (opt_set a ∪ opt_set b) w →
  drops (opt_set a ∪ opt_set b) w (close_opt b (close_opt a w)).
Proof.
  intros Hw Hk.
  assert (drops (opt_set a) w (close_opt a w)) as Ha.
  { apply drops_close_opt; [done|]. intros h Hh. apply Hk, elem_of_union. by left. }
  eapply drops_trans; [exact Ha|]. apply drops_close_opt; [by apply Ha|].
  intros h Hh. rewrite (drop_created _ _ _ Ha). apply Hk, elem_of_union. by right.
Qed.

Lemma Checkpoint_Start_acquires now r1 r2 c w c' w' u :
  c_running c = false → clients_wf w → Checkpoint_Start now r1 r2 c w = (Ok u, c', w') →
  acquires (checkpoint_owned c') w w'.
Proof.
  intros Hr Hw. unfold Checkpoint_Start. rewrite Hr. destruct (BoolDefault _ _); simpl.
  2:{ intros [= _ <- <-]. unfold checkpoint_owned. rewrite Hr. by apply acquires_refl. }
  destruct (BuildClientOpts _ _); simpl; [|done..]. destruct r1; simpl; [done|].
  destruct (BuildClientOpts _ _); simpl; [|done..]. destruct r2; simpl; [done|].
  intros [= _ <- <-]. by apply acquires_two.
Qed.

Lemma Checkpoint_Stop_drops c w :
  clients_wf w → known (checkpoint_owned c) w →
  drops (checkpoint_owned c) w (Checkpoint_Stop c w).2.
Proof.
  intros Hw Hk. unfold Checkpoint_Stop, checkpoint_owned in *. destruct (c_running c); simpl.
  - by apply drops_close_two.
  - by apply drops_refl.
Qed.

(** A running source holds its two clients, and closes its queue with them. *)
Definition source_owned (s : SourceReplicator) : gset nat :=
  if s_running s then opt_set (s_consumer s) ∪ opt_set (s_producer s) else ∅.
Definition source_closes (s : SourceReplicator) : gset nat :=
  if s_running s then source_owned s ∪ dlq_opt_owned (s_dlq s) else ∅.

Lemma Source_Start_acquires now r1 r2 s w s' w' u :
  s_running s = false → clients_wf w → Source_Start now r1 r2 s w = (Ok u, s', w') →
  acquires (source_owned s') w w' ∧ s_dlq s' = s_dlq s ∧ s_running s' = true.
Proof.
  intros Hr Hw. unfold Source_Start. rewrite Hr.
  destruct (BuildClientOpts _ _); simpl; [|done..]. destruct r1; simpl; [done|].
  destruct (BuildClientOpts _ _); simpl; [|done..]. destruct r2; simpl; [done|].
  intros [= _ <- <-]. split; [by apply acquires_two|done].
Qed.

Lemma Source_Stop_drops errCount s w :
  clients_wf w → known (source_closes s) w →
  drops (source_closes s) w (Source_Stop errCount s w).1.2.
Proof.
  intros Hw Hk. unfold Source_Stop, source_closes, source_owned in *.
  destruct (s_running s) eqn:Hr; simpl; [|by apply drops_refl].
  assert (drops (opt_set (s_consumer s) ∪ opt_set (s_producer s)) w
    (close_opt (s_producer s) (close_opt (s_consumer s) w))) as Hd.
  { apply drops_close_two; [done|]. intros h Hh. apply Hk, elem_of_union. by left. }
  set (w1 := match s_producer s with Some p => _ | None => _ end).
  change w1 with (close_opt (s_producer s) (close_opt (s_consumer s) w)). clear w1.
  destruct (s_dlq s) as [d|]; simpl in *.
  - assert (drops (dlq_owned d) (close_opt (s_producer s) (close_opt (s_consumer s) w))
      (DLQ_Close d (close_opt (s_producer s) (close_opt (s_consumer s) w))).2) as Hq.
    { apply DLQ_Close_drops; [by apply Hd|]. intros h Hh. rewrite (drop_created _ _ _ Hd).
      apply Hk, elem_of_union. by right. }
    destruct (DLQ_Close d _) as [d' w2]. by eapply drops_trans.
  - by rewrite union_empty_r_L.
Qed.
End ownership.
