(* ===== verification/EngineSafety.v ===== *)
(** * The engine: what a run wires, and which clients it leaves open

    Composition of the component lemmas of Ownership along [NewEngine] and [Run]. *)
From S2P Require Import Prelude GoStrings Filter Retry CircuitBreaker Types Policy SyncStore.
From S2P Require Import Config ClientOpts Kgo SyncIO Dlq Heartbeats Translator Checkpoints.
From S2P Require Import Metrics Admin SourceLoop Discovery Parallel CatchUp Engine Ownership.

Local Open Scope nat_scope.

Section release.
Context {OS : Outside} {RE : RegexpEngine}.

Lemma acquires_none_l X w w1 w2 : acquires ∅ w w1 → acquires X w1 w2 → acquires X w w2.
Proof.
  intros H1 H2. destruct (acquires_trans _ _ _ _ _ H1 H2) as [H _].
  by rewrite union_empty_l_L in H.
Qed.
Lemma acquires_none_r X w w1 w2 : acquires X w w1 → acquires ∅ w1 w2 → acquires X w w2.
Proof.
  intros H1 H2. destruct (acquires_trans _ _ _ _ _ H1 H2) as [H _].
  by rewrite union_empty_r_L in H.
Qed.

Lemma act_bind_Ok {A B} (x : act A) (f : A → act B) w b w' :
  (x ≫= f) w = (Ok b, w') → ∃ a w1, x w = (Ok a, w1) ∧ f a w1 = (Ok b, w').
Proof.
  unfold mbind, act_bind. destruct (x w) as [[a|e|why] w1]; [|done..]. intros H. by exists a, w1.
Qed.

Lemma wrap_Ok {A} fmt args (x : act A) w a w' :
  wrap fmt args x w = (Ok a, w') → x w = (Ok a, w').
Proof. unfold wrap. destruct (x w) as [[|e|] w1]; simpl; congruence. Qed.

Lemma lift_Ok {A} (x : outcome A) w a w' : lift x w = (Ok a, w') → x = Ok a ∧ w' = w.
Proof. unfold lift. by intros [= -> ->]. Qed.

(** ** Catch-up leaves open the queues of the parallel sources only *)

(** Opens clients and leaves open only queues' clients: none if [b] is false. *)
Definition leaks_if (b : bool) (w w' : clients OS) : Prop :=
  ∃ L, acquires L w w' ∧ (b = false → L = ∅).

Lemma leaks_if_refl b w : clients_wf w → leaks_if b w w.
Proof. exists ∅. split; [by apply acquires_refl|done]. Qed.

Lemma leaks_if_none b w w' : acquires ∅ w w' → leaks_if b w w'.
Proof. by exists ∅. Qed.

Lemma leaks_if_trans b w w1 w2 : leaks_if b w w1 → leaks_if b w1 w2 → leaks_if b w w2.
Proof.
  intros (L1 & H1 & E1) (L2 & H2 & E2). exists (L1 ∪ L2).
  split; [by eapply acquires_trans|]. intros Hb. by rewrite E1, E2, union_empty_l_L.
Qed.

Lemma leaks_if_weaken (b b' : bool) w w' : (b' = false → b = false) → leaks_if b w w' → leaks_if b' w w'.
Proof. intros Hb (L & H & E). exists L. split; [done|]. intros ?. by apply E, Hb. Qed.

Lemma leaks_if_wf b w w' : leaks_if b w w' → clients_wf w'.
Proof. intros (L & H & _). by apply H. Qed.

Lemma GetPartitionLag_transient now refusal a cc topic part w :
  clients_wf w → acquires ∅ w (GetPartitionLag now refusal a cc topic part w).2.
Proof.
  intros Hw. unfold GetPartitionLag, with_admin.
  destruct (BuildClientOpts now cc); [|by apply acquires_refl..].
  destruct refusal; [by apply acquires_refl|]. by apply acquires_transient.
Qed.

Lemma collect_lags_transient ce cc topic parts lags w :
  clients_wf w → acquires ∅ w (collect_lags ce cc topic parts lags w).2.
Proof.
  revert lags w. induction parts as [|p parts IH]; intros lags w Hw; simpl; [by apply acquires_refl|].
  pose proof (GetPartitionLag_transient (ce_now ce) (ce_lag_refusal ce topic p)
    (ce_lag ce topic p) cc topic p w Hw) as H.
  destruct (GetPartitionLag _ _ _ _ _ _ _) as [lag w1]. eapply acquires_none_l; [exact H|].
  apply IH, H.
Qed.

Lemma CatchUpMultiPartition_transient now refusal drained ps lags w res ps' w' :
  clients_wf w → CatchUpMultiPartition now refusal drained ps lags w = (res, ps', w') →
  (∀ why, res ≠ Panic why) → acquires ∅ w w'.
Proof.
  intros Hw. unfold CatchUpMultiPartition. case_match; [intros [= _ _ <-] _; by apply acquires_refl|].
  destruct (BuildClientOpts _ _); simpl; [|intros [= _ _ <-] _; by apply acquires_refl..].
  destruct refusal; simpl; [intros [= _ _ <-] _; by apply acquires_refl|].
  destruct (drain_totals _ _ _) as [[b r]|e|why] eqn:Ht.
  - intros [= _ _ <-] _. by apply acquires_transient.
  - exfalso. revert Ht. generalize (pipelines lags) as jobs, (0%Z, 0%Z) as t.
    induction jobs as [|j jobs IH]; intros t; simpl; [done|]. destruct (drained j) as [|[]]; [done|apply IH].
  - intros [= <- _ _] Hp. by destruct (Hp why).
Qed.

Lemma NewParallelSource_leaks now refusal cfg src tgt workers w :
  clients_wf w → leaks_if (DLQEnabled cfg) w (NewParallelSource now refusal cfg src tgt workers w).2.
Proof.
  intros Hw. unfold NewParallelSource.
  destruct (wrap_err _ _ _); simpl; [|by apply leaks_if_refl..].
  destruct (NewDLQ now refusal cfg tgt w) as [r w'] eqn:Hd.
  destruct (NewDLQ_acquires _ _ _ _ _ _ _ Hw Hd) as (Ha & Hoff & _). simpl.
  eexists. split; [exact Ha|]. intros Hb. by rewrite (Hoff Hb).
Qed.

Lemma catchup_topic_leaks ce src tgt r workers adm pol topic w acts w' :
  clients_wf w → catchup_topic ce src tgt r workers adm pol topic w = (Ok acts, w') →
  leaks_if (DLQEnabled r) w w'.
Proof.
  intros Hw. unfold catchup_topic.
  destruct (underscore_or_dot topic); [intros [= _ <-]; by apply leaks_if_refl|].
  destruct (NewAdminClient _ _ _ src w) as [[c|e|why] w1] eqn:Ha; [| |done].
  2: { apply NewAdminClient_fails in Ha as ->; [|done]. intros [= _ <-]. by apply leaks_if_refl. }
  apply NewAdminClient_acquires in Ha as [_ Ha]; [|done].
  match goal with |- context [collect_lags ?a ?b ?c ?d ?l ?v] =>
    pose proof (collect_lags_transient a b c d l v (acq_wf _ _ _ Ha)) as Hl;
    destruct (collect_lags a b c d l v) as [lags w2] end.
  assert (leaks_if (DLQEnabled r) w w2) as H2
    by (eapply leaks_if_trans; [exact (leaks_if_none _ _ _ Ha)|by apply leaks_if_none]).
  case_match; [by intros [= _ <-]|].
  match goal with |- context [NewParallelSource ?a ?b ?c ?d ?f ?g ?v] =>
    pose proof (NewParallelSource_leaks a b c d f g v (acq_wf _ _ _ Hl)) as Hp;
    destruct (NewParallelSource a b c d f g v) as [[ps|e|why] w3] end; simpl in Hp; [| |done].
  2: { intros [= _ <-]. by eapply leaks_if_trans. }
  destruct (CatchUpMultiPartition _ _ _ _ _ w3) as [[res ps'] w4] eqn:Hc. intros H4.
  assert (acquires ∅ w3 w4) as Hc'.
  { eapply CatchUpMultiPartition_transient; [exact (leaks_if_wf _ _ _ Hp)|exact Hc|].
    intros why ->. done. }
  assert (w4 = w') as <- by (by destruct res; injection H4).
  eapply leaks_if_trans; [exact H2|]. eapply leaks_if_trans; [exact Hp|]. by apply leaks_if_none.
Qed.

Lemma catchup_topics_leaks ce src tgt r workers adm pol topics w acts w' :
  clients_wf w → catchup_topics ce src tgt r workers adm pol topics w = (Ok acts, w') →
  leaks_if (DLQEnabled r) w w'.
Proof.
  revert w acts. induction topics as [|t ts IH]; intros w acts Hw; simpl.
  { intros [= _ <-]. by apply leaks_if_refl. }
  intros (a1 & w1 & H1 & H)%act_bind_Ok. apply act_bind_Ok in H as (a2 & w2 & H2 & [= _ <-]).
  apply catchup_topic_leaks in H1; [|done]. apply leaks_if_wf in H1 as Hw1.
  eapply leaks_if_trans; [exact H1|]. by eapply IH.
Qed.

(** A client held around a call and closed after it. *)
Lemma leaks_if_around b h w w1 w2 :
  acquires {[h]} w w1 → leaks_if b w1 w2 → leaks_if b w (CloseClient h w2).
Proof.
  intros H1 (L & H2 & E). destruct (acquires_trans _ _ _ _ _ H1 H2) as [H12 Hdis].
  assert (drops {[h]} w2 (CloseClient h w2)) as Hd.
  { apply drops_close; [by apply H2|].
    apply (acquires_known _ _ _ H12), elem_of_union. left. by apply elem_of_singleton. }
  exists (({[h]} ∪ L) ∖ {[h]}). split; [apply (acquires_drops _ _ _ _ _ H12 Hd); set_solver|].
  intros Hb. rewrite (E Hb). set_solver.
Qed.

Lemma catchup_flow_leaks ce src tgt target r w acts w' :
  clients_wf w → catchup_flow ce src tgt target r w = (Ok acts, w') →
  leaks_if (DLQEnabled r) w w'.
Proof.
  intros Hw. unfold catchup_flow.
  destruct (NewAdminClient _ _ _ src w) as [[c|e|why] w1] eqn:Ha; [| |done].
  2: { apply NewAdminClient_fails in Ha as ->; [|done]. intros [= _ <-]. by apply leaks_if_refl. }
  apply NewAdminClient_acquires in Ha as [_ Ha]; [|done]. apply acq_wf in Ha as Hw1.
  apply (leaks_if_none (DLQEnabled r)) in Ha.
  destruct (ListTopics _); [|by intros [= _ <-]..].
  destruct (NewAdminClient _ _ _ tgt _) as [[t|e|why] w2] eqn:Ht.
  2,3: apply NewAdminClient_fails in Ht as ->; [|done];
    destruct (catchup_topics _ _ _ _ _ _ _ _ _) as [x w3] eqn:Hl; intros [= -> <-];
    eapply leaks_if_trans; [exact Ha|]; eapply catchup_topics_leaks; [|exact Hl]; done.
  apply NewAdminClient_acquires in Ht as [Ht _]; [|done].
  destruct (catchup_topics _ _ _ _ _ _ _ _ _) as [x w3] eqn:Hl. intros [= -> <-].
  apply catchup_topics_leaks in Hl; [|by apply Ht].
  eapply leaks_if_trans; [exact Ha|]. by eapply leaks_if_around.
Qed.

(** Some enabled replication has a dead letter queue. *)
Definition any_dlq (rs : list ReplicationConfig) : bool :=
  existsb (λ r, Enabled r && DLQEnabled r) rs.

Lemma catchup_flows_leaks envs targets i rs e w acts w' :
  clients_wf w → catchup_flows envs targets i rs e w = (Ok acts, w') →
  leaks_if (any_dlq rs) w w'.
Proof.
  revert i w acts. induction rs as [|r rs IH]; intros i w acts Hw; simpl.
  { intros [= _ <-]. by apply leaks_if_refl. }
  destruct (Enabled r); simpl; [|by apply IH].
  intros (a1 & w1 & H1 & H)%act_bind_Ok. apply act_bind_Ok in H as (a2 & w2 & H2 & [= _ <-]).
  apply catchup_flow_leaks in H1; [|done]. apply leaks_if_wf in H1 as Hw1.
  apply IH in H2; [|done].
  eapply leaks_if_trans; [exact (leaks_if_weaken _ _ _ _ (λ H, proj1 (orb_false_elim _ _ H)) H1)|].
  exact (leaks_if_weaken _ _ _ _ (λ H, proj2 (orb_false_elim _ _ H)) H2).
Qed.

(** ** Construction *)

(** What [NewEngine] has built: nothing runs, the queues of the sources are the
    engine's. *)
Record fresh_engine (e : Engine) : Prop := {
  fr_sources : Forall (λ s, s_running s = false ∧
                 ∀ d, s_dlq s = Some d → d ∈ e_dlqs e) (e_sources e);
  fr_heartbeats : Forall (λ h, h_running h = false) (e_heartbeats e);
  fr_checkpoints : Forall (λ c, c_running c = false) (e_checkpoints e);
  fr_readers : e_syncReaders e = [];
  fr_writers : e_syncWriters e = [];
  fr_running : e_running e = false;
}.

Lemma NewSource_acquires now refusal cfg src tgt w s w' :
  clients_wf w → NewSource now refusal cfg src tgt w = (Ok s, w') →
  acquires (dlq_opt_owned (s_dlq s)) w w' ∧ s_running s = false ∧ s_syncWriter s = None ∧
  (DLQEnabled cfg = false → s_dlq s = None) ∧
  (DLQEnabled cfg = true → refusal = None → (∃ opts, BuildClientOpts now tgt = Ok opts) →
   dlq_opt_owned (s_dlq s) ≠ ∅).
Proof.
  intros Hw. unfold NewSource. destruct (_ ≫= _) as [[f p]| |]; [|done..].
  destruct (NewDLQ now refusal cfg tgt w) as [r w1] eqn:Hd. intros [= <- <-]. cbn [s_dlq s_running s_syncWriter].
  destruct (NewDLQ_acquires _ _ _ _ _ _ _ Hw Hd) as (Ha & Hoff & _). split; [done|].
  split; [done|]. split; [done|]. split; [intros Hb; by rewrite (Hoff Hb)|].
  intros He -> [opts Ho]. revert Hd. unfold NewDLQ. rewrite He, Ho. cbn.
  intros [= <- _]. cbn. apply non_empty_singleton_L.
Qed.

Lemma NewDLQ_opts now refusal cfg tgt w q w' :
  NewDLQ now refusal cfg tgt w = (Ok q, w') → DLQEnabled cfg = true →
  ∃ opts, BuildClientOpts now tgt = Ok opts.
Proof.
  unfold NewDLQ. intros H He. rewrite He in H. simpl in H.
  destruct (BuildClientOpts now tgt) as [opts| |]; simpl in H; [by exists opts|done..].
Qed.

Lemma NewHeartbeat_idle r tgt h : NewHeartbeat r tgt = Ok h → h_running h = false.
Proof. unfold NewHeartbeat. by intros (p & _ & [= <-])%bind_ok. Qed.

Lemma NewCheckpoint_idle r src tgt c : NewCheckpoint r src tgt = Ok c → c_running c = false.
Proof.
  unfold NewCheckpoint. intros (f & _ & H)%bind_ok. apply bind_ok in H as (g & _ & H).
  by apply bind_ok in H as (p & _ & [= <-]).
Qed.

Lemma new_flow_acquires fe cfg r w p w' :
  clients_wf w → new_flow fe cfg r w = (Ok p, w') →
  ∃ L, acquires (L ∪ dlq_opt_owned (fp_dlq p)) w w' ∧ L ## dlq_opt_owned (fp_dlq p) ∧
  (DLQEnabled r = false → L = ∅) ∧
  (DLQEnabled r = true → fe_refusal1 fe = None → L ≠ ∅) ∧
  s_running (fp_source p) = false ∧ s_syncWriter (fp_source p) = None ∧
  (∀ d, s_dlq (fp_source p) = Some d → fp_dlq p = Some d) ∧
  h_running (fp_heartbeat p) = false ∧ c_running (fp_checkpoint p) = false.
Proof.
  intros Hw. unfold new_flow. destruct (Clusters cfg !! Source r) as [src|]; [|done].
  destruct (Clusters cfg !! Target r) as [tgt|]; [|done].
  intros (s & w1 & Hs%wrap_Ok & H)%act_bind_Ok. apply act_bind_Ok in H as (q & w2 & Hq%wrap_Ok & H).
  apply act_bind_Ok in H as (hb & w3 & Hhb & H). apply lift_Ok in Hhb as [Hhb ->].
  apply act_bind_Ok in H as (cp & w4 & Hcp & H). apply lift_Ok in Hcp as [Hcp ->].
  apply act_bind_Ok in H as (td & w5 & Htd & H). apply lift_Ok in Htd as [Htd ->].
  injection H as <- <-. cbn [fp_source fp_dlq fp_heartbeat fp_checkpoint].
  apply wrap_err_ok, NewHeartbeat_idle in Hhb. apply wrap_err_ok, NewCheckpoint_idle in Hcp.
  destruct (NewSource_acquires _ _ _ _ _ _ _ _ Hw Hs) as (Ha & Hrun & Hsw & Hoff & Hon).
  destruct (NewDLQ_acquires _ _ _ _ _ _ _ (acq_wf _ _ _ Ha) Hq) as (Hb & Hqoff & Hqon).
  exists (dlq_opt_owned (s_dlq s)). destruct (acquires_trans _ _ _ _ _ Ha Hb) as [Hab Hdis].
  split; [done|]. split; [done|]. split; [by intros Hd; rewrite (Hoff Hd)|]. split.
  { intros Hd Hr. apply Hon; [done|done|]. by eapply NewDLQ_opts. }
  split; [by destruct q|]. split; [by destruct q|]. split; [|done].
  intros d. destruct q as [q|]; simpl; [done|]. intros Hsd.
  destruct (DLQEnabled r) eqn:Hd; [by destruct (Hqon None eq_refl eq_refl) as (? & [=] & _)|].
  by rewrite (Hoff eq_refl) in Hsd.
Qed.

Lemma new_flow_dlq fe cfg r w p w' :
  new_flow fe cfg r w = (Ok p, w') → DLQEnabled r = false → fp_dlq p = None.
Proof.
  intros H Hd. unfold new_flow in H. destruct (Clusters cfg !! Source r); [|done].
  destruct (Clusters cfg !! Target r); [|done].
  apply act_bind_Ok in H as (s & w1 & _ & H). apply act_bind_Ok in H as (q & w2 & Hq%wrap_Ok & H).
  do 3 apply act_bind_Ok in H as (? & ? & _ & H). injection H as <- _. cbn [fp_dlq].
  unfold NewDLQ in Hq. rewrite Hd in Hq. by injection Hq as <- _.
Qed.

(** The engine built from some flows: the queues it owns are open, and further
    clients are if some flow has a queue. *)
Definition built (fes : nat → flow_env) (w : clients OS) (rs : list ReplicationConfig)
    (e : Engine) (w' : clients OS) : Prop :=
  fresh_engine e ∧
  ∃ L, acquires (L ∪ owned_all dlq_owned (e_dlqs e)) w w' ∧ L ## owned_all dlq_owned (e_dlqs e) ∧
    (any_dlq rs = false → L = ∅ ∧ e_dlqs e = []) ∧
    (any_dlq rs = true → (∀ i, fe_refusal1 (fes i) = None) → L ≠ ∅).

Lemma any_dlq_snoc rs r : any_dlq (rs ++ [r]) = any_dlq rs || (Enabled r && DLQEnabled r).
Proof. unfold any_dlq. rewrite existsb_app. simpl. by rewrite orb_false_r. Qed.

Lemma add_flow_built fes i cfg w rs e w1 r p w2 :
  built fes w rs e w1 → Enabled r = true → new_flow (fes i) cfg r w1 = (Ok p, w2) →
  built fes w (rs ++ [r]) (add_flow r p e) w2.
Proof.
  intros (Hfr & L & Ha & Hdis & Hoff & Hon) Hen Hnew.
  destruct (new_flow_acquires _ _ _ _ _ _ (acq_wf _ _ _ Ha) Hnew)
    as (L' & Hb & Hdis' & Hoff' & Hon' & Hrun & _ & Hq & Hh & Hc).
  destruct (acquires_trans _ _ _ _ _ Ha Hb) as [Hab Hdis2]. destruct Hfr as [F1 F2 F3 F4 F5 F6].
  assert (owned_all dlq_owned (match fp_dlq p with Some d => [d] | None => [] end) =
          dlq_opt_owned (fp_dlq p)) as Hone.
  { destruct (fp_dlq p); [|done]. rewrite owned_all_cons, owned_all_nil. by rewrite union_empty_r_L. }
  split.
  - split; cbn; [|by apply Forall_app; split; [|repeat constructor]..|done|done|done].
    apply Forall_app. split; [|repeat constructor; [done|]].
    + eapply Forall_impl; [exact F1|]. intros s [Hs1 Hs2]. split; [done|]. intros d Hd.
      apply elem_of_app. left. by apply Hs2.
    + intros d Hd%Hq. rewrite Hd. apply elem_of_app. right. by left.
  - exists (L ∪ L'). rewrite any_dlq_snoc, Hen. cbn [e_dlqs add_flow].
    rewrite owned_all_app, Hone. split_and!.
    + replace (L ∪ L' ∪ _) with
        (L ∪ owned_all dlq_owned (e_dlqs e) ∪ (L' ∪ dlq_opt_owned (fp_dlq p))); [done|].
      clear. set_solver.
    + clear -Hdis Hdis' Hdis2. set_solver.
    + intros [H1 H2]%orb_false_elim. destruct (Hoff H1) as [-> ->]. rewrite (Hoff' H2).
      split; [set_solver|]. apply new_flow_dlq in Hnew; [|done]. by rewrite Hnew.
    + intros [H1|H2]%orb_true_iff Hall.
      * specialize (Hon H1 Hall). clear -Hon. set_solver.
      * specialize (Hon' H2 (Hall i)). clear -Hon'. set_solver.
Qed.

Lemma new_flows_built fes i cfg rs don e w w1 e' w2 :
  built fes w don e w1 → new_flows fes i cfg rs e w1 = (Ok e', w2) →
  built fes w (don ++ rs) e' w2.
Proof.
  revert i don e w1. induction rs as [|r rs IH]; intros i don e w1 Hb; simpl.
  { intros [= <- <-]. by rewrite app_nil_r. }
  replace (don ++ r :: rs) with ((don ++ [r]) ++ rs) by by rewrite <- app_assoc.
  destruct (Enabled r) eqn:Hen; simpl.
  - intros (p & w3 & Hp & H)%act_bind_Ok. eapply IH; [|exact H]. by eapply add_flow_built.
  - apply IH. destruct Hb as (Hfr & L & Hb). split; [done|]. exists L.
    by rewrite any_dlq_snoc, Hen, orb_false_r.
Qed.

Lemma NewEngine_built fes cfg w e w' :
  clients_wf w → NewEngine fes cfg w = (Ok e, w') → built fes w (Replications cfg) e w'.
Proof.
  intros Hw. apply (new_flows_built fes 0 cfg (Replications cfg) []).
  split; [by split|]. exists ∅. cbn [e_dlqs empty_engine]. rewrite owned_all_nil.
  split_and!; [|set_solver|done|done].
  rewrite union_empty_l_L. by apply acquires_refl.
Qed.

(** ** Bootstrap *)

Definition same_source (s s' : SourceReplicator) : Prop :=
  s_running s' = s_running s ∧ s_dlq s' = s_dlq s.

#[local] Instance same_source_refl : Reflexive same_source.
Proof. by split. Qed.
#[local] Instance same_source_trans : Transitive same_source.
Proof. intros x y z [? ?] [? ?]. split; congruence. Qed.

(** Readers and writers are added, which hold the clients acquired; the other
    components keep what they hold. *)
Definition bootstrapped (w : clients OS) (e e' : Engine) (w' : clients OS) : Prop :=
  ∃ rds wrs, e_syncReaders e' = e_syncReaders e ++ rds ∧
    e_syncWriters e' = e_syncWriters e ++ wrs ∧
    acquires (owned_all reader_owned rds ∪ owned_all writer_owned wrs) w w' ∧
    e_dlqs e' = e_dlqs e ∧ e_heartbeats e' = e_heartbeats e ∧
    e_checkpoints e' = e_checkpoints e ∧ e_cfg e' = e_cfg e ∧
    Forall2 same_source (e_sources e) (e_sources e').

Lemma bootstrapped_refl w e : clients_wf w → bootstrapped w e e w.
Proof.
  intros Hw. exists [], []. rewrite !app_nil_r. split_and!; try done.
  - rewrite !owned_all_nil, union_empty_l_L. by apply acquires_refl.
Qed.

Lemma bootstrapped_trans w e w1 e1 w2 e2 :
  bootstrapped w e e1 w1 → bootstrapped w1 e1 e2 w2 → bootstrapped w e e2 w2.
Proof.
  intros (r1 & s1 & Hr1 & Hs1 & Ha1 & Hd1 & Hh1 & Hc1 & Hf1 & Hq1)
    (r2 & s2 & Hr2 & Hs2 & Ha2 & Hd2 & Hh2 & Hc2 & Hf2 & Hq2).
  exists (r1 ++ r2), (s1 ++ s2). rewrite !owned_all_app. split_and!; try congruence.
  - by rewrite Hr2, Hr1, app_assoc.
  - by rewrite Hs2, Hs1, app_assoc.
  - replace (_ ∪ _) with (owned_all reader_owned r1 ∪ owned_all writer_owned s1 ∪
      (owned_all reader_owned r2 ∪ owned_all writer_owned s2)) by (clear; set_solver).
    by eapply acquires_trans.
  - by etrans.
Qed.

Lemma alter_same_source (sw : SyncWriter) i ss : Forall2 same_source ss (alter (SetSyncWriter sw) i ss).
Proof.
  revert i. induction ss as [|s ss IH]; intros [|i]; simpl; constructor;
    try done; apply IH.
Qed.

(** What a bootstrap that succeeds has done for one flow. *)
Lemma bootstrap_flow_Ok be r e w e' w' :
  clients_wf w → bootstrap_flow be r e w = (Ok e', w') →
  ∃ k pol rd wr store,
    e_syncStores e !! flow_key r = Some k ∧
    NewPolicy (Config.ReplicationPolicy r) (Config.Separator r) = Ok pol ∧
    read_with_timeout (be_polls be (cluster e (Source r)) (OffsetSyncsTopic pol (Source r)))
      (default NewSyncStore (e_stores e !! k)) = (Ok (), store) ∧
    sw_topic wr = OffsetSyncsTopic pol (Source r) ∧ sw_closed wr = false ∧
    writes_to (be_now be) (cluster e (Source r)) wr w' ∧
    acquires (reader_owned rd ∪ writer_owned wr) w w' ∧
    let e1 := set_sync_io (e_syncReaders e ++ [rd]) (e_syncWriters e ++ [wr])
                (set_stores (<[k := store]> (e_stores e)) e) in
    e' = match e_sourcesByFlow e !! flow_key r with
         | Some i => set_sources (alter (SetSyncWriter wr) i (e_sources e)) e1
         | None => e1
         end.
Proof.
  intros Hw. unfold bootstrap_flow. destruct (e_syncStores e !! flow_key r) as [k|] eqn:Hk; [|done].
  intros (pol & w1 & Hp & H)%act_bind_Ok. apply lift_Ok in Hp as [Hp%wrap_err_ok ->].
  apply act_bind_Ok in H as (adm & w2 & Ha%wrap_Ok & H).
  apply act_bind_Ok in H as (u & w3 & [= _ <-] & H).
  apply act_bind_Ok in H as (rd & w4 & Hrd%wrap_Ok & H).
  apply NewAdminClient_acquires in Ha as [_ Ha]; [|done].
  apply NewSyncReader_acquires in Hrd as [Hrd Hrt]; [|by apply Ha]. rewrite Hrt in H.
  destruct (read_with_timeout _ _) as [[[]|err|why] store] eqn:Hread; [|done..].
  apply act_bind_Ok in H as (wr & w5 & Hwr%wrap_Ok & H).
  apply NewSyncWriter_acquires in Hwr as (Hwr & Hwt & Hwc & Hto); [|by apply Hrd].
  injection H as <- <-. exists k, pol, rd, wr, store. split_and!; try done.
  eapply acquires_none_l; [exact Ha|]. by eapply acquires_trans.
Qed.

Lemma bootstrap_flow_bootstrapped be r e w e' w' :
  clients_wf w → bootstrap_flow be r e w = (Ok e', w') → bootstrapped w e e' w'.
Proof.
  intros Hw H. destruct (bootstrap_flow_Ok _ _ _ _ _ _ Hw H)
    as (k & pol & rd & wr & store & _ & _ & _ & _ & _ & _ & Ha & ->).
  exists [rd], [wr]. rewrite !owned_all_cons, !owned_all_nil, !union_empty_r_L.
  destruct (e_sourcesByFlow e !! _); split_and!; try done. apply alter_same_source.
Qed.

Lemma bootstrap_flows_bootstrapped bes i rs e w e' w' :
  clients_wf w → bootstrap_flows bes i rs e w = (Ok e', w') → bootstrapped w e e' w'.
Proof.
  revert i e w. induction rs as [|r rs IH]; intros i e w Hw; simpl.
  { intros [= <- <-]. by apply bootstrapped_refl. }
  destruct (Enabled r); simpl; [|by apply IH].
  destruct (BoolDefault _ _); simpl; [|by apply IH].
  intros (e1 & w1 & H1 & H)%act_bind_Ok.
  pose proof (bootstrap_flow_bootstrapped _ _ _ _ _ _ Hw H1) as Hb.
  eapply bootstrapped_trans; [exact Hb|]. eapply IH; [|exact H].
  by destruct Hb as (? & ? & _ & _ & Ha & _); apply Ha.
Qed.

(** ** Start and shutdown *)

Lemma Source_Start_dlq now r1 r2 s w : s_dlq (Source_Start now r1 r2 s w).1.2 = s_dlq s.
Proof.
  unfold Source_Start. destruct (s_running s); [done|].
  destruct (wrap_err _ _ _); [|done..]. destruct r1; [done|]. simpl.
  destruct (wrap_err _ _ _); [|done..]. by destruct r2.
Qed.

Lemma start_list_rel {A} (R : A → A → Prop) `{!Reflexive R}
    (start : nat → A → clients OS → outcome unit * A * clients OS) fmt i xs w :
  (∀ i x w, R x (start i x w).1.2) → Forall2 R xs (start_list start fmt i xs w).1.2.
Proof.
  intros HR. revert i w. induction xs as [|x xs IH]; intros i w; simpl; [constructor|].
  pose proof (HR i x w) as Hx. destruct (start i x w) as [[[u|e|why] x'] w1]; simpl in Hx.
  - specialize (IH (S i) w1). destruct (start_list _ _ _ _ _) as [[r xs'] w2]. by constructor.
  - by constructor.
  - by constructor.
Qed.

Definition started_owned (e : Engine) : gset nat :=
  owned_all source_owned (e_sources e) ∪ owned_all heartbeat_owned (e_heartbeats e)
  ∪ owned_all checkpoint_owned (e_checkpoints e).

Definition same_dlq (s s' : SourceReplicator) : Prop := s_dlq s' = s_dlq s.

#[local] Instance same_dlq_refl : Reflexive same_dlq.
Proof. done. Qed.

(** What [start_phases] keeps. *)
Definition same_io (e e' : Engine) : Prop :=
  e_dlqs e' = e_dlqs e ∧ e_syncReaders e' = e_syncReaders e ∧
  e_syncWriters e' = e_syncWriters e ∧
  Forall2 same_dlq (e_sources e) (e_sources e').

Lemma start_phases_acquires re e w u e' w' :
  clients_wf w → Forall (λ s, s_running s = false) (e_sources e) →
  Forall (λ h, h_running h = false) (e_heartbeats e) →
  Forall (λ c, c_running c = false) (e_checkpoints e) →
  start_phases re e w = (Ok u, e', w') →
  acquires (started_owned e') w w' ∧ same_io e e'.
Proof.
  intros Hw Hs Hh Hc. unfold start_phases, start_sources, start_heartbeats, start_checkpoints.
  match goal with |- context [start_list ?f ?m 0 (e_sources e) w] =>
    pose proof (start_list_rel same_dlq f m 0 (e_sources e) w
      (λ i s w, Source_Start_dlq _ _ _ s w)) as Hdlq;
    destruct (start_list f m 0 (e_sources e) w) as [[[[]|?|?] ss] w1] eqn:E1 end; [|done..].
  destruct (start_discoveries (e_topicDiscoveries e) w1) as [[[[]|?|?] tds] w1'] eqn:E2; [|done..].
  assert (w1' = w1) as ->.
  { clear -E2. unfold start_discoveries in E2. revert E2. generalize 0 as i. revert tds.
    induction (e_topicDiscoveries e) as [|td l IH]; intros tds i; simpl; [by intros [= _ ->]|].
    destruct (Discovery_Start td) as [[?|?|?] td']; [|done..].
    destruct (start_list _ _ (S i) l w1) as [[r l'] w2] eqn:El. intros [= -> _ ->]. by eapply IH. }
  match goal with |- context [start_list ?f ?m 0 (e_heartbeats e) w1] =>
    destruct (start_list f m 0 (e_heartbeats e) w1) as [[[[]|?|?] hbs] w3] eqn:E3 end; [|done..].
  match goal with |- context [start_list ?f ?m 0 (e_checkpoints e) w3] =>
    destruct (start_list f m 0 (e_checkpoints e) w3) as [[r cps] w4] eqn:E4 end.
  intros [= -> <- <-].
  eapply (start_list_acquires source_owned (λ s, s_running s = false)) in E1;
    [|intros i x v x' v' u' Hx Hv H; exact (proj1 (Source_Start_acquires _ _ _ _ _ _ _ _ Hx Hv H))
     |done|done].
  eapply (start_list_acquires heartbeat_owned (λ h, h_running h = false)) in E3;
    [|intros i x v x' v' u'; apply Heartbeat_Start_acquires|done|by apply E1].
  eapply (start_list_acquires checkpoint_owned (λ c, c_running c = false)) in E4;
    [|intros i x v x' v' u'; apply Checkpoint_Start_acquires|done|by apply E3].
  split; [|by split_and!].
  destruct (acquires_trans _ _ _ _ _ E1 E3) as [E13 _]. by eapply acquires_trans.
Qed.

Definition closed_by_shutdown (e : Engine) : gset nat :=
  owned_all checkpoint_owned (e_checkpoints e) ∪ owned_all heartbeat_owned (e_heartbeats e)
  ∪ owned_all source_closes (e_sources e) ∪ owned_all reader_owned (e_syncReaders e)
  ∪ owned_all writer_owned (e_syncWriters e) ∪ owned_all dlq_owned (e_dlqs e).

Lemma drops_then X Y w w1 w2 :
  drops X w w1 → (clients_wf w1 → known Y w1 → drops Y w1 w2) → known Y w →
  drops (X ∪ Y) w w2.
Proof.
  intros HX HY Hk. eapply drops_trans; [exact HX|]. apply HY; [by apply HX|].
  intros h Hh. rewrite (drop_created _ _ _ HX). by apply Hk.
Qed.

Lemma Shutdown_drops errCount e w :
  clients_wf w → known (closed_by_shutdown e) w →
  drops (closed_by_shutdown e) w (Shutdown errCount e w).2.
Proof.
  intros Hw Hk. unfold Shutdown, closed_by_shutdown in *.
  assert (∀ X Y : gset nat, known (X ∪ Y) w → known X w ∧ known Y w) as Hsplit.
  { intros X Y HXY. split; intros h Hh; apply HXY, elem_of_union; tauto. }
  apply Hsplit in Hk as [Hk K6]. apply Hsplit in Hk as [Hk K5]. apply Hsplit in Hk as [Hk K4].
  apply Hsplit in Hk as [Hk K3]. apply Hsplit in Hk as [K1 K2].
  pose proof (stop_list_drops checkpoint_owned Checkpoint_Stop (e_checkpoints e) w
    (λ c w, Checkpoint_Stop_drops c w) Hw K1) as D.
  destruct (stop_list Checkpoint_Stop _ _) as [cps w1]. cbn [snd] in D.
  pose proof (drops_then _ _ _ _ _ D (stop_list_drops heartbeat_owned Heartbeat_Stop
    (e_heartbeats e) w1 (λ h w, Heartbeat_Stop_drops h w)) K2) as D2. clear D.
  destruct (stop_list Heartbeat_Stop _ _) as [hbs w2]. cbn [snd] in D2.
  pose proof (drops_then _ _ _ _ _ D2 (stop_list_drops source_closes
    (λ s w, (Source_Stop errCount s w).1) (e_sources e) w2
    (λ s w, Source_Stop_drops errCount s w)) K3) as D3. clear D2.
  destruct (stop_list (λ s w, _) _ _) as [ss w3]. cbn [snd] in D3.
  assert (∀ (sr : SyncReader) (v : clients OS), clients_wf v → known (reader_owned sr) v →
    drops (reader_owned sr) v (SyncReader_Close sr v)) as Hrd.
  { intros sr v Hv Hkv. unfold reader_owned in *. apply drops_close; [done|].
    apply Hkv. by apply elem_of_singleton. }
  pose proof (drops_then _ _ _ _ _ D3 (stop_list_drops reader_owned
    (λ sr w, (sr, SyncReader_Close sr w)) (e_syncReaders e) w3 Hrd) K4) as D4. clear D3.
  destruct (stop_list (λ sr w, (sr, _)) _ _) as [rds w4]. cbn [snd] in D4.
  pose proof (drops_then _ _ _ _ _ D4 (stop_list_drops writer_owned SyncWriter_Close
    (e_syncWriters e) w4 (λ s w, SyncWriter_Close_drops s w)) K5) as D5. clear D4.
  destruct (stop_list SyncWriter_Close _ _) as [wrs w5]. cbn [snd] in D5.
  pose proof (drops_then _ _ _ _ _ D5 (stop_list_drops dlq_owned DLQ_Close
    (e_dlqs e) w5 (λ d w, DLQ_Close_drops d w)) K6) as D6.
  destruct (stop_list DLQ_Close _ _) as [dlqs w6]. exact D6.
Qed.
(** ** A run *)

(** What a shutdown closes, when the queues of the sources are the engine's. *)
Lemma closed_by_shutdown_eq e :
  Forall (λ s, ∀ d, s_dlq s = Some d → d ∈ e_dlqs e) (e_sources e) →
  closed_by_shutdown e =
  started_owned e ∪ owned_all reader_owned (e_syncReaders e)
  ∪ owned_all writer_owned (e_syncWriters e) ∪ owned_all dlq_owned (e_dlqs e).
Proof.
  intros HF. unfold closed_by_shutdown, started_owned.
  set (C := owned_all checkpoint_owned _). set (H := owned_all heartbeat_owned _).
  set (R := owned_all reader_owned _). set (W := owned_all writer_owned _).
  assert (owned_all source_closes (e_sources e) ∪ owned_all dlq_owned (e_dlqs e) =
          owned_all source_owned (e_sources e) ∪ owned_all dlq_owned (e_dlqs e)) as Hs.
  { induction HF as [|s ss Hd _ IH]; [done|]. rewrite !owned_all_cons.
    assert (source_closes s ∪ owned_all dlq_owned (e_dlqs e) =
            source_owned s ∪ owned_all dlq_owned (e_dlqs e)) as H1.
    { unfold source_closes, source_owned. destruct (s_running s); [|done].
      destruct (s_dlq s) as [d|]; cbn [dlq_opt_owned]; [|by rewrite union_empty_r_L].
      rewrite <- union_assoc_L. f_equal. apply subseteq_union_1_L. intros h Hh.
      apply elem_of_owned_all. exists d. split; [by apply Hd|done]. }
    clear -H1 IH. set_solver. }
  clear -Hs. set_solver.
Qed.

Lemma Forall2_source_dlq (R : relation SourceReplicator) (ds : list DLQ) ss ss' :
  (∀ s s', R s s' → s_dlq s' = s_dlq s) → Forall2 R ss ss' →
  Forall (λ s, ∀ d, s_dlq s = Some d → d ∈ ds) ss →
  Forall (λ s, ∀ d, s_dlq s = Some d → d ∈ ds) ss'.
Proof.
  intros HR H. induction H as [|s s' ss ss' Hs _ IH]; intros HF; [constructor|].
  inversion HF as [|? ? Hd HF']; subst. constructor; [|by apply IH].
  intros d. rewrite (HR _ _ Hs). apply Hd.
Qed.

Lemma new_flows_cfg fes i cfg rs e w e' w' :
  new_flows fes i cfg rs e w = (Ok e', w') → e_cfg e' = e_cfg e.
Proof.
  revert i e w. induction rs as [|r rs IH]; intros i e w; simpl; [by intros [= -> _]|].
  destruct (Enabled r); simpl; [|apply IH].
  intros (p & w1 & _ & H)%act_bind_Ok. by rewrite (IH _ _ _ H).
Qed.

Lemma same_source_dlq s s' : same_source s s' → s_dlq s' = s_dlq s.
Proof. by intros [_ ?]. Qed.

(** The state before the shutdown of a run all of whose phases succeed. *)
Lemma Run_acquires fes re cfg w e w1 acts e' w2 :
  clients_wf w → NewEngine fes cfg w = (Ok e, w1) → Run re e w1 = (Ok acts, e', w2) →
  ∃ e4 w4 L, Shutdown (rn_errCount re) e4 w4 = (e', w2) ∧
    acquires (L ∪ closed_by_shutdown e4) w w4 ∧ L ## closed_by_shutdown e4 ∧
    (any_dlq (Replications cfg) = false → L = ∅) ∧
    (any_dlq (Replications cfg) = true → (∀ i, fe_refusal1 (fes i) = None) → L ≠ ∅).
Proof.
  intros Hw HN HR. destruct (NewEngine_built _ _ _ _ _ Hw HN)
    as ([F1 F2 F3 F4 F5 F6] & L1 & A1 & D1 & Hoff & Hon).
  unfold Run in HR. rewrite F6 in HR. set (e0 := set_parts _ _ _ _ _ _ _ e) in HR.
  destruct (wrap _ _ _ w1) as [[e1|?|?] wb] eqn:HB; [|done..]. apply wrap_Ok in HB.
  destruct (bootstrap_flows_bootstrapped _ _ _ _ _ _ _ (acq_wf _ _ _ A1) HB)
    as (rds & wrs & Er & Ew & A2 & Ed & Eh & Ec & Ecfg & Es).
  cbn [e0 set_parts e_syncReaders e_syncWriters e_dlqs e_heartbeats e_checkpoints e_cfg e_sources]
    in Er, Ew, Ed, Eh, Ec, Ecfg, Es. rewrite F4 in Er. rewrite F5 in Ew. simpl in Er, Ew.
  rewrite Ecfg, (new_flows_cfg _ _ _ _ _ _ _ _ HN) in HR. cbn [e_cfg empty_engine] in HR.
  destruct (catchup_flows _ _ _ _ _ wb) as [[a|?|?] w3] eqn:HC; [|done..].
  apply catchup_flows_leaks in HC as (L2 & A3 & Hoff2); [|by apply A2].
  destruct (start_phases re e1 w3) as [[[[]|?|?] e4] w4] eqn:HS; [|done..].
  destruct (Shutdown _ e4 w4) as [e5 w5] eqn:HD. injection HR as <- <- <-.
  assert (Forall (λ s, s_running s = false) (e_sources e1)) as Hidle.
  { apply (Forall_impl _ (λ s, s_running s = false)) in F1; [|by intros s []].
    clear -Es F1. induction Es as [|s s' ss ss' [Hs _] _ IH]; [constructor|].
    inversion F1; subst. constructor; [congruence|by apply IH]. }
  assert (Forall (λ s, ∀ d, s_dlq s = Some d → d ∈ e_dlqs e) (e_sources e1)) as Hq.
  { eapply Forall2_source_dlq; [exact same_source_dlq|exact Es|].
    eapply Forall_impl; [exact F1|]. by intros s []. }
  apply start_phases_acquires in HS as (A4 & Sd & Sr & Sw & Ss);
    [|apply A3|done|by rewrite Eh|by rewrite Ec].
  exists e4, w4, (L1 ∪ L2). split; [done|].
  rewrite closed_by_shutdown_eq.
  2:{ rewrite Sd, Ed. eapply Forall2_source_dlq; [|exact Ss|exact Hq]. done. }
  rewrite Sd, Sr, Sw, Er, Ew, Ed.
  destruct (acquires_trans _ _ _ _ _ A1 A2) as [A12 D12].
  destruct (acquires_trans _ _ _ _ _ A12 A3) as [A123 D123].
  destruct (acquires_trans _ _ _ _ _ A123 A4) as [A D].
  split; [|split; [clear -D1 D12 D123 D; set_solver|split]].
  - replace (L1 ∪ L2 ∪ _) with (L1 ∪ owned_all dlq_owned (e_dlqs e)
      ∪ (owned_all reader_owned rds ∪ owned_all writer_owned wrs) ∪ L2 ∪ started_owned e4)
      by (clear; set_solver). done.
  - intros Hb. destruct (Hoff Hb) as [-> _]. rewrite (Hoff2 Hb). by rewrite union_empty_l_L.
  - intros Hb Hall. specialize (Hon Hb Hall). clear -Hon. set_solver.
Qed.

Lemma Shutdown_stops errCount e w : e_running (Shutdown errCount e w).1 = false.
Proof. unfold Shutdown. by repeat case_match; simplify_eq. Qed.

(** C24. What a run leaves open: a run that returns without error (after its
    signal) has closed every client that the construction, the bootstrap, the
    catch-up and the started components opened, when no enabled replication has
    a dead letter queue. When one has, and its first queue could be built, some
    client stays open: the queue that [NewSource] opens is replaced by the
    engine's before anything closes it. *)
Theorem run_releases fes re cfg w e w1 acts e' w2 :
  clients_wf w → NewEngine fes cfg w = (Ok e, w1) → Run re e w1 = (Ok acts, e', w2) →
  e_running e' = false ∧
  ∃ leaked, acquires leaked w w2 ∧
    (any_dlq (Replications cfg) = false → leaked = ∅) ∧
    (any_dlq (Replications cfg) = true → (∀ i, fe_refusal1 (fes i) = None) → leaked ≠ ∅).
Proof.
  intros Hw HN HR.
  destruct (Run_acquires _ _ _ _ _ _ _ _ _ Hw HN HR) as (e4 & w4 & L & HD & A & Dis & Hoff & Hon).
  split; [by rewrite <- (Shutdown_stops (rn_errCount re) e4 w4), HD|].
  exists L. split; [|done].
  pose proof (Shutdown_drops (rn_errCount re) e4 w4 (acq_wf _ _ _ A)) as Hd. rewrite HD in Hd.
  apply (acquires_drops _ (closed_by_shutdown e4) _ w4 w2) in A as A'.
  - replace ((L ∪ closed_by_shutdown e4) ∖ closed_by_shutdown e4) with L in A'; [done|].
    clear -Dis. set_solver.
  - apply Hd. intros h Hh. apply (acquires_known _ _ _ A), elem_of_union. by right.
  - set_solver.
Qed.
(** ** What the bootstrap wires *)

Definition enabled_flows (rs : list ReplicationConfig) : list ReplicationConfig :=
  filter (λ r, Enabled r = true) rs.
Definition emits (r : ReplicationConfig) : bool := BoolDefault (EmitOffsetSyncs r) true.

(** The maps of the engine hold the position of each flow. *)
Definition indexed (fs : list ReplicationConfig) (e : Engine) : Prop :=
  (∀ key k, e_syncStores e !! key = Some k ↔ flow_key <$> fs !! k = Some key) ∧
  e_sourcesByFlow e = e_syncStores e.

(** The [k]th enabled flow is the [i]th of the configuration. *)
Definition flow_at (rs : list ReplicationConfig) (i k : nat) (r : ReplicationConfig) : Prop :=
  rs !! i = Some r ∧ Enabled r = true ∧ length (enabled_flows (take i rs)) = k.

(** The source and the store of a flow, which is the [k]th enabled one: a source
    with an open writer to the flow's topic on the cluster it replicates from, and a
    store that has read that topic of that cluster, in the environment [bes i] of
    the flow's turn; or a source without writer and an empty store. *)
Definition wired (bes : nat → bootstrap_env) (e : Engine) (w : clients OS) (k : nat)
    (r : ReplicationConfig) (b : bool) : Prop :=
  ∃ s st, e_sources e !! k = Some s ∧ s_cfg s = r ∧ e_stores e !! k = Some st ∧
    if b then
      ∃ wr pol i, flow_at (Replications (e_cfg e)) i k r ∧
        NewPolicy (Config.ReplicationPolicy r) (Config.Separator r) = Ok pol ∧
        s_syncWriter s = Some wr ∧ sw_closed wr = false ∧
        sw_topic wr = OffsetSyncsTopic pol (Source r) ∧
        writes_to (be_now (bes i)) (cluster e (Source r)) wr w ∧
        read_with_timeout
          (be_polls (bes i) (cluster e (Source r)) (OffsetSyncsTopic pol (Source r))) NewSyncStore
          = (Ok (), st)
    else s_syncWriter s = None ∧ st = NewSyncStore.

Lemma wired_mono bes e w w' k r b :
  created w `prefix_of` created w' → wired bes e w k r b → wired bes e w' k r b.
Proof.
  intros Hp (s & st & H1 & H2 & H3 & H). exists s, st. split_and!; try done.
  destruct b; [|done]. destruct H as (wr & pol & i & ? & ? & ? & ? & ? & Hw & ?).
  exists wr, pol, i. split_and!; try done. by eapply writes_to_mono.
Qed.

Lemma enabled_flows_app rs rs' :
  enabled_flows (rs ++ rs') = enabled_flows rs ++ enabled_flows rs'.
Proof. apply filter_app. Qed.

Lemma lookup_snoc_Some {A} (l : list A) x k y :
  (l ++ [x]) !! k = Some y ↔ l !! k = Some y ∨ k = length l ∧ x = y.
Proof.
  rewrite lookup_app_Some. split.
  - intros [?|[Hk H]]; [by left|]. right. apply list_lookup_singleton_Some in H as [? ->].
    split; [lia|done].
  - intros [?|[-> ->]]; [by left|right]. split; [lia|]. by rewrite Nat.sub_diag.
Qed.

Lemma new_flow_source fe cfg r w p w' :
  new_flow fe cfg r w = (Ok p, w') →
  s_cfg (fp_source p) = r ∧ s_syncWriter (fp_source p) = None.
Proof.
  unfold new_flow. destruct (Clusters cfg !! Source r) as [src|]; [|done].
  destruct (Clusters cfg !! Target r) as [tgt|]; [|done].
  intros (s & w1 & Hs%wrap_Ok & H)%act_bind_Ok. apply act_bind_Ok in H as (q & w2 & _ & H).
  do 3 apply act_bind_Ok in H as (? & ? & _ & H). injection H as <- _. cbn [fp_source].
  unfold NewSource in Hs. destruct (_ ≫= _) as [[f pl]| |]; [|done..].
  destruct (NewDLQ _ _ _ _ w) as [z w5]. injection Hs as <- _. by destruct q.
Qed.

(** The engine of the flows [fs]. *)
Definition laid_out (bes : nat → bootstrap_env) (fs : list ReplicationConfig) (e : Engine)
    : Prop :=
  length (e_sources e) = length fs ∧ length (e_stores e) = length fs ∧
  indexed fs e ∧ ∀ k r, fs !! k = Some r → ∀ w, wired bes e w k r false.

Lemma add_flow_laid_out bes fe cfg fs r w p w' e :
  laid_out bes fs e → NoDup (flow_key <$> fs ++ [r]) → new_flow fe cfg r w = (Ok p, w') →
  laid_out bes (fs ++ [r]) (add_flow r p e).
Proof.
  intros (Hls & Hlt & [Hix Heq] & Hw) Hnd Hp. apply new_flow_source in Hp as [Hc Hs].
  rewrite fmap_app in Hnd. apply NoDup_app in Hnd as (_ & Hnd & _).
  assert (e_syncStores e !! flow_key r = None) as Hnone.
  { destruct (e_syncStores e !! flow_key r) as [k|] eqn:Hk; [|done]. apply Hix in Hk.
    destruct (Hnd (flow_key r)); [|by left].
    apply list_elem_of_lookup. exists k. by rewrite list_lookup_fmap. }
  unfold laid_out, indexed, wired.
  cbn [add_flow e_sources e_stores e_syncStores e_sourcesByFlow].
  rewrite !length_app, Hls, Hlt. split_and!; [done|done|..].
  - intros key k. rewrite lookup_insert_Some, Hix.
    split.
    + intros [[<- <-]|[Hne Hk]].
      * by rewrite lookup_app_r, Nat.sub_diag by done.
      * rewrite lookup_app_l; [done|]. apply fmap_Some in Hk as (? & Hk & _).
        by apply lookup_lt_Some in Hk.
    + intros (x & Hx & ->)%fmap_Some. apply lookup_snoc_Some in Hx as [Hx|[-> ->]].
      * right. rewrite Hx. split; [|done]. intros Hr.
        assert (e_syncStores e !! flow_key x = Some k) as Hk by (apply Hix; by rewrite Hx).
        by rewrite <- Hr, Hnone in Hk.
      * by left.
  - by rewrite Heq.
  - intros k x [Hx|[-> <-]]%lookup_snoc_Some w0.
    + destruct (Hw k x Hx w0) as (s & st & H1 & H2 & H3 & H4). exists s, st.
      split_and!; [by apply lookup_app_l_Some|done|by apply lookup_app_l_Some|apply H4..].
    + exists (fp_source p), NewSyncStore.
      rewrite <- Hls at 1. rewrite <- Hlt. rewrite !list_lookup_middle by done. done.
Qed.
Lemma new_flows_laid_out bes fes i cfg rs don e w e' w' :
  laid_out bes (enabled_flows don) e → NoDup (flow_key <$> enabled_flows (don ++ rs)) →
  new_flows fes i cfg rs e w = (Ok e', w') → laid_out bes (enabled_flows (don ++ rs)) e'.
Proof.
  revert i don e w. induction rs as [|r rs IH]; intros i don e w Hl Hnd; simpl.
  { intros [= <- _]. by rewrite app_nil_r. }
  replace (don ++ r :: rs) with ((don ++ [r]) ++ rs) in * by by rewrite <- app_assoc.
  assert (enabled_flows (don ++ [r]) =
          enabled_flows don ++ if Enabled r then [r] else []) as Hsnoc.
  { rewrite enabled_flows_app. unfold enabled_flows at 2. rewrite filter_cons, filter_nil.
    destruct (Enabled r); by case_decide. }
  destruct (Enabled r) eqn:Hen; simpl.
  - intros (p & w1 & Hp & H)%act_bind_Ok. eapply IH; [|done|exact H].
    rewrite Hsnoc. eapply add_flow_laid_out; [done| |exact Hp].
    rewrite enabled_flows_app, fmap_app, Hsnoc in Hnd. by apply NoDup_app in Hnd as [? _].
  - apply IH; [|done]. by rewrite Hsnoc, app_nil_r.
Qed.

Lemma indexed_keys fs e j k x r :
  indexed fs e → fs !! j = Some x → fs !! k = Some r → flow_key x = flow_key r → j = k.
Proof.
  intros [Hix _] Hj Hk Heq.
  assert (e_syncStores e !! flow_key r = Some j) as H1 by (apply Hix; by rewrite Hj, <- Heq).
  assert (e_syncStores e !! flow_key r = Some k) as H2 by (apply Hix; by rewrite Hk).
  congruence.
Qed.

Lemma bootstrap_flow_wires bes i fs k r e w e' w' :
  clients_wf w → indexed fs e → fs !! k = Some r → flow_at (Replications (e_cfg e)) i k r →
  wired bes e w k r false → bootstrap_flow (bes i) r e w = (Ok e', w') →
  e_cfg e' = e_cfg e ∧ clients_wf w' ∧ indexed fs e' ∧ wired bes e' w' k r true ∧
  ∀ j x b, j ≠ k → wired bes e w j x b → wired bes e' w' j x b.
Proof.
  intros Hw [Hix Heq] Hk Hat (s & st & H1 & H2 & H3 & H4 & H5) Hb.
  assert (e_syncStores e !! flow_key r = Some k) as Hkey by (apply Hix; by rewrite Hk).
  destruct (bootstrap_flow_Ok _ _ _ _ _ _ Hw Hb)
    as (k' & pol & rd & wr & store & Hk' & Hpol & Hread & Hwt & Hwc & Hto & Ha & ->).
  rewrite Hkey in Hk'. injection Hk' as <-. rewrite Heq, Hkey. rewrite H3, H5 in Hread.
  assert (∀ j x b, j ≠ k → wired bes e w j x b → wired bes e w' j x b) as Hmono
    by (intros j x b _; apply wired_mono; apply Ha).
  unfold indexed, wired, cluster in *.
  cbn [set_sources set_sync_io set_stores e_syncStores e_sourcesByFlow e_sources e_stores e_cfg].
  split; [done|]. split; [apply Ha|]. split; [done|]. split.
  - exists (SetSyncWriter wr s), store. rewrite list_lookup_alter_eq, H1.
    rewrite list_lookup_insert_eq by (by eapply lookup_lt_Some).
    split_and!; try done. by exists wr, pol, i.
  - intros j x b Hne (s' & st' & G)%Hmono; [|done]. exists s', st'.
    by rewrite list_lookup_alter_ne, list_lookup_insert_ne by done.
Qed.

(** The flows of [don] have been visited. *)
Lemma bootstrap_flows_wires bes all don rs e w e' w' :
  let fs := enabled_flows all in
  clients_wf w → indexed fs e → Replications (e_cfg e) = all → all = don ++ rs →
  (∀ k r, fs !! k = Some r → wired bes e w k r ((k <? length (enabled_flows don)) && emits r)) →
  bootstrap_flows bes (length don) rs e w = (Ok e', w') →
  indexed fs e' ∧ ∀ k r, fs !! k = Some r → wired bes e' w' k r (emits r).
Proof.
  intros fs. revert don e w. induction rs as [|r rs IH]; intros don e w Hw Hix Hcfg Hd Hall; simpl.
  { intros [= <- <-]. split; [done|]. intros k x Hk. specialize (Hall k x Hk).
    unfold fs in Hk. rewrite Hd, app_nil_r in Hk. apply lookup_lt_Some in Hk.
    by rewrite (proj2 (Nat.ltb_lt _ _)) in Hall by lia. }
  assert (all = (don ++ [r]) ++ rs) as Hd' by (by rewrite <- app_assoc).
  assert (S (length don) = length (don ++ [r])) as Hl by (rewrite length_app; simpl; lia).
  set (n := length (enabled_flows don)).
  assert (enabled_flows (don ++ [r]) =
          enabled_flows don ++ if Enabled r then [r] else []) as Hsnoc.
  { rewrite enabled_flows_app. unfold enabled_flows at 2. rewrite filter_cons, filter_nil.
    destruct (Enabled r); by case_decide. }
  destruct (Enabled r) eqn:Hen; simpl; rewrite Hl.
  2:{ apply (IH (don ++ [r]) e w); [done|done|done|done|]. by rewrite Hsnoc, app_nil_r. }
  assert (fs !! n = Some r) as Hn.
  { unfold fs. rewrite Hd', enabled_flows_app, Hsnoc, <- app_assoc. by apply list_lookup_middle. }
  assert (length (enabled_flows (don ++ [r])) = S n) as Hlen
    by (rewrite Hsnoc, length_app; simpl; unfold n; lia).
  pose proof (Hall n r Hn) as Hr. unfold n in Hr at 2. rewrite Nat.ltb_irrefl in Hr. simpl in Hr.
  assert (∀ k, k ≠ n → (k <? S n) = (k <? n)) as Hlt.
  { intros k Hne. apply eq_true_iff_eq. rewrite !Nat.ltb_lt. lia. }
  destruct (BoolDefault (EmitOffsetSyncs r) true) eqn:He; simpl.
  - intros (e1 & w1 & H1 & HB)%act_bind_Ok.
    destruct (bootstrap_flow_wires bes (length don) fs n r e w e1 w1)
      as (Hcfg1 & Hwf1 & Hix1 & Hw1 & Hother); try done.
    { split_and!; [|done|]; rewrite Hcfg, Hd; [by apply list_lookup_middle|].
      by rewrite take_app_length. }
    apply (IH (don ++ [r]) e1 w1); [done|done|congruence|done| |done].
    intros k x Hx. rewrite Hlen. destruct (decide (k = n)) as [->|Hne].
    + assert (x = r) as -> by congruence. unfold emits. by rewrite (proj2 (Nat.ltb_lt n (S n))), He by lia.
    + rewrite Hlt by done. apply Hother; [done|]. by apply Hall.
  - apply (IH (don ++ [r])); [done|done|done|done|]. intros k x Hx. rewrite Hlen.
    destruct (decide (k = n)) as [->|Hne].
    + assert (x = r) as -> by congruence. unfold emits. by rewrite He, andb_false_r.
    + rewrite Hlt by done. by apply Hall.
Qed.

Lemma read_loop_ready polls s n s' : read_loop polls s n = Some (Ok (), s') → IsReady s' = true.
Proof.
  revert s n. induction polls as [|p polls IH]; intros s n; simpl; [done|].
  destruct (p_CtxErr p) as [[]|]; [done|by intros [= <-]|].
  destruct (handle_records _ _ _) as [[s1 n1]| |]; [|done..].
  case_match; [by intros [= <-]|apply IH].
Qed.

Lemma read_with_timeout_ready polls s s' :
  read_with_timeout polls s = (Ok (), s') → IsReady s' = true.
Proof.
  unfold read_with_timeout. destruct (read_loop_ends polls s 0) as [res Hres].
  unfold ReadToEnd. rewrite Hres. intros ->. by eapply read_loop_ready.
Qed.

Lemma readyz_eq bes fs e w :
  indexed fs e → (∀ k r, fs !! k = Some r → wired bes e w k r (emits r)) →
  readyz e = forallb emits fs.
Proof.
  intros [Hix _] Hall. apply eq_true_iff_eq. unfold readyz. rewrite !forallb_forall.
  setoid_rewrite <- list_elem_of_In.
  assert (∀ k r, fs !! k = Some r → ∃ st, e_stores e !! k = Some st ∧ IsReady st = emits r) as Hst.
  { intros k r Hr. destruct (Hall k r Hr) as (s & st & _ & _ & H & Hb). exists st.
    split; [done|]. destruct (emits r).
    - destruct Hb as (wr & pol & i & _ & _ & _ & _ & _ & _ & Hread).
      by eapply read_with_timeout_ready.
    - by destruct Hb as [_ ->]. }
  split.
  - intros H r (k & Hk)%list_elem_of_lookup. destruct (Hst k r Hk) as (st & Hs & Hr).
    specialize (H (flow_key r, k)). cbn [snd] in H. rewrite Hs, Hr in H. apply H.
    apply elem_of_map_to_list, Hix. by rewrite Hk.
  - intros H [key k] (r & Hk & Heq)%elem_of_map_to_list%Hix%fmap_Some.
    destruct (Hst k r Hk) as (st & Hs & Hr). cbn [snd]. rewrite Hs, Hr. apply H.
    by eapply list_elem_of_lookup_2.
Qed.

(** C23. When the enabled flows have different keys, the bootstrap gives every flow
    what is its own: the source of a flow that emits offset syncs gets an open
    writer on that flow's offset-syncs topic, with a client for the cluster the flow
    replicates from, and the flow's store holds what that topic of that cluster was
    read to hold when the bootstrap came to this flow; a flow that emits none gets
    no writer and its store stays empty. [/readyz] then answers that the program is
    ready exactly when every enabled flow emits offset syncs. *)
Theorem bootstrap_wires fes bes cfg w e w1 e' w2 :
  let fs := enabled_flows (Replications cfg) in
  clients_wf w → NoDup (flow_key <$> fs) →
  NewEngine fes cfg w = (Ok e, w1) → bootstrapOffsetSyncs bes e w1 = (Ok e', w2) →
  (∀ k r, fs !! k = Some r → wired bes e' w2 k r (emits r)) ∧ readyz e' = forallb emits fs.
Proof.
  intros fs Hw Hnd HN HB. pose proof (new_flows_cfg _ _ _ _ _ _ _ _ HN) as Hcfg.
  destruct (NewEngine_built _ _ _ _ _ Hw HN) as (_ & L & Ha & _).
  destruct (new_flows_laid_out bes fes 0 cfg (Replications cfg) [] (empty_engine cfg) w e w1)
    as (_ & _ & Hix & Hall); [|done|exact HN|].
  { split_and!; [done|done| |done]. split; [|done]. intros key k. cbn [empty_engine e_syncStores enabled_flows]. by rewrite lookup_empty. }
  unfold bootstrapOffsetSyncs in HB. rewrite Hcfg in HB.
  destruct (bootstrap_flows_wires bes (Replications cfg) [] (Replications cfg) e w1 e' w2)
    as [Hix' Hwires]; [by apply Ha|done|by rewrite Hcfg|done| |exact HB|].
  { intros k r Hr. by apply Hall. }
  split; [exact Hwires|]. by eapply readyz_eq.
Qed.
End release.

(** ** Examples and witnesses *)

(** Two flows, of which the first has a queue. *)
Definition ex_engine_cfg (rs : list ReplicationConfig) : Config.Config := {|
  Clusters := Clusters ex_config; Replications := rs;
  Config.Metrics := Config.Metrics ex_config; Logging := Logging ex_config |}.
Definition ex_flows : list ReplicationConfig := [ex_replication; ex_source_cfg].

Definition ex_flow_env : nat → flow_env :=
  λ _, {| fe_now := 0; fe_refusal1 := None; fe_refusal2 := None |}.

(** The offset-syncs topic of each cluster is read in one poll, which holds one sync
    there; any other topic is empty. *)
Definition ex_bootstrap : nat → bootstrap_env := λ _, {|
  be_now := 0; be_admin_refusal := None; be_admin _ := ex_listing ex_src_topics;
  be_reader_refusal := None;
  be_polls cc topic :=
    (if bool_decide (topic = "mm2-offset-syncs.west.internal")
     then [ex_poll (SyncWriter_Write None ex_writer (ex_os 100 107)).1] else []) ++ [idle];
  be_writer_refusal := None |}.

(** A topic with one partition, behind by [lag]; its drainer ends as [drained]. *)
Definition ex_catchup (lag : Z) (drained : drain_end) : nat → catchup_env := λ _, {|
  ce_now := 0; ce_refusal := None; ce_source _ := ex_listing (ex_topics [("orders", [0%Z])]);
  ce_target_refusal := None; ce_topic_refusal _ := None; ce_lag_refusal _ _ := None;
  ce_lag _ _ := {| la_offsets := inr [];
    la_ends := inr [{| lo_Topic := "orders"; lo_Partition := 0; lo_Offset := lag |}] |};
  ce_dlq_refusal _ := None; ce_producer_refusal _ := None; ce_drained _ _ := drained |}.

Definition ex_start : start_env :=
  {| st_now := 0; st_refusal1 _ := None; st_refusal2 _ := None |}.

Definition ex_run (lag : Z) (drained : drain_end) : run_env := {|
  rn_bootstrap := ex_bootstrap; rn_catchup := ex_catchup lag drained;
  rn_targets _ _ := ex_listing ex_tgt_topics; rn_sources := ex_start;
  rn_heartbeats := ex_start; rn_checkpoints := ex_start; rn_errCount := 0 |}.

(** The engine and the clients of a successful construction, and of a run. *)
Definition ex_built (rs : list ReplicationConfig) : option (Engine * clients ExampleOutside) :=
  match NewEngine ex_flow_env (ex_engine_cfg rs) no_clients with
  | (Ok e, w) => Some (e, w)
  | _ => None
  end.
Definition ex_ran (re : run_env) (rs : list ReplicationConfig)
    : option (outcome (list catchup_action) * list nat) :=
  '(e, w) ← ex_built rs;
  let '(r, _, w) := Run re e w in
  Some (r, filter (λ h, h ∉ released w) (seq 0 (length (created w)))).

(** A short catch-up leaves nothing open without a queue; with one, one client per
    construction of a queue that is not the engine's stays open. *)
Example ex_run_plain :
  ex_ran (ex_run 5 (inr (0, 0)%Z)) [ex_source_cfg] = Some (Ok [ActCreate "west.orders" 1 3], []).
Proof. vm_compute. reflexivity. Qed.
Example ex_run_queue :
  ex_ran (ex_run 500000 (inr (0, 0)%Z)) [ex_replication] =
  Some (Ok [ActCreate "east.orders" 1 0; ActCatchUp "orders" {[0%Z := (0%Z, 500000%Z)]}], [0; 9]).
Proof. vm_compute. reflexivity. Qed.
(** The panic of a drainer ends the process. *)
Example ex_run_panics :
  (λ p, p.1) <$> ex_ran (ex_run 500000 (inl "inconsistent label cardinality")) ex_flows =
  Some (Panic "inconsistent label cardinality").
Proof. vm_compute. reflexivity. Qed.
(** The second flow of a key takes the writer of both. *)
Example ex_same_key :
  (λ p, match bootstrapOffsetSyncs ex_bootstrap p.1 p.2 with
        | (Ok e, _) => (λ s, match s_syncWriter s with Some _ => true | None => false end) <$> e_sources e
        | _ => []
        end) <$> ex_built [ex_replication; ex_replication] = Some [false; true].
Proof. vm_compute. reflexivity. Qed.
(** The exit codes. *)
Example ex_main :
  let order := map_to_list (Clusters ex_config) in
  let go args loaded := main {| cmd_version := false; cmd_args := args |} order loaded
                          ex_flow_env (ex_run 5 (inr (0, 0)%Z)) in
  (go [] (Ok (ex_engine_cfg ex_flows)), go ["validate"] (Ok (ex_engine_cfg [])),
   go ["validate"] (Ok (ex_engine_cfg ex_flows)), go ["x"] (Err (Errorf "no file" [])))
  = (0, 1, 0, 1)%Z.
Proof. vm_compute. reflexivity. Qed.

(** The parts of a run of [ex_flows]. *)
Definition ex_new : outcome Engine * clients ExampleOutside :=
  NewEngine ex_flow_env (ex_engine_cfg ex_flows) no_clients.
Definition ex_engine : Engine :=
  match ex_new.1 with Ok e => e | _ => empty_engine (ex_engine_cfg ex_flows) end.
Definition ex_booted : outcome Engine * clients ExampleOutside :=
  bootstrapOffsetSyncs ex_bootstrap ex_engine ex_new.2.
Definition ex_booted_engine : Engine :=
  match ex_booted.1 with Ok e => e | _ => ex_engine end.
Definition ex_end : outcome (list catchup_action) * Engine * clients ExampleOutside :=
  Run (ex_run 500000 (inr (0, 0)%Z)) ex_engine ex_new.2.
Definition ex_acts : list catchup_action := match ex_end.1.1 with Ok a => a | _ => [] end.

Lemma ok_eta {A B} (p : outcome A * B) d :
  is_ok p.1 = true → p = (Ok match p.1 with Ok a => a | _ => d end, p.2).
Proof. by destruct p as [[]]. Qed.
Lemma ok_eta3 {A B C} (p : outcome A * B * C) d :
  is_ok p.1.1 = true → p = (Ok match p.1.1 with Ok a => a | _ => d end, p.1.2, p.2).
Proof. by destruct p as [[[]]]. Qed.

Lemma run_releases_witness :
  e_running ex_end.1.2 = false ∧ ∃ leaked, acquires leaked no_clients ex_end.2 ∧ leaked ≠ ∅.
Proof.
  destruct (run_releases ex_flow_env (ex_run 500000 (inr (0, 0)%Z)) (ex_engine_cfg ex_flows)
    no_clients ex_engine ex_new.2 ex_acts ex_end.1.2 ex_end.2) as (H1 & leaked & H2 & _ & H3).
  - intros h Hh. apply elem_of_empty in Hh. destruct Hh.
  - apply (ok_eta ex_new (empty_engine (ex_engine_cfg ex_flows))). vm_compute. reflexivity.
  - apply (ok_eta3 ex_end []). vm_compute. reflexivity.
  - split; [exact H1|]. exists leaked. split; [exact H2|]. apply H3; reflexivity.
Defined.

Lemma bootstrap_wires_witness :
  wired ex_bootstrap ex_booted_engine ex_booted.2 1 ex_source_cfg true ∧
  (∃ st, e_stores ex_booted_engine !! 1 = Some st ∧
     syncs st !! ex_tp = Some (fill (ex_os 100 107))) ∧ readyz ex_booted_engine = true.
Proof.
  destruct (bootstrap_wires ex_flow_env ex_bootstrap (ex_engine_cfg ex_flows) no_clients
    ex_engine ex_new.2 ex_booted_engine ex_booted.2) as [H1 H2].
  - intros h Hh. apply elem_of_empty in Hh. destruct Hh.
  - apply (bool_decide_unpack _). vm_compute. exact I.
  - apply (ok_eta ex_new (empty_engine (ex_engine_cfg ex_flows))). vm_compute. reflexivity.
  - apply (ok_eta ex_booted ex_engine). vm_compute. reflexivity.
  - split; [exact (H1 1 ex_source_cfg eq_refl)|]. split; [|exact H2].
    eexists. split; vm_compute; reflexivity.
Defined.
