(* ===== verification/CatchUpPlan.v ===== *)
(** * What the catch-up phase of a run covers

    The catch-up phase of [Run] decides, from what the source cluster answers,
    which partitions are mirrored by the parallel source and over which ranges.
    The plan it follows is stated here on the answers alone. *)
From S2P Require Import Prelude GoStrings Filter Retry CircuitBreaker Types Policy SyncStore RingBuffer.
From S2P Require Import RingSafety Config ClientOpts Kgo Dlq Metrics Admin SourceLoop Parallel.
From S2P Require Import CatchUp Discovery Heartbeats Checkpoints SyncIO Engine EngineSafety.

Local Open Scope Z_scope.

(** The partitions a topic is taken to have; partition 0 when nothing is known. *)
Definition partitions_of (src : kadm_Client) (topic : string) : list Z :=
  match ListTopicPartitions src topic with Ok ps => ps | _ => [0] end.

Section plan.
Context {OS : Outside} (ce : catchup_env) (srcCfg tgtCfg : ClusterConfig) (src : kadm_Client).

(** The source cluster is reachable and answers alike on every connection; its
    offsets are those of a log. *)
Record source_ok : Prop := {
  so_opts : is_ok (BuildClientOpts (ce_now ce) srcCfg) = true;
  so_answers h : ce_source ce h = src;
  so_bounds topic p c hwm :
    partition_lag (ce_lag ce topic p) topic p = Ok (c, hwm) → c < 2 ^ 63 ∧ 0 ≤ hwm < 2 ^ 63;
}.
Context (SO : source_ok).

(** The partition is more than the threshold behind, and its range. *)
Definition far_behind (topic : string) (p : Z) (range : Z * Z) : Prop :=
  ce_lag_refusal ce topic p = None ∧
  ∃ c hwm, partition_lag (ce_lag ce topic p) topic p = Ok (c, hwm) ∧
    range = (Z.max 0 c, hwm) ∧ parallelThreshold < hwm - Z.max 0 c.

Lemma high_lag_spec c hwm range :
  c < 2 ^ 63 → 0 ≤ hwm < 2 ^ 63 →
  high_lag (Ok (c, hwm)) = Some range ↔
  range = (Z.max 0 c, hwm) ∧ parallelThreshold < hwm - Z.max 0 c.
Proof.
  intros Hc Hh. unfold high_lag. destruct (Z.leb_spec c 0).
  - rewrite Z.max_l by lia. destruct (Z.ltb_spec parallelThreshold hwm);
      split; [intros [= <-]|intros [-> _]|done|intros [_ ?]]; lia || (split; [done|lia]) || done.
  - rewrite Z.max_r, sint_small by (done || unfold in_s; lia).
    destruct (Z.ltb_spec parallelThreshold (hwm - c));
      split; [intros [= <-]|intros [-> _]|done|intros [_ ?]]; done || lia.
Qed.

Lemma lag_far_behind topic p range w :
  high_lag (GetPartitionLag (ce_now ce) (ce_lag_refusal ce topic p) (ce_lag ce topic p)
    srcCfg topic p w).1 = Some range ↔ far_behind topic p range.
Proof using SO.
  unfold GetPartitionLag, with_admin, far_behind. pose proof (so_opts SO) as Ho.
  destruct (BuildClientOpts (ce_now ce) srcCfg) as [opts| |]; try done.
  destruct (ce_lag_refusal ce topic p); cbn [NewClient].
  { split; [done|by intros [? _]]. }
  cbn [fst]. destruct (partition_lag (ce_lag ce topic p) topic p) as [[c hwm]| |] eqn:El.
  2, 3: split; [done|intros (_ & ? & ? & ? & _); done].
  destruct (so_bounds SO _ _ _ _ El). rewrite high_lag_spec by done. split.
  - intros H'. split; [done|]. by exists c, hwm.
  - intros (_ & ? & ? & [= <- <-] & H'). done.
Qed.

Lemma far_behind_fun topic p range range' :
  far_behind topic p range → far_behind topic p range' → range = range'.
Proof. intros (_ & ? & ? & H & -> & _) (_ & ? & ? & H' & -> & _). congruence. Qed.

(** The ranges collected for a topic are those of its partitions far behind. *)
Lemma collect_lags_spec topic ps lags w p range :
  (∀ p range, lags !! p = Some range → far_behind topic p range) →
  (collect_lags ce srcCfg topic ps lags w).1 !! p = Some range ↔
  far_behind topic p range ∧ (p ∈ ps ∨ lags !! p = Some range).
Proof using SO.
  revert lags w. induction ps as [|q ps IH]; intros lags w Hl; cbn [collect_lags].
  { cbn. rewrite elem_of_nil. naive_solver. }
  pose proof (λ range, lag_far_behind topic q range w) as Hq.
  destruct (GetPartitionLag _ _ _ _ _ _ _) as [lag w']. cbn [fst] in Hq.
  destruct (high_lag lag) as [range0|].
  - rewrite IH, elem_of_cons; clear IH.
    + destruct (decide (p = q)) as [->|Hne].
      * rewrite lookup_insert_eq. split; [by intros [? _]; auto|]. intros [Hf _].
        split; [done|right]. f_equal. eapply far_behind_fun; [by apply Hq|done].
      * rewrite lookup_insert_ne by done. naive_solver.
    + intros p' range' Hp'. apply lookup_insert_Some in Hp' as [[<- <-]|[_ Hp']]; [by apply Hq|auto].
  - rewrite IH, elem_of_cons by done; clear IH. split; [naive_solver|].
    intros [Hf [[->|?]|?]]; [by apply Hq in Hf|tauto..].
Qed.

(** ** One topic *)

(** Nothing that a catch-up of the topic needs is refused. *)
Definition served (r : ReplicationConfig) (topic : string) : Prop :=
  ce_topic_refusal ce topic = None ∧ ce_producer_refusal ce topic = None ∧
  is_ok (BuildClientOpts (ce_now ce) tgtCfg) = true ∧
  is_ok (NewPolicy (Config.ReplicationPolicy r) (Config.Separator r)) = true.

Lemma NewParallelSource_ok refusal r workers (w : clients OS) :
  is_ok (NewPolicy (Config.ReplicationPolicy r) (Config.Separator r)) = true →
  ∃ ps w', NewParallelSource (ce_now ce) refusal r srcCfg tgtCfg workers w = (Ok ps, w') ∧
    ps_tgtCfg ps = tgtCfg.
Proof.
  intros H. unfold NewParallelSource. destruct (NewPolicy _ _) as [pol| |]; try done. cbn.
  destruct (NewDLQ _ _ _ _ _) as [q w1]. by eexists _, _.
Qed.

Lemma CatchUpMultiPartition_not_err topic ps lags (w : clients OS) :
  ps_tgtCfg ps = tgtCfg → ce_producer_refusal ce topic = None →
  is_ok (BuildClientOpts (ce_now ce) tgtCfg) = true →
  ∀ e, (CatchUpMultiPartition (ce_now ce) (ce_producer_refusal ce topic) (ce_drained ce topic)
    ps lags w).1.1 ≠ Err e.
Proof.
  intros Ht Hp Ho e. unfold CatchUpMultiPartition. case_match; [done|]. rewrite Ht, Hp.
  destruct (BuildClientOpts (ce_now ce) tgtCfg); try done. cbn.
  assert (∀ jobs t e, drain_totals (ce_drained ce topic) jobs t ≠ Err e) as Hd.
  { induction jobs as [|j jobs IH]; intros t e'; cbn; [done|]. by case_match; [|case_match]. }
  specialize (Hd (pipelines lags) (0, 0)). case_match; [by case_match|by destruct (Hd e0)|done].
Qed.

Lemma admin_client refusal (w : clients OS) :
  ∃ w', (∃ c, NewAdminClient (ce_now ce) refusal (ce_source ce) srcCfg w = (Ok c, w') ∧
           inner c = src) ∨
        (refusal ≠ None ∧ ∃ e, NewAdminClient (ce_now ce) refusal (ce_source ce) srcCfg w
           = (Err e, w')).
Proof using SO.
  unfold NewAdminClient. pose proof (so_opts SO) as H.
  destruct (BuildClientOpts (ce_now ce) srcCfg); try done. cbn.
  destruct refusal as [err|]; eexists.
  - right. split; [done|]. by eexists.
  - left. eexists. split; [done|]. apply (so_answers SO).
Qed.

(** What one topic adds to the plan. *)
Lemma catchup_topic_acts r workers adm pol topic w acts w' :
  catchup_topic ce srcCfg tgtCfg r workers adm pol topic w = (Ok acts, w') →
  ∃ lags,
    (∀ p range, lags !! p = Some range ↔ p ∈ partitions_of src topic ∧ far_behind topic p range) ∧
    (∀ t l, ActCatchUp t l ∈ acts → t = topic ∧ l = lags ∧ lags ≠ ∅ ∧ underscore_or_dot topic = false) ∧
    (served r topic → underscore_or_dot topic = false → lags ≠ ∅ → ActCatchUp topic lags ∈ acts).
Proof using SO.
  intros H.
  assert (∀ w p range, (collect_lags ce srcCfg topic (partitions_of src topic) ∅ w).1 !! p
    = Some range ↔ p ∈ partitions_of src topic ∧ far_behind topic p range) as Hspec.
  { intros w0 p range. rewrite collect_lags_spec by done. rewrite lookup_empty. naive_solver. }
  unfold catchup_topic in H.
  destruct (underscore_or_dot topic) eqn:Hu.
  { injection H as <- _. eexists. split; [apply (Hspec w)|].
    split; [intros t l []%elem_of_nil|done]. }
  destruct (admin_client (ce_topic_refusal ce topic) w) as (w1 & [(c & Hc & Hsrc)|(Hne & e & Hc)]);
    rewrite Hc in H.
  2:{ injection H as <- _. eexists. split; [apply (Hspec w)|].
      split; [intros t l []%elem_of_nil|]. intros (? & _) _. done. }
  rewrite Hsrc in H. fold (partitions_of src topic) in H.
  pose proof (Hspec (Client_Close c w1)) as Hs.
  destruct (collect_lags _ _ _ _ _ _) as [lags w2]. cbn [fst] in Hs. exists lags. split; [done|].
  match type of H with context [if _ then (Ok ?cr, _) else _] => set (creates := cr) in H end.
  assert (∀ t l, ActCatchUp t l ∉ creates) as Hcr.
  { intros t l. subst creates. repeat case_match; set_solver. }
  assert (size lags = 0%nat ↔ lags = ∅) as Hsize by apply map_size_empty_iff.
  assert (∀ t l, ActCatchUp t l ∈ creates → t = topic ∧ l = lags ∧ lags ≠ ∅ ∧ false = false) as Hno
    by (intros t l Hin; by destruct (Hcr t l)).
  destruct (Nat.eqb_spec (size lags) 0) as [Hz|Hz].
  { injection H as <- _. split; [done|]. intros _ _ Hne. by destruct Hne, Hsize; auto. }
  assert (acts = creates ∧ ¬ served r topic ∨ acts = creates ++ [ActCatchUp topic lags])
    as [[-> Hns]| ->].
  { destruct (NewParallelSource _ _ _ _ _ _ w2) as [[ps|e|why] w3] eqn:HN; [| |done].
    2:{ injection H as <- _. left. split; [done|]. intros (_ & _ & _ & Hp).
        destruct (NewParallelSource_ok (ce_dlq_refusal ce topic) r workers w2 Hp)
          as (ps & w4 & HN' & _). by rewrite HN in HN'. }
    assert (is_ok (NewPolicy (Config.ReplicationPolicy r) (Config.Separator r)) = true →
      ps_tgtCfg ps = tgtCfg) as Htgt.
    { intros Hp. destruct (NewParallelSource_ok (ce_dlq_refusal ce topic) r workers w2 Hp)
        as (ps' & w4 & HN' & Ht). rewrite HN in HN'. by injection HN' as -> _. }
    pose proof (CatchUpMultiPartition_not_err topic ps lags w3) as Hm.
    destruct (CatchUpMultiPartition _ _ _ _ _ _) as [[[jobs|e|why] ps'] w4]; [| |done].
    - injection H as <- _. by right.
    - injection H as <- _. left. split; [done|]. intros (_ & Hp & Ho & Hpol).
      by destruct (Hm (Htgt Hpol) Hp Ho e). }
  - split; [done|]. intros Hsv. by destruct Hns.
  - split; [|intros _ _ _; apply elem_of_app; right; by apply list_elem_of_singleton].
    intros t l [Hin|Hin]%elem_of_app; [by destruct (Hcr t l)|].
    apply list_elem_of_singleton in Hin as [= -> ->]. split_and!; [done|done| |done].
    intros E. by apply Hz, Hsize.
Qed.

(** A drainer of the plan panics. *)
Definition drainer_panics (topic : string) : Prop :=
  underscore_or_dot topic = false ∧ ∃ p range why,
    p ∈ partitions_of src topic ∧ far_behind topic p range ∧ ce_drained ce topic (p, range) = inl why.

Lemma CatchUpMultiPartition_panics topic ps lags (w : clients OS) res ps' w' why :
  CatchUpMultiPartition (ce_now ce) (ce_producer_refusal ce topic) (ce_drained ce topic) ps lags w
    = (res, ps', w') → res = Panic why →
  ∃ p range, lags !! p = Some range ∧ ce_drained ce topic (p, range) = inl why.
Proof.
  assert (∀ jobs t, drain_totals (ce_drained ce topic) jobs t = Panic why →
    ∃ j, j ∈ jobs ∧ ce_drained ce topic j = inl why) as Hd.
  { induction jobs as [|j jobs IH]; intros t; cbn [drain_totals]; [done|].
    destruct (ce_drained ce topic j) as [why'|[b n]] eqn:E.
    - intros [= <-]. exists j. split; [left|done].
    - intros (j' & Hj & ?)%IH. exists j'. split; [by right|done]. }
  unfold CatchUpMultiPartition. case_match; [by intros [= <- _ _]|].
  destruct (BuildClientOpts (ce_now ce) (ps_tgtCfg ps)) as [opts|e|why'] eqn:Eo; cbn [wrap_err].
  3: by apply BuildClientOpts_no_panic in Eo.
  2: by intros [= <- _ _].
  destruct (ce_producer_refusal ce topic); cbn [NewClient]; [by intros [= <- _ _]|].
  specialize (Hd (pipelines lags) (0, 0)).
  destruct (drain_totals _ _ _) as [[b n]|e|why'] eqn:Et; intros [= <- _ _]; try done.
  intros [= ->]. destruct (Hd eq_refl) as ([p range] & [_ Hp]%list_elem_of_filter & ?).
  exists p, range. split; [by apply elem_of_map_to_list|done].
Qed.

(** A topic of which no catch-up returns. *)
Lemma catchup_topic_fails r workers adm pol topic w res w' :
  catchup_topic ce srcCfg tgtCfg r workers adm pol topic w = (res, w') →
  match res with Ok _ => True | Err _ => False | Panic _ => drainer_panics topic end.
Proof using SO.
  intros H. destruct res as [acts|e|why]; [done|exfalso|]; unfold catchup_topic in H;
    (destruct (underscore_or_dot topic) eqn:Hu; [done|]);
    (destruct (admin_client (ce_topic_refusal ce topic) w) as (w1 & [(c & Hc & Hsrc)|(_ & e' & Hc)]);
     rewrite Hc in H; [|done]);
    rewrite Hsrc in H; fold (partitions_of src topic) in H;
    pose proof (collect_lags_spec topic (partitions_of src topic) ∅ (Client_Close c w1)) as Hs;
    destruct (collect_lags _ _ _ _ _ _) as [lags w2]; cbn [fst] in Hs;
    (case_match; [done|]).
  - destruct (NewParallelSource _ _ _ _ _ _ w2) as [[ps|e'|why] w3]; try done.
    by destruct (CatchUpMultiPartition _ _ _ _ _ _) as [[[jobs|e'|why] ps'] w4].
  - destruct (NewParallelSource _ _ _ _ _ _ w2) as [[ps|e'|why'] w3] eqn:HN; try done.
    + destruct (CatchUpMultiPartition _ _ _ _ _ _) as [[res ps'] w4] eqn:HC.
      destruct res as [jobs|e'|why']; try done.
      destruct (CatchUpMultiPartition_panics _ _ _ _ _ _ _ why' HC eq_refl) as (p & range & Hl & Hd).
      apply Hs in Hl as [Hf Hp]; [|done]. rewrite lookup_empty in Hp.
      split; [done|]. exists p, range, why'. split_and!; [by destruct Hp|done|done].
    + exfalso. clear H. unfold NewParallelSource in HN.
      unfold NewPolicy in HN. repeat case_match; simplify_eq/=.
Qed.

(** ** The topics of a flow *)

Lemma catchup_topics_fails r workers adm pol topics w res w' :
  catchup_topics ce srcCfg tgtCfg r workers adm pol topics w = (res, w') →
  match res with
  | Ok _ => True
  | Err _ => False
  | Panic _ => ∃ t, t ∈ topics ∧ drainer_panics t
  end.
Proof using SO.
  revert w res w'. induction topics as [|topic topics IH]; intros w res w'; cbn [catchup_topics].
  { by intros [= <- _]. }
  unfold mbind, act_bind. intros H.
  destruct (catchup_topic _ _ _ _ _ _ _ topic w) as [res1 w1] eqn:H1.
  apply catchup_topic_fails in H1. destruct res1 as [acts1|e|why]; [|done|].
  2:{ injection H as <- _. exists topic. split; [left|done]. }
  destruct (catchup_topics _ _ _ _ _ _ _ topics w1) as [res2 w2] eqn:H2.
  apply IH in H2. destruct res2 as [acts2|e|why]; [by injection H as <- _|done|].
  injection H as <- _. destruct H2 as (t & ? & ?). exists t. split; [by right|done].
Qed.

Lemma catchup_topics_acts r workers adm pol topics w acts w' :
  catchup_topics ce srcCfg tgtCfg r workers adm pol topics w = (Ok acts, w') →
  (∀ t l, ActCatchUp t l ∈ acts →
     t ∈ topics ∧ underscore_or_dot t = false ∧ l ≠ ∅ ∧
     ∀ p range, l !! p = Some range ↔ p ∈ partitions_of src t ∧ far_behind t p range) ∧
  (∀ t p range, t ∈ topics → underscore_or_dot t = false → served r t →
     p ∈ partitions_of src t → far_behind t p range →
     ∃ l, ActCatchUp t l ∈ acts ∧ l !! p = Some range).
Proof using SO.
  revert w acts. induction topics as [|topic topics IH]; intros w acts; cbn [catchup_topics].
  { intros [= <- _]. split; [intros t l []%elem_of_nil|intros t p range []%elem_of_nil]. }
  unfold mbind, act_bind. intros H.
  destruct (catchup_topic _ _ _ _ _ _ _ topic w) as [[acts1|e|why] w1] eqn:H1; [|done..].
  destruct (catchup_topics _ _ _ _ _ _ _ topics w1) as [[acts2|e|why] w2] eqn:H2; [|done..].
  injection H as <- <-. apply catchup_topic_acts in H1 as (lags & Hl & H1 & H1').
  destruct (IH _ _ H2) as [IH1 IH2]. clear IH H2. split.
  - intros t l [Hin|Hin]%elem_of_app.
    + apply H1 in Hin as (-> & -> & Hne & Hu). split; [left|]. done.
    + apply IH1 in Hin as (Hin & Hrest). split; [by right|done].
  - intros t p range [->|Hin]%elem_of_cons Hu Hs Hp Hf.
    + assert (lags !! p = Some range) as Hlp by (by apply Hl).
      exists lags. split; [|done]. apply elem_of_app. left. apply H1'; [done..|].
      intros ->. by rewrite lookup_empty in Hlp.
    + destruct (IH2 t p range) as (l & Hin' & Hlp); [done..|]. exists l.
      split; [apply elem_of_app; by right|done].
Qed.

(** C22. The catch-up phase follows the plan, when it gets to its end. Let the source
    cluster be reachable and answer its requests alike. A phase that returns has
    caught up exactly the partitions that are more than the threshold of 100000
    records behind, of source topics whose name does not start with an underscore
    or a dot, over the range from the committed offset, or from zero when nothing
    is committed, to the end of the log; such a partition is left out only if the
    query of its lag fails, or a client its topic needs is refused, or the flow's
    policy or the target's options are not valid ([served]). Neither the topic
    filter of the flow nor its cycle test plays a part. The phase never returns an
    error, and it panics only when the drainer of a partition of the plan does
    ([drainer_panics]), which is what every drainer does that has drained a record
    ([CatchUp.drain_flush_panics]): then the process ends, and the topics that
    follow are not looked at. *)
Theorem catchup_plan target r topics w res w' :
  ListTopics src = Ok topics → ce_refusal ce = None →
  catchup_flow ce srcCfg tgtCfg target r w = (res, w') →
  match res with
  | Ok acts =>
      (∀ t l, ActCatchUp t l ∈ acts →
         t ∈ topics ∧ underscore_or_dot t = false ∧ l ≠ ∅ ∧
         ∀ p range, l !! p = Some range ↔ p ∈ partitions_of src t ∧ far_behind t p range) ∧
      (∀ t p range, t ∈ topics → underscore_or_dot t = false → served r t →
         p ∈ partitions_of src t → far_behind t p range →
         ∃ l, ActCatchUp t l ∈ acts ∧ l !! p = Some range)
  | Err _ => False
  | Panic _ => ∃ t, t ∈ topics ∧ drainer_panics t
  end.
Proof using SO.
  intros Ht Hr. unfold catchup_flow.
  destruct (admin_client (ce_refusal ce) w) as (w1 & [(c & Hc & Hsrc)|(Hne & _)]); [|done].
  rewrite Hc, Hsrc, Ht.
  destruct (match NewAdminClient _ _ target _ _ with | (Ok c, w) => _ | (_, w) => _ end)
    as [adm w2].
  destruct (catchup_topics _ _ _ _ _ _ _ _ w2) as [res' w3] eqn:Hts.
  intros [= -> _]. pose proof (catchup_topics_fails _ _ _ _ _ _ _ _ Hts) as Hf.
  destruct res as [acts| |]; [|done|done]. by eapply catchup_topics_acts.
Qed.
End plan.

(** ** Witness *)

(** A partition with 500000 records to catch up. The fetchers of a first cluster are
    refused their clients, so its drainer drains nothing and returns; those of a
    second publish, and its drainer panics in its flush. *)
Definition ex_ce (drained : drain_end) : catchup_env := ex_catchup 500000 drained 0%nat.
Definition ex_src : kadm_Client := ex_listing (ex_topics [("orders", [0])]).
Definition ex_planned (drained : drain_end)
    : outcome (list catchup_action) * clients ExampleOutside :=
  catchup_flow (ex_ce drained) (ex_cluster "e:9092") (ex_cluster "w:9092")
    (λ _, ex_listing ex_tgt_topics) ex_replication no_clients.

Lemma ex_source_ok drained : source_ok (ex_ce drained) (ex_cluster "e:9092") ex_src.
Proof.
  split; [vm_compute; reflexivity|reflexivity|].
  intros topic p c hwm H. unfold ex_ce, ex_catchup, partition_lag, committed_of, hwm_of in H.
  cbn in H. injection H as <- <-. split; [done|]. case_bool_decide; lia.
Qed.

Definition ex_flush : drain_end := inl "inconsistent label cardinality".

Lemma catchup_plan_witness :
  (∃ acts l, (ex_planned (inr (0, 0))).1 = Ok acts ∧ ActCatchUp "orders" l ∈ acts ∧
     l !! 0 = Some (0, 500000)) ∧
  ∃ why, (ex_planned ex_flush).1 = Panic why ∧
    ∃ t, t ∈ ["orders"] ∧ drainer_panics (ex_ce ex_flush) ex_src t.
Proof.
  pose proof (λ drained, catchup_plan (ex_ce drained) (ex_cluster "e:9092") (ex_cluster "w:9092") ex_src
    (ex_source_ok drained) (λ _, ex_listing ex_tgt_topics) ex_replication ["orders"] no_clients
    (ex_planned drained).1 (ex_planned drained).2 eq_refl eq_refl (surjective_pairing _)) as H.
  split.
  - specialize (H (inr (0, 0))).
    destruct ((ex_planned (inr (0, 0))).1) as [acts|e|why] eqn:E; [|destruct H|].
    2:{ exfalso. vm_compute in E. discriminate E. }
    destruct H as [_ H]. destruct (H "orders" 0 (0, 500000)) as (l & Hin & Hl).
    + left.
    + reflexivity.
    + split_and!; vm_compute; reflexivity.
    + vm_compute. left.
    + split; [reflexivity|]. exists 0, 500000. split; [vm_compute; reflexivity|].
      split; [reflexivity|]. reflexivity.
    + exists acts, l. split; [reflexivity|]. split; [exact Hin|exact Hl].
  - specialize (H ex_flush).
    destruct ((ex_planned ex_flush).1) as [acts|e|why] eqn:E; [|destruct H|].
    { exfalso. vm_compute in E. discriminate E. }
    exists why. split; [reflexivity|exact H].
Defined.
