(* ===== verification/SyncFlow.v ===== *)
(** * Offset syncs from the source replicator to the checkpoints

    The composition of SourceLoop, SyncIO, SyncStore and Checkpoints along one
    flow: callbacks hand syncs to the store and to the sync writer, the reader
    feeds what the topic holds into the store, during a run and after a restart,
    and the checkpoint emitter translates through the store. A history is any
    number of runs and restarts, with every interleaving of the loop, its
    callbacks, its sync writes and the follower. *)
From S2P Require Import Prelude GoStrings Filter Retry Types Policy SyncStore.
From S2P Require Import Config ClientOpts Kgo SyncIO Dlq Translator Checkpoints.
From S2P Require Import Metrics SourceLoop Discovery Parallel CatchUp Engine.

Local Open Scope Z_scope.

Section flow.
Context {OS : Outside} {RE : RegexpEngine} {P : Prometheus}.
Context (m : Metrics) (out_of_range : f64 → Z).

(** Where the target has its copies: [L tp u d] is the log map of a partition. *)
Context (L : TopicPartition → Z → Z → Prop) (HL : ∀ tp, log_map (L tp)).

(** A partition as Kafka has them: a name of at most 249 bytes, an [int32]. *)
Definition valid_tp (tp : TopicPartition) : Prop :=
  in_s 32 (Partition tp) ∧ byte_len (Topic tp) ≤ 249.

Definition logged (os : OffsetSync) : Prop :=
  valid_tp (os_tp os) ∧ behind_log (L (os_tp os)) (os_tp os) os.

Definition event_logged (e : store_event) : Prop :=
  match e with EvSync os => logged os | EvReadToEnd => True end.

(** A store that has only handled syncs of copied records. *)
Definition known (s : SyncStore) : Prop := ∃ h, s = SyncStore.run h ∧ Forall event_logged h.
Definition known_opt (s : option SyncStore) : Prop := ∃ s', s = Some s' ∧ known s'.

Lemma logged_ok os : logged os → sync_ok os ∧ os_wf os ∧ byte_len (Topic (os_tp os)) ≤ 65533.
Proof.
  intros ([Hp Hn] & Hb). destruct (Hb eq_refl) as (w & Hw & Hd).
  destruct (lm_range _ (HL _) _ _ Hw) as [Hu Hr]. unfold sync_ok, os_wf, tp_wf, offset_ok, in_s in *.
  split_and!; lia || done.
Qed.

Lemma known_new : known NewSyncStore.
Proof. by exists []. Qed.

Lemma known_event e s : event_logged e → known s → known (apply_event s e).
Proof.
  intros He (h & -> & Hh). exists (h ++ [e]). split.
  - unfold SyncStore.run. by rewrite foldl_app.
  - by apply Forall_app; split; [|constructor].
Qed.

Lemma known_events es s : Forall event_logged es → known s → known (foldl apply_event s es).
Proof.
  intros Hes. revert s. induction Hes as [|e es He _ IH]; intros s Hs; [done|].
  by apply IH, known_event.
Qed.

Lemma known_consistent s tp : known s → consistent s tp (L tp).
Proof.
  intros (h & -> & Hh). exists h. split; [done|]. split; [apply HL|]. split.
  - eapply Forall_impl; [exact Hh|]. intros [os|] He; [apply (logged_ok _ He)|done].
  - intros os Hos. rewrite Forall_forall in Hh. specialize (Hh _ Hos).
    destruct Hh as [_ Hb]. intros Htp. rewrite Htp in Hb. by apply Hb.
Qed.

(** ** The answers to the produce calls *)

Definition source_tp (src : kgo_Record) : TopicPartition :=
  {| Topic := r_Topic src; Partition := r_Partition src |}.

(** The target acknowledges the record at an offset at or before its last copy. *)
Definition copied (src : kgo_Record) (d : Z) : Prop :=
  ∃ w, L (source_tp src) (r_Offset src) w ∧ 0 ≤ d ≤ w.

(** The acknowledgements are those of the log; while a callback backs off, the
    store handles syncs of copied records only. *)
Definition faithful (src : kgo_Record) (a : produce_answers) : Prop :=
  valid_tp (source_tp src) ∧
  (∀ d, first_answer a = inr d → copied src d) ∧
  (∀ k d, retry_answers a k = inr d → copied src d) ∧
  ∀ b s, ∃ es, elapse (retry_env a) b (Some s) = Some (foldl apply_event s es) ∧
               Forall event_logged es.

(** The syncs handed to the sync writer. *)
Definition written_syncs (tr : list effect) : list OffsetSync :=
  omap (λ e, match e with ESyncWritten os => Some os | _ => None end) tr.

(** What [Follow] does to the store of a running loop. *)
Definition follow_sync (os : OffsetSync) (st : loop_state) : loop_state :=
  {| l_pc := l_pc st; l_recordsSinceCommit := l_recordsSinceCommit st;
     l_lastCommitTime := l_lastCommitTime st; l_recordsSinceSync := l_recordsSinceSync st;
     l_recCounts := l_recCounts st; l_byteCounts := l_byteCounts st;
     l_lastMetricFlush := l_lastMetricFlush st; l_produceErrors := l_produceErrors st;
     l_inflight := l_inflight st; l_syncStore := HandleSync os <$> l_syncStore st;
     l_next := l_next st; l_trace := l_trace st |}.

(** One step of a run whose topic held [topic] at its start. *)
Inductive flow_step (s : SourceReplicator) (topic : list OffsetSync) (st st' : loop_state)
    : Prop :=
  | fs_loop e :
      loop_step m out_of_range s e st = Some (Ok st') →
      (∀ i a n src t, e = EvCallback i a → l_inflight st !! i = Some (PRecord n src t) →
         faithful src a) →
      flow_step s topic st st'
  | fs_follow os :
      os ∈ topic ++ written_syncs (l_trace st) → st' = follow_sync os st →
      flow_step s topic st st'.

(** A record that holds the sync. *)
Definition holds (os : OffsetSync) (r : kgo_Record) : Prop :=
  r_Key r = OffsetSync_SerializeKey os ∧ r_Value r = OffsetSync_SerializeValue os.

(** The syncs on the topic and the store, after any number of runs and restarts. *)
Inductive flow_history : list OffsetSync → SyncStore → Prop :=
  | fh_new : flow_history [] NewSyncStore
  | fh_run s topic store now st store' :
      flow_history topic store →
      rtc (flow_step s topic) (init_loop now (Some store)) st →
      l_syncStore st = Some store' →
      flow_history (topic ++ written_syncs (l_trace st)) store'
  | fh_restart topic store polls res store' :
      flow_history topic store →
      Forall (λ r, ∃ os, os ∈ topic ∧ holds os r) (concat (p_Records <$> polls)) →
      read_with_timeout polls NewSyncStore = (res, store') →
      flow_history topic store'.

(** ** The invariant of a run *)

Record flow_inv (st : loop_state) : Prop := {
  fi_store : known_opt (l_syncStore st);
  fi_pending os : PSync os ∈ l_inflight st → logged os;
  fi_written : Forall logged (written_syncs (l_trace st));
}.

Lemma written_syncs_app tr tr' : written_syncs (tr ++ tr') = written_syncs tr ++ written_syncs tr'.
Proof. apply omap_app. Qed.

Lemma emit_sync_known s store os : logged os → known_opt store → known_opt (emit_sync s store os).
Proof.
  intros Hos (st & -> & Hst). eexists. split; [done|].
  destruct (BoolDefault _ _); [|done]. by apply (known_event (EvSync os)).
Qed.

Lemma copied_logged src d :
  valid_tp (source_tp src) → copied src d →
  logged {| os_tp := source_tp src; UpstreamOffset := r_Offset src; DownstreamOffset := d |}.
Proof. intros Hv Hc. split; [done|]. by intros _. Qed.

Lemma retry_known s a n rec src cfg store :
  faithful src a → known_opt store →
  known_opt (Retry out_of_range (during (retry_env a)) cfg
    (retry_attempt s n rec (retry_answers a) (λ off, {| os_tp := source_tp src;
       UpstreamOffset := r_Offset src; DownstreamOffset := off |})) ([], store)).2.2.
Proof.
  intros (Hv & _ & Hr & Hel) Hk. unfold Retry.
  apply (retry_loop_keeps out_of_range (λ x : retry_world, known_opt x.2)); [| |done].
  - intros [es o] Ho. unfold retry_attempt.
    destruct (retry_answers a (length es)) eqn:Hj; [done|].
    apply emit_sync_known; [|done]. apply copied_logged; [done|by eapply Hr].
  - intros b [es o]. cbn [during elapse snd]. intros (x & -> & Hx).
    destruct (Hel b x) as (evs & -> & Hes). eexists. split; [done|by apply known_events].
Qed.

Lemma on_produced_inv s a n src t st st' :
  faithful src a → on_produced m out_of_range s a n src t st = Ok st' →
  flow_inv st → flow_inv st'.
Proof.
  intros Hfa Hst [Hk Hp Hw]. pose proof Hfa as (Hv & Hf & _).
  pose proof (on_produced_done _ _ _ _ _ _ _ _ _ Hst)
    as (_ & _ & _ & dlq & Hdlq & Htr).
  assert (written_syncs (l_trace st') = written_syncs (l_trace st)) as Hwr.
  { assert (∀ e, written_syncs [e] = [] → written_syncs (l_trace st ++ dlq ++ [e]) =
      written_syncs (l_trace st)) as He.
    { intros e He. rewrite !written_syncs_app, He, app_nil_r.
      replace (written_syncs dlq) with (@nil OffsetSync); [by rewrite app_nil_r|].
      clear -Hdlq. induction Hdlq as [|? ? [->|[r ->]] _ IH]; [done|exact IH..]. }
    destruct Htr as [[-> _]|[-> _]]; by apply He. }
  assert (known_opt (l_syncStore st') ∧ ∀ os, PSync os ∈ l_inflight st' → logged os) as [H1 H2];
    [|split; [done|done|by rewrite Hwr]].
  clear Hdlq Htr Hwr Hw. unfold on_produced in Hst. destruct (first_answer a) as [err|off] eqn:Ha.
  - apply bind_ok in Hst as (u & _ & Hst).
    pose proof (retry_known s a n (retry_record t (r_Partition src) src) src (s_retryCfg s)
      (l_syncStore st) Hfa Hk) as Hstore.
    destruct (Retry _ _ _ _ _) as [[u'|err'|why] [k store]]; cbn [snd] in Hstore; [| |done].
    + apply bind_ok in Hst as (u2 & _ & [= <-]). split; [done|]. cbn. rewrite app_nil_r. done.
    + apply bind_ok in Hst as (u2 & _ & Hst). apply bind_ok in Hst as (u3 & _ & [= <-]).
      split; [done|]. cbn. rewrite app_nil_r. done.
  - pose proof (copied_logged src off Hv (Hf off eq_refl)) as Hos.
    destruct (_ && _); [|injection Hst as <-; split; [done|]; cbn; by rewrite app_nil_r].
    destruct (s_syncWriter s).
    2:{ injection Hst as <-. split; [by apply emit_sync_known|]. cbn. by rewrite app_nil_r. }
    destruct (OffsetSyncInterval _ =? 0); [done|]. injection Hst as <-.
    split; [by apply emit_sync_known|]. cbn. intros os [H|H]%elem_of_app; [by apply Hp|].
    destruct (_ =? 0); [|by apply elem_of_nil in H]. apply list_elem_of_singleton in H as [= ->].
    exact Hos.
Qed.

Lemma elem_of_delete_list {A} (l : list A) i x : x ∈ delete i l → x ∈ l.
Proof. intros H. eapply elem_of_submseteq; [exact H|apply sublist_submseteq, sublist_delete]. Qed.

Lemma flow_step_inv s topic st st' :
  Forall logged topic → flow_step s topic st st' → flow_inv st → flow_inv st'.
Proof.
  intros Htopic [e He Hf|os Hos ->] [Hk Hp Hw].
  2:{ assert (logged os) as Hl.
      { apply elem_of_app in Hos. rewrite Forall_forall in Htopic, Hw.
        destruct Hos; [by apply Htopic|by apply Hw]. }
      split; [|done|done]. destruct Hk as (x & Hx & Hkx). cbn. rewrite Hx.
      eexists. split; [done|]. by apply (known_event (EvSync os)). }
  destruct e as [order|p| |now order|now| | |now ans|i a|i ans]; cbn [loop_step] in He.
  1-8: destruct (l_pc st) as [|[|r rs] n0|n0|n0| | | |] eqn:Hpc; try done.
  - case_decide; [|done]. injection He as He. apply bind_ok in He as (u & _ & [= <-]). done.
  - injection He as He. apply bind_ok in He as (u & _ & [= <-]). by case_match.
  - by injection He as <-.
  - injection He as <-. split; [done| |].
    + cbn. intros os [H|H]%elem_of_app; [by apply Hp|]. by apply list_elem_of_singleton in H.
    + cbn. rewrite written_syncs_app. cbn. by rewrite app_nil_r.
  - case_decide; [|done]. case_match; injection He as He; [|by rewrite <- He].
    apply bind_ok in He as (u & _ & He). apply bind_ok in He as (u2 & _ & [= <-]). done.
  - injection He as <-. split; [done..|]. cbn. by rewrite app_nil_r.
  - case_match; [|done]. by injection He as <-.
  - case_match; injection He as He.
    + apply bind_ok in He as (u & _ & [= <-]). split; [done..|].
      cbn. rewrite written_syncs_app. cbn. by rewrite app_nil_r.
    + subst st'. split; [done..|]. cbn. rewrite written_syncs_app. cbn. by rewrite app_nil_r.
  - case_match; injection He as He; apply bind_ok in He as (u & _ & [= <-]); (split; [done..|]);
      cbn; rewrite written_syncs_app; cbn; by rewrite app_nil_r.
  - destruct (l_inflight st !! i) as [[n src t|]|] eqn:Hi; [|done..]. injection He as He.
    eapply on_produced_inv; [by eapply Hf|exact He|].
    split; [done| |done]. cbn. intros os H%elem_of_delete_list. by apply Hp.
  - destruct (l_inflight st !! i) as [[|os]|] eqn:Hi; try done.
    destruct (s_syncWriter s) as [sw|]; [|done]. injection He as <-.
    assert (logged os) as Hos by (apply Hp; by eapply list_elem_of_lookup_2).
    split; [done| |].
    + cbn. intros os' H%elem_of_delete_list. by apply Hp.
    + cbn. destruct (sw_closed sw); [by rewrite app_nil_r|].
      rewrite written_syncs_app. apply Forall_app. split; [done|by constructor].
Qed.

(** ** Restarts *)

Definition holds_logged (r : kgo_Record) : Prop := ∃ os, logged os ∧ holds os r.

Lemma handle_records_known rs s n :
  Forall holds_logged rs → known s → ∃ s' n', handle_records rs s n = Ok (s', n') ∧ known s'.
Proof.
  intros Hrs. revert s n. induction Hrs as [|r rs (os & Hos & Hk & Hv) _ IH]; intros s n Hs; simpl.
  { by exists s, n. }
  destruct (logged_ok _ Hos) as (_ & Hwf & Hlen).
  pose proof (deserialize_serialize os [] [] Hwf Hlen) as Hd. rewrite !app_nil_r in Hd.
  rewrite Hk, Hv, Hd. apply IH. by apply (known_event (EvSync os)).
Qed.

Lemma read_loop_known polls s n res s' :
  Forall holds_logged (concat (p_Records <$> polls)) → known s →
  read_loop polls s n = Some (res, s') → known s'.
Proof.
  revert s n. induction polls as [|p polls IH]; intros s n Hr Hs; simpl; [done|].
  cbn [fmap list_fmap concat] in Hr. apply Forall_app in Hr as [Hp Hr].
  destruct (p_CtxErr p) as [[]|].
  - by intros [= _ <-].
  - intros [= _ <-]. by apply (known_event EvReadToEnd).
  - destruct (handle_records_known (p_Records p) s n Hp Hs) as (s1 & n1 & -> & Hs1).
    case_match; [|by apply IH]. intros [= _ <-]. by apply (known_event EvReadToEnd).
Qed.

Lemma flow_history_known topic store :
  flow_history topic store → Forall logged topic ∧ known store.
Proof.
  induction 1 as [|s topic store now st store' _ [Ht Hk] Hrtc Hst|topic store polls res store' _
    [Ht Hk] Hr Hread].
  - split; [constructor|apply known_new].
  - assert (flow_inv st) as [(x & Hx & Hkx) _ Hw].
    { apply (rtc_invariant (flow_step s topic) flow_inv) in Hrtc; [done| |].
      - intros x y Hxy Hx. by eapply flow_step_inv.
      - split; [by eexists| |constructor]. by intros os ?%elem_of_nil. }
    split; [by apply Forall_app|]. congruence.
  - split; [done|]. unfold read_with_timeout in Hread.
    destruct (read_loop_ends polls NewSyncStore 0) as [out Hout].
    unfold ReadToEnd in Hread. rewrite Hout in Hread. subst out.
    eapply read_loop_known; [|exact known_new|exact Hout].
    rewrite fmap_app, concat_app, app_nil_r. eapply Forall_impl; [exact Hr|].
    intros r (os & Hos & Hh). rewrite Forall_forall in Ht. exists os. split; [by apply Ht|done].
Qed.
End flow.

(** ** Property *)

(** C2. Failover is safe end to end. Take any history of a flow: any number of runs
    of the replication loop, its callbacks, retries, sync writes and the follower
    in any interleaving, and of restarts that read the offset-syncs topic back,
    completely or not. If the acknowledgements name positions at or before where
    the target keeps the last copies of the records, and these copies are in the
    order of their partition, then every checkpoint emitted from the store, at
    whatever moments of whatever runs its translations are made, is a position
    from which a consumer skips nothing: each record at or after the committed
    offset has its copy at or after the checkpoint. *)
Theorem failover_safe {OS : Outside} {RE : RegexpEngine} {P : Prometheus}
    (m : Metrics) out L c now view groups fetch cps cp v w :
  (∀ tp, log_map (L tp)) →
  (∀ group o, ∃ topic', flow_history m out L topic' (view group o)) →
  emitCheckpoints c now view (inr groups) fetch = Ok cps → cp ∈ cps →
  L (cp_tp cp) v w → cp_UpstreamOffset cp ≤ v → cp_DownstreamOffset cp ≤ w.
Proof.
  intros HL Hview Hcps Hcp. apply (emitted_no_skip c now view groups fetch cps); [done..|].
  intros g o. destruct (Hview g o) as [topic' Hh]. apply (known_consistent L HL).
  by apply (flow_history_known m out L HL) in Hh as [_ ?].
Qed.

(** ** Witness *)

Definition ex_L : TopicPartition → Z → Z → Prop := λ _, ex_log.

(** A first start on an empty topic. *)
Definition ex_started : SyncStore := (read_with_timeout [] NewSyncStore).2.
(** One record, acknowledged at 107. *)
Definition ex_flow_events : list loop_event :=
  [EvPoll (ex_poll [ex_record 100]); EvProduce; EvCallback 0 (ex_answers (inr 107))].
Definition ex_flow_end : option loop_state :=
  run_loop New (λ _, 0) ex_source ex_flow_events (init_loop 0 (Some ex_started)).
Definition ex_flow_store : SyncStore := default NewSyncStore (ex_flow_end ≫= l_syncStore).

Lemma ex_flow_history : flow_history New (λ _, 0) ex_L [] ex_flow_store.
Proof.
  destruct ex_flow_end as [st|] eqn:Hend; [|vm_compute in Hend; discriminate Hend].
  assert (l_trace st = [EProduce 0 (target_record ex_source (ex_record 100)); EAcked 0] ∧
          l_syncStore st = Some ex_flow_store) as [Htr Hst].
  { unfold ex_flow_store. rewrite Hend. vm_compute in Hend. injection Hend as <-.
    split; reflexivity. }
  change (@nil OffsetSync) with ([] ++ written_syncs
    [EProduce 0 (target_record ex_source (ex_record 100)); EAcked 0]).
  rewrite <- Htr. apply (fh_run New (λ _, 0) ex_L ex_source [] ex_started 0); [| |exact Hst].
  - apply (fh_restart _ _ _ [] NewSyncStore [] (Ok ()) ex_started); [constructor|constructor|].
    reflexivity.
  - unfold ex_flow_end, ex_flow_events, run_loop in Hend.
    destruct (loop_step _ _ _ (EvPoll _) _) as [[st1| |]|] eqn:H1; try discriminate Hend.
    destruct (loop_step _ _ _ EvProduce st1) as [[st2| |]|] eqn:H2; try discriminate Hend.
    destruct (loop_step _ _ _ (EvCallback _ _) st2) as [[st3| |]|] eqn:H3; try discriminate Hend.
    injection Hend as ->.
    apply rtc_l with st1; [by apply (fs_loop _ _ _ _ _ _ _ _ H1)|].
    apply rtc_l with st2; [by apply (fs_loop _ _ _ _ _ _ _ _ H2)|].
    apply rtc_once, (fs_loop _ _ _ _ _ _ _ _ H3). intros i a n src t [= <- <-] Hi.
    assert (src = ex_record 100) as ->.
    { vm_compute in H1. injection H1 as <-. vm_compute in H2. injection H2 as <-.
      vm_compute in Hi. by injection Hi as _ <- _. }
    assert (∀ d, inr 107 = @inr error Z d → copied ex_L (ex_record 100) d) as Hc.
    { intros d [= <-]. exists 107. unfold ex_L, ex_log. simpl. lia. }
    split; [|split; [exact Hc|split; [intros k d Hd; by apply Hc|]]].
    + split; [split; simpl; lia|]. vm_compute. discriminate.
    + intros b s. exists []. split; [reflexivity|constructor].
Qed.

Definition ex_flow_offsets (group : string) : error + list OffsetResponse :=
  inr [{| o_Topic := "orders"; o_Partition := 0; o_At := 150 |}].

Lemma failover_safe_witness :
  emitCheckpoints ex_emitter ex_flow_store (λ _ _, ex_flow_store) (inr ["billing"]) ex_flow_offsets
  = Ok [{| ConsumerGroupID := "billing"; cp_tp := {| Topic := "orders"; Partition := 0 |};
           cp_UpstreamOffset := 150; cp_DownstreamOffset := 108; Metadata := "" |}] ∧ 108 ≤ 207.
Proof.
  assert (emitCheckpoints ex_emitter ex_flow_store (λ _ _, ex_flow_store) (inr ["billing"])
    ex_flow_offsets = Ok [{| ConsumerGroupID := "billing";
      cp_tp := {| Topic := "orders"; Partition := 0 |};
      cp_UpstreamOffset := 150; cp_DownstreamOffset := 108; Metadata := "" |}]) as H
    by (vm_compute; reflexivity).
  split; [exact H|].
  refine (failover_safe New (λ _, 0) ex_L ex_emitter ex_flow_store (λ _ _, ex_flow_store)
    ["billing"] ex_flow_offsets _ _ 200 207 (λ _, ex_log_map)
    (λ _ _, ex_intro _ [] ex_flow_history) H (list_elem_of_here _ _) _ _).
  - unfold ex_L, ex_log. lia.
  - simpl. lia.
Defined.
