(* ===== verification/Disorder.v ===== *)
(** * Catch-up outside the window of the ring buffer

    A schedule for any range that is larger than the buffer and has a second
    fetcher with an offset that shares its slot with the first offset of the
    range: that fetcher runs first, and its record is drained in place of the
    first one. The engine's threshold and the default capacity of the buffer are
    such that every catch-up of the default configuration has this schedule. *)
From S2P Require Import Prelude GoStrings Filter Retry CircuitBreaker Types Policy SyncStore RingBuffer.
From S2P Require Import RingSafety Config ClientOpts Kgo Dlq Metrics Admin SourceLoop Parallel.
From S2P Require Import CatchUp Discovery Heartbeats Checkpoints SyncIO Engine EngineSafety.
From stdpp Require Import sorting.

Local Open Scope Z_scope.

Section schedule.
Context {A : Type} (maxBatch cap : Z) (Hcap : 0 < cap).

(** A state in which the fetchers are [fs] and the buffer is [r]. *)
Definition moved (s : pipeline A) (r : OrderedRingBuffer A) (fs : list (fetcher A)) : pipeline A :=
  {| rb := r; ctxDone := ctxDone s; fetcherFailed := fetcherFailed s; broadcasts := broadcasts s;
     fetchers := fs; drainer := drainer s; out := out s |}.

(** Nobody holds the mutex, sleeps or has closed the buffer. *)
Definition quiet (r : OrderedRingBuffer A) : Prop :=
  capacity r = cap ∧ mu r = None ∧ cond r = [] ∧ closed r = false ∧
  length (slots r) = Z.to_nat cap.

Lemma put_moved s r fs j f r' f' s' :
  (j < length fs)%nat → Put (S j) 0 (ctxDone s) r f = Some (r', f') →
  rtc (ring_step maxBatch) (moved s r' (<[j := f']> fs)) s' →
  rtc (ring_step maxBatch) (moved s r (<[j := f]> fs)) s'.
Proof.
  intros Hj HP. apply rtc_l. exists (EvPut j 0). cbn [step moved fetchers rb ctxDone].
  rewrite list_lookup_insert_eq by done. cbn. rewrite HP. cbn. by rewrite list_insert_insert_eq.
Qed.

Lemma set_slot_set_slot i x y (r : OrderedRingBuffer A) :
  set_slot i y (set_slot i x r) = set_slot i y r.
Proof. unfold set_slot. cbn. by rewrite list_insert_insert_eq. Qed.

Lemma set_slot_lookup i x (r : OrderedRingBuffer A) :
  (i < length (slots r))%nat → slots (set_slot i x r) !! i = Some x.
Proof. apply list_lookup_insert_eq. Qed.

Lemma Signal_nobody k (r : OrderedRingBuffer A) : cond r = [] → Signal k r = r.
Proof. destruct r. cbn. intros ->. unfold Signal, set_cond. cbn. by destruct (k mod 0)%nat. Qed.

Definition filled (off : Z) (rec : A) : ringSlot A :=
  {| state := slotFilled; record := Some rec; offset := off |}.

(** A call of [Put] that finds its slot empty, undisturbed. *)
Lemma put_one s r fs j off rec rest x :
  quiet r → ctxDone s = false → (j < length fs)%nat →
  slots r !! idx cap off = Some x → state x = slotEmpty →
  rtc (ring_step maxBatch)
    (moved s r (<[j := {| todo := (off, rec) :: rest; pc := PutCall |}]> fs))
    (moved s (set_slot (idx cap off) (filled off rec) r)
       (<[j := {| todo := rest; pc := PutCall |}]> fs)).
Proof.
  intros (Hc & Hmu & Hcond & _ & _) Hctx Hj Hx Hst. set (i := idx cap off) in *.
  assert (i < length (slots r))%nat as Hi by by eapply lookup_lt_Some.
  eapply put_moved; [done|cbn; rewrite (slotIndex_mod cap) by done; reflexivity|].
  fold (idx cap off). fold i.
  eapply put_moved; [done|cbn; rewrite Hx; cbn; rewrite bool_decide_true by done; reflexivity|].
  eapply put_moved; [done|cbn; rewrite Hx; reflexivity|].
  eapply put_moved; [done|cbn [Put at_pc todo pc]; rewrite set_slot_lookup by done; reflexivity|].
  rewrite set_slot_set_slot.
  eapply put_moved; [done|cbn [Put at_pc todo pc]; rewrite set_slot_lookup by done; cbn;
    rewrite bool_decide_true by done; reflexivity|].
  rewrite set_slot_set_slot.
  assert (with_state slotFilled (with_offset off (with_record (Some rec) x)) = filled off rec)
    as -> by done.
  eapply put_moved; [done| |apply rtc_refl]. destruct rest as [|[o' rec'] rest]; cbn;
    by rewrite Signal_nobody.
Qed.

(** Calls that all find their slots empty. *)
Lemma put_many s r fs j pre o rec rest :
  quiet r → ctxDone s = false → (j < length fs)%nat →
  NoDup (idx cap <$> (pre ++ [(o, rec)]).*1) →
  (∀ p, p ∈ pre ++ [(o, rec)] → slots r !! idx cap p.1 = Some emptySlot) →
  ∃ r', quiet r' ∧ drainOffset r' = drainOffset r ∧
    slots r' !! idx cap o = Some (filled o rec) ∧
    rtc (ring_step maxBatch)
      (moved s r (<[j := {| todo := pre ++ (o, rec) :: rest; pc := PutCall |}]> fs))
      (moved s r' (<[j := {| todo := rest; pc := PutCall |}]> fs)).
Proof.
  intros Hq Hctx Hj. revert r Hq. induction pre as [|[o1 rec1] pre IH]; intros r Hq Hnd Hempty.
  - exists (set_slot (idx cap o) (filled o rec) r).
    assert (slots r !! idx cap o = Some emptySlot) as Ho by (apply (Hempty (o, rec)); by left).
    split; [unfold quiet; cbn; by rewrite length_insert|]. split; [done|].
    split; [apply set_slot_lookup; by eapply lookup_lt_Some|]. by eapply put_one.
  - cbn [app fmap list_fmap] in Hnd. apply NoDup_cons in Hnd as [Hnot Hnd].
    assert (slots r !! idx cap o1 = Some emptySlot) as Ho1 by (apply (Hempty (o1, rec1)); by left).
    destruct (IH (set_slot (idx cap o1) (filled o1 rec1) r)) as (r' & Hq' & Hd & Ho & Hr).
    + unfold quiet. cbn. by rewrite length_insert.
    + done.
    + intros p Hp. cbn. rewrite list_lookup_insert_ne; [apply Hempty; by right|].
      intros Heq. apply Hnot. change (idx cap o1 ∈ idx cap <$> (pre ++ [(o, rec)]).*1).
      rewrite Heq.
      apply list_elem_of_fmap_2, list_elem_of_fmap_2. done.
    + exists r'. split; [done|]. split; [done|]. split; [done|].
      etrans; [|exact Hr]. by eapply put_one.
Qed.

(** *** The drainer *)

(** A state in which the drainer is at [d]. *)
Definition drained (s : pipeline A) (r : OrderedRingBuffer A) (d : drain_pc A)
    (o : list (list (option A))) : pipeline A :=
  {| rb := r; ctxDone := ctxDone s; fetcherFailed := fetcherFailed s; broadcasts := broadcasts s;
     fetchers := fetchers s; drainer := d; out := o |}.

Lemma drain_moved s r d o r' d' o' s' :
  DrainBatch maxBatch (ctxDone s) r d = Some (r', d', o') →
  rtc (ring_step maxBatch) (drained s r' d' (o ++ o')) s' →
  rtc (ring_step maxBatch) (drained s r d o) s'.
Proof.
  intros HD. apply rtc_l. exists EvDrain. cbn [step drained drainer rb ctxDone]. by rewrite HD.
Qed.

(** The scan ends, and the batch starts with what it has started with. *)
Lemma scan_ends s r next x b o :
  quiet r → ctxDone s = false →
  ∃ s' b', rtc (ring_step maxBatch) (drained s r (DScan next (x :: b)) o) s' ∧
    out s' = o ++ [x :: b'].
Proof.
  intros Hq Hctx. remember (Z.to_nat (batch_limit maxBatch) - length (x :: b))%nat as n eqn:Hn.
  revert r b Hq Hn. induction n as [n IH] using lt_wf_ind. intros r b Hq Hn.
  assert (∀ r, cond r = [] → ∃ s' b', rtc (ring_step maxBatch) (drained s r (DAdd (x :: b)) o) s' ∧
    out s' = o ++ [x :: b']) as Hadd.
  { intros r0 _. eexists _, b. split.
    - eapply drain_moved; [reflexivity|]. eapply drain_moved; [reflexivity|]. apply rtc_refl.
    - cbn. by rewrite app_nil_r. }
  destruct (Z.ltb_spec (Z.of_nat (length (x :: b))) (batch_limit maxBatch)) as [Hlt|Hge].
  2:{ destruct (Hadd r) as (s' & b' & Hs' & Hb'); [apply Hq|]. exists s', b'. split; [|done].
      eapply drain_moved; [cbn [DrainBatch]; by rewrite (proj2 (Z.ltb_ge _ _)) by done|].
      by rewrite app_nil_r. }
  pose proof Hq as (Hc & Hmu & Hcond & Hcl & Hlen).
  set (off := i64 (next + Z.of_nat (length (x :: b)))).
  pose proof (Z.mod_pos_bound off cap Hcap).
  destruct (lookup_lt_is_Some_2 (slots r) (Z.to_nat (off mod cap))) as [sl Hsl]; [lia|].
  destruct (decide (state sl = slotFilled)) as [Hf|Hf].
  - set (i := Z.to_nat (off mod cap)) in *.
    set (r' := set_slot i (with_state slotEmpty (with_record None sl)) r).
    assert (i < length (slots r))%nat as Hi by by eapply lookup_lt_Some.
    destruct (IH (Z.to_nat (batch_limit maxBatch) - length (x :: b ++ [record sl]))%nat)
      with r' (b ++ [record sl]) as (s' & b' & Hs' & Hb').
    + rewrite Hn. cbn [length] in *. rewrite length_app. cbn [length]. lia.
    + unfold quiet, r'. cbn. by rewrite length_insert.
    + done.
    + exists s', b'. split; [|done].
      eapply drain_moved.
      { cbn [DrainBatch]. rewrite (proj2 (Z.ltb_lt _ _)) by done. fold off.
        rewrite (slotIndex_mod cap) by done. fold i. rewrite Hsl. cbn.
        by rewrite bool_decide_true by done. }
      rewrite app_nil_r.
      eapply drain_moved; [cbn [DrainBatch]; rewrite Hsl; reflexivity|]. rewrite app_nil_r.
      eapply drain_moved; [cbn [DrainBatch]; rewrite Hsl; reflexivity|]. rewrite app_nil_r.
      eapply drain_moved; [cbn [DrainBatch]; rewrite set_slot_lookup by done; reflexivity|].
      rewrite app_nil_r, set_slot_set_slot. exact Hs'.
  - destruct (Hadd r) as (s' & b' & Hs' & Hb'); [apply Hq|]. exists s', b'. split; [|done].
    eapply drain_moved.
    { cbn [DrainBatch]. rewrite (proj2 (Z.ltb_lt _ _)) by done. fold off.
      rewrite (slotIndex_mod cap) by done. rewrite Hsl. cbn.
      by rewrite bool_decide_false by done. }
    by rewrite app_nil_r.
Qed.

(** A call of [DrainBatch] takes what is in the slot of the offset it expects. *)
Lemma drain_takes s r sl :
  quiet r → ctxDone s = false → in_s 64 (drainOffset r) →
  slots r !! idx cap (drainOffset r) = Some sl → state sl = slotFilled →
  ∃ s' b, rtc (ring_step maxBatch) (drained s r DrainCall []) s' ∧ out s' = [record sl :: b].
Proof.
  intros Hq Hctx Hoff Hsl Hst. pose proof Hq as (Hc & Hmu & Hcond & Hcl & Hlen).
  unfold idx in Hsl. set (next := drainOffset r) in *. set (i := Z.to_nat (next mod cap)) in *.
  assert (i < length (slots r))%nat as Hi by by eapply lookup_lt_Some.
  set (r' := set_slot i (with_state slotEmpty (with_record None sl)) r).
  assert (quiet r') as Hq' by (unfold quiet, r'; cbn; by rewrite length_insert).
  destruct (scan_ends s r' next (record sl) [] [] Hq' Hctx) as (s' & b & Hs' & Hb).
  exists s', b. split; [|done].
  assert (0 < batch_limit maxBatch) as Hlim.
  { unfold batch_limit. destruct (Z.leb_spec maxBatch 0); lia. }
  assert (unlock (set_mu (Some 0%nat) r) = r) as Hun.
  { unfold unlock, set_mu. destruct r. cbn in *. by subst. }
  eapply drain_moved; [cbn [DrainBatch]; rewrite (slotIndex_mod cap) by done; reflexivity|].
  fold next i.
  eapply drain_moved; [cbn [DrainBatch]; unfold lock; rewrite Hmu; reflexivity|].
  eapply drain_moved; [cbn; rewrite Hsl; cbn; rewrite bool_decide_true by done; reflexivity|].
  eapply drain_moved; [cbn [DrainBatch]; reflexivity|]. rewrite Hun.
  eapply drain_moved; [cbn [DrainBatch]; rewrite Hcl; reflexivity|].
  eapply drain_moved; [cbn [DrainBatch]; rewrite Hctx; reflexivity|].
  eapply drain_moved.
  { cbn [DrainBatch length]. change (Z.of_nat 0) with 0.
    rewrite (proj2 (Z.ltb_lt _ _)), Z.add_0_r, (sint_small 64 next) by done.
    rewrite (slotIndex_mod cap) by done. fold i. rewrite Hsl. cbn.
    by rewrite bool_decide_true by done. }
  eapply drain_moved; [cbn [DrainBatch]; rewrite Hsl; reflexivity|].
  eapply drain_moved; [cbn [DrainBatch]; rewrite Hsl; reflexivity|].
  eapply drain_moved; [cbn [DrainBatch]; rewrite set_slot_lookup by done; reflexivity|].
  rewrite set_slot_set_slot. exact Hs'.
Qed.

(** One fetcher runs up to an offset that shares the slot of the first one. *)
Lemma overtaken start (loads : list (list (Z * A))) j pre o rec rest r :
  cap < 2 ^ 63 → in_s 64 start → NewOrderedRingBuffer cap start = Ok r →
  loads !! j = Some (pre ++ (o, rec) :: rest) →
  NoDup (idx cap <$> (pre ++ [(o, rec)]).*1) → idx cap o = idx cap start →
  ∃ (s : pipeline A) b,
    rtc (ring_step maxBatch) (start_pipeline r loads) s ∧ out s = [Some rec :: b].
Proof.
  intros Hc Hst Hr Hj Hnd Hidx. unfold NewOrderedRingBuffer in Hr.
  rewrite (proj2 (Z.ltb_ge cap 0)) in Hr by lia. injection Hr as <-.
  set (r := {| slots := _ |}). set (s0 := start_pipeline r loads).
  assert (quiet r) as Hq.
  { unfold quiet, r. cbn. rewrite length_replicate, sint_small by (done || unfold in_s; lia). done. }
  assert (fetchers s0 !! j = Some {| todo := pre ++ (o, rec) :: rest; pc := PutCall |}) as Hf.
  { cbn. by rewrite list_lookup_fmap, Hj. }
  destruct (put_many s0 r (fetchers s0) j pre o rec rest Hq eq_refl) as (r' & Hq' & Hd & Ho & Hput);
    [by eapply lookup_lt_Some|done| |].
  { intros p _. cbn. apply lookup_replicate. split; [done|]. unfold idx.
    pose proof (Z.mod_pos_bound p.1 cap Hcap). lia. }
  rewrite (list_insert_id _ _ _ Hf) in Hput. change (moved s0 r (fetchers s0)) with s0 in Hput.
  match type of Hput with rtc _ _ ?t => set (s1 := t) in Hput end.
  destruct (drain_takes s1 r' (filled o rec)) as (s2 & b & Hdr & Hb); [done|done|by rewrite Hd| |done|].
  { rewrite Hd. cbn [drainOffset r]. by rewrite <- Hidx. }
  exists s2, b. split; [|done]. etrans; [exact Hput|]. exact Hdr.
Qed.
End schedule.

(** ** The split of a large range *)

Lemma sorted_NoDup l : StronglySorted Z.lt l → NoDup l.
Proof.
  induction 1 as [|x l _ IH Hx]; constructor; [|done].
  rewrite Forall_forall in Hx. intros Hin%Hx. lia.
Qed.

Section range.
Context (ps : ParallelSource) (start last : Z) (log : Z → option kgo_Record).
Context (Hworkers : 2 ≤ ps_workers ps) (Hstart : 0 ≤ start) (Hend : last < 2 ^ 63).
Context (Hcap : 0 < ps_ringBufferCapacity ps < 2 ^ 63).
(** Several fetchers, and room for the buffer behind the first segment. *)
Context (Hsplit : 1000 * ps_workers ps ≤ last - start)
  (Hlarge : 2 * ps_ringBufferCapacity ps ≤ last - start).

Abbreviation cap := (ps_ringBufferCapacity ps).
Abbreviation eff := (seg_count ps start last).
Abbreviation sz := (seg_size ps start last).

Lemma large_split : eff = ps_workers ps ∧ sz = (last - start) / ps_workers ps ∧ 0 < sz ∧
  2 * sz ≤ last - start.
Proof.
  unfold seg_count, seg_size, split_range. rewrite Z.quot_div_nonneg by lia.
  assert (1000 ≤ (last - start) / ps_workers ps) by (apply Z.div_le_lower_bound; lia).
  rewrite (proj2 (Z.ltb_ge _ _)) by done. cbn. split_and!; [done|done|lia|].
  pose proof (Z.mul_div_le (last - start) (ps_workers ps)). nia.
Qed.

(** The first offset behind the first segment that shares the slot of [start]. *)
Definition rival : Z := start + cap * ((sz + cap - 1) / cap).

Lemma rival_spec :
  start + sz ≤ rival < start + sz + cap ∧ rival < last ∧ start < rival ∧
  idx cap rival = idx cap start.
Proof.
  destruct large_split as (_ & _ & Hz & Hzl). unfold rival.
  pose proof (Z.div_mod (sz + cap - 1) cap ltac:(lia)).
  pose proof (Z.mod_pos_bound (sz + cap - 1) cap ltac:(lia)).
  set (q := (sz + cap - 1) / cap) in *.
  split; [lia|]. split; [lia|]. split; [lia|]. unfold idx. f_equal.
  rewrite (Z.mul_comm cap), Z.mod_add by lia. done.
Qed.

(** Offsets of a window of the buffer's size have slots of their own. *)
Lemma window_slots lo l :
  NoDup l → Forall (λ o, lo ≤ o < lo + cap) l → NoDup (idx cap <$> l).
Proof.
  intros Hnd Hl. rewrite Forall_forall in Hl. apply NoDup_fmap_2_strong; [|done].
  intros x y Hx%Hl Hy%Hl. unfold idx. intros Heq.
  pose proof (Z.mod_pos_bound x cap ltac:(lia)). pose proof (Z.mod_pos_bound y cap ltac:(lia)).
  pose proof (Z.div_mod x cap ltac:(lia)). pose proof (Z.div_mod y cap ltac:(lia)).
  assert (x mod cap = y mod cap) by lia. assert (x / cap = y / cap) by nia. lia.
Qed.

(** What the rival's fetcher has to put: fewer records than the buffer has slots,
    the last of them the rival. *)
Lemma rival_load rec :
  log rival = Some rec →
  ∃ j pre rest,
    (segment_load log <$> segments ps start last) !! j = Some (pre ++ (rival, rec) :: rest) ∧
    NoDup (idx cap <$> (pre ++ [(rival, rec)]).*1).
Proof.
  intros Hrec. destruct rival_spec as (Hr1 & Hr2 & Hr3 & _).
  destruct large_split as (He & _ & Hz & _).
  set (j := seg_of ps start last rival).
  assert (is_Some (segments ps start last !! j)) as [s Hs].
  { eexists. apply segments_lookup; [lia..|]. split; [|reflexivity].
    unfold j, seg_of. assert (0 ≤ (rival - start) / sz) by (apply Z.div_pos; lia). lia. }
  assert (s.1 ≤ rival < s.2) as Hin by (apply (seg_of_spec ps start last) with j; done || lia).
  assert (start + sz ≤ s.1) as Hlo.
  { apply segments_lookup in Hs as [_ ->]; [|lia..]. cbn.
    assert (1 ≤ Z.of_nat j); [|nia]. unfold j, seg_of.
    assert (1 ≤ (rival - start) / sz) by (apply Z.div_le_lower_bound; lia). lia. }
  exists j. unfold segment_load.
  set (f := λ o, pair o <$> log o).
  exists (omap f (seqZ s.1 (rival - s.1))), (omap f (seqZ (rival + 1) (s.2 - rival - 1))).
  assert (f rival = Some (rival, rec)) as Hfr by (unfold f; by rewrite Hrec).
  split.
  - rewrite list_lookup_fmap, Hs. cbn. f_equal.
    replace (s.2 - s.1) with (rival - s.1 + (s.2 - rival)) by lia.
    rewrite seqZ_app, omap_app by lia. f_equal. replace (s.1 + (rival - s.1)) with rival by lia.
    rewrite seqZ_cons by lia. cbn [omap list_omap]. rewrite Hfr.
    done.
  - replace (omap f _ ++ _) with (omap f (seqZ s.1 (rival - s.1 + 1))).
    2:{ rewrite seqZ_app, omap_app by lia. f_equal.
        replace (s.1 + (rival - s.1)) with rival by lia. change (seqZ rival 1) with [rival].
        cbn [omap list_omap]. by rewrite Hfr. }
    apply (window_slots s.1).
    + apply sorted_NoDup, omap_seqZ_sorted.
    + apply Forall_forall. intros o ((o' & x) & -> & Ho)%list_elem_of_fmap.
      apply list_elem_of_omap in Ho as (o2 & Ho2%elem_of_seqZ & Hf). unfold f in Hf.
      destruct (log o2); simplify_eq/=. lia.
Qed.

(** The drainer can be handed the rival first. *)
Lemma range_overtaken maxBatch r rec :
  NewOrderedRingBuffer (ring_capacity ps start last) start = Ok r → log rival = Some rec →
  ∃ (s : pipeline kgo_Record) b,
    rtc (ring_step maxBatch) (start_pipeline r (segment_load log <$> segments ps start last)) s ∧
    out s = [Some rec :: b].
Proof.
  intros Hr Hrec. destruct (rival_load rec Hrec) as (j & pre & rest & Hj & Hnd).
  assert (ring_capacity ps start last = cap) as Hring.
  { unfold ring_capacity. rewrite !sint_small by (unfold in_s; lia).
    by rewrite (proj2 (Z.ltb_ge _ _)) by lia. }
  pose proof large_split.
  rewrite Hring in Hr. eapply (overtaken maxBatch cap ltac:(lia) start);
    [lia|unfold in_s; lia|exact Hr|exact Hj|done|].
  apply rival_spec.
Qed.
End range.

(** ** Property *)

Section default.
Context {OS : Outside}.

(** C15. Catch-up in parallel can reorder every partition it is started for,
    under the default ring buffer of 16384 slots and under every other of at most
    50000. Take a partition whose lag is above the engine's threshold, up to 100
    workers and a log without gaps. Then some schedule of its fetchers and its
    drainer hands out, as the very first record, one that is not the first of the
    range. *)
Theorem default_catchup_disorder now refusal cfg srcCfg tgtCfg workers w ps w'
    committed hwm c h log maxBatch r :
  RingBufferCapacity cfg ≤ 50000 → workers ≤ 100 → 0 ≤ hwm < 2 ^ 63 → committed < 2 ^ 63 →
  NewParallelSource now refusal cfg srcCfg tgtCfg workers w = (Ok ps, w') →
  high_lag (Ok (committed, hwm)) = Some (c, h) →
  (∀ o, c ≤ o < h → is_Some (log o)) →
  NewOrderedRingBuffer (ring_capacity ps c h) c = Ok r →
  ∃ (s : pipeline kgo_Record) o rec b,
    rtc (ring_step maxBatch) (start_pipeline r (segment_load log <$> segments ps c h)) s ∧
    out s = [Some rec :: b] ∧ log o = Some rec ∧ c < o < h.
Proof.
  intros Hcapacity Hw Hhwm Hcom HN Hlag Hlog Hr.
  assert (0 < ps_ringBufferCapacity ps ≤ 50000 ∧ 2 ≤ ps_workers ps ≤ 100) as [Hcap [Hw2 Hw100]].
  { unfold NewParallelSource in HN. destruct (wrap_err _ _ _); [|done..].
    destruct (NewDLQ _ _ _ _ _) as [q w1]. injection HN as <- _. cbn.
    destruct (Z.leb_spec (RingBufferCapacity cfg) 0), (Z.ltb_spec workers 2); lia. }
  assert (0 ≤ c ∧ c + 100000 < h ∧ h < 2 ^ 63) as (H0 & Hlarge & Hh).
  { unfold high_lag, parallelThreshold in Hlag.
    destruct (Z.leb_spec committed 0); [|rewrite sint_small in Hlag by (done || unfold in_s; lia)];
      (case_match eqn:E; [|done]); b2p; injection Hlag as <- <-; lia. }
  destruct (rival_spec ps c h) as (_ & Hr2 & Hr3 & _); [lia..|].
  destruct (Hlog (rival ps c h)) as [rec Hrec]; [lia|].
  destruct (range_overtaken ps c h log) with maxBatch r rec as (s & b & Hs & Hb); [lia..|done|done|].
  exists s, (rival ps c h), rec, b. done.
Qed.
End default.

(** A partition of 200000 records, none of them committed, four workers, and the
    default capacity. *)
Definition ex_log (o : Z) : option kgo_Record := Some (ex_record o).
Definition ex_behind : outcome ParallelSource * clients ExampleOutside :=
  NewParallelSource 0 None ex_source_cfg (ex_cluster "w:9092") (ex_cluster "e:9092") 4 no_clients.
Definition ex_reader : ParallelSource :=
  match ex_behind.1 with Ok ps => ps | _ => ex_parallel end.

Lemma default_catchup_disorder_witness :
  ps_ringBufferCapacity ex_reader = 16384 ∧
  ∃ r, NewOrderedRingBuffer (ring_capacity ex_reader 0 200000) 0 = Ok r ∧
  ∃ (s : pipeline kgo_Record) o rec b,
    rtc (ring_step 500) (start_pipeline r (segment_load ex_log <$> segments ex_reader 0 200000)) s ∧
    out s = [Some rec :: b] ∧ ex_log o = Some rec ∧ 0 < o < 200000.
Proof.
  split; [vm_compute; reflexivity|].
  assert (ring_capacity ex_reader 0 200000 = 16384) as Hring by (vm_compute; reflexivity).
  eexists. split; [rewrite Hring; reflexivity|].
  apply (default_catchup_disorder 0 None ex_source_cfg (ex_cluster "w:9092") (ex_cluster "e:9092")
    4 no_clients ex_reader ex_behind.2 0 200000 0 200000 ex_log 500).
  - vm_compute. discriminate.
  - lia.
  - lia.
  - lia.
  - apply (ok_eta ex_behind ex_parallel). vm_compute. reflexivity.
  - reflexivity.
  - intros o _. eexists. reflexivity.
  - rewrite Hring. reflexivity.
Defined.
